(* ===== verification/_CoqProject ===== *)
-Q . S2P
Prelude.v
SeqID.v
HubProtocol.v
HubSpec.v
MemoryStore.v
MemoryStoreFacts.v
MemoryStoreSpec.v
HubStore.v
SQLStore.v
SQLStoreFacts.v
StoreBatches.v
SQLStoreSim.v
SQLStorePurge.v
SQLStoreState.v
SQLStoreSpec.v
SQLPublish.v
RateLimit.v
ClientRegistry.v
Wake.v
Handlers.v
HandlersSpec.v
Codecs.v
CodecsSpec.v
Classify.v
CommitWalk.v
CommitWalkSpec.v
Json.v
ControllerLog.v
GroupFold.v
GroupFoldSpec.v
LedgerHead.v
Credential.v
Policy.v
PolicySpec.v
GroupHandle.v
GroupHandleSpec.v
Capability.v
MemberRoot.v
LifecycleRegistry.v
Authentication.v
TreeTime.v
LifecycleProof.v
LifecycleGate.v
LifecycleDemo.v
TreeTimeSpec.v
MemberRootSpec.v
AuthenticationSpec.v
ClaimsSpec.v
DeviceValueSpec.v
LifecycleRegistrySpec.v
LifecycleGateSpec.v
AppOutbox.v
LogDelivery.v
LogDeliverySpec.v
Topics.v
AppLane.v
AppLaneSpec.v
AppLaneLive.v
HubMux.v
HubMuxSubs.v
HubMuxClaims.v
HubMuxAcks.v
HubMuxBacklog.v
Receive.v
ReceiveWindow.v
ReceiveGate.v
ReceiveWorld.v
Tunnel.v
TunnelSpec.v
SealedTunnel.v
SealedTunnelSpec.v
