(* ===== verification/Prelude.v ===== *)
(** * A verification library for kumiai

    kumiai layers group messaging over MLS: a hub that stores and forwards opaque frames, an RPC peer that
    keeps a group's members on one commit history and one application log, and a control ledger, carried
    inside MLS commits, that says who administers the group and which devices belong to it. This library
    models the core of its packages in Rocq, translated from the TypeScript under src/packages, and
    proves what makes them correct.

    ** The program and the files

    The hub (packages/hub-protocol, packages/hub-server, packages/hub-store):
    - HubProtocol.v: the records of types.ts, the error classes and codes of errors.ts.
    - SeqID.v: the position strings minted by memoryStore.ts and their order.
    - MemoryStore.v: memoryStore.ts, the whole store, one function of a [Store] per method.
    - HubSpec.v: what types.ts promises of a topic's log: an append-only history with a removed prefix, from
      which pages, head, oldest and gap follow. MemoryStoreFacts.v holds the simulation between the two and
      MemoryStoreSpec.v the theorems about the store. HubStore.v is the interface (a typeclass) that the
      handlers use, with the in-memory store as an instance.
    - SQLStore.v: the SQL store (packages/hub-store: store.ts, tables.ts, migrations.ts), statement by
      statement over tables that are finite maps. SQLStoreFacts.v says what its queries and batch deletions
      compute, StoreBatches.v puts the in-memory store's loops in the same form, SQLStoreSim.v (frames),
      SQLStorePurge.v (the age sweep) and SQLStoreState.v (the rest) relate the two stores, and
      SQLStoreSpec.v makes the SQL store another instance of the interface that answers alike.
      SQLPublish.v interleaves the transactions of racing publishes.
    - RateLimit.v (rateLimit.ts), ClientRegistry.v (registry.ts), Wake.v (wake.ts, wake-envelope.ts): the
      parts the handlers share. Handlers.v: handlers.ts, every request handler as one transition of the
      hub's state, with its calls to the store, the limiters, the registry and the wake dispatcher.
      HandlersSpec.v: the theorems. Receive.v: the receive channel of handlers.ts, as a machine: the drain of
      the backlog, the chain of writes behind the delivery hook and the ack window, the acks, teardown.
      ReceiveWindow.v bounds what it holds, ReceiveGate.v says what it may write, and ReceiveWorld.v sets it
      among the publishes and the queue of its device.

    The peer (packages/rpc, packages/broadcast):
    - Codecs.v and CodecsSpec.v: the byte formats (commit-frame.ts, handshake.ts, recovery.ts,
      ledger-entries.ts, directed-tag.ts, app-aad.ts, frame-size.ts).
    - Topics.v: topic derivation (broadcast/topic.ts, rpc/topic.ts).
    - Classify.v: classify.ts, what a frame of the commit log means to a peer; roster.ts; cursor.ts.
    - CommitWalk.v and CommitWalkSpec.v: [walkCommits] of peer.ts, the pull of the commit log with its
      cursor, strand flag and floor.
    - AppOutbox.v (app-outbox.ts) and LogDelivery.v, LogDeliverySpec.v (log-delivery.ts): entries accepted
      from the host and published to the application log, as a machine over the awaits of the worker.
    - AppLane.v, AppLaneSpec.v, AppLaneLive.v (app-lane.ts): the other end of that log, the buffer of
      retained frames, the durable read position and the workers that hand frames to the host.
    - HubMux.v (hub-mux.ts): the one receive channel all of the peer reads through, as a machine: its
      subscriptions and their retries, the drain, the claims of the frames' readers, the sinks, publishing
      and disposal. HubMuxSubs.v proves what holds of subscriptions, HubMuxClaims.v how acts treat the
      claims, HubMuxAcks.v when a frame is acknowledged, HubMuxBacklog.v who gets a frame that came early.

    The tunnel (packages/hub-tunnel):
    - Tunnel.v: errors.ts, frame.ts, envelope.ts and transport.ts, a byte stream between two clients of the
      hub as a machine: the inbound pump with its reorder check, the outbound chain, the teardown paths.
      TunnelSpec.v proves the stream faithful and orders the transport's calls.
    - SealedTunnel.v: encrypted-transport.ts and sequence.ts, the transport whose frames a cipher seals under
      a session; SealedTunnelSpec.v proves when it acknowledges and how a session ends.

    The group state (packages/mls):
    - GroupFold.v and GroupFoldSpec.v: fold.ts, ledger.ts, roster.ts, registry.ts, envelope-fold.ts, the
      replay of the control ledger and the strict fold of one commit's envelope.
    - LedgerHead.v: head.ts, the hash chain that binds a ledger. Credential.v: credential.ts, anchor.ts,
      envelope.ts, the decoders of what MLS carries.
    - Policy.v and PolicySpec.v: policy.ts, which commits a member accepts. GroupHandle.v and
      GroupHandleSpec.v: group-handle.ts, a received message from its bytes to the handle's new state.
    - Json.v: decoded JSON values and the numbers the code compares.

    The lifecycle of a group whose anchor names a controller (packages/mls):
    - ControllerLog.v: errors.ts, controller-log.ts, controller-ingest.ts, the sizes of history.ts. What
      @kokuin/controller does to a log is the class [ControllerLib].
    - Capability.v: capability.ts and the pinned capabilities of authentication.ts, over the class
      [TokenLib]. Authentication.v: [verifyLeafCredential], whether a leaf may stand in the tree.
      AuthenticationSpec.v: what every admitted leaf rests on.
    - MemberRoot.v: member-root.ts, whose authority a leaf stands on, what a log proves, and who falls with
      it. MemberRootSpec.v proves the cascade exact, ClaimsSpec.v that author and verifier derive the same.
    - LifecycleRegistry.v: the lifecycle branch of registry.ts and the authentication of its proofs
      (lifecycle-proof.ts). DeviceValueSpec.v: the cast of a device value is sound. LifecycleRegistrySpec.v:
      the registry only learns.
    - TreeTime.v: the time a tree attests and the expiry of a leaf (lifecycle.ts), stale-leaf.ts, history.ts.
      TreeTimeSpec.v: no single member moves that time.
    - LifecycleProof.v: the effects of a proof entry on the tree (lifecycle-proof.ts). LifecycleGate.v:
      [prepareLifecycleGate] of lifecycle.ts, which the handle consults before and after MLS applies a
      commit. LifecycleGateSpec.v: on what grounds a leaf is removed, and what a taken commit leaves.
      LifecycleDemo.v: a small group at which these theorems are evaluated.

    They meet as the code has them meet: the handlers are proved against the store interface, the log
    contract of HubSpec.v is what CommitWalkSpec.v and AppLaneSpec.v assume of a hub and what
    MemoryStoreSpec.v proves of one, the walk uses the classifier and the codecs, the handle uses the policy,
    the folds and the head. The folds and the handle are proved for any lifecycle branch and any gate;
    LifecycleRegistrySpec.v and LifecycleGateSpec.v put those of the code in their place.

    ** What the theorems show

    - The store implements the log contract; an acknowledged frame is served or its loss is shown as a gap;
      replays and lost compare-and-sets change nothing; acks, pages, purges and the key-package pool do
      exactly what they say. The SQL store gives the answers the in-memory one gives, so the contract is
      its own too, and its racing publishes are serializable.
    - The limiter decides as one that never prunes and bounds the rate; bindings and tokens of the registry
      cannot be confused; wake pings account for every frame; a publish reaches every bound subscriber once;
      a refused request leaves the hub as it was.
    - A connected device misses nothing that its queue holds; what its channel writes the hub's hook allows;
      what is in flight and queued for it is bounded.
    - The codecs round-trip and refuse what is not canonical; topics of different lanes never coincide.
    - The walk of the commit log is one pass over it; a frame strands or heals the peer exactly on the
      classifier's word, and the durable cursor remembers it.
    - The delivery worker publishes in order and removes an entry only once nothing can have overtaken it.
      The app lane's cursor passes only what is delivered or dead, its pulls end, its workers clear their
      queue, and its buffer does not depend on the order of arrival.
    - The mux acknowledges a frame once all its readers have and never otherwise; asks for a subscription a
      bounded number of times and says so when it is refused; a frame that came before its listener waits
      for it.
    - A tunnel hands over the chunks the other end published, in order and once each, whatever the hub
      redelivers; it calls hub, stream and host in one order from opening to release. The sealed one
      acknowledges every frame it takes once, and a frame that can never be opened fails the session exactly
      when it was owed to it.
    - The strict fold and the tolerant replay of the ledger agree; authority descends from the anchor; equal
      heads mean equal ledgers; a commit that is accepted moves the head by its entries and leaves the
      handle coherent.
    - With a controller: a leaf comes in only on a grant or a membership that stands, and goes only by a
      proof, a lapse, its member's wish or a later grant; every leaf an accepted commit leaves stands under
      the new registry; the registry never unlearns; the attested time needs the controller or two members;
      a denial or removal takes down exactly the leaves it should, and the claims its author derives are
      the ones the group accepts.

    Liveness is stated as such where the code has a loop: [CommitWalkSpec.walk_is_one_pass],
    [HubMuxSubs.ask_settles], [AppLaneLive.drain_terminates] and [AppLaneLive.worker_delivers_queue] say that a result comes, and how
    soon.

    ** Bounds and fuel

    Recursion in the models is structural but for the two paged pulls. [walkLoop] (CommitWalk.v) and
    [loadPages] (AppLane.v) take a number of pages; their theorems show that a hundred frames a page, over a
    log of bounded length, the number given is enough, so that running out is never the outcome. Integers
    are [Z] with the wrap-around of their width where bytes are written; counts that index lists are [nat].
    Positions are strings compared as JavaScript compares strings of digits. The limiter runs on exact
    rationals where the code uses doubles.

    ** What a step is

    A method without an [await] is one function. A request handler is one transition: the in-memory store
    resolves at once, so nothing runs between its awaits that the handler could see. A task under a mutex
    (the commit walk, the app lane) is one function, and the calls it makes out of it ask an oracle numbered
    by the calls made so far, so the world may change between any two. The delivery worker, the outbox, the
    wake dispatcher, the registry, the receive channel, the tunnel's
    transports and the lane's workers are machines whose steps are interleaved freely. The mux is such a
    machine too, and since the listeners it calls may call it back, a step of it ends where its loops call one. A call of the SQL store is one function, but for [publish],
    which SQLPublish.v splits at its head check: the statements after it hold the row of [hub_sequence] until
    they commit.

    ** What is a parameter

    Code outside src: the database engine (its row order, its binary column, its transactions), the MLS
    library, SHA-256, HKDF and AEAD, UTF-8 and base64url, [JSON.parse] and
    [JSON.stringify], DID normalisation, clocks. The
    theorems about hashes conclude "or the hash has a collision" and do not assume there is none. The
    libraries @kokuin/controller, @kokuin/token and @kokuin/capability are two classes of operations;
    nothing is assumed of them, but for three theorems that a normal form of a DID is its own. Folds that
    the code remembers are folded again, which a pure fold cannot tell. Times of tokens are exact rationals,
    infinities or [NaN], compared as JavaScript compares them.

    ** Not modelled

    - hub-server: hub.ts, which wires the handlers to a transport. hub-wake: push transports.
      hub-client, hub-http, broadcast beyond topics: transports over the hub.
    - rpc: the rest of peer.ts (the journal and the authoring of commits, anchor rotation, recovery,
      lifecycle), the epoch runtime, directed calls.
    - mls: creating, joining and recovering a group, authoring commits, application messages,
      [assertRecoveryBinding].
      mls-rpc and mls-hub: the adapters between the packages.
    - hub-conformance and rpc-conformance: test suites. *)

From Stdlib Require Export ZArith Lia Bool Ascii.
From stdpp Require Export relations functions base tactics list gmap sets strings pretty sorting.

(** ** Results *)

(** A function that returns or throws: [Err e] is a thrown [e]. *)
Inductive result (E A : Type) : Type :=
  | Ok (a : A)
  | Err (e : E).
Arguments Ok {E A} a.
Arguments Err {E A} e.

#[export] Instance result_ret {E} : MRet (result E) := fun A a => Ok a.
#[export] Instance result_bind {E} : MBind (result E) := fun A B f r =>
  match r with Ok a => f a | Err e => Err e end.
#[export] Instance result_fmap {E} : FMap (result E) := fun A B f r =>
  match r with Ok a => Ok (f a) | Err e => Err e end.
#[export] Instance result_eq_dec {E A} `{EqDecision E, EqDecision A} :
  EqDecision (result E A).
Proof. solve_decision. Defined.

Definition is_ok {E A} (r : result E A) : bool :=
  match r with Ok _ => true | Err _ => false end.

(** A configured maximum. The code writes "no bound" as [Number.POSITIVE_INFINITY]. *)
Inductive limit := Finite (z : Z) | Infinity.

(** [n > limit] on JavaScript numbers. *)
Definition exceeds (n : Z) (l : limit) : bool :=
  match l with Finite m => (m <? n)%Z | Infinity => false end.

(** [n >= limit]. *)
Definition reaches (n : Z) (l : limit) : bool :=
  match l with Finite m => (m <=? n)%Z | Infinity => false end.

(** ** Acts

    What a method does synchronously: the state it leaves and the calls it makes out, in order. *)

Section acts.
Context {St Ef : Type}.

Definition act_of : Type := St -> St * list Ef.

Definition skip : act_of := fun s => (s, []).
Definition emit (e : Ef) : act_of := fun s => (s, [e]).
Definition andThen (a b : act_of) : act_of := fun s =>
  let '(s1, out1) := a s in let '(s2, out2) := b s1 in (s2, out1 ++ out2).

Definition each {A} (f : A -> act_of) : list A -> act_of :=
  fix go l := match l with [] => skip | x :: l' => andThen (f x) (go l') end.
End acts.

Arguments act_of St Ef : clear implicits.

(** ** Machines

    A part of the program that waits between its acts: [step] is what an event makes it do, [None] when
    the event is not one it can meet in that state. *)

Section machine.
Context {St Ev Ef : Type} (step : Ev -> St -> option (St * list Ef)) (start : St).

Inductive mtrace : list (Ev * list Ef) -> St -> Prop :=
  | mtrace_init : mtrace [] start
  | mtrace_step tr s e s' out : mtrace tr s -> step e s = Some (s', out) -> mtrace (tr ++ [(e, out)]) s'.

Fixpoint mrun (es : list Ev) (s : St) : option (St * list (Ev * list Ef)) :=
  match es with
  | [] => Some (s, [])
  | e :: es' =>
    match step e s with
    | None => None
    | Some (s1, out) => (fun r => (r.1, (e, out) :: r.2)) <$> mrun es' s1
    end
  end.

Lemma mrun_trace es : ∀ tr s s' tr', mtrace tr s -> mrun es s = Some (s', tr') -> mtrace (tr ++ tr') s'.
Proof.
  induction es as [|e es IH]; cbn [mrun]; intros tr s s' tr' Htr Hr.
  - injection Hr as <- <-. by rewrite app_nil_r.
  - destruct (step e s) as [[s1 out]|] eqn:Hs; [|done].
    destruct (mrun es s1) as [[s2 tr2]|] eqn:Hr2; [|done]. injection Hr as <- <-.
    rewrite (cons_middle _ tr tr2), app_assoc. eapply IH; [by eapply mtrace_step|done].
Qed.

Lemma mrun_init es s tr : mrun es start = Some (s, tr) -> mtrace tr s.
Proof. apply (mrun_trace es []). constructor. Qed.

Lemma mtrace_snoc_inv tr e out s' :
  mtrace (tr ++ [(e, out)]) s' -> ∃ s, mtrace tr s ∧ step e s = Some (s', out).
Proof.
  intros H. inversion H as [He|tr0 s e0 s0 out0 Htr Hs He]; subst.
  - symmetry in He. by apply app_nil in He as [_ ?].
  - apply app_inj_tail in He as [-> [= -> ->]]. by exists s.
Qed.

Lemma mtrace_det tr s s' : mtrace tr s -> mtrace tr s' -> s = s'.
Proof.
  intros H. revert s'. induction H as [|tr s e s1 out Htr IH Hs]; intros s' H'.
  - inversion H' as [|tr0]; [done|]. by destruct tr0.
  - apply mtrace_snoc_inv in H' as (s0 & Htr0 & Hs0). apply IH in Htr0 as <-. congruence.
Qed.

Lemma mtrace_prefix tr1 tr2 s : mtrace (tr1 ++ tr2) s -> ∃ s1, mtrace tr1 s1.
Proof.
  revert s. induction tr2 as [|[e out] tr2 IH] using rev_ind; intros s Htr.
  - rewrite app_nil_r in Htr. by exists s.
  - rewrite app_assoc in Htr. apply mtrace_snoc_inv in Htr as (s0 & Htr & _). by eapply IH.
Qed.
End machine.

Arguments mtrace_det {_ _ _ _ _}.
Arguments mtrace_prefix {_ _ _ _ _}.
Arguments mtrace_snoc_inv {_ _ _ _ _}.
Arguments mrun_trace {_ _ _ _ _}.
Arguments mrun_init {_ _ _ _ _}.

(** ** Tactics *)

Ltac invs H := inversion H; clear H; simplify_eq/=.

(** Case analysis on every [match]/[if] scrutinee of the goal. *)
Ltac split_matches := repeat (case_match; simplify_eq/=; try done).

(** The same, on a hypothesis. *)
Ltac split_matches_in H :=
  repeat match type of H with
  | context [match ?x with _ => _ end] => destruct x eqn:?; simplify_eq/=; try done
  end.

Create HintDb kumiai.

(** ** The order of JavaScript strings

    [a < b] on strings compares code units from the left. Every string the code orders is made of
    ASCII digits, where code units are the characters Stdlib's [String.compare] compares. *)

Declare Scope js_scope.
Delimit Scope js_scope with js.
Open Scope js_scope.

Definition slt (a b : string) : Prop := String.ltb a b = true.
Definition sle (a b : string) : Prop := String.leb a b = true.

Infix "▷" := andThen (at level 61, left associativity) : js_scope.

Infix "<ₛ" := slt (at level 70) : js_scope.
Infix "≤ₛ" := sle (at level 70) : js_scope.

#[export] Instance slt_dec a b : Decision (a <ₛ b).
Proof. unfold slt. apply _. Defined.
#[export] Instance sle_dec a b : Decision (a ≤ₛ b).
Proof. unfold sle. apply _. Defined.

Lemma sle_le a b : a ≤ₛ b <-> String.le a b.
Proof. unfold sle, String.le. by rewrite Is_true_true. Qed.

Lemma sle_refl a : a ≤ₛ a.
Proof. apply sle_le. reflexivity. Qed.

Lemma sle_trans a b c : a ≤ₛ b -> b ≤ₛ c -> a ≤ₛ c.
Proof. rewrite !sle_le. intros. by etrans. Qed.

Lemma sle_antisym a b : a ≤ₛ b -> b ≤ₛ a -> a = b.
Proof. rewrite !sle_le. intros. by apply (anti_symm String.le). Qed.

Lemma slt_alt a b : a <ₛ b <-> ¬ b ≤ₛ a.
Proof.
  unfold slt, sle, String.ltb, String.leb.
  rewrite (String.compare_antisym b a). destruct (String.compare a b); simpl; naive_solver.
Qed.

Lemma slt_sle a b : a <ₛ b -> a ≤ₛ b.
Proof.
  unfold slt, sle, String.ltb, String.leb. by destruct (String.compare a b).
Qed.

Lemma slt_irrefl a : ¬ a <ₛ a.
Proof. rewrite slt_alt. intros H. apply H, sle_refl. Qed.

Lemma sle_lt_or_eq a b : a ≤ₛ b -> a <ₛ b ∨ a = b.
Proof.
  intros H. destruct (decide (b ≤ₛ a)) as [H'|H'].
  - right. by apply sle_antisym.
  - left. by apply slt_alt.
Qed.

Lemma sle_slt_trans a b c : a ≤ₛ b -> b <ₛ c -> a <ₛ c.
Proof. rewrite !slt_alt. intros H1 H2 H3. apply H2. by eapply sle_trans. Qed.

Lemma slt_sle_trans a b c : a <ₛ b -> b ≤ₛ c -> a <ₛ c.
Proof. rewrite !slt_alt. intros H1 H2 H3. apply H1. by eapply sle_trans. Qed.

Lemma slt_trans a b c : a <ₛ b -> b <ₛ c -> a <ₛ c.
Proof. intros H1 H2%slt_sle. by eapply slt_sle_trans. Qed.

Lemma slt_ne a b : a <ₛ b -> a ≠ b.
Proof. intros H ->. by apply slt_irrefl in H. Qed.

Lemma not_slt a b : ¬ a <ₛ b <-> b ≤ₛ a.
Proof. rewrite slt_alt. destruct (decide (b ≤ₛ a)); naive_solver. Qed.

#[export] Instance slt_strict : StrictOrder slt.
Proof. split; [exact slt_irrefl|exact slt_trans]. Qed.
#[export] Instance slt_transitive : Transitive slt := slt_trans.
#[export] Instance sle_preorder : PreOrder sle.
Proof. split; [exact sle_refl|exact sle_trans]. Qed.

#[export] Hint Resolve sle_refl slt_sle : kumiai.
#[export] Hint Immediate slt_trans sle_trans slt_sle_trans sle_slt_trans : kumiai.

Lemma ltb_slt a b : String.ltb a b = true <-> a <ₛ b.
Proof. done. Qed.

Lemma ltb_nslt a b : String.ltb a b = false <-> b ≤ₛ a.
Proof. rewrite <- not_slt. unfold slt. by destruct (String.ltb a b); naive_solver. Qed.

(** ** Lists as JavaScript arrays *)

(** [const i = l.indexOf(x); if (i !== -1) l.splice(i, 1)]: drop the first occurrence. *)
Fixpoint splice_out {A} `{EqDecision A} (x : A) (l : list A) : list A :=
  match l with
  | [] => []
  | y :: l' => if decide (x = y) then l' else y :: splice_out x l'
  end.

Lemma filter_all {A} (P : A -> Prop) `{∀ x, Decision (P x)} (l : list A) :
  (∀ x, x ∈ l -> P x) -> filter P l = l.
Proof.
  induction l as [|x l IH]; [done|]. intros HP.
  rewrite filter_cons_True by (apply HP; set_solver). rewrite IH; set_solver.
Qed.

Lemma filter_none {A} (P : A -> Prop) `{∀ x, Decision (P x)} (l : list A) :
  (∀ x, x ∈ l -> ¬ P x) -> filter P l = [].
Proof.
  induction l as [|x l IH]; [done|]. intros HP.
  rewrite filter_cons_False by (apply HP; set_solver). apply IH. set_solver.
Qed.

Lemma splice_out_filter {A} `{EqDecision A} (x : A) l :
  NoDup l -> splice_out x l = filter (fun y => y ≠ x) l.
Proof.
  induction 1 as [|y l Hy Hl IH]; [done|]. simpl. destruct (decide (x = y)) as [<-|Hne].
  - rewrite filter_cons_False by naive_solver. rewrite filter_all; [done|].
    intros z Hz ->. done.
  - rewrite filter_cons_True by congruence. by rewrite IH.
Qed.

Lemma splice_out_notin {A} `{EqDecision A} (x : A) l : x ∉ l -> splice_out x l = l.
Proof.
  induction l as [|y l IH]; [done|]. intros [? ?]%not_elem_of_cons. simpl.
  destruct (decide (x = y)); [done|]. by rewrite IH.
Qed.

Lemma filter_comm {A} (P Q : A -> Prop) `{∀ x, Decision (P x), ∀ x, Decision (Q x)} (l : list A) :
  filter P (filter Q l) = filter Q (filter P l).
Proof. rewrite !list_filter_filter. apply list_filter_iff. naive_solver. Qed.

Lemma filter_ext_elem {A} (P Q : A -> Prop) `{∀ x, Decision (P x), ∀ x, Decision (Q x)} (l : list A) :
  (∀ x, x ∈ l -> P x <-> Q x) -> filter P l = filter Q l.
Proof.
  induction l as [|x l IH]; [done|]. intros HPQ. specialize (HPQ x ltac:(set_solver)) as Hx.
  rewrite !filter_cons, IH by set_solver. repeat case_decide; naive_solver.
Qed.

(** *** Sorted lists *)

Lemma StronglySorted_sublist {A} (R : A -> A -> Prop) l1 l2 :
  sublist l1 l2 -> StronglySorted R l2 -> StronglySorted R l1.
Proof.
  induction 1 as [|x l1 l2 Hs IH|x l1 l2 Hs IH]; intros Hl; [constructor| |];
    apply StronglySorted_inv in Hl as [Hl Hx]; [|by apply IH].
  constructor; [by apply IH|]. rewrite Forall_forall in Hx |- *. intros y Hy. apply Hx. by eapply elem_of_sublist.
Qed.

Lemma StronglySorted_snoc {A} (R : A -> A -> Prop) l x :
  StronglySorted R (l ++ [x]) <-> StronglySorted R l ∧ Forall (fun y => R y x) l.
Proof.
  rewrite StronglySorted_app, Forall_forall. split; [set_solver|]. intros [Hl Hx].
  split; [set_solver|]. split; [done|repeat constructor].
Qed.

(** *** Strictly ascending lists of positions *)

Abbreviation ascending := (StronglySorted slt).

Lemma ascending_NoDup l : ascending l -> NoDup l.
Proof.
  induction 1 as [|x l Hl IH Hx]; constructor; [|done].
  intros Hin. rewrite Forall_forall in Hx. by apply (slt_irrefl x), Hx.
Qed.

Lemma ascending_filter P `{∀ x : string, Decision (P x)} l :
  ascending l -> ascending (filter P l).
Proof.
  induction 1 as [|x l Hl IH Hx]; [constructor|]. rewrite filter_cons.
  case_decide; [|done]. constructor; [done|].
  rewrite Forall_forall in Hx |- *. intros y [_ Hy]%list_elem_of_filter. by apply Hx.
Qed.

Lemma ascending_app l1 l2 :
  ascending (l1 ++ l2) <->
  ascending l1 ∧ ascending l2 ∧ (∀ x y, x ∈ l1 -> y ∈ l2 -> x <ₛ y).
Proof.
  induction l1 as [|x l1 IH]; simpl.
  - split; [|naive_solver]. intros H. split; [constructor|]. split; [done|]. set_solver.
  - split.
    + intros H. apply StronglySorted_inv in H as [H1 H2].
      apply IH in H1 as (? & ? & ?). rewrite Forall_app, !Forall_forall in H2.
      split; [constructor; [done|]; rewrite Forall_forall; naive_solver|].
      split; [done|]. intros a b [->|Ha]%elem_of_cons Hb; naive_solver.
    + intros (H1 & H2 & H3). apply StronglySorted_inv in H1 as [H1 H1'].
      constructor; [apply IH; set_solver|].
      rewrite Forall_app. split; [done|]. rewrite Forall_forall. set_solver.
Qed.

Lemma ascending_snoc l x :
  ascending l -> (∀ y, y ∈ l -> y <ₛ x) -> ascending (l ++ [x]).
Proof.
  intros Hl Hx. apply ascending_app. split; [done|]. split; [repeat constructor|].
  intros a b Ha ->%list_elem_of_singleton. by apply Hx.
Qed.

Lemma ascending_cons_inv x l :
  ascending (x :: l) -> ascending l ∧ ∀ y, y ∈ l -> x <ₛ y.
Proof.
  intros [H1 H2]%StronglySorted_inv. split; [done|]. by rewrite Forall_forall in H2.
Qed.

(** The element after every one the filter keeps out: filtering an ascending list above one of its
    members drops exactly the prefix up to it. *)
Lemma ascending_filter_above l1 x l2 :
  ascending (l1 ++ x :: l2) -> filter (fun y => x <ₛ y) (l1 ++ x :: l2) = l2.
Proof.
  intros (H1 & [H2 Hx]%ascending_cons_inv & H3)%ascending_app.
  rewrite filter_app, filter_cons_False by apply slt_irrefl.
  rewrite (filter_none _ l1), (filter_all _ l2); [done| |].
  - by apply Hx.
  - intros y Hy Hlt. assert (y <ₛ x) by (apply H3; set_solver).
    eapply slt_irrefl. by etrans.
Qed.

(** ** JavaScript Maps

    A [Map] iterates in insertion order: [set] on a present key keeps its place, [delete] followed by
    [set] moves it to the end. Where the code iterates a map, or deletes while iterating, the model
    is this ordered list; where the order is never observed it is a [gmap]. *)

Section jsmap.
Context {K : Type} `{EqDecision K} {V : Type}.
Implicit Types (m : list (K * V)) (k : K) (v : V).

Fixpoint jm_get k m : option V :=
  match m with
  | [] => None
  | (k', v) :: m' => if decide (k = k') then Some v else jm_get k m'
  end.

Definition jm_has k m : bool :=
  match jm_get k m with Some _ => true | None => false end.

Definition jm_set k v m : list (K * V) :=
  if jm_has k m then map (fun kv => if decide (kv.1 = k) then (k, v) else kv) m
  else m ++ [(k, v)].

Definition jm_delete k m : list (K * V) := filter (fun kv => kv.1 ≠ k) m.

Lemma jm_get_elem k v m : jm_get k m = Some v -> (k, v) ∈ m.
Proof.
  induction m as [|[k' v'] m IH]; simpl; [done|]. case_decide; simplify_eq; set_solver.
Qed.

Lemma jm_get_None k m : jm_get k m = None <-> k ∉ map fst m.
Proof.
  induction m as [|[k' v'] m IH]; simpl; [set_solver|].
  rewrite not_elem_of_cons. case_decide; naive_solver.
Qed.

Lemma jm_get_Some k v m : NoDup (map fst m) -> jm_get k m = Some v <-> (k, v) ∈ m.
Proof.
  intros Hnd. split; [apply jm_get_elem|]. induction m as [|[k' v'] m IH]; simpl in *.
  - set_solver.
  - apply NoDup_cons in Hnd as [Hk' Hnd]. intros [Heq|Hin]%elem_of_cons; simplify_eq.
    + by rewrite decide_True.
    + rewrite decide_False; [by apply IH|]. intros ->. apply Hk'.
      apply list_elem_of_fmap. by exists (k', v).
Qed.

Lemma jm_has_elem k m : jm_has k m = true <-> k ∈ map fst m.
Proof.
  unfold jm_has. destruct (jm_get k m) eqn:E.
  - split; [|done]. intros _. apply list_elem_of_fmap. exists (k, v).
    split; [done|]. by apply jm_get_elem.
  - split; [done|]. by apply jm_get_None in E.
Qed.

Lemma jm_set_fresh k v m : k ∉ map fst m -> jm_set k v m = m ++ [(k, v)].
Proof. intros H. unfold jm_set. destruct (jm_has k m) eqn:E; [|done]. by apply jm_has_elem in E. Qed.

Lemma jm_set_keys_present k v m : k ∈ map fst m -> map fst (jm_set k v m) = map fst m.
Proof.
  intros H%jm_has_elem. unfold jm_set. rewrite H, map_map. apply map_ext.
  intros [k' v']; simpl. by case_decide; simplify_eq/=.
Qed.

Lemma jm_set_keys k v m x : x ∈ map fst (jm_set k v m) <-> x = k ∨ x ∈ map fst m.
Proof.
  destruct (decide (k ∈ map fst m)) as [H|H].
  - rewrite jm_set_keys_present by done. naive_solver.
  - rewrite jm_set_fresh by done. rewrite map_app. set_solver.
Qed.

Lemma jm_set_NoDup k v m : NoDup (map fst m) -> NoDup (map fst (jm_set k v m)).
Proof.
  intros Hnd. destruct (decide (k ∈ map fst m)) as [H|H].
  - by rewrite jm_set_keys_present.
  - rewrite jm_set_fresh, map_app by done. apply NoDup_app. split; [done|].
    split; [set_solver|]. apply NoDup_singleton.
Qed.

Lemma jm_get_set k k' v m :
  jm_get k (jm_set k' v m) = if decide (k = k') then Some v else jm_get k m.
Proof.
  destruct (decide (k' ∈ map fst m)) as [H|H].
  - unfold jm_set. rewrite (proj2 (jm_has_elem _ _) H).
    induction m as [|[j w] m IH]; simpl in *; [set_solver|].
    destruct (decide (j = k')) as [->|]; simpl.
    + destruct (decide (k = k')) as [->|]; [done|]. clear IH H.
      induction m as [|[j w'] m IH]; simpl; [done|].
      destruct (decide (j = k')) as [->|]; simpl; repeat case_decide; naive_solver.
    + destruct (decide (k = j)) as [->|]; [by rewrite decide_False|]. apply IH. set_solver.
  - rewrite jm_set_fresh by done.
    induction m as [|[j w] m IH]; simpl in *; [done|]. apply not_elem_of_cons in H as [Hj H].
    destruct (decide (k = j)) as [->|]; [by rewrite decide_False|]. by apply IH.
Qed.

Lemma jm_set_elem k v m kv : kv ∈ jm_set k v m -> kv = (k, v) ∨ kv ∈ m ∧ kv.1 ≠ k.
Proof.
  unfold jm_set. destruct (jm_has k m) eqn:E.
  - intros (kv' & -> & Hin)%list_elem_of_fmap. cbn. case_decide; [by left|by right].
  - intros [Hin| ->%list_elem_of_singleton]%elem_of_app; [right|by left]. split; [done|]. intros <-.
    assert (kv.1 ∈ map fst m) as Hk by by apply list_elem_of_fmap_2. apply jm_has_elem in Hk. congruence.
Qed.

Lemma jm_delete_keys k m : map fst (jm_delete k m) = filter (fun x => x ≠ k) (map fst m).
Proof.
  unfold jm_delete. induction m as [|[k' v'] m IH]; [done|].
  rewrite !filter_cons; simpl. rewrite filter_cons. repeat case_decide; simpl; by rewrite ?IH.
Qed.

Lemma jm_get_delete k k' m :
  jm_get k (jm_delete k' m) = if decide (k = k') then None else jm_get k m.
Proof.
  unfold jm_delete. induction m as [|[j w] m IH]; simpl; [by case_decide|].
  rewrite filter_cons; simpl. destruct (decide (j ≠ k')); simpl; rewrite ?IH;
    repeat (case_decide; simplify_eq); done.
Qed.
End jsmap.
