(* ===== verification/SeqID.v ===== *)
(** * Sequence identifiers

    The positions both hub stores mint: [String(counter).padStart(12, '0')], compared everywhere as
    strings. The file shows that the string order of two minted positions is the order of the counters
    they come from, as long as the counter keeps to the twelve digits, and what happens past them. *)

From S2P Require Import Prelude.

#[local] Open Scope N_scope.

(** [s.padStart(width, c)]: a string that already has the width is returned as it is. *)
Definition padStart (width : nat) (c : ascii) (s : string) : string :=
  String.string_of_list_ascii (repeat c (width - String.length s)) +:+ s.

Definition SEQUENCE_ID_WIDTH : nat := 12.

(** The first counter whose decimal form is wider than the padding. *)
Definition SEQUENCE_LIMIT : N := 10 ^ 12.

(** [formatSequenceID] of memoryStore.ts, and the last line of [nextSequenceID] of store.ts. *)
Definition formatSequenceID (counter : N) : string :=
  padStart SEQUENCE_ID_WIDTH "0" (pretty counter).

(** ** Fixed-width decimals *)

Fixpoint fixed (k : nat) (n : N) : string :=
  match k with
  | O => ""
  | S k => fixed k (n / 10) +:+ String (pretty_N_char (n mod 10)) ""
  end.

Lemma append_cons a (s t : string) : String a s +:+ t = String a (s +:+ t).
Proof. done. Qed.

Lemma append_nil_l (s : string) : "" +:+ s = s.
Proof. done. Qed.

Lemma append_empty_r (s : string) : s +:+ "" = s.
Proof. induction s; [done|]. rewrite append_cons. congruence. Qed.

Lemma append_assoc (a b c : string) : (a +:+ b) +:+ c = a +:+ (b +:+ c).
Proof. induction a; [done|]. rewrite !append_cons. congruence. Qed.

Lemma length_append (a b : string) :
  String.length (a +:+ b) = (String.length a + String.length b)%nat.
Proof. induction a; [done|]. rewrite append_cons. simpl. congruence. Qed.

Lemma length_fixed k n : String.length (fixed k n) = k.
Proof. revert n. induction k; intros; simpl; [done|]. rewrite length_append, IHk. simpl. lia. Qed.

Lemma length_pretty_N_go n s : (String.length s <= String.length (pretty_N_go n s))%nat.
Proof.
  revert s. induction (N.lt_wf_0 n) as [n _ IH]; intros s.
  destruct (decide (n = 0)) as [->|]; [done|].
  rewrite pretty_N_go_step by lia.
  etrans; [|apply IH; apply N.div_lt; lia]. simpl. lia.
Qed.

Lemma repeat_zero_fixed k : String.string_of_list_ascii (repeat "0"%char k) = fixed k 0.
Proof.
  induction k; [done|]. change (fixed (S k) 0) with (fixed k 0 +:+ "0").
  rewrite <- IHk. clear. induction k; [done|].
  simpl in *. by rewrite append_cons, <- IHk.
Qed.

Lemma pretty_N_go_fixed k n s :
  n < 10 ^ N.of_nat k ->
  String.string_of_list_ascii (repeat "0"%char
    (k - (String.length (pretty_N_go n s) - String.length s))) +:+ pretty_N_go n s
  = fixed k n +:+ s.
Proof.
  revert n s. induction k as [|k IH]; intros n s Hn.
  - assert (n = 0) as -> by (rewrite N.pow_0_r in Hn; lia). done.
  - destruct (decide (n = 0)) as [->|Hn0].
    + rewrite pretty_N_go_0, Nat.sub_diag, Nat.sub_0_r. by rewrite repeat_zero_fixed.
    + rewrite pretty_N_go_step by lia. cbn [fixed].
      rewrite append_assoc, append_cons, append_nil_l.
      rewrite <- IH.
      * f_equal. f_equal. f_equal.
        pose proof (length_pretty_N_go (n / 10) (String (pretty_N_char (n mod 10)) s)).
        cbn [String.length] in *. lia.
      * rewrite Nat2N.inj_succ, N.pow_succ_r' in Hn. apply N.Div0.div_lt_upper_bound. done.
Qed.

Lemma formatSequenceID_fixed n : n < SEQUENCE_LIMIT -> formatSequenceID n = fixed 12 n.
Proof.
  intros Hn. unfold formatSequenceID, padStart, SEQUENCE_ID_WIDTH.
  destruct (decide (n = 0)) as [->|Hn0]; [done|].
  unfold pretty, pretty_N. rewrite decide_False by done.
  pose proof (pretty_N_go_fixed 12 n "" Hn) as H. by rewrite Nat.sub_0_r, append_empty_r in H.
Qed.

Lemma compare_snoc s1 s2 c1 c2 :
  String.length s1 = String.length s2 ->
  String.compare (s1 +:+ String c1 "") (s2 +:+ String c2 "")
  = match String.compare s1 s2 with Eq => Ascii.compare c1 c2 | r => r end.
Proof.
  revert s2. induction s1 as [|a s1 IH]; intros [|b s2] Hl; try done; simpl in *;
    rewrite ?append_cons; simpl.
  - by destruct (Ascii.compare c1 c2).
  - rewrite IH by lia. by destruct (Ascii.compare a b).
Qed.

Lemma compare_digit a b :
  a < 10 -> b < 10 -> Ascii.compare (pretty_N_char a) (pretty_N_char b) = (a ?= b).
Proof.
  intros Ha Hb.
  assert (∀ d, d < 10 -> N_of_ascii (pretty_N_char d) = 48 + d) as Hd.
  { intros d Hd. assert (d = 0 ∨ d = 1 ∨ d = 2 ∨ d = 3 ∨ d = 4 ∨ d = 5 ∨ d = 6 ∨ d = 7 ∨ d = 8
      ∨ d = 9) as H by lia. by destruct_or! H; subst. }
  unfold Ascii.compare. rewrite !Hd by done.
  destruct (N.compare_spec a b), (N.compare_spec (48 + a) (48 + b)); lia || done.
Qed.

(** Comparing two numbers by their quotients by ten, then by their last digits. *)
Lemma compare_digits a b :
  match a / 10 ?= b / 10 with Eq => a mod 10 ?= b mod 10 | r => r end = (a ?= b).
Proof.
  pose proof (N.div_mod' a 10) as Ha. pose proof (N.div_mod' b 10) as Hb.
  pose proof (N.mod_lt a 10 ltac:(done)). pose proof (N.mod_lt b 10 ltac:(done)).
  revert Ha Hb. generalize dependent (a mod 10). generalize dependent (b mod 10).
  generalize (a / 10) (b / 10). intros qa qb rb ? ra ? -> ->.
  destruct (N.compare_spec qa qb), (N.compare_spec ra rb),
    (N.compare_spec (10 * qa + ra) (10 * qb + rb)); try done; exfalso; lia.
Qed.

Lemma compare_fixed k a b :
  a < 10 ^ N.of_nat k -> b < 10 ^ N.of_nat k ->
  String.compare (fixed k a) (fixed k b) = (a ?= b).
Proof.
  revert a b. induction k as [|k IH]; intros a b Ha Hb.
  - rewrite N.pow_0_r in *. assert (a = 0) as -> by lia. by assert (b = 0) as -> by lia.
  - rewrite Nat2N.inj_succ, N.pow_succ_r' in Ha, Hb. cbn [fixed].
    rewrite compare_snoc by by rewrite !length_fixed.
    rewrite IH by (apply N.Div0.div_lt_upper_bound; done).
    rewrite compare_digit by (apply N.mod_lt; lia).
    apply compare_digits.
Qed.

Lemma compare_format a b :
  a < SEQUENCE_LIMIT -> b < SEQUENCE_LIMIT ->
  String.compare (formatSequenceID a) (formatSequenceID b) = (a ?= b).
Proof. intros Ha Hb. rewrite !formatSequenceID_fixed by done. by apply compare_fixed. Qed.

Lemma format_lt a b :
  a < SEQUENCE_LIMIT -> b < SEQUENCE_LIMIT ->
  formatSequenceID a <ₛ formatSequenceID b <-> a < b.
Proof.
  intros Ha Hb. unfold slt, String.ltb. rewrite compare_format by done.
  by destruct (N.compare_spec a b); split; try lia.
Qed.

Lemma format_le a b :
  a < SEQUENCE_LIMIT -> b < SEQUENCE_LIMIT ->
  formatSequenceID a ≤ₛ formatSequenceID b <-> a <= b.
Proof.
  intros Ha Hb. rewrite <- not_slt, format_lt by done. lia.
Qed.

Lemma format_inj a b :
  a < SEQUENCE_LIMIT -> b < SEQUENCE_LIMIT ->
  formatSequenceID a = formatSequenceID b -> a = b.
Proof.
  intros Ha Hb Heq. pose proof (compare_format a b Ha Hb) as H. rewrite Heq in H.
  rewrite compare_format in H by done. destruct (N.compare_spec b b), (N.compare_spec a b); lia || done.
Qed.

(** Positions are read in the order they were minted: below [SEQUENCE_LIMIT] the string comparison
    the stores use is the comparison of the counters, and every position has the twelve characters.
    The bound is needed: the first position past it sorts before the last one under it. *)
Theorem sequence_ids_ordered a b :
  a < SEQUENCE_LIMIT -> b < SEQUENCE_LIMIT ->
  (formatSequenceID a <ₛ formatSequenceID b <-> a < b) /\
  (formatSequenceID a = formatSequenceID b <-> a = b) /\
  String.length (formatSequenceID a) = SEQUENCE_ID_WIDTH /\
  formatSequenceID SEQUENCE_LIMIT <ₛ formatSequenceID (SEQUENCE_LIMIT - 1).
Proof.
  intros Ha Hb. split_and!.
  - by apply format_lt.
  - split; [by apply format_inj | by intros ->].
  - rewrite formatSequenceID_fixed by done. apply length_fixed.
  - by vm_compute.
Qed.

Lemma sequence_ids_ordered_witness :
  formatSequenceID 9 <ₛ formatSequenceID 10.
Proof. pose proof (sequence_ids_ordered 9 10 eq_refl eq_refl) as [H _]. by apply H. Defined.
