(* ===== verification/HubProtocol.v ===== *)
(** * The hub's protocol types and named errors

    packages/hub-protocol/src: the data of types.ts that the stores and the handlers exchange, the
    error classes of errors.ts with their wire codes, and the codec between the two. *)

From S2P Require Import Prelude.

From Stdlib Require Strings.Byte.

Abbreviation bytes := (list Byte.byte).

#[export] Instance byte_eq_dec : EqDecision Byte.byte := Byte.byte_eq_dec.

(** ** types.ts *)

Inductive RetentionClass := Log | Mailbox.

#[export] Instance RetentionClass_eq_dec : EqDecision RetentionClass.
Proof. solve_decision. Defined.

(** An optional property is an [option]: [None] when the key is absent. *)
Record StoredMessage := mkStoredMessage {
  sm_sequenceID : string;
  sm_senderDID : string;
  sm_topicID : string;
  sm_payload : bytes;
  sm_logPosition : option string;
}.

(** [expectedHead] has three states: absent ([None]), [null] ([Some None]) and a position. *)
Record PublishParams := mkPublish {
  pp_senderDID : string;
  pp_topicID : string;
  pp_payload : bytes;
  pp_expectedHead : option (option string);
  pp_publishID : option string;
  pp_retain : option RetentionClass;
}.

Record PublishResult := mkPublishResult { pr_sequenceID : string; pr_deduped : bool }.

Record SubscribeParams := mkSubscribe {
  sp_subscriberDID : string;
  sp_topicID : string;
  sp_retention : option Z;
}.

Record FetchTopicParams := mkFetchTopic {
  ft_subscriberDID : string;
  ft_topicID : string;
  ft_after : option string;
  ft_limit : option nat;
}.

Record FetchTopicResult := mkFetchTopicResult {
  fr_messages : list StoredMessage;
  fr_head : option string;
  fr_oldest : option string;
  fr_gap : bool;
}.

Record FetchParams := mkFetch {
  fp_recipientDID : string;
  fp_after : option string;
  fp_limit : option nat;
  fp_ack : option (list string);
}.

Record FetchResult := mkFetchResult {
  fe_messages : list StoredMessage;
  fe_cursor : option string;
  fe_hasMore : bool;
}.

Record StoreKeyPackageParams := mkStoreKeyPackage {
  kp_ownerDID : string;
  kp_keyPackage : string;
  kp_notAfter : option Z;
}.

#[export] Instance StoredMessage_eq_dec : EqDecision StoredMessage.
Proof. solve_decision. Defined.
#[export] Instance PublishResult_eq_dec : EqDecision PublishResult.
Proof. solve_decision. Defined.

(** ** errors.ts *)

(** One constructor per exported error class. *)
Inductive HubErrorClass :=
  | HeadMismatchError
  | NotSubscribedError
  | RetentionExceededError
  | InvalidPayloadError
  | AuthorizationDeniedError
  | KeyPackageQuotaExceededError
  | SubscriptionQuotaExceededError
  | KeyPackageFetchLimitError
  | WakeNotSupportedError
  | RateLimitedError.

#[export] Instance HubErrorClass_eq_dec : EqDecision HubErrorClass.
Proof. solve_decision. Defined.

(** A thrown value: an instance of one of the classes, or anything else. *)
Inductive Thrown :=
  | HubError (c : HubErrorClass) (message : string)
  | OtherError (message : string).

#[export] Instance Thrown_eq_dec : EqDecision Thrown.
Proof. solve_decision. Defined.

(** [HUB_ERROR_CODES]. *)
Definition HUB_ERROR_CODES (c : HubErrorClass) : string :=
  match c with
  | HeadMismatchError => "HUB_HEAD_MISMATCH"
  | NotSubscribedError => "HUB_NOT_SUBSCRIBED"
  | RetentionExceededError => "HUB_RETENTION_EXCEEDED"
  | InvalidPayloadError => "HUB_INVALID_PAYLOAD"
  | AuthorizationDeniedError => "HUB_AUTHORIZATION_DENIED"
  | KeyPackageQuotaExceededError => "HUB_KEYPACKAGE_QUOTA"
  | SubscriptionQuotaExceededError => "HUB_SUBSCRIPTION_QUOTA"
  | KeyPackageFetchLimitError => "HUB_KEYPACKAGE_FETCH_LIMIT"
  | WakeNotSupportedError => "HUB_WAKE_NOT_SUPPORTED"
  | RateLimitedError => "HUB_RATE_LIMITED"
  end.

(** The [instanceof] chain, in the source's order. *)
Definition hubErrorCodeOf (error : Thrown) : option string :=
  match error with
  | HubError c _ => Some (HUB_ERROR_CODES c)
  | OtherError _ => None
  end.

(** The [switch] over the codes. *)
Definition hubErrorFromCode (code message : string) : option Thrown :=
  let same c := String.eqb code (HUB_ERROR_CODES c) in
  if same HeadMismatchError then Some (HubError HeadMismatchError message)
  else if same NotSubscribedError then Some (HubError NotSubscribedError message)
  else if same RetentionExceededError then Some (HubError RetentionExceededError message)
  else if same InvalidPayloadError then Some (HubError InvalidPayloadError message)
  else if same AuthorizationDeniedError then Some (HubError AuthorizationDeniedError message)
  else if same KeyPackageQuotaExceededError then
    Some (HubError KeyPackageQuotaExceededError message)
  else if same SubscriptionQuotaExceededError then
    Some (HubError SubscriptionQuotaExceededError message)
  else if same KeyPackageFetchLimitError then Some (HubError KeyPackageFetchLimitError message)
  else if same WakeNotSupportedError then Some (HubError WakeNotSupportedError message)
  else if same RateLimitedError then Some (HubError RateLimitedError message)
  else None.

Lemma hubErrorFromCode_Some code message e :
  hubErrorFromCode code message = Some e ->
  ∃ c, code = HUB_ERROR_CODES c ∧ e = HubError c message.
Proof.
  unfold hubErrorFromCode. intros H. repeat case_match; simplify_eq;
    match goal with E : String.eqb _ _ = true |- _ => apply String.eqb_eq in E end; eauto.
Qed.
