(* ===== verification/HubSpec.v ===== *)
(** * What a hub store promises about a topic's log

    The contract of [HubStore] in packages/hub-protocol/src/types.ts, as an abstract state: every
    log-class frame a topic ever accepted, and how long a prefix of them has been removed. [head],
    [oldest], [gap] and the pages of [fetchTopic] are functions of that state; a store refines it when
    its own answers are those functions. *)

From S2P Require Import Prelude HubProtocol.

(** ** The abstract log of one topic *)

Record TopicLog := mkTopicLog {
  (** Every accepted [retain: 'log'] publish, in acceptance order. *)
  tl_history : list StoredMessage;
  (** How many of them, from the oldest, have been removed. *)
  tl_removed : nat;
}.

Definition tl_empty : TopicLog := mkTopicLog [] 0.

Definition positions (ms : list StoredMessage) : list string := map sm_sequenceID ms.

(** The frames still retained, and the ones that are gone. *)
Definition tl_live (l : TopicLog) : list StoredMessage := drop (tl_removed l) (tl_history l).
Definition tl_gone (l : TopicLog) : list StoredMessage := take (tl_removed l) (tl_history l).

Definition tl_head (l : TopicLog) : option string := last (positions (tl_history l)).
Definition tl_oldest (l : TopicLog) : option string := head (positions (tl_live l)).

(** Strictly after an exclusive cursor; all of it without one. *)
Definition above (after : option string) (ms : list StoredMessage) : list StoredMessage :=
  match after with
  | None => ms
  | Some a => filter (fun m => a <ₛ sm_sequenceID m) ms
  end.

Definition page (limit : option nat) (ms : list StoredMessage) : list StoredMessage :=
  match limit with None => ms | Some n => take n ms end.

(** [gap]: a frame the reader has not seen was removed. *)
Definition tl_gap (after : option string) (l : TopicLog) : bool :=
  negb (bool_decide (above after (tl_gone l) = [])).

Definition tl_fetch (after : option string) (limit : option nat) (l : TopicLog) : FetchTopicResult :=
  {| fr_messages := page limit (above after (tl_live l));
     fr_head := tl_head l;
     fr_oldest := tl_oldest l;
     fr_gap := tl_gap after l |}.

(** A log frame is served at its own position, and the log is strictly ascending. *)
Record tl_wf (l : TopicLog) : Prop := {
  wf_ascending : ascending (positions (tl_history l));
  wf_removed : tl_removed l <= length (tl_history l);
  wf_position : ∀ m, m ∈ tl_history l -> sm_logPosition m = Some (sm_sequenceID m);
}.

(** ** The transitions the contract allows *)

Definition tl_append (m : StoredMessage) (l : TopicLog) : TopicLog :=
  mkTopicLog (tl_history l ++ [m]) (tl_removed l).

Definition tl_remove (n : nat) (l : TopicLog) : TopicLog :=
  mkTopicLog (tl_history l) (tl_removed l + n).

Inductive tl_step : TopicLog -> TopicLog -> Prop :=
  | step_append l m :
      (∀ m', m' ∈ tl_history l -> sm_sequenceID m' <ₛ sm_sequenceID m) ->
      sm_logPosition m = Some (sm_sequenceID m) ->
      tl_step l (tl_append m l)
  | step_remove l n :
      n <= length (tl_live l) ->
      tl_step l (tl_remove n l).

Abbreviation tl_steps := (rtc tl_step).

(** ** Consequences *)

Lemma tl_empty_wf : tl_wf tl_empty.
Proof. split; [constructor|done|set_solver]. Qed.

Lemma tl_step_wf l l' : tl_step l l' -> tl_wf l -> tl_wf l'.
Proof.
  intros [l0 m Hm Hpos|l0 n Hn] [Ha Hr Hp]; split; simpl.
  - unfold positions. rewrite map_app. apply ascending_snoc; [done|].
    intros y (m' & -> & Hm')%list_elem_of_fmap. by apply Hm.
  - rewrite length_app. lia.
  - intros m' [?|Hm']%elem_of_app; [by auto|]. apply list_elem_of_singleton in Hm' as ->. done.
  - done.
  - unfold tl_live in Hn. rewrite length_drop in Hn. lia.
  - done.
Qed.

Lemma tl_steps_wf l l' : tl_steps l l' -> tl_wf l -> tl_wf l'.
Proof. induction 1; eauto using tl_step_wf. Qed.

(** The history only grows, so nothing accepted is ever forgotten, and the head never moves back. *)
Lemma tl_steps_history l l' : tl_steps l l' -> tl_history l `prefix_of` tl_history l'.
Proof.
  induction 1 as [|l1 l2 l3 H _ IH]; [done|]. etrans; [|exact IH].
  destruct H; simpl; [by apply prefix_app_r|done].
Qed.

(** The removed prefix only grows. *)
Lemma tl_steps_removed l l' : tl_steps l l' -> tl_removed l <= tl_removed l'.
Proof. induction 1 as [|l1 l2 l3 H _ IH]; [done|]. destruct H; simpl in *; lia. Qed.

Lemma tl_split l : tl_history l = tl_gone l ++ tl_live l.
Proof. symmetry. apply take_drop. Qed.

Lemma positions_app ms1 ms2 : positions (ms1 ++ ms2) = positions ms1 ++ positions ms2.
Proof. apply map_app. Qed.

Lemma elem_of_positions x ms : x ∈ positions ms <-> ∃ m, x = sm_sequenceID m ∧ m ∈ ms.
Proof. apply list_elem_of_fmap. Qed.

Lemma wf_split l : tl_wf l ->
  ascending (positions (tl_gone l)) ∧ ascending (positions (tl_live l)) ∧
  ∀ m m', m ∈ tl_gone l -> m' ∈ tl_live l -> sm_sequenceID m <ₛ sm_sequenceID m'.
Proof.
  intros [H _ _]. rewrite tl_split, positions_app in H. apply ascending_app in H as (? & ? & H).
  split_and!; [done..|]. intros m m' Hm Hm'. apply H; apply elem_of_positions; eauto.
Qed.

Lemma positions_above a ms :
  positions (above (Some a) ms) = filter (fun x => a <ₛ x) (positions ms).
Proof.
  simpl. induction ms as [|m ms IH]; [done|]. rewrite filter_cons; simpl. rewrite filter_cons.
  case_decide; simpl; by rewrite IH.
Qed.

(** A gap is a removed frame the cursor had not passed: with no such frame a reader at [after] is
    served every frame accepted after it. *)
Lemma tl_gap_false after l :
  tl_gap after l = false <-> above after (tl_live l) = above after (tl_history l).
Proof.
  unfold tl_gap. rewrite negb_false_iff, bool_decide_eq_true, (tl_split l).
  unfold above. destruct after; rewrite ?filter_app.
  - split; [by intros ->|]. intros H. apply (f_equal length) in H. rewrite length_app in H.
    apply length_zero_iff_nil. lia.
  - split; [by intros ->|]. intros H. apply (f_equal length) in H. rewrite length_app in H.
    apply length_zero_iff_nil. lia.
Qed.

(** The last position of an ascending list bounds it. *)
Lemma ascending_last l x y : ascending l -> last l = Some x -> y ∈ l -> y ≤ₛ x.
Proof.
  intros Hl (l' & ->)%last_Some [Hy|Hy]%elem_of_app;
    [|apply list_elem_of_singleton in Hy as ->; reflexivity].
  apply ascending_app in Hl as (_ & _ & H). apply slt_sle, H; set_solver.
Qed.

(** A removal watermark decides [gap]: the last removed position is after the cursor or none is. *)
Lemma tl_gap_watermark after l : tl_wf l ->
  tl_gap after l =
  match last (positions (tl_gone l)) with
  | None => false
  | Some r => match after with None => true | Some a => bool_decide (a <ₛ r) end
  end.
Proof.
  intros (Hg & _ & _)%wf_split. unfold tl_gap.
  destruct (last (positions (tl_gone l))) as [r|] eqn:Hr.
  - assert (∃ m, m ∈ tl_gone l ∧ sm_sequenceID m = r) as (m & Hm & Hmr).
    { apply last_Some_elem_of, elem_of_positions in Hr as (m & -> & ?). eauto. }
    apply eq_true_iff_eq. rewrite negb_true_iff, bool_decide_eq_false.
    destruct after as [a|]; simpl.
    + rewrite bool_decide_eq_true. split.
      * intros Hne. destruct (decide (a <ₛ r)) as [|Ha]; [done|]. destruct Hne.
        apply filter_none. intros m' Hm' Hlt. apply Ha.
        eapply slt_sle_trans; [exact Hlt|]. eapply ascending_last; [done..|].
        apply elem_of_positions. eauto.
      * intros Ha Hnil. apply (not_elem_of_nil m). rewrite <- Hnil.
        apply list_elem_of_filter. by rewrite Hmr.
    + split; [done|]. intros _ Hnil. rewrite Hnil in Hm. set_solver.
  - apply last_None, map_eq_nil in Hr. rewrite Hr. destruct after; done.
Qed.

(** A frame of the history the cursor has not passed is served, or its removal shows as a gap. *)
Lemma tl_served_or_gap after l m :
  m ∈ tl_history l -> (∀ a, after = Some a -> a <ₛ sm_sequenceID m) ->
  tl_gap after l = true ∨ m ∈ above after (tl_live l).
Proof.
  intros Hm Ha. destruct (tl_gap after l) eqn:Hgap; [by left|right].
  apply tl_gap_false in Hgap. rewrite Hgap. destruct after as [a|]; [|done].
  apply list_elem_of_filter. split; [by apply Ha|done].
Qed.

Lemma last_positions_elem ms x : last (positions ms) = Some x -> x ∈ positions ms.
Proof. apply last_Some_elem_of. Qed.

(** Along the contract's steps the head is at or past every position of the earlier history. *)
Lemma tl_steps_head l l' x :
  tl_wf l -> tl_steps l l' -> x ∈ positions (tl_history l) ->
  ∃ h, tl_head l' = Some h ∧ x ≤ₛ h.
Proof.
  intros Hwf Hsteps Hx. pose proof (tl_steps_wf _ _ Hsteps Hwf) as Hwf'.
  assert (x ∈ positions (tl_history l')) as Hx'.
  { apply tl_steps_history in Hsteps as [suffix ->]. rewrite positions_app. set_solver. }
  unfold tl_head. destruct (last (positions (tl_history l'))) as [h|] eqn:Hh.
  - exists h. split; [done|]. eapply ascending_last; [apply Hwf'|done..].
  - apply last_None in Hh. rewrite Hh in Hx'. set_solver.
Qed.
