(* ===== verification/MemoryStore.v ===== *)
(** * The in-memory hub store

    packages/hub-server/src/memoryStore.ts, operation by operation. The closure's variables are the
    fields of [MemStore]; the clock is the argument [now] (milliseconds, as [Date.now()]); an async
    method runs to completion without suspending, so each is one function of the state. A method that
    throws returns [Err] next to the state it leaves behind. *)

From S2P Require Import Prelude SeqID HubProtocol.

(** ** State *)

Record LogEntry := mkLogEntry {
  le_sequenceID : string;
  le_senderDID : string;
  le_topicID : string;
  le_payload : bytes;
  le_storedAt : Z;
  le_retain : RetentionClass;
  (** A [Set]: recipients with a pending delivery, in insertion order. *)
  le_pendingFor : list string;
}.

Record StoredKeyPackage := mkStoredKeyPackage { skp_keyPackage : string; skp_notAfter : option Z }.

(** [MemoryStoreOptions], each field absent or given. *)
Record MemoryStoreOptions := mkMemoryStoreOptions {
  opt_maxDepth : option limit;
  opt_retention_default : option Z;
  opt_retention_max : option limit;
  opt_maxKeyPackagesPerDID : option limit;
  opt_maxSubscriptionsPerDID : option limit;
}.

(** The constants [createMemoryStore] resolves them to. *)
Record StoreConfig := mkStoreConfig {
  maxDepth : limit;
  defaultRetention : Z;
  maxRetention : limit;
  maxKeyPackagesPerDID : limit;
  maxSubscriptionsPerDID : limit;
}.

Definition resolveOptions (o : MemoryStoreOptions) : StoreConfig :=
  {| maxDepth := default (Finite 1000) (opt_maxDepth o);
     defaultRetention := default 0%Z (opt_retention_default o);
     maxRetention := default (Finite 2592000) (opt_retention_max o);
     maxKeyPackagesPerDID := default (Finite 100) (opt_maxKeyPackagesPerDID o);
     maxSubscriptionsPerDID := default (Finite 1000) (opt_maxSubscriptionsPerDID o) |}.

Record MemStore := mkMemStore {
  ms_counter : N;
  (** Iterated by [purge], in insertion order. *)
  ms_entries : list (string * LogEntry);
  ms_topicLogs : gmap string (list string);
  ms_heads : gmap string string;
  ms_removedThrough : gmap string string;
  ms_deliveries : gmap string (list string);
  ms_publishRecords : gmap string string;
  (** Per topic, the subscribers in insertion order with the retention each asked for. *)
  ms_subscriptions : gmap string (list (string * Z));
  ms_subsByDID : gmap string (gset string);
  ms_keyPackages : gmap string (list StoredKeyPackage);
  ms_lastResortKeyPackages : gmap string string;
}.

Definition createMemoryStore : MemStore :=
  mkMemStore 0 [] ∅ ∅ ∅ ∅ ∅ ∅ ∅ ∅ ∅.

(** ** Helpers *)

Definition isLive (entry : StoredKeyPackage) (nowSeconds : Z) : bool :=
  match skp_notAfter entry with None => true | Some t => (nowSeconds <? t)%Z end.

Definition asStoredMessage (entry : LogEntry) : StoredMessage :=
  {| sm_sequenceID := le_sequenceID entry;
     sm_senderDID := le_senderDID entry;
     sm_topicID := le_topicID entry;
     sm_payload := le_payload entry;
     sm_logPosition := match le_retain entry with
                       | Log => Some (le_sequenceID entry)
                       | Mailbox => None
                       end |}.

(** [entries.get(id)?.retain === 'log']. *)
Definition isLogEntry (s : MemStore) (id : string) : bool :=
  match jm_get id (ms_entries s) with
  | Some e => bool_decide (le_retain e = Log)
  | None => false
  end.

Definition retentionOf (cfg : StoreConfig) (s : MemStore) (topicID : string) (floor : Z) : Z :=
  foldl (fun retention sub => if (retention <? sub.2)%Z then sub.2 else retention)
    (Z.max floor (defaultRetention cfg))
    (default [] (ms_subscriptions s !! topicID)).

(** [const list = deliveries.get(did); if (list != null) …splice]. *)
Definition dropPending (sequenceID recipientDID : string) (deliveries : gmap string (list string)) :
    gmap string (list string) :=
  alter (splice_out sequenceID) recipientDID deliveries.

Definition removeEntry (sequenceID : string) (s : MemStore) : MemStore :=
  match jm_get sequenceID (ms_entries s) with
  | None => s
  | Some entry =>
    let topicID := le_topicID entry in
    {| ms_counter := ms_counter s;
       ms_entries := jm_delete sequenceID (ms_entries s);
       ms_topicLogs :=
         match ms_topicLogs s !! topicID with
         | None => ms_topicLogs s
         | Some log =>
           match splice_out sequenceID log with
           | [] => delete topicID (ms_topicLogs s)
           | log' => <[topicID := log']> (ms_topicLogs s)
           end
         end;
       ms_heads := ms_heads s;
       ms_removedThrough :=
         match le_retain entry with
         | Mailbox => ms_removedThrough s
         | Log =>
           match ms_removedThrough s !! topicID with
           | Some removed =>
             if decide (removed <ₛ sequenceID)
             then <[topicID := sequenceID]> (ms_removedThrough s) else ms_removedThrough s
           | None => <[topicID := sequenceID]> (ms_removedThrough s)
           end
         end;
       ms_deliveries :=
         foldl (fun ds recipientDID => dropPending sequenceID recipientDID ds)
           (ms_deliveries s) (le_pendingFor entry);
       ms_publishRecords := ms_publishRecords s;
       ms_subscriptions := ms_subscriptions s;
       ms_subsByDID := ms_subsByDID s;
       ms_keyPackages := ms_keyPackages s;
       ms_lastResortKeyPackages := ms_lastResortKeyPackages s |}
  end.

(** Two of the closure's variables written together: the entries and the deliveries. *)
Definition setDelivery (entries : list (string * LogEntry)) (deliveries : gmap string (list string))
    (s : MemStore) : MemStore :=
  {| ms_counter := ms_counter s;
     ms_entries := entries;
     ms_topicLogs := ms_topicLogs s;
     ms_heads := ms_heads s;
     ms_removedThrough := ms_removedThrough s;
     ms_deliveries := deliveries;
     ms_publishRecords := ms_publishRecords s;
     ms_subscriptions := ms_subscriptions s;
     ms_subsByDID := ms_subsByDID s;
     ms_keyPackages := ms_keyPackages s;
     ms_lastResortKeyPackages := ms_lastResortKeyPackages s |}.

(** [entry.pendingFor.delete(recipientDID)]. *)
Definition forgetRecipient (recipientDID : string) (entry : LogEntry) : LogEntry :=
  {| le_sequenceID := le_sequenceID entry;
     le_senderDID := le_senderDID entry;
     le_topicID := le_topicID entry;
     le_payload := le_payload entry;
     le_storedAt := le_storedAt entry;
     le_retain := le_retain entry;
     le_pendingFor := splice_out recipientDID (le_pendingFor entry) |}.

Definition dropDelivery (recipientDID sequenceID : string) (s : MemStore) : MemStore :=
  let deliveries := dropPending sequenceID recipientDID (ms_deliveries s) in
  match jm_get sequenceID (ms_entries s) with
  | None => setDelivery (ms_entries s) deliveries s
  | Some entry =>
    let entry' := forgetRecipient recipientDID entry in
    let s' := setDelivery (jm_set sequenceID entry' (ms_entries s)) deliveries s in
    if bool_decide (le_retain entry' = Mailbox) && (length (le_pendingFor entry') =? 0)%nat
    then removeEntry sequenceID s' else s'
  end.

(** ** publish *)

(** The dedup check: the sequence an earlier publish with this id was accepted as. *)
Definition acceptedAs (publishID : option string) (s : MemStore) : option string :=
  match publishID with
  | None => None
  | Some id => ms_publishRecords s !! id
  end.

(** Recipients: the current subscribers but the sender. *)
Definition recipientsOf (s : MemStore) (topicID senderDID : string) : list string :=
  filter (fun subscriberDID => subscriberDID ≠ senderDID)
    (map fst (default [] (ms_subscriptions s !! topicID))).

(** The mint: counter, publish record and, for a log frame, head. *)
Definition mint (params : PublishParams) (retain : RetentionClass) (s : MemStore) : MemStore :=
  let counter := (ms_counter s + 1)%N in
  let sequenceID := formatSequenceID counter in
  {| ms_counter := counter;
     ms_entries := ms_entries s;
     ms_topicLogs := ms_topicLogs s;
     ms_heads := match retain with
                 | Log => <[pp_topicID params := sequenceID]> (ms_heads s)
                 | Mailbox => ms_heads s
                 end;
     ms_removedThrough := ms_removedThrough s;
     ms_deliveries := ms_deliveries s;
     ms_publishRecords := match pp_publishID params with
                          | Some id => <[id := sequenceID]> (ms_publishRecords s)
                          | None => ms_publishRecords s
                          end;
     ms_subscriptions := ms_subscriptions s;
     ms_subsByDID := ms_subsByDID s;
     ms_keyPackages := ms_keyPackages s;
     ms_lastResortKeyPackages := ms_lastResortKeyPackages s |}.

(** [deliveries.get(d) ?? []] with the id pushed. *)
Definition pushDelivery (sequenceID recipientDID : string) (deliveries : gmap string (list string)) :
    gmap string (list string) :=
  <[recipientDID := default [] (deliveries !! recipientDID) ++ [sequenceID]]> deliveries.

(** The entry into [entries], its topic's array and every recipient's queue. *)
Definition append (entry : LogEntry) (s : MemStore) : MemStore :=
  let sequenceID := le_sequenceID entry in
  {| ms_counter := ms_counter s;
     ms_entries := jm_set sequenceID entry (ms_entries s);
     ms_topicLogs := <[le_topicID entry :=
                        default [] (ms_topicLogs s !! le_topicID entry) ++ [sequenceID]]>
                       (ms_topicLogs s);
     ms_heads := ms_heads s;
     ms_removedThrough := ms_removedThrough s;
     ms_deliveries := foldl (fun ds recipientDID => pushDelivery sequenceID recipientDID ds)
                        (ms_deliveries s) (le_pendingFor entry);
     ms_publishRecords := ms_publishRecords s;
     ms_subscriptions := ms_subscriptions s;
     ms_subsByDID := ms_subsByDID s;
     ms_keyPackages := ms_keyPackages s;
     ms_lastResortKeyPackages := ms_lastResortKeyPackages s |}.

Definition topicLog (s : MemStore) (topicID : string) : list string :=
  default [] (ms_topicLogs s !! topicID).

(** [log.find((id) => entries.get(id)?.retain === 'log')]. *)
Definition oldestLog (s : MemStore) (topicID : string) : option string :=
  head (filter (fun id => isLogEntry s id = true) (topicLog s topicID)).

Definition logDepth (s : MemStore) (topicID : string) : nat :=
  length (filter (fun id => isLogEntry s id = true) (topicLog s topicID)).

(** [while (logDepth > maxDepth)]: [depth] falls by one each turn, so it is its own fuel. *)
Fixpoint evictDepth (cfg : StoreConfig) (topicID : string) (depth : nat) (s : MemStore) : MemStore :=
  if exceeds (Z.of_nat depth) (maxDepth cfg) then
    match depth, oldestLog s topicID with
    | S depth', Some id => evictDepth cfg topicID depth' (removeEntry id s)
    | _, _ => s
    end
  else s.

Definition publish (cfg : StoreConfig) (now : Z) (params : PublishParams) (s : MemStore) :
    MemStore * result HubErrorClass PublishResult :=
  let retain := default Mailbox (pp_retain params) in
  match acceptedAs (pp_publishID params) s with
  | Some accepted => (s, Ok (mkPublishResult accepted true))
  | None =>
    let head := ms_heads s !! pp_topicID params in
    if match pp_expectedHead params with
       | None => false
       | Some expected => bool_decide (head ≠ expected)
       end
    then (s, Err HeadMismatchError)
    else
      let s1 := mint params retain s in
      let sequenceID := formatSequenceID (ms_counter s1) in
      let recipients := recipientsOf s (pp_topicID params) (pp_senderDID params) in
      if bool_decide (retain = Mailbox) && (length recipients =? 0)%nat
      then (s1, Ok (mkPublishResult sequenceID false))
      else
        let entry := {| le_sequenceID := sequenceID;
                        le_senderDID := pp_senderDID params;
                        le_topicID := pp_topicID params;
                        le_payload := pp_payload params;
                        le_storedAt := now;
                        le_retain := retain;
                        le_pendingFor := recipients |} in
        let s2 := append entry s1 in
        let s3 := match retain with
                  | Log => evictDepth cfg (pp_topicID params) (logDepth s2 (pp_topicID params)) s2
                  | Mailbox => s2
                  end in
        (s3, Ok (mkPublishResult sequenceID false))
  end.

(** ** Reading *)

Definition ack (recipientDID : string) (sequenceIDs : list string) (s : MemStore) : MemStore :=
  foldl (fun s sequenceID => dropDelivery recipientDID sequenceID s) s sequenceIDs.

(** The first index whose id is past the cursor, and everything from there; nothing when there is
    no such index ([startIndex] keeps its initial [pending.length]). *)
Fixpoint sliceAfter (after : string) (pending : list string) : list string :=
  match pending with
  | [] => []
  | id :: rest => if decide (after <ₛ id) then id :: rest else sliceAfter after rest
  end.

(** [for (id of ids) { const entry = entries.get(id); if (entry != null) push }]. *)
Definition messagesOf (s : MemStore) (ids : list string) : list StoredMessage :=
  omap (fun id => asStoredMessage <$> jm_get id (ms_entries s)) ids.

Definition fetch (params : FetchParams) (s : MemStore) : MemStore * FetchResult :=
  let s := match fp_ack params with
           | Some ids => ack (fp_recipientDID params) ids s
           | None => s
           end in
  let pending := default [] (ms_deliveries s !! fp_recipientDID params) in
  let available := match fp_after params with
                   | None => pending
                   | Some after => sliceAfter after pending
                   end in
  let limit := default (length available) (fp_limit params) in
  let messages := messagesOf s (take limit available) in
  (s, {| fe_messages := messages;
         fe_cursor := sm_sequenceID <$> last messages;
         fe_hasMore := (limit <? length available)%nat |}).

Definition isSubscribed (s : MemStore) (topicID subscriberDID : string) : bool :=
  jm_has subscriberDID (default [] (ms_subscriptions s !! topicID)).

Definition fetchTopic (params : FetchTopicParams) (s : MemStore) :
    result HubErrorClass FetchTopicResult :=
  let topicID := ft_topicID params in
  if negb (isSubscribed s topicID (ft_subscriberDID params)) then Err NotSubscribedError
  else
    let log := filter (fun id => isLogEntry s id = true) (topicLog s topicID) in
    let selected := match ft_after params with
                    | None => log
                    | Some after => filter (fun id => after <ₛ id) log
                    end in
    let limited := match ft_limit params with None => selected | Some n => take n selected end in
    Ok {| fr_messages := messagesOf s limited;
          fr_head := ms_heads s !! topicID;
          fr_oldest := head log;
          fr_gap := match ms_removedThrough s !! topicID with
                    | None => false
                    | Some removed => match ft_after params with
                                      | None => true
                                      | Some after => bool_decide (after <ₛ removed)
                                      end
                    end |}.

(** ** Removal *)

(** One turn of [trim]'s loop. *)
Definition trimOne (before : string) (s : MemStore) (sequenceID : string) : MemStore :=
  if bool_decide (sequenceID <ₛ before) && isLogEntry s sequenceID
  then removeEntry sequenceID s else s.

Definition trim (topicID before : string) (s : MemStore) : MemStore :=
  match ms_topicLogs s !! topicID with
  | None => s
  | Some log => foldl (trimOne before) s log
  end.

(** The scan of [purge]: [retained] is [retainedTopics]. *)
Fixpoint purgeable (cfg : StoreConfig) (s : MemStore) (now olderThan : Z) (retained : gset string)
    (es : list (string * LogEntry)) : list string :=
  match es with
  | [] => []
  | (sequenceID, entry) :: es =>
    let continue := purgeable cfg s now olderThan in
    if bool_decide (le_retain entry = Log) && bool_decide (le_topicID entry ∈ retained)
    then continue retained es
    else
      let retention := retentionOf cfg s (le_topicID entry) olderThan in
      if (le_storedAt entry <=? now - retention * 1000)%Z
      then sequenceID :: continue retained es
      else if bool_decide (le_retain entry = Log)
      then continue ({[le_topicID entry]} ∪ retained) es
      else continue retained es
  end.

(** The purged ids are the result, and the payload of the [purge] event when there are any. *)
Definition purge (cfg : StoreConfig) (now olderThan : Z) (s : MemStore) : MemStore * list string :=
  let purgedIDs := purgeable cfg s now olderThan ∅ (ms_entries s) in
  (foldl (fun s id => removeEntry id s) s purgedIDs, purgedIDs).

Definition purgeEvent (purgedIDs : list string) : option (list string) :=
  match purgedIDs with [] => None | _ => Some purgedIDs end.

(** ** Subscriptions *)

Definition setSubscriptions (subscriptions : gmap string (list (string * Z)))
    (subsByDID : gmap string (gset string)) (s : MemStore) : MemStore :=
  {| ms_counter := ms_counter s;
     ms_entries := ms_entries s;
     ms_topicLogs := ms_topicLogs s;
     ms_heads := ms_heads s;
     ms_removedThrough := ms_removedThrough s;
     ms_deliveries := ms_deliveries s;
     ms_publishRecords := ms_publishRecords s;
     ms_subscriptions := subscriptions;
     ms_subsByDID := subsByDID;
     ms_keyPackages := ms_keyPackages s;
     ms_lastResortKeyPackages := ms_lastResortKeyPackages s |}.

Definition heldTopics (s : MemStore) (did : string) : gset string :=
  default ∅ (ms_subsByDID s !! did).

Definition subscribe (cfg : StoreConfig) (params : SubscribeParams) (s : MemStore) :
    MemStore * result HubErrorClass unit :=
  let '(did, topicID) := (sp_subscriberDID params, sp_topicID params) in
  let requested := default (defaultRetention cfg) (sp_retention params) in
  if exceeds requested (maxRetention cfg) then (s, Err RetentionExceededError)
  else
    let held := heldTopics s did in
    let alreadyHeld := bool_decide (topicID ∈ held) in
    if negb alreadyHeld && reaches (Z.of_nat (size held)) (maxSubscriptionsPerDID cfg)
    then (s, Err SubscriptionQuotaExceededError)
    else
      (setSubscriptions
         (<[topicID := jm_set did requested (default [] (ms_subscriptions s !! topicID))]>
            (ms_subscriptions s))
         (<[did := {[topicID]} ∪ held]> (ms_subsByDID s)) s, Ok tt).

(** The two maps of an unsubscribe, an emptied inner collection deleted with its key. *)
Definition dropSubscription (did topicID : string) (s : MemStore) : MemStore :=
  setSubscriptions
    (match ms_subscriptions s !! topicID with
     | None => ms_subscriptions s
     | Some subscribers =>
       match jm_delete did subscribers with
       | [] => delete topicID (ms_subscriptions s)
       | rest => <[topicID := rest]> (ms_subscriptions s)
       end
     end)
    (match ms_subsByDID s !! did with
     | None => ms_subsByDID s
     | Some ownTopics =>
       let rest := ownTopics ∖ {[topicID]} in
       if decide (rest = ∅) then delete did (ms_subsByDID s) else <[did := rest]> (ms_subsByDID s)
     end) s.

(** One turn of the loop over a copy of the subscriber's pending deliveries. *)
Definition unsubscribeOne (did topicID : string) (s : MemStore) (sequenceID : string) : MemStore :=
  match jm_get sequenceID (ms_entries s) with
  | Some e => if decide (le_topicID e = topicID) then dropDelivery did sequenceID s else s
  | None => s
  end.

Definition unsubscribe (did topicID : string) (s : MemStore) : MemStore :=
  let s := dropSubscription did topicID s in
  foldl (unsubscribeOne did topicID) s (default [] (ms_deliveries s !! did)).

Definition getSubscribers (topicID : string) (s : MemStore) : list string :=
  map fst (default [] (ms_subscriptions s !! topicID)).

(** ** Key packages *)

Definition setKeyPackages (keyPackages : gmap string (list StoredKeyPackage)) (s : MemStore) : MemStore :=
  {| ms_counter := ms_counter s;
     ms_entries := ms_entries s;
     ms_topicLogs := ms_topicLogs s;
     ms_heads := ms_heads s;
     ms_removedThrough := ms_removedThrough s;
     ms_deliveries := ms_deliveries s;
     ms_publishRecords := ms_publishRecords s;
     ms_subscriptions := ms_subscriptions s;
     ms_subsByDID := ms_subsByDID s;
     ms_keyPackages := keyPackages;
     ms_lastResortKeyPackages := ms_lastResortKeyPackages s |}.

(** [Math.floor(Date.now() / 1000)]. *)
Definition seconds (now : Z) : Z := (now / 1000)%Z.

(** The dead are dropped before the cap is charged, and stay dropped when the upload is refused. *)
Definition storeKeyPackage (cfg : StoreConfig) (now : Z) (params : StoreKeyPackageParams)
    (s : MemStore) : MemStore * result HubErrorClass unit :=
  let packages := default [] (ms_keyPackages s !! kp_ownerDID params) in
  let live := filter (fun e => isLive e (seconds now) = true) packages in
  if reaches (Z.of_nat (length live)) (maxKeyPackagesPerDID cfg)
  then (setKeyPackages (<[kp_ownerDID params := live]> (ms_keyPackages s)) s,
        Err KeyPackageQuotaExceededError)
  else (setKeyPackages
          (<[kp_ownerDID params :=
              live ++ [mkStoredKeyPackage (kp_keyPackage params) (kp_notAfter params)]]>
             (ms_keyPackages s)) s, Ok tt).

(** [while (packages.length > 0 && served.length < n) shift…]: what is served, what is left. *)
Fixpoint shiftLive (nowSeconds : Z) (n : nat) (packages : list StoredKeyPackage) :
    list string * list StoredKeyPackage :=
  match packages with
  | [] => ([], [])
  | e :: rest =>
    match n with
    | O => ([], packages)
    | S n' =>
      if isLive e nowSeconds
      then let '(served, kept) := shiftLive nowSeconds n' rest in (skp_keyPackage e :: served, kept)
      else shiftLive nowSeconds n rest
    end
  end.

Definition fetchKeyPackages (now : Z) (ownerDID : string) (count : option nat) (s : MemStore) :
    MemStore * list string :=
  match ms_keyPackages s !! ownerDID with
  | None => (s, [])
  | Some packages =>
    let '(served, kept) := shiftLive (seconds now) (default 1 count) packages in
    (setKeyPackages (<[ownerDID := kept]> (ms_keyPackages s)) s, served)
  end.

Definition countKeyPackages (now : Z) (ownerDID : string) (s : MemStore) : nat :=
  length (filter (fun e => isLive e (seconds now) = true)
            (default [] (ms_keyPackages s !! ownerDID))).

Definition storeLastResortKeyPackage (ownerDID keyPackage : string) (s : MemStore) : MemStore :=
  {| ms_counter := ms_counter s;
     ms_entries := ms_entries s;
     ms_topicLogs := ms_topicLogs s;
     ms_heads := ms_heads s;
     ms_removedThrough := ms_removedThrough s;
     ms_deliveries := ms_deliveries s;
     ms_publishRecords := ms_publishRecords s;
     ms_subscriptions := ms_subscriptions s;
     ms_subsByDID := ms_subsByDID s;
     ms_keyPackages := ms_keyPackages s;
     ms_lastResortKeyPackages := <[ownerDID := keyPackage]> (ms_lastResortKeyPackages s) |}.

Definition fetchLastResortKeyPackage (ownerDID : string) (s : MemStore) : option string :=
  ms_lastResortKeyPackages s !! ownerDID.

(** ** Every state-changing call, as one step *)

Inductive Op :=
  | OpPublish (now : Z) (params : PublishParams)
  | OpFetch (params : FetchParams)
  | OpAck (recipientDID : string) (sequenceIDs : list string)
  | OpTrim (topicID before : string)
  | OpPurge (now olderThan : Z)
  | OpSubscribe (params : SubscribeParams)
  | OpUnsubscribe (subscriberDID topicID : string)
  | OpStoreKeyPackage (now : Z) (params : StoreKeyPackageParams)
  | OpFetchKeyPackages (now : Z) (ownerDID : string) (count : option nat)
  | OpStoreLastResort (ownerDID keyPackage : string).

Definition exec (cfg : StoreConfig) (op : Op) (s : MemStore) : MemStore :=
  match op with
  | OpPublish now params => (publish cfg now params s).1
  | OpFetch params => (fetch params s).1
  | OpAck did ids => ack did ids s
  | OpTrim topicID before => trim topicID before s
  | OpPurge now olderThan => (purge cfg now olderThan s).1
  | OpSubscribe params => (subscribe cfg params s).1
  | OpUnsubscribe did topicID => unsubscribe did topicID s
  | OpStoreKeyPackage now params => (storeKeyPackage cfg now params s).1
  | OpFetchKeyPackages now ownerDID count => (fetchKeyPackages now ownerDID count s).1
  | OpStoreLastResort ownerDID keyPackage => storeLastResortKeyPackage ownerDID keyPackage s
  end.

Definition run (cfg : StoreConfig) (ops : list Op) (s : MemStore) : MemStore :=
  foldl (fun s op => exec cfg op s) s ops.
