(* ===== verification/MemoryStoreFacts.v ===== *)
(** * The in-memory store: its invariant and its refinement of the log contract

    [store_rel s a] relates a state of MemoryStore.v to the abstract log of every topic: the indices
    ([topicLogs], [deliveries], [subsByDID]) are functions of the entries they index, and [heads],
    [removedThrough] and the log frames are those of [a]. Each operation preserves it and moves [a]
    along the steps of HubSpec.v. *)

From S2P Require Import Prelude SeqID HubProtocol HubSpec MemoryStore.

(** ** Views of the entries *)

Abbreviation entry_map := (list (string * LogEntry)).

Definition ids_where (P : LogEntry -> Prop) `{∀ e, Decision (P e)} (m : entry_map) : list string :=
  map fst (filter (fun kv => P kv.2) m).

Definition on_topic (t : string) (e : LogEntry) : Prop := le_topicID e = t.
Definition awaited_by (d : string) (e : LogEntry) : Prop := d ∈ le_pendingFor e.
Definition in_log (t : string) (e : LogEntry) : Prop := le_topicID e = t ∧ le_retain e = Log.

#[export] Instance on_topic_dec t e : Decision (on_topic t e).
Proof. unfold on_topic. apply _. Defined.
#[export] Instance awaited_by_dec d e : Decision (awaited_by d e).
Proof. unfold awaited_by. apply _. Defined.
#[export] Instance in_log_dec t e : Decision (in_log t e).
Proof. unfold in_log. apply _. Defined.

Definition log_frames (t : string) (m : entry_map) : list StoredMessage :=
  map (fun kv => asStoredMessage kv.2) (filter (fun kv => in_log t kv.2) m).

Record entries_wf (m : entry_map) : Prop := {
  ew_key : ∀ k e, (k, e) ∈ m -> le_sequenceID e = k;
  ew_ascending : ascending (map fst m);
  ew_pending : ∀ k e, (k, e) ∈ m -> NoDup (le_pendingFor e);
}.

(** A mailbox frame is there for the deliveries still pending. *)
Definition mailbox_wf (m : entry_map) : Prop :=
  ∀ k e, (k, e) ∈ m -> le_retain e = Mailbox -> le_pendingFor e ≠ [].

Section views.
Context (P : LogEntry -> Prop) `{∀ e, Decision (P e)}.
Implicit Types (m : entry_map).

Lemma elem_of_ids_where x m : x ∈ ids_where P m <-> ∃ e, (x, e) ∈ m ∧ P e.
Proof.
  unfold ids_where. rewrite list_elem_of_fmap. split.
  - intros ([k e] & -> & [HP Hin]%list_elem_of_filter). eauto.
  - intros (e & Hin & HP). exists (x, e). split; [done|]. by apply list_elem_of_filter.
Qed.

Lemma ids_where_cons k e m :
  ids_where P ((k, e) :: m) = if decide (P e) then k :: ids_where P m else ids_where P m.
Proof. unfold ids_where. rewrite filter_cons; simpl. by case_decide. Qed.

Lemma ids_where_snoc m k e :
  ids_where P (m ++ [(k, e)]) = ids_where P m ++ (if decide (P e) then [k] else []).
Proof.
  unfold ids_where. rewrite filter_app, map_app, filter_cons; simpl. by case_decide.
Qed.

Lemma ids_where_delete k m : ids_where P (jm_delete k m) = filter (fun x => x ≠ k) (ids_where P m).
Proof.
  induction m as [|[k' e] m IH]; [done|]. unfold jm_delete in *.
  rewrite filter_cons; simpl. rewrite ids_where_cons.
  case_decide; rewrite ?ids_where_cons, IH; case_decide;
    by rewrite ?filter_cons_True, ?filter_cons_False by (naive_solver || done).
Qed.

Lemma ids_where_ascending m : ascending (map fst m) -> ascending (ids_where P m).
Proof.
  induction m as [|[k e] m IH]; intros Hm; [constructor|].
  apply ascending_cons_inv in Hm as [Hm Hk]. rewrite ids_where_cons.
  case_decide; [|by apply IH]. constructor; [by apply IH|].
  rewrite Forall_forall. intros x (e' & Hx & _)%elem_of_ids_where.
  apply Hk, list_elem_of_fmap. by exists (x, e').
Qed.

(** [set] on a present key: only the entry's own membership changes. *)
Lemma ids_where_set k e e' m :
  NoDup (map fst m) -> jm_get k m = Some e -> (P e' -> P e) ->
  ids_where P (jm_set k e' m) =
    if decide (P e') then ids_where P m else filter (fun x => x ≠ k) (ids_where P m).
Proof.
  intros Hnd Hget HP. unfold jm_set, jm_has. rewrite Hget.
  assert (∀ m, k ∉ map fst m ->
    map (fun kv : string * LogEntry => if decide (kv.1 = k) then (k, e') else kv) m = m
    ∧ filter (fun x => x ≠ k) (ids_where P m) = ids_where P m) as Hout.
  { clear m Hnd Hget. intros m Hk. split.
    - induction m as [|[k' e0] m IH]; simpl in *; [done|]. apply not_elem_of_cons in Hk as [? Hk].
      rewrite decide_False by done. by rewrite IH.
    - apply filter_all. intros x (e0 & Hx & _)%elem_of_ids_where ->.
      apply Hk, list_elem_of_fmap. by exists (k, e0). }
  induction m as [|[k' e0] m IH]; simpl in *; [done|].
  apply NoDup_cons in Hnd as [Hk' Hnd].
  destruct (decide (k = k')) as [<-|Hne]; simplify_eq.
  - rewrite decide_True by done. destruct (Hout m Hk') as [-> Hf].
    rewrite !ids_where_cons. case_decide.
    + by rewrite decide_True by auto.
    + case_decide; [|done]. rewrite filter_cons_False by naive_solver. done.
  - rewrite decide_False by done. rewrite !ids_where_cons, IH by done.
    repeat case_decide; rewrite ?filter_cons_True by done; done.
Qed.
End views.

Lemma log_frames_snoc t m k e :
  log_frames t (m ++ [(k, e)]) =
    log_frames t m ++ (if decide (in_log t e) then [asStoredMessage e] else []).
Proof.
  unfold log_frames. rewrite filter_app, map_app, filter_cons; simpl. by case_decide.
Qed.

Lemma log_frames_cons t m k e :
  log_frames t ((k, e) :: m) =
    if decide (in_log t e) then asStoredMessage e :: log_frames t m else log_frames t m.
Proof. unfold log_frames. rewrite filter_cons; simpl. by case_decide. Qed.

Lemma log_frames_positions t m :
  entries_wf m -> positions (log_frames t m) = ids_where (in_log t) m.
Proof.
  intros Hm. assert (∀ k e, (k, e) ∈ m -> le_sequenceID e = k) as Hk by apply Hm. clear Hm.
  induction m as [|[k e] m IH]; [done|].
  rewrite log_frames_cons, ids_where_cons. rewrite <- IH by set_solver.
  case_decide; [|done]. simpl. f_equal. apply Hk. set_solver.
Qed.

Lemma log_frames_delete t k m :
  entries_wf m ->
  log_frames t (jm_delete k m) = filter (fun f => sm_sequenceID f ≠ k) (log_frames t m).
Proof.
  intros Hm. assert (∀ k e, (k, e) ∈ m -> le_sequenceID e = k) as Hk by apply Hm. clear Hm.
  induction m as [|[k' e] m IH]; [done|]. unfold jm_delete in *.
  assert (le_sequenceID e = k') as He by (apply Hk; set_solver).
  rewrite filter_cons; simpl. rewrite log_frames_cons.
  case_decide as Hd; rewrite ?log_frames_cons, IH by set_solver; case_decide;
    rewrite ?filter_cons_True, ?filter_cons_False by (simpl; congruence || naive_solver); done.
Qed.

Lemma log_frames_forget t k d m e :
  NoDup (map fst m) -> jm_get k m = Some e ->
  log_frames t (jm_set k (forgetRecipient d e) m) = log_frames t m.
Proof.
  intros Hnd Hget. unfold jm_set, jm_has. rewrite Hget.
  induction m as [|[k' e0] m IH]; simpl in *; [done|]. apply NoDup_cons in Hnd as [Hk' Hnd].
  destruct (decide (k = k')) as [<-|Hne]; simplify_eq.
  - rewrite decide_True by done. rewrite !log_frames_cons.
    replace (map _ m) with m; [done|].
    clear - Hk'. induction m as [|[k' e0] m IH]; simpl in *; [done|].
    apply not_elem_of_cons in Hk' as [? Hk]. rewrite decide_False by done. by rewrite <- IH.
  - rewrite decide_False by done. by rewrite !log_frames_cons, IH.
Qed.

(** ** The entries after each change *)

Lemma jm_delete_elem {V} k x (v : V) (m : list (string * V)) : (x, v) ∈ jm_delete k m <-> (x, v) ∈ m ∧ x ≠ k.
Proof. unfold jm_delete. rewrite list_elem_of_filter. naive_solver. Qed.

Lemma entries_wf_NoDup m : entries_wf m -> NoDup (map fst m).
Proof. intros H. apply ascending_NoDup, H. Qed.

Lemma entries_wf_delete k m : entries_wf m -> entries_wf (jm_delete k m).
Proof.
  intros [H1 H2 H3]. split.
  - intros x e [? _]%jm_delete_elem. eauto.
  - rewrite jm_delete_keys. by apply ascending_filter.
  - intros x e [? _]%jm_delete_elem. eauto.
Qed.

Lemma entries_wf_snoc m k e :
  entries_wf m -> (∀ x, x ∈ map fst m -> x <ₛ k) -> le_sequenceID e = k ->
  NoDup (le_pendingFor e) -> entries_wf (m ++ [(k, e)]).
Proof.
  intros [H1 H2 H3] Hk Hid Hnd.
  assert (∀ x e', (x, e') ∈ m ++ [(k, e)] -> (x, e') ∈ m ∨ (x = k ∧ e' = e)) as Hin by set_solver.
  split.
  - intros x e' [?|[-> ->]]%Hin; eauto.
  - rewrite map_app. by apply ascending_snoc.
  - intros x e' [?|[-> ->]]%Hin; eauto.
Qed.

Lemma jm_set_entry {V} k (v : V) x w (m : list (string * V)) :
  NoDup (map fst m) -> (x, w) ∈ jm_set k v m -> (x = k ∧ w = v) ∨ (x, w) ∈ m ∧ x ≠ k.
Proof.
  intros Hnd Hin. apply jm_get_Some in Hin; [|by apply jm_set_NoDup].
  rewrite jm_get_set in Hin. case_decide; simplify_eq; [by left|].
  right. split; [|done]. by apply jm_get_elem.
Qed.

Lemma entries_wf_forget m k d e :
  entries_wf m -> jm_get k m = Some e ->
  entries_wf (jm_set k (forgetRecipient d e) m).
Proof.
  intros Hm Hget. pose proof (entries_wf_NoDup _ Hm) as Hnd. destruct Hm as [H1 H2 H3].
  pose proof (jm_get_elem _ _ _ Hget) as Hin. split.
  - intros x e' [[-> ->]|[? _]]%jm_set_entry; simpl; eauto.
  - rewrite jm_set_keys_present; [done|]. apply list_elem_of_fmap. by exists (k, e).
  - intros x e' [[-> ->]|[? _]]%jm_set_entry; simpl; eauto.
    rewrite splice_out_filter by eauto. apply NoDup_filter. eauto.
Qed.

(** ** Queues *)

Abbreviation queues := (gmap string (list string)).

Definition queue (q : queues) (k : string) : list string := default [] (q !! k).

Lemma queue_dropPending k d x q :
  queue (dropPending k d q) x = if decide (x = d) then splice_out k (queue q x) else queue q x.
Proof.
  unfold queue, dropPending. case_decide; subst.
  - rewrite lookup_alter_eq. by destruct (q !! d).
  - by rewrite lookup_alter_ne.
Qed.

Lemma queue_pushDelivery k d x q :
  queue (pushDelivery k d q) x = if decide (x = d) then queue q x ++ [k] else queue q x.
Proof.
  unfold queue, pushDelivery. case_decide; subst.
  - by rewrite lookup_insert_eq.
  - by rewrite lookup_insert_ne.
Qed.

Lemma queue_dropAll k ds x q :
  NoDup ds ->
  queue (foldl (fun q d => dropPending k d q) q ds) x =
    if decide (x ∈ ds) then splice_out k (queue q x) else queue q x.
Proof.
  intros Hnd. revert q. induction Hnd as [|d ds Hd Hnd IH]; intros q.
  - by rewrite decide_False by set_solver.
  - cbn [foldl]. rewrite IH, queue_dropPending. repeat case_decide; subst; set_solver.
Qed.

Lemma queue_pushAll k ds x q :
  NoDup ds ->
  queue (foldl (fun q d => pushDelivery k d q) q ds) x =
    if decide (x ∈ ds) then queue q x ++ [k] else queue q x.
Proof.
  intros Hnd. revert q. induction Hnd as [|d ds Hd Hnd IH]; intros q.
  - by rewrite decide_False by set_solver.
  - cbn [foldl]. rewrite IH, queue_pushDelivery. repeat case_decide; subst; set_solver.
Qed.

(** ** The relation *)

Definition subs_of (s : MemStore) (t : string) : list (string * Z) :=
  default [] (ms_subscriptions s !! t).

(** [subscriptions] and [subsByDID] hold the same pairs, and neither keeps an empty collection. *)
Record subs_wf (s : MemStore) : Prop := {
  sw_NoDup : ∀ t, NoDup (map fst (subs_of s t));
  sw_lockstep : ∀ t d, isSubscribed s t d = true <-> t ∈ heldTopics s d;
  sw_nonempty : ∀ t, ms_subscriptions s !! t ≠ Some [];
  sw_nonempty' : ∀ d, ms_subsByDID s !! d ≠ Some ∅;
}.

Abbreviation topic_logs := (string -> TopicLog).

(** One topic: the frames, the head and the removal watermark are the abstract log's, and no
    position is past the counter's. *)
Record log_rel (s : MemStore) (t : string) (l : TopicLog) : Prop := {
  lr_wf : tl_wf l;
  lr_live : log_frames t (ms_entries s) = tl_live l;
  lr_head : ms_heads s !! t = tl_head l;
  lr_removed : ms_removedThrough s !! t = last (positions (tl_gone l));
  lr_bound : ∀ x, x ∈ positions (tl_history l) -> x ≤ₛ formatSequenceID (ms_counter s);
}.

Record core_rel (s : MemStore) (a : topic_logs) : Prop := {
  sr_counter : (ms_counter s < SEQUENCE_LIMIT)%N;
  sr_entries : entries_wf (ms_entries s);
  sr_bound : ∀ k, k ∈ map fst (ms_entries s) -> k ≤ₛ formatSequenceID (ms_counter s);
  sr_topics : ∀ t, queue (ms_topicLogs s) t = ids_where (on_topic t) (ms_entries s);
  sr_topics_nonempty : ∀ t, ms_topicLogs s !! t ≠ Some [];
  sr_deliveries : ∀ d, queue (ms_deliveries s) d = ids_where (awaited_by d) (ms_entries s);
  sr_logs : ∀ t, log_rel s t (a t);
  sr_subs : subs_wf s;
}.

Definition store_rel (s : MemStore) (a : topic_logs) : Prop :=
  core_rel s a ∧ mailbox_wf (ms_entries s).

(** The abstract logs only ever move along the contract's steps. *)
Definition logs_step (a a' : topic_logs) : Prop := ∀ t, tl_steps (a t) (a' t).

#[export] Instance logs_step_preorder : PreOrder logs_step.
Proof. split; [intros a t; done|]. intros a b c H1 H2 t. eapply rtc_trans; [apply H1|apply H2]. Qed.

Lemma logs_step_insert (a : topic_logs) t l : tl_step (a t) l -> logs_step a (<[t := l]> a).
Proof.
  intros Hl t'. destruct (decide (t = t')) as [<-|].
  - rewrite fn_lookup_insert. by apply rtc_once.
  - by rewrite fn_lookup_insert_ne.
Qed.

#[export] Hint Resolve logs_step_insert : kumiai.

Lemma store_rel_init : store_rel createMemoryStore (fun _ => tl_empty).
Proof.
  split; [|intros k e Hin; simpl in Hin; set_solver]. split; try done.
  - split; simpl; [set_solver|constructor|set_solver].
  - simpl. set_solver.
  - intros t. split; try done; [exact tl_empty_wf|simpl; set_solver].
  - split; try done. intros t. constructor.
Qed.

(** ** Removal *)

Lemma ids_where_remove P `{∀ e, Decision (P e)} k e m :
  entries_wf m -> jm_get k m = Some e ->
  ids_where P (jm_delete k m) = if decide (P e) then splice_out k (ids_where P m) else ids_where P m.
Proof.
  intros Hm Hget. rewrite ids_where_delete.
  assert (ascending (ids_where P m)) as Hasc by apply ids_where_ascending, Hm.
  case_decide as He; [by rewrite splice_out_filter by by apply ascending_NoDup|].
  apply filter_all. intros x (e' & Hx & He')%elem_of_ids_where ->. destruct He.
  apply jm_get_Some in Hx; [|by apply entries_wf_NoDup]. congruence.
Qed.

Lemma log_frames_remove_other t k e m :
  entries_wf m -> jm_get k m = Some e -> ¬ in_log t e ->
  log_frames t (jm_delete k m) = log_frames t m.
Proof.
  intros Hm Hget He. rewrite log_frames_delete by done. apply filter_all.
  intros f Hf <-. assert (sm_sequenceID f ∈ ids_where (in_log t) m) as Hin.
  { rewrite <- log_frames_positions by done. apply elem_of_positions. eauto. }
  apply elem_of_ids_where in Hin as (e' & Hx & He').
  apply jm_get_Some in Hx; [|by apply entries_wf_NoDup]. congruence.
Qed.

(** Removing the oldest log frame. *)
Lemma log_frames_remove_oldest t k e m :
  entries_wf m -> jm_get k m = Some e -> in_log t e ->
  (∀ x, x ∈ ids_where (in_log t) m -> k ≤ₛ x) ->
  ∃ f, log_frames t m = f :: log_frames t (jm_delete k m) ∧ sm_sequenceID f = k.
Proof.
  intros Hm Hget He Hmin.
  assert (k ∈ ids_where (in_log t) m) as Hk.
  { apply elem_of_ids_where. exists e. split; [by apply jm_get_elem|done]. }
  assert (ascending (ids_where (in_log t) m)) as Hasc by apply ids_where_ascending, Hm.
  pose proof (log_frames_positions t m Hm) as Hpos. rewrite <- Hpos in Hk, Hasc, Hmin.
  rewrite log_frames_delete by done. clear Hpos.
  destruct (log_frames t m) as [|f fs]; simpl in *; [set_solver|].
  apply ascending_cons_inv in Hasc as [Hasc Hf].
  assert (sm_sequenceID f = k) as Hfk.
  { apply elem_of_cons in Hk as [->|Hk]; [done|]. specialize (Hmin (sm_sequenceID f) ltac:(set_solver)).
    exfalso. eapply slt_irrefl. eapply slt_sle_trans; [by apply Hf|done]. }
  exists f. split; [|done]. f_equal. rewrite filter_cons_False by naive_solver.
  symmetry. apply filter_all. intros f' Hf' Heq.
  assert (sm_sequenceID f <ₛ sm_sequenceID f') as Hlt by (apply Hf, elem_of_positions; eauto).
  apply slt_ne in Hlt. congruence.
Qed.

Lemma tl_remove_gone n l :
  tl_wf l -> tl_gone (tl_remove n l) = tl_gone l ++ take n (tl_live l).
Proof.
  intros _. unfold tl_gone, tl_live. simpl. rewrite take_take_drop. done.
Qed.

Lemma tl_remove_live n l : tl_live (tl_remove n l) = drop n (tl_live l).
Proof. unfold tl_live. simpl. by rewrite drop_drop. Qed.

Lemma queue_removeEntry (logs : queues) t k :
  let logs' := match logs !! t with
               | None => logs
               | Some log => match splice_out k log with
                             | [] => delete t logs
                             | log' => <[t := log']> logs
                             end
               end in
  (∀ t, logs !! t ≠ Some []) ->
  (∀ x, queue logs' x = if decide (x = t) then splice_out k (queue logs x) else queue logs x) ∧
  (∀ x, logs' !! x ≠ Some []).
Proof.
  intros logs' Hne. unfold logs', queue. destruct (logs !! t) as [log|] eqn:Ht.
  - destruct (splice_out k log) as [|y log'] eqn:Hs; split; intros x; simpl.
    + case_decide; subst; [by rewrite lookup_delete_eq, Ht|by rewrite lookup_delete_ne].
    + destruct (decide (t = x)) as [<-|]; [by rewrite lookup_delete_eq|by rewrite lookup_delete_ne].
    + case_decide; subst; [by rewrite lookup_insert_eq, Ht|by rewrite lookup_insert_ne].
    + destruct (decide (t = x)) as [<-|]; [by rewrite lookup_insert_eq|by rewrite lookup_insert_ne].
  - split; [|done]. intros x. case_decide; subst; [by rewrite Ht|done].
Qed.

Lemma in_log_topic t e : in_log t e -> t = le_topicID e.
Proof. by intros [-> _]. Qed.

(** The abstract effect of removing one entry. *)
Definition log_removed (e : LogEntry) (a : topic_logs) : topic_logs :=
  match le_retain e with
  | Log => <[le_topicID e := tl_remove 1 (a (le_topicID e))]> a
  | Mailbox => a
  end.

(** What a log needs from the rest of the state. *)
Lemma log_rel_frame s s' t l :
  log_rel s t l -> log_frames t (ms_entries s') = log_frames t (ms_entries s) ->
  ms_heads s' !! t = ms_heads s !! t -> ms_removedThrough s' !! t = ms_removedThrough s !! t ->
  ms_counter s' = ms_counter s -> log_rel s' t l.
Proof. intros [] H1 H2 H3 H4. split; rewrite ?H1, ?H2, ?H3, ?H4; done. Qed.

Lemma subs_wf_frame s s' :
  subs_wf s -> ms_subscriptions s' = ms_subscriptions s -> ms_subsByDID s' = ms_subsByDID s ->
  subs_wf s'.
Proof.
  intros [] H1 H2. split; unfold subs_of, isSubscribed, heldTopics in *; rewrite ?H1, ?H2; done.
Qed.

(** The watermark [removeEntry] keeps is the last position of the removed prefix. *)
Lemma log_rel_remove s a k e :
  core_rel s a -> jm_get k (ms_entries s) = Some e -> in_log (le_topicID e) e ->
  (∀ x, x ∈ ids_where (in_log (le_topicID e)) (ms_entries s) -> k ≤ₛ x) ->
  log_rel (removeEntry k s) (le_topicID e) (tl_remove 1 (a (le_topicID e))).
Proof.
  intros Hs Hget He Hmin. pose proof (sr_entries _ _ Hs) as Hm.
  destruct (sr_logs _ _ Hs (le_topicID e)) as [Hwf Hlive Hhead Hrem Hbd].
  destruct (log_frames_remove_oldest _ _ _ _ Hm Hget He Hmin) as (f & Hfs & Hf).
  rewrite Hlive in Hfs. destruct (wf_split _ Hwf) as (_ & _ & Hsplit).
  unfold removeEntry. rewrite Hget. destruct He as [_ Hret]. rewrite Hret.
  split; simpl; try done.
  - eapply tl_step_wf; [|done]. constructor. rewrite Hfs. simpl. lia.
  - by rewrite tl_remove_live, Hfs.
  - rewrite tl_remove_gone, Hfs by done. simpl. rewrite take_0, positions_app.
    change (positions [f]) with [sm_sequenceID f]. rewrite last_snoc, Hf.
    destruct (ms_removedThrough s !! le_topicID e) as [r|] eqn:Hr; [|by rewrite lookup_insert_eq].
    rewrite decide_True; [by rewrite lookup_insert_eq|].
    symmetry in Hrem. apply last_Some_elem_of, elem_of_positions in Hrem as (g & -> & Hg).
    rewrite <- Hf. apply Hsplit; [done|]. rewrite Hfs. set_solver.
Qed.

Lemma removeEntry_core s a k e :
  core_rel s a -> jm_get k (ms_entries s) = Some e ->
  (le_retain e = Log ->
    ∀ x, x ∈ ids_where (in_log (le_topicID e)) (ms_entries s) -> k ≤ₛ x) ->
  core_rel (removeEntry k s) (log_removed e a).
Proof.
  intros Hs Hget Hmin. pose proof (sr_entries _ _ Hs) as Hm.
  pose proof (queue_removeEntry (ms_topicLogs s) (le_topicID e) k (sr_topics_nonempty _ _ Hs)) as Hq.
  assert (∀ t, ¬ in_log t e -> log_rel (removeEntry k s) t (a t)) as Hother.
  { intros t Ht. eapply log_rel_frame; [apply Hs|unfold removeEntry; rewrite Hget; simpl..]; try done.
    - by eapply log_frames_remove_other.
    - destruct (le_retain e) eqn:Hr; [|done].
      assert (le_topicID e ≠ t) by (intros ?; by destruct Ht).
      repeat case_match; by rewrite ?lookup_insert_ne by done. }
  split.
  - unfold removeEntry. rewrite Hget. apply Hs.
  - unfold removeEntry. rewrite Hget. by apply entries_wf_delete.
  - unfold removeEntry. rewrite Hget. intros x Hx. simpl in *. rewrite jm_delete_keys in Hx.
    apply list_elem_of_filter in Hx as [_ Hx]. by apply Hs.
  - unfold removeEntry. rewrite Hget. simpl. intros t.
    rewrite (proj1 Hq), (sr_topics _ _ Hs), (ids_where_remove _ _ _ _ Hm Hget).
    unfold on_topic. repeat case_decide; congruence.
  - unfold removeEntry. rewrite Hget. apply Hq.
  - unfold removeEntry. rewrite Hget. simpl. intros d.
    rewrite queue_dropAll by (eapply ew_pending; [done|by apply jm_get_elem]).
    rewrite (sr_deliveries _ _ Hs), (ids_where_remove _ _ _ _ Hm Hget). done.
  - intros t. unfold log_removed. destruct (le_retain e) eqn:Hr; [|apply Hother; by intros []; congruence].
    destruct (decide (le_topicID e = t)) as [<-|Ht].
    + rewrite fn_lookup_insert. eapply log_rel_remove; eauto. done.
    + rewrite fn_lookup_insert_ne by done. apply Hother. by intros [? _].
  - eapply subs_wf_frame; [apply Hs|unfold removeEntry; by rewrite Hget..].
Qed.

Lemma log_removed_step s a k e :
  core_rel s a -> jm_get k (ms_entries s) = Some e -> logs_step a (log_removed e a).
Proof.
  intros Hs Hget. unfold log_removed. destruct (le_retain e) eqn:Hr; [|done].
  apply logs_step_insert. constructor. rewrite <- (lr_live _ _ _ (sr_logs _ _ Hs _)).
  assert (asStoredMessage e ∈ log_frames (le_topicID e) (ms_entries s)) as Hin.
  { unfold log_frames. apply list_elem_of_fmap. exists (k, e). split; [done|].
    apply list_elem_of_filter. split; [done|]. by apply jm_get_elem. }
  destruct (log_frames _ _); simpl; [set_solver|lia].
Qed.

Lemma mailbox_wf_delete k m : mailbox_wf m -> mailbox_wf (jm_delete k m).
Proof. intros H x e [? _]%jm_delete_elem. eauto. Qed.

Lemma removeEntry_entries s k : ms_entries (removeEntry k s) = jm_delete k (ms_entries s).
Proof.
  unfold removeEntry. destruct (jm_get k (ms_entries s)) eqn:E; [done|]. unfold jm_delete.
  symmetry. apply filter_all. intros [x e] Hx; simpl. intros ->. apply jm_get_None in E.
  apply E, list_elem_of_fmap. by exists (k, e).
Qed.

Lemma removeEntry_rel s a k e :
  store_rel s a -> jm_get k (ms_entries s) = Some e ->
  (le_retain e = Log ->
    ∀ x, x ∈ ids_where (in_log (le_topicID e)) (ms_entries s) -> k ≤ₛ x) ->
  store_rel (removeEntry k s) (log_removed e a) ∧ logs_step a (log_removed e a).
Proof.
  intros [Hs Hmb] Hget Hmin. split; [split|by eapply log_removed_step].
  - by apply removeEntry_core.
  - rewrite removeEntry_entries. by apply mailbox_wf_delete.
Qed.

(** ** Acks *)

Lemma ids_where_update P `{∀ e, Decision (P e)} k e e' m :
  entries_wf m -> jm_get k m = Some e -> (P e' <-> P e) ->
  ids_where P (jm_set k e' m) = ids_where P m.
Proof.
  intros Hm Hget HP. rewrite (ids_where_set _ k e) by (by apply entries_wf_NoDup || naive_solver).
  case_decide as He'; [done|]. apply filter_all. intros x (e0 & Hx & He0)%elem_of_ids_where ->.
  apply jm_get_Some in Hx; [|by apply entries_wf_NoDup]. naive_solver.
Qed.

Lemma awaited_forget d d' e :
  NoDup (le_pendingFor e) ->
  awaited_by d' (forgetRecipient d e) <-> awaited_by d' e ∧ d' ≠ d.
Proof.
  intros Hnd. unfold awaited_by; simpl. rewrite splice_out_filter, list_elem_of_filter by done. naive_solver.
Qed.

Lemma forget_deliveries s a k d d' e :
  core_rel s a -> jm_get k (ms_entries s) = Some e ->
  queue (dropPending k d (ms_deliveries s)) d' =
    ids_where (awaited_by d') (jm_set k (forgetRecipient d e) (ms_entries s)).
Proof.
  intros Hs Hget. pose proof (sr_entries _ _ Hs) as Hm.
  assert (NoDup (le_pendingFor e)) as Hnd by (eapply ew_pending; [done|by apply jm_get_elem]).
  rewrite queue_dropPending, (sr_deliveries _ _ Hs). case_decide as Hd; subst.
  - rewrite (ids_where_set _ k e); [|by apply entries_wf_NoDup|done|by intros []%awaited_forget].
    rewrite decide_False by (rewrite awaited_forget; naive_solver).
    apply splice_out_filter, ascending_NoDup, ids_where_ascending, Hm.
  - symmetry. apply (ids_where_update _ k e); [done..|]. rewrite awaited_forget by done. naive_solver.
Qed.

Lemma forget_core s a k d e :
  core_rel s a -> jm_get k (ms_entries s) = Some e ->
  core_rel (setDelivery (jm_set k (forgetRecipient d e) (ms_entries s))
              (dropPending k d (ms_deliveries s)) s) a.
Proof.
  intros Hs Hget. pose proof (sr_entries _ _ Hs) as Hm.
  assert (k ∈ map fst (ms_entries s)) as Hk.
  { apply list_elem_of_fmap. exists (k, e). split; [done|]. by apply jm_get_elem. }
  split; simpl.
  - apply Hs.
  - by apply entries_wf_forget.
  - rewrite jm_set_keys_present by done. apply Hs.
  - intros t. rewrite (ids_where_update _ k e) by done. apply Hs.
  - apply Hs.
  - intros d'. by eapply forget_deliveries.
  - intros t. eapply log_rel_frame; [apply Hs|..]; try done. simpl.
    apply log_frames_forget; [by apply entries_wf_NoDup|done].
  - eapply subs_wf_frame; [apply Hs|done..].
Qed.

(** An ack changes no log: it frees a mailbox frame at its last delivery, and nothing else. *)
Lemma dropDelivery_rel s a d k : store_rel s a -> store_rel (dropDelivery d k s) a.
Proof.
  intros [Hs Hmb]. unfold dropDelivery. pose proof (sr_entries _ _ Hs) as Hm.
  destruct (jm_get k (ms_entries s)) as [e|] eqn:Hget.
  - pose proof (forget_core s a k d e Hs Hget) as Hs'.
    set (s' := setDelivery _ _ s) in *.
    assert (jm_get k (ms_entries s') = Some (forgetRecipient d e)) as Hget'.
    { simpl. rewrite jm_get_set. by rewrite decide_True. }
    assert (∀ x e', (x, e') ∈ ms_entries s' -> x ≠ k -> le_retain e' = Mailbox -> le_pendingFor e' ≠ []).
    { intros x e' [[-> ->]|[? _]]%jm_set_entry; [done|eauto|by apply entries_wf_NoDup]. }
    destruct (bool_decide _ && _) eqn:Hb.
    + apply andb_true_iff in Hb as [Hret%bool_decide_eq_true Hlen].
      replace a with (log_removed (forgetRecipient d e) a) by (unfold log_removed; by rewrite Hret).
      split.
      * apply removeEntry_core; [done..|]. congruence.
      * rewrite removeEntry_entries. intros x e' [? ?]%jm_delete_elem. eauto.
    + split; [done|]. intros x e' Hx Hret. destruct (decide (x = k)) as [->|]; [|eauto].
      apply jm_get_Some in Hx; [|apply entries_wf_NoDup, Hs']. simplify_eq.
      rewrite bool_decide_true in Hb by done. simpl in *. intros Hnil. rewrite Hnil in Hb. done.
  - assert (∀ d', queue (dropPending k d (ms_deliveries s)) d' = queue (ms_deliveries s) d') as Hq.
    { intros d'. rewrite queue_dropPending. case_decide; [|done]. apply splice_out_notin.
      rewrite (sr_deliveries _ _ Hs). intros (e & Hx & _)%elem_of_ids_where.
      apply jm_get_None in Hget. apply Hget, list_elem_of_fmap. by exists (k, e). }
    split; [|done]. destruct Hs as [? ? ? ? ? ? Hlogs Hsubs]. split; try done.
    + simpl. intros d'. by rewrite Hq.
    + intros t. by eapply log_rel_frame; [apply Hlogs|..].
    + by eapply subs_wf_frame; [apply Hsubs|..].
Qed.

Lemma ack_rel s a d ids : store_rel s a -> store_rel (ack d ids s) a.
Proof. unfold ack. revert s. induction ids; simpl; eauto using dropDelivery_rel. Qed.

(** ** Loops of removals *)

(** [trim]'s loop over the topic's ids, oldest first. *)
Lemma trim_loop_rel before t log s a :
  store_rel s a -> ascending log ->
  (∀ k e, k ∈ log -> jm_get k (ms_entries s) = Some e -> le_topicID e = t) ->
  (∀ x, x ∈ ids_where (in_log t) (ms_entries s) -> x <ₛ before -> x ∈ log) ->
  ∃ a', logs_step a a' ∧ store_rel (foldl (trimOne before) s log) a'.
Proof.
  revert s a. induction log as [|k log IH]; intros s a Hs Hasc Htop Hcov; [by exists a|].
  apply ascending_cons_inv in Hasc as [Hasc Hk]. cbn [foldl]. unfold trimOne at 2, isLogEntry.
  destruct (jm_get k (ms_entries s)) as [e|] eqn:Hget; rewrite ?andb_false_r.
  2: { apply IH; [done..|set_solver|]. intros x Hx Hlt. specialize (Hcov x Hx Hlt).
       apply elem_of_cons in Hcov as [->|]; [|done]. apply elem_of_ids_where in Hx as (e & Hx & _).
       apply jm_get_None in Hget. destruct Hget. apply list_elem_of_fmap. by exists (k, e). }
  assert (le_topicID e = t) as Ht by (apply (Htop k); [set_solver|done]).
  assert (∀ x e', (x, e') ∈ ms_entries s -> jm_get x (ms_entries s) = Some e') as Hin.
  { intros x e'. apply jm_get_Some, entries_wf_NoDup, Hs. }
  destruct (bool_decide _ && _) eqn:Hb.
  - apply andb_true_iff in Hb as [Hb1%bool_decide_eq_true Hb2%bool_decide_eq_true].
    assert (∀ x, x ∈ ids_where (in_log (le_topicID e)) (ms_entries s) -> k ≤ₛ x) as Hmin.
    { rewrite Ht. intros x Hx. apply not_slt. intros Hlt. specialize (Hcov x Hx ltac:(by etrans)).
      apply elem_of_cons in Hcov as [->|Hl]; [by apply slt_irrefl in Hlt|].
      apply (slt_irrefl x). etrans; [exact Hlt|by apply Hk]. }
    destruct (removeEntry_rel s a k e Hs Hget (fun _ => Hmin)) as [Hs' Hstep].
    destruct (IH _ _ Hs' Hasc) as (a' & Ha' & Hrel); [| |exists a'; split; [by etrans|done]].
    + intros x e' Hx. rewrite removeEntry_entries, jm_get_delete. case_decide; [done|]. set_solver.
    + intros x. rewrite removeEntry_entries, elem_of_ids_where.
      intros (e' & [Hx Hne]%jm_delete_elem & He') Hlt.
      assert (x ∈ k :: log) by (apply Hcov; [apply elem_of_ids_where|]; eauto). set_solver.
  - apply IH; [done..|set_solver|]. intros x Hx Hlt. specialize (Hcov x Hx Hlt).
    apply elem_of_cons in Hcov as [->|]; [|done].
    apply elem_of_ids_where in Hx as (e' & Hx%Hin & Hlog). simplify_eq. destruct Hlog as [_ Hlog].
    rewrite !bool_decide_true in Hb by done. done.
Qed.

Lemma trim_rel s a t before :
  store_rel s a -> ∃ a', logs_step a a' ∧ store_rel (trim t before s) a'.
Proof.
  intros Hs. unfold trim. destruct (ms_topicLogs s !! t) as [log|] eqn:Hlog; [|by exists a].
  assert (log = ids_where (on_topic t) (ms_entries s)) as ->.
  { rewrite <- (sr_topics _ _ (proj1 Hs)). unfold queue. by rewrite Hlog. }
  pose proof (sr_entries _ _ (proj1 Hs)) as Hm. apply (trim_loop_rel before t); [done|..].
  - apply ids_where_ascending, Hm.
  - intros k e (e' & Hk & Ht)%elem_of_ids_where Hget.
    apply jm_get_Some in Hk; [|by apply entries_wf_NoDup]. by simplify_eq.
  - intros x (e' & Hx & Ht)%elem_of_ids_where _. apply elem_of_ids_where. exists e'. split; [done|].
    apply Ht.
Qed.

(** The topic's log-class ids, as [fetchTopic] and the depth bound compute them. *)
Lemma log_ids s a t :
  core_rel s a ->
  filter (fun id => isLogEntry s id = true) (topicLog s t) = ids_where (in_log t) (ms_entries s).
Proof.
  intros Hs. change (topicLog s t) with (queue (ms_topicLogs s) t). rewrite (sr_topics _ _ Hs).
  assert (∀ k e, (k, e) ∈ ms_entries s -> jm_get k (ms_entries s) = Some e) as Hget.
  { intros k e. apply jm_get_Some, entries_wf_NoDup, Hs. }
  unfold isLogEntry, ids_where. revert Hget. generalize (jm_get (K:=string) (V:=LogEntry)). intros get Hget.
  assert (∀ l : entry_map, l ⊆ ms_entries s ->
    filter (fun id => match get id (ms_entries s) with
                      | Some e => bool_decide (le_retain e = Log) | None => false end = true)
      (map fst (filter (fun kv => on_topic t kv.2) l)) =
    map fst (filter (fun kv => in_log t kv.2) l)) as H; [|by apply H].
  induction l as [|[k e] l IH]; intros Hl; [done|]. rewrite !filter_cons. simpl.
  specialize (IH ltac:(set_solver)). pose proof (Hget k e ltac:(set_solver)) as Hk.
  destruct (decide (on_topic t e)) as [Ht|Ht].
  - simpl. rewrite filter_cons, Hk, IH. destruct (decide (in_log t e)) as [[_ Hlog]|Hlog].
    + rewrite bool_decide_true by done. done.
    + rewrite bool_decide_false by (by intros ?; apply Hlog). done.
  - rewrite IH. rewrite decide_False; [done|]. by intros [? _].
Qed.

Lemma evictDepth_rel cfg t depth s a :
  store_rel s a -> ∃ a', logs_step a a' ∧ store_rel (evictDepth cfg t depth s) a'.
Proof.
  revert s a. induction depth as [|depth IH]; intros s a Hs; simpl.
  - destruct (exceeds _ _); by exists a.
  - destruct (exceeds _ _); [|by exists a].
    unfold oldestLog. rewrite (log_ids s a t (proj1 Hs)).
    destruct (ids_where (in_log t) (ms_entries s)) as [|k ids] eqn:Hids; simpl; [by exists a|].
    pose proof (sr_entries _ _ (proj1 Hs)) as Hm.
    assert (k ∈ ids_where (in_log t) (ms_entries s)) as (e & Hk & He)%elem_of_ids_where
      by (rewrite Hids; set_solver).
    apply jm_get_Some in Hk; [|by apply entries_wf_NoDup].
    pose proof (ids_where_ascending (in_log t) _ (ew_ascending _ Hm)) as Hasc.
    rewrite Hids in Hasc. apply ascending_cons_inv in Hasc as [_ Hmin].
    destruct (removeEntry_rel s a k e Hs Hk) as [Hs' Hstep].
    { intros _. rewrite <- (in_log_topic _ _ He), Hids. intros x [->|?]%elem_of_cons; auto with kumiai. }
    destruct (IH _ _ Hs') as (a' & ? & ?). exists a'. split; [by etrans|done].
Qed.

(** A removal order in which a log frame goes only after the older frames of its log. *)
Definition oldest_first (s : MemStore) (ids : list string) : Prop :=
  ∀ pre k post e, ids = pre ++ k :: post -> jm_get k (ms_entries s) = Some e -> le_retain e = Log ->
    ∀ x, x ∈ ids_where (in_log (le_topicID e)) (ms_entries s) -> x <ₛ k -> x ∈ pre.

Lemma removeAll_rel s a ids :
  store_rel s a -> oldest_first s ids ->
  ∃ a', logs_step a a' ∧ store_rel (foldl (fun s id => removeEntry id s) s ids) a'.
Proof.
  revert s a. induction ids as [|k ids IH]; intros s a Hs Hord; [by exists a|]. cbn [foldl].
  assert (oldest_first (removeEntry k s) ids) as Hord'.
  { intros pre x post e -> Hget Hlog y Hy Hlt. rewrite removeEntry_entries in *.
    rewrite jm_get_delete in Hget. case_decide; [done|].
    apply elem_of_ids_where in Hy as (e' & [Hy Hne]%jm_delete_elem & He').
    assert (y ∈ k :: pre) as Hin; [|by apply elem_of_cons in Hin as [->|]].
    eapply (Hord (k :: pre) x post e); [done..| |done]. apply elem_of_ids_where. eauto. }
  destruct (jm_get k (ms_entries s)) as [e|] eqn:Hget.
  - destruct (removeEntry_rel s a k e Hs Hget) as [Hs' Hstep].
    { intros Hlog x Hx. apply not_slt. intros Hlt.
      apply (not_elem_of_nil x). by eapply (Hord [] k ids e). }
    destruct (IH _ _ Hs' Hord') as (a' & ? & ?). exists a'. split; [by etrans|done].
  - assert (removeEntry k s = s) as Heq by (unfold removeEntry; by rewrite Hget).
    rewrite Heq in Hord' |- *. by apply IH.
Qed.

Lemma purgeable_elem cfg s now old retained es k :
  k ∈ purgeable cfg s now old retained es -> k ∈ map fst es.
Proof.
  revert retained. induction es as [|[i e] es IH]; intros retained; simpl; [done|].
  repeat case_match; rewrite ?elem_of_cons; intros; naive_solver.
Qed.

(** The scan skips a topic's log from its first retained frame on. *)
Lemma purgeable_order cfg s now old retained es pre k post e :
  ascending (map fst es) -> purgeable cfg s now old retained es = pre ++ k :: post ->
  (k, e) ∈ es -> le_retain e = Log ->
  le_topicID e ∉ retained ∧
  ∀ x e', (x, e') ∈ es -> in_log (le_topicID e) e' -> x <ₛ k -> x ∈ pre.
Proof.
  revert retained pre. induction es as [|[i en] es IH]; intros retained pre Hasc Heq Hin Hlog;
    [set_solver|].
  apply ascending_cons_inv in Hasc as [Hasc Hi]. cbn [purgeable] in Heq.
  assert (∀ r, k ∈ purgeable cfg s now old r es -> (k, e) ∈ es) as Hes.
  { intros r Hk%purgeable_elem. apply elem_of_cons in Hin as [?|]; [simplify_eq|done].
    by apply Hi, slt_irrefl in Hk. }
  assert (∀ r pre', purgeable cfg s now old r es = pre' ++ k :: post -> k ∈ purgeable cfg s now old r es)
    as Hmem by (intros r pre' ->; set_solver).
  destruct (bool_decide _ && _) eqn:Hskip.
  { apply andb_true_iff in Hskip as [_ Hret%bool_decide_eq_true].
    destruct (IH _ _ Hasc Heq (Hes _ (Hmem _ _ Heq)) Hlog) as [Hnot Hall]. split; [done|].
    intros x e' [?|Hx]%elem_of_cons He'; simplify_eq; [|by eauto].
    apply in_log_topic in He'. congruence. }
  destruct (_ <=? _)%Z.
  { destruct pre as [|p pre]; simplify_eq/=.
    - assert (en = e) as ->.
      { apply elem_of_cons in Hin as [?|Hin]; [by simplify_eq|]. exfalso. apply (slt_irrefl k), Hi.
        apply list_elem_of_fmap. by exists (k, e). }
      rewrite Hlog, bool_decide_true in Hskip by done.
      apply bool_decide_eq_false in Hskip. split; [done|].
      intros x e' [?|Hx]%elem_of_cons _ Hlt; simplify_eq; [by apply slt_irrefl in Hlt|].
      exfalso. apply (slt_irrefl x). etrans; [done|]. apply Hi, list_elem_of_fmap. by exists (x, e').
    - assert ((k, e) ∈ es) as Hk by eauto.
      destruct (IH _ _ Hasc ltac:(done) Hk Hlog) as [Hnot Hall]. split; [done|].
      intros x e' [?|Hx]%elem_of_cons He' Hlt; simplify_eq; set_solver. }
  destruct (bool_decide _) eqn:Hlog'; destruct (IH _ _ Hasc Heq (Hes _ (Hmem _ _ Heq)) Hlog) as [Hnot Hall];
    (split; [set_solver|]); intros x e' [?|Hx]%elem_of_cons [Ht Hr] Hlt;
    try (by eapply Hall); simplify_eq.
  - rewrite Ht in Hnot. set_solver.
  - by rewrite bool_decide_true in Hlog' by done.
Qed.

Lemma purgeable_oldest_first s a cfg now old :
  store_rel s a -> oldest_first s (purgeable cfg s now old ∅ (ms_entries s)).
Proof.
  intros [Hs _] pre k post e Heq Hget Hlog x (e' & Hx & He')%elem_of_ids_where Hlt.
  eapply (purgeable_order cfg s now old ∅ _ pre k post e); [apply Hs|done|by apply jm_get_elem|done..].
Qed.

Lemma purge_rel s a cfg now old :
  store_rel s a -> ∃ a', logs_step a a' ∧ store_rel (purge cfg now old s).1 a'.
Proof. intros Hs. apply removeAll_rel; [done|]. by eapply purgeable_oldest_first. Qed.

(** ** Publishing *)

Abbreviation nextID s := (formatSequenceID (ms_counter s + 1)).

Lemma next_past s x :
  (ms_counter s + 1 < SEQUENCE_LIMIT)%N -> x ≤ₛ formatSequenceID (ms_counter s) -> x <ₛ nextID s.
Proof.
  intros Hc Hx. eapply sle_slt_trans; [done|]. apply format_lt; lia.
Qed.

Lemma recipientsOf_NoDup s t d : subs_wf s -> NoDup (recipientsOf s t d).
Proof. intros Hs. apply NoDup_filter, (sw_NoDup _ Hs). Qed.

(** A mailbox publish nobody receives consumes a position and nothing else. *)
Lemma mint_mailbox_rel s a params :
  (ms_counter s + 1 < SEQUENCE_LIMIT)%N -> store_rel s a -> store_rel (mint params Mailbox s) a.
Proof.
  intros Hc [[? ? Hbd ? ? ? Hlogs Hsubs] Hmb]. split; [split|]; simpl; try done.
  - intros k Hk. by apply slt_sle, next_past, Hbd.
  - intros t. destruct (Hlogs t) as [? ? ? ? Hb]. split; try done. intros x Hx.
    by apply slt_sle, next_past, Hb.
  - by eapply subs_wf_frame.
Qed.

(** The abstract effect of a publish. *)
Definition log_appended (e : LogEntry) (a : topic_logs) : topic_logs :=
  match le_retain e with
  | Log => <[le_topicID e := tl_append (asStoredMessage e) (a (le_topicID e))]> a
  | Mailbox => a
  end.

Record fresh_entry (s : MemStore) (params : PublishParams) (e : LogEntry) : Prop := {
  fe_id : le_sequenceID e = nextID s;
  fe_topic : le_topicID e = pp_topicID params;
  fe_NoDup : NoDup (le_pendingFor e);
  fe_mailbox : le_retain e = Mailbox -> le_pendingFor e ≠ [];
}.

Lemma append_entries s params e :
  nextID s ∉ map fst (ms_entries s) -> le_sequenceID e = nextID s ->
  ms_entries (append e (mint params (le_retain e) s)) = ms_entries s ++ [(nextID s, e)].
Proof. intros Hk Hid. simpl. rewrite Hid. by apply jm_set_fresh. Qed.

Lemma append_log_rel s a params e t :
  (ms_counter s + 1 < SEQUENCE_LIMIT)%N -> store_rel s a -> fresh_entry s params e ->
  ms_entries (append e (mint params (le_retain e) s)) = ms_entries s ++ [(nextID s, e)] ->
  log_rel (append e (mint params (le_retain e) s)) t (log_appended e a t).
Proof.
  intros Hc [Hs _] [Hid Htop _ _] Hentries. destruct (sr_logs _ _ Hs t) as [Hwf Hlive Hhead Hrem Hbd].
  assert (∀ x, x ∈ positions (tl_history (a t)) -> x <ₛ nextID s) as Hnew
    by (intros; by apply next_past, Hbd).
  destruct (decide (in_log t e)) as [[Ht Hret]|Hout].
  - assert (log_appended e a t = tl_append (asStoredMessage e) (a t)) as ->.
    { unfold log_appended. rewrite Hret, <- Ht. by rewrite fn_lookup_insert. }
    split; rewrite ?Hentries.
    + eapply tl_step_wf; [|done]. constructor; simpl.
      * intros m Hm. rewrite Hid. apply Hnew, elem_of_positions. eauto.
      * by rewrite Hret.
    + rewrite log_frames_snoc, decide_True by done. rewrite Hlive. unfold tl_live; simpl.
      rewrite drop_app_le by apply Hwf. done.
    + simpl. rewrite Hret, <- Htop, Ht, lookup_insert_eq. unfold tl_head; simpl.
      rewrite positions_app. change (positions [_]) with [le_sequenceID e]. by rewrite last_snoc, Hid.
    + simpl. rewrite Hrem. unfold tl_gone; simpl. by rewrite take_app_le by apply Hwf.
    + simpl. intros x. rewrite positions_app, elem_of_app.
      intros [Hx|Hx]; [by apply slt_sle, Hnew|]. apply list_elem_of_singleton in Hx as ->.
      simpl. rewrite Hid. reflexivity.
  - assert (log_appended e a t = a t) as ->.
    { unfold log_appended. destruct (le_retain e) eqn:Hr; [|done]. rewrite fn_lookup_insert_ne; [done|].
      intros ?. by apply Hout. }
    split; rewrite ?Hentries; try done.
    + by rewrite log_frames_snoc, decide_False, app_nil_r.
    + simpl. destruct (le_retain e) eqn:Hr; [|done]. rewrite lookup_insert_ne; [done|].
      rewrite <- Htop. intros ?. by apply Hout.
    + intros x Hx. by apply slt_sle, Hnew.
Qed.

Lemma append_rel s a params e :
  (ms_counter s + 1 < SEQUENCE_LIMIT)%N -> store_rel s a -> fresh_entry s params e ->
  store_rel (append e (mint params (le_retain e) s)) (log_appended e a) ∧
  logs_step a (log_appended e a).
Proof.
  intros Hc Hs He. pose proof Hs as [Hcore Hmb]. pose proof (sr_entries _ _ Hcore) as Hm.
  assert (∀ x, x ∈ map fst (ms_entries s) -> x <ₛ nextID s) as Hnew.
  { intros x Hx. by apply next_past, (sr_bound _ _ Hcore). }
  assert (nextID s ∉ map fst (ms_entries s)) as Hfresh.
  { intros H%Hnew. by apply slt_irrefl in H. }
  pose proof (append_entries s params e Hfresh (fe_id _ _ _ He)) as Hentries.
  split; [split; [split|]|]; try rewrite Hentries.
  - done.
  - apply entries_wf_snoc; [done..|apply He|apply He].
  - intros k. rewrite map_app, elem_of_app. simpl. intros [?|Hk].
    + by apply slt_sle, Hnew.
    + apply list_elem_of_singleton in Hk as ->. reflexivity.
  - intros t. rewrite ids_where_snoc, <- (sr_topics _ _ Hcore). simpl. unfold queue, on_topic.
    rewrite (fe_id _ _ _ He). case_decide as Ht; subst.
    + by rewrite lookup_insert_eq.
    + by rewrite lookup_insert_ne, app_nil_r.
  - intros t. simpl. destruct (decide (le_topicID e = t)) as [<-|].
    + rewrite lookup_insert_eq. intros [=]. by eapply app_cons_not_nil.
    + rewrite lookup_insert_ne by done. apply Hcore.
  - intros d. simpl. rewrite queue_pushAll by apply He.
    rewrite ids_where_snoc, <- (sr_deliveries _ _ Hcore), (fe_id _ _ _ He). unfold awaited_by.
    by repeat case_decide; rewrite ?app_nil_r.
  - intros t. by apply append_log_rel.
  - eapply subs_wf_frame; [apply Hcore|done..].
  - intros k e' [?|Hk]%elem_of_app; [eauto|]. apply list_elem_of_singleton in Hk as [= -> ->]. apply He.
  - unfold log_appended. destruct (le_retain e) eqn:Hr; [|done]. apply logs_step_insert.
    constructor; simpl; [|by rewrite Hr]. intros m Hm'. rewrite (fe_id _ _ _ He).
    apply next_past; [done|].
    apply (lr_bound _ _ _ (sr_logs _ _ Hcore (le_topicID e))), elem_of_positions. eauto.
Qed.

Lemma publish_rel cfg now params s a :
  (ms_counter s + 1 < SEQUENCE_LIMIT)%N -> store_rel s a ->
  ∃ a', logs_step a a' ∧ store_rel (publish cfg now params s).1 a'.
Proof.
  intros Hc Hs. unfold publish. destruct (acceptedAs _ _); [by exists a|].
  destruct (match pp_expectedHead params with None => false | Some _ => _ end); [by exists a|].
  set (retain := default Mailbox (pp_retain params)). cbv zeta.
  destruct (bool_decide _ && _) eqn:Hdrop.
  { apply andb_true_iff in Hdrop as [Hr%bool_decide_eq_true _]. exists a. split; [done|].
    simpl. rewrite Hr. by apply mint_mailbox_rel. }
  set (e := mkLogEntry _ _ _ _ _ _ _).
  assert (fresh_entry s params e) as He.
  { split; simpl; [done..|apply recipientsOf_NoDup, Hs|]. intros Hr Hnil.
    rewrite Hr, Hnil in Hdrop. done. }
  destruct (append_rel s a params e Hc Hs He) as [Hs' Hstep].
  change (le_retain e) with retain in Hs'. destruct retain.
  - destruct (evictDepth_rel cfg (pp_topicID params)
      (logDepth (append e (mint params Log s)) (pp_topicID params)) _ _ Hs') as (a' & ? & ?).
    exists a'. split; [by etrans|done].
  - by eexists.
Qed.

(** ** Subscriptions *)

Lemma isSubscribed_elem s t d : isSubscribed s t d = true <-> d ∈ map fst (subs_of s t).
Proof. apply jm_has_elem. Qed.

Lemma subs_of_set subs byDID s t :
  subs_of (setSubscriptions subs byDID s) t = default [] (subs !! t).
Proof. done. Qed.

Lemma subs_wf_subscribe cfg params s : subs_wf s -> subs_wf (subscribe cfg params s).1.
Proof.
  intros Hs. unfold subscribe. case_match; [done|]. case_match; [done|]. simpl.
  set (d := sp_subscriberDID params). set (t := sp_topicID params).
  destruct Hs as [Hnd Hlock Hne Hne']. split.
  - intros t'. rewrite subs_of_set. destruct (decide (t = t')) as [<-|].
    + rewrite lookup_insert_eq. apply jm_set_NoDup, Hnd.
    + rewrite lookup_insert_ne by done. apply Hnd.
  - intros t' d'. rewrite isSubscribed_elem, subs_of_set.
    specialize (Hlock t' d'). rewrite isSubscribed_elem in Hlock. unfold subs_of, heldTopics in *. simpl.
    destruct (decide (t = t')) as [<-|], (decide (d = d')) as [<-|];
      rewrite ?lookup_insert_eq, ?lookup_insert_ne by done; simpl; rewrite ?jm_set_keys; set_solver.
  - simpl. intros t'. destruct (decide (t = t')) as [<-|].
    + rewrite lookup_insert_eq. intros [= Hnil].
      assert (d ∈ map fst (jm_set d (default (defaultRetention cfg) (sp_retention params))
        (default [] (ms_subscriptions s !! t)))) as Hd by (apply jm_set_keys; by left).
      rewrite Hnil in Hd. simpl in Hd. set_solver.
    + by rewrite lookup_insert_ne.
  - simpl. intros d'. destruct (decide (d = d')) as [<-|].
    + rewrite lookup_insert_eq. intros [= Hnil]. set_solver.
    + by rewrite lookup_insert_ne.
Qed.

Lemma subs_of_drop s d t t' :
  subs_of (dropSubscription d t s) t' =
    if decide (t' = t) then jm_delete d (subs_of s t') else subs_of s t'.
Proof.
  unfold subs_of, dropSubscription. simpl. destruct (ms_subscriptions s !! t) as [l|] eqn:Ht.
  - destruct (jm_delete d l) eqn:Hl; case_decide; subst;
      rewrite ?lookup_delete_eq, ?lookup_delete_ne, ?lookup_insert_eq, ?lookup_insert_ne by done;
      rewrite ?Ht; done.
  - case_decide; subst; [by rewrite Ht|done].
Qed.

Lemma heldTopics_drop s d t d' :
  heldTopics (dropSubscription d t s) d' =
    if decide (d' = d) then heldTopics s d' ∖ {[t]} else heldTopics s d'.
Proof.
  unfold heldTopics, dropSubscription. simpl. destruct (ms_subsByDID s !! d) as [l|] eqn:Hd.
  - case_decide as Hl; case_decide; subst;
      rewrite ?lookup_delete_eq, ?lookup_delete_ne, ?lookup_insert_eq, ?lookup_insert_ne by done;
      rewrite ?Hd; done.
  - case_decide; subst; [rewrite Hd; simpl; set_solver|done].
Qed.

Lemma subs_wf_drop s d t : subs_wf s -> subs_wf (dropSubscription d t s).
Proof.
  intros [Hnd Hlock Hne Hne']. split.
  - intros t'. rewrite subs_of_drop. case_decide; [|done].
    rewrite jm_delete_keys. by apply NoDup_filter.
  - intros t' d'. specialize (Hlock t' d'). rewrite isSubscribed_elem in *.
    rewrite subs_of_drop, heldTopics_drop. repeat case_decide; subst; rewrite ?jm_delete_keys,
      ?list_elem_of_filter; set_solver.
  - intros t'. simpl. destruct (ms_subscriptions s !! t) as [l|] eqn:Ht; [|done].
    destruct (jm_delete d l) eqn:Hl; destruct (decide (t = t')) as [<-|];
      rewrite ?lookup_delete_eq, ?lookup_delete_ne, ?lookup_insert_eq, ?lookup_insert_ne by done; done.
  - intros d'. simpl. destruct (ms_subsByDID s !! d) as [l|] eqn:Hd; [|done].
    case_decide; destruct (decide (d = d')) as [<-|];
      rewrite ?lookup_delete_eq, ?lookup_delete_ne, ?lookup_insert_eq, ?lookup_insert_ne by done;
      congruence || done.
Qed.

(** Operations that touch neither entries nor logs. *)
Lemma store_rel_frame s s' a :
  store_rel s a -> ms_counter s' = ms_counter s -> ms_entries s' = ms_entries s ->
  ms_topicLogs s' = ms_topicLogs s -> ms_heads s' = ms_heads s ->
  ms_removedThrough s' = ms_removedThrough s -> ms_deliveries s' = ms_deliveries s ->
  subs_wf s' -> store_rel s' a.
Proof.
  intros [[? ? ? ? ? ? Hlogs ?] Hmb] Hc He Ht Hh Hr Hd Hsubs. destruct s, s'; simplify_eq/=.
  split; [split|]; try done. intros t. by eapply log_rel_frame; [apply Hlogs|..].
Qed.

Lemma subscribe_rel cfg params s a : store_rel s a -> store_rel (subscribe cfg params s).1 a.
Proof.
  intros Hs. eapply store_rel_frame; [done| | | | | | |apply subs_wf_subscribe, Hs];
    unfold subscribe; repeat case_match; done.
Qed.

Lemma unsubscribe_rel d t s a : store_rel s a -> store_rel (unsubscribe d t s) a.
Proof.
  intros Hs. unfold unsubscribe.
  assert (store_rel (dropSubscription d t s) a) as Hs'.
  { eapply store_rel_frame; [done..|apply subs_wf_drop, Hs]. }
  generalize dependent (dropSubscription d t s). intros s' Hs'.
  generalize (default [] (ms_deliveries s' !! d)) as ids. intros ids. revert s' Hs'.
  induction ids as [|k ids IH]; intros s' Hs'; [done|]. simpl. apply IH. unfold unsubscribeOne.
  repeat case_match; auto using dropDelivery_rel.
Qed.

Lemma setKeyPackages_rel kps s a : store_rel s a -> store_rel (setKeyPackages kps s) a.
Proof. intros Hs. eapply store_rel_frame; [done..|]. eapply subs_wf_frame; [apply Hs|done..]. Qed.

(** ** Every step *)

(** One call, the position counter staying within the twelve digits it is printed in. *)
Definition store_step (cfg : StoreConfig) (s s' : MemStore) : Prop :=
  ∃ op, s' = exec cfg op s ∧ (ms_counter s' < SEQUENCE_LIMIT)%N.

Definition reachable (cfg : StoreConfig) : MemStore -> Prop := rtc (store_step cfg) createMemoryStore.

Lemma removeEntry_counter k s : ms_counter (removeEntry k s) = ms_counter s.
Proof. unfold removeEntry. by destruct (jm_get _ _). Qed.

Lemma evictDepth_counter cfg t depth s : ms_counter (evictDepth cfg t depth s) = ms_counter s.
Proof.
  revert s. induction depth; intros s; simpl; repeat case_match; try done.
  by rewrite IHdepth, removeEntry_counter.
Qed.

(** A publish either changes nothing at all or consumes exactly one position. *)
Lemma publish_counter cfg now params s :
  (publish cfg now params s).1 = s ∨
  ms_counter (publish cfg now params s).1 = (ms_counter s + 1)%N.
Proof.
  unfold publish. destruct (acceptedAs _ _); [by left|].
  destruct (match pp_expectedHead params with None => false | Some _ => _ end); [by left|]. right.
  cbv zeta. case_match; [done|]. simpl. case_match; [|done]. by rewrite evictDepth_counter.
Qed.

Lemma exec_rel cfg op s a :
  store_rel s a -> (ms_counter (exec cfg op s) < SEQUENCE_LIMIT)%N ->
  ∃ a', logs_step a a' ∧ store_rel (exec cfg op s) a'.
Proof.
  intros Hs Hc. destruct op as [now p|p|d ids|t before|now old|p|d t|now p|now d n|d kp]; simpl in *.
  - destruct (publish_counter cfg now p s) as [->|Hc']; [by exists a|].
    apply publish_rel; [|done]. by rewrite <- Hc'.
  - exists a. split; [done|]. unfold fetch. destruct (fp_ack p); [by apply ack_rel|done].
  - exists a. split; [done|]. by apply ack_rel.
  - by apply trim_rel.
  - by apply purge_rel.
  - exists a. split; [done|]. by apply subscribe_rel.
  - exists a. split; [done|]. by apply unsubscribe_rel.
  - exists a. split; [done|]. unfold storeKeyPackage. case_match; by apply setKeyPackages_rel.
  - exists a. split; [done|]. unfold fetchKeyPackages. case_match; [|done].
    case_match. by apply setKeyPackages_rel.
  - exists a. split; [done|]. eapply store_rel_frame; [done..|].
    eapply subs_wf_frame; [apply Hs|done..].
Qed.

Lemma steps_rel cfg s s' a :
  store_rel s a -> rtc (store_step cfg) s s' -> ∃ a', logs_step a a' ∧ store_rel s' a'.
Proof.
  intros Hs Hsteps. revert a Hs. induction Hsteps as [s|s1 s2 s3 (op & -> & Hc) _ IH]; intros a Hs.
  - by exists a.
  - destruct (exec_rel cfg op s1 a Hs Hc) as (a1 & Ha1 & Hs1).
    destruct (IH a1 Hs1) as (a' & ? & ?). exists a'. split; [by etrans|done].
Qed.

Lemma reachable_rel cfg s :
  reachable cfg s -> ∃ a, logs_step (fun _ => tl_empty) a ∧ store_rel s a.
Proof. apply steps_rel, store_rel_init. Qed.
