(* ===== verification/MemoryStoreSpec.v ===== *)
(** * What the in-memory store guarantees its callers

    The theorems about createMemoryStore (packages/hub-server/src/memoryStore.ts), over every state a
    sequence of calls can reach: the log contract, the publish compare-and-set and its replay, the
    mailbox lifecycle, the key package pool, the quotas and the bounds. *)

From S2P Require Import Prelude SeqID HubProtocol HubSpec MemoryStore MemoryStoreFacts.

(** ** Reads against the relation *)

Lemma messagesOf_frames s :
  entries_wf (ms_entries s) ->
  ∀ (fs : list StoredMessage),
    (∀ f, f ∈ fs -> ∃ k e, (k, e) ∈ ms_entries s ∧ f = asStoredMessage e) ->
    messagesOf s (positions fs) = fs.
Proof.
  intros Hm. induction fs as [|f fs IH]; intros Hfs; [done|].
  destruct (Hfs f ltac:(set_solver)) as (k & e & Hk & ->). unfold messagesOf in *. simpl.
  rewrite (ew_key _ Hm _ _ Hk). apply jm_get_Some in Hk; [|by apply entries_wf_NoDup].
  rewrite Hk. simpl. f_equal. apply IH. set_solver.
Qed.

Lemma log_frames_elem t m f :
  f ∈ log_frames t m -> ∃ k e, (k, e) ∈ m ∧ f = asStoredMessage e ∧ in_log t e.
Proof.
  unfold log_frames. intros ([k e] & -> & [? ?]%list_elem_of_filter)%list_elem_of_fmap. eauto.
Qed.

Lemma positions_page limit ms :
  positions (page limit ms) = match limit with None => positions ms | Some n => take n (positions ms) end.
Proof. destruct limit; [|done]. unfold positions. simpl. by rewrite firstn_map. Qed.

Lemma fetchTopic_rel s a params :
  store_rel s a ->
  fetchTopic params s =
    if isSubscribed s (ft_topicID params) (ft_subscriberDID params)
    then Ok (tl_fetch (ft_after params) (ft_limit params) (a (ft_topicID params)))
    else Err NotSubscribedError.
Proof.
  intros [Hs _]. unfold fetchTopic. destruct (isSubscribed _ _ _); [|done]. cbn [negb].
  set (t := ft_topicID params). destruct (sr_logs _ _ Hs t) as [Hwf Hlive Hhead Hrem _].
  pose proof (sr_entries _ _ Hs) as Hm.
  rewrite (log_ids s a t Hs), <- (log_frames_positions t _ Hm), Hhead, Hrem, Hlive.
  unfold tl_fetch. f_equal. f_equal; [|by rewrite tl_gap_watermark].
  assert ((match ft_limit params with
      | Some n => take n (match ft_after params with
                          | Some after => filter (fun id => after <ₛ id) (positions (tl_live (a t)))
                          | None => positions (tl_live (a t)) end)
      | None => match ft_after params with
                | Some after => filter (fun id => after <ₛ id) (positions (tl_live (a t)))
                | None => positions (tl_live (a t)) end end)
    = positions (page (ft_limit params) (above (ft_after params) (tl_live (a t))))) as Heq.
  { rewrite positions_page. destruct (ft_after params); [rewrite positions_above|]; done. }
  etrans; [|apply messagesOf_frames; [exact Hm|]]; [by f_equal|].
  intros f Hf. assert (f ∈ tl_live (a t)) as Hlf.
  { destruct (ft_limit params); simpl in Hf; [apply elem_of_take in Hf as (? & ? & _);
      apply list_elem_of_lookup_2 in H|]; destruct (ft_after params); simpl in *; try done;
      by eapply list_elem_of_filter. }
  rewrite <- Hlive in Hlf. apply log_frames_elem in Hlf as (k & e & ? & ? & _). eauto.
Qed.

(** ** What no call but its own changes *)

Lemma foldl_preserved {A B C} (f : A -> B -> A) (g : A -> C) l s :
  (∀ s x, g (f s x) = g s) -> g (foldl f s l) = g s.
Proof. intros H. revert s. induction l; intros s; simpl; [done|]. by rewrite IHl. Qed.

(** The part of the state removals and acks never write. *)
Definition rest_of (s : MemStore) :=
  (ms_counter s, ms_heads s, ms_publishRecords s, ms_subscriptions s, ms_subsByDID s,
   ms_keyPackages s, ms_lastResortKeyPackages s).

Lemma removeEntry_rest k s : rest_of (removeEntry k s) = rest_of s.
Proof. unfold removeEntry. by destruct (jm_get _ _). Qed.

Lemma dropDelivery_rest d k s : rest_of (dropDelivery d k s) = rest_of s.
Proof.
  unfold dropDelivery. destruct (jm_get _ _); [|done]. cbv zeta.
  case_match; rewrite ?removeEntry_rest; done.
Qed.

Lemma ack_rest d ids s : rest_of (ack d ids s) = rest_of s.
Proof. apply foldl_preserved. intros. apply dropDelivery_rest. Qed.

Lemma evictDepth_rest cfg t n s : rest_of (evictDepth cfg t n s) = rest_of s.
Proof.
  revert s. induction n as [|n IH]; intros s; simpl; repeat case_match; try done.
  by rewrite IH, removeEntry_rest.
Qed.

Lemma trim_rest t before s : rest_of (trim t before s) = rest_of s.
Proof.
  unfold trim. destruct (_ !! _); [|done]. apply foldl_preserved. intros s' x.
  unfold trimOne. case_match; [apply removeEntry_rest|done].
Qed.

Lemma purge_rest cfg now old s : rest_of (purge cfg now old s).1 = rest_of s.
Proof. apply foldl_preserved. intros. apply removeEntry_rest. Qed.

Lemma unsubscribe_rest d t s :
  rest_of (unsubscribe d t s) = rest_of (dropSubscription d t s).
Proof.
  apply foldl_preserved. intros s' k. unfold unsubscribeOne. repeat case_match; try done.
  apply dropDelivery_rest.
Qed.

Lemma rest_records s s' : rest_of s' = rest_of s -> ms_publishRecords s' = ms_publishRecords s.
Proof. unfold rest_of. by intros [=]. Qed.

(** ** Publish, branch by branch *)

(** The two refusals of a fresh position, and the acceptance. *)
Definition casFails (params : PublishParams) (s : MemStore) : bool :=
  match pp_expectedHead params with
  | None => false
  | Some expected => bool_decide (ms_heads s !! pp_topicID params ≠ expected)
  end.

Lemma publish_rest cfg now params s :
  acceptedAs (pp_publishID params) s = None -> casFails params s = false ->
  rest_of (publish cfg now params s).1 = rest_of (mint params (default Mailbox (pp_retain params)) s) ∧
  (publish cfg now params s).2 = Ok (mkPublishResult (nextID s) false).
Proof.
  intros Hacc Hcas. unfold publish. rewrite Hacc. fold (casFails params s). rewrite Hcas. cbv zeta.
  destruct (bool_decide _ && _); [done|].
  destruct (default Mailbox (pp_retain params)); [|done]. cbn [fst snd]. by rewrite evictDepth_rest.
Qed.

Lemma publish_cases cfg now params s :
  (∃ q, publish cfg now params s = (s, Ok (mkPublishResult q true))) ∨
  publish cfg now params s = (s, Err HeadMismatchError) ∨
  (publish cfg now params s).2 = Ok (mkPublishResult (nextID s) false).
Proof.
  destruct (acceptedAs (pp_publishID params) s) as [q|] eqn:Hacc.
  { left. exists q. unfold publish. by rewrite Hacc. }
  destruct (casFails params s) eqn:Hcas; right; [left|right; by apply publish_rest].
  unfold publish. rewrite Hacc. fold (casFails params s). by rewrite Hcas.
Qed.

(** What a fresh log publish adds to the abstract log. *)
Lemma publish_appends cfg now params s a s1 q :
  (ms_counter s + 1 < SEQUENCE_LIMIT)%N -> store_rel s a ->
  publish cfg now params s = (s1, Ok (mkPublishResult q false)) -> pp_retain params = Some Log ->
  let frame := mkStoredMessage q (pp_senderDID params) (pp_topicID params) (pp_payload params) (Some q) in
  q = nextID s ∧
  ∃ a1, store_rel s1 a1 ∧ tl_steps (tl_append frame (a (pp_topicID params))) (a1 (pp_topicID params)).
Proof.
  intros Hc Hs Hpub Hret frame. unfold publish in Hpub. destruct (acceptedAs _ _); [done|].
  destruct (match pp_expectedHead params with None => false | Some _ => _ end); [done|].
  rewrite Hret in Hpub. cbv zeta in Hpub. simpl default in Hpub.
  rewrite bool_decide_false in Hpub by done. simpl andb in Hpub. cbn iota in Hpub.
  set (e := mkLogEntry _ _ _ _ _ _ _) in Hpub. injection Hpub as <- <-.
  assert (fresh_entry s params e) as He.
  { split; [done..|apply recipientsOf_NoDup, Hs|done]. }
  split; [done|]. destruct (append_rel s a params e Hc Hs He) as [Hs' _].
  destruct (evictDepth_rel cfg (pp_topicID params)
    (logDepth (append e (mint params Log s)) (pp_topicID params)) _ _ Hs') as (a1 & Hstep & Hrel).
  exists a1. split; [exact Hrel|]. specialize (Hstep (pp_topicID params)).
  unfold log_appended in Hstep. simpl in Hstep. by rewrite fn_lookup_insert in Hstep.
Qed.

Lemma exec_records cfg op s id q :
  ms_publishRecords s !! id = Some q -> ms_publishRecords (exec cfg op s) !! id = Some q.
Proof.
  intros H. destruct op as [now p|p|d ids|t before|now old|p|d t|now p|now d n|d kp]; cbn [exec].
  - destruct (acceptedAs (pp_publishID p) s) eqn:Hacc; [unfold publish; by rewrite Hacc|].
    destruct (casFails p s) eqn:Hcas; [unfold publish; rewrite Hacc; unfold casFails in Hcas; by rewrite Hcas|].
    destruct (publish_rest cfg now p s Hacc Hcas) as [Hrest _]. rewrite (rest_records _ _ Hrest). simpl.
    destruct (pp_publishID p) as [id'|] eqn:Hid; [|done]. simpl in Hacc.
    rewrite lookup_insert_ne; [done|]. congruence.
  - unfold fetch. destruct (fp_ack p); [|done]. simpl. by rewrite (rest_records _ _ (ack_rest _ _ _)).
  - by rewrite (rest_records _ _ (ack_rest _ _ _)).
  - by rewrite (rest_records _ _ (trim_rest _ _ _)).
  - by rewrite (rest_records _ _ (purge_rest _ _ _ _)).
  - unfold subscribe. by repeat case_match.
  - by rewrite (rest_records _ _ (unsubscribe_rest _ _ _)).
  - unfold storeKeyPackage. by repeat case_match.
  - unfold fetchKeyPackages. by repeat case_match.
  - done.
Qed.

Lemma steps_records cfg s s' id q :
  rtc (store_step cfg) s s' -> ms_publishRecords s !! id = Some q -> ms_publishRecords s' !! id = Some q.
Proof. induction 1 as [|s1 s2 s3 (op & -> & _) _ IH]; eauto using exec_records. Qed.

(** ** Acks, as seen by the queues and the entries *)

Definition pending (s : MemStore) (d : string) : list string := queue (ms_deliveries s) d.

Lemma pending_dropDelivery d k s x :
  pending (dropDelivery d k s) x = if decide (x = d) then splice_out k (pending s x) else pending s x.
Proof.
  unfold pending. rewrite <- (queue_dropPending k d x). unfold dropDelivery.
  destruct (jm_get k (ms_entries s)) as [e|]; [|done]. cbv zeta.
  destruct (bool_decide _ && _) eqn:Hb; [|done]. apply andb_true_iff in Hb as [_ Hb].
  apply Nat.eqb_eq, nil_length_inv in Hb. unfold removeEntry. simpl in *. rewrite jm_get_set.
  rewrite decide_True by done. simpl. by rewrite Hb.
Qed.

Lemma pending_ack s a d ids x :
  store_rel s a ->
  pending (ack d ids s) x = if decide (x = d) then filter (fun k => k ∉ ids) (pending s x) else pending s x.
Proof.
  unfold ack. revert s. induction ids as [|k ids IH]; intros s Hs; cbn [foldl].
  - case_decide; [|done]. by rewrite filter_all by (intros; set_solver).
  - rewrite IH by by apply dropDelivery_rel. rewrite pending_dropDelivery. case_decide; [|done].
    rewrite splice_out_filter, list_filter_filter; [apply list_filter_iff; set_solver|].
    unfold pending. rewrite (sr_deliveries _ _ (proj1 Hs)).
    apply ascending_NoDup, ids_where_ascending, Hs.
Qed.

(** An entry that survives is the same frame. *)
Lemma dropDelivery_get d k s x e' :
  jm_get x (ms_entries (dropDelivery d k s)) = Some e' ->
  ∃ e, jm_get x (ms_entries s) = Some e ∧ asStoredMessage e' = asStoredMessage e ∧
       le_retain e' = le_retain e.
Proof.
  unfold dropDelivery. destruct (jm_get k (ms_entries s)) as [e|] eqn:Hk; [|by eauto]. cbv zeta.
  intros H. assert (jm_get x (jm_set k (forgetRecipient d e) (ms_entries s)) = Some e') as H'.
  { case_match; [|done]. rewrite removeEntry_entries, jm_get_delete in H. by case_decide. }
  rewrite jm_get_set in H'. case_decide; subst; [injection H' as <-|]; eauto.
Qed.

Lemma ack_get d ids s x e' :
  jm_get x (ms_entries (ack d ids s)) = Some e' ->
  ∃ e, jm_get x (ms_entries s) = Some e ∧ asStoredMessage e' = asStoredMessage e ∧
       le_retain e' = le_retain e.
Proof.
  unfold ack. revert s. induction ids as [|k ids IH]; intros s; cbn [foldl]; [eauto|].
  intros (e1 & (e & ? & ? & ?)%dropDelivery_get & ? & ?)%IH. exists e. split_and!; congruence.
Qed.

Lemma pending_entry s a d k :
  store_rel s a -> k ∈ pending s d <-> ∃ e, jm_get k (ms_entries s) = Some e ∧ d ∈ le_pendingFor e.
Proof.
  intros [Hs _]. unfold pending. rewrite (sr_deliveries _ _ Hs), elem_of_ids_where.
  split; intros (e & Hk & ?); exists e; (split; [|done]);
    [apply jm_get_Some; [apply entries_wf_NoDup, Hs|done]|by apply jm_get_elem].
Qed.

Lemma messagesOf_positions s a d ids :
  store_rel s a -> ids ⊆ pending s d -> positions (messagesOf s ids) = ids.
Proof.
  intros Hs. induction ids as [|k ids IH]; intros Hsub; [done|].
  assert (k ∈ pending s d) as (e & Hk & _)%(pending_entry _ _ _ _ Hs) by set_solver.
  unfold messagesOf in *. simpl. rewrite Hk. simpl. f_equal; [|apply IH; set_solver].
  apply (ew_key _ (sr_entries _ _ (proj1 Hs))). by apply jm_get_elem.
Qed.

Lemma sliceAfter_filter after l : ascending l -> sliceAfter after l = filter (fun k => after <ₛ k) l.
Proof.
  induction l as [|k l IH]; intros Hl; [done|]. apply ascending_cons_inv in Hl as [Hl Hk]. simpl.
  rewrite filter_cons. case_decide as Hd; [|by apply IH].
  rewrite filter_all; [done|]. intros x Hx. etrans; [done|]. by apply Hk.
Qed.

Lemma pending_ascending s a d : store_rel s a -> ascending (pending s d).
Proof.
  intros [Hs _]. unfold pending. rewrite (sr_deliveries _ _ Hs). apply ids_where_ascending, Hs.
Qed.

(** The deliveries a page is cut from. *)
Definition available (s : MemStore) (params : FetchParams) : list string :=
  match fp_after params with
  | None => pending s (fp_recipientDID params)
  | Some after => filter (fun k => after <ₛ k) (pending s (fp_recipientDID params))
  end.

Lemma fetch_unacked s a params :
  store_rel s a -> fp_ack params = None ->
  let ids := available s params in
  let limit := default (length ids) (fp_limit params) in
  fetch params s =
    (s, {| fe_messages := messagesOf s (take limit ids);
           fe_cursor := last (take limit ids);
           fe_hasMore := (limit <? length ids)%nat |}).
Proof.
  intros Hs Hack ids limit. unfold fetch. rewrite Hack. cbv zeta.
  assert (match fp_after params with
          | None => default [] (ms_deliveries s !! fp_recipientDID params)
          | Some after => sliceAfter after (default [] (ms_deliveries s !! fp_recipientDID params))
          end = ids) as ->.
  { unfold ids, available. destruct (fp_after params); [|done].
    by apply sliceAfter_filter, (pending_ascending _ a). }
  fold limit. do 2 f_equal.
  rewrite <- fmap_last. change (fmap sm_sequenceID ?l) with (positions l).
  rewrite (messagesOf_positions s a (fp_recipientDID params)); [done..|].
  etrans; [apply subseteq_take|]. unfold ids, available. destruct (fp_after params); [|done].
  intros k [_ ?]%list_elem_of_filter. done.
Qed.

(** ** What an unsubscribe leaves pending *)

Lemma unsubscribeOne_get d t s k x e' :
  jm_get x (ms_entries (unsubscribeOne d t s k)) = Some e' ->
  ∃ e, jm_get x (ms_entries s) = Some e ∧ asStoredMessage e' = asStoredMessage e.
Proof.
  unfold unsubscribeOne. repeat case_match; eauto. intros (e1 & ? & ? & _)%dropDelivery_get. eauto.
Qed.

Lemma unsubscribeOne_rel d t s k a : store_rel s a -> store_rel (unsubscribeOne d t s k) a.
Proof. intros Hs. unfold unsubscribeOne. repeat case_match; auto using dropDelivery_rel. Qed.

Lemma unsubscribe_loop d t l s a k :
  store_rel s a -> k ∈ pending (foldl (unsubscribeOne d t) s l) d ->
  k ∈ pending s d ∧ (k ∈ l -> ∀ e, jm_get k (ms_entries s) = Some e -> le_topicID e ≠ t).
Proof.
  revert s. induction l as [|k0 l IH]; intros s Hs Hk; [by split; [|intros ?%not_elem_of_nil]|].
  pose proof (unsubscribeOne_rel d t s k0 a Hs) as Hs1.
  destruct (IH _ Hs1 Hk) as [Hk1 Hl]. clear IH Hk.
  assert (NoDup (pending s d)) as Hnd by (eapply ascending_NoDup, pending_ascending, Hs).
  assert (k ∈ pending s d ∧ (k = k0 -> ∀ e, jm_get k (ms_entries s) = Some e -> le_topicID e ≠ t))
    as [Hks Hk0].
  { unfold unsubscribeOne in Hk1. destruct (jm_get k0 (ms_entries s)) as [e0|] eqn:He0.
    - destruct (decide (le_topicID e0 = t)) as [Ht|Ht].
      + rewrite pending_dropDelivery, decide_True, splice_out_filter in Hk1 by done.
        apply list_elem_of_filter in Hk1 as [? ?]. by split.
      + split; [done|]. intros -> e He. congruence.
    - split; [done|]. intros -> e He. congruence. }
  split; [done|]. intros [->|Hin]%elem_of_cons e He; [by eapply Hk0|].
  apply (pending_entry _ _ _ _ Hs1) in Hk1 as (e1 & He1 & _).
  specialize (Hl Hin e1 He1). apply unsubscribeOne_get in He1 as (e' & He' & Heq).
  apply (f_equal sm_topicID) in Heq. simpl in Heq. congruence.
Qed.

Lemma unsubscribe_pending d t s a k :
  store_rel s a -> k ∈ pending (unsubscribe d t s) d ->
  ∃ e, jm_get k (ms_entries (unsubscribe d t s)) = Some e ∧ le_topicID e ≠ t.
Proof.
  intros Hs Hk. pose proof (unsubscribe_rel d t s a Hs) as Hs''.
  destruct (proj1 (pending_entry _ _ _ _ Hs'') Hk) as (e & He & _). exists e. split; [done|].
  assert (store_rel (dropSubscription d t s) a) as Hs'
    by (eapply (store_rel_frame s); [done..|apply subs_wf_drop, Hs]).
  unfold unsubscribe in *. cbv zeta in *. generalize dependent (dropSubscription d t s).
  intros s' Hk _ He Hs'. destruct (unsubscribe_loop d t _ s' a k Hs' Hk) as [Hin Hout].
  assert (∃ e0, jm_get k (ms_entries s') = Some e0 ∧ asStoredMessage e = asStoredMessage e0)
    as (e0 & He0 & Heq).
  { clear - He. revert e He. generalize (default [] (ms_deliveries s' !! d)) as l. intros l.
    revert s'. induction l as [|k0 l IH]; intros s' e He; [by eauto|].
    apply IH in He as (e1 & (e0 & ? & ?)%unsubscribeOne_get & ?). exists e0. split; congruence. }
  apply (f_equal sm_topicID) in Heq. simpl in Heq. rewrite Heq. by apply Hout.
Qed.

Lemma isSubscribed_subscribe s t d ret byDID t' d' :
  isSubscribed (setSubscriptions (<[t := jm_set d ret (subs_of s t)]> (ms_subscriptions s)) byDID s) t' d'
  = bool_decide (t' = t ∧ d' = d) || isSubscribed s t' d'.
Proof.
  unfold isSubscribed. simpl. destruct (decide (t' = t)) as [->|Ht].
  - rewrite lookup_insert_eq. simpl. unfold jm_has. rewrite jm_get_set. unfold subs_of.
    case_decide; subst; [by rewrite bool_decide_true|]. by rewrite bool_decide_false by naive_solver.
  - rewrite lookup_insert_ne by done. by rewrite bool_decide_false by naive_solver.
Qed.

Lemma isSubscribed_unsubscribe d t s t' d' :
  isSubscribed (unsubscribe d t s) t' d' = negb (bool_decide (t' = t ∧ d' = d)) && isSubscribed s t' d'.
Proof.
  pose proof (unsubscribe_rest d t s) as Hrest. injection Hrest as _ _ _ Hsub _ _ _.
  assert (isSubscribed (unsubscribe d t s) t' d' = jm_has d' (subs_of (dropSubscription d t s) t')) as ->
    by (unfold isSubscribed, subs_of; by rewrite Hsub).
  rewrite subs_of_drop. unfold isSubscribed, jm_has, subs_of. case_decide as Ht.
  - rewrite jm_get_delete. case_decide; subst; [by rewrite bool_decide_true|].
    by rewrite bool_decide_false by naive_solver.
  - by rewrite bool_decide_false by naive_solver.
Qed.

(** ** What each removal removes *)

Lemma removeAll_entries ids s :
  ms_entries (foldl (fun s id => removeEntry id s) s ids) =
    filter (fun kv => kv.1 ∉ ids) (ms_entries s).
Proof.
  revert s. induction ids as [|k ids IH]; intros s; cbn [foldl].
  - symmetry. apply filter_all. intros; set_solver.
  - rewrite IH, removeEntry_entries. unfold jm_delete. rewrite list_filter_filter.
    apply list_filter_iff. intros x. rewrite not_elem_of_cons. tauto.
Qed.

Lemma log_frames_filter t (P : string -> Prop) `{∀ k, Decision (P k)} m :
  entries_wf m ->
  log_frames t (filter (fun kv => P kv.1) m) = filter (fun f => P (sm_sequenceID f)) (log_frames t m).
Proof.
  intros Hm. assert (∀ k e, (k, e) ∈ m -> le_sequenceID e = k) as Hk by apply Hm. clear Hm.
  induction m as [|[k e] m IH]; [done|]. assert (le_sequenceID e = k) as He by (apply Hk; set_solver).
  rewrite filter_cons, log_frames_cons; simpl. specialize (IH ltac:(set_solver)).
  destruct (decide (P k)); rewrite ?log_frames_cons, IH; destruct (decide (in_log t e)); try done.
  - rewrite filter_cons_True; [done|]. simpl. by rewrite He.
  - rewrite filter_cons_False; [done|]. simpl. by rewrite He.
Qed.

(** [trim] removes the log-class ids of the topic below the bound, and nothing else. *)
Definition trimmed (s : MemStore) (t before k : string) : Prop :=
  k <ₛ before ∧ k ∈ ids_where (in_log t) (ms_entries s).

#[export] Instance trimmed_dec s t before k : Decision (trimmed s t before k).
Proof. unfold trimmed. apply _. Defined.

Lemma trim_loop_entries before log s :
  NoDup (map fst (ms_entries s)) ->
  ms_entries (foldl (trimOne before) s log) =
    filter (fun kv => ¬ (kv.1 ∈ log ∧ kv.1 <ₛ before ∧ isLogEntry s kv.1 = true)) (ms_entries s).
Proof.
  revert s. induction log as [|k log IH]; intros s Hnd; cbn [foldl].
  - symmetry. apply filter_all. intros x _ [[]%not_elem_of_nil _].
  - unfold trimOne at 2. destruct (bool_decide _ && _) eqn:Hb.
    + apply andb_true_iff in Hb as [Hlt%bool_decide_eq_true Hlog].
      assert (∀ x, x ≠ k -> isLogEntry (removeEntry k s) x = isLogEntry s x) as Hsame.
      { intros x Hx. unfold isLogEntry. rewrite removeEntry_entries, jm_get_delete.
        by rewrite decide_False. }
      rewrite IH; rewrite removeEntry_entries; [|rewrite jm_delete_keys; by apply NoDup_filter].
      unfold jm_delete. rewrite list_filter_filter. apply list_filter_iff. intros [x e]. simpl.
      rewrite elem_of_cons. destruct (decide (x = k)) as [->|Hx]; [tauto|].
      rewrite (Hsame x Hx). tauto.
    + rewrite IH by done. apply list_filter_iff. intros [x e]. simpl. rewrite elem_of_cons.
      apply andb_false_iff in Hb. rewrite bool_decide_eq_false in Hb.
      destruct (decide (x = k)) as [->|Hx]; [|tauto].
      destruct Hb as [Hb|Hb]; [tauto|]. rewrite Hb. naive_solver.
Qed.

Lemma trim_entries s a t before :
  store_rel s a ->
  ms_entries (trim t before s) = filter (fun kv => ¬ trimmed s t before kv.1) (ms_entries s).
Proof.
  intros [Hs _]. pose proof (entries_wf_NoDup _ (sr_entries _ _ Hs)) as Hnd.
  assert (∀ k, k ∈ topicLog s t ∧ isLogEntry s k = true <-> k ∈ ids_where (in_log t) (ms_entries s))
    as Hlog by (intros k; rewrite <- (log_ids s a t Hs), list_elem_of_filter; tauto).
  unfold trim, topicLog in *. destruct (ms_topicLogs s !! t) as [log|].
  - rewrite trim_loop_entries by done. apply list_filter_iff. intros [k e]. unfold trimmed.
    rewrite <- Hlog. simpl. tauto.
  - symmetry. apply filter_all. intros [k e] _ [_ H%Hlog]. set_solver.
Qed.

(** The depth bound keeps the newest frames. *)
Lemma evictDepth_frames cfg cap t s a :
  store_rel s a -> maxDepth cfg = Finite cap -> (0 <= cap)%Z ->
  let n := length (log_frames t (ms_entries s)) in
  log_frames t (ms_entries (evictDepth cfg t n s)) =
    drop (n - Z.to_nat cap) (log_frames t (ms_entries s)).
Proof.
  intros Hs Hcap Hpos n. remember (log_frames t (ms_entries s)) as fs eqn:Hfs.
  revert s a Hs Hfs. unfold n. clear n.
  induction fs as [|f fs IH]; intros s a Hs Hfs; cbn [length evictDepth]; rewrite Hcap; cbn [exceeds].
  - destruct (_ <? _)%Z; by rewrite <- Hfs.
  - destruct (_ <? _)%Z eqn:Hlt.
    2: { apply Z.ltb_ge in Hlt. rewrite <- Hfs. by replace (_ - _) with 0 by lia. }
    apply Z.ltb_lt in Hlt. unfold oldestLog. rewrite (log_ids s a t (proj1 Hs)).
    pose proof (sr_entries _ _ (proj1 Hs)) as Hm.
    rewrite <- (log_frames_positions t _ Hm), <- Hfs. cbn [positions map head].
    assert (f ∈ log_frames t (ms_entries s)) as (k & e & Hk & -> & He)%log_frames_elem
      by (rewrite <- Hfs; set_solver).
    pose proof (ew_key _ Hm _ _ Hk) as Hid. apply jm_get_Some in Hk; [|by apply entries_wf_NoDup].
    cbn [asStoredMessage sm_sequenceID]. rewrite Hid.
    pose proof (ids_where_ascending (in_log t) _ (ew_ascending _ Hm)) as Hasc.
    rewrite <- (log_frames_positions t _ Hm), <- Hfs in Hasc. simpl in Hasc.
    apply ascending_cons_inv in Hasc as [_ Hmin].
    assert (∀ x, x ∈ ids_where (in_log t) (ms_entries s) -> k ≤ₛ x) as Hk_min.
    { intros x. rewrite <- (log_frames_positions t _ Hm), <- Hfs. simpl. rewrite Hid in Hmin |- *.
      intros [->|Hx]%elem_of_cons; auto with kumiai. }
    destruct (log_frames_remove_oldest _ _ _ _ Hm Hk He Hk_min) as (f & Hf & _).
    rewrite <- Hfs in Hf. injection Hf as _ Hf.
    destruct (removeEntry_rel s a k e Hs Hk) as [Hs' _];
      [intros _; by rewrite <- (in_log_topic _ _ He)|].
    rewrite (IH _ _ Hs'); [|by rewrite removeEntry_entries].
    replace (S (length fs) - Z.to_nat cap) with (S (length fs - Z.to_nat cap)) by lia. done.
Qed.

Lemma retentionOf_bounds cfg s t floor :
  (floor <= retentionOf cfg s t floor)%Z ∧ (defaultRetention cfg <= retentionOf cfg s t floor)%Z ∧
  ∀ d requested, (d, requested) ∈ subs_of s t -> (requested <= retentionOf cfg s t floor)%Z.
Proof.
  unfold retentionOf. fold (subs_of s t). generalize (subs_of s t) as l. intros l.
  assert (∀ r, (r <= foldl (fun r (sub : string * Z) => if (r <? sub.2)%Z then sub.2 else r) r l)%Z ∧
    ∀ d req, (d, req) ∈ l ->
      (req <= foldl (fun r (sub : string * Z) => if (r <? sub.2)%Z then sub.2 else r) r l)%Z) as H.
  { induction l as [|[d0 r0] l IH]; intros r; cbn [foldl]; [split; [lia|set_solver]|]. simpl.
    destruct (Z.ltb_spec r r0).
    - destruct (IH r0) as [? Hl]. split; [lia|]. intros d req [[= -> ->]|?]%elem_of_cons; eauto.
    - destruct (IH r) as [? Hl]. split; [lia|]. intros d req [[= -> ->]|?]%elem_of_cons; [lia|eauto]. }
  destruct (H (Z.max floor (defaultRetention cfg))) as [H1 H2]. split_and!; [lia|lia|done].
Qed.

Definition expired (cfg : StoreConfig) (s : MemStore) (now old : Z) (e : LogEntry) : Prop :=
  (le_storedAt e <= now - retentionOf cfg s (le_topicID e) old * 1000)%Z.

Lemma purgeable_expired cfg s now old retained es k :
  k ∈ purgeable cfg s now old retained es -> ∃ e, (k, e) ∈ es ∧ expired cfg s now old e.
Proof.
  revert retained. induction es as [|[i e] es IH]; intros retained; cbn [purgeable]; [set_solver|].
  assert (∀ r, k ∈ purgeable cfg s now old r es ->
    ∃ e', (k, e') ∈ (i, e) :: es ∧ expired cfg s now old e') as H.
  { intros r (e' & ? & ?)%IH. exists e'. split; [set_solver|done]. }
  destruct (_ && _); [by apply H|]. destruct (Z.leb_spec (le_storedAt e)
    (now - retentionOf cfg s (le_topicID e) old * 1000)) as [Hle|]; [|destruct (bool_decide _); by apply H].
  intros [->|?]%elem_of_cons; [|by eapply H]. exists e. split; [set_solver|exact Hle].
Qed.

Lemma purgeable_mailbox cfg s now old retained es k e :
  (k, e) ∈ es -> le_retain e = Mailbox -> expired cfg s now old e ->
  k ∈ purgeable cfg s now old retained es.
Proof.
  intros Hin Hret Hexp. revert retained. induction es as [|[i e0] es IH]; intros retained; [set_solver|].
  cbn [purgeable]. apply elem_of_cons in Hin as [[= <- <-]|Hin].
  - rewrite Hret. rewrite bool_decide_false by done. simpl. unfold expired in Hexp.
    apply Z.leb_le in Hexp. rewrite Hexp. set_solver.
  - specialize (IH Hin). destruct (_ && _); [done|]. destruct (_ <=? _)%Z; [set_solver|].
    by destruct (bool_decide _).
Qed.

(** ** Properties *)

(** A concrete history the witnesses run on: alice and bob share topic [t]; alice's two commits and
    one mail are in. *)
Definition demo_cfg : StoreConfig := resolveOptions (mkMemoryStoreOptions None None None None None).

Definition demo_commit (publishID : string) (head : option string) : PublishParams :=
  mkPublish "alice" "t" [Byte.x01] (Some head) (Some publishID) (Some Log).

Definition demo_mail : PublishParams := mkPublish "alice" "t" [Byte.x02] None None None.

Definition demo_ops : list Op :=
  [OpSubscribe (mkSubscribe "alice" "t" None); OpSubscribe (mkSubscribe "bob" "t" None);
   OpPublish 1000 (demo_commit "p1" None); OpPublish 2000 demo_mail;
   OpPublish 3000 (demo_commit "p2" (Some "000000000001"))].

Definition demo : MemStore := run demo_cfg demo_ops createMemoryStore.

Lemma run_steps cfg ops s :
  (∀ n, (n <= length ops)%nat -> (ms_counter (run cfg (take n ops) s) < SEQUENCE_LIMIT)%N) ->
  rtc (store_step cfg) s (run cfg ops s).
Proof.
  revert s. induction ops as [|op ops IH]; intros s H; [done|].
  eapply rtc_l; [exists op; split; [done|]; exact (H 1%nat ltac:(simpl; lia))|].
  apply IH. intros n Hn. exact (H (S n) ltac:(simpl; lia)).
Qed.

Lemma demo_reachable : reachable demo_cfg demo.
Proof.
  apply run_steps. intros n Hn. do 6 (destruct n as [|n]; [by vm_compute|]). simpl in Hn. lia.
Qed.

(** C1. The store implements the log contract: in every reachable state each topic has an abstract
    log that [fetchTopic] answers from (pages, head, oldest and gap), for subscribers and only them,
    and any later calls move that log only by accepting a frame past its last position or by removing
    its oldest frames. *)
Theorem store_refines_log_contract cfg s s' :
  reachable cfg s -> rtc (store_step cfg) s s' ->
  let answers s (a : topic_logs) := ∀ params,
    fetchTopic params s =
      if isSubscribed s (ft_topicID params) (ft_subscriberDID params)
      then Ok (tl_fetch (ft_after params) (ft_limit params) (a (ft_topicID params)))
      else Err NotSubscribedError in
  ∃ a a' : topic_logs,
    (∀ t, tl_wf (a t) ∧ tl_steps tl_empty (a t) ∧ tl_steps (a t) (a' t)) ∧
    answers s a ∧ answers s' a'.
Proof.
  intros (a & Ha & Hs)%reachable_rel Hsteps answers.
  destruct (steps_rel _ _ _ _ Hs Hsteps) as (a' & Ha' & Hs'). exists a, a'. split_and!.
  - intros t. split_and!; [|apply Ha|apply Ha']. apply Hs.
  - intros params. by apply fetchTopic_rel.
  - intros params. by apply fetchTopic_rel.
Qed.

Lemma store_refines_log_contract_witness :
  reachable demo_cfg demo ∧
  ∃ a a' : topic_logs,
    (∀ t, tl_wf (a t) ∧ tl_steps tl_empty (a t) ∧ tl_steps (a t) (a' t)) ∧
    fetchTopic (mkFetchTopic "bob" "t" None None) demo = Ok (tl_fetch None None (a "t")).
Proof.
  split; [exact demo_reachable|].
  destruct (store_refines_log_contract demo_cfg demo demo demo_reachable (rtc_refl _ _))
    as (a & a' & H & Hs & _).
  exists a, a'. split; [exact H|]. exact (Hs (mkFetchTopic "bob" "t" None None)).
Defined.

(** C2. No silent loss: once a log publish is acknowledged, a subscriber reading from any earlier
    cursor after any further calls is handed that very frame, or is told there is a gap. *)
Theorem accepted_frame_served_or_gap cfg s now params s1 q s2 did after r :
  reachable cfg s -> (ms_counter s + 1 < SEQUENCE_LIMIT)%N ->
  publish cfg now params s = (s1, Ok (mkPublishResult q false)) -> pp_retain params = Some Log ->
  rtc (store_step cfg) s1 s2 ->
  fetchTopic (mkFetchTopic did (pp_topicID params) after None) s2 = Ok r ->
  (∀ c, after = Some c -> c <ₛ q) ->
  fr_gap r = true ∨
  mkStoredMessage q (pp_senderDID params) (pp_topicID params) (pp_payload params) (Some q)
    ∈ fr_messages r.
Proof.
  intros (a & _ & Hs)%reachable_rel Hc Hpub Hret Hsteps Hfetch Hafter.
  destruct (publish_appends _ _ _ _ _ _ _ Hc Hs Hpub Hret) as (_ & a1 & Hs1 & Happ).
  destruct (steps_rel _ _ _ _ Hs1 Hsteps) as (a2 & Ha2 & Hs2).
  rewrite (fetchTopic_rel _ _ _ Hs2) in Hfetch. destruct (isSubscribed _ _ _); [|done].
  injection Hfetch as <-. simpl. apply tl_served_or_gap; [|done].
  assert (tl_history (tl_append _ (a (pp_topicID params))) `prefix_of` tl_history (a2 (pp_topicID params)))
    as [suffix ->] by (apply tl_steps_history; etrans; [exact Happ|apply Ha2]).
  simpl. set_solver.
Qed.

Definition demo3 : MemStore := run demo_cfg (take 2 demo_ops) createMemoryStore.

Lemma demo3_reachable : reachable demo_cfg demo3.
Proof.
  apply run_steps. intros n Hn. do 3 (destruct n as [|n]; [by vm_compute|]). simpl in Hn. lia.
Qed.

Lemma accepted_frame_served_or_gap_witness :
  let s1 := (publish demo_cfg 1000 (demo_commit "p1" None) demo3).1 in
  ∃ r, fetchTopic (mkFetchTopic "bob" "t" None None) s1 = Ok r ∧
    (fr_gap r = true ∨
     mkStoredMessage "000000000001" "alice" "t" [Byte.x01] (Some "000000000001") ∈ fr_messages r).
Proof.
  intros s1. eexists. split; [vm_compute; reflexivity|].
  apply (accepted_frame_served_or_gap demo_cfg demo3 1000 (demo_commit "p1" None) s1 "000000000001" s1
           "bob" None).
  - exact demo3_reachable.
  - by vm_compute.
  - by vm_compute.
  - done.
  - apply rtc_refl.
  - by vm_compute.
  - done.
Defined.

(** [publish] on every branch: a known publish id is answered with the position it was accepted at
    and changes nothing; else a head that is not the expected one is refused and changes nothing; else
    the next position is consumed and recorded, the topic's head moves to it exactly for a log frame,
    and every other head, record, subscription and key package is as before. *)
Theorem publish_spec cfg now params s :
  match acceptedAs (pp_publishID params) s with
  | Some q => publish cfg now params s = (s, Ok (mkPublishResult q true))
  | None =>
    if casFails params s then publish cfg now params s = (s, Err HeadMismatchError)
    else
      let s' := (publish cfg now params s).1 in
      (publish cfg now params s).2 = Ok (mkPublishResult (nextID s) false) ∧
      ms_counter s' = (ms_counter s + 1)%N ∧
      (∀ t, ms_heads s' !! t =
        if decide (pp_retain params = Some Log ∧ t = pp_topicID params) then Some (nextID s)
        else ms_heads s !! t) ∧
      (∀ id, ms_publishRecords s' !! id =
        if decide (pp_publishID params = Some id) then Some (nextID s)
        else ms_publishRecords s !! id) ∧
      ms_subscriptions s' = ms_subscriptions s ∧ ms_keyPackages s' = ms_keyPackages s
  end.
Proof.
  destruct (acceptedAs (pp_publishID params) s) eqn:Hacc; [unfold publish; by rewrite Hacc|].
  destruct (casFails params s) eqn:Hcas.
  { unfold publish. rewrite Hacc. fold (casFails params s). by rewrite Hcas. }
  intros s'. destruct (publish_rest cfg now params s Hacc Hcas) as [Hrest Hres].
  fold s' in Hrest. unfold rest_of in Hrest.
  injection Hrest as Hc Hh Hp Hsub Hby Hkp Hlr.
  rewrite Hc, Hh, Hp, Hsub, Hkp. split_and!; try done.
  - intros t. case_decide as Ht.
    + destruct Ht as [-> ->]. simpl. by rewrite lookup_insert_eq.
    + destruct (pp_retain params) as [[]|]; [|done..]. simpl.
      rewrite lookup_insert_ne; [done|]. intros <-. by apply Ht.
  - intros id. destruct (pp_publishID params) as [id'|]; case_decide; simplify_eq; try done.
    + by rewrite lookup_insert_eq.
    + rewrite lookup_insert_ne; [done|]. congruence.
Qed.

(** Replay is idempotent: after a publish with an id was accepted, however many calls later (its
    frame trimmed, its expected head stale), publishing that id again answers the same position,
    reports it deduplicated and changes nothing. *)
Theorem publish_replay cfg now params s s1 q s2 now' params' :
  publish cfg now params s = (s1, Ok q) ->
  pp_publishID params ≠ None -> pp_publishID params' = pp_publishID params ->
  rtc (store_step cfg) s1 s2 ->
  publish cfg now' params' s2 = (s2, Ok (mkPublishResult (pr_sequenceID q) true)).
Proof.
  intros Hpub Hid Hid' Hsteps. destruct (pp_publishID params) as [id|] eqn:Heq; [clear Hid|done].
  assert (ms_publishRecords s1 !! id = Some (pr_sequenceID q)) as Hrec.
  { destruct (acceptedAs (pp_publishID params) s) eqn:Hacc.
    - unfold publish in Hpub. rewrite Hacc in Hpub. injection Hpub as <- <-. by rewrite Heq in Hacc.
    - destruct (casFails params s) eqn:Hcas.
      { unfold publish in Hpub. rewrite Hacc in Hpub. fold (casFails params s) in Hpub.
        by rewrite Hcas in Hpub. }
      destruct (publish_rest cfg now params s Hacc Hcas) as [Hrest Hres]. rewrite Hpub in Hrest, Hres.
      cbn [fst snd] in Hrest, Hres.
      injection Hres as ->. rewrite (rest_records _ _ Hrest). simpl. by rewrite Heq, lookup_insert_eq. }
  unfold publish. rewrite Hid'. simpl. by rewrite (steps_records _ _ _ _ _ Hsteps Hrec).
Qed.

Lemma publish_replay_witness :
  let s1 := (publish demo_cfg 1000 (demo_commit "p1" None) demo3).1 in
  publish demo_cfg 9000 (demo_commit "p1" None) (exec demo_cfg (OpTrim "t" "000000000009") s1)
  = (exec demo_cfg (OpTrim "t" "000000000009") s1, Ok (mkPublishResult "000000000001" true)).
Proof.
  intros s1. apply (publish_replay demo_cfg 1000 (demo_commit "p1" None) demo3 s1
    (mkPublishResult "000000000001" false)).
  - by vm_compute.
  - done.
  - done.
  - apply rtc_once. exists (OpTrim "t" "000000000009"). split; [done|]. by vm_compute.
Defined.

(** A head is won once: when a log publish against an expected head was accepted, no later publish
    against the same head of that topic is, whatever happened in between; it is refused and the store
    is left as it was. *)
Lemma cas_won_once cfg now params h s s1 q s2 now' params' :
  reachable cfg s -> (ms_counter s + 1 < SEQUENCE_LIMIT)%N ->
  publish cfg now params s = (s1, Ok (mkPublishResult q false)) -> pp_retain params = Some Log ->
  pp_expectedHead params = Some h ->
  rtc (store_step cfg) s1 s2 ->
  pp_topicID params' = pp_topicID params -> pp_expectedHead params' = Some h ->
  acceptedAs (pp_publishID params') s2 = None ->
  publish cfg now' params' s2 = (s2, Err HeadMismatchError).
Proof.
  intros (a & _ & Hs)%reachable_rel Hc Hpub Hret Hh Hsteps Ht Hh' Hacc'.
  set (t := pp_topicID params) in *.
  destruct (publish_appends _ _ _ _ _ _ _ Hc Hs Hpub Hret) as (Hq & a1 & Hs1 & Happ).
  destruct (steps_rel _ _ _ _ Hs1 Hsteps) as (a2 & Ha2 & Hs2). fold t in Happ.
  assert (ms_heads s !! t = h) as Hhead.
  { unfold publish in Hpub. destruct (acceptedAs _ _); [done|]. rewrite Hh in Hpub.
    by case_bool_decide. }
  destruct (sr_logs _ _ (proj1 Hs) t) as [Hwf _ Hhd _ Hbd].
  set (f := mkStoredMessage _ _ _ _ _) in Happ.
  assert (∀ x, x ∈ positions (tl_history (a t)) -> x <ₛ q) as Hnew.
  { intros x Hx. rewrite Hq. by apply next_past, Hbd. }
  assert (tl_wf (tl_append f (a t))) as Hwf'.
  { eapply tl_step_wf; [|done]. constructor; [|done]. intros m Hm.
    apply Hnew, elem_of_positions. eauto. }
  destruct (tl_steps_head (tl_append f (a t)) (a2 t) q Hwf') as (h2 & Hh2 & Hle).
  { etrans; [exact Happ|apply Ha2]. }
  { simpl. rewrite positions_app. set_solver. }
  unfold publish. rewrite Hacc', Hh', Ht.
  rewrite (lr_head _ _ _ (sr_logs _ _ (proj1 Hs2) t)), Hh2, bool_decide_true; [done|].
  intros <-. rewrite Hhd in Hhead. apply last_positions_elem, Hnew in Hhead.
  eapply slt_irrefl. by eapply slt_sle_trans.
Qed.

Lemma cas_won_once_witness :
  let s1 := (publish demo_cfg 1000 (demo_commit "p1" None) demo3).1 in
  publish demo_cfg 1500 (demo_commit "p3" None) s1 = (s1, Err HeadMismatchError).
Proof.
  intros s1. apply (cas_won_once demo_cfg 1000 (demo_commit "p1" None) None demo3 s1 "000000000001").
  - exact demo3_reachable.
  - by vm_compute.
  - by vm_compute.
  - done.
  - done.
  - apply rtc_refl.
  - done.
  - done.
  - by vm_compute.
Defined.

(** An ack is its recipient's own: it removes exactly the named ids from that recipient's queue,
    leaves what every other recipient and every reader of a log is served, and frees a mailbox frame
    exactly when no recipient is left waiting for it. *)
Lemma ack_isolated cfg s d ids :
  reachable cfg s ->
  let s' := ack d ids s in
  pending s' d = filter (fun k => k ∉ ids) (pending s d) ∧
  (∀ p, fp_recipientDID p ≠ d -> fp_ack p = None -> (fetch p s').2 = (fetch p s).2) ∧
  (∀ p, fetchTopic p s' = fetchTopic p s) ∧
  (∀ k e, jm_get k (ms_entries s) = Some e -> le_retain e = Mailbox ->
    jm_has k (ms_entries s') = true <-> ∃ d', d' ∈ le_pendingFor e ∧ ¬ (d' = d ∧ k ∈ ids)).
Proof.
  intros (a & _ & Hs)%reachable_rel s'. pose proof (ack_rel s a d ids Hs) as Hs'. fold s' in Hs'.
  assert (∀ x, pending s' x = if decide (x = d) then filter (fun k => k ∉ ids) (pending s x)
    else pending s x) as Hpend by (intros; by eapply pending_ack).
  split_and!.
  - by rewrite Hpend, decide_True.
  - intros p Hp Hack. rewrite (fetch_unacked s' a), (fetch_unacked s a) by done. cbn [snd].
    assert (available s' p = available s p) as Hav
      by (unfold available; by rewrite Hpend, decide_False).
    rewrite Hav. f_equal.
    assert (∀ l, l ⊆ pending s (fp_recipientDID p) -> messagesOf s' l = messagesOf s l) as H.
    { induction l as [|k l IH]; intros Hl; [done|]. unfold messagesOf in *. simpl.
      assert (k ∈ pending s' (fp_recipientDID p)) as Hk
        by (rewrite Hpend, decide_False by done; set_solver).
      apply (pending_entry _ _ _ _ Hs') in Hk as (e' & Hk & _). rewrite Hk.
      apply ack_get in Hk as (e & -> & Heq & _). simpl. rewrite Heq. f_equal. apply IH. set_solver. }
    apply H. etrans; [apply subseteq_take|]. unfold available. destruct (fp_after p); [|done].
    intros k [_ ?]%list_elem_of_filter. done.
  - intros p. rewrite (fetchTopic_rel _ _ _ Hs), (fetchTopic_rel _ _ _ Hs').
    pose proof (ack_rest d ids s) as Hrest. fold s' in Hrest. injection Hrest as _ _ _ Hsub _ _ _.
    unfold isSubscribed. by rewrite Hsub.
  - intros k e Hk Hret.
    assert (∀ d', k ∈ pending s' d' <-> d' ∈ le_pendingFor e ∧ ¬ (d' = d ∧ k ∈ ids)) as Hiff.
    { intros d'. rewrite Hpend. assert (k ∈ pending s d' <-> d' ∈ le_pendingFor e) as <-.
      { rewrite (pending_entry _ _ _ _ Hs). split; [intros (e0 & He0 & ?)|by eauto].
        by replace e with e0 by congruence. }
      case_decide; rewrite ?list_elem_of_filter; intuition. }
    unfold jm_has. destruct (jm_get k (ms_entries s')) as [e'|] eqn:Hk'; (split; [|try done]).
    + intros _. pose proof (ack_get _ _ _ _ _ Hk') as (e0 & Hk0 & _ & Hr). simplify_eq.
      destruct (le_pendingFor e') as [|d' ds] eqn:Hds.
      { exfalso. eapply (proj2 Hs'); [by apply jm_get_elem|congruence|done]. }
      exists d'. apply Hiff, (pending_entry _ _ _ _ Hs'). exists e'. split; [done|]. rewrite Hds. by apply list_elem_of_here.
    + done.
    + intros (d' & Hd'). apply Hiff, (pending_entry _ _ _ _ Hs') in Hd' as (? & ? & _).
      congruence.
Qed.

Lemma ack_isolated_witness :
  let s' := ack "bob" ["000000000002"] demo in
  reachable demo_cfg demo ∧ pending demo "bob" = ["000000000001"; "000000000002"; "000000000003"] ∧
  pending s' "bob" = ["000000000001"; "000000000003"] ∧ jm_has "000000000002" (ms_entries s') = false.
Proof.
  intros s'. destruct (ack_isolated demo_cfg demo "bob" ["000000000002"] demo_reachable)
    as (H1 & _ & _ & _).
  split; [exact demo_reachable|]. split; [by vm_compute|]. split; [|by vm_compute].
  etrans; [exact H1|]. by vm_compute.
Defined.

(** A drain is complete: a page served without acks changes nothing, its messages sit at the next
    positions of the recipient's queue past the cursor, [hasMore] is whether the queue goes on, and
    fetching again from the returned cursor continues exactly where the page stopped. *)
Lemma fetch_pages_resume cfg s did after n :
  reachable cfg s ->
  let ids := available s (mkFetch did after None None) in
  let r1 := (fetch (mkFetch did after (Some n) None) s).2 in
  (fetch (mkFetch did after (Some n) None) s).1 = s ∧ positions (fe_messages r1) = take n ids ∧ fe_cursor r1 = last (take n ids) ∧
  fe_hasMore r1 = bool_decide (n < length ids)%nat ∧
  (∀ c, fe_cursor r1 = Some c ->
    let r2 := (fetch (mkFetch did (Some c) None None) s).2 in
    positions (fe_messages r1) ++ positions (fe_messages r2) = ids ∧ fe_hasMore r2 = false).
Proof.
  intros (a & _ & Hs)%reachable_rel ids.
  assert (∀ af (l : list string), l ⊆ available s (mkFetch did af None None) ->
    positions (messagesOf s l) = l) as Hpos.
  { intros af l Hl. apply (messagesOf_positions s a did); [done|]. etrans; [exact Hl|].
    unfold available. simpl. destruct af; [|done]. intros k [_ ?]%list_elem_of_filter. done. }
  rewrite (fetch_unacked s a) by done. cbn zeta. change (available s _) with ids. simpl default.
  cbn [fst snd fe_messages fe_cursor fe_hasMore]. split_and!; try done.
  - apply (Hpos after), subseteq_take.
  - apply eq_true_iff_eq. rewrite bool_decide_eq_true. apply Nat.ltb_lt.
  - intros c Hc. rewrite (fetch_unacked s a) by done. simpl.
    set (ids2 := available s (mkFetch did (Some c) None None)).
    assert (ids2 = drop n ids) as Hids2.
    { apply last_Some in Hc as (l & Hl).
      assert (ids = l ++ c :: drop n ids) as Hsplit.
      { rewrite <- (take_drop n ids) at 1. by rewrite Hl, <- app_assoc. }
      assert (ascending ids) as Hasc.
      { unfold ids, available. simpl. pose proof (pending_ascending s a did Hs).
        destruct after; [by apply ascending_filter|done]. }
      rewrite Hsplit in Hasc. pose proof (ascending_filter_above _ _ _ Hasc) as Hf.
      rewrite <- Hsplit in Hf. rewrite <- Hf. unfold ids2, ids, available. simpl.
      destruct after as [b|]; [|done]. rewrite list_filter_filter. apply list_filter_iff.
      intros x. split; [|by intros []]. intros Hx. split; [done|].
      assert (c ∈ ids) as Hcin by (rewrite Hsplit; set_solver). unfold ids, available in Hcin.
      simpl in Hcin. apply list_elem_of_filter in Hcin as [Hb _]. by etrans. }
    rewrite (Hpos after), (Hpos (Some c)), firstn_all, Hids2.
    + split; [by rewrite take_drop|]. apply Nat.ltb_irrefl.
    + apply subseteq_take.
    + apply subseteq_take.
Qed.

Lemma fetch_pages_resume_witness :
  let r1 := (fetch (mkFetch "bob" None (Some 2%nat) None) demo).2 in
  positions (fe_messages r1) ++
    positions (fe_messages (fetch (mkFetch "bob" (Some "000000000002") None None) demo).2)
  = ["000000000001"; "000000000002"; "000000000003"].
Proof.
  intros r1. destruct (fetch_pages_resume demo_cfg demo "bob" None 2 demo_reachable)
    as (_ & _ & _ & _ & H).
  destruct (H "000000000002") as [H1 _]; [by vm_compute|]. etrans; [exact H1|]. by vm_compute.
Defined.

(** ** Key packages *)

Definition pool (now : Z) (s : MemStore) (did : string) : list string :=
  map skp_keyPackage (filter (fun e => isLive e (seconds now) = true)
                        (default [] (ms_keyPackages s !! did))).

Lemma shiftLive_spec t n l :
  let '(served, kept) := shiftLive t n l in
  let live := map skp_keyPackage (filter (fun e => isLive e t = true) l) in
  served = take n live ∧
  map skp_keyPackage (filter (fun e => isLive e t = true) kept) = drop n live.
Proof.
  revert n. induction l as [|e l IH]; intros n; simpl; [by destruct n|].
  destruct n as [|n]; [done|]. rewrite filter_cons. destruct (isLive e t) eqn:He.
  - specialize (IH n). destruct (shiftLive t n l) as [served kept]. rewrite decide_True by done.
    destruct IH as [-> IH]. done.
  - specialize (IH (S n)). destruct (shiftLive t (S n) l) as [served kept].
    rewrite decide_False by done. done.
Qed.

(** The key package pool is a queue: a fetch serves the oldest unexpired packages, at most the
    number asked for, leaves exactly the others (so none is served twice and no expired one ever), and
    touches no other owner's; an upload under the cap joins the end of the unexpired ones, and one over
    it is refused and adds nothing. *)
Lemma keypackage_pool_fifo cfg now did s :
  (∀ count, let n := default 1%nat count in
    let '(s', served) := fetchKeyPackages now did count s in
    served = take n (pool now s did) ∧ pool now s' did = drop n (pool now s did) ∧
    countKeyPackages now did s' = (length (pool now s did) - n)%nat ∧
    ∀ other, other ≠ did -> ms_keyPackages s' !! other = ms_keyPackages s !! other) ∧
  (∀ kp notAfter, let '(s', r) := storeKeyPackage cfg now (mkStoreKeyPackage did kp notAfter) s in
    if reaches (Z.of_nat (length (pool now s did))) (maxKeyPackagesPerDID cfg)
    then r = Err KeyPackageQuotaExceededError ∧ pool now s' did = pool now s did
    else r = Ok tt ∧ pool now s' did =
      pool now s did ++ (if isLive (mkStoredKeyPackage kp notAfter) (seconds now) then [kp] else [])).
Proof.
  split.
  - intros count n. unfold fetchKeyPackages, countKeyPackages, pool.
    destruct (ms_keyPackages s !! did) as [l|] eqn:Hl.
    + pose proof (shiftLive_spec (seconds now) n l) as Hspec. fold n.
      destruct (shiftLive (seconds now) n l) as [served kept]. destruct Hspec as [-> Hkept].
      simpl. rewrite lookup_insert_eq. simpl. split_and!; [done|exact Hkept| |].
      * apply (f_equal length) in Hkept. by rewrite length_map, length_drop in Hkept.
      * intros other Hne. by rewrite lookup_insert_ne.
    + simpl. rewrite Hl. by destruct n.
  - intros kp notAfter. unfold storeKeyPackage, pool. cbn [kp_ownerDID kp_keyPackage kp_notAfter].
    rewrite length_map. set (live := filter _ _).
    assert (filter (fun e => isLive e (seconds now) = true) live = live) as Hlive.
    { apply filter_all. by intros x [? _]%list_elem_of_filter. }
    destruct (reaches _ _); simpl; rewrite lookup_insert_eq; simpl; (split; [done|]).
    + by rewrite Hlive.
    + rewrite filter_app, map_app, Hlive, filter_cons. by destruct (isLive _ _).
Qed.

(** The pool of one owner never grows past the cap, expired packages included. *)
Theorem keypackage_quota cfg cap s did :
  reachable cfg s -> maxKeyPackagesPerDID cfg = Finite cap -> (0 <= cap)%Z ->
  (Z.of_nat (length (default [] (ms_keyPackages s !! did))) <= cap)%Z.
Proof.
  intros Hreach Hcap Hpos. unfold reachable in Hreach. revert did.
  assert (∀ s s' did, store_step cfg s s' ->
    (∀ did, (Z.of_nat (length (default [] (ms_keyPackages s !! did))) <= cap)%Z) ->
    (Z.of_nat (length (default [] (ms_keyPackages s' !! did))) <= cap)%Z) as Hstep.
  2: { remember createMemoryStore as s0 eqn:H0.
       assert (∀ did, (Z.of_nat (length (default [] (ms_keyPackages s0 !! did))) <= cap)%Z) as Hs0
         by (subst; done).
       clear H0. induction Hreach; eauto. }
  clear s Hreach. intros s s' did (op & -> & _) IH.
  assert (∀ s1 s2, rest_of s1 = rest_of s2 -> ms_keyPackages s1 = ms_keyPackages s2) as Hrest
    by (by intros s1 s2 [=]).
  assert (∀ k l, (Z.of_nat (length l) <= cap)%Z ->
    (Z.of_nat (length (default [] (<[k:=l]> (ms_keyPackages s) !! did))) <= cap)%Z) as Hins.
  { intros k l Hl. destruct (decide (k = did)) as [<-|];
      [by rewrite lookup_insert_eq|by rewrite lookup_insert_ne]. }
  destruct op as [now p|p|d ids|t before|now old|p|d t|now p|now d n|d kp]; cbn [exec].
  - destruct (acceptedAs (pp_publishID p) s) eqn:Hacc; [unfold publish; by rewrite Hacc|].
    destruct (casFails p s) eqn:Hcas; [unfold publish; rewrite Hacc; unfold casFails in Hcas; by rewrite Hcas|].
    destruct (publish_rest cfg now p s Hacc Hcas) as [Hr _]. by rewrite (Hrest _ _ Hr).
  - unfold fetch. destruct (fp_ack p); [|done]. simpl. by rewrite (Hrest _ _ (ack_rest _ _ _)).
  - by rewrite (Hrest _ _ (ack_rest _ _ _)).
  - by rewrite (Hrest _ _ (trim_rest _ _ _)).
  - by rewrite (Hrest _ _ (purge_rest _ _ _ _)).
  - unfold subscribe. by repeat case_match.
  - by rewrite (Hrest _ _ (unsubscribe_rest _ _ _)).
  - unfold storeKeyPackage. set (l := default [] (ms_keyPackages s !! kp_ownerDID p)).
    set (P := fun e => isLive e (seconds now) = true). pose proof (length_filter P l) as Hlen.
    specialize (IH (kp_ownerDID p)). fold l in IH. rewrite Hcap. simpl reaches.
    destruct (_ <=? _)%Z eqn:Hle; simpl; apply Hins; [lia|]. apply Z.leb_gt in Hle.
    rewrite length_app. simpl. lia.
  - unfold fetchKeyPackages. destruct (ms_keyPackages s !! d) as [l|] eqn:Hl; [|done].
    assert (∀ t n l, (length (shiftLive t n l).2 <= length l)%nat) as Hkept.
    { intros t m l'. revert m. induction l' as [|e l' IHl]; intros m; simpl; [done|].
      destruct m as [|m]; simpl; [done|]. destruct (isLive e t).
      - specialize (IHl m). destruct (shiftLive t m l'); simpl in *. lia.
      - specialize (IHl (S m)). lia. }
    specialize (Hkept (seconds now) (default 1%nat n) l).
    destruct (shiftLive _ _ _) as [served kept]. simpl in *. apply Hins.
    specialize (IH d). rewrite Hl in IH. simpl in IH. lia.
  - done.
Qed.

Lemma keypackage_quota_witness :
  let cfg := resolveOptions (mkMemoryStoreOptions None None None (Some (Finite 1)) None) in
  let up kp := OpStoreKeyPackage 0 (mkStoreKeyPackage "alice" kp None) in
  let s := run cfg [up "kp1"; up "kp2"] createMemoryStore in
  (Z.of_nat (length (default [] (ms_keyPackages s !! "alice"))) <= 1)%Z ∧
  default [] (ms_keyPackages s !! "alice") = [mkStoredKeyPackage "kp1" None].
Proof.
  intros cfg up s. split; [|by vm_compute]. apply (keypackage_quota cfg 1 s "alice"); [|done|lia].
  apply run_steps. intros n Hn. do 3 (destruct n as [|n]; [by vm_compute|]). simpl in Hn. lia.
Defined.

(** Subscriptions: in every reachable state the two indices agree, a subscribe is refused exactly
    for a retention above the ceiling or for a new topic at the quota (and then changes nothing), an
    accepted one makes the DID a subscriber, an unsubscribe makes it not one and leaves it no pending
    frame of that topic, and neither changes another DID's subscriptions. *)
Lemma subscription_lifecycle cfg s did t retention :
  reachable cfg s ->
  let requested := default (defaultRetention cfg) retention in
  let over := exceeds requested (maxRetention cfg) in
  let full := negb (isSubscribed s t did) &&
              reaches (Z.of_nat (size (heldTopics s did))) (maxSubscriptionsPerDID cfg) in
  let s' := (subscribe cfg (mkSubscribe did t retention) s).1 in
  let r := (subscribe cfg (mkSubscribe did t retention) s).2 in
  let s'' := unsubscribe did t s in
  (∀ t d, isSubscribed s t d = true <-> t ∈ heldTopics s d) ∧
  (if over then r = Err RetentionExceededError ∧ s' = s
   else if full then r = Err SubscriptionQuotaExceededError ∧ s' = s
   else r = Ok tt ∧ isSubscribed s' t did = true) ∧
  isSubscribed s'' t did = false ∧
  (∀ k, k ∈ pending s'' did -> ∃ e, jm_get k (ms_entries s'') = Some e ∧ le_topicID e ≠ t) ∧
  (∀ t' d', (t', d') ≠ (t, did) ->
    isSubscribed s' t' d' = isSubscribed s t' d' ∧ isSubscribed s'' t' d' = isSubscribed s t' d').
Proof.
  intros (a & _ & Hs)%reachable_rel requested over full s' r s''.
  assert (∀ t d, isSubscribed s t d = true <-> t ∈ heldTopics s d) as Hlock by apply Hs.
  assert (bool_decide (t ∈ heldTopics s did) = isSubscribed s t did) as Hheld.
  { apply eq_true_iff_eq. by rewrite bool_decide_eq_true, Hlock. }
  assert (subscribe cfg (mkSubscribe did t retention) s =
    if over then (s, Err RetentionExceededError)
    else if full then (s, Err SubscriptionQuotaExceededError)
    else (setSubscriptions (<[t := jm_set did requested (subs_of s t)]> (ms_subscriptions s))
            (<[did := {[t]} ∪ heldTopics s did]> (ms_subsByDID s)) s, Ok tt)) as Hsub.
  { unfold subscribe. cbn [sp_subscriberDID sp_topicID sp_retention]. by rewrite Hheld. }
  split_and!; [done| | | |].
  - unfold s', r. rewrite Hsub. destruct over; [done|]. destruct full; [done|]. split; [done|].
    cbn [fst]. rewrite isSubscribed_subscribe. by rewrite bool_decide_true.
  - unfold s''. rewrite isSubscribed_unsubscribe. by rewrite bool_decide_true.
  - intros k. by apply (unsubscribe_pending _ _ _ a).
  - intros t' d' Hne. assert (bool_decide (t' = t ∧ d' = did) = false) as Hother.
    { apply bool_decide_false. intros [-> ->]. done. }
    unfold s', s''. rewrite isSubscribed_unsubscribe, Hother, Hsub. split; [|done].
    destruct over; [done|]. destruct full; [done|]. cbn [fst].
    by rewrite isSubscribed_subscribe, Hother.
Qed.

Lemma subscription_lifecycle_witness :
  reachable demo_cfg demo ∧ isSubscribed demo "t" "bob" = true ∧
  isSubscribed (unsubscribe "bob" "t" demo) "t" "bob" = false.
Proof.
  split; [exact demo_reachable|]. split; [by vm_compute|].
  destruct (subscription_lifecycle demo_cfg demo "bob" "t" None demo_reachable) as (_ & _ & H & _).
  exact H.
Defined.

(** A purge honours retention: it removes exactly the ids it reports, reports only frames older
    than the longest retention any current subscriber of their topic asked for (and than the caller's
    and the hub's floors), and takes every mailbox frame that is that old. *)
Lemma purge_honours_retention cfg now old s :
  reachable cfg s ->
  let s' := (purge cfg now old s).1 in
  let purged := (purge cfg now old s).2 in
  (∀ k, jm_get k (ms_entries s') = if decide (k ∈ purged) then None else jm_get k (ms_entries s)) ∧
  (∀ k, k ∈ purged -> ∃ e, jm_get k (ms_entries s) = Some e ∧
    (le_storedAt e + old * 1000 <= now)%Z ∧
    (le_storedAt e + defaultRetention cfg * 1000 <= now)%Z ∧
    ∀ d requested, (d, requested) ∈ subs_of s (le_topicID e) ->
      (le_storedAt e + requested * 1000 <= now)%Z) ∧
  (∀ k e, jm_get k (ms_entries s) = Some e -> le_retain e = Mailbox -> expired cfg s now old e ->
    k ∈ purged).
Proof.
  intros (a & _ & Hs)%reachable_rel s' purged.
  pose proof (entries_wf_NoDup _ (sr_entries _ _ (proj1 Hs))) as Hnd. split_and!.
  - intros k. unfold s', purge. cbn [fst]. rewrite removeAll_entries. fold (purge cfg now old s).
    change (purgeable _ _ _ _ _ _) with purged. generalize purged as ids. intros ids.
    induction (ms_entries s) as [|[x e] m IH]; simpl in *; [by case_decide|].
    apply NoDup_cons in Hnd as [Hx Hnd]. rewrite filter_cons; simpl.
    destruct (decide (x ∉ ids)) as [Hx'|Hx']; simpl; rewrite IH by done;
      destruct (decide (k = x)) as [->|]; try done; repeat case_decide; try done.
  - intros k (e & Hk & Hexp)%purgeable_expired. exists e. split; [by apply jm_get_Some|].
    unfold expired in Hexp. destruct (retentionOf_bounds cfg s (le_topicID e) old) as (H1 & H2 & H3).
    split_and!; [lia|lia|]. intros d req Hreq. specialize (H3 _ _ Hreq). lia.
  - intros k e Hk Hret Hexp. eapply purgeable_mailbox; [by apply jm_get_elem|done..].
Qed.

Lemma purge_honours_retention_witness :
  reachable demo_cfg demo ∧
  jm_get "000000000001" (ms_entries (purge demo_cfg 2500 0 demo).1) = None.
Proof.
  split; [exact demo_reachable|].
  destruct (purge_honours_retention demo_cfg 2500 0 demo demo_reachable) as (H & _).
  rewrite H. by vm_compute.
Defined.

(** The log after a publish is the log before it with the frame at its end, cut to the newest
    [maxDepth] frames; its head is the frame, and every other topic reads as it did. *)
Lemma publish_read_back cfg cap s now params s1 q did r :
  reachable cfg s -> (ms_counter s + 1 < SEQUENCE_LIMIT)%N ->
  maxDepth cfg = Finite cap -> (0 <= cap)%Z ->
  publish cfg now params s = (s1, Ok (mkPublishResult q false)) -> pp_retain params = Some Log ->
  fetchTopic (mkFetchTopic did (pp_topicID params) None None) s = Ok r ->
  let frame := mkStoredMessage q (pp_senderDID params) (pp_topicID params) (pp_payload params) (Some q) in
  ∃ r1, fetchTopic (mkFetchTopic did (pp_topicID params) None None) s1 = Ok r1 ∧
    fr_messages r1 = drop (S (length (fr_messages r)) - Z.to_nat cap) (fr_messages r ++ [frame]) ∧
    fr_head r1 = Some q.
Proof.
  intros (a & _ & Hs)%reachable_rel Hc Hcap Hpos Hpub Hret Hr frame.
  set (t := pp_topicID params) in *.
  destruct (publish_appends _ _ _ _ _ _ _ Hc Hs Hpub Hret) as (Hq & a1 & Hs1 & _).
  assert (isSubscribed s1 t did = isSubscribed s t did ∧
    log_frames t (ms_entries s1) =
      drop (S (length (log_frames t (ms_entries s))) - Z.to_nat cap) (log_frames t (ms_entries s) ++ [frame])
    ∧ ms_heads s1 !! t = Some q) as (Hsub & Hfs & Hhead).
  { unfold publish in Hpub. destruct (acceptedAs _ _); [done|].
    destruct (match pp_expectedHead params with None => false | Some _ => _ end); [done|].
    rewrite Hret in Hpub. cbv zeta in Hpub. simpl default in Hpub.
    rewrite bool_decide_false in Hpub by done. simpl andb in Hpub. cbn iota in Hpub.
    set (e := mkLogEntry _ _ _ _ _ _ _) in Hpub. injection Hpub as <- Hq'.
    assert (fresh_entry s params e) as He by (split; [done..|apply recipientsOf_NoDup, Hs|done]).
    destruct (append_rel s a params e Hc Hs He) as [Hs2 _].
    change (le_retain e) with Log in Hs2. fold t.
    assert (log_frames t (ms_entries (append e (mint params Log s))) =
      log_frames t (ms_entries s) ++ [frame]) as Hfs2.
    { change (mint params Log s) with (mint params (le_retain e) s).
      rewrite (append_entries s params e); [|intros Hk|done].
      - rewrite log_frames_snoc, decide_True by done. unfold asStoredMessage, frame. simpl.
        by rewrite <- Hq'.
      - apply (sr_bound _ _ (proj1 Hs)), next_past, slt_irrefl in Hk; done. }
    assert (logDepth (append e (mint params Log s)) t =
      length (log_frames t (ms_entries (append e (mint params Log s))))) as ->.
    { unfold logDepth. rewrite (log_ids _ _ t (proj1 Hs2)).
      rewrite <- (log_frames_positions t); [apply length_map|apply Hs2]. }
    pose proof (evictDepth_frames cfg cap t _ _ Hs2 Hcap Hpos) as Hev. cbn zeta in Hev.
    rewrite Hfs2, length_app, Nat.add_1_r in Hev |- *.
    pose proof (evictDepth_rest cfg t (S (length (log_frames t (ms_entries s))))
      (append e (mint params Log s))) as Hrest.
    set (s3 := evictDepth cfg t (S _) _) in Hev, Hrest |- *. clearbody s3. injection Hrest as _ Hh _ Hsub _ _ _.
    split_and!; [unfold isSubscribed; by rewrite Hsub|done|].
    rewrite Hh. simpl. by rewrite lookup_insert_eq, <- Hq'. }
  rewrite (fetchTopic_rel _ _ _ Hs) in Hr. rewrite (fetchTopic_rel _ _ _ Hs1). simpl in *. fold t.
  rewrite Hsub. destruct (isSubscribed s t did); [|done]. injection Hr as <-. eexists. split; [done|].
  simpl. pose proof (lr_head _ _ _ (sr_logs _ _ (proj1 Hs1) t)) as Hhead1.
  fold t. split; [|by rewrite <- Hhead1].
  rewrite <- (lr_live _ _ _ (sr_logs _ _ (proj1 Hs1) t)), Hfs.
  by rewrite (lr_live _ _ _ (sr_logs _ _ (proj1 Hs) t)).
Qed.

Lemma publish_read_back_witness :
  let cfg := resolveOptions (mkMemoryStoreOptions (Some (Finite 1)) None None None None) in
  let s := run cfg demo_ops createMemoryStore in
  let s1 := (publish cfg 4000 (demo_commit "p3" (Some "000000000003")) s).1 in
  ∃ r1, fetchTopic (mkFetchTopic "bob" "t" None None) s1 = Ok r1 ∧
    fr_messages r1 = drop (2 - 1)
      [mkStoredMessage "000000000003" "alice" "t" [Byte.x01] (Some "000000000003");
       mkStoredMessage "000000000004" "alice" "t" [Byte.x01] (Some "000000000004")] ∧
    fr_head r1 = Some "000000000004".
Proof.
  intros cfg s s1.
  assert (reachable cfg s) as Hs.
  { apply run_steps. intros n Hn. do 6 (destruct n as [|n]; [by vm_compute|]). simpl in Hn. lia. }
  destruct (publish_read_back cfg 1 s 4000 (demo_commit "p3" (Some "000000000003")) s1 "000000000004" "bob"
    (mkFetchTopicResult [mkStoredMessage "000000000003" "alice" "t" [Byte.x01] (Some "000000000003")]
      (Some "000000000003") (Some "000000000003") true) Hs) as (r1 & H1 & H2 & H3);
    [by vm_compute|done|lia|by vm_compute|done|by vm_compute|].
  exists r1. split; [exact H1|]. split; [exact H2|exact H3].
Defined.

(** [trim] is exact: a subscriber then reads the log without the positions below the bound, under
    the same head; every mailbox frame, every other topic and every entry at or above the bound stays. *)
Theorem trim_exact cfg s t before :
  reachable cfg s ->
  let s' := trim t before s in
  (∀ did r, fetchTopic (mkFetchTopic did t None None) s = Ok r ->
    ∃ r', fetchTopic (mkFetchTopic did t None None) s' = Ok r' ∧
      fr_messages r' = filter (fun f => ¬ sm_sequenceID f <ₛ before) (fr_messages r) ∧
      fr_head r' = fr_head r) ∧
  (∀ k e, jm_get k (ms_entries s) = Some e ->
    le_retain e = Mailbox ∨ le_topicID e ≠ t ∨ before ≤ₛ k -> jm_get k (ms_entries s') = Some e).
Proof.
  intros (a & _ & Hs)%reachable_rel s'. pose proof (sr_entries _ _ (proj1 Hs)) as Hm.
  destruct (trim_rel s a t before Hs) as (a' & _ & Hs'). fold s' in Hs'.
  pose proof (trim_entries s a t before Hs) as Hent. fold s' in Hent.
  pose proof (trim_rest t before s) as Hrest. fold s' in Hrest. injection Hrest as _ Hh _ Hsub _ _ _.
  split.
  - intros did r Hr. rewrite (fetchTopic_rel _ _ _ Hs) in Hr. rewrite (fetchTopic_rel _ _ _ Hs').
    assert (isSubscribed s' t did = isSubscribed s t did) as Heq by (unfold isSubscribed; by rewrite Hsub).
    simpl in *. rewrite Heq. destruct (isSubscribed s t did); [|done]. injection Hr as <-.
    eexists. split; [done|]. simpl. split.
    + rewrite <- (lr_live _ _ _ (sr_logs _ _ (proj1 Hs') t)), Hent.
      etrans; [exact (log_frames_filter t (fun k => ¬ trimmed s t before k) _ Hm)|].
      rewrite (lr_live _ _ _ (sr_logs _ _ (proj1 Hs) t)).
      apply filter_ext_elem. intros f Hf. unfold trimmed.
      assert (sm_sequenceID f ∈ ids_where (in_log t) (ms_entries s)); [|tauto].
      rewrite <- log_frames_positions, (lr_live _ _ _ (sr_logs _ _ (proj1 Hs) t)) by done.
      apply elem_of_positions. eauto.
    + by rewrite <- (lr_head _ _ _ (sr_logs _ _ (proj1 Hs') t)), Hh, (lr_head _ _ _ (sr_logs _ _ (proj1 Hs) t)).
  - intros k e Hk Hor. apply jm_get_Some; [apply entries_wf_NoDup, Hs'|]. rewrite Hent.
    apply list_elem_of_filter. split; [|by apply jm_get_elem]. intros [Hlt (e' & Hin & Ht & Hr)%elem_of_ids_where].
    apply jm_get_Some in Hin; [|by apply entries_wf_NoDup]. simplify_eq. simpl in *.
    destruct Hor as [?|[?|Hle]]; [congruence|congruence|]. by apply not_slt in Hle.
Qed.

Lemma trim_exact_witness :
  reachable demo_cfg demo ∧
  jm_has "000000000002" (ms_entries (trim "t" "000000000009" demo)) = true.
Proof.
  split; [exact demo_reachable|].
  destruct (trim_exact demo_cfg demo "t" "000000000009" demo_reachable) as [_ H].
  unfold jm_has. erewrite (H "000000000002"); [done|by vm_compute|by left].
Defined.
