(* ===== verification/HubStore.v ===== *)
(** * The store interface the hub is written against

    [HubStore] of packages/hub-protocol/src/types.ts as a class of operations any of which may throw,
    the laws the request handlers rely on, and the in-memory store as an instance that satisfies them. *)

From S2P Require Import Prelude SeqID HubProtocol HubSpec MemoryStore MemoryStoreFacts MemoryStoreSpec.

(** Each operation takes the clock it reads and the store's state. *)
Class HubStore (S : Type) := {
  store_publish : Z -> PublishParams -> S -> S * result Thrown PublishResult;
  store_subscribe : Z -> SubscribeParams -> S -> S * result Thrown unit;
  store_unsubscribe : string -> string -> S -> S * result Thrown unit;
  store_fetch : FetchParams -> S -> S * result Thrown FetchResult;
  store_fetchTopic : FetchTopicParams -> S -> S * result Thrown FetchTopicResult;
  store_ack : string -> list string -> S -> S * result Thrown unit;
  store_trim : string -> string -> S -> S * result Thrown unit;
  store_purge : Z -> Z -> S -> S * result Thrown (list string);
  store_getSubscribers : string -> S -> S * result Thrown (list string);
  store_storeKeyPackage : Z -> StoreKeyPackageParams -> S -> S * result Thrown unit;
  store_fetchKeyPackages : Z -> string -> nat -> S -> S * result Thrown (list string);
  store_countKeyPackages : Z -> string -> S -> S * result Thrown nat;
  store_storeLastResort : string -> string -> S -> S * result Thrown unit;
  store_fetchLastResort : string -> S -> S * result Thrown (option string);
}.

(** What the contract's comments promise and the handlers depend on. *)
Class HubStoreLaws (S : Type) `{HubStore S} : Prop := {
  (** "Returns its original sequenceID with [deduped: true] and appends nothing." *)
  publish_deduped : ∀ now p s s' r,
    store_publish now p s = (s', Ok r) -> pr_deduped r = true -> s' = s;
  (** A refused publish stores nothing. *)
  publish_refused : ∀ now p s s' e, store_publish now p s = (s', Err e) -> s' = s;
  (** A read is a read. *)
  getSubscribers_reads : ∀ t s, (store_getSubscribers t s).1 = s;
  fetchLastResort_reads : ∀ d s, (store_fetchLastResort d s).1 = s;
  countKeyPackages_reads : ∀ now d s, (store_countKeyPackages now d s).1 = s;
  fetchTopic_reads : ∀ p s, (store_fetchTopic p s).1 = s;
  (** Never more packages than asked for. *)
  fetchKeyPackages_count : ∀ now d n s s' l,
    store_fetchKeyPackages now d n s = (s', Ok l) -> length l <= n;
}.

(** An error class of the store, thrown. *)
Definition thrown {A} (r : result HubErrorClass A) : result Thrown A :=
  match r with Ok a => Ok a | Err c => Err (HubError c "") end.

#[export] Instance memory_store (cfg : StoreConfig) : HubStore MemStore := {|
  store_publish now p s := let '(s', r) := publish cfg now p s in (s', thrown r);
  store_subscribe _ p s := let '(s', r) := subscribe cfg p s in (s', thrown r);
  store_unsubscribe did t s := (unsubscribe did t s, Ok tt);
  store_fetch p s := let '(s', r) := fetch p s in (s', Ok r);
  store_fetchTopic p s := (s, thrown (fetchTopic p s));
  store_ack did ids s := (ack did ids s, Ok tt);
  store_trim t before s := (trim t before s, Ok tt);
  store_purge now olderThan s := let '(s', ids) := purge cfg now olderThan s in (s', Ok ids);
  store_getSubscribers t s := (s, Ok (getSubscribers t s));
  store_storeKeyPackage now p s := let '(s', r) := storeKeyPackage cfg now p s in (s', thrown r);
  store_fetchKeyPackages now d n s := let '(s', l) := fetchKeyPackages now d (Some n) s in (s', Ok l);
  store_countKeyPackages now d s := (s, Ok (countKeyPackages now d s));
  store_storeLastResort d kp s := (storeLastResortKeyPackage d kp s, Ok tt);
  store_fetchLastResort d s := (s, Ok (fetchLastResortKeyPackage d s));
|}.

#[export] Instance memory_store_laws (cfg : StoreConfig) :
  @HubStoreLaws MemStore (memory_store cfg).
Proof.
  split; simpl; try done.
  - intros now p s s' r. destruct (publish_cases cfg now p s) as [[q ->]|[->|Hfresh]];
      [by intros; simplify_eq/=..|].
    destruct (publish cfg now p s). simpl in Hfresh. subst. intros. by simplify_eq/=.
  - intros now p s s' e. destruct (publish_cases cfg now p s) as [[q ->]|[->|Hfresh]];
      [by intros; simplify_eq/=..|].
    destruct (publish cfg now p s). simpl in Hfresh. by subst.
  - intros now d n s s' l. unfold fetchKeyPackages. destruct (ms_keyPackages s !! d) as [l0|].
    + pose proof (shiftLive_spec (seconds now) n l0) as Hspec. simpl.
      destruct (shiftLive (seconds now) n l0) as [served kept]. destruct Hspec as [-> _].
      intros [= _ <-]. rewrite length_take. lia.
    + intros [= _ <-]. simpl. lia.
Qed.
