(* ===== verification/SQLStore.v ===== *)
(** * The SQL hub store

    packages/hub-store/src: the tables of tables.ts as the migration creates them, and the operations of
    store.ts statement by statement. A table is a finite map from its primary key to the other columns
    (a set where there are none). A [select] without [orderBy], and a [returning], give their rows in an order the engine chooses: the
    order is the parameter [scan]. Each call reads the clock once, as [now]. *)

From S2P Require Import Prelude SeqID HubProtocol.

(** ** tables.ts *)

Record MessageRow := mkMessageRow {
  sender_did : string;
  topic_id : string;
  payload : bytes;
  stored_at : Z;
  retain : RetentionClass;
}.

Record KeyPackageRow := mkKeyPackageRow {
  owner_did : string;
  key_package : string;
  not_after : option Z;
}.

Record SubscriptionRow := mkSubscriptionRow { last_active_at : Z; retention : Z }.

Record TopicRow := mkTopicRow { head : string; removed_through : option string }.

Record PublishIDRow := mkPublishIDRow { published_as : option string; recorded_at : Z }.

Record DB := mkDB {
  (** By [sequence_id]. *)
  hub_messages : gmap string MessageRow;
  (** [(sequence_id, recipient_did)]. *)
  hub_deliveries : gset (string * string);
  (** By [id], a serial; and the last one given out. *)
  hub_key_packages : gmap N KeyPackageRow;
  hub_key_packages_id : N;
  hub_last_resort_key_packages : gmap string string;
  (** By [(topic_id, subscriber_did)]. *)
  hub_subscriptions : gmap (string * string) SubscriptionRow;
  hub_topics : gmap string TopicRow;
  hub_sequence : N;
  (** By [(topic_id, publish_id)]. *)
  hub_publish_ids : gmap (string * string) PublishIDRow;
}.

(** What the ['0-init'] migration leaves behind. *)
Definition migrated : DB := mkDB ∅ ∅ ∅ 0 ∅ ∅ ∅ 0 ∅.

Definition set_messages (f : gmap string MessageRow -> gmap string MessageRow) (db : DB) : DB :=
  mkDB (f (hub_messages db)) (hub_deliveries db) (hub_key_packages db) (hub_key_packages_id db)
    (hub_last_resort_key_packages db) (hub_subscriptions db) (hub_topics db) (hub_sequence db)
    (hub_publish_ids db).
Definition set_deliveries (f : gset (string * string) -> gset (string * string)) (db : DB) : DB :=
  mkDB (hub_messages db) (f (hub_deliveries db)) (hub_key_packages db) (hub_key_packages_id db)
    (hub_last_resort_key_packages db) (hub_subscriptions db) (hub_topics db) (hub_sequence db)
    (hub_publish_ids db).
Definition set_key_packages (f : gmap N KeyPackageRow -> gmap N KeyPackageRow) (serial : N) (db : DB) : DB :=
  mkDB (hub_messages db) (hub_deliveries db) (f (hub_key_packages db)) serial
    (hub_last_resort_key_packages db) (hub_subscriptions db) (hub_topics db) (hub_sequence db)
    (hub_publish_ids db).
Definition set_last_resort (f : gmap string string -> gmap string string) (db : DB) : DB :=
  mkDB (hub_messages db) (hub_deliveries db) (hub_key_packages db) (hub_key_packages_id db)
    (f (hub_last_resort_key_packages db)) (hub_subscriptions db) (hub_topics db) (hub_sequence db)
    (hub_publish_ids db).
Definition set_subscriptions
    (f : gmap (string * string) SubscriptionRow -> gmap (string * string) SubscriptionRow) (db : DB) : DB :=
  mkDB (hub_messages db) (hub_deliveries db) (hub_key_packages db) (hub_key_packages_id db)
    (hub_last_resort_key_packages db) (f (hub_subscriptions db)) (hub_topics db) (hub_sequence db)
    (hub_publish_ids db).
Definition set_topics (f : gmap string TopicRow -> gmap string TopicRow) (db : DB) : DB :=
  mkDB (hub_messages db) (hub_deliveries db) (hub_key_packages db) (hub_key_packages_id db)
    (hub_last_resort_key_packages db) (hub_subscriptions db) (f (hub_topics db)) (hub_sequence db)
    (hub_publish_ids db).
Definition set_sequence (n : N) (db : DB) : DB :=
  mkDB (hub_messages db) (hub_deliveries db) (hub_key_packages db) (hub_key_packages_id db)
    (hub_last_resort_key_packages db) (hub_subscriptions db) (hub_topics db) n
    (hub_publish_ids db).
Definition set_publish_ids
    (f : gmap (string * string) PublishIDRow -> gmap (string * string) PublishIDRow) (db : DB) : DB :=
  mkDB (hub_messages db) (hub_deliveries db) (hub_key_packages db) (hub_key_packages_id db)
    (hub_last_resort_key_packages db) (hub_subscriptions db) (hub_topics db) (hub_sequence db)
    (f (hub_publish_ids db)).

(** ** Options *)

Record HubStoreOptions := mkHubStoreOptions {
  so_defaultRetention : option Z;
  so_maxRetention : option limit;
  so_maxDepth : option limit;
  so_maxKeyPackagesPerDID : option limit;
  so_maxSubscriptionsPerDID : option limit;
}.

(** The constants [createHubStore] resolves them to. *)
Record HubStoreConfig := mkHubStoreConfig {
  hc_maxDepth : limit;
  hc_defaultRetention : Z;
  hc_maxRetention : limit;
  hc_maxKeyPackagesPerDID : limit;
  hc_maxSubscriptionsPerDID : limit;
}.

Definition DEFAULT_MAX_KEY_PACKAGES_PER_DID : limit := Finite 100.
Definition DEFAULT_MAX_SUBSCRIPTIONS_PER_DID : limit := Finite 1000.

Definition createHubStore (o : HubStoreOptions) : HubStoreConfig :=
  {| hc_maxDepth := default (Finite 1000) (so_maxDepth o);
     hc_defaultRetention := default 0%Z (so_defaultRetention o);
     hc_maxRetention := default (Finite (30 * 24 * 60 * 60)) (so_maxRetention o);
     hc_maxKeyPackagesPerDID :=
       default DEFAULT_MAX_KEY_PACKAGES_PER_DID (so_maxKeyPackagesPerDID o);
     hc_maxSubscriptionsPerDID :=
       default DEFAULT_MAX_SUBSCRIPTIONS_PER_DID (so_maxSubscriptionsPerDID o) |}.

Definition PUBLISH_ID_RETENTION_SECONDS : Z := 365 * 24 * 60 * 60.
Definition DELETE_CHUNK_SIZE : nat := 500.

(** [nowSeconds]. *)
Definition nowSeconds (now : Z) : Z := (now / 1000)%Z.

(** [toBytes] copies the column's bytes. *)
Definition toBytes (value : bytes) : bytes := value.

(** ** Transactions *)

Definition SQL (A : Type) : Type := DB -> DB * result Thrown A.

#[export] Instance sql_ret : MRet SQL := fun A a db => (db, Ok a).
#[export] Instance sql_bind : MBind SQL := fun A B f m db =>
  match m db with
  | (db', Ok a) => f a db'
  | (db', Err e) => (db', Err e)
  end.

Definition throw {A} (e : Thrown) : SQL A := fun db => (db, Err e).
Definition query {A} (f : DB -> A) : SQL A := fun db => (db, Ok (f db)).
Definition execute (f : DB -> DB) : SQL unit := fun db => (f db, Ok tt).

(** The database, its driver and its adapter: an order for rows nobody asked to order, the column a
    payload is stored in (as [toBytes] reads it back), and a transaction around a body. *)
Class Engine := {
  scan {A : Type} : list A -> list A;
  encodeBinary : bytes -> bytes;
  withStoreTransaction {A : Type} : SQL A -> SQL A;
}.

(** The rows that were selected, the bytes that were stored, and a transaction that is rolled back when
    its body throws. *)
Class EngineLaws `{Engine} : Prop := {
  scan_perm {A : Type} (rows : list A) : scan rows ≡ₚ rows;
  encodeBinary_bytes payload : encodeBinary payload = payload;
  withStoreTransaction_commits {A : Type} (body : SQL A) db db' a :
    body db = (db', Ok a) -> withStoreTransaction body db = (db', Ok a);
  withStoreTransaction_rolls_back {A : Type} (body : SQL A) db db' e :
    body db = (db', Err e) -> withStoreTransaction body db = (db, Err e);
}.

Section store.
Context `{Engine}.

(** ** Selecting *)

Definition selectFrom {K R} `{Countable K} (table : gmap K R) (P : K * R -> Prop)
    `{∀ row, Decision (P row)} : list (K * R) :=
  scan (filter P (map_to_list table)).

Definition selectDeliveries (db : DB) (P : string * string -> Prop) `{∀ row, Decision (P row)} :
    list (string * string) :=
  scan (filter P (elements (hub_deliveries db))).

Definition orderBySequence {R} (rows : list (string * R)) : list (string * R) :=
  merge_sort (fun a b => a.1 ≤ₛ b.1) rows.

(** [min(sequence_id)]. *)
Definition minSequence {R} (rows : list (string * R)) : option string :=
  fst <$> list.head (orderBySequence rows).

Definition headOf (db : DB) (topicID : string) : option string := head <$> hub_topics db !! topicID.

(** ** Helpers *)

(** The chunks of the loop [for (index = 0; index < length; index += DELETE_CHUNK_SIZE)]. *)
Fixpoint chunks (fuel : nat) (sequenceIDs : list string) : list (list string) :=
  match fuel, sequenceIDs with
  | S fuel, _ :: _ =>
    take DELETE_CHUNK_SIZE sequenceIDs :: chunks fuel (drop DELETE_CHUNK_SIZE sequenceIDs)
  | _, _ => []
  end.

Definition deleteChunk (db : DB) (chunk : list string) : DB :=
  let db := set_deliveries (filter (fun row => row.1 ∉ chunk)) db in
  set_messages (filter (fun row => row.1 ∉ chunk)) db.

Definition deleteFrames (sequenceIDs : list string) (db : DB) : DB :=
  foldl deleteChunk db (chunks (length sequenceIDs) sequenceIDs).

(** [removed_through is null or removed_through < sequenceID]. *)
Definition behind (sequenceID : string) (row : TopicRow) : bool :=
  match removed_through row with
  | None => true
  | Some removed => bool_decide (removed <ₛ sequenceID)
  end.

Definition advanceRemovedThrough (topicID sequenceID : string) (db : DB) : DB :=
  set_topics (alter (fun row => if behind sequenceID row
                                then mkTopicRow (head row) (Some sequenceID) else row) topicID) db.

Definition nextSequenceID : SQL string := fun db =>
  let counter := (hub_sequence db + 1)%N in
  (set_sequence counter db, Ok (formatSequenceID counter)).

Definition logRows (topicID : string) (db : DB) : list (string * MessageRow) :=
  orderBySequence (selectFrom (hub_messages db)
    (fun row => topic_id row.2 = topicID ∧ retain row.2 = Log)).

(** [deleteFrames] and the watermark of the last of them, when there is one. *)
Definition evictDepth (cfg : HubStoreConfig) (topicID : string) (db : DB) : DB :=
  match hc_maxDepth cfg with
  | Infinity => db
  | Finite maxDepth =>
    let rows := logRows topicID db in
    if (Z.of_nat (length rows) <=? maxDepth)%Z then db
    else
      let evict := map fst (take (Z.to_nat (Z.of_nat (length rows) - maxDepth)) rows) in
      let db := deleteFrames evict db in
      match last evict with
      | Some sequenceID => advanceRemovedThrough topicID sequenceID db
      | None => db
      end
  end.

(** ** publish *)

(** The claim on a publish id: [None] to go on, or what an earlier publish was accepted as. *)
Definition claimPublishID (now : Z) (topicID publishID : string) : SQL (option PublishResult) := fun db =>
  match hub_publish_ids db !! (topicID, publishID) with
  | None => (set_publish_ids <[(topicID, publishID) := mkPublishIDRow None now]> db, Ok None)
  | Some existing =>
    match published_as existing with
    | None => (db, Err (OtherError "Incomplete publish-id record"))
    | Some sequenceID => (db, Ok (Some (mkPublishResult sequenceID true)))
    end
  end.

(** The recipients: the current subscribers but the sender. *)
Definition recipientsOf (topicID senderDID : string) (db : DB) : list string :=
  filter (fun did => did ≠ senderDID)
    (map (fun row => row.1.2)
       (selectFrom (hub_subscriptions db) (fun row => row.1.1 = topicID))).

(** Stored unless it is a mailbox frame for nobody. *)
Definition appendFrame (now : Z) (params : PublishParams) (retain : RetentionClass)
    (sequenceID : string) (recipients : list string) (db : DB) : DB :=
  if bool_decide (retain = Log) || (0 <? length recipients)%nat then
    let db := set_messages
                <[sequenceID := mkMessageRow (pp_senderDID params) (pp_topicID params)
                                  (encodeBinary (pp_payload params)) now retain]> db in
    set_deliveries (union (list_to_set (map (fun did => (sequenceID, did)) recipients))) db
  else db.

(** The head write that arbitrates between transactions that read the same head. *)
Definition advanceHead (topicID sequenceID : string) (expectedHead : option (option string)) : SQL unit :=
  fun db =>
  match expectedHead with
  | None =>
    (set_topics (partial_alter (fun row => Some (mkTopicRow sequenceID (row ≫= removed_through)))
                   topicID) db, Ok tt)
  | Some None =>
    match hub_topics db !! topicID with
    | None => (set_topics <[topicID := mkTopicRow sequenceID None]> db, Ok tt)
    | Some _ => (db, Err (HubError HeadMismatchError ""))
    end
  | Some (Some expected) =>
    match hub_topics db !! topicID with
    | Some row =>
      if decide (head row = expected)
      then (set_topics <[topicID := mkTopicRow sequenceID (removed_through row)]> db, Ok tt)
      else (db, Err (HubError HeadMismatchError ""))
    | None => (db, Err (HubError HeadMismatchError ""))
    end
  end.

(** The claim completed with the position. *)
Definition completeClaim (topicID sequenceID : string) (publishID : option string) (db : DB) : DB :=
  match publishID with
  | None => db
  | Some publishID =>
    set_publish_ids (alter (fun row => mkPublishIDRow (Some sequenceID) (recorded_at row))
                       (topicID, publishID)) db
  end.

(** The statements up to the head check: what the transaction reads before it writes a position. *)
Definition publishCheck (now : Z) (params : PublishParams) : SQL (option PublishResult) :=
  claimed ← match pp_publishID params with
            | Some publishID => claimPublishID now (pp_topicID params) publishID
            | None => mret None
            end;
  match claimed with
  | Some deduped => mret (Some deduped)
  | None =>
    currentHead ← query (fun db => headOf db (pp_topicID params));
    if match pp_expectedHead params with
       | None => false
       | Some expected => bool_decide (currentHead ≠ expected)
       end
    then throw (HubError HeadMismatchError "")
    else mret None
  end.

(** The statements from the mint on. *)
Definition publishAccept (cfg : HubStoreConfig) (now : Z) (params : PublishParams) : SQL PublishResult :=
  let retain := default Mailbox (pp_retain params) in
  let topicID := pp_topicID params in
  sequenceID ← nextSequenceID;
  recipients ← query (recipientsOf topicID (pp_senderDID params));
  _ ← execute (appendFrame now params retain sequenceID recipients);
  _ ← match retain with
      | Log =>
        _ ← advanceHead topicID sequenceID (pp_expectedHead params);
        execute (evictDepth cfg topicID)
      | Mailbox => mret tt
      end;
  _ ← execute (completeClaim topicID sequenceID (pp_publishID params));
  mret (mkPublishResult sequenceID false).

Definition publish (cfg : HubStoreConfig) (now : Z) (params : PublishParams) : SQL PublishResult :=
  withStoreTransaction
    (checked ← publishCheck now params;
     match checked with
     | Some deduped => mret deduped
     | None => publishAccept cfg now params
     end).

(** ** ack, fetch and fetchTopic *)

(** [sequenceIDs.filter((id) => !stillDelivered.has(id))], over the deliveries that are left. *)
Definition undelivered (sequenceIDs : list string) (db : DB) : list string :=
  let stillDelivered := map fst (selectDeliveries db (fun row => row.1 ∈ sequenceIDs)) in
  filter (fun id => id ∉ stillDelivered) sequenceIDs.

(** Mailbox frames among the ids. *)
Definition deleteMailbox (sequenceIDs : list string) (db : DB) : DB :=
  set_messages (filter (fun row => ¬ (row.1 ∈ sequenceIDs ∧ retain row.2 = Mailbox))) db.

Definition ack (recipientDID : string) (sequenceIDs : list string) (db : DB) : DB :=
  match sequenceIDs with
  | [] => db
  | _ =>
    let db := set_deliveries (filter (fun row => ¬ (row.2 = recipientDID ∧ row.1 ∈ sequenceIDs))) db in
    match undelivered sequenceIDs db with
    | [] => db
    | fullyAcked => deleteMailbox fullyAcked db
    end
  end.

(** The inner join of a recipient's deliveries with their frames. *)
Definition pendingRows (recipientDID : string) (db : DB) : list (string * MessageRow) :=
  omap (fun row => (row.1,.) <$> hub_messages db !! row.1)
    (selectDeliveries db (fun row => row.2 = recipientDID)).

Definition toStoredMessage (row : string * MessageRow) : StoredMessage :=
  {| sm_sequenceID := row.1;
     sm_senderDID := sender_did row.2;
     sm_topicID := topic_id row.2;
     sm_payload := toBytes (payload row.2);
     sm_logPosition := match retain row.2 with Log => Some row.1 | Mailbox => None end |}.

Definition past (after : option string) {R} (row : string * R) : Prop :=
  match after with None => True | Some after => after <ₛ row.1 end.

#[export] Instance past_dec after {R} (row : string * R) : Decision (past after row).
Proof. unfold past. destruct after; apply _. Defined.

Definition fetch (params : FetchParams) (db : DB) : DB * FetchResult :=
  let db := match fp_ack params with
            | Some (id :: ids) => ack (fp_recipientDID params) (id :: ids) db
            | _ => db
            end in
  let query := orderBySequence (filter (past (fp_after params)) (pendingRows (fp_recipientDID params) db)) in
  let rows := match fp_limit params with None => query | Some limit => take (limit + 1) query end in
  let '(hasMore, resultRows) :=
    match fp_limit params with
    | Some limit => if (limit <? length rows)%nat then (true, take limit rows) else (false, rows)
    | None => (false, rows)
    end in
  let messages := map toStoredMessage resultRows in
  (db, {| fe_messages := messages;
          fe_cursor := sm_sequenceID <$> last messages;
          fe_hasMore := hasMore |}).

Definition fetchTopic (params : FetchTopicParams) (db : DB) : result Thrown FetchTopicResult :=
  let topicID := ft_topicID params in
  match hub_subscriptions db !! (topicID, ft_subscriberDID params) with
  | None => Err (HubError NotSubscribedError "")
  | Some _ =>
    let topicRow := hub_topics db !! topicID in
    let oldest := minSequence (selectFrom (hub_messages db)
                                 (fun row => topic_id row.2 = topicID ∧ retain row.2 = Log)) in
    let query := orderBySequence (selectFrom (hub_messages db)
                   (fun row => topic_id row.2 = topicID ∧ retain row.2 = Log ∧
                               past (ft_after params) row)) in
    let rows := match ft_limit params with None => query | Some limit => take limit query end in
    Ok {| fr_messages := map toStoredMessage rows;
          fr_head := head <$> topicRow;
          fr_oldest := oldest;
          fr_gap := match topicRow ≫= removed_through with
                    | None => false
                    | Some removed => match ft_after params with
                                      | None => true
                                      | Some after => bool_decide (after <ₛ removed)
                                      end
                    end |}
  end.

(** ** trim and purge *)

Definition trim (topicID before : string) (db : DB) : DB :=
  let rows := orderBySequence (selectFrom (hub_messages db)
                (fun row => topic_id row.2 = topicID ∧ retain row.2 = Log ∧ row.1 <ₛ before)) in
  let sequenceIDs := map fst rows in
  match last sequenceIDs with
  | None => db
  | Some lastID => advanceRemovedThrough topicID lastID (deleteFrames sequenceIDs db)
  end.

(** The longest current retention per topic: [Number(row.maxRetention ?? 0)], or 0 for a topic that
    nobody subscribes to. *)
Definition retentionByTopic (db : DB) (topicID : string) : Z :=
  match map (fun row => retention row.2)
          (selectFrom (hub_subscriptions db) (fun row => row.1.1 = topicID)) with
  | [] => 0
  | retention :: retentions => foldl Z.max retention retentions
  end.

(** The frames of a topic that are due: mailbox frames past the threshold, and the log's prefix up to
    the first frame that is not. *)
Definition dueFrames (threshold : Z) (topicID : string) (db : DB) : list (string * MessageRow) :=
  let firstKept := minSequence (selectFrom (hub_messages db)
    (fun row => topic_id row.2 = topicID ∧ retain row.2 = Log ∧ (threshold < stored_at row.2)%Z)) in
  let mailbox (row : string * MessageRow) :=
    bool_decide (retain row.2 = Mailbox) && (stored_at row.2 <=? threshold)%Z in
  let due (row : string * MessageRow) :=
    match headOf db topicID with
    | None => mailbox row
    | Some head =>
      mailbox row ||
      (bool_decide (retain row.2 = Log) && bool_decide (row.1 ≤ₛ head) &&
       match firstKept with None => true | Some kept => bool_decide (row.1 <ₛ kept) end)
    end in
  orderBySequence (selectFrom (hub_messages db)
    (fun row => topic_id row.2 = topicID ∧ due row = true)).

(** One topic's transaction: what is left, and the ids it removed. *)
Definition purgeTopic (cfg : HubStoreConfig) (now olderThan : Z) (subscriberRetention : Z)
    (topicID : string) (db : DB) : DB * list string :=
  let effective := Z.max olderThan (Z.max subscriberRetention (hc_defaultRetention cfg)) in
  let frames := dueFrames (now - effective * 1000) topicID db in
  let frameIDs := map fst frames in
  let db := deleteFrames frameIDs db in
  (match last (map fst (filter (fun row => retain row.2 = Log) frames)) with
   | Some lastLog => advanceRemovedThrough topicID lastLog db
   | None => db
   end, frameIDs).

(** [select distinct topic_id … order by topic_id]. *)
Definition topicsWithFrames (db : DB) : list string :=
  merge_sort sle (remove_dups (map (fun row => topic_id row.2) (selectFrom (hub_messages db) (fun _ => True)))).

Definition pruneClaims (now : Z) (db : DB) : DB :=
  set_publish_ids
    (filter (fun row => ¬ (recorded_at row.2 <= now - PUBLISH_ID_RETENTION_SECONDS * 1000)%Z)) db.

Definition purge (cfg : HubStoreConfig) (now olderThan : Z) (db : DB) : DB * list string :=
  let db := pruneClaims now db in
  let retention := retentionByTopic db in
  let '(db, removed) :=
    foldl (fun '(db, removed) topicID =>
             let '(db, ids) := purgeTopic cfg now olderThan (retention topicID) topicID db in
             (db, removed ++ ids))
      (db, []) (topicsWithFrames db) in
  (db, merge_sort sle removed).

(** The [purge] event, when anything was removed. *)
Definition purgeEvent (removed : list string) : option (list string) :=
  match removed with [] => None | _ => Some removed end.

Definition purgeSubscriptions (now olderThan : Z) (db : DB) : DB * list (string * string) :=
  (set_subscriptions (filter (fun row => ¬ (last_active_at row.2 < now - olderThan * 1000)%Z)) db,
   map fst (selectFrom (hub_subscriptions db)
              (fun row => (last_active_at row.2 < now - olderThan * 1000)%Z))).

(** ** Key packages *)

Definition expired (now : Z) (row : KeyPackageRow) : bool :=
  match not_after row with None => false | Some t => (t <=? nowSeconds now)%Z end.

Definition deleteExpiredKeyPackages (now : Z) (ownerDID : string) (db : DB) : DB :=
  set_key_packages (filter (fun row => ¬ (owner_did row.2 = ownerDID ∧ expired now row.2 = true)))
    (hub_key_packages_id db) db.

Definition ownedBy (ownerDID : string) (db : DB) : list (N * KeyPackageRow) :=
  selectFrom (hub_key_packages db) (fun row => owner_did row.2 = ownerDID).

Definition byID (a b : N * KeyPackageRow) : Prop := (a.1 <= b.1)%N.

#[export] Instance byID_dec a b : Decision (byID a b).
Proof. unfold byID. apply _. Defined.

(** The rows of an owner, [order by id]. *)
Definition packagesOf (ownerDID : string) (db : DB) : list (N * KeyPackageRow) :=
  merge_sort byID (ownedBy ownerDID db).

Definition storeKeyPackage (cfg : HubStoreConfig) (now : Z) (params : StoreKeyPackageParams)
    (db : DB) : DB * result Thrown unit :=
  let db := deleteExpiredKeyPackages now (kp_ownerDID params) db in
  if reaches (Z.of_nat (length (ownedBy (kp_ownerDID params) db))) (hc_maxKeyPackagesPerDID cfg)
  then (db, Err (HubError KeyPackageQuotaExceededError ""))
  else
    let id := (hub_key_packages_id db + 1)%N in
    (set_key_packages <[id := mkKeyPackageRow (kp_ownerDID params) (kp_keyPackage params)
                                (kp_notAfter params)]> id db, Ok tt).

Definition fetchKeyPackages (now : Z) (ownerDID : string) (count : option nat) (db : DB) :
    DB * list string :=
  let db := deleteExpiredKeyPackages now ownerDID db in
  let ids := map fst (take (default 1 count) (packagesOf ownerDID db)) in
  (set_key_packages (filter (fun row => row.1 ∉ ids)) (hub_key_packages_id db) db,
   map (fun row => key_package row.2) (selectFrom (hub_key_packages db) (fun row => row.1 ∈ ids))).

Definition countKeyPackages (now : Z) (ownerDID : string) (db : DB) : nat :=
  length (selectFrom (hub_key_packages db)
            (fun row => owner_did row.2 = ownerDID ∧ expired now row.2 = false)).

Definition storeLastResortKeyPackage (ownerDID keyPackage : string) (db : DB) : DB :=
  set_last_resort <[ownerDID := keyPackage]> db.

Definition fetchLastResortKeyPackage (ownerDID : string) (db : DB) : option string :=
  hub_last_resort_key_packages db !! ownerDID.

(** ** Subscriptions *)

Definition subscribe (cfg : HubStoreConfig) (now : Z) (params : SubscribeParams) (db : DB) :
    DB * result Thrown unit :=
  let '(subscriberDID, topicID) := (sp_subscriberDID params, sp_topicID params) in
  if match sp_retention params with
     | Some requested => exceeds requested (hc_maxRetention cfg)
     | None => false
     end
  then (db, Err (HubError RetentionExceededError ""))
  else
    let retention := default (hc_defaultRetention cfg) (sp_retention params) in
    let held := map (fun row => row.1.1)
                  (selectFrom (hub_subscriptions db) (fun row => row.1.2 = subscriberDID)) in
    if negb (bool_decide (topicID ∈ held)) &&
       reaches (Z.of_nat (length held)) (hc_maxSubscriptionsPerDID cfg)
    then (db, Err (HubError SubscriptionQuotaExceededError ""))
    else (set_subscriptions <[(topicID, subscriberDID) := mkSubscriptionRow now retention]> db, Ok tt).

Definition unsubscribe (subscriberDID topicID : string) (db : DB) : DB :=
  let db := set_subscriptions (delete (topicID, subscriberDID)) db in
  let pending := filter (fun row => topic_id row.2 = topicID) (pendingRows subscriberDID db) in
  let sequenceIDs := map fst pending in
  match sequenceIDs with
  | [] => db
  | _ =>
    let db := set_deliveries (filter (fun row => ¬ (row.2 = subscriberDID ∧ row.1 ∈ sequenceIDs))) db in
    match undelivered sequenceIDs db with
    | [] => db
    | orphaned => deleteMailbox orphaned db
    end
  end.

Definition getSubscribers (topicID : string) (db : DB) : list string :=
  map (fun row => row.1.2) (selectFrom (hub_subscriptions db) (fun row => row.1.1 = topicID)).
End store.
