(* ===== verification/SQLStoreFacts.v ===== *)
(** * The SQL store: what its queries and its batch deletions compute

    A query is what it selects, in order when it is ordered, whatever order the engine scans in; a
    chunked deletion deletes what an unchunked one would. The lemmas the comparison with the in-memory
    store (SQLStoreSim.v) and the interleaving of publishes (SQLPublish.v) are built on. *)

From S2P Require Import Prelude SeqID HubProtocol SQLStore.

(** ** Ascending lists are determined by their elements *)

Lemma ascending_key_inj {A} (f : A -> string) l x y :
  ascending (map f l) -> x ∈ l -> y ∈ l -> f x = f y -> x = y.
Proof.
  induction l as [|z l IH]; intros Hl Hx Hy Hf; [by apply elem_of_nil in Hx|].
  apply ascending_cons_inv in Hl as [Hl Hz].
  assert (∀ w, w ∈ l -> f z ≠ f w) as Hne.
  { intros w Hw. apply slt_ne, Hz. by apply list_elem_of_fmap_2. }
  apply elem_of_cons in Hx as [->|Hx], Hy as [->|Hy]; [done| | |by apply IH].
  - by apply Hne in Hy.
  - symmetry in Hf. by apply Hne in Hx.
Qed.

Lemma ascending_key_NoDup {A} (f : A -> string) l : ascending (map f l) -> NoDup l.
Proof. intros H%ascending_NoDup. by apply NoDup_fmap_1 in H. Qed.

#[export] Instance sle_antisymm : AntiSymm (=) sle := sle_antisym.

Lemma ascending_sle l : ascending l -> StronglySorted sle l.
Proof. induction 1; constructor; [done|]. eapply Forall_impl; [done|]. intros. by apply slt_sle. Qed.

Lemma ascending_unique l1 l2 : ascending l1 -> ascending l2 -> (∀ x, x ∈ l1 <-> x ∈ l2) -> l1 = l2.
Proof.
  intros H1 H2 Heq. apply (StronglySorted_unique sle); [by apply ascending_sle..|].
  apply NoDup_Permutation; [by apply ascending_NoDup..|done].
Qed.

Lemma ascending_key_unique {A} (f : A -> string) l1 l2 :
  ascending (map f l1) -> ascending (map f l2) -> (∀ x, x ∈ l1 <-> x ∈ l2) -> l1 = l2.
Proof.
  intros H1 H2 Heq.
  assert (StronglySorted (fun a b => f a ≤ₛ f b) l1 ∧ StronglySorted (fun a b => f a ≤ₛ f b) l2) as [S1 S2].
  { assert (∀ l, ascending (map f l) -> StronglySorted (fun a b => f a ≤ₛ f b) l) as S; [|by split; apply S].
    induction l as [|x l IH]; intros Hl; [constructor|]. apply ascending_cons_inv in Hl as [Hl Hx].
    constructor; [by apply IH|]. apply Forall_forall. intros y Hy.
    by apply slt_sle, Hx, list_elem_of_fmap_2. }
  eapply StronglySorted_unique_strong; [|exact S1|exact S2|].
  - intros x y Hx Hy Hxy Hyx. apply Heq in Hy. eapply ascending_key_inj; [exact H1|done..|].
    by apply sle_antisym.
  - apply NoDup_Permutation; [by eapply ascending_key_NoDup..|done].
Qed.

(** ** Sorting *)

#[export] Instance sle_total : Total sle.
Proof. intros x y. destruct (decide (x ≤ₛ y)) as [|H]; [by left|right]. by apply slt_sle, slt_alt. Qed.

#[export] Instance key_total {R} : Total (fun a b : string * R => a.1 ≤ₛ b.1).
Proof. intros x y. apply sle_total. Qed.
#[export] Instance key_trans {R} : Transitive (fun a b : string * R => a.1 ≤ₛ b.1).
Proof. intros x y z. apply sle_trans. Qed.

Lemma sorted_ascending l : StronglySorted sle l -> NoDup l -> ascending l.
Proof.
  induction 1 as [|x l Hl IH Hx]; intros Hnd; [constructor|]. apply NoDup_cons in Hnd as [Hin Hnd].
  constructor; [by apply IH|]. rewrite Forall_forall in Hx |- *. intros y Hy.
  destruct (sle_lt_or_eq x y (Hx y Hy)) as [| ->]; done.
Qed.

Lemma sort_ids_spec l : NoDup l -> ascending (merge_sort sle l) ∧ ∀ x, x ∈ merge_sort sle l <-> x ∈ l.
Proof.
  intros Hnd. pose proof (merge_sort_Permutation sle l) as Hp. split.
  - apply sorted_ascending; [apply StronglySorted_merge_sort; apply _|by rewrite Hp].
  - intros x. by rewrite Hp.
Qed.

Lemma orderBySequence_perm {R} (rows : list (string * R)) : orderBySequence rows ≡ₚ rows.
Proof. apply merge_sort_Permutation. Qed.

Lemma orderBySequence_ascending {R} (rows : list (string * R)) :
  NoDup (map fst rows) -> ascending (map fst (orderBySequence rows)).
Proof.
  intros Hnd. apply sorted_ascending.
  - assert (StronglySorted (fun a b => a.1 ≤ₛ b.1) (orderBySequence rows)) as H
      by (apply StronglySorted_merge_sort; apply _).
    revert H. generalize (orderBySequence rows). intros l H.
    induction H as [|x l Hl IH Hx]; simpl; constructor; [done|].
    by apply Forall_fmap.
  - eapply NoDup_Permutation_proper; [|exact Hnd]. apply fmap_Permutation, orderBySequence_perm.
Qed.

Lemma elem_of_orderBySequence {R} (rows : list (string * R)) row : row ∈ orderBySequence rows <-> row ∈ rows.
Proof. by rewrite orderBySequence_perm. Qed.

(** A query's rows are the ascending list with its elements. *)
Lemma orderBySequence_is {R} (rows l : list (string * R)) :
  NoDup (map fst rows) -> ascending (map fst l) -> (∀ row, row ∈ rows <-> row ∈ l) ->
  orderBySequence rows = l.
Proof.
  intros Hnd Hl Heq. apply (ascending_key_unique fst); [by apply orderBySequence_ascending|done|].
  intros row. by rewrite elem_of_orderBySequence.
Qed.

Lemma NoDup_filter_fst {K R} (P : K * R -> Prop) `{∀ x, Decision (P x)} (rows : list (K * R)) :
  NoDup (map fst rows) -> NoDup (map fst (filter P rows)).
Proof.
  induction rows as [|[k r] rows IH]; [done|]. simpl. intros [Hk Hnd]%NoDup_cons.
  rewrite filter_cons. case_decide; [|by apply IH]. simpl. apply NoDup_cons. split; [|by apply IH].
  intros ([k' r'] & -> & [_ Hin]%list_elem_of_filter)%list_elem_of_fmap. apply Hk.
  by apply (list_elem_of_fmap_2 fst) in Hin.
Qed.

(** ** Selecting *)

Section select.
Context `{EngineLaws}.

Lemma elem_of_selectFrom {K R} `{Countable K} (table : gmap K R) P `{∀ row, Decision (P row)} k r :
  (k, r) ∈ selectFrom table P <-> table !! k = Some r ∧ P (k, r).
Proof.
  unfold selectFrom. rewrite scan_perm, list_elem_of_filter, elem_of_map_to_list. naive_solver.
Qed.

Lemma NoDup_selectFrom {K R} `{Countable K} (table : gmap K R) P `{∀ row, Decision (P row)} :
  NoDup (selectFrom table P).
Proof. unfold selectFrom. rewrite scan_perm. apply NoDup_filter, NoDup_map_to_list. Qed.

Lemma NoDup_selectFrom_keys {R} (table : gmap string R) P `{∀ row, Decision (P row)} :
  NoDup (map fst (selectFrom table P)).
Proof.
  unfold selectFrom. eapply NoDup_Permutation_proper; [apply fmap_Permutation, scan_perm|].
  apply NoDup_filter_fst, NoDup_fst_map_to_list.
Qed.

Lemma elem_of_selectDeliveries db P `{∀ row, Decision (P row)} row :
  row ∈ selectDeliveries db P <-> row ∈ hub_deliveries db ∧ P row.
Proof.
  unfold selectDeliveries. rewrite scan_perm, list_elem_of_filter, elem_of_elements. naive_solver.
Qed.

Lemma elem_of_pendingRows did db k r :
  (k, r) ∈ pendingRows did db <-> (k, did) ∈ hub_deliveries db ∧ hub_messages db !! k = Some r.
Proof.
  unfold pendingRows. rewrite list_elem_of_omap. split.
  - intros ([k' d] & [Hin Hd]%elem_of_selectDeliveries & Hk). simpl in *. subst.
    destruct (hub_messages db !! k') eqn:E; simplify_eq/=. done.
  - intros [Hin Hk]. exists (k, did). rewrite elem_of_selectDeliveries. simpl. by rewrite Hk.
Qed.

Lemma NoDup_pendingRows did db : NoDup (map fst (pendingRows did db)).
Proof.
  unfold pendingRows, selectDeliveries.
  assert (∀ rows : list (string * string), NoDup rows -> (∀ row, row ∈ rows -> row.2 = did) ->
    NoDup (map fst (omap (fun row => (row.1,.) <$> hub_messages db !! row.1) rows))) as Hg.
  { induction rows as [|[k d] rows IH]; intros Hnd Hd; [constructor|].
    apply NoDup_cons in Hnd as [Hk Hnd]. cbn. assert (d = did) as -> by (apply (Hd (k, d)); set_solver).
    specialize (IH Hnd ltac:(set_solver)). destruct (hub_messages db !! k); simpl; [|done].
    apply NoDup_cons. split; [|done].
    intros ([k' r'] & -> & Hin)%list_elem_of_fmap. apply list_elem_of_omap in Hin as ([k2 d2] & Hin & Hr).
    simpl in *. destruct (hub_messages db !! k2); simplify_eq/=. apply Hk.
    assert (d2 = did) as -> by (apply (Hd (k', d2)); set_solver). done. }
  apply Hg.
  - rewrite scan_perm. apply NoDup_filter, NoDup_elements.
  - intros row Hrow. rewrite scan_perm in Hrow. by apply list_elem_of_filter in Hrow as [? _].
Qed.

(** The smallest key of a selection is the first of the ordered query. *)
Lemma minSequence_is {R} (rows l : list (string * R)) :
  NoDup (map fst rows) -> ascending (map fst l) -> (∀ row, row ∈ rows <-> row ∈ l) ->
  minSequence rows = fst <$> list.head l.
Proof. intros Hnd Hl Heq. unfold minSequence. by rewrite (orderBySequence_is rows l). Qed.

Lemma transaction_spec {A} (body : SQL A) db :
  withStoreTransaction body db =
    match body db with
    | (db', Ok a) => (db', Ok a)
    | (_, Err e) => (db, Err e)
    end.
Proof.
  destruct (body db) as [db' [a|e]] eqn:E;
    [by apply withStoreTransaction_commits|by eapply withStoreTransaction_rolls_back].
Qed.

(** ** Batch deletion *)

Lemma chunks_concat fuel ids : length ids <= fuel -> concat (chunks fuel ids) = ids.
Proof.
  revert ids. induction fuel as [|fuel IH]; intros [|id ids] Hf; try done; [simpl in Hf; lia|].
  cbn [chunks concat]. rewrite IH; [apply take_drop|]. rewrite length_drop. unfold DELETE_CHUNK_SIZE.
  simpl in *. lia.
Qed.

Lemma deleteChunk_nil db : deleteChunk db [] = db.
Proof.
  destruct db. unfold deleteChunk, set_messages, set_deliveries. simpl. f_equal.
  - apply map_filter_id. intros ? ? _. apply not_elem_of_nil.
  - apply set_eq. intros x. rewrite elem_of_filter. set_solver.
Qed.

Lemma deleteChunk_app db ids1 ids2 : deleteChunk (deleteChunk db ids1) ids2 = deleteChunk db (ids1 ++ ids2).
Proof.
  destruct db. unfold deleteChunk, set_messages, set_deliveries. simpl. f_equal.
  - rewrite map_filter_filter. apply map_filter_ext. intros k r _. simpl. rewrite elem_of_app. naive_solver.
  - apply set_eq. intros x. rewrite !elem_of_filter, elem_of_app. naive_solver.
Qed.

(** Chunking changes nothing. *)
Lemma deleteFrames_all ids db : deleteFrames ids db = deleteChunk db ids.
Proof.
  unfold deleteFrames. rewrite <- (chunks_concat (length ids) ids) at 3 by done.
  generalize (chunks (length ids) ids) as cs. intros cs. revert db.
  induction cs as [|c cs IH]; intros db; simpl; [by rewrite deleteChunk_nil|].
  by rewrite IH, deleteChunk_app.
Qed.

Lemma deleteFrames_messages ids db k :
  hub_messages (deleteFrames ids db) !! k = if decide (k ∈ ids) then None else hub_messages db !! k.
Proof.
  rewrite deleteFrames_all. simpl. rewrite map_lookup_filter. simpl.
  destruct (hub_messages db !! k); simpl; repeat case_decide; simplify_option_eq; done.
Qed.

Lemma deleteFrames_deliveries ids db k d :
  (k, d) ∈ hub_deliveries (deleteFrames ids db) <-> (k, d) ∈ hub_deliveries db ∧ k ∉ ids.
Proof. rewrite deleteFrames_all. simpl. rewrite elem_of_filter. naive_solver. Qed.

Lemma deleteFrames_topics ids db : hub_topics (deleteFrames ids db) = hub_topics db.
Proof. by rewrite deleteFrames_all. Qed.

(** The watermark after a removal, as a value: it never moves back. *)
Definition advance (removed new : option string) : option string :=
  match new, removed with
  | None, _ => removed
  | Some id, None => Some id
  | Some id, Some r => if decide (r <ₛ id) then Some id else Some r
  end.

Definition advanceRow (new : option string) (row : TopicRow) : TopicRow :=
  mkTopicRow (head row) (advance (removed_through row) new).

Lemma advanceRow_None row : advanceRow None row = row.
Proof. by destruct row. Qed.

Lemma advance_topics t id db t' :
  hub_topics (advanceRemovedThrough t id db) !! t' =
    if decide (t' = t) then advanceRow (Some id) <$> hub_topics db !! t' else hub_topics db !! t'.
Proof.
  simpl. case_decide; subst; [rewrite lookup_alter_eq|by rewrite lookup_alter_ne].
  destruct (hub_topics db !! t) as [[h [r|]]|]; simpl; [|done..]. unfold behind; simpl.
  case_bool_decide; unfold advanceRow, advance; simpl.
  - by rewrite decide_True.
  - by rewrite decide_False.
Qed.
End select.
