(* ===== verification/StoreBatches.v ===== *)
(** * The in-memory store's loops, as batches

    The removal loops of memoryStore.ts (depth eviction, [trim], [purge]) are one list of removals each,
    and its delivery loops ([ack], [unsubscribe]) one update of each entry: the form in which the SQL
    store's statements can be compared with them. *)

From S2P Require Import Prelude SeqID HubProtocol HubSpec SQLStore SQLStoreFacts MemoryStore MemoryStoreFacts MemoryStoreSpec.

Abbreviation removeAll := (foldl (fun s id => removeEntry id s)).

(** The id names a log frame of the topic. *)
Definition log_id (s : MemStore) (t id : string) : Prop :=
  match jm_get id (ms_entries s) with Some e => in_log t e | None => False end.

#[export] Instance log_id_dec s t id : Decision (log_id s t id).
Proof. unfold log_id. destruct (jm_get _ _); apply _. Defined.

Lemma log_id_ids s a t id :
  core_rel s a -> log_id s t id <-> id ∈ ids_where (in_log t) (ms_entries s).
Proof.
  intros Hs. unfold log_id. rewrite elem_of_ids_where.
  pose proof (entries_wf_NoDup _ (sr_entries _ _ Hs)) as Hnd. split.
  - destruct (jm_get id (ms_entries s)) as [e|] eqn:He; [|done]. intros. exists e.
    by split; [apply jm_get_elem|].
  - intros (e & He & ?). apply jm_get_Some in He; [|done]. by rewrite He.
Qed.

(** ** A list of removals *)

Lemma removeAll_get k ids s :
  jm_get k (ms_entries (removeAll s ids)) = if decide (k ∈ ids) then None else jm_get k (ms_entries s).
Proof.
  revert s. induction ids as [|id ids IH]; intros s; cbn [foldl].
  - by rewrite decide_False by apply not_elem_of_nil.
  - rewrite IH, removeEntry_entries, jm_get_delete.
    repeat case_decide; subst; try done; rewrite ?elem_of_cons in *; naive_solver.
Qed.

Lemma removeEntry_log_id k s t id : id ≠ k -> log_id (removeEntry k s) t id <-> log_id s t id.
Proof. intros Hne. unfold log_id. by rewrite removeEntry_entries, jm_get_delete, decide_False. Qed.

Definition removes_log (s : MemStore) (t k : string) : option string :=
  if decide (log_id s t k) then Some k else None.

Lemma removes_log_spec s t k :
  removes_log s t k =
    match jm_get k (ms_entries s) with
    | Some e => if decide (le_topicID e = t) then match le_retain e with Log => Some k | Mailbox => None end
                else None
    | None => None
    end.
Proof.
  unfold removes_log. case_decide as H; unfold log_id, in_log in H; destruct (jm_get k (ms_entries s)) as [e|];
    [|done| |done].
  - destruct H as [Ht Hr]. by rewrite decide_True, Hr.
  - case_decide; [|done]. destruct (le_retain e) eqn:E; [naive_solver|done].
Qed.

Lemma removeEntry_watermark k s t :
  ms_removedThrough (removeEntry k s) !! t =
    advance (ms_removedThrough s !! t) (removes_log s t k).
Proof.
  rewrite removes_log_spec. unfold removeEntry. destruct (jm_get k (ms_entries s)) as [e|].
  2: by destruct (ms_removedThrough s !! t).
  simpl. destruct (decide (le_topicID e = t)) as [<-|Ht], (le_retain e);
    try (by destruct (ms_removedThrough s !! _)).
  - destruct (ms_removedThrough s !! le_topicID e) as [r|] eqn:Hw; simpl;
      [case_decide; [|done]|]; by rewrite lookup_insert_eq.
  - destruct (ms_removedThrough s !! le_topicID e); [case_decide|];
      rewrite ?lookup_insert_ne by done; by destruct (ms_removedThrough s !! t).
Qed.

Lemma advance_twice r k z : k <ₛ z -> advance (advance r (Some k)) (Some z) = advance r (Some z).
Proof.
  intros Hlt. destruct r as [r|]; simpl.
  - repeat case_decide; simpl; repeat case_decide; try done; exfalso;
      match goal with H : ¬ r <ₛ z |- _ => apply H; by etrans | H : ¬ k <ₛ z |- _ => by apply H | _ => idtac end.
  - by rewrite decide_True.
Qed.

Lemma removeAll_watermark ids s t :
  ascending ids ->
  ms_removedThrough (removeAll s ids) !! t =
    advance (ms_removedThrough s !! t) (last (filter (log_id s t) ids)).
Proof.
  revert s. induction ids as [|k ids IH]; intros s Hasc; cbn [foldl].
  { simpl. by destruct (ms_removedThrough s !! t). }
  apply ascending_cons_inv in Hasc as [Hasc Hk]. rewrite IH by done.
  rewrite (filter_ext_elem (log_id (removeEntry k s) t) (log_id s t)).
  2: { intros x Hx. apply removeEntry_log_id. intros ->. by apply (slt_irrefl k), Hk. }
  rewrite removeEntry_watermark.
  unfold removes_log. rewrite filter_cons. case_decide as Hlog; [|by destruct (ms_removedThrough s !! t), (last _)].
  destruct (last (filter (log_id s t) ids)) as [z|] eqn:Hz.
  - rewrite last_cons, Hz. apply advance_twice, Hk.
    apply last_Some_elem_of, list_elem_of_filter in Hz. apply Hz.
  - by rewrite last_cons, Hz.
Qed.

Lemma removeAll_rest ids s : rest_of (removeAll s ids) = rest_of s.
Proof. apply foldl_preserved. intros. apply removeEntry_rest. Qed.

(** ** Depth eviction and trim *)

(** A topic's log, oldest first. *)
Abbreviation log_of s t := (ids_where (in_log t) (ms_entries s)).

Lemma log_of_ascending s a t : core_rel s a -> ascending (log_of s t).
Proof. intros Hs. apply ids_where_ascending, Hs. Qed.

Lemma log_of_cons s a t k ids :
  store_rel s a -> log_of s t = k :: ids ->
  ∃ a', store_rel (removeEntry k s) a' ∧ log_of (removeEntry k s) t = ids.
Proof.
  intros Hs Hids. pose proof (sr_entries _ _ (proj1 Hs)) as Hm.
  pose proof (log_of_ascending _ _ t (proj1 Hs)) as Hasc. rewrite Hids in Hasc.
  apply ascending_cons_inv in Hasc as [Hasc Hmin].
  assert (k ∈ log_of s t) as (e & Hk & He)%elem_of_ids_where by (rewrite Hids; set_solver).
  apply jm_get_Some in Hk; [|by apply entries_wf_NoDup]. eexists. split.
  - eapply removeEntry_rel; [done..|]. intros _. rewrite <- (in_log_topic _ _ He), Hids.
    intros x [->|?]%elem_of_cons; auto with kumiai.
  - rewrite removeEntry_entries, ids_where_delete, Hids, filter_cons_False by naive_solver.
    apply filter_all. intros x Hx ->. by apply (slt_irrefl k), Hmin.
Qed.

Lemma evictDepth_batch cfg t cap s a :
  store_rel s a -> maxDepth cfg = Finite cap ->
  evictDepth cfg t (length (log_of s t)) s =
    removeAll s (take (Z.to_nat (Z.of_nat (length (log_of s t)) - cap)) (log_of s t)).
Proof.
  intros Hs Hcap. remember (log_of s t) as ids eqn:Hids. symmetry in Hids. revert s a Hs Hids.
  induction ids as [|k ids IH]; intros s a Hs Hids; cbn [length evictDepth]; rewrite Hcap; cbn [exceeds].
  { rewrite take_nil. by case_match. }
  destruct (Z.ltb_spec cap (Z.of_nat (S (length ids)))).
  - unfold oldestLog. rewrite (log_ids s a t (proj1 Hs)), Hids. cbn [list.head head].
    destruct (log_of_cons _ _ _ _ _ Hs Hids) as (a' & Hs' & Hids').
    rewrite (IH _ _ Hs' Hids').
    replace (Z.to_nat (Z.of_nat (S (length ids)) - cap))
      with (S (Z.to_nat (Z.of_nat (length ids) - cap))) by lia. done.
  - replace (Z.to_nat _) with 0 by lia. done.
Qed.

(** The depth is counted on the topic's log. *)
Lemma logDepth_log s a t : core_rel s a -> logDepth s t = length (log_of s t).
Proof. intros Hs. unfold logDepth. by rewrite (log_ids s a t Hs). Qed.

Lemma trim_loop_batch before log s :
  NoDup log ->
  foldl (trimOne before) s log =
    removeAll s (filter (fun id => id <ₛ before ∧ isLogEntry s id = true) log).
Proof.
  intros Hnd. revert s. induction Hnd as [|k log Hk Hnd IH]; intros s; cbn [foldl]; [done|].
  rewrite IH, filter_cons. unfold trimOne.
  destruct (bool_decide (k <ₛ before) && isLogEntry s k) eqn:Hb.
  - apply andb_true_iff in Hb as [Hlt%bool_decide_eq_true Hlog].
    rewrite decide_True by done. cbn [foldl]. f_equal. apply filter_ext_elem. intros x Hx.
    unfold isLogEntry. rewrite removeEntry_entries, jm_get_delete, decide_False; [done|]. by intros ->.
  - rewrite decide_False; [done|]. intros [? Hl]. rewrite Hl, bool_decide_true in Hb by done. done.
Qed.

Lemma trim_batch t before s a :
  store_rel s a -> trim t before s = removeAll s (filter (fun id => id <ₛ before) (log_of s t)).
Proof.
  intros Hs. rewrite <- (log_ids s a t (proj1 Hs)), list_filter_filter. unfold trim, topicLog.
  destruct (ms_topicLogs s !! t) as [log|] eqn:Hlog; [|done]. apply trim_loop_batch.
  pose proof (sr_topics _ _ (proj1 Hs) t) as Ht. unfold queue in Ht. rewrite Hlog in Ht. simpl in Ht.
  subst. apply ascending_NoDup, ids_where_ascending, (sr_entries _ _ (proj1 Hs)).
Qed.

(** ** Deliveries *)

(** What an ack by [d] leaves of an entry. *)
Definition ackEntry (d : string) (e : LogEntry) : option LogEntry :=
  let e' := forgetRecipient d e in
  if decide (le_retain e = Mailbox ∧ le_pendingFor e' = []) then None else Some e'.

Lemma ackEntry_again d e :
  NoDup (le_pendingFor e) -> ackEntry d e ≫= ackEntry d = ackEntry d e.
Proof.
  intros Hnd. destruct e as [i sn t p st r pf]. unfold ackEntry, forgetRecipient. simpl in *.
  assert (splice_out d (splice_out d pf) = splice_out d pf) as Hpf.
  { apply splice_out_notin. rewrite splice_out_filter by done. intros []%list_elem_of_filter. done. }
  case_decide; [done|]. simpl. rewrite Hpf. by case_decide.
Qed.

Lemma dropDelivery_ackEntry d id s k :
  jm_get k (ms_entries (dropDelivery d id s)) =
    if decide (k = id) then jm_get k (ms_entries s) ≫= ackEntry d else jm_get k (ms_entries s).
Proof.
  unfold dropDelivery. destruct (jm_get id (ms_entries s)) as [e|] eqn:He; cbv zeta.
  2: { case_decide; subst; [by rewrite He|done]. }
  assert (bool_decide (le_retain (forgetRecipient d e) = Mailbox) &&
      (length (le_pendingFor (forgetRecipient d e)) =? 0) = true <->
    le_retain e = Mailbox ∧ le_pendingFor (forgetRecipient d e) = []) as Hb.
  { rewrite andb_true_iff, bool_decide_eq_true, Nat.eqb_eq, length_zero_iff_nil. done. }
  destruct (bool_decide _ && _) eqn:Hdrop; destruct (decide (k = id)) as [->|Hk];
    rewrite ?removeEntry_entries, ?jm_get_delete; simpl; rewrite ?jm_get_set.
  - rewrite decide_True, He by done. simpl. unfold ackEntry. by rewrite decide_True by by apply Hb.
  - by rewrite !decide_False.
  - rewrite decide_True, He by done. simpl. unfold ackEntry.
    rewrite decide_False; [done|]. rewrite <- Hb. done.
  - by rewrite decide_False.
Qed.

Lemma dropDelivery_watermark d id s : ms_removedThrough (dropDelivery d id s) = ms_removedThrough s.
Proof.
  unfold dropDelivery. destruct (jm_get id (ms_entries s)) as [e|]; [|done]. cbv zeta.
  destruct (bool_decide _ && _) eqn:Hb; [|done]. apply andb_true_iff in Hb as [Hr%bool_decide_eq_true _].
  unfold removeEntry. simpl. rewrite jm_get_set, decide_True by done. simpl in *. by rewrite Hr.
Qed.

Lemma entry_NoDup s a k e : core_rel s a -> jm_get k (ms_entries s) = Some e -> NoDup (le_pendingFor e).
Proof. intros Hs He. eapply ew_pending; [apply Hs|by apply jm_get_elem]. Qed.

Lemma ack_entries d ids s a k :
  store_rel s a ->
  jm_get k (ms_entries (ack d ids s)) =
    if decide (k ∈ ids) then jm_get k (ms_entries s) ≫= ackEntry d else jm_get k (ms_entries s).
Proof.
  unfold ack. revert s. induction ids as [|id ids IH]; intros s Hs; cbn [foldl].
  { by rewrite decide_False by apply not_elem_of_nil. }
  rewrite IH by by apply dropDelivery_rel. rewrite dropDelivery_ackEntry.
  destruct (decide (k = id)) as [->|Hne].
  - rewrite (decide_True (P := id ∈ id :: ids)) by set_solver. case_decide; [|done].
    destruct (jm_get id (ms_entries s)) as [e|] eqn:He; [|done]. simpl. apply ackEntry_again.
    eapply entry_NoDup; [apply Hs|done].
  - repeat case_decide; rewrite ?elem_of_cons in *; naive_solver.
Qed.

Lemma ack_watermark d ids s : ms_removedThrough (ack d ids s) = ms_removedThrough s.
Proof. apply foldl_preserved. intros. apply dropDelivery_watermark. Qed.

(** An unsubscribe is an ack of the subscriber's deliveries on the topic. *)
Definition leaveEntry (d t : string) (e : LogEntry) : option LogEntry :=
  if decide (le_topicID e = t ∧ d ∈ le_pendingFor e) then ackEntry d e else Some e.

Lemma unsubscribe_loop_entries d t ids s k :
  NoDup ids ->
  jm_get k (ms_entries (foldl (unsubscribeOne d t) s ids)) =
    if decide (k ∈ ids)
    then jm_get k (ms_entries s) ≫= fun e => if decide (le_topicID e = t) then ackEntry d e else Some e
    else jm_get k (ms_entries s).
Proof.
  intros Hnd. revert s. induction Hnd as [|id ids Hid Hnd IH]; intros s; cbn [foldl].
  { by rewrite decide_False by apply not_elem_of_nil. }
  assert (∀ x, jm_get x (ms_entries (unsubscribeOne d t s id)) =
    if decide (x = id)
    then jm_get x (ms_entries s) ≫= fun e => if decide (le_topicID e = t) then ackEntry d e else Some e
    else jm_get x (ms_entries s)) as Hone.
  { intros x. unfold unsubscribeOne. destruct (decide (x = id)) as [->|Hne].
    - destruct (jm_get id (ms_entries s)) as [e|] eqn:He; simpl; [|done].
      destruct (decide (le_topicID e = t)); [|exact He]. by rewrite dropDelivery_ackEntry, decide_True, He.
    - repeat case_match; rewrite ?dropDelivery_ackEntry, ?decide_False by done; done. }
  rewrite IH, Hone. destruct (decide (k = id)) as [->|Hne].
  - rewrite decide_False, decide_True by set_solver. done.
  - repeat case_decide; rewrite ?elem_of_cons in *; naive_solver.
Qed.

Lemma unsubscribe_entries d t s a k :
  store_rel s a ->
  jm_get k (ms_entries (unsubscribe d t s)) = jm_get k (ms_entries s) ≫= leaveEntry d t.
Proof.
  intros Hs. unfold unsubscribe. change (default [] (ms_deliveries (dropSubscription d t s) !! d)) with (pending s d).
  rewrite unsubscribe_loop_entries by eapply ascending_NoDup, pending_ascending, Hs.
  change (ms_entries (dropSubscription d t s)) with (ms_entries s).
  pose proof (pending_entry s a d k Hs) as Hp. unfold leaveEntry.
  destruct (jm_get k (ms_entries s)) as [e|]; simpl; [|by case_decide].
  repeat case_decide; naive_solver.
Qed.

Lemma unsubscribe_watermark d t s : ms_removedThrough (unsubscribe d t s) = ms_removedThrough s.
Proof.
  unfold unsubscribe. rewrite foldl_preserved; [done|]. intros s' k. unfold unsubscribeOne.
  repeat case_match; rewrite ?dropDelivery_watermark; done.
Qed.

(** ** Purge *)

(** Old enough to go, by the retention of its topic. *)
Definition due (cfg : StoreConfig) (s : MemStore) (now old : Z) (e : LogEntry) : Prop :=
  (le_storedAt e <= now - retentionOf cfg s (le_topicID e) old * 1000)%Z.

#[export] Instance due_dec cfg s now old e : Decision (due cfg s now old e).
Proof. unfold due. apply _. Defined.

Lemma purgeable_ascending cfg s now old retained es :
  ascending (map fst es) -> ascending (purgeable cfg s now old retained es).
Proof.
  revert retained. induction es as [|[i e] es IH]; intros retained Hasc; simpl; [constructor|].
  apply ascending_cons_inv in Hasc as [Hasc Hi]. repeat case_match; try by apply IH.
  constructor; [by apply IH|]. apply Forall_forall. intros x Hx%purgeable_elem. by apply Hi.
Qed.

(** A frame is due by itself, and for a log frame so is every older frame of its log. *)
Definition purges (cfg : StoreConfig) (s : MemStore) (now old : Z) (es : entry_map) (k : string)
    (e : LogEntry) : Prop :=
  due cfg s now old e ∧
  (le_retain e = Log ->
    ∀ k' e', (k', e') ∈ es -> in_log (le_topicID e) e' -> k' <ₛ k -> due cfg s now old e').

Lemma purges_cons cfg s now old i en es k e :
  purges cfg s now old ((i, en) :: es) k e <->
  purges cfg s now old es k e ∧
  (le_retain e = Log -> in_log (le_topicID e) en -> i <ₛ k -> due cfg s now old en).
Proof.
  unfold purges. split.
  - intros [Hd Hall]. split_and!; [done| |]; intros Hr; specialize (Hall Hr).
    + intros k' e' Hin. apply Hall. by right.
    + apply Hall. by left.
  - intros [[Hd Hall] Hi]. split; [done|]. intros Hr k' e' [[= -> ->]|Hin]%elem_of_cons; [by auto|].
    by eapply Hall.
Qed.

Lemma purgeable_spec cfg s now old retained es k :
  ascending (map fst es) ->
  k ∈ purgeable cfg s now old retained es <->
  ∃ e, (k, e) ∈ es ∧ purges cfg s now old es k e ∧ (le_retain e = Log -> le_topicID e ∉ retained).
Proof.
  revert retained. induction es as [|[i en] es IH]; intros retained Hasc; cbn [purgeable].
  { split; [by intros []%not_elem_of_nil|]. intros (e & []%not_elem_of_nil & _). }
  apply ascending_cons_inv in Hasc as [Hasc Hi].
  assert (∀ e, (k, e) ∈ es -> i <ₛ k) as Hlt.
  { intros e He. apply (Hi k). by apply (list_elem_of_fmap_2 fst es (k, e)). }
  assert (purges cfg s now old ((i, en) :: es) i en <-> due cfg s now old en) as Hself.
  { rewrite purges_cons. unfold purges. split; [naive_solver|]. intros Hd. split_and!; [done| |done].
    intros _ k' e' Hin _ Hk'. exfalso. apply (slt_irrefl i). etrans; [|exact Hk'].
    apply (Hi k'). by apply (list_elem_of_fmap_2 fst es (k', e')). }
  assert (∀ P : LogEntry -> Prop, (∃ e, (k, e) ∈ (i, en) :: es ∧ purges cfg s now old ((i, en) :: es) k e ∧ P e) <->
    (k = i ∧ due cfg s now old en ∧ P en) ∨
    (∃ e, (k, e) ∈ es ∧ (purges cfg s now old es k e ∧
      (le_retain e = Log -> in_log (le_topicID e) en -> due cfg s now old en)) ∧ P e)) as Hcons.
  { intros P. split.
    - intros (e & [[= -> ->]|Hin]%elem_of_cons & Hp & HP); [left; by rewrite <- Hself|right].
      exists e. apply purges_cons in Hp. naive_solver.
    - intros [(-> & Hd & HP)|(e & Hin & Hp & HP)].
      + exists en. rewrite Hself. split_and!; [by left|done..].
      + exists e. rewrite purges_cons. split_and!; [by right|naive_solver..]. }
  rewrite Hcons. clear Hcons Hself. unfold due in *.
  destruct (bool_decide _ && _) eqn:Hskip; [|destruct (Z.leb_spec (le_storedAt en)
    (now - retentionOf cfg s (le_topicID en) old * 1000)) as [Hd|Hd]];
    [|rewrite elem_of_cons|case_bool_decide as Hlog]; rewrite IH by done; unfold in_log.
  - apply andb_true_iff in Hskip as [Hr%bool_decide_eq_true Ht%bool_decide_eq_true]. split.
    + intros (e & Hin & Hp & Hn). right. exists e. split_and!; [done..| |done].
      intros Hr' [Hte _]. destruct (Hn Hr'). by rewrite <- Hte.
    + intros [(_ & _ & Hn)|(e & Hin & [Hp _] & Hn)]; [by destruct (Hn Hr)|by exists e].
  - assert (le_retain en = Log -> le_topicID en ∉ retained) as Hout.
    { intros Hr Ht. rewrite !bool_decide_true in Hskip by done. done. }
    split.
    + intros [->|(e & Hin & Hp & Hn)]; [by left|right]. by exists e.
    + intros [(-> & _)|(e & Hin & [Hp _] & Hn)]; [by left|right; by exists e].
  - split.
    + intros (e & Hin & Hp & Hr). right. exists e. split_and!; [done..| |intros ?; set_solver].
      intros Hr' [Ht _]. specialize (Hr Hr'). rewrite Ht in Hr. set_solver.
    + intros [(-> & Hd' & _)|(e & Hin & [Hp Hen] & Hr)]; [lia|]. exists e. split_and!; [done..|].
      intros Hr'. specialize (Hen Hr'). specialize (Hr Hr').
      destruct (decide (le_topicID en = le_topicID e)) as [Ht|Ht]; [|set_solver].
      specialize (Hen (conj Ht Hlog)). lia.
  - split.
    + intros (e & Hin & Hp & Hr). right. exists e. split_and!; [done..| |done]. by intros _ [_ ?].
    + intros [(-> & Hd' & _)|(e & Hin & [Hp _] & Hn)]; [lia|by exists e].
Qed.

Lemma purge_batch cfg now old s :
  (purge cfg now old s).1 = removeAll s (purge cfg now old s).2.
Proof. done. Qed.
