(* ===== verification/SQLStoreSim.v ===== *)
(** * The SQL store simulates the in-memory store

    The relation between a database and a state of memoryStore.ts, and that each operation carries it
    on and gives the same answer. The frames, deliveries and topic rows are related entry by entry; the
    lists both stores answer with are ascending, and so equal when they have the same elements. *)

From S2P Require Import Prelude SeqID HubProtocol HubSpec SQLStore SQLStoreFacts MemoryStore MemoryStoreFacts MemoryStoreSpec StoreBatches.

Section sim.
Context `{EngineLaws}.

(** ** Frames, deliveries and topics *)

Definition rowOf (e : LogEntry) : MessageRow :=
  mkMessageRow (le_senderDID e) (le_topicID e) (le_payload e) (le_storedAt e) (le_retain e).

Record frames_sim (m : MemStore) (db : DB) : Prop := {
  fs_messages : ∀ k, hub_messages db !! k = rowOf <$> jm_get k (ms_entries m);
  fs_deliveries : ∀ k d, (k, d) ∈ hub_deliveries db <->
    ∃ e, jm_get k (ms_entries m) = Some e ∧ d ∈ le_pendingFor e;
  fs_topics : ∀ t, hub_topics db !! t =
    (fun h => mkTopicRow h (ms_removedThrough m !! t)) <$> ms_heads m !! t;
}.

Lemma frames_sim_row m db k r :
  frames_sim m db -> hub_messages db !! k = Some r <->
  ∃ e, jm_get k (ms_entries m) = Some e ∧ r = rowOf e.
Proof.
  intros Hs. rewrite (fs_messages _ _ Hs). destruct (jm_get k (ms_entries m)); simpl; naive_solver.
Qed.

Lemma frames_sim_head m db t : frames_sim m db -> headOf db t = ms_heads m !! t.
Proof. intros Hs. unfold headOf. rewrite (fs_topics _ _ Hs). by destruct (ms_heads m !! t). Qed.

(** Two databases that agree on the three tables. *)
Lemma frames_sim_frame m m' db db' :
  frames_sim m db -> ms_entries m' = ms_entries m -> ms_heads m' = ms_heads m ->
  ms_removedThrough m' = ms_removedThrough m ->
  hub_messages db' = hub_messages db -> hub_deliveries db' = hub_deliveries db ->
  hub_topics db' = hub_topics db -> frames_sim m' db'.
Proof. intros [] He Hh Hr Hm Hd Ht. split; intros; rewrite ?He, ?Hh, ?Hr, ?Hm, ?Hd, ?Ht; done. Qed.

(** An ordered query over the frames: its ids, ascending. *)
Lemma query_ids m db P `{∀ row, Decision (P row)} ids :
  frames_sim m db -> ascending ids ->
  (∀ k, k ∈ ids <-> ∃ e, jm_get k (ms_entries m) = Some e ∧ P (k, rowOf e)) ->
  map fst (orderBySequence (selectFrom (hub_messages db) P)) = ids.
Proof.
  intros Hs Hids Heq. apply ascending_unique; [apply orderBySequence_ascending, NoDup_selectFrom_keys|done|].
  intros k. rewrite Heq. split.
  - intros ([k' r] & -> & Hin)%list_elem_of_fmap. rewrite elem_of_orderBySequence, elem_of_selectFrom in Hin.
    destruct Hin as [(e & He & ->)%(frames_sim_row _ _ _ _ Hs) HP]. eauto.
  - intros (e & He & HP). apply list_elem_of_fmap. exists (k, rowOf e). split; [done|].
    rewrite elem_of_orderBySequence, elem_of_selectFrom. split; [|done].
    apply (frames_sim_row _ _ _ _ Hs). eauto.
Qed.

Lemma min_query m db P `{∀ row, Decision (P row)} ids :
  frames_sim m db -> ascending ids ->
  (∀ k, k ∈ ids <-> ∃ e, jm_get k (ms_entries m) = Some e ∧ P (k, rowOf e)) ->
  minSequence (selectFrom (hub_messages db) P) = list.head ids.
Proof.
  intros Hs Hids Heq. unfold minSequence. rewrite <- (query_ids m db P ids Hs Hids Heq).
  by destruct (orderBySequence _).
Qed.

Lemma log_of_elem m a t k :
  core_rel m a -> k ∈ log_of m t <-> ∃ e, jm_get k (ms_entries m) = Some e ∧ in_log t e.
Proof.
  intros Hm. rewrite <- (log_id_ids m a t k Hm). unfold log_id.
  destruct (jm_get k (ms_entries m)); naive_solver.
Qed.

Lemma logRows_ids m db a t : core_rel m a -> frames_sim m db -> map fst (logRows t db) = log_of m t.
Proof.
  intros Hm Hs. apply (query_ids m); [done|by eapply log_of_ascending|]. intros k.
  by rewrite (log_of_elem _ _ _ _ Hm).
Qed.

(** ** Removals *)

Lemma frames_sim_remove m db db' ids :
  frames_sim m db -> ascending ids ->
  (∀ k, hub_messages db' !! k = if decide (k ∈ ids) then None else hub_messages db !! k) ->
  (∀ k d, (k, d) ∈ hub_deliveries db' <-> (k, d) ∈ hub_deliveries db ∧ k ∉ ids) ->
  (∀ t, hub_topics db' !! t = advanceRow (last (filter (log_id m t) ids)) <$> hub_topics db !! t) ->
  frames_sim (removeAll m ids) db'.
Proof.
  intros [Hm Hd Ht] Hasc Hm' Hd' Ht'. split.
  - intros k. rewrite removeAll_get, Hm', Hm. by case_decide.
  - intros k d. rewrite removeAll_get, Hd', Hd. case_decide; naive_solver.
  - intros t. rewrite Ht', Ht, removeAll_watermark by done.
    assert (ms_heads (removeAll m ids) = ms_heads m) as ->.
    { pose proof (removeAll_rest ids m) as Hr. unfold rest_of in Hr. congruence. }
    by destruct (ms_heads m !! t).
Qed.

(** A batch of one topic's log frames, with its watermark. *)
Definition removeLog (t : string) (ids : list string) (db : DB) : DB :=
  match last ids with
  | None => db
  | Some k => advanceRemovedThrough t k (deleteFrames ids db)
  end.

Lemma frames_sim_removeLog m db t ids :
  frames_sim m db -> ascending ids -> (∀ k, k ∈ ids -> log_id m t k) ->
  frames_sim (removeAll m ids) (removeLog t ids db).
Proof.
  intros Hs Hasc Hlog. unfold removeLog. destruct (last ids) as [k|] eqn:Hk.
  2: { apply last_None in Hk as ->. done. }
  apply (frames_sim_remove _ db); [done..| | |].
  - intros k'. apply deleteFrames_messages.
  - intros k' d. apply deleteFrames_deliveries.
  - intros t'. rewrite advance_topics, deleteFrames_topics. case_decide as Ht; subst.
    + by rewrite filter_all, Hk.
    + rewrite filter_none; [by destruct (hub_topics db !! t') as [[]|]|].
      intros x Hx Hx'. specialize (Hlog x Hx). unfold log_id, in_log in *.
      destruct (jm_get x (ms_entries m)); naive_solver.
Qed.

(** *** Depth *)

(** The configuration of one store as the other's. *)
Definition hubConfig (cfg : StoreConfig) : HubStoreConfig :=
  mkHubStoreConfig (maxDepth cfg) (defaultRetention cfg) (maxRetention cfg) (maxKeyPackagesPerDID cfg)
    (maxSubscriptionsPerDID cfg).

Lemma evictDepth_sim cfg t m db a :
  store_rel m a -> frames_sim m db ->
  frames_sim (evictDepth cfg t (logDepth m t) m) (SQLStore.evictDepth (hubConfig cfg) t db).
Proof.
  intros Hm Hs. rewrite (logDepth_log m a t (proj1 Hm)). unfold SQLStore.evictDepth. simpl.
  destruct (maxDepth cfg) as [cap|] eqn:Hcap.
  2: { destruct (length _); simpl; by rewrite Hcap. }
  rewrite (evictDepth_batch _ _ _ _ _ Hm Hcap).
  pose proof (logRows_ids m db a t (proj1 Hm) Hs) as Hids.
  assert (length (logRows t db) = length (log_of m t)) as -> by by rewrite <- Hids, length_map.
  destruct (Z.leb_spec (Z.of_nat (length (log_of m t))) cap).
  { by replace (Z.to_nat _) with 0 by lia. }
  rewrite <- firstn_map. change (map fst (logRows t db)) with (map fst (logRows t db)) in Hids.
  rewrite Hids. set (ids := take _ _).
  assert (∀ db' : DB, match last ids with Some k => advanceRemovedThrough t k (deleteFrames ids db)
                        | None => deleteFrames ids db end = removeLog t ids db) as Heq.
  { intros _. unfold removeLog. destruct (last ids) eqn:E; [done|]. apply last_None in E.
    rewrite E, deleteFrames_all. apply deleteChunk_nil. }
  rewrite (Heq db). apply frames_sim_removeLog; [done|..].
  - pose proof (log_of_ascending m a t (proj1 Hm)) as Hasc.
    rewrite <- (take_drop (Z.to_nat (Z.of_nat (length (log_of m t)) - cap))) in Hasc.
    by apply ascending_app in Hasc as [? _].
  - intros k Hk. apply (log_id_ids m a t k (proj1 Hm)). by eapply subseteq_take.
Qed.

(** *** Trim *)

Lemma trim_sim t before m db a :
  store_rel m a -> frames_sim m db -> frames_sim (trim t before m) (SQLStore.trim t before db).
Proof.
  intros Hm Hs. rewrite (trim_batch t before m a Hm). unfold SQLStore.trim.
  rewrite (query_ids m db _ (filter (fun id => id <ₛ before) (log_of m t))); [|done|..].
  - apply frames_sim_removeLog; [done| |].
    + apply ascending_filter. by eapply log_of_ascending, Hm.
    + intros k [_ Hk]%list_elem_of_filter. by apply (log_id_ids m a t k (proj1 Hm)).
  - apply ascending_filter. by eapply log_of_ascending, Hm.
  - intros k. rewrite list_elem_of_filter, (log_of_elem m a t k (proj1 Hm)). unfold in_log. simpl.
    naive_solver.
Qed.

(** ** Deliveries *)

(** The statements [ack] and [unsubscribe] share: the recipient's deliveries of the ids, then the
    mailbox frames among them that nobody awaits. *)
Definition dropDeliveries (did : string) (ids : list string) (db : DB) : DB :=
  let db := set_deliveries (filter (fun row => ¬ (row.2 = did ∧ row.1 ∈ ids))) db in
  match undelivered ids db with
  | [] => db
  | orphaned => deleteMailbox orphaned db
  end.

Lemma elem_of_undelivered ids db k :
  k ∈ undelivered ids db <-> k ∈ ids ∧ ∀ d, (k, d) ∉ hub_deliveries db.
Proof.
  unfold undelivered. rewrite list_elem_of_filter. split.
  - intros [Hk Hin]. split; [done|]. intros d Hd. apply Hk, list_elem_of_fmap. exists (k, d).
    by rewrite elem_of_selectDeliveries.
  - intros [Hin Hd]. split; [|done].
    intros ([k' d] & -> & [Hk _]%elem_of_selectDeliveries)%list_elem_of_fmap. by apply (Hd d).
Qed.

Lemma dropDeliveries_deliveries did ids db k d :
  (k, d) ∈ hub_deliveries (dropDeliveries did ids db) <->
  (k, d) ∈ hub_deliveries db ∧ ¬ (d = did ∧ k ∈ ids).
Proof.
  assert (hub_deliveries (dropDeliveries did ids db) =
    filter (fun row => ¬ (row.2 = did ∧ row.1 ∈ ids)) (hub_deliveries db)) as ->.
  { unfold dropDeliveries. by case_match. }
  rewrite elem_of_filter. naive_solver.
Qed.

Lemma dropDeliveries_topics did ids db : hub_topics (dropDeliveries did ids db) = hub_topics db.
Proof. unfold dropDeliveries. by case_match. Qed.

Lemma dropDeliveries_messages did ids db k r :
  hub_messages (dropDeliveries did ids db) !! k = Some r <->
  hub_messages db !! k = Some r ∧
  ¬ (retain r = Mailbox ∧ k ∈ ids ∧ ∀ d, (k, d) ∈ hub_deliveries db -> d = did).
Proof.
  set (db' := set_deliveries (filter (fun row => ¬ (row.2 = did ∧ row.1 ∈ ids))) db).
  assert (k ∈ undelivered ids db' <-> k ∈ ids ∧ ∀ d, (k, d) ∈ hub_deliveries db -> d = did) as Hund.
  { rewrite elem_of_undelivered. simpl. split; intros [Hin Hd]; (split; [done|]); intros d.
    - intros Hk. specialize (Hd d). rewrite elem_of_filter in Hd. simpl in Hd.
      destruct (decide (d = did)); [done|]. naive_solver.
    - rewrite elem_of_filter. simpl. naive_solver. }
  assert (hub_messages (dropDeliveries did ids db) =
    filter (fun row => ¬ (row.1 ∈ undelivered ids db' ∧ retain row.2 = Mailbox)) (hub_messages db)) as ->.
  { unfold dropDeliveries. fold db'. destruct (undelivered ids db'); [|done].
    symmetry. apply map_filter_id. intros ? ? _ [[]%not_elem_of_nil _]. }
  rewrite map_lookup_filter_Some. simpl. rewrite Hund. naive_solver.
Qed.

(** The entry is gone exactly when nobody else awaits the frame. *)
Lemma ackEntry_gone d e :
  NoDup (le_pendingFor e) ->
  ackEntry d e = None <-> le_retain e = Mailbox ∧ ∀ d', d' ∈ le_pendingFor e -> d' = d.
Proof.
  intros Hnd. unfold ackEntry. simpl. rewrite splice_out_filter by done.
  assert (filter (fun y => y ≠ d) (le_pendingFor e) = [] <-> ∀ d', d' ∈ le_pendingFor e -> d' = d) as Hnil.
  { split.
    - intros Hf d' Hd'. destruct (decide (d' = d)); [done|]. exfalso.
      apply (not_elem_of_nil d'). rewrite <- Hf. by apply list_elem_of_filter.
    - intros Hall. apply filter_none. intros x Hx Hne. by apply Hne, Hall. }
  case_decide as Hd; rewrite Hnil in Hd; naive_solver.
Qed.

Lemma ackEntry_Some d e e' :
  NoDup (le_pendingFor e) -> ackEntry d e = Some e' ->
  rowOf e' = rowOf e ∧ ∀ d', d' ∈ le_pendingFor e' <-> d' ∈ le_pendingFor e ∧ d' ≠ d.
Proof.
  intros Hnd. unfold ackEntry. case_decide; [done|]. intros [= <-]. split; [done|]. intros d'. simpl.
  rewrite splice_out_filter, list_elem_of_filter by done. naive_solver.
Qed.

Lemma frames_sim_drop m m' db a did ids :
  core_rel m a -> frames_sim m db ->
  (∀ k, jm_get k (ms_entries m') =
    jm_get k (ms_entries m) ≫= fun e => if decide (k ∈ ids) then ackEntry did e else Some e) ->
  ms_heads m' = ms_heads m -> ms_removedThrough m' = ms_removedThrough m ->
  frames_sim m' (dropDeliveries did ids db).
Proof.
  intros Hm Hs He Hh Hr. split.
  - intros k. apply option_eq. intros r. rewrite dropDeliveries_messages, (frames_sim_row _ _ _ _ Hs), He.
    setoid_rewrite (fs_deliveries _ _ Hs).
    destruct (jm_get k (ms_entries m)) as [e|] eqn:Hk; simpl; [|naive_solver].
    pose proof (entry_NoDup _ _ _ _ Hm Hk) as Hnd. case_decide as Hin; [|simpl; naive_solver].
    pose proof (ackEntry_gone did e Hnd) as Hgone. destruct (ackEntry did e) as [e'|] eqn:Ha; simpl.
    + destruct (ackEntry_Some _ _ _ Hnd Ha) as [-> _]. split; [naive_solver|]. intros [= <-].
      split; [by eauto|]. intros (Hmb & _ & Hd). enough (Some e' = None) by done.
      apply Hgone. naive_solver.
    + destruct (proj1 Hgone eq_refl) as [Hmb Hd]. split; [|done]. intros [(e0 & [= <-] & ->) Hn].
      destruct Hn. naive_solver.
  - intros k d. rewrite dropDeliveries_deliveries, (fs_deliveries _ _ Hs), He.
    destruct (jm_get k (ms_entries m)) as [e|] eqn:Hk; simpl; [|naive_solver].
    pose proof (entry_NoDup _ _ _ _ Hm Hk) as Hnd. case_decide as Hin; [|naive_solver].
    pose proof (ackEntry_gone did e Hnd) as Hgone. destruct (ackEntry did e) as [e'|] eqn:Ha.
    + destruct (ackEntry_Some _ _ _ Hnd Ha) as [_ Hp]. split.
      * intros [(e0 & [= <-] & Hd) Hn]. exists e'. rewrite Hp. naive_solver.
      * intros (e0 & [= <-] & Hd%Hp). naive_solver.
    + destruct (proj1 Hgone eq_refl) as [Hmb Hd]. naive_solver.
  - intros t. by rewrite dropDeliveries_topics, (fs_topics _ _ Hs), Hh, Hr.
Qed.

Lemma ack_sim did ids m db a :
  store_rel m a -> frames_sim m db -> frames_sim (ack did ids m) (SQLStore.ack did ids db).
Proof.
  intros Hm Hs. destruct ids as [|id ids]; [done|].
  change (SQLStore.ack did (id :: ids) db) with (dropDeliveries did (id :: ids) db).
  eapply frames_sim_drop; [apply Hm|done| |..].
  - intros k. rewrite (ack_entries did _ m a k Hm). case_decide; [done|].
    by destruct (jm_get k (ms_entries m)).
  - pose proof (ack_rest did (id :: ids) m) as Hr. unfold rest_of in Hr. congruence.
  - apply ack_watermark.
Qed.

Lemma unsubscribe_sim did t m db a :
  store_rel m a -> frames_sim m db -> frames_sim (unsubscribe did t m) (SQLStore.unsubscribe did t db).
Proof.
  intros Hm Hs. unfold SQLStore.unsubscribe.
  set (db1 := set_subscriptions _ db). assert (frames_sim m db1) as Hs1 by by eapply frames_sim_frame.
  set (ids := map fst (filter _ _)).
  assert (∀ k, k ∈ ids <-> ∃ e, jm_get k (ms_entries m) = Some e ∧ le_topicID e = t ∧ did ∈ le_pendingFor e) as Hids.
  { intros k. unfold ids. rewrite list_elem_of_fmap. split.
    - intros ([k' r] & -> & [Ht [Hd Hr]%elem_of_pendingRows]%list_elem_of_filter).
      apply (frames_sim_row _ _ _ _ Hs1) in Hr as (e & He & ->).
      apply (fs_deliveries _ _ Hs1) in Hd as (e' & He' & Hd). simpl in *. exists e. naive_solver.
    - intros (e & He & Ht & Hd). exists (k, rowOf e). split; [done|]. apply list_elem_of_filter.
      split; [done|]. apply elem_of_pendingRows. split.
      + apply (fs_deliveries _ _ Hs1). eauto.
      + apply (frames_sim_row _ _ _ _ Hs1). eauto. }
  assert (frames_sim (unsubscribe did t m) (dropDeliveries did ids db1)) as Hsim.
  { eapply frames_sim_drop; [apply Hm|done| |..].
    - intros k. rewrite (unsubscribe_entries did t m a k Hm).
      destruct (jm_get k (ms_entries m)) as [e|] eqn:He; simpl; [|done]. unfold leaveEntry.
      repeat case_decide; naive_solver.
    - pose proof (unsubscribe_rest did t m) as Hr. unfold rest_of in Hr. simpl in Hr. congruence.
    - apply unsubscribe_watermark. }
  destruct ids; [|done]. eapply frames_sim_frame; [exact Hsim|done..| | |];
    unfold dropDeliveries; simpl; [done| |done].
  apply set_eq. intros x. rewrite elem_of_filter. set_solver.
Qed.

(** ** Pages *)

Lemma toStoredMessage_rowOf k e : le_sequenceID e = k -> toStoredMessage (k, rowOf e) = asStoredMessage e.
Proof. by intros <-. Qed.

(** The rows of a query are the entries of their ids. *)
Lemma messages_of_rows m a rows :
  core_rel m a ->
  (∀ k r, (k, r) ∈ rows -> ∃ e, jm_get k (ms_entries m) = Some e ∧ r = rowOf e) ->
  map toStoredMessage rows = messagesOf m (map fst rows).
Proof.
  intros Hm. induction rows as [|[k r] rows IH]; intros Hrows; [done|].
  destruct (Hrows k r ltac:(by left)) as (e & He & ->). unfold messagesOf in *. cbn. rewrite He. simpl.
  f_equal; [|apply IH; intros; apply Hrows; by right].
  apply toStoredMessage_rowOf, (ew_key _ (sr_entries _ _ Hm)). by apply jm_get_elem.
Qed.

Lemma frames_sim_rows m db P `{∀ row, Decision (P row)} n k r :
  frames_sim m db -> (k, r) ∈ take n (orderBySequence (selectFrom (hub_messages db) P)) ->
  ∃ e, jm_get k (ms_entries m) = Some e ∧ r = rowOf e.
Proof.
  intros Hs Hin%subseteq_take. rewrite elem_of_orderBySequence, elem_of_selectFrom in Hin.
  destruct Hin as [Hin _]. by apply (frames_sim_row m db k r Hs) in Hin.
Qed.

(** What [fetch] reads after its acks. *)
Lemma pending_query m db a did after :
  store_rel m a -> frames_sim m db ->
  let rows := orderBySequence (filter (past after) (pendingRows did db)) in
  map fst rows = match after with
                 | None => pending m did
                 | Some after => sliceAfter after (pending m did)
                 end ∧
  ∀ k r, (k, r) ∈ rows -> ∃ e, jm_get k (ms_entries m) = Some e ∧ r = rowOf e.
Proof.
  intros Hm Hs rows. pose proof (pending_ascending m a did Hm) as Hasc.
  assert (∀ k r, (k, r) ∈ rows <-> past after (k, r) ∧ (k, did) ∈ hub_deliveries db ∧
    ∃ e, jm_get k (ms_entries m) = Some e ∧ r = rowOf e) as Hrows.
  { intros k r. unfold rows. rewrite elem_of_orderBySequence, list_elem_of_filter, elem_of_pendingRows.
    by rewrite (frames_sim_row _ _ _ _ Hs). }
  split; [|intros k r; rewrite Hrows; naive_solver].
  apply ascending_unique.
  - apply orderBySequence_ascending, NoDup_filter_fst, NoDup_pendingRows.
  - destruct after; [|done]. rewrite sliceAfter_filter by done. by apply ascending_filter.
  - intros k.
    assert (k ∈ match after with None => pending m did | Some after => sliceAfter after (pending m did) end <->
      match after with None => True | Some after => after <ₛ k end ∧ k ∈ pending m did) as ->.
    { destruct after; [|naive_solver]. by rewrite sliceAfter_filter, list_elem_of_filter. }
    rewrite (pending_entry m a did k Hm). split.
    + intros ([k' r] & -> & Hin)%list_elem_of_fmap. apply Hrows in Hin as (Hp & Hd & e & He & ->).
      apply (fs_deliveries _ _ Hs) in Hd. by split.
    + intros (Hp & e & He & Hd). apply list_elem_of_fmap. exists (k, rowOf e). split; [done|].
      apply Hrows. split_and!; [done| |by eauto]. apply (fs_deliveries _ _ Hs). eauto.
Qed.

Lemma fetch_sim params m db a :
  store_rel m a -> frames_sim m db ->
  (SQLStore.fetch params db).2 = (fetch params m).2 ∧
  frames_sim (fetch params m).1 (SQLStore.fetch params db).1.
Proof.
  intros Hm Hs. unfold SQLStore.fetch, fetch.
  set (m1 := match fp_ack params with Some ids => ack (fp_recipientDID params) ids m | None => m end).
  set (db1 := match fp_ack params with Some (id :: ids) => _ | _ => db end).
  assert (store_rel m1 a ∧ frames_sim m1 db1) as [Hm1 Hs1].
  { unfold m1, db1. destruct (fp_ack params) as [[|id ids]|]; [done| |done].
    split; [by apply ack_rel|by eapply ack_sim]. }
  clearbody m1 db1. clear Hm Hs.
  destruct (pending_query m1 db1 a (fp_recipientDID params) (fp_after params) Hm1 Hs1) as [Hids Hrows].
  fold (queue (ms_deliveries m1) (fp_recipientDID params)).
  change (queue (ms_deliveries m1) (fp_recipientDID params)) with (pending m1 (fp_recipientDID params)).
  cbv zeta. rewrite <- Hids. set (rows := orderBySequence _) in *. clearbody rows. clear Hids.
  assert (∀ n, map toStoredMessage (take n rows) = messagesOf m1 (take n (map fst rows))) as Htake.
  { intros n. rewrite firstn_map. eapply messages_of_rows; [apply Hm1|].
    intros k r Hin%subseteq_take. by apply Hrows. }
  rewrite length_map. destruct (fp_limit params) as [limit|]; cbn [from_option fst snd]; unfold id.
  - split; [|by case_match].
    assert ((limit <? length (take (limit + 1) rows)) = (limit <? length rows)) as ->.
    { rewrite length_take. apply eq_true_iff_eq. rewrite !Nat.ltb_lt. lia. }
    destruct (Nat.ltb_spec limit (length rows)); cbn [snd].
    + rewrite take_take, Nat.min_l, Htake by lia. done.
    + rewrite <- Htake, (take_ge rows (limit + 1)), (take_ge rows limit) by lia. done.
  - split; [|done]. rewrite Nat.ltb_irrefl, <- Htake, take_ge by done. done.
Qed.

Lemma fetchTopic_sim params m db a :
  store_rel m a -> frames_sim m db ->
  (is_Some (hub_subscriptions db !! (ft_topicID params, ft_subscriberDID params)) <->
    isSubscribed m (ft_topicID params) (ft_subscriberDID params) = true) ->
  SQLStore.fetchTopic params db =
    match fetchTopic params m with
    | Ok r => Ok r
    | Err c => Err (HubError c "")
    end.
Proof.
  intros Hm Hs Hsub. unfold SQLStore.fetchTopic, fetchTopic.
  destruct (hub_subscriptions db !! _) as [row|].
  2: { destruct (isSubscribed _ _ _); [|done]. by destruct (proj2 Hsub eq_refl). }
  rewrite (proj1 Hsub) by done. cbn [negb]. rewrite (log_ids m a _ (proj1 Hm)).
  set (t := ft_topicID params). rewrite (fs_topics _ _ Hs). cbv zeta.
  pose proof (log_of_ascending m a t (proj1 Hm)) as Hasc.
  assert (∀ k, k ∈ log_of m t <-> ∃ e, jm_get k (ms_entries m) = Some e ∧
    topic_id (k, rowOf e).2 = t ∧ retain (k, rowOf e).2 = Log) as Hlog
    by (intros k; apply (log_of_elem m a t k), Hm).
  rewrite (min_query m db _ _ Hs Hasc Hlog).
  set (rows := orderBySequence _).
  assert (map fst rows = match ft_after params with
                         | None => log_of m t
                         | Some after => filter (fun id => after <ₛ id) (log_of m t)
                         end) as Hids.
  { apply (query_ids m); [done| |].
    - destruct (ft_after params); [by apply ascending_filter|done].
    - intros k. destruct (ft_after params); rewrite ?list_elem_of_filter, Hlog; simpl; naive_solver. }
  assert (∀ n, map toStoredMessage (take n rows) = messagesOf m (take n (map fst rows))) as Htake.
  { intros n. rewrite firstn_map. eapply messages_of_rows; [apply Hm|]. intros k r.
    by apply frames_sim_rows. }
  do 2 f_equal.
  - rewrite <- Hids. destruct (ft_limit params) as [n|]; [by rewrite Htake|].
    rewrite <- (take_ge rows (length rows)) at 1 by done. by rewrite Htake, take_ge by by rewrite length_map.
  - by destruct (ms_heads m !! t).
  - destruct (ms_heads m !! t) as [h|] eqn:Hh; simpl; [done|].
    destruct (sr_logs _ _ (proj1 Hm) t) as [_ _ Hhead Hrem _]. rewrite Hh in Hhead. unfold tl_head in Hhead.
    symmetry in Hhead. rewrite (tl_split (a t)), positions_app, last_app in Hhead.
    rewrite Hrem. destruct (last (positions (tl_live (a t)))); [done|]. by rewrite Hhead.
Qed.
End sim.
