(* ===== verification/SQLStorePurge.v ===== *)
(** * The age sweep of the SQL store

    [purge] of store.ts removes one topic per transaction; its effect is one removal of the ids the
    in-memory store's single scan would remove. *)

From S2P Require Import Prelude SeqID HubProtocol HubSpec SQLStore SQLStoreFacts MemoryStore MemoryStoreFacts MemoryStoreSpec StoreBatches SQLStoreSim.

Lemma elem_of_concat_map {A B} (f : A -> list B) l x : x ∈ concat (map f l) <-> ∃ y, y ∈ l ∧ x ∈ f y.
Proof.
  induction l as [|y l IH]; simpl; [set_solver|]. rewrite elem_of_app, IH. set_solver.
Qed.

Lemma NoDup_concat_map {A B} (f : A -> list B) l :
  NoDup l -> (∀ y, NoDup (f y)) -> (∀ y y' x, x ∈ f y -> x ∈ f y' -> y = y') -> NoDup (concat (map f l)).
Proof.
  intros Hl Hf Hinj. induction Hl as [|y l Hy Hl IH]; simpl; [constructor|]. apply NoDup_app.
  split_and!; [done| |done]. intros x Hx (y' & Hy' & Hx')%elem_of_concat_map.
  by rewrite (Hinj y y' x) in Hy.
Qed.

Lemma and_iff_under (A B C : Prop) : (A -> B <-> C) -> A ∧ B <-> A ∧ C.
Proof. tauto. Qed.

(** The tables a removal leaves alone. *)
Definition other_tables (db : DB) :=
  (hub_key_packages db, hub_key_packages_id db, hub_last_resort_key_packages db, hub_subscriptions db,
   hub_sequence db, hub_publish_ids db).

Section purge.
Context `{EngineLaws}.

(** ** The topics, one after the other *)

Section sweep.
Context (cfg : HubStoreConfig) (now olderThan : Z) (ret : string -> Z).

Definition thresholdOf (t : string) : Z :=
  now - Z.max olderThan (Z.max (ret t) (hc_defaultRetention cfg)) * 1000.

Definition batch (db : DB) (t : string) : list (string * MessageRow) := dueFrames (thresholdOf t) t db.
Definition batchIDs (db : DB) (t : string) : list string := map fst (batch db t).
Definition lastLog (db : DB) (t : string) : option string :=
  last (map fst (filter (fun row => retain row.2 = Log) (batch db t))).

Definition sweepOne : DB * list string -> string -> DB * list string := fun '(db, removed) topicID =>
  let '(db, ids) := purgeTopic cfg now olderThan (ret topicID) topicID db in (db, removed ++ ids).

Lemma query_frame (t1 t2 : gmap string MessageRow) P `{∀ row, Decision (P row)} :
  (∀ k r, P (k, r) -> t1 !! k = Some r <-> t2 !! k = Some r) ->
  orderBySequence (selectFrom t1 P) = orderBySequence (selectFrom t2 P).
Proof.
  intros Heq. apply orderBySequence_is; [apply NoDup_selectFrom_keys| |].
  - apply orderBySequence_ascending, NoDup_selectFrom_keys.
  - intros [k r]. rewrite elem_of_orderBySequence, !elem_of_selectFrom. specialize (Heq k r). tauto.
Qed.

(** A topic's batch depends on its own frames and head. *)
Lemma batch_frame db db' t :
  (∀ k r, topic_id r = t -> hub_messages db' !! k = Some r <-> hub_messages db !! k = Some r) ->
  headOf db' t = headOf db t -> batch db' t = batch db t.
Proof.
  intros Hm Hh. unfold batch, dueFrames, minSequence. rewrite Hh.
  rewrite (query_frame (hub_messages db') (hub_messages db)
             (fun row => topic_id row.2 = t ∧ retain row.2 = Log ∧ (thresholdOf t < stored_at row.2)%Z))
    by (intros k r (Ht & _); by apply Hm).
  apply query_frame. intros k r [Ht _]. by apply Hm.
Qed.

Lemma batch_topic db t k r : (k, r) ∈ batch db t -> hub_messages db !! k = Some r ∧ topic_id r = t.
Proof.
  unfold batch, dueFrames. rewrite elem_of_orderBySequence, elem_of_selectFrom. naive_solver.
Qed.

Record swept (db : DB) (ts : list string) (db' : DB) : Prop := {
  sw_messages : ∀ k, hub_messages db' !! k =
    if decide (k ∈ concat (map (batchIDs db) ts)) then None else hub_messages db !! k;
  sw_deliveries : ∀ k d, (k, d) ∈ hub_deliveries db' <->
    (k, d) ∈ hub_deliveries db ∧ k ∉ concat (map (batchIDs db) ts);
  sw_topics : ∀ t, hub_topics db' !! t =
    if decide (t ∈ ts) then advanceRow (lastLog db t) <$> hub_topics db !! t else hub_topics db !! t;
  sw_others : other_tables db' = other_tables db;
}.

Lemma purgeTopic_swept db t :
  swept db [t] (purgeTopic cfg now olderThan (ret t) t db).1 ∧
  (purgeTopic cfg now olderThan (ret t) t db).2 = batchIDs db t.
Proof.
  unfold purgeTopic. fold (thresholdOf t). fold (batch db t). fold (batchIDs db t). fold (lastLog db t).
  split; [|done]. cbn [fst]. pose proof (deleteFrames_messages (batchIDs db t) db) as Hm.
  pose proof (deleteFrames_deliveries (batchIDs db t) db) as Hd.
  assert (concat (map (batchIDs db) [t]) = batchIDs db t) as Hc by apply app_nil_r.
  split; rewrite ?Hc.
  - intros k. rewrite <- Hm. by destruct (lastLog db t).
  - intros k d. rewrite <- Hd. by destruct (lastLog db t).
  - intros t'. destruct (lastLog db t) as [k|] eqn:Hk; rewrite ?advance_topics, deleteFrames_topics;
      repeat case_decide; subst; try done; try set_solver.
    + by rewrite Hk.
    + match goal with Hin : t' ∈ [t] |- _ => apply list_elem_of_singleton in Hin as -> end.
      rewrite Hk. by destruct (hub_topics db !! t) as [[]|].
  - rewrite deleteFrames_all. by destruct (lastLog db t).
Qed.

Lemma swept_batch db ts db' t : swept db ts db' -> t ∉ ts -> batch db' t = batch db t.
Proof.
  intros [Hm _ Ht _] Hnot. apply batch_frame.
  - intros k r Hr. rewrite Hm. case_decide as Hin; [|done]. split; [done|]. intros Hk.
    apply elem_of_concat_map in Hin as (t' & Ht' & ([k' r'] & -> & Hb%batch_topic)%list_elem_of_fmap).
    simpl in Hk. destruct Hb as [Hb Htop]. congruence.
  - unfold headOf. rewrite Ht. by rewrite decide_False.
Qed.

Lemma sweep_swept ts db acc :
  NoDup ts ->
  swept db ts (foldl sweepOne (db, acc) ts).1 ∧
  (foldl sweepOne (db, acc) ts).2 = acc ++ concat (map (batchIDs db) ts).
Proof.
  intros Hnd. revert db acc. induction Hnd as [|t ts Ht Hnd IH]; intros db acc; cbn [foldl].
  { rewrite app_nil_r. split; [|done]. cbn [fst]. split; [| | |done].
    - intros k. rewrite decide_False; [done|]. apply not_elem_of_nil.
    - intros k d. split; [|by intros [? _]]. intros ?. split; [done|]. apply not_elem_of_nil.
    - intros t. rewrite decide_False; [done|]. apply not_elem_of_nil. }
  pose proof (purgeTopic_swept db t) as [Hone Hids]. unfold sweepOne at 2 4.
  destruct (purgeTopic cfg now olderThan (ret t) t db) as [db1 ids]. simpl in Hone, Hids. subst ids.
  destruct (IH db1 (acc ++ batchIDs db t)) as [Hrest Hacc]. clear IH.
  assert (∀ t', t' ∈ ts -> batch db1 t' = batch db t') as Hb.
  { intros t' Ht'. eapply swept_batch; [done|]. intros ->%list_elem_of_singleton. done. }
  assert (map (batchIDs db1) ts = map (batchIDs db) ts) as Hmap.
  { apply map_ext_in. intros t' Ht'%list_elem_of_In. unfold batchIDs. by rewrite Hb. }
  rewrite Hacc, Hmap, <- app_assoc. split; [|done].
  destruct Hone as [Hm1 Hd1 Ht1 Ho1], Hrest as [Hm2 Hd2 Ht2 Ho2]. simpl in Hm1, Hd1.
  rewrite app_nil_r in *. rewrite Hmap in *. split; cbn [map concat].
  - intros k. rewrite Hm2, Hm1. repeat case_decide; rewrite ?elem_of_app in *; naive_solver.
  - intros k d. rewrite Hd2, Hd1, elem_of_app. naive_solver.
  - intros t'. rewrite Ht2, Ht1.
    destruct (decide (t' = t)) as [->|Hne]; [by rewrite decide_False, !decide_True by set_solver|].
    rewrite (decide_False (P := t' ∈ [t])) by set_solver. case_decide as Hin.
    + rewrite decide_True by set_solver. unfold lastLog. by rewrite Hb.
    + by rewrite decide_False by set_solver.
  - by rewrite Ho2.
Qed.
End sweep.

(** ** The retentions *)

(** The subscriptions of the two stores. *)
Definition subs_sim (m : MemStore) (db : DB) : Prop :=
  ∀ t d, retention <$> hub_subscriptions db !! (t, d) = jm_get d (subs_of m t).

Lemma foldl_max_le l r z : (foldl Z.max r l <= z)%Z <-> (r <= z)%Z ∧ ∀ x, x ∈ l -> (x <= z)%Z.
Proof.
  revert r. induction l as [|y l IH]; intros r; cbn [foldl]; [set_solver by lia|].
  rewrite IH, Z.max_lub_iff. setoid_rewrite elem_of_cons. naive_solver.
Qed.

Lemma retentionOf_le cfg m t old z :
  (retentionOf cfg m t old <= z)%Z <->
  (old <= z)%Z ∧ (defaultRetention cfg <= z)%Z ∧ ∀ d r, (d, r) ∈ subs_of m t -> (r <= z)%Z.
Proof.
  unfold retentionOf. fold (subs_of m t).
  assert (∀ l r, foldl (fun r (sub : string * Z) => if (r <? sub.2)%Z then sub.2 else r) r l =
    foldl Z.max r (map snd l)) as ->.
  { induction l as [|[d x] l IH]; intros r; cbn [foldl map]; [done|]. rewrite IH. simpl. f_equal.
    destruct (Z.ltb_spec r x); lia. }
  rewrite foldl_max_le, Z.max_lub_iff. setoid_rewrite list_elem_of_fmap. split.
  - intros [[? ?] Hall]. split_and!; [done..|]. intros d r Hin. apply Hall. by exists (d, r).
  - intros (? & ? & Hall). split; [done|]. intros x ([d r] & -> & Hin). by eapply Hall.
Qed.

Lemma retentionByTopic_le db t z :
  (0 <= z)%Z ->
  (retentionByTopic db t <= z)%Z <->
  ∀ d row, hub_subscriptions db !! (t, d) = Some row -> (retention row <= z)%Z.
Proof.
  intros Hz. unfold retentionByTopic.
  set (rows := selectFrom _ _).
  assert (∀ d row, hub_subscriptions db !! (t, d) = Some row <-> ((t, d), row) ∈ rows) as Hrows.
  { intros d row. unfold rows. rewrite elem_of_selectFrom. naive_solver. }
  assert (∀ k row, (k, row) ∈ rows -> k.1 = t) as Hkey.
  { intros k row. unfold rows. rewrite elem_of_selectFrom. naive_solver. }
  setoid_rewrite Hrows. destruct rows as [|[[t0 d0] row0] rows]; cbn [map].
  { split; [|done]. intros _ d row []%not_elem_of_nil. }
  assert (t0 = t) as -> by apply (Hkey (t0, d0) row0 ltac:(by left)).
  rewrite foldl_max_le. setoid_rewrite list_elem_of_fmap. split.
  - intros [H1 H2] d row [[= -> ->]|Hin]%elem_of_cons; [done|]. apply H2. by exists ((t, d), row).
  - intros Hall. split; [apply (Hall d0); by left|]. intros x ([[t1 d1] row1] & -> & Hin).
    assert (t1 = t) as -> by apply (Hkey (t1, d1) row1 ltac:(by right)). apply (Hall d1). by right.
Qed.

(** The retention [purge] holds a topic's frames to is the same in both. *)
Lemma retention_same cfg m db t old :
  (0 <= defaultRetention cfg)%Z -> subs_wf m -> subs_sim m db ->
  Z.max old (Z.max (retentionByTopic db t) (defaultRetention cfg)) = retentionOf cfg m t old.
Proof.
  intros Hdef Hwf Hs.
  assert (∀ z, (0 <= z)%Z -> (retentionByTopic db t <= z)%Z <-> ∀ d r, (d, r) ∈ subs_of m t -> (r <= z)%Z)
    as Hret.
  { intros z Hz. rewrite retentionByTopic_le by done. split.
    - intros Hall d r Hin. apply jm_get_Some in Hin; [|apply (sw_NoDup _ Hwf)]. rewrite <- Hs in Hin.
      destruct (hub_subscriptions db !! (t, d)) as [row|] eqn:Hrow; simplify_eq/=. eauto.
    - intros Hall d row Hrow. apply (Hall d). apply jm_get_elem. by rewrite <- Hs, Hrow. }
  apply Z.le_antisymm.
  - pose proof (proj1 (retentionOf_le cfg m t old _) (Z.le_refl _)) as (Hold & Hd & Hall).
    rewrite !Z.max_lub_iff. split_and!; [done| |done]. apply Hret; [lia|done].
  - apply retentionOf_le. split_and!; [lia..|]. apply Hret; lia.
Qed.

(** ** One topic's batch *)

(** The id names a frame of the topic. *)
Definition topic_frame (m : MemStore) (t id : string) : Prop :=
  match jm_get id (ms_entries m) with Some e => le_topicID e = t | None => False end.

#[export] Instance topic_frame_dec m t id : Decision (topic_frame m t id).
Proof. unfold topic_frame. destruct (jm_get _ _); apply _. Defined.

(** Every log frame is at or below its topic's head. *)
Lemma log_head m a t k :
  core_rel m a -> k ∈ log_of m t -> ∃ h, ms_heads m !! t = Some h ∧ k ≤ₛ h.
Proof.
  intros Hm Hk. destruct (sr_logs _ _ Hm t) as [Hwf Hlive Hhead _ _].
  rewrite <- (log_frames_positions t _ (sr_entries _ _ Hm)), Hlive in Hk.
  destruct (tl_steps_head (a t) (a t) k Hwf) as (h & Hh & ?); [done| |].
  - rewrite (tl_split (a t)), positions_app. set_solver.
  - exists h. by rewrite Hhead.
Qed.

Definition undue (cfg : StoreConfig) (m : MemStore) (now old : Z) (t : string) (e : LogEntry) : Prop :=
  in_log t e ∧ ¬ due cfg m now old e.

#[export] Instance undue_dec cfg m now old t e : Decision (undue cfg m now old t e).
Proof. unfold undue. apply _. Defined.

(** [k <ₛ min] for the least of an ascending list. *)
Lemma below_head k ids :
  ascending ids ->
  match list.head ids with None => true | Some kept => bool_decide (k <ₛ kept) end = true <->
  ∀ x, x ∈ ids -> k <ₛ x.
Proof.
  intros Hasc. destruct ids as [|y ids]; simpl; [set_solver|]. rewrite bool_decide_eq_true.
  apply ascending_cons_inv in Hasc as [_ Hy]. split.
  - intros Hk x [->|Hx]%elem_of_cons; [done|]. etrans; [done|by apply Hy].
  - intros Hall. apply Hall. by left.
Qed.

(** A log frame goes when every frame that stays is newer. *)
Lemma purges_log cfg m now old t k e :
  entries_wf (ms_entries m) -> jm_get k (ms_entries m) = Some e -> in_log t e ->
  purges cfg m now old (ms_entries m) k e <->
  ∀ x, x ∈ ids_where (undue cfg m now old t) (ms_entries m) -> k <ₛ x.
Proof.
  intros Hwf He [Ht Hr]. pose proof (entries_wf_NoDup _ Hwf) as Hnd. unfold purges. rewrite Ht. split.
  - intros [Hd Hall] x (e' & Hx & Hlog & Hnot)%elem_of_ids_where.
    destruct (decide (k <ₛ x)) as [|Hnlt]; [done|]. exfalso. apply Hnot.
    apply not_slt in Hnlt. destruct (sle_lt_or_eq _ _ Hnlt) as [Hlt| ->]; [by eapply Hall|].
    apply jm_get_Some in Hx; [|done]. by replace e' with e by congruence.
  - intros Hb.
    assert (∀ x e', (x, e') ∈ ms_entries m -> in_log t e' -> x ≤ₛ k -> due cfg m now old e') as Hprefix.
    { intros x e' Hx Hlog Hle. destruct (decide (due cfg m now old e')) as [|Hnot]; [done|]. exfalso.
      apply (slt_irrefl k). eapply slt_sle_trans; [|exact Hle]. apply Hb, elem_of_ids_where.
      exists e'. split; [done|by split]. }
    split; [apply (Hprefix k); [by apply jm_get_elem|done|reflexivity]|].
    intros _ x e' Hx Hlog Hlt. eapply Hprefix; [done..|by apply slt_sle].
Qed.

Lemma purges_mailbox cfg m now old es k e :
  le_retain e = Mailbox -> purges cfg m now old es k e <-> due cfg m now old e.
Proof. intros Hr. unfold purges. rewrite Hr. naive_solver. Qed.

Lemma batch_ids cfg m db a now old ret t :
  store_rel m a -> frames_sim m db ->
  Z.max old (Z.max (ret t) (defaultRetention cfg)) = retentionOf cfg m t old ->
  batchIDs (hubConfig cfg) now old ret db t =
    filter (topic_frame m t) (purgeable cfg m now old ∅ (ms_entries m)).
Proof.
  intros [Hm _] Hs Hret. pose proof (sr_entries _ _ Hm) as Hwf.
  assert (∀ k e, jm_get k (ms_entries m) = Some e <-> (k, e) ∈ ms_entries m) as Hget.
  { intros k e. apply jm_get_Some, entries_wf_NoDup, Hwf. }
  set (ids := ids_where (undue cfg m now old t) (ms_entries m)).
  assert (ascending ids) as Hids by (apply ids_where_ascending, Hwf).
  unfold batchIDs, batch, dueFrames, thresholdOf. simpl. rewrite Hret, (frames_sim_head _ _ _ Hs).
  rewrite (min_query m db _ ids Hs Hids).
  2: { intros k. unfold ids. rewrite elem_of_ids_where. setoid_rewrite Hget. unfold undue, in_log, due.
       split; intros (e & He & Hp); exists e; (split; [done|]); simpl in *.
       - destruct Hp as [[<- Hr] Hd]. split_and!; [done..|lia].
       - destruct Hp as (<- & Hr & Hd). split_and!; [done..|lia]. }
  apply (query_ids m); [done|by apply ascending_filter, purgeable_ascending, Hwf|].
  intros k. rewrite list_elem_of_filter, purgeable_spec by apply Hwf. setoid_rewrite <- Hget.
  unfold topic_frame. destruct (jm_get k (ms_entries m)) as [e|] eqn:He; [|naive_solver].
  assert (∀ P : LogEntry -> Prop, (∃ e0, Some e = Some e0 ∧ P e0) <-> P e) as Hex by naive_solver.
  rewrite !Hex. simpl. clear Hex. apply and_iff_under. intros Ht.
  transitivity (purges cfg m now old (ms_entries m) k e); [set_solver|].
  destruct (le_retain e) eqn:Hr.
  - rewrite (purges_log cfg m now old t) by done. fold ids.
    destruct (log_head m a t k Hm) as (h & -> & Hle).
    { apply (log_of_elem m a t k Hm). by exists e. }
    rewrite (bool_decide_false (Log = Mailbox)), (bool_decide_true (Log = Log)) by done. simpl.
    rewrite bool_decide_true by done. symmetry. by apply below_head.
  - rewrite purges_mailbox by done. unfold due. rewrite Ht.
    rewrite (bool_decide_true (Mailbox = Mailbox)), (bool_decide_false (Mailbox = Log)) by done. simpl.
    destruct (ms_heads m !! t); rewrite ?orb_false_r, Z.leb_le; done.
Qed.

(** ** The sweep *)

Lemma topicsWithFrames_spec db :
  NoDup (topicsWithFrames db) ∧
  ∀ t, t ∈ topicsWithFrames db <-> ∃ k r, hub_messages db !! k = Some r ∧ topic_id r = t.
Proof.
  unfold topicsWithFrames. set (ts := remove_dups _).
  assert (NoDup ts) as Hnd by apply NoDup_remove_dups.
  destruct (sort_ids_spec ts Hnd) as [Hasc Hin]. split; [by apply ascending_NoDup|].
  intros t. rewrite Hin. unfold ts. rewrite elem_of_remove_dups, list_elem_of_fmap. split.
  - intros ([k r] & -> & [Hk _]%elem_of_selectFrom). eauto.
  - intros (k & r & Hk & <-). exists (k, r). split; [done|]. by apply elem_of_selectFrom.
Qed.

(** The log frames of a batch, as ids. *)
Lemma lastLog_ids m db a cfg now old ret t ids :
  store_rel m a -> frames_sim m db ->
  batchIDs cfg now old ret db t = filter (topic_frame m t) ids ->
  lastLog cfg now old ret db t = last (filter (log_id m t) ids).
Proof.
  intros Hm Hs Hids. unfold lastLog. f_equal.
  assert (∀ rows : list (string * MessageRow),
    (∀ k r, (k, r) ∈ rows -> ∃ e, jm_get k (ms_entries m) = Some e ∧ r = rowOf e ∧ le_topicID e = t) ->
    map fst (filter (fun row => retain row.2 = Log) rows) = filter (log_id m t) (map fst rows)) as Hrows.
  { induction rows as [|[k r] rows IH]; intros Hr; [done|].
    destruct (Hr k r ltac:(by left)) as (e & He & -> & Ht). cbn [map]. rewrite !filter_cons. cbn [snd fst].
    assert (log_id m t k <-> retain (rowOf e) = Log) as Hlog.
    { unfold log_id, in_log. rewrite He. simpl. naive_solver. }
    rewrite (decide_ext _ _ _ _ Hlog). case_decide; cbn [map]; rewrite IH; try done;
      intros; apply Hr; by right. }
  rewrite Hrows.
  - change (map fst (batch cfg now old ret db t)) with (batchIDs cfg now old ret db t).
    rewrite Hids, list_filter_filter. apply list_filter_iff. intros k. unfold log_id, topic_frame, in_log.
    destruct (jm_get k (ms_entries m)); naive_solver.
  - intros k r [Hk Ht]%batch_topic. apply (frames_sim_row _ _ _ _ Hs) in Hk as (e & He & ->). eauto.
Qed.

(** The batches of the topics are the scan's ids, each once. *)
Lemma swept_ids m db (batches : string -> list string) ids :
  frames_sim m db -> NoDup ids -> (∀ k, k ∈ ids -> ∃ e, jm_get k (ms_entries m) = Some e) ->
  (∀ t, batches t = filter (topic_frame m t) ids) ->
  NoDup (concat (map batches (topicsWithFrames db))) ∧
  ∀ k, k ∈ concat (map batches (topicsWithFrames db)) <-> k ∈ ids.
Proof.
  intros Hs Hnd Hids Hbatch. destruct (topicsWithFrames_spec db) as [Hts Hin]. split.
  - apply NoDup_concat_map; [done|intros t..].
    + rewrite Hbatch. by apply NoDup_filter.
    + intros t' k. rewrite !Hbatch. unfold topic_frame.
      intros [Ht _]%list_elem_of_filter [Ht' _]%list_elem_of_filter.
      destruct (jm_get k (ms_entries m)); [congruence|done].
  - intros k. rewrite elem_of_concat_map. split.
    + intros (t & _ & Hk). rewrite Hbatch in Hk. by apply list_elem_of_filter in Hk as [_ ?].
    + intros Hk. destruct (Hids k Hk) as [e He]. exists (le_topicID e). split.
      * apply Hin. exists k, (rowOf e). split; [|done]. apply (frames_sim_row _ _ _ _ Hs). eauto.
      * rewrite Hbatch. apply list_elem_of_filter. split; [|done]. unfold topic_frame. by rewrite He.
Qed.

(** A frame outside the topics that have any: there is none. *)
Lemma topic_has_frames m db t ids :
  frames_sim m db -> t ∉ topicsWithFrames db -> filter (log_id m t) ids = [].
Proof.
  intros Hs Ht. apply filter_none. intros k _ Hlog. apply Ht, topicsWithFrames_spec.
  unfold log_id in Hlog. destruct (jm_get k (ms_entries m)) as [e|] eqn:He; [|done].
  exists k, (rowOf e). split; [|apply Hlog]. apply (frames_sim_row _ _ _ _ Hs). eauto.
Qed.

Lemma purge_foldl cfg now old db :
  SQLStore.purge cfg now old db =
    let db0 := pruneClaims now db in
    let swept := foldl (sweepOne cfg now old (retentionByTopic db0)) (db0, []) (topicsWithFrames db0) in
    (swept.1, merge_sort sle swept.2).
Proof.
  unfold SQLStore.purge. cbv zeta.
  change (foldl _ (pruneClaims now db, []) _) with
    (foldl (sweepOne cfg now old (retentionByTopic (pruneClaims now db))) (pruneClaims now db, [])
       (topicsWithFrames (pruneClaims now db))). by destruct (foldl _ _ _).
Qed.

Lemma purge_sim cfg now old m db a :
  store_rel m a -> frames_sim m db -> subs_sim m db -> (0 <= defaultRetention cfg)%Z ->
  (SQLStore.purge (hubConfig cfg) now old db).2 = (purge cfg now old m).2 ∧
  frames_sim (purge cfg now old m).1 (SQLStore.purge (hubConfig cfg) now old db).1 ∧
  other_tables (SQLStore.purge (hubConfig cfg) now old db).1 = other_tables (pruneClaims now db).
Proof.
  intros Hm Hs0 Hsub Hdef. rewrite purge_foldl. cbv zeta. set (db0 := pruneClaims now db).
  assert (frames_sim m db0) as Hs by by eapply frames_sim_frame. clear Hs0.
  set (ret := retentionByTopic db0). set (ts := topicsWithFrames db0).
  set (ids := purgeable cfg m now old ∅ (ms_entries m)).
  assert (ascending ids) as Hasc by apply purgeable_ascending, Hm.
  destruct (sweep_swept (hubConfig cfg) now old ret ts db0 []) as [[Hsm Hsd Hst Hso] Hrem];
    [apply topicsWithFrames_spec|].
  assert (∀ t, batchIDs (hubConfig cfg) now old ret db0 t = filter (topic_frame m t) ids) as Hbatch.
  { intros t. apply (batch_ids cfg m db0 a); [done..|]. by apply retention_same; [|apply Hm|]. }
  destruct (swept_ids m db0 (batchIDs (hubConfig cfg) now old ret db0) ids Hs (ascending_NoDup _ Hasc))
    as [Hnd Hin]; [|exact Hbatch|].
  { intros k ([k' e] & -> & He)%purgeable_elem%list_elem_of_fmap. exists e.
    apply jm_get_Some; [apply entries_wf_NoDup, Hm|done]. }
  fold ts in Hnd, Hin. cbn [fst snd]. split_and!; [| |exact Hso].
  - rewrite Hrem. cbn [app]. destruct (sort_ids_spec _ Hnd) as [Hsorted Hsame].
    apply ascending_unique; [done..|]. intros k. by rewrite Hsame.
  - apply (frames_sim_remove _ db0); [done|done| | |].
    + intros k. rewrite Hsm. apply decide_ext, Hin.
    + intros k d. by rewrite Hsd, Hin.
    + intros t. rewrite Hst. case_decide as Ht.
      * by rewrite (lastLog_ids m db0 a (hubConfig cfg) now old ret t ids).
      * rewrite (topic_has_frames m db0) by done. by destruct (hub_topics db0 !! t) as [[]|].
Qed.
End purge.
