(* ===== verification/SQLStoreState.v ===== *)
(** * The SQL store and the in-memory store: the whole state

    Publish ids, subscriptions and key packages related beside the frames of SQLStoreSim.v, and the
    operations on them. Publish ids are kept per topic in one store and globally in the other, and are
    swept after a year in one and never in the other: the relation asks that an id names one topic
    ([home]) and that nothing is a year older than [epoch]. *)

From S2P Require Import Prelude SeqID HubProtocol HubSpec SQLStore SQLStoreFacts MemoryStore MemoryStoreFacts MemoryStoreSpec HubStore StoreBatches SQLStoreSim SQLStorePurge.

Section state.
Context `{EngineLaws}.

(** ** Key packages *)

Definition asStored (row : N * KeyPackageRow) : StoredKeyPackage :=
  mkStoredKeyPackage (key_package row.2) (not_after row.2).

Definition live (now : Z) (l : list StoredKeyPackage) : list StoredKeyPackage :=
  filter (fun e => isLive e (seconds now) = true) l.

Definition poolOf (m : MemStore) (o : string) : list StoredKeyPackage := default [] (ms_keyPackages m !! o).

Record keys_sim (now : Z) (m : MemStore) (db : DB) : Prop := {
  ks_serial : ∀ i row, hub_key_packages db !! i = Some row -> (i <= hub_key_packages_id db)%N;
  ks_pools : ∀ o, live now (map asStored (packagesOf o db)) = live now (poolOf m o);
}.

Lemma live_later now now' l : (now <= now')%Z -> live now' (live now l) = live now' l.
Proof.
  intros Hle. unfold live. rewrite list_filter_filter. apply list_filter_iff. intros e. split; [tauto|].
  intros He. split; [done|]. unfold isLive, seconds in *. destruct (skp_notAfter e) as [t|]; [|done].
  apply Z.ltb_lt in He. apply Z.ltb_lt. pose proof (Z.div_le_mono now now' 1000). lia.
Qed.

Lemma live_app now l1 l2 : live now (l1 ++ l2) = live now l1 ++ live now l2.
Proof. apply filter_app. Qed.

Lemma live_idem now l : live now (live now l) = live now l.
Proof. by apply live_later. Qed.

Lemma keys_sim_later now now' m db : (now <= now')%Z -> keys_sim now m db -> keys_sim now' m db.
Proof.
  intros Hle [Hs Hp]. split; [done|]. intros o.
  by rewrite <- (live_later now now' (map _ _)), <- (live_later now now' (poolOf m o)), Hp.
Qed.

(** *** The rows of an owner *)

#[local] Instance byID_total : Total byID.
Proof. intros x y. unfold byID. lia. Qed.
#[local] Instance byID_trans : Transitive byID.
Proof. intros x y z. unfold byID. lia. Qed.

Lemma elem_of_packagesOf o db i row :
  (i, row) ∈ packagesOf o db <-> hub_key_packages db !! i = Some row ∧ owner_did row = o.
Proof.
  unfold packagesOf, ownedBy. by rewrite merge_sort_Permutation, elem_of_selectFrom.
Qed.

Lemma packagesOf_sorted o db : StronglySorted byID (packagesOf o db).
Proof. apply StronglySorted_merge_sort; apply _. Qed.

Lemma packagesOf_keys o db : NoDup (map fst (packagesOf o db)).
Proof.
  eapply NoDup_Permutation_proper; [apply fmap_Permutation, merge_sort_Permutation|].
  unfold ownedBy, selectFrom. eapply NoDup_Permutation_proper; [apply fmap_Permutation, scan_perm|].
  apply NoDup_filter_fst, NoDup_fst_map_to_list.
Qed.

Lemma packagesOf_NoDup o db : NoDup (packagesOf o db).
Proof. eapply NoDup_fmap_1, packagesOf_keys. Qed.

(** The list that lists an owner's rows in the order of their ids. *)
Lemma packagesOf_is o db l :
  StronglySorted byID l -> NoDup l ->
  (∀ i row, (i, row) ∈ l <-> hub_key_packages db !! i = Some row ∧ owner_did row = o) ->
  packagesOf o db = l.
Proof.
  intros Hl Hnd Heq. eapply StronglySorted_unique_strong; [|apply packagesOf_sorted|exact Hl|].
  - intros [i r] [j r'] [Hr _]%elem_of_packagesOf [Hr' _]%Heq. unfold byID. simpl. intros Hij Hji.
    assert (i = j) as -> by lia. congruence.
  - apply NoDup_Permutation; [apply packagesOf_NoDup|done|]. intros [i row]. by rewrite elem_of_packagesOf, Heq.
Qed.

Lemma sorted_filter {A} (R : relation A) P `{∀ x, Decision (P x)} (l : list A) :
  StronglySorted R l -> StronglySorted R (filter P l).
Proof.
  induction 1 as [|x l Hl IH Hx]; [constructor|]. rewrite filter_cons. case_decide; [|done].
  constructor; [done|]. apply Forall_forall. intros y [_ Hy]%list_elem_of_filter.
  by apply (proj1 (Forall_forall _ _) Hx).
Qed.

(** Deleting rows deletes them from every owner's list. *)
Lemma packagesOf_filter P `{∀ row, Decision (P row)} o serial db :
  packagesOf o (set_key_packages (filter P) serial db) = filter P (packagesOf o db).
Proof.
  apply packagesOf_is; [apply sorted_filter, packagesOf_sorted|apply NoDup_filter, packagesOf_NoDup|].
  intros i row. rewrite list_elem_of_filter, elem_of_packagesOf. simpl. rewrite map_lookup_filter_Some. tauto.
Qed.

Lemma packagesOf_insert i row o db :
  (∀ j r, hub_key_packages db !! j = Some r -> (j < i)%N) ->
  packagesOf o (set_key_packages <[i := row]> i db) =
    packagesOf o db ++ (if decide (owner_did row = o) then [(i, row)] else []).
Proof.
  intros Hlt. assert (∀ x, x ∈ packagesOf o db -> byID x (i, row) ∧ x ≠ (i, row)) as Hold.
  { intros [j r] [Hj%Hlt _]%elem_of_packagesOf. unfold byID. simpl. split; [lia|]. intros [= -> _]. lia. }
  apply packagesOf_is.
  - apply StronglySorted_app_2; [|apply packagesOf_sorted|case_decide; repeat constructor].
    intros x y Hx Hy. case_decide; [|by apply elem_of_nil in Hy]. apply list_elem_of_singleton in Hy as ->.
    by apply Hold.
  - apply NoDup_app. split_and!; [apply packagesOf_NoDup| |case_decide; repeat constructor; apply not_elem_of_nil].
    intros x Hx Hy. case_decide; [|by apply elem_of_nil in Hy]. apply list_elem_of_singleton in Hy as ->.
    by apply Hold in Hx as [_ ?].
  - intros j r. rewrite elem_of_app, elem_of_packagesOf. simpl. rewrite lookup_insert_Some.
    assert (hub_key_packages db !! i = None) as Hi.
    { destruct (hub_key_packages db !! i) as [r0|] eqn:E; [|done]. apply Hlt in E. lia. }
    case_decide; rewrite ?list_elem_of_singleton, ?elem_of_nil; destruct (decide (i = j)); naive_solver.
Qed.

Lemma live_expired now rows :
  map asStored (filter (fun row => SQLStore.expired now row.2 = false) rows) = live now (map asStored rows).
Proof.
  unfold live. induction rows as [|row rows IH]; [done|]. cbn [map]. rewrite !filter_cons.
  assert (SQLStore.expired now row.2 = false <-> isLive (asStored row) (seconds now) = true) as Heq.
  { unfold SQLStore.expired, isLive, seconds, nowSeconds, asStored. simpl. destruct (not_after row.2); [|done].
    rewrite Z.leb_gt, Z.ltb_lt. done. }
  rewrite (decide_ext _ _ _ _ Heq). case_decide; cbn [map]; by rewrite IH.
Qed.

Lemma packagesOf_deleteExpired now o o' db :
  packagesOf o' (deleteExpiredKeyPackages now o db) =
    if decide (o' = o) then filter (fun row => SQLStore.expired now row.2 = false) (packagesOf o' db)
    else packagesOf o' db.
Proof.
  unfold deleteExpiredKeyPackages. rewrite packagesOf_filter. case_decide; subst.
  - apply filter_ext_elem. intros [i row] [_ Ho]%elem_of_packagesOf. simpl.
    destruct (SQLStore.expired now row); naive_solver.
  - apply filter_all. intros [i row] [_ Ho]%elem_of_packagesOf [Ho' _]. simpl in *. congruence.
Qed.

(** The owner's rows after the expired are gone: the live pool of the other store. *)
Lemma live_rows now m db o :
  keys_sim now m db -> map asStored (packagesOf o (deleteExpiredKeyPackages now o db)) = live now (poolOf m o).
Proof.
  intros Hs. rewrite packagesOf_deleteExpired, decide_True by done.
  by rewrite live_expired, (ks_pools _ _ _ Hs).
Qed.

Lemma keys_sim_deleteExpired now m db o :
  keys_sim now m db -> keys_sim now m (deleteExpiredKeyPackages now o db).
Proof.
  intros [Hs Hp]. split.
  - intros i row [Hi _]%map_lookup_filter_Some. by apply Hs in Hi.
  - intros o'. rewrite packagesOf_deleteExpired. case_decide; [|done].
    rewrite live_expired, live_idem. apply Hp.
Qed.

Lemma storeKeyPackage_sim cfg now params m db :
  keys_sim now m db ->
  (SQLStore.storeKeyPackage (hubConfig cfg) now params db).2 = thrown (storeKeyPackage cfg now params m).2 ∧
  keys_sim now (storeKeyPackage cfg now params m).1 (SQLStore.storeKeyPackage (hubConfig cfg) now params db).1.
Proof.
  intros Hs. unfold SQLStore.storeKeyPackage, storeKeyPackage.
  set (o := kp_ownerDID params). pose proof (live_rows now m db o Hs) as Hlive.
  pose proof (keys_sim_deleteExpired now m db o Hs) as Hs1. clear Hs. cbv zeta.
  generalize dependent (deleteExpiredKeyPackages now o db). intros db1 Hlive [Hser Hp].
  fold (poolOf m o). fold (live now (poolOf m o)). cbn [hubConfig hc_maxKeyPackagesPerDID].
  assert (length (ownedBy o db1) = length (live now (poolOf m o))) as ->.
  { rewrite <- Hlive, length_map. symmetry. apply Permutation_length, merge_sort_Permutation. }
  assert (∀ l o', default [] (<[o := l]> (ms_keyPackages m) !! o') = if decide (o' = o) then l else poolOf m o') as Hpool.
  { intros l o'. case_decide; subst; [by rewrite lookup_insert_eq|by rewrite lookup_insert_ne]. }
  destruct (reaches _ _); cbn [fst snd]; (split; [done|]).
  - split; [done|]. intros o'. unfold poolOf. simpl. rewrite Hpool, Hp.
    case_decide; subst; [|done]. by rewrite live_idem.
  - split; simpl.
    + intros i row [[<- _]|[_ Hi%Hser]]%lookup_insert_Some; lia.
    + intros o'. rewrite packagesOf_insert by (intros j r Hj%Hser; lia).
      rewrite map_app, live_app, Hp. unfold poolOf at 2. simpl. rewrite Hpool.
      destruct (decide (o' = o)) as [->|Hne].
      * rewrite decide_True, live_app, live_idem by done. done.
      * rewrite decide_False by done. by rewrite app_nil_r.
Qed.

Lemma shiftLive_kept t n l :
  (shiftLive t n l).1 = take n (map skp_keyPackage (filter (fun e => isLive e t = true) l)) ∧
  filter (fun e => isLive e t = true) (shiftLive t n l).2 = drop n (filter (fun e => isLive e t = true) l).
Proof.
  revert n. induction l as [|e l IH]; intros n; simpl; [by destruct n|].
  destruct n as [|n]; [done|]. rewrite filter_cons. destruct (isLive e t) eqn:He.
  - specialize (IH n). destruct (shiftLive t n l). simpl in *. by destruct IH as [-> ->].
  - specialize (IH (S n)). by destruct (shiftLive t (S n) l).
Qed.

Lemma filter_ids_drop n (rows : list (N * KeyPackageRow)) :
  NoDup (map fst rows) -> filter (fun row => row.1 ∉ map fst (take n rows)) rows = drop n rows.
Proof.
  intros Hnd. rewrite <- (take_drop n rows), map_app in Hnd. apply NoDup_app in Hnd as (_ & Hdisj & _).
  transitivity (filter (fun row => row.1 ∉ map fst (take n rows)) (take n rows ++ drop n rows));
    [by rewrite take_drop|]. rewrite filter_app, filter_none, filter_all; [done| |].
  - intros row Hin Hid. by apply (Hdisj _ Hid), list_elem_of_fmap_2.
  - intros row Hin Hid. by apply Hid, list_elem_of_fmap_2.
Qed.

(** The rows a fetch deletes are the ones it selected. *)
Lemma taken_rows o n db :
  selectFrom (hub_key_packages db) (fun row => row.1 ∈ map fst (take n (packagesOf o db))) ≡ₚ
    take n (packagesOf o db).
Proof.
  apply NoDup_Permutation; [apply NoDup_selectFrom| |].
  - eapply sublist_NoDup; [apply (packagesOf_NoDup o db)|apply sublist_take].
  - intros [i row]. rewrite elem_of_selectFrom. simpl. split.
    + intros [Hi ([j r] & -> & Hin)%list_elem_of_fmap]. pose proof Hin as Hj%subseteq_take.
      apply elem_of_packagesOf in Hj as [Hj _]. simpl in Hi. by replace row with r by congruence.
    + intros Hin. pose proof Hin as [Hi _]%subseteq_take%elem_of_packagesOf.
      split; [done|]. by apply (list_elem_of_fmap_2 fst) in Hin.
Qed.

Lemma poolOf_fetch now o n m :
  (fetchKeyPackages now o (Some n) m).2 = take n (map skp_keyPackage (live now (poolOf m o))) ∧
  ∀ o', live now (poolOf (fetchKeyPackages now o (Some n) m).1 o') =
    if decide (o' = o) then drop n (live now (poolOf m o)) else live now (poolOf m o').
Proof.
  unfold fetchKeyPackages, poolOf, live. destruct (ms_keyPackages m !! o) as [l|] eqn:Hl; simpl.
  - pose proof (shiftLive_kept (seconds now) n l) as [Hs1 Hs2].
    destruct (shiftLive (seconds now) n l) as [served kept]. simpl in *. split; [done|]. intros o'.
    case_decide; subst; [by rewrite lookup_insert_eq|by rewrite lookup_insert_ne].
  - split; [by rewrite take_nil|]. intros o'. case_decide; subst; [|done]. rewrite Hl. by destruct n.
Qed.

Lemma fetchKeyPackages_sim now o n m db :
  keys_sim now m db ->
  (SQLStore.fetchKeyPackages now o (Some n) db).2 ≡ₚ (fetchKeyPackages now o (Some n) m).2 ∧
  keys_sim now (fetchKeyPackages now o (Some n) m).1 (SQLStore.fetchKeyPackages now o (Some n) db).1.
Proof.
  intros Hs. pose proof (live_rows now m db o Hs) as Hlive.
  pose proof (keys_sim_deleteExpired now m db o Hs) as Hs1. clear Hs.
  unfold SQLStore.fetchKeyPackages. cbn [from_option fst snd]. unfold id.
  generalize dependent (deleteExpiredKeyPackages now o db). intros db1 Hlive [Hser Hp].
  destruct (poolOf_fetch now o n m) as [Hserved Hkept]. split.
  - rewrite Hserved, <- Hlive, map_map, taken_rows, (firstn_map (fun row => skp_keyPackage (asStored row))). done.
  - split.
    + intros i row [Hi _]%map_lookup_filter_Some. by apply Hser in Hi.
    + intros o'. rewrite Hkept, packagesOf_filter. case_decide as Ho; subst.
      * rewrite filter_ids_drop by apply packagesOf_keys. rewrite <- (skipn_map asStored), Hlive.
        apply filter_all. intros e [He _]%subseteq_drop%list_elem_of_filter. done.
      * rewrite <- Hp. do 2 f_equal. apply filter_all.
        intros [i row] [Hi Ho1]%elem_of_packagesOf ([j r] & Heq & Hin%subseteq_take)%list_elem_of_fmap.
        apply elem_of_packagesOf in Hin as [Hj Ho2]. simpl in Heq. subst. congruence.
Qed.

Lemma fetchKeyPackages_length now o n db : length (SQLStore.fetchKeyPackages now o (Some n) db).2 <= n.
Proof.
  unfold SQLStore.fetchKeyPackages. cbn [from_option fst snd]. unfold id.
  generalize (deleteExpiredKeyPackages now o db). intros db1.
  rewrite length_map, taken_rows, length_take. lia.
Qed.

Lemma countKeyPackages_sim now o m db :
  keys_sim now m db -> SQLStore.countKeyPackages now o db = countKeyPackages now o m.
Proof.
  intros Hs. unfold SQLStore.countKeyPackages, countKeyPackages.
  fold (poolOf m o). fold (live now (poolOf m o)).
  rewrite <- (ks_pools _ _ _ Hs), <- live_expired, length_map.
  apply Permutation_length, NoDup_Permutation; [apply NoDup_selectFrom|apply NoDup_filter, packagesOf_NoDup|].
  intros [i row]. rewrite elem_of_selectFrom, list_elem_of_filter, elem_of_packagesOf. simpl. tauto.
Qed.

(** ** Subscriptions *)

Lemma sim_isSubscribed m db t d :
  subs_sim m db -> is_Some (hub_subscriptions db !! (t, d)) <-> isSubscribed m t d = true.
Proof.
  intros Hs. unfold isSubscribed, jm_has. fold (subs_of m t). rewrite <- Hs.
  destruct (hub_subscriptions db !! (t, d)); simpl; [naive_solver|]. split; [by intros []|done].
Qed.

Lemma getSubscribers_sim m db t :
  subs_wf m -> subs_sim m db -> SQLStore.getSubscribers t db ≡ₚ getSubscribers t m.
Proof.
  intros Hwf Hs. unfold SQLStore.getSubscribers, getSubscribers. fold (subs_of m t).
  apply NoDup_Permutation; [|apply (sw_NoDup _ Hwf)|].
  - apply NoDup_fmap_2_strong; [|apply NoDup_selectFrom].
    intros [[t0 d0] r] [[t1 d1] r'] [Hr Ht]%elem_of_selectFrom [Hr' Ht']%elem_of_selectFrom.
    simpl in *. congruence.
  - intros d. rewrite <- jm_has_elem. change (jm_has d (subs_of m t)) with (isSubscribed m t d).
    rewrite <- (sim_isSubscribed m db t d Hs), list_elem_of_fmap. split.
    + intros ([[t0 d0] r] & -> & [Hr Ht]%elem_of_selectFrom). simpl in *. subst. by rewrite Hr.
    + intros [r Hr]. exists ((t, d), r). split; [done|]. by apply elem_of_selectFrom.
Qed.

(** The topics a DID holds. *)
Lemma held_sim m db d :
  subs_wf m -> subs_sim m db ->
  let held := map (fun row => row.1.1) (selectFrom (hub_subscriptions db) (fun row => row.1.2 = d)) in
  (∀ t, t ∈ held <-> t ∈ heldTopics m d) ∧ length held = size (heldTopics m d).
Proof.
  intros Hwf Hs held.
  assert (∀ t, t ∈ held <-> t ∈ heldTopics m d) as Hin.
  { intros t. rewrite <- (sw_lockstep _ Hwf), <- (sim_isSubscribed m db t d Hs). unfold held.
    rewrite list_elem_of_fmap. split.
    - intros ([[t0 d0] r] & -> & [Hr Hd]%elem_of_selectFrom). simpl in *. subst. by rewrite Hr.
    - intros [r Hr]. exists ((t, d), r). split; [done|]. by apply elem_of_selectFrom. }
  split; [done|]. rewrite <- (size_list_to_set (C := gset string) held).
  - f_equal. apply set_eq. intros t. by rewrite elem_of_list_to_set.
  - apply NoDup_fmap_2_strong; [|apply NoDup_selectFrom].
    intros [[t0 d0] r] [[t1 d1] r'] [Hr Ht]%elem_of_selectFrom [Hr' Ht']%elem_of_selectFrom.
    simpl in *. congruence.
Qed.

(** ** Publish ids *)

(** [home] says which topic an id is used on. *)
Record ids_sim (home : string -> string) (epoch : Z) (m : MemStore) (db : DB) : Prop := {
  is_recorded : ∀ t id row, hub_publish_ids db !! (t, id) = Some row ->
    home id = t ∧ (epoch <= recorded_at row)%Z ∧
    ∃ q, published_as row = Some q ∧ ms_publishRecords m !! id = Some q;
  is_fresh : ∀ id, hub_publish_ids db !! (home id, id) = None -> ms_publishRecords m !! id = None;
}.

(** Nothing is old enough for the sweep of the claims. *)
Lemma pruneClaims_none home epoch m db now :
  ids_sim home epoch m db -> (now < epoch + PUBLISH_ID_RETENTION_SECONDS * 1000)%Z -> pruneClaims now db = db.
Proof.
  intros [Hrec _] Hnow. destruct db. unfold pruneClaims, set_publish_ids. simpl in *. f_equal.
  apply map_filter_id. intros [t id] row Hrow. simpl. destruct (Hrec _ _ _ Hrow) as (_ & ? & _). lia.
Qed.

(** ** The relation *)

Record sim (home : string -> string) (epoch now : Z) (m : MemStore) (db : DB) : Prop := {
  sim_frames : frames_sim m db;
  sim_counter : hub_sequence db = ms_counter m;
  sim_subs : subs_sim m db;
  sim_ids : ids_sim home epoch m db;
  sim_keys : keys_sim now m db;
  sim_last : hub_last_resort_key_packages db = ms_lastResortKeyPackages m;
}.

Context (home : string -> string) (epoch : Z).

Lemma sim_init now : sim home epoch now createMemoryStore migrated.
Proof.
  split; try done.
  - split; simpl; intros; rewrite ?lookup_empty; [done|set_solver|done].
  - split; simpl; [by intros i row ?%lookup_empty_Some|]. intros o.
    rewrite (packagesOf_is o migrated []); [done|constructor..|]. intros i row. simpl.
    rewrite lookup_empty, elem_of_nil. naive_solver.
Qed.

Lemma sim_later now now' m db : (now <= now')%Z -> sim home epoch now m db -> sim home epoch now' m db.
Proof. intros Hle []. split; [done..| |done]. by eapply keys_sim_later. Qed.

(** What changes the frames only. *)
Lemma sim_frame now m m' db db' :
  sim home epoch now m db -> frames_sim m' db' -> rest_of m' = rest_of m ->
  other_tables db' = other_tables db -> sim home epoch now m' db'.
Proof.
  intros [Hf Hc Hs Hi Hk Hl] Hf' Hm Hd.
  destruct m, m', db, db'. unfold rest_of, other_tables in *. simpl in *. simplify_eq.
  split; [done..|exact Hs| |destruct Hk as [H1 H2]; split; [exact H1|exact H2]|done].
  destruct Hi as [H1 H2]. split; [exact H1|exact H2].
Qed.

(** What changes the key packages only. *)
Definition but_keys (db : DB) :=
  (hub_messages db, hub_deliveries db, hub_topics db, hub_last_resort_key_packages db, hub_subscriptions db,
   hub_sequence db, hub_publish_ids db).
Definition m_but_keys (m : MemStore) :=
  (ms_counter m, ms_entries m, ms_heads m, ms_removedThrough m, ms_publishRecords m, ms_subscriptions m,
   ms_subsByDID m, ms_lastResortKeyPackages m).

Lemma sim_keys_frame now m m' db db' :
  sim home epoch now m db -> keys_sim now m' db' -> m_but_keys m' = m_but_keys m ->
  but_keys db' = but_keys db -> sim home epoch now m' db'.
Proof.
  intros [Hf Hc Hs Hi Hk Hl] Hk' Hm Hd.
  destruct m, m', db, db'. unfold m_but_keys, but_keys in *. simpl in *. simplify_eq.
  split; [by eapply frames_sim_frame|done|exact Hs| |exact Hk'|done].
  destruct Hi as [H1 H2]. split; [exact H1|exact H2].
Qed.

Lemma storeKeyPackage_frame cfg now params m db :
  m_but_keys (storeKeyPackage cfg now params m).1 = m_but_keys m ∧
  but_keys (SQLStore.storeKeyPackage (hubConfig cfg) now params db).1 = but_keys db.
Proof.
  unfold storeKeyPackage, SQLStore.storeKeyPackage. split; by case_match.
Qed.

Lemma fetchKeyPackages_frame now o n m db :
  m_but_keys (fetchKeyPackages now o (Some n) m).1 = m_but_keys m ∧
  but_keys (SQLStore.fetchKeyPackages now o (Some n) db).1 = but_keys db.
Proof.
  unfold fetchKeyPackages, SQLStore.fetchKeyPackages. split; [|done]. by repeat case_match.
Qed.

Lemma dropDeliveries_others did ids db : other_tables (dropDeliveries did ids db) = other_tables db.
Proof. unfold dropDeliveries. by case_match. Qed.

Lemma ack_others did ids db : other_tables (SQLStore.ack did ids db) = other_tables db.
Proof. destruct ids; [done|]. apply (dropDeliveries_others did (_ :: _)). Qed.

Lemma removeLog_others t ids db : other_tables (removeLog t ids db) = other_tables db.
Proof. unfold removeLog. rewrite deleteFrames_all. by case_match. Qed.

Lemma trim_others t before db : other_tables (SQLStore.trim t before db) = other_tables db.
Proof. apply removeLog_others. Qed.

Lemma evictDepth_others cfg t db : other_tables (SQLStore.evictDepth cfg t db) = other_tables db.
Proof.
  unfold SQLStore.evictDepth. destruct (hc_maxDepth cfg); [|done]. cbv zeta. rewrite deleteFrames_all.
  by repeat case_match.
Qed.

Lemma fetch_others params db : other_tables (SQLStore.fetch params db).1 = other_tables db.
Proof.
  unfold SQLStore.fetch. destruct (fp_ack params) as [[|id ids]|]; cbv zeta;
    (destruct (fp_limit params) as [limit|]; [case_match|]; try done); apply ack_others.
Qed.

Lemma subscribe_sim cfg now params m db :
  exceeds (defaultRetention cfg) (maxRetention cfg) = false ->
  subs_wf m -> sim home epoch now m db ->
  (SQLStore.subscribe (hubConfig cfg) now params db).2 = thrown (subscribe cfg params m).2 ∧
  sim home epoch now (subscribe cfg params m).1 (SQLStore.subscribe (hubConfig cfg) now params db).1.
Proof.
  intros Hdef Hwf Hs. unfold SQLStore.subscribe, subscribe.
  set (d := sp_subscriberDID params). set (t := sp_topicID params). cbn [hubConfig].
  assert (exceeds (default (defaultRetention cfg) (sp_retention params)) (maxRetention cfg) =
    match sp_retention params with Some r => exceeds r (maxRetention cfg) | None => false end) as ->
    by by destruct (sp_retention params).
  destruct (match sp_retention params with Some _ => _ | None => _ end); [done|].
  destruct (held_sim m db d Hwf (sim_subs _ _ _ _ _ Hs)) as [Hheld ->].
  rewrite (bool_decide_ext _ _ (Hheld t)). destruct (_ && _); [done|]. cbn [fst snd]. split; [done|].
  destruct Hs as [Hf Hc Hsub Hi Hk Hl]. destruct Hi as [H1 H2], Hk as [K1 K3].
  split; [by eapply frames_sim_frame|exact Hc| |by split|by split|exact Hl].
  intros t' d'. rewrite subs_of_set. simpl. destruct (decide (t' = t)) as [->|Ht].
  - rewrite lookup_insert_eq. simpl. rewrite jm_get_set. fold (subs_of m t). rewrite <- Hsub.
    case_decide; subst; [by rewrite lookup_insert_eq|]. rewrite lookup_insert_ne by congruence. done.
  - rewrite !lookup_insert_ne by congruence. apply Hsub.
Qed.

Lemma unsubscribe_whole d t now m db a :
  store_rel m a -> sim home epoch now m db ->
  sim home epoch now (unsubscribe d t m) (SQLStore.unsubscribe d t db).
Proof.
  intros Hm Hs. pose proof (unsubscribe_sim d t m db a Hm (sim_frames _ _ _ _ _ Hs)) as Hf.
  pose proof (unsubscribe_rest d t m) as Hrest.
  assert (other_tables (SQLStore.unsubscribe d t db) =
    other_tables (set_subscriptions (delete (t, d)) db)) as Ho.
  { unfold SQLStore.unsubscribe. cbv zeta. by repeat case_match. }
  assert (∀ t', subs_of (unsubscribe d t m) t' = subs_of (dropSubscription d t m) t') as Hsubs.
  { intros t'. unfold subs_of. unfold rest_of in Hrest. congruence. }
  destruct Hs as [_ Hc Hsub [H1 H2] [K1 K3] Hl].
  unfold rest_of in Hrest. unfold other_tables in Ho. simpl in Hrest, Ho.
  injection Hrest as R1 R2 R3 R4 R5 R6 R7. injection Ho as O1 O2 O3 O4 O5 O6.
  split; [done|congruence| | | |congruence].
  - intros t' d'. rewrite Hsubs, subs_of_drop, O4. destruct (decide (t' = t)) as [->|Ht].
    + rewrite jm_get_delete. destruct (decide (d' = d)) as [->|]; [by rewrite lookup_delete_eq|].
      rewrite lookup_delete_ne by congruence. apply Hsub.
    + rewrite lookup_delete_ne by congruence. apply Hsub.
  - split; rewrite O6; intros *; rewrite R3; [apply H1|apply H2].
  - split; rewrite ?O1, ?O2; [done|]. intros o. unfold packagesOf, ownedBy, poolOf. rewrite O1, R6. apply K3.
Qed.

(** ** Publish *)

Lemma removed_none m a t : core_rel m a -> ms_heads m !! t = None -> ms_removedThrough m !! t = None.
Proof.
  intros Hm Hh. destruct (sr_logs _ _ Hm t) as [_ _ Hhead Hrem _]. rewrite Hh in Hhead.
  unfold tl_head in Hhead. symmetry in Hhead. rewrite (tl_split (a t)), positions_app, last_app in Hhead.
  rewrite Hrem. by destruct (last (positions (tl_live (a t)))).
Qed.

(** The head write of a transaction that runs alone, its head check passed. *)
Definition setHead (topicID sequenceID : string) (db : DB) : DB :=
  set_topics (partial_alter (fun row => Some (mkTopicRow sequenceID (row ≫= removed_through))) topicID) db.

Definition head_as_expected (expected : option (option string)) (head : option string) : bool :=
  match expected with None => true | Some e => bool_decide (head = e) end.

Lemma set_topics_ext f g db : f (hub_topics db) = g (hub_topics db) -> set_topics f db = set_topics g db.
Proof. intros Heq. unfold set_topics. by rewrite Heq. Qed.

Lemma advanceHead_ok t q expected db :
  head_as_expected expected (headOf db t) = true -> advanceHead t q expected db = (setHead t q db, Ok tt).
Proof.
  unfold head_as_expected, advanceHead, setHead, headOf. destruct expected as [e|]; [|done].
  intros He%bool_decide_eq_true. destruct (hub_topics db !! t) as [row|] eqn:Hrow, e as [h|]; try done;
    simpl in He; simplify_eq.
  - rewrite decide_True by done. f_equal. apply set_topics_ext, partial_alter_ext. intros x Hx.
    rewrite Hrow in Hx. by subst.
  - f_equal. apply set_topics_ext, partial_alter_ext. intros x Hx. rewrite Hrow in Hx. by subst.
Qed.

Lemma setHead_topics t q db t' :
  hub_topics (setHead t q db) !! t' =
    if decide (t' = t) then Some (mkTopicRow q (hub_topics db !! t ≫= removed_through))
    else hub_topics db !! t'.
Proof.
  simpl. case_decide; subst; [by rewrite lookup_partial_alter_eq|by rewrite lookup_partial_alter_ne].
Qed.

Lemma recipients_sim m db t d :
  subs_wf m -> subs_sim m db -> SQLStore.recipientsOf t d db ≡ₚ recipientsOf m t d.
Proof.
  intros Hwf Hs. unfold SQLStore.recipientsOf, recipientsOf. apply filter_Permutation.
  by apply getSubscribers_sim.
Qed.

(** The statements that write the frame and the head, before the depth bound. *)
Definition stored (now : Z) (params : PublishParams) (retain : RetentionClass) (q : string)
    (recipients : list string) (db : DB) : DB :=
  let db := appendFrame now params retain q recipients db in
  match retain with Log => setHead (pp_topicID params) q db | Mailbox => db end.

Lemma stored_others now params retain q recipients db :
  other_tables (stored now params retain q recipients db) = other_tables db.
Proof. unfold stored, appendFrame. destruct retain; by repeat case_match. Qed.

Lemma frames_sim_stored now params retain q recipients m db a e :
  store_rel m a -> (ms_counter m + 1 < SEQUENCE_LIMIT)%N -> frames_sim m db ->
  fresh_entry m params e -> q = nextID m ->
  le_retain e = retain -> rowOf e = mkMessageRow (pp_senderDID params) (pp_topicID params)
                                      (pp_payload params) now retain ->
  recipients ≡ₚ le_pendingFor e ->
  frames_sim (append e (mint params retain m)) (stored now params retain q recipients db).
Proof.
  intros [Hm Hmb] Hc Hs [Hid Htop Hnd Hmail] -> Hr Hrow Hrec.
  assert (nextID m ∉ map fst (ms_entries m)) as Hfresh.
  { intros Hin. apply (slt_irrefl (nextID m)). apply next_past; [done|]. by apply (sr_bound _ _ Hm). }
  assert (∀ k, jm_get k (ms_entries (append e (mint params retain m))) =
    if decide (k = nextID m) then Some e else jm_get k (ms_entries m)) as He.
  { intros k. simpl. rewrite Hid. apply jm_get_set. }
  assert (bool_decide (retain = Log) || (0 <? length recipients) = true) as Hstored.
  { destruct retain; [done|]. simpl. apply Nat.ltb_lt. rewrite Hrec.
    destruct (le_pendingFor e); [by destruct (Hmail Hr)|simpl; lia]. }
  split.
  - intros k. rewrite He. unfold stored, appendFrame. rewrite Hstored.
    assert (∀ db', hub_messages (match retain with Log => setHead (pp_topicID params) (nextID m) db' | Mailbox => db' end)
      = hub_messages db') as -> by by destruct retain.
    simpl. rewrite encodeBinary_bytes, <- Hrow. destruct (decide (k = nextID m)) as [->|].
    + by rewrite lookup_insert_eq.
    + rewrite lookup_insert_ne by done. apply Hs.
  - intros k d. rewrite He. unfold stored, appendFrame. rewrite Hstored.
    assert (∀ db', hub_deliveries (match retain with Log => setHead (pp_topicID params) (nextID m) db' | Mailbox => db' end)
      = hub_deliveries db') as -> by by destruct retain.
    simpl. rewrite elem_of_union, elem_of_list_to_set, list_elem_of_fmap, (fs_deliveries _ _ Hs).
    assert (∀ e', jm_get (nextID m) (ms_entries m) ≠ Some e') as Hno.
    { intros e' He'%jm_get_elem. apply Hfresh, (list_elem_of_fmap_2 fst _ _ He'). }
    setoid_rewrite Hrec. destruct (decide (k = nextID m)) as [->|]; naive_solver.
  - intros t. unfold stored, appendFrame. rewrite Hstored. destruct retain.
    + rewrite setHead_topics. simpl.
      destruct (decide (t = pp_topicID params)) as [->|].
      * rewrite lookup_insert_eq. simpl. rewrite (fs_topics _ _ Hs).
        destruct (ms_heads m !! pp_topicID params) eqn:Hh; simpl; [done|]. by rewrite (removed_none m a).
      * rewrite lookup_insert_ne by done. apply Hs.
    + apply Hs.
Qed.

(** The statements from the mint on, for a transaction that runs alone. *)
Lemma publishAccept_eq cfg now params db :
  let retain := default Mailbox (pp_retain params) in
  let t := pp_topicID params in
  let q := formatSequenceID (hub_sequence db + 1) in
  let db1 := set_sequence (hub_sequence db + 1) db in
  let db2 := stored now params retain q (SQLStore.recipientsOf t (pp_senderDID params) db) db1 in
  head_as_expected (pp_expectedHead params) (headOf db t) = true ->
  publishAccept cfg now params db =
    (completeClaim t q (pp_publishID params)
       (match retain with Log => SQLStore.evictDepth cfg t db2 | Mailbox => db2 end),
     Ok (mkPublishResult q false)).
Proof.
  intros retain t q db1 db2 Hexp. unfold publishAccept. fold retain t.
  cbv [mbind mret sql_bind sql_ret nextSequenceID query execute]. fold db1 q.
  change (SQLStore.recipientsOf t (pp_senderDID params) db1) with
    (SQLStore.recipientsOf t (pp_senderDID params) db). unfold db2, stored.
  destruct retain; [|done]. rewrite advanceHead_ok; [done|].
  unfold headOf, appendFrame in *. by case_match.
Qed.

Lemma accept_sim cfg now params m db a :
  store_rel m a -> (ms_counter m + 1 < SEQUENCE_LIMIT)%N ->
  frames_sim m db -> hub_sequence db = ms_counter m -> subs_sim m db ->
  acceptedAs (pp_publishID params) m = None -> casFails params m = false ->
  ∃ db', publishAccept (hubConfig cfg) now params db =
      (completeClaim (pp_topicID params) (nextID m) (pp_publishID params) db',
       Ok (mkPublishResult (nextID m) false)) ∧
    frames_sim (publish cfg now params m).1 db' ∧
    other_tables db' = other_tables (set_sequence (ms_counter m + 1) db).
Proof.
  intros Hm Hc Hs Hseq Hsub Hacc Hcas. eexists. split.
  { rewrite publishAccept_eq, Hseq; [done|]. unfold casFails in Hcas. unfold head_as_expected.
    rewrite (frames_sim_head m) by done. destruct (pp_expectedHead params); [|done].
    apply bool_decide_eq_false, dec_stable in Hcas. by apply bool_decide_eq_true. }
  set (retain := default Mailbox (pp_retain params)). set (t := pp_topicID params).
  pose proof (recipients_sim m db t (pp_senderDID params) (sr_subs _ _ (proj1 Hm)) Hsub) as Hrec.
  set (rs := SQLStore.recipientsOf t (pp_senderDID params) db) in *.
  set (db1 := set_sequence (ms_counter m + 1) db).
  assert (frames_sim m db1) as Hs1 by by eapply frames_sim_frame. split.
  2: { transitivity (other_tables (stored now params retain (nextID m) rs db1)); [|apply stored_others].
       destruct retain; [apply evictDepth_others|done]. }
  unfold publish. rewrite Hacc. fold (casFails params m). rewrite Hcas. fold retain t. cbv zeta.
  destruct (bool_decide (retain = Mailbox) && _) eqn:Hdrop.
  { apply andb_true_iff in Hdrop as [Hr%bool_decide_eq_true Hl%Nat.eqb_eq]. rewrite Hr. cbn [fst].
    unfold stored, appendFrame. rewrite Hrec, Hl. simpl. by eapply frames_sim_frame. }
  change (formatSequenceID (ms_counter (mint params retain m))) with (nextID m).
  set (e := mkLogEntry _ _ _ _ _ _ _).
  assert (fresh_entry m params e) as He.
  { split; simpl; [done..|apply recipientsOf_NoDup, Hm|]. intros Hr Hnil.
    rewrite Hr in Hdrop. rewrite Hnil in Hdrop. done. }
  assert (frames_sim (append e (mint params retain m)) (stored now params retain (nextID m) rs db1)) as Hst
    by by eapply frames_sim_stored.
  destruct (append_rel m a params e Hc Hm He) as [Hm' _]. change (le_retain e) with retain in Hm'.
  cbn [fst]. destruct retain; [|done]. by eapply evictDepth_sim.
Qed.

Definition claimFree (params : PublishParams) (db : DB) : Prop :=
  match pp_publishID params with
  | Some id => hub_publish_ids db !! (pp_topicID params, id) = None
  | None => True
  end.

Definition claimed (now : Z) (params : PublishParams) (db : DB) : DB :=
  match pp_publishID params with
  | Some id => set_publish_ids <[(pp_topicID params, id) := mkPublishIDRow None now]> db
  | None => db
  end.

Lemma publishCheck_fresh now params db :
  claimFree params db ->
  publishCheck now params db =
    (claimed now params db,
     if head_as_expected (pp_expectedHead params) (headOf db (pp_topicID params))
     then Ok None else Err (HubError HeadMismatchError "")).
Proof.
  unfold claimFree, publishCheck, claimed, head_as_expected. intros Hfree.
  cbv [mbind mret sql_bind sql_ret query throw]. destruct (pp_publishID params) as [id|]; simpl.
  - unfold claimPublishID. rewrite Hfree. simpl.
    change (headOf (set_publish_ids _ db) ?t) with (headOf db t).
    destruct (pp_expectedHead params) as [e|]; [|done]. by repeat case_bool_decide.
  - destruct (pp_expectedHead params) as [e|]; [|done]. by repeat case_bool_decide.
Qed.

Lemma publish_fresh cfg now params db :
  claimFree params db ->
  SQLStore.publish cfg now params db =
    if head_as_expected (pp_expectedHead params) (headOf db (pp_topicID params))
    then match publishAccept cfg now params (claimed now params db) with
         | (db', Ok r) => (db', Ok r)
         | (_, Err e) => (db, Err e)
         end
    else (db, Err (HubError HeadMismatchError "")).
Proof.
  intros Hfree. unfold SQLStore.publish. rewrite transaction_spec. cbv [mbind mret sql_bind sql_ret].
  rewrite publishCheck_fresh by done. by destruct (head_as_expected _ _).
Qed.

Lemma publish_replayed cfg now params db id row q :
  pp_publishID params = Some id -> hub_publish_ids db !! (pp_topicID params, id) = Some row ->
  published_as row = Some q ->
  SQLStore.publish cfg now params db = (db, Ok (mkPublishResult q true)).
Proof.
  intros Hid Hrow Hq. unfold SQLStore.publish. rewrite transaction_spec. unfold publishCheck.
  cbv [mbind mret sql_bind sql_ret]. rewrite Hid. unfold claimPublishID. by rewrite Hrow, Hq.
Qed.

Lemma expected_cas m db params :
  frames_sim m db ->
  head_as_expected (pp_expectedHead params) (headOf db (pp_topicID params)) = negb (casFails params m).
Proof.
  intros Hs. unfold head_as_expected, casFails. rewrite (frames_sim_head m) by done.
  destruct (pp_expectedHead params); [|done]. by repeat case_bool_decide.
Qed.

Lemma ids_sim_completed now m m' db db' params q :
  ids_sim home epoch m db -> (epoch <= now)%Z ->
  (∀ id, pp_publishID params = Some id -> home id = pp_topicID params) ->
  hub_publish_ids db' = hub_publish_ids (claimed now params db) ->
  ms_publishRecords m' = match pp_publishID params with
                         | Some id => <[id := q]> (ms_publishRecords m)
                         | None => ms_publishRecords m
                         end ->
  ids_sim home epoch m' (completeClaim (pp_topicID params) q (pp_publishID params) db').
Proof.
  intros [Hrec Hfree] Hnow Hhome Hdb Hm. unfold completeClaim, claimed in *.
  destruct (pp_publishID params) as [id|] eqn:Hid.
  2: { split; rewrite Hdb; intros *; rewrite Hm; [apply Hrec|apply Hfree]. }
  specialize (Hhome id eq_refl).
  assert (∀ k, hub_publish_ids (set_publish_ids (alter (fun row => mkPublishIDRow (Some q) (recorded_at row))
      (pp_topicID params, id)) db') !! k =
    if decide (k = (pp_topicID params, id)) then Some (mkPublishIDRow (Some q) now)
    else hub_publish_ids db !! k) as Hids.
  { intros k. simpl. rewrite Hdb. simpl. destruct (decide (k = (pp_topicID params, id))) as [->|].
    - by rewrite lookup_alter_eq, lookup_insert_eq.
    - by rewrite lookup_alter_ne, lookup_insert_ne. }
  split.
  - intros t i row. rewrite Hids, Hm. case_decide as Hk.
    + intros [= <-]. injection Hk as -> ->. split_and!; [done..|]. exists q. by rewrite lookup_insert_eq.
    + intros Hrow. destruct (Hrec _ _ _ Hrow) as (Ht & ? & q' & ? & ?). split_and!; [done..|].
      exists q'. rewrite lookup_insert_ne; [done|]. intros <-. apply Hk. congruence.
  - intros i. rewrite Hids, Hm. case_decide as Hk; [done|]. intros Hnone.
    rewrite lookup_insert_ne; [by apply Hfree|]. intros <-. apply Hk. congruence.
Qed.

Lemma publish_sim cfg now params m db a :
  store_rel m a -> (ms_counter m + 1 < SEQUENCE_LIMIT)%N -> sim home epoch now m db -> (epoch <= now)%Z ->
  (∀ id, pp_publishID params = Some id -> home id = pp_topicID params) ->
  (SQLStore.publish (hubConfig cfg) now params db).2 = thrown (publish cfg now params m).2 ∧
  sim home epoch now (publish cfg now params m).1 (SQLStore.publish (hubConfig cfg) now params db).1.
Proof.
  intros Hm Hc Hs Hnow Hhome. pose proof Hs as [Hf Hseq Hsub Hi Hk Hl].
  assert ((claimFree params db ∧ acceptedAs (pp_publishID params) m = None) ∨
    ∃ q, SQLStore.publish (hubConfig cfg) now params db = (db, Ok (mkPublishResult q true)) ∧
         acceptedAs (pp_publishID params) m = Some q) as [[Hfree Hacc]|(q & -> & Hacc)].
  { unfold claimFree, acceptedAs. destruct (pp_publishID params) as [id|] eqn:Hid; [|by left].
    specialize (Hhome id eq_refl). destruct (hub_publish_ids db !! (pp_topicID params, id)) as [row|] eqn:Hrow.
    - right. destruct (is_recorded _ _ _ _ Hi _ _ _ Hrow) as (_ & _ & q & Hq & Hq'). exists q. split; [|done].
      by eapply publish_replayed.
    - left. split; [done|]. apply (is_fresh _ _ _ _ Hi). by rewrite Hhome. }
  2: { unfold publish. by rewrite Hacc. }
  rewrite publish_fresh, (expected_cas m) by done. destruct (casFails params m) eqn:Hcas; simpl.
  { unfold publish. rewrite Hacc. fold (casFails params m). by rewrite Hcas. }
  destruct (accept_sim cfg now params m (claimed now params db) a) as (db' & -> & Hf' & Ho); [done|done| | | |done..|].
  { unfold claimed. destruct (pp_publishID params); [by eapply frames_sim_frame|done]. }
  { rewrite <- Hseq. unfold claimed. by destruct (pp_publishID params). }
  { unfold claimed. by destruct (pp_publishID params). }
  destruct (publish_rest cfg now params m Hacc Hcas) as [Hrest ->]. cbn [fst snd]. split; [done|].
  unfold rest_of in Hrest. unfold other_tables in Ho. simpl in Ho. injection Hrest as R1 R2 R3 R4 R5 R6 R7.
  injection Ho as O1 O2 O3 O4 O5 O6.
  assert (∀ db0, other_tables (completeClaim (pp_topicID params) (nextID m) (pp_publishID params) db0) =
    (hub_key_packages db0, hub_key_packages_id db0, hub_last_resort_key_packages db0, hub_subscriptions db0,
     hub_sequence db0, hub_publish_ids (completeClaim (pp_topicID params) (nextID m) (pp_publishID params) db0)))
    as Hcc by (intros; unfold completeClaim; by destruct (pp_publishID params)).
  specialize (Hcc db'). unfold other_tables in Hcc. injection Hcc as C1 C2 C3 C4 C5.
  assert (∀ A (g : DB -> A), (∀ f db0, g (set_publish_ids f db0) = g db0) -> g (claimed now params db) = g db) as Hcl
    by (intros A g Hg; unfold claimed; destruct (pp_publishID params); auto).
  split.
  - eapply frames_sim_frame; [exact Hf'|done..| | |]; unfold completeClaim; by destruct (pp_publishID params).
  - by rewrite C5, O5, R1.
  - intros t d. rewrite C4, O4, (Hcl _ hub_subscriptions) by done. unfold subs_of. rewrite R4. apply Hsub.
  - eapply ids_sim_completed; [exact Hi|done..]. 
  - destruct Hk as [K1 K3]. split; rewrite ?C1, ?C2, ?O1, ?O2, ?(Hcl _ hub_key_packages), ?(Hcl _ hub_key_packages_id) by done;
      [done|]. intros o. unfold packagesOf, ownedBy, poolOf. rewrite C1, O1, (Hcl _ hub_key_packages), R6 by done. apply K3.
  - by rewrite C3, O3, (Hcl _ hub_last_resort_key_packages), R7 by done.
Qed.
End state.
