(* ===== verification/SQLStoreSpec.v ===== *)
(** * Two stores, one contract

    The SQL store is an instance of the interface in HubStore.v and keeps its laws, and the two stores
    answer the same calls alike: a host may replace one by the other. *)

From S2P Require Import Prelude SeqID HubProtocol HubSpec SQLStore SQLStoreFacts MemoryStore MemoryStoreFacts MemoryStoreSpec HubStore StoreBatches SQLStoreSim SQLStorePurge SQLStoreState.

#[export] Instance sql_store `{Engine} (cfg : HubStoreConfig) : HubStore DB := {|
  store_publish now p db := SQLStore.publish cfg now p db;
  store_subscribe now p db := SQLStore.subscribe cfg now p db;
  store_unsubscribe did t db := (SQLStore.unsubscribe did t db, Ok tt);
  store_fetch p db := let '(db', r) := SQLStore.fetch p db in (db', Ok r);
  store_fetchTopic p db := (db, SQLStore.fetchTopic p db);
  store_ack did ids db := (SQLStore.ack did ids db, Ok tt);
  store_trim t before db := (SQLStore.trim t before db, Ok tt);
  store_purge now olderThan db := let '(db', ids) := SQLStore.purge cfg now olderThan db in (db', Ok ids);
  store_getSubscribers t db := (db, Ok (SQLStore.getSubscribers t db));
  store_storeKeyPackage now p db := SQLStore.storeKeyPackage cfg now p db;
  store_fetchKeyPackages now d n db :=
    let '(db', l) := SQLStore.fetchKeyPackages now d (Some n) db in (db', Ok l);
  store_countKeyPackages now d db := (db, Ok (SQLStore.countKeyPackages now d db));
  store_storeLastResort d kp db := (SQLStore.storeLastResortKeyPackage d kp db, Ok tt);
  store_fetchLastResort d db := (db, Ok (SQLStore.fetchLastResortKeyPackage d db));
|}.

(** ** A store as the sequence of its answers *)

(** The calls of [HubStore]. *)
Inductive Call :=
  | CallPublish (params : PublishParams)
  | CallSubscribe (params : SubscribeParams)
  | CallUnsubscribe (did topicID : string)
  | CallFetch (params : FetchParams)
  | CallFetchTopic (params : FetchTopicParams)
  | CallAck (did : string) (sequenceIDs : list string)
  | CallTrim (topicID before : string)
  | CallPurge (olderThan : Z)
  | CallGetSubscribers (topicID : string)
  | CallStoreKeyPackage (params : StoreKeyPackageParams)
  | CallFetchKeyPackages (ownerDID : string) (count : nat)
  | CallCountKeyPackages (ownerDID : string)
  | CallStoreLastResort (ownerDID keyPackage : string)
  | CallFetchLastResort (ownerDID : string).

Inductive Answer :=
  | Done (r : result Thrown unit)
  | Published (r : result Thrown PublishResult)
  | Fetched (r : result Thrown FetchResult)
  | FetchedTopic (r : result Thrown FetchTopicResult)
  | Removed (r : result Thrown (list string))
  | Counted (r : result Thrown nat)
  | Found (r : result Thrown (option string))
  (** An array in no order the interface promises. *)
  | Several (r : result Thrown (list string)).

Definition answered {S A} (f : result Thrown A -> Answer) (r : S * result Thrown A) : S * Answer :=
  (r.1, f r.2).

Definition call {S} `{HubStore S} (now : Z) (c : Call) (s : S) : S * Answer :=
  match c with
  | CallPublish params => answered Published (store_publish now params s)
  | CallSubscribe params => answered Done (store_subscribe now params s)
  | CallUnsubscribe did t => answered Done (store_unsubscribe did t s)
  | CallFetch params => answered Fetched (store_fetch params s)
  | CallFetchTopic params => answered FetchedTopic (store_fetchTopic params s)
  | CallAck did ids => answered Done (store_ack did ids s)
  | CallTrim t before => answered Done (store_trim t before s)
  | CallPurge olderThan => answered Removed (store_purge now olderThan s)
  | CallGetSubscribers t => answered Several (store_getSubscribers t s)
  | CallStoreKeyPackage params => answered Done (store_storeKeyPackage now params s)
  | CallFetchKeyPackages o n => answered Several (store_fetchKeyPackages now o n s)
  | CallCountKeyPackages o => answered Counted (store_countKeyPackages now o s)
  | CallStoreLastResort o kp => answered Done (store_storeLastResort o kp s)
  | CallFetchLastResort o => answered Found (store_fetchLastResort o s)
  end.

(** The answers to a sequence of calls, each at its time. *)
Fixpoint answers {S} `{HubStore S} (calls : list (Z * Call)) (s : S) : list Answer :=
  match calls with
  | [] => []
  | (now, c) :: calls => let '(s', a) := call now c s in a :: answers calls s'
  end.

(** The same answer, an unordered array up to its order. *)
Definition agrees (a b : Answer) : Prop :=
  match a, b with
  | Several (Ok l1), Several (Ok l2) => l1 ≡ₚ l2
  | _, _ => a = b
  end.

Lemma agrees_refl a b : a = b -> agrees a b.
Proof. intros <-. destruct a as [| | | | | | |[l|e]]; simpl; reflexivity. Qed.

(** ** The laws *)

Section laws.
Context `{EngineLaws}.

Lemma publishAccept_minted cfg now p db db' r :
  publishAccept cfg now p db = (db', Ok r) -> pr_deduped r = false.
Proof.
  unfold publishAccept. cbv [mbind mret sql_bind sql_ret nextSequenceID query execute].
  intros Hacc. repeat case_match; by simplify_eq/=.
Qed.

Lemma publish_answer cfg now p db db' r :
  SQLStore.publish cfg now p db = (db', Ok r) -> pr_deduped r = true -> db' = db.
Proof.
  unfold SQLStore.publish. rewrite transaction_spec. unfold publishCheck.
  cbv [mbind mret sql_bind sql_ret query throw]. intros Hpub Hdup.
  assert (∀ db1 db2 r', publishAccept cfg now p db1 = (db2, Ok r') -> pr_deduped r' = true -> False) as Hno.
  { intros db1 db2 r' Hacc%publishAccept_minted. by rewrite Hacc. }
  destruct (pp_publishID p) as [id|]; [unfold claimPublishID in Hpub|]; repeat case_match; simplify_eq/=;
    try done; exfalso; eauto.
Qed.

#[export] Instance sql_store_laws (cfg : HubStoreConfig) : @HubStoreLaws DB (sql_store cfg).
Proof.
  split; simpl; try done.
  - intros now p db db' r. apply publish_answer.
  - intros now p db db' e. unfold SQLStore.publish. rewrite transaction_spec.
    destruct (_ ≫= _) as [db1 [r|e']]; intros; by simplify_eq.
  - intros now d n db db' l [= <- <-]. apply (fetchKeyPackages_length now d n db).
Qed.

(** ** The same answers *)

(** One year, in milliseconds: how long the SQL store keeps a publish id. *)
Definition CLAIM_LIFETIME : Z := PUBLISH_ID_RETENTION_SECONDS * 1000.

(** The calls in time order, within the lifetime of a publish id. *)
Definition in_time (epoch : Z) (calls : list (Z * Call)) : Prop :=
  Sorted Z.le (map fst calls) ∧ ∀ now c, (now, c) ∈ calls -> (epoch <= now < epoch + CLAIM_LIFETIME)%Z.

(** The topic a publish id is used on. *)
Definition claims (id : string) (c : Z * Call) : option string :=
  match c.2 with
  | CallPublish params => if decide (pp_publishID params = Some id) then Some (pp_topicID params) else None
  | _ => None
  end.

Definition one_topic_per_id (calls : list (Z * Call)) : Prop :=
  ∀ id t t', t ∈ omap (claims id) calls -> t' ∈ omap (claims id) calls -> t = t'.

Definition home_of (calls : list (Z * Call)) (id : string) : string :=
  default "" (list.head (omap (claims id) calls)).

Lemma home_of_claims calls now params id :
  one_topic_per_id calls -> (now, CallPublish params) ∈ calls -> pp_publishID params = Some id ->
  home_of calls id = pp_topicID params.
Proof.
  intros Hone Hin Hid. unfold home_of.
  assert (pp_topicID params ∈ omap (claims id) calls) as Ht.
  { apply list_elem_of_omap. exists (now, CallPublish params). split; [done|]. unfold claims. simpl.
    by rewrite decide_True. }
  specialize (Hone id). destruct (omap (claims id) calls) as [|t ts]; [by apply elem_of_nil in Ht|].
  simpl. apply Hone; [by left|done].
Qed.

Section agreement.
Context (cfg : StoreConfig).
Context (default_within : exceeds (defaultRetention cfg) (maxRetention cfg) = false)
        (default_positive : (0 <= defaultRetention cfg)%Z).

#[local] Existing Instances memory_store sql_store.

(** The state-changing call behind a call, and the counter it leaves. *)
Definition opOf (now : Z) (c : Call) : option Op :=
  match c with
  | CallPublish params => Some (OpPublish now params)
  | CallSubscribe params => Some (OpSubscribe params)
  | CallUnsubscribe did t => Some (OpUnsubscribe did t)
  | CallFetch params => Some (OpFetch params)
  | CallAck did ids => Some (OpAck did ids)
  | CallTrim t before => Some (OpTrim t before)
  | CallPurge olderThan => Some (OpPurge now olderThan)
  | CallStoreKeyPackage params => Some (OpStoreKeyPackage now params)
  | CallFetchKeyPackages o n => Some (OpFetchKeyPackages now o (Some n))
  | CallStoreLastResort o kp => Some (OpStoreLastResort o kp)
  | CallFetchTopic _ | CallGetSubscribers _ | CallCountKeyPackages _ | CallFetchLastResort _ => None
  end.

Lemma call_exec now c (m : MemStore) :
  (@call _ (memory_store cfg) now c m).1 =
    match opOf now c with Some op => exec cfg op m | None => m end.
Proof.
  destruct c; simpl; try done.
  - by destruct (publish cfg now params m).
  - by destruct (subscribe cfg params m).
  - by destruct (storeKeyPackage cfg now params m).
  - by destruct (fetchKeyPackages now ownerDID (Some count) m).
Qed.

Lemma rest_counter m m' : rest_of m' = rest_of m -> ms_counter m' = ms_counter m.
Proof. unfold rest_of. by intros [=]. Qed.

Lemma exec_counter op (m : MemStore) :
  (ms_counter (exec cfg op m) <= ms_counter m + 1)%N.
Proof.
  destruct op as [now p|p|d ids|t before|now old|p|d t|now p|now d n|d kp]; cbn [exec].
  - destruct (publish_counter cfg now p m) as [->| ->]; lia.
  - unfold fetch. destruct (fp_ack p); cbn [fst]; [rewrite (rest_counter _ _ (ack_rest _ _ _))|]; lia.
  - rewrite (rest_counter _ _ (ack_rest _ _ _)). lia.
  - rewrite (rest_counter _ _ (trim_rest _ _ _)). lia.
  - rewrite (rest_counter _ _ (purge_rest cfg now old m)). lia.
  - unfold subscribe. repeat case_match; simpl; lia.
  - rewrite (rest_counter _ _ (unsubscribe_rest _ _ _)). simpl. lia.
  - unfold storeKeyPackage. case_match; simpl; lia.
  - unfold fetchKeyPackages. repeat case_match; simpl; lia.
  - simpl. lia.
Qed.

Lemma call_rel now c (m : MemStore) a :
  store_rel m a -> (ms_counter m + 1 < SEQUENCE_LIMIT)%N ->
  (∃ a', store_rel (@call _ (memory_store cfg) now c m).1 a') ∧
  (ms_counter (@call _ (memory_store cfg) now c m).1 <= ms_counter m + 1)%N.
Proof.
  intros Hm Hc. rewrite call_exec. destruct (opOf now c) as [op|]; [|split; [by eexists|lia]].
  pose proof (exec_counter op m) as Hcount. split; [|done].
  destruct (exec_rel cfg op m a Hm) as (a' & _ & ?); [lia|by eexists].
Qed.

(** Both stores' operation, unfolded to the call of the model. *)
Ltac run_call := cbn [call answered memory_store sql_store store_publish store_subscribe store_unsubscribe
  store_fetch store_fetchTopic store_ack store_trim store_purge store_getSubscribers store_storeKeyPackage
  store_fetchKeyPackages store_countKeyPackages store_storeLastResort store_fetchLastResort fst snd].

(** One call: the same answer, and the stores still related. *)
Lemma call_sim home epoch now c (m : MemStore) (db : DB) a :
  store_rel m a -> (ms_counter m + 1 < SEQUENCE_LIMIT)%N -> sim home epoch now m db ->
  (epoch <= now < epoch + CLAIM_LIFETIME)%Z ->
  (∀ params id, c = CallPublish params -> pp_publishID params = Some id -> home id = pp_topicID params) ->
  agrees (@call _ (memory_store cfg) now c m).2 (@call _ (sql_store (hubConfig cfg)) now c db).2 ∧
  sim home epoch now (@call _ (memory_store cfg) now c m).1 (@call _ (sql_store (hubConfig cfg)) now c db).1.
Proof.
  intros Hm Hc Hs Hnow Hhome. pose proof (sr_subs _ _ (proj1 Hm)) as Hwf.
  pose proof Hs as [Hf _ Hsub Hi Hk Hl]. destruct c; run_call.
  - destruct (publish_sim home epoch cfg now params m db a Hm Hc Hs (proj1 Hnow)) as [Heq Hs'].
    { intros id Hid. by eapply Hhome. }
    rewrite Heq. by destruct (publish cfg now params m).
  - destruct (subscribe_sim home epoch cfg now params m db default_within Hwf Hs) as [Heq Hs'].
    rewrite Heq. by destruct (subscribe cfg params m).
  - split; [done|]. by eapply unsubscribe_whole.
  - destruct (fetch_sim params m db a Hm Hf) as [Heq Hf'].
    pose proof (fetch_others params db) as Ho.
    assert (rest_of (fetch params m).1 = rest_of m) as Hr.
    { unfold fetch. destruct (fp_ack params); [apply ack_rest|done]. }
    destruct (SQLStore.fetch params db) as [db' r], (fetch params m) as [m' r']. cbn [fst snd] in *. subst.
    split; [done|]. by eapply sim_frame.
  - split; [|done]. apply agrees_refl. f_equal.
    rewrite (fetchTopic_sim params m db a Hm Hf (sim_isSubscribed m db _ _ Hsub)). by destruct (fetchTopic params m).
  - split; [done|]. eapply sim_frame; [done|by eapply ack_sim|apply ack_rest|apply ack_others].
  - split; [done|]. eapply sim_frame; [done|by eapply trim_sim|apply trim_rest|apply trim_others].
  - pose proof (purge_sim cfg now olderThan m db a Hm Hf Hsub default_positive) as (Heq & Hf' & Ho).
    rewrite (pruneClaims_none home epoch m db now Hi (proj2 Hnow)) in Ho.
    pose proof (purge_rest cfg now olderThan m) as Hr.
    destruct (SQLStore.purge (hubConfig cfg) now olderThan db) as [db' r], (purge cfg now olderThan m) as [m' r'].
    cbn [fst snd] in *. subst. split; [done|]. by eapply sim_frame.
  - split; [|done]. simpl. symmetry. by apply getSubscribers_sim.
  - destruct (storeKeyPackage_sim cfg now params m db Hk) as [Heq Hk'].
    rewrite Heq. split; [by destruct (storeKeyPackage cfg now params m)|].
    destruct (storeKeyPackage_frame cfg now params m db) as [Hr Ho].
    destruct (storeKeyPackage cfg now params m). by eapply sim_keys_frame.
  - destruct (fetchKeyPackages_sim now ownerDID count m db Hk) as [Heq Hk'].
    destruct (fetchKeyPackages_frame now ownerDID count m db) as [Hr Ho].
    destruct (SQLStore.fetchKeyPackages now ownerDID (Some count) db), (fetchKeyPackages now ownerDID (Some count) m).
    split; [by simpl; symmetry|]. by eapply sim_keys_frame.
  - split; [|done]. apply agrees_refl. by rewrite (countKeyPackages_sim now ownerDID m db Hk).
  - split; [done|]. destruct Hs as [Hf' Hc' Hsub' [I1 I2] [K1 K2] Hl'].
    split; [by eapply frames_sim_frame|done|done|by split|by split|]. simpl. by rewrite Hl'.
  - split; [|done]. apply agrees_refl. do 2 f_equal. unfold SQLStore.fetchLastResortKeyPackage.
    by rewrite Hl.
Qed.

(** Every call of a run. *)
Lemma answers_agree home epoch calls (m : MemStore) (db : DB) a t0 :
  store_rel m a -> (ms_counter m + N.of_nat (length calls) < SEQUENCE_LIMIT)%N ->
  sim home epoch t0 m db -> Sorted Z.le (t0 :: map fst calls) ->
  (∀ now c, (now, c) ∈ calls -> (epoch <= now < epoch + CLAIM_LIFETIME)%Z) ->
  (∀ now params id, (now, CallPublish params) ∈ calls -> pp_publishID params = Some id ->
    home id = pp_topicID params) ->
  Forall2 agrees (@answers _ (memory_store cfg) calls m) (@answers _ (sql_store (hubConfig cfg)) calls db).
Proof.
  revert m db a t0. induction calls as [|[now c] calls IH]; intros m db a t0 Hm Hc Hs Hsorted Htime Hhome.
  { constructor. }
  cbn [answers]. apply Sorted_inv in Hsorted as [Hsorted Hle]. apply HdRel_inv in Hle.
  cbn [length] in Hc.
  destruct (call_rel now c m a Hm) as [[a' Hm'] Hcount]; [lia|].
  destruct (call_sim home epoch now c m db a Hm) as [Hagree Hs'];
    [lia|by eapply sim_later|apply (Htime now c); by left| |].
  { intros params id -> Hid. apply (Hhome now); [by left|done]. }
  destruct (@call _ (memory_store cfg) now c m) as [m' am], (@call _ (sql_store (hubConfig cfg)) now c db) as [db' ad].
  simpl in *. constructor; [done|]. apply (IH m' db' a' now); [done|lia|done..| |].
  - intros now' c' Hin. apply (Htime now' c'). by right.
  - intros now' params id Hin. apply (Hhome now'). by right.
Qed.
End agreement.
End laws.


(** ** A run *)

Module Demo.
(** An engine that scans backwards. *)
#[export] Instance backwards : Engine := {|
  scan A rows := rev rows;
  encodeBinary payload := payload;
  withStoreTransaction A body db :=
    match body db with
    | (db', Ok a) => (db', Ok a)
    | (_, Err e) => (db, Err e)
    end
|}.

#[export] Instance backwards_laws : @EngineLaws backwards.
Proof.
  split; [|done| |]; simpl.
  - intros A rows. symmetry. apply Permutation_rev.
  - intros A body db db' a. by intros ->.
  - intros A body db db' e. by intros ->.
Qed.

Definition cfg : StoreConfig := mkStoreConfig (Finite 2) 10 (Finite 100) (Finite 2) (Finite 3).

Definition frame (topic : string) (id : option string) (retain : RetentionClass) : PublishParams :=
  mkPublish "alice" topic [] None id (Some retain).

Definition calls : list (Z * Call) :=
  [ (0%Z, CallSubscribe (mkSubscribe "alice" "t" (Some 20%Z)));
    (1000%Z, CallSubscribe (mkSubscribe "bob" "t" None));
    (2000%Z, CallSubscribe (mkSubscribe "bob" "u" (Some 101%Z)));
    (3000%Z, CallPublish (frame "t" (Some "p") Log));
    (4000%Z, CallPublish (frame "t" None Mailbox));
    (5000%Z, CallPublish (frame "t" (Some "p") Log));
    (6000%Z, CallPublish (frame "t" None Log));
    (7000%Z, CallPublish (frame "t" None Log));
    (7000%Z, CallPublish (mkPublish "bob" "t" [] (Some None) None (Some Log)));
    (8000%Z, CallFetch (mkFetch "bob" None (Some 2) None));
    (8000%Z, CallFetch (mkFetch "bob" None None (Some ["000000000002"])));
    (9000%Z, CallFetchTopic (mkFetchTopic "alice" "t" None None));
    (9000%Z, CallGetSubscribers "t");
    (9000%Z, CallStoreKeyPackage (mkStoreKeyPackage "bob" "k1" (Some 10%Z)));
    (9000%Z, CallStoreKeyPackage (mkStoreKeyPackage "bob" "k2" None));
    (9000%Z, CallStoreKeyPackage (mkStoreKeyPackage "bob" "k3" None));
    (11000%Z, CallStoreKeyPackage (mkStoreKeyPackage "bob" "k3" None));
    (11000%Z, CallFetchKeyPackages "bob" 2);
    (26500%Z, CallPurge 0);
    (28000%Z, CallUnsubscribe "bob" "t");
    (28000%Z, CallFetchTopic (mkFetchTopic "alice" "t" None None)) ].
End Demo.

Lemma demo_in_time : in_time 0 Demo.calls.
Proof.
  split; [repeat (constructor; [|by repeat constructor]); repeat constructor; done|].
  intros now c Hin. unfold CLAIM_LIFETIME, PUBLISH_ID_RETENTION_SECONDS.
  repeat (apply elem_of_cons in Hin as [[= -> _]|Hin]; [lia|]). by apply elem_of_nil in Hin.
Qed.

Lemma demo_one_topic : one_topic_per_id Demo.calls.
Proof.
  assert (∀ id t, t ∈ omap (claims id) Demo.calls -> t = "t") as H.
  { intros id t (c & Hc & Ht)%list_elem_of_omap.
    repeat (apply elem_of_cons in Hc as [->|Hc]; [unfold claims in Ht; simpl in Ht; by repeat case_decide; simplify_eq|]).
    by apply elem_of_nil in Hc. }
  intros id t t' Ht%H Ht'%H. congruence.
Qed.


(** The bound on publish ids is needed: used on a second topic, an id is a replay to the in-memory store
    and a new publish to the SQL store. *)
Lemma publish_ids_scoped_differently :
  let calls := [(0%Z, CallPublish (Demo.frame "t" (Some "p") Log));
                (0%Z, CallPublish (Demo.frame "u" (Some "p") Log))] in
  last (@answers MemStore (memory_store Demo.cfg) calls createMemoryStore) =
    Some (Published (Ok (mkPublishResult "000000000001" true))) ∧
  last (@answers DB (@sql_store Demo.backwards (hubConfig Demo.cfg)) calls migrated) =
    Some (Published (Ok (mkPublishResult "000000000002" false))).
Proof. split; vm_compute; reflexivity. Qed.

(** So is the year: past it the SQL store's sweep has dropped the id. *)
Lemma publish_ids_expire :
  let calls := [(0%Z, CallPublish (Demo.frame "t" (Some "p") Log)); (CLAIM_LIFETIME, CallPurge 0);
                (CLAIM_LIFETIME, CallPublish (Demo.frame "t" (Some "p") Log))] in
  last (@answers MemStore (memory_store Demo.cfg) calls createMemoryStore) =
    Some (Published (Ok (mkPublishResult "000000000001" true))) ∧
  last (@answers DB (@sql_store Demo.backwards (hubConfig Demo.cfg)) calls migrated) =
    Some (Published (Ok (mkPublishResult "000000000002" false))).
Proof. split; vm_compute; reflexivity. Qed.

(** And the default within the maximum: a subscribe that asks for nothing is refused by one store only. *)
Lemma default_retention_checked_differently :
  let cfg := mkStoreConfig (Finite 2) 200 (Finite 100) (Finite 2) (Finite 3) in
  let calls := [(0%Z, CallSubscribe (mkSubscribe "bob" "t" None))] in
  @answers MemStore (memory_store cfg) calls createMemoryStore =
    [Done (Err (HubError RetentionExceededError ""))] ∧
  @answers DB (@sql_store Demo.backwards (hubConfig cfg)) calls migrated = [Done (Ok tt)].
Proof. split; vm_compute; reflexivity. Qed.
