(* ===== verification/SQLPublish.v ===== *)
(** * Publishes that run at the same time

    [publish] of store.ts under Postgres: the statements up to the head check run on whatever is committed
    (READ COMMITTED), and transactions may be anywhere among them; from the mint on, a transaction holds
    the one row of [hub_sequence] until it commits, so those statements run one transaction at a time. A
    claim on a publish id is a row: a second transaction waits for the first to commit or roll back. *)

From S2P Require Import Prelude SeqID HubProtocol HubSpec SQLStore SQLStoreFacts MemoryStore MemoryStoreFacts MemoryStoreSpec HubStore StoreBatches SQLStoreSim SQLStorePurge SQLStoreState SQLStoreSpec.

Record Tx := mkTx { tx_now : Z; tx_params : PublishParams }.

(** What is committed, and the transactions past their head check and before their mint. *)
Record System := mkSystem { committed : DB; inflight : gmap nat Tx }.

(** The row a publish claims. *)
Definition claimOf (params : PublishParams) : option (string * string) :=
  (fun id => (pp_topicID params, id)) <$> pp_publishID params.

(** A second claim on a row waits. *)
Definition waits (params : PublishParams) (s : System) : Prop :=
  ∃ i tx k, inflight s !! i = Some tx ∧ claimOf (tx_params tx) = Some k ∧ claimOf params = Some k.

(** What a run does that can be seen: a publish answers, or another transaction commits. *)
Inductive Event :=
  | Answered (now : Z) (params : PublishParams) (answer : result Thrown PublishResult)
  | Elsewhere (db : DB).

(** What a check that does not go on answers. *)
Definition answerOf (r : result Thrown (option PublishResult)) : option (result Thrown PublishResult) :=
  match r with
  | Ok None => None
  | Ok (Some deduped) => Some (Ok deduped)
  | Err e => Some (Err e)
  end.

Section concurrent.
Context `{EngineLaws} (cfg : HubStoreConfig).

Inductive step : System -> option Event -> System -> Prop :=
  (** The check refuses, or finds the publish already accepted: rolled back or read only. *)
  | step_answered s now params db r answer :
      ¬ waits params s ->
      publishCheck now params (committed s) = (db, r) ->
      answerOf r = Some answer ->
      step s (Some (Answered now params answer)) s
  (** The check passes: the claim is held from here on. *)
  | step_checked s i now params db :
      ¬ waits params s ->
      inflight s !! i = None ->
      publishCheck now params (committed s) = (db, Ok None) ->
      step s None (mkSystem (committed s) (<[i := mkTx now params]> (inflight s)))
  (** The rest, on what is committed by then and the transaction's own claim. *)
  | step_accept s i tx db r :
      inflight s !! i = Some tx ->
      publishAccept cfg (tx_now tx) (tx_params tx) (claimed (tx_now tx) (tx_params tx) (committed s)) = (db, r) ->
      step s (Some (Answered (tx_now tx) (tx_params tx) r))
        (mkSystem (match r with Ok _ => db | Err _ => committed s end) (delete i (inflight s)))
  (** Any other transaction; none but a publish writes a publish id. *)
  | step_elsewhere s db :
      (∀ k, is_Some (hub_publish_ids db !! k) -> is_Some (hub_publish_ids (committed s) !! k)) ->
      step s (Some (Elsewhere db)) (mkSystem db (inflight s)).

Inductive runs : System -> list Event -> System -> Prop :=
  | runs_nil s : runs s [] s
  | runs_silent s s1 trace s' : step s None s1 -> runs s1 trace s' -> runs s trace s'
  | runs_event s e s1 trace s' : step s (Some e) s1 -> runs s1 trace s' -> runs s (e :: trace) s'.

(** The same events, each publish whole at the moment it answers. *)
Fixpoint replays (db : DB) (trace : list Event) (db' : DB) : Prop :=
  match trace with
  | [] => db' = db
  | Answered now params answer :: trace =>
    ∃ db1, SQLStore.publish cfg now params db = (db1, answer) ∧ replays db1 trace db'
  | Elsewhere db1 :: trace => replays db1 trace db'
  end.

(** The head write re-checks the head: a log frame's, whenever it asked for one. *)
Definition arbitrated (params : PublishParams) : Prop :=
  default Mailbox (pp_retain params) = Log ∨ pp_expectedHead params = None.

Definition all_arbitrated (trace : list Event) : Prop :=
  ∀ now params answer, Answered now params answer ∈ trace -> arbitrated params.

(** ** The conditional write *)

Lemma advanceHead_loses t q expected db :
  head_as_expected expected (headOf db t) = false ->
  advanceHead t q expected db = (db, Err (HubError HeadMismatchError "")).
Proof.
  unfold head_as_expected, advanceHead, headOf. destruct expected as [e|]; [|done].
  intros He%bool_decide_eq_false. destruct (hub_topics db !! t) as [row|], e as [h|]; try done.
  simpl in He. rewrite decide_False; [done|]. congruence.
Qed.

(** Statements before the head write leave the head alone. *)
Lemma publishAccept_loses now params db :
  default Mailbox (pp_retain params) = Log ->
  head_as_expected (pp_expectedHead params) (headOf db (pp_topicID params)) = false ->
  (publishAccept cfg now params db).2 = Err (HubError HeadMismatchError "").
Proof.
  intros Hlog Hexp. unfold publishAccept. rewrite Hlog.
  cbv [mbind mret sql_bind sql_ret nextSequenceID query execute].
  rewrite advanceHead_loses; [done|]. unfold headOf, appendFrame in *. by case_match.
Qed.

(** The rest of a checked transaction is the whole publish, at the moment it commits. *)
Lemma accept_is_publish now params db :
  arbitrated params -> claimFree params db ->
  SQLStore.publish cfg now params db =
    (match (publishAccept cfg now params (claimed now params db)).2 with
     | Ok _ => (publishAccept cfg now params (claimed now params db)).1
     | Err _ => db
     end, (publishAccept cfg now params (claimed now params db)).2).
Proof.
  intros Harb Hfree. rewrite publish_fresh by done.
  assert (headOf (claimed now params db) (pp_topicID params) = headOf db (pp_topicID params)) as Hhead
    by (unfold claimed; by destruct (pp_publishID params)).
  destruct (head_as_expected (pp_expectedHead params) (headOf db (pp_topicID params))) eqn:Hexp.
  - by destruct (publishAccept cfg now params (claimed now params db)) as [db' [r|e]].
  - destruct Harb as [Hlog|Hnone]; [|by rewrite Hnone in Hexp].
    rewrite publishAccept_loses; [done|done|by rewrite Hhead].
Qed.

Lemma check_is_publish now params db db' r answer :
  publishCheck now params db = (db', r) -> answerOf r = Some answer ->
  SQLStore.publish cfg now params db = (db, answer).
Proof.
  intros Hcheck Hr. unfold SQLStore.publish. rewrite transaction_spec. cbv [mbind sql_bind]. rewrite Hcheck.
  destruct r as [[deduped|]|e]; simplify_eq/=; [|done]. unfold mret, sql_ret. f_equal.
  unfold publishCheck in Hcheck. cbv [mbind mret sql_bind sql_ret query throw] in Hcheck.
  destruct (pp_publishID params) as [id|]; [unfold claimPublishID in Hcheck|]; repeat case_match; by simplify_eq/=.
Qed.

(** ** The claims *)

(** A transaction in flight holds a claim nobody else has and nothing committed has. *)
Record claims_held (s : System) : Prop := {
  ch_free : ∀ i tx, inflight s !! i = Some tx -> claimFree (tx_params tx) (committed s);
  ch_own : ∀ i j tx tx' k, inflight s !! i = Some tx -> inflight s !! j = Some tx' ->
    claimOf (tx_params tx) = Some k -> claimOf (tx_params tx') = Some k -> i = j;
}.

Lemma claimFree_alt params db :
  claimFree params db <-> ∀ k, claimOf params = Some k -> hub_publish_ids db !! k = None.
Proof. unfold claimFree, claimOf. destruct (pp_publishID params); simpl; naive_solver. Qed.

Lemma publishCheck_free now params db db' : publishCheck now params db = (db', Ok None) -> claimFree params db.
Proof.
  unfold publishCheck, claimFree. cbv [mbind mret sql_bind sql_ret query throw]. intros Hcheck.
  destruct (pp_publishID params) as [id|]; [|done]. unfold claimPublishID in Hcheck.
  repeat case_match; by simplify_eq/=.
Qed.

(** A publish adds its own claim and no other. *)
Lemma publishAccept_claims now params db db' r k :
  publishAccept cfg now params (claimed now params db) = (db', Ok r) -> claimOf params ≠ Some k ->
  hub_publish_ids db' !! k = hub_publish_ids db !! k.
Proof.
  intros Hacc Hk.
  assert (∀ db0, hub_publish_ids (claimed now params db0) !! k = hub_publish_ids db0 !! k ∧
    ∀ q, hub_publish_ids (completeClaim (pp_topicID params) q (pp_publishID params) db0) !! k =
      hub_publish_ids db0 !! k) as Hclaim.
  { intros db0. unfold claimed, completeClaim, claimOf in *. destruct (pp_publishID params); [|done].
    simpl in *. rewrite lookup_insert_ne by congruence. split; [done|]. intros q.
    by rewrite lookup_alter_ne by congruence. }
  destruct (head_as_expected (pp_expectedHead params) (headOf (claimed now params db) (pp_topicID params))) eqn:Hexp.
  - rewrite publishAccept_eq in Hacc by done. injection Hacc as <- _.
    rewrite (proj2 (Hclaim _)), <- (proj1 (Hclaim db)).
    assert (∀ db1 db2, other_tables db1 = other_tables db2 -> hub_publish_ids db1 = hub_publish_ids db2) as Hot
      by (unfold other_tables; congruence).
    f_equal. set (db1 := stored _ _ _ _ _ _).
    transitivity (hub_publish_ids db1); [destruct (default _ _); [apply Hot, evictDepth_others|done]|].
    unfold db1. rewrite (Hot _ _ (stored_others _ _ _ _ _ _)). done.
  - destruct (default Mailbox (pp_retain params)) eqn:Hr.
    { apply (f_equal snd) in Hacc. by rewrite publishAccept_loses in Hacc. }
    unfold publishAccept in Hacc. rewrite Hr in Hacc.
    cbv [mbind mret sql_bind sql_ret nextSequenceID query execute] in Hacc. injection Hacc as <- _.
    rewrite (proj2 (Hclaim _)), <- (proj1 (Hclaim db)). unfold appendFrame. by case_match.
Qed.

Lemma step_claims s e s' : step s e s' -> claims_held s -> claims_held s'.
Proof.
  intros Hstep [Hfree Hown]. destruct Hstep as [s now params db r answer Hw Hc Hr|s i now params db Hw Hi Hc|s i tx db r Hi Ha|s db Hdb];
    [done| | |].
  - split; simpl.
    + intros j tx [[-> <-]|[_ Hj]]%lookup_insert_Some; [by eapply publishCheck_free|by eapply Hfree].
    + intros j j' tx tx' k [[<- <-]|[Hne Hj]]%lookup_insert_Some [[<- <-]|[Hne' Hj']]%lookup_insert_Some Hk Hk';
        [done| | |by eapply Hown]; simpl in *; destruct Hw; repeat eexists; eauto.
  - split; simpl.
    + intros j tx' [Hne Hj]%lookup_delete_Some. destruct r as [r|e]; [|by eapply Hfree].
      apply claimFree_alt. intros k Hk.
      rewrite (publishAccept_claims _ _ _ _ _ _ Ha); [by eapply claimFree_alt; [eapply Hfree|]|].
      intros Hk'. apply Hne. by eapply Hown.
    + intros j j' tx1 tx2 k [_ Hj]%lookup_delete_Some [_ Hj']%lookup_delete_Some. by eapply Hown.
  - split; simpl; [|done]. intros i tx Hi. apply claimFree_alt. intros k Hk.
    destruct (hub_publish_ids db !! k) as [row|] eqn:Hrow; [|done].
    destruct (Hdb k ltac:(by eexists)) as [row' Hrow'].
    pose proof (proj1 (claimFree_alt _ _) (Hfree i tx Hi) k Hk). congruence.
Qed.
End concurrent.


(** ** A race *)

Module Race.
Import Demo.

Definition config : HubStoreConfig := hubConfig Demo.cfg.

(** Two members who both read an empty log. *)
Definition alice : PublishParams := mkPublish "alice" "t" [] (Some None) (Some "a") (Some Log).
Definition bob : PublishParams := mkPublish "bob" "t" [] (Some None) (Some "b") (Some Log).

Definition trace : list Event :=
  [Answered 1 bob (Ok (mkPublishResult "000000000001" false));
   Answered 0 alice (Err (HubError HeadMismatchError ""));
   Answered 2 bob (Ok (mkPublishResult "000000000001" true))].

Definition after : DB := (publishAccept config 1 bob (claimed 1 bob migrated)).1.

Lemma not_waiting params s :
  (∀ i tx, inflight s !! i = Some tx -> claimOf (tx_params tx) ≠ claimOf params) -> ¬ waits params s.
Proof. intros Hne (i & tx & k & Hi & Hk & Hk'). apply (Hne i tx Hi). congruence. Qed.

Lemma race : ∃ inflight, runs config (mkSystem migrated ∅) trace (mkSystem after inflight).
Proof.
  eexists. eapply runs_silent.
  { eapply (step_checked config (mkSystem migrated ∅) 0 0 alice).
    - by apply not_waiting.
    - done.
    - vm_compute. reflexivity. }
  eapply runs_silent.
  { eapply (step_checked config _ 1 1 bob).
    - apply not_waiting. intros i tx Hi. simpl in Hi.
      by apply lookup_insert_Some in Hi as [[<- <-]|[_ Hi]].
    - done.
    - vm_compute. reflexivity. }
  eapply runs_event.
  { eapply (step_accept config _ 1 (mkTx 1 bob) after). { vm_compute; reflexivity. } vm_compute. reflexivity. }
  eapply runs_event.
  { eapply (step_accept config _ 0 (mkTx 0 alice)). { vm_compute; reflexivity. } vm_compute. reflexivity. }
  eapply runs_event.
  { eapply step_answered; [|vm_compute; reflexivity|reflexivity]. apply not_waiting.
    intros i tx Hi. simpl in Hi. apply lookup_delete_Some in Hi as [? Hi].
    apply lookup_delete_Some in Hi as [? Hi].
    apply lookup_insert_Some in Hi as [[<- <-]|[_ Hi]]; [done|].
    by apply lookup_insert_Some in Hi as [[<- <-]|[_ Hi]]. }
  apply runs_nil.
Qed.

Lemma race_arbitrated : all_arbitrated trace.
Proof.
  intros now params answer Hin. left.
  repeat (apply elem_of_cons in Hin as [[= -> -> ->]|Hin]; [done|]). by apply elem_of_nil in Hin.
Qed.

(** A mailbox publish is not re-checked: it lands after the head it asked for is gone. *)
Definition hint : PublishParams := mkPublish "alice" "t" [] (Some None) None (Some Mailbox).

Lemma mailbox_check_goes_stale :
  publishCheck 0 hint migrated = (migrated, Ok None) ∧
  (publishAccept config 0 hint after).2 = Ok (mkPublishResult "000000000002" false) ∧
  (SQLStore.publish config 0 hint after).2 = Err (HubError HeadMismatchError "").
Proof. split_and!; vm_compute; reflexivity. Qed.
End Race.

