(* ===== verification/RateLimit.v ===== *)
(** * The per-key token bucket

    packages/hub-server/src/rateLimit.ts. Token counts are exact rationals (the code's are doubles);
    times are milliseconds. [config.rate] and [config.burst] are rationals, [ttlMs] an integer. The
    reference limiter keeps every key's bucket forever; the code's opportunistic pruning is shown to be
    indistinguishable from it. *)

From S2P Require Import Prelude.
From Stdlib Require Import QArith Qminmax Lqa.

#[local] Open Scope Q_scope.

Record RateLimitConfig := mkRateLimitConfig { rl_rate : Q; rl_burst : Q; rl_ttlMs : option Z }.

Record Bucket := mkBucket { tokens : Q; lastRefill : Z }.

Definition PRUNE_AT : nat := 1024.

Definition elapsedSeconds (from until : Z) : Q := inject_Z (until - from) / 1000.

Definition refilledTokens (bucket : Bucket) (now : Z) (rate burst : Q) : Q :=
  Qmin burst (tokens bucket + elapsedSeconds (lastRefill bucket) now * rate).

Section limiter.
Context (config : RateLimitConfig).

Definition ttlMs : Z := default 300000%Z (rl_ttlMs config).

Definition evictable (now : Z) (bucket : Bucket) : bool :=
  Qle_bool (rl_burst config) (refilledTokens bucket now (rl_rate config) (rl_burst config)) &&
  (ttlMs <=? now - lastRefill bucket)%Z.

Definition prune (now : Z) (buckets : gmap string Bucket) : gmap string Bucket :=
  filter (fun kv => evictable now kv.2 = false) buckets.

(** [bucket.tokens < 1] is refused; otherwise one token is spent. *)
Definition spend (bucket : Bucket) : Bucket * bool :=
  if Qle_bool 1 (tokens bucket)
  then (mkBucket (tokens bucket - 1) (lastRefill bucket), true)
  else (bucket, false).

Definition tryConsume (now : Z) (key : string) (buckets : gmap string Bucket) :
    gmap string Bucket * bool :=
  let '(buckets, bucket) :=
    match buckets !! key with
    | None =>
      (if PRUNE_AT <=? size buckets then prune now buckets else buckets,
       mkBucket (rl_burst config) now)%nat
    | Some bucket =>
      (buckets, mkBucket (refilledTokens bucket now (rl_rate config) (rl_burst config)) now)
    end in
  let '(bucket, admitted) := spend bucket in
  (<[key := bucket]> buckets, admitted).

(** A history of calls: each at its time, for its key. *)
Fixpoint consumeAll (calls : list (Z * string)) (buckets : gmap string Bucket) :
    gmap string Bucket * list bool :=
  match calls with
  | [] => (buckets, [])
  | (now, key) :: calls =>
    let '(buckets, admitted) := tryConsume now key buckets in
    let '(buckets, rest) := consumeAll calls buckets in
    (buckets, admitted :: rest)
  end.

(** ** The reference limiter: one bucket per key, full at the start, never dropped *)

Definition refTry (now : Z) (key : string) (buckets : string -> Bucket) :
    (string -> Bucket) * bool :=
  let bucket := mkBucket (refilledTokens (buckets key) now (rl_rate config) (rl_burst config)) now in
  let '(bucket, admitted) := spend bucket in
  (<[key := bucket]> buckets, admitted).

Fixpoint refAll (calls : list (Z * string)) (buckets : string -> Bucket) : list bool :=
  match calls with
  | [] => []
  | (now, key) :: calls =>
    let '(buckets, admitted) := refTry now key buckets in
    admitted :: refAll calls buckets
  end.

Definition refInit (start : Z) : string -> Bucket := fun _ => mkBucket (rl_burst config) start.

(** ** Levels *)

Abbreviation refilled b t := (refilledTokens b t (rl_rate config) (rl_burst config)).

Definition level (buckets : gmap string Bucket) (key : string) (t : Z) : Q :=
  match buckets !! key with
  | None => rl_burst config
  | Some b => refilled b t
  end.

Context (rate_nonneg : 0 <= rl_rate config).

Lemma elapsed_mono a t t' : (t <= t')%Z -> elapsedSeconds a t <= elapsedSeconds a t'.
Proof.
  intros H. unfold elapsedSeconds, Qdiv. apply Qmult_le_compat_r; [|done].
  rewrite <- Zle_Qle. lia.
Qed.

Lemma elapsed_add a t t' : elapsedSeconds a t' == elapsedSeconds a t + elapsedSeconds t t'.
Proof.
  unfold elapsedSeconds, Qdiv. transitivity ((inject_Z (t - a) + inject_Z (t' - t)) * / 1000); [|ring].
  apply Qmult_comp; [|done]. rewrite <- inject_Z_plus.
  by replace (t' - a)%Z with (t - a + (t' - t))%Z by lia.
Qed.

Lemma elapsed_nonneg a t : (a <= t)%Z -> 0 <= elapsedSeconds a t.
Proof.
  intros H. apply Qle_trans with (elapsedSeconds a a); [|by apply elapsed_mono].
  unfold elapsedSeconds. by rewrite Z.sub_diag.
Qed.

Lemma gain_nonneg a t : (a <= t)%Z -> 0 <= elapsedSeconds a t * rl_rate config.
Proof. intros H. apply Qmult_le_0_compat; [by apply elapsed_nonneg|done]. Qed.

(** Refilling in two stages is refilling once. *)
Lemma refilled_later b t t' : (t <= t')%Z ->
  refilled b t' == Qmin (rl_burst config) (refilled b t + elapsedSeconds t t' * rl_rate config).
Proof.
  intros Ht. unfold refilledTokens. rewrite (elapsed_add _ t t'), Qmult_plus_distr_l.
  pose proof (gain_nonneg t t' Ht) as Hg.
  set (g := elapsedSeconds t t' * rl_rate config) in *.
  set (x := elapsedSeconds (lastRefill b) t * rl_rate config) in *.
  destruct (Q.min_spec (rl_burst config) (tokens b + x)) as [[? Hm]|[? Hm]]; rewrite Hm.
  - rewrite !Q.min_l by lra. done.
  - rewrite Qplus_assoc. done.
Qed.

Lemma Qmin_comp_r a x y : x == y -> Qmin a x == Qmin a y.
Proof. intros ->. done. Qed.

Lemma level_burst m k t : level m k t <= rl_burst config.
Proof. unfold level, refilledTokens. destruct (m !! k); [apply Q.le_min_l|apply Qle_refl]. Qed.

Lemma level_prune now m k t : (now <= t)%Z -> level (prune now m) k t == level m k t.
Proof.
  intros Ht. unfold level, prune. rewrite map_lookup_filter.
  destruct (m !! k) as [b|]; [|done]. simpl.
  destruct (evictable now b) eqn:He; simpl; [|done].
  unfold evictable in He. apply andb_true_iff in He as [He _]. apply Qle_bool_iff in He.
  rewrite (refilled_later b now t Ht). pose proof (gain_nonneg now t Ht).
  rewrite Q.min_l; [done|lra].
Qed.

(** One call: admitted exactly when the key's level is a token or more, and then a token poorer. *)
Lemma tryConsume_level now key m :
  let '(m', admitted) := tryConsume now key m in
  admitted = Qle_bool 1 (level m key now) ∧
  (∀ t, (now <= t)%Z -> level m' key t ==
    Qmin (rl_burst config) (level m key now - (if admitted then 1 else 0)
                            + elapsedSeconds now t * rl_rate config)) ∧
  (∀ k t, k ≠ key -> (now <= t)%Z -> level m' k t == level m k t).
Proof.
  unfold tryConsume. 
  assert (∀ m0 b, lastRefill b = now -> tokens b = level m key now ->
    (∀ k t, k ≠ key -> (now <= t)%Z -> level m0 k t == level m k t) ->
    let '(b', admitted) := spend b in
    admitted = Qle_bool 1 (level m key now) ∧
    (∀ t, (now <= t)%Z -> level (<[key := b']> m0) key t ==
      Qmin (rl_burst config) (level m key now - (if admitted then 1 else 0)
                              + elapsedSeconds now t * rl_rate config)) ∧
    (∀ k t, k ≠ key -> (now <= t)%Z -> level (<[key := b']> m0) k t == level m k t)) as H.
  { intros m0 b Hb1 Hb2 Hother. unfold spend. rewrite Hb2.
    destruct (Qle_bool 1 (level m key now)); (split; [done|]); split.
    - intros t Ht. unfold level at 1. rewrite lookup_insert_eq. unfold refilledTokens. simpl.
      by rewrite Hb1.
    - intros k t Hk Ht. eapply Qeq_trans; [|by apply (Hother k t)].
      unfold level. by rewrite lookup_insert_ne.
    - intros t Ht. unfold level at 1. rewrite lookup_insert_eq. unfold refilledTokens. simpl.
      rewrite Hb1, Hb2. apply Qmin_comp_r. ring.
    - intros k t Hk Ht. eapply Qeq_trans; [|by apply (Hother k t)].
      unfold level. by rewrite lookup_insert_ne. }
  destruct (m !! key) as [b|] eqn:Hm.
  - specialize (H m (mkBucket (refilled b now) now) eq_refl).
    destruct (spend _) as [b' admitted]. apply H; [|done]. unfold level. by rewrite Hm.
  - specialize (H (if (PRUNE_AT <=? size m)%nat then prune now m else m)
                  (mkBucket (rl_burst config) now) eq_refl).
    destruct (spend _) as [b' admitted]. apply H; [unfold level; by rewrite Hm|].
    intros k t _ Ht. destruct (_ <=? _)%nat; [by apply level_prune|done].
Qed.

(** ** Runs *)

(** Calls at times that never go back, starting no earlier than [from]. *)
Fixpoint ordered (from : Z) (calls : list (Z * string)) : Prop :=
  match calls with
  | [] => True
  | (now, _) :: calls => (from <= now)%Z ∧ ordered now calls
  end.

Lemma ordered_weaken from from' calls : (from' <= from)%Z -> ordered from calls -> ordered from' calls.
Proof. destruct calls as [|[now k] calls]; simpl; [done|]. intros ? [? ?]. split; [lia|done]. Qed.

Definition ref_level (buckets : string -> Bucket) (key : string) (t : Z) : Q := refilled (buckets key) t.

(** The two limiters agree when every key's level agrees from now on. *)
Definition agrees (now : Z) (m : gmap string Bucket) (r : string -> Bucket) : Prop :=
  ∀ k t, (now <= t)%Z -> level m k t == ref_level r k t.

Lemma refTry_level now key r :
  let '(r', admitted) := refTry now key r in
  admitted = Qle_bool 1 (ref_level r key now) ∧
  (∀ t, ref_level r' key t ==
    Qmin (rl_burst config) (ref_level r key now - (if admitted then 1 else 0)
                            + elapsedSeconds now t * rl_rate config)) ∧
  (∀ k t, k ≠ key -> ref_level r' k t = ref_level r k t).
Proof.
  unfold refTry, spend, ref_level. cbn [tokens lastRefill].
  destruct (Qle_bool 1 (refilled (r key) now)); (split; [done|]); (split; [|]).
  - intros t. rewrite fn_lookup_insert. unfold refilledTokens at 1. cbn [tokens lastRefill]. done.
  - intros k t Hk. by rewrite fn_lookup_insert_ne.
  - intros t. rewrite fn_lookup_insert. unfold refilledTokens at 1. cbn [tokens lastRefill].
    apply Qmin_comp_r. ring.
  - intros k t Hk. by rewrite fn_lookup_insert_ne.
Qed.

Lemma agrees_step now key m r :
  agrees now m r ->
  (tryConsume now key m).2 = (refTry now key r).2 ∧
  agrees now (tryConsume now key m).1 (refTry now key r).1.
Proof.
  intros Hag. pose proof (tryConsume_level now key m) as Hm. pose proof (refTry_level now key r) as Hr.
  destruct (tryConsume now key m) as [m' am]. destruct (refTry now key r) as [r' ar].
  destruct Hm as (Ham & Hm & Hm'). destruct Hr as (Har & Hr & Hr'). simpl.
  assert (am = ar) as ->.
  { rewrite Ham, Har. apply eq_true_iff_eq. rewrite !Qle_bool_iff.
    by rewrite (Hag key now ltac:(lia)). }
  split; [done|]. intros k t Ht. destruct (decide (k = key)) as [->|Hk].
  - rewrite Hm, Hr by done. apply Qmin_comp_r. by rewrite (Hag key now ltac:(lia)).
  - rewrite Hm' by done. rewrite Hr' by done. by apply Hag.
Qed.

Lemma agrees_run now calls m r :
  agrees now m r -> ordered now calls -> (consumeAll calls m).2 = refAll calls r.
Proof.
  revert now m r. induction calls as [|[t k] calls IH]; intros now m r Hag Hord; [done|].
  destruct Hord as [Ht Hord]. cbn [consumeAll refAll].
  destruct (agrees_step t k m r) as [Hadm Hag'].
  { intros k' t' Ht'. apply Hag. lia. }
  destruct (tryConsume t k m) as [m' am]. destruct (refTry t k r) as [r' ar]. simpl in *. subst am.
  specialize (IH t m' r' Hag' Hord). destruct (consumeAll calls m') as [m'' rest]. simpl in *.
  by rewrite IH.
Qed.

(** How many of a history's calls for a key were admitted. *)
Definition admittedFor (key : string) (calls : list (Z * string)) (results : list bool) : Z :=
  Z.of_nat (length (filter (fun cr => cr.1.2 = key ∧ cr.2 = true) (zip calls results))).

(** The time of the last call; [from] when there is none. *)
Definition endTime (from : Z) (calls : list (Z * string)) : Z := foldl (fun _ c => c.1) from calls.

Lemma ordered_end from calls : ordered from calls -> (from <= endTime from calls)%Z.
Proof.
  revert from. induction calls as [|[t k] calls IH]; intros from; simpl; [lia|].
  intros [? Hord]. specialize (IH _ Hord). simpl in IH. unfold endTime in *. lia.
Qed.

Lemma level_later m key t t' :
  (t <= t')%Z -> level m key t' <= level m key t + elapsedSeconds t t' * rl_rate config.
Proof.
  intros Ht. pose proof (gain_nonneg t t' Ht). unfold level. destruct (m !! key) as [b|]; [|lra].
  rewrite (refilled_later b t t' Ht). apply Q.le_min_r.
Qed.

Lemma level_keeps m key t t' : (t <= t')%Z -> level m key t <= level m key t'.
Proof.
  intros Ht. pose proof (gain_nonneg t t' Ht). unfold level. destruct (m !! key) as [b|]; [|lra].
  rewrite (refilled_later b t t' Ht). apply Q.min_glb; [apply Q.le_min_l|lra].
Qed.

Context (burst_nonneg : 0 <= rl_burst config).

Definition solvent (now : Z) (m : gmap string Bucket) : Prop := ∀ k t, (now <= t)%Z -> 0 <= level m k t.

Lemma solvent_step now key m : solvent now m -> solvent now (tryConsume now key m).1.
Proof.
  intros Hs k t Ht. pose proof (tryConsume_level now key m) as Hm.
  destruct (tryConsume now key m) as [m' admitted]. destruct Hm as (Hadm & Hm & Hm'). simpl.
  destruct (decide (k = key)) as [->|Hk]; [|rewrite Hm' by done; by apply Hs].
  rewrite Hm by done. pose proof (gain_nonneg now t Ht). apply Q.min_glb; [done|].
  destruct admitted.
  - symmetry in Hadm. apply Qle_bool_iff in Hadm. lra.
  - pose proof (Hs key now ltac:(lia)). lra.
Qed.

Lemma solvent_later now now' m : (now <= now')%Z -> solvent now m -> solvent now' m.
Proof. intros Hle Hs k t Ht. apply Hs. lia. Qed.

Lemma solvent_run from calls m :
  solvent from m -> ordered from calls -> solvent (endTime from calls) (consumeAll calls m).1.
Proof.
  revert from m. induction calls as [|[t k] calls IH]; intros from m Hs Hord; [done|].
  destruct Hord as [Ht Hord]. pose proof (solvent_step t k m (solvent_later _ _ _ Ht Hs)) as Hs'.
  specialize (IH t _ Hs' Hord). cbn [consumeAll]. destruct (tryConsume t k m) as [m' am].
  cbn [fst] in *. by destruct (consumeAll calls m').
Qed.

Lemma admitted_bound from key calls m :
  solvent from m -> ordered from calls ->
  inject_Z (admittedFor key calls (consumeAll calls m).2) <=
    level m key from + elapsedSeconds from (endTime from calls) * rl_rate config.
Proof.
  revert from m. induction calls as [|[t k] calls IH]; intros from m Hs Hord.
  { change (0 <= level m key from + elapsedSeconds from from * rl_rate config).
    pose proof (Hs key from ltac:(lia)). pose proof (gain_nonneg from from ltac:(lia)). lra. }
  destruct Hord as [Ht Hord]. pose proof (solvent_step t k m (solvent_later _ _ _ Ht Hs)) as Hs'.
  specialize (IH t _ Hs' Hord). pose proof (tryConsume_level t k m) as Hlev.
  pose proof (level_later m key from t Ht) as Hlater.
  change (endTime from ((t, k) :: calls)) with (endTime t calls).
  rewrite (elapsed_add from t), Qmult_plus_distr_l. cbn [consumeAll].
  destruct (tryConsume t k m) as [m' am]. cbn [fst] in *.
  destruct (consumeAll calls m') as [m'' rest]. cbn [snd] in *. destruct Hlev as (_ & Hkey & Hne).
  assert (inject_Z (admittedFor key ((t, k) :: calls) (am :: rest)) ==
    (if decide (k = key ∧ am = true) then 1 else 0) + inject_Z (admittedFor key calls rest)) as ->.
  { unfold admittedFor. cbn [zip zip_with]. rewrite filter_cons. cbn [fst snd].
    destruct (decide (k = key ∧ am = true)); cbn [length]; [|ring].
    rewrite Nat2Z.inj_succ, <- Z.add_1_l, inject_Z_plus. done. }
  enough ((if decide (k = key ∧ am = true) then 1 else 0) + level m' key t <= level m key t) by lra.
  destruct (decide (k = key)) as [->|Hk].
  - rewrite Hkey by lia. pose proof (Q.le_min_r (rl_burst config)
      (level m key t - (if am then 1 else 0) + elapsedSeconds t t * rl_rate config)) as Hmin.
    assert (elapsedSeconds t t * rl_rate config == 0) as Hz
      by (unfold elapsedSeconds; rewrite Z.sub_diag; unfold inject_Z, Qdiv; ring).
    rewrite Hz in Hmin |- *. destruct am; [rewrite decide_True by done|rewrite decide_False by by intros []]; lra.
  - rewrite decide_False by by intros []. rewrite Hne by (lia || done). lra.
Qed.
End limiter.

(** ** Properties *)

Definition demo_limit : RateLimitConfig := mkRateLimitConfig 2 3 None.

(** C34. Pruning cannot be observed: over any history of calls whose clock does not go back, the
    limiter, evicting buckets as it likes past [PRUNE_AT], answers every call as the reference limiter
    that keeps a bucket for every key forever. *)
Theorem limiter_is_reference config start calls :
  0 <= rl_rate config -> ordered start calls ->
  (consumeAll config calls ∅).2 = refAll config calls (refInit config start).
Proof.
  intros Hrate Hord. eapply agrees_run; [done| |exact Hord]. intros k t Ht.
  unfold level, ref_level, refInit, refilledTokens. rewrite lookup_empty. cbn [tokens lastRefill].
  pose proof (gain_nonneg config Hrate start t Ht). rewrite Q.min_l; [done|lra].
Qed.

Lemma limiter_is_reference_witness :
  (consumeAll demo_limit [(0, "a"); (0, "a"); (0, "b"); (10, "a"); (20, "a"); (600, "a")]%Z ∅).2
  = [true; true; true; true; false; true].
Proof.
  etrans; [apply (limiter_is_reference demo_limit 0); [by vm_compute|simpl; lia]|]. by vm_compute.
Defined.

(** The rate holds in every window: from any state a history reached, the calls of one key
    admitted between two instants number at most the burst plus the rate times the time between. *)
Theorem limiter_rate_bound config start before from key calls :
  0 <= rl_rate config -> 0 <= rl_burst config ->
  ordered start before -> (endTime start before <= from)%Z -> ordered from calls ->
  let m := (consumeAll config before ∅).1 in
  inject_Z (admittedFor key calls (consumeAll config calls m).2) <=
    rl_burst config + elapsedSeconds from (endTime from calls) * rl_rate config.
Proof.
  intros Hrate Hburst Hpre Hfrom Hord m.
  assert (solvent config from m) as Hs.
  { eapply solvent_later; [exact Hfrom|]. apply solvent_run; [done..| |done].
    intros k t _. unfold level. by rewrite lookup_empty. }
  pose proof (admitted_bound config Hrate Hburst from key calls m Hs Hord).
  pose proof (level_burst config m key from). lra.
Qed.

Lemma limiter_rate_bound_witness :
  (admittedFor "a" [(0, "a"); (1, "a"); (2, "a"); (3, "a"); (500, "a")]
     (consumeAll demo_limit [(0, "a"); (1, "a"); (2, "a"); (3, "a"); (500, "a")] ∅).2 = 4)%Z ∧
  inject_Z 4 <= 3 + elapsedSeconds 0 500 * 2.
Proof.
  split; [by vm_compute|].
  exact (limiter_rate_bound demo_limit 0 [] 0 "a" [(0, "a"); (1, "a"); (2, "a"); (3, "a"); (500, "a")]%Z
    ltac:(by vm_compute) ltac:(by vm_compute) I (Z.le_refl 0) ltac:(simpl; lia)).
Defined.
