(* ===== verification/ClientRegistry.v ===== *)
(** * Online clients and their receive bindings

    [HubClientRegistry] of packages/hub-server/src/registry.ts. A channel's two callbacks (the writer
    and the one that ends it) are told apart by the channel's number; a [Symbol] is a number never
    handed out before. *)

From S2P Require Import Prelude.

Record ClientEntry := mkClientEntry {
  ce_did : string;
  ce_sendMessage : option nat;
  ce_endReceive : option nat;
  ce_token : option nat;
}.

Record Registry := mkRegistry {
  clients : gmap string ClientEntry;
  (** The next [Symbol]. *)
  nextSymbol : nat;
}.

Definition emptyRegistry : Registry := mkRegistry ∅ 0.

Definition idleEntry (did : string) : ClientEntry := mkClientEntry did None None None.

Definition register (did : string) (r : Registry) : Registry * ClientEntry :=
  match clients r !! did with
  | Some existing => (r, existing)
  | None => (mkRegistry (<[did := idleEntry did]> (clients r)) (nextSymbol r), idleEntry did)
  end.

Definition unregister (did : string) (r : Registry) : Registry :=
  mkRegistry (delete did (clients r)) (nextSymbol r).

Definition unregisterIfIdle (did : string) (r : Registry) : Registry :=
  match clients r !! did with
  | Some entry =>
    match ce_sendMessage entry with
    | None => mkRegistry (delete did (clients r)) (nextSymbol r)
    | Some _ => r
    end
  | None => r
  end.

(** The fresh token, and the callback that ends the evicted channel. *)
Definition bindReceiveWriter (did : string) (writer endReceive : nat) (r : Registry) :
    Registry * nat * option nat :=
  let token := nextSymbol r in
  match clients r !! did with
  | None => (mkRegistry (clients r) (S token), token, None)
  | Some entry =>
    (mkRegistry
       (<[did := mkClientEntry (ce_did entry) (Some writer) (Some endReceive) (Some token)]> (clients r))
       (S token),
     token, ce_endReceive entry)
  end.

Definition releaseReceiveWriter (did : string) (token : nat) (r : Registry) : Registry :=
  match clients r !! did with
  | None => r
  | Some entry =>
    if decide (ce_token entry ≠ Some token) then r
    else mkRegistry (<[did := mkClientEntry (ce_did entry) None None None]> (clients r)) (nextSymbol r)
  end.

Definition getClient (did : string) (r : Registry) : option ClientEntry := clients r !! did.

Definition isOnline (did : string) (r : Registry) : bool :=
  match clients r !! did with
  | Some entry => match ce_sendMessage entry with Some _ => true | None => false end
  | None => false
  end.

Definition isWriterBound (did : string) (r : Registry) : bool := isOnline did r.

(** ** Calls *)

Inductive RegistryOp :=
  | RegRegister (did : string)
  | RegUnregister (did : string)
  | RegUnregisterIfIdle (did : string)
  | RegBind (did : string) (writer endReceive : nat)
  | RegRelease (did : string) (token : nat).

Definition regExec (op : RegistryOp) (r : Registry) : Registry :=
  match op with
  | RegRegister did => (register did r).1
  | RegUnregister did => unregister did r
  | RegUnregisterIfIdle did => unregisterIfIdle did r
  | RegBind did writer endReceive => (bindReceiveWriter did writer endReceive r).1.1
  | RegRelease did token => releaseReceiveWriter did token r
  end.

Definition regRun (ops : list RegistryOp) (r : Registry) : Registry :=
  foldl (fun r op => regExec op r) r ops.

(** A binding is whole: writer, end and token are set together and cleared together; a token is one
    already handed out. *)
Definition entry_wf (n : nat) (e : ClientEntry) : Prop :=
  match ce_token e with
  | None => ce_sendMessage e = None ∧ ce_endReceive e = None
  | Some t => t < n ∧ ce_sendMessage e ≠ None ∧ ce_endReceive e ≠ None
  end.

Definition registry_wf (r : Registry) : Prop :=
  ∀ did e, clients r !! did = Some e -> entry_wf (nextSymbol r) e.

Lemma entry_wf_mono n n' e : n <= n' -> entry_wf n e -> entry_wf n' e.
Proof. unfold entry_wf. destruct (ce_token e); [|done]. intros ? (? & ? & ?). split_and!; [lia|done..]. Qed.

Lemma registry_wf_insert m n n' did e :
  registry_wf (mkRegistry m n) -> n <= n' -> entry_wf n' e -> registry_wf (mkRegistry (<[did:=e]> m) n').
Proof.
  intros Hm Hn He did' e'. simpl. intros [[<- <-]|[_ Hl]]%lookup_insert_Some; [done|].
  eapply entry_wf_mono; [exact Hn|]. by apply (Hm did').
Qed.

Lemma registry_wf_delete m n did : registry_wf (mkRegistry m n) -> registry_wf (mkRegistry (delete did m) n).
Proof. intros Hm did' e'. simpl. intros [_ Hl]%lookup_delete_Some. by apply (Hm did'). Qed.

Lemma regExec_wf op r : registry_wf r -> registry_wf (regExec op r).
Proof.
  intros Hr. destruct r as [m n]. destruct op as [d|d|d|d w e|d t]; simpl.
  - unfold register; simpl. destruct (m !! d); [done|]. by eapply registry_wf_insert.
  - by apply registry_wf_delete.
  - unfold unregisterIfIdle; simpl. destruct (m !! d) as [e|]; [|done].
    destruct (ce_sendMessage e); [done|]. by apply registry_wf_delete.
  - unfold bindReceiveWriter; simpl. destruct (m !! d); simpl.
    + eapply registry_wf_insert; [done|lia|]. split_and!; simpl; [lia|done..].
    + intros d' e' H. eapply entry_wf_mono; [|by apply (Hr d')]. simpl. lia.
  - unfold releaseReceiveWriter; simpl. destruct (m !! d) as [e|]; [|done].
    case_decide; [done|]. by eapply registry_wf_insert.
Qed.

Lemma regRun_wf ops r : registry_wf r -> registry_wf (regRun ops r).
Proof. revert r. induction ops; intros r Hr; [done|]. by apply IHops, regExec_wf. Qed.

Lemma regExec_next op r : nextSymbol r <= nextSymbol (regExec op r).
Proof.
  destruct op; simpl; unfold register, unregisterIfIdle, bindReceiveWriter, releaseReceiveWriter;
    repeat case_match; simpl; lia.
Qed.

(** The only call that can make a token current is the bind that mints it. *)
Lemma regExec_token op r did t e' :
  clients (regExec op r) !! did = Some e' -> ce_token e' = Some t ->
  t = nextSymbol r ∨ ∃ e, clients r !! did = Some e ∧ ce_token e = Some t.
Proof.
  destruct r as [m n]. destruct op as [d|d|d|d w x|d tk]; simpl.
  - unfold register; simpl. destruct (m !! d) eqn:Hd; simpl; [eauto|].
    intros [[<- <-]|[_ Hl]]%lookup_insert_Some; [done|eauto].
  - intros [_ Hl]%lookup_delete_Some; eauto.
  - unfold unregisterIfIdle; simpl. destruct (m !! d) as [e|] eqn:Hd; simpl; [|eauto].
    destruct (ce_sendMessage e); simpl; [eauto|]. intros [_ Hl]%lookup_delete_Some; eauto.
  - unfold bindReceiveWriter; simpl. destruct (m !! d) as [e|] eqn:Hd; simpl; [|eauto].
    intros [[<- <-]|[_ Hl]]%lookup_insert_Some; simpl; [|eauto]. intros [= <-]. by left.
  - unfold releaseReceiveWriter; simpl. destruct (m !! d) as [e|] eqn:Hd; simpl; [|eauto].
    case_decide; simpl; [eauto|]. intros [[<- <-]|[_ Hl]]%lookup_insert_Some; [done|eauto].
Qed.

(** The calls that end a binding on purpose. *)
Definition ends (did : string) (token : nat) (op : RegistryOp) : Prop :=
  match op with
  | RegBind did' _ _ | RegUnregister did' => did' = did
  | RegRelease did' token' => did' = did ∧ token' = token
  | RegRegister _ | RegUnregisterIfIdle _ => False
  end.

Lemma regExec_keeps op r did e t :
  registry_wf r -> clients r !! did = Some e -> ce_token e = Some t -> ¬ ends did t op ->
  clients (regExec op r) !! did = Some e.
Proof.
  intros Hwf He Ht Hop. destruct op as [d|d|d|d w x|d tk]; simpl in *.
  - unfold register. destruct (clients r !! d) eqn:Hd; [done|]. simpl.
    rewrite lookup_insert_ne; [done|]. congruence.
  - by rewrite lookup_delete_ne.
  - unfold unregisterIfIdle. destruct (clients r !! d) as [e'|] eqn:Hd; [|done].
    destruct (ce_sendMessage e') eqn:Hs; [done|]. simpl. rewrite lookup_delete_ne; [done|].
    intros ->. simplify_eq. specialize (Hwf _ _ He). unfold entry_wf in Hwf. rewrite Ht in Hwf.
    by destruct Hwf as (_ & ? & _).
  - unfold bindReceiveWriter. destruct (clients r !! d); simpl; [|done]. by rewrite lookup_insert_ne.
  - unfold releaseReceiveWriter. destruct (clients r !! d) as [e'|] eqn:Hd; [|done].
    destruct (decide (ce_token e' ≠ Some tk)) as [|Hne]; [done|]. apply dec_stable in Hne. simpl.
    rewrite lookup_insert_ne; [done|]. intros ->. apply Hop. split; congruence.
Qed.

(** ** Properties *)

(** A binding is ended only on purpose: whatever other calls run, including every release with
    another token and every idle sweep, the channel bound last stays the DID's writer. *)
Lemma binding_survives r did writer endReceive ops r1 token evicted :
  registry_wf r -> getClient did r ≠ None ->
  bindReceiveWriter did writer endReceive r = (r1, token, evicted) ->
  Forall (fun op => ¬ ends did token op) ops ->
  isOnline did (regRun ops r1) = true ∧
  (ce_sendMessage <$> getClient did (regRun ops r1)) = Some (Some writer) ∧
  evicted = (getClient did r ≫= ce_endReceive).
Proof.
  intros Hwf Hreg Hbind Hops. unfold getClient in *.
  pose proof (regExec_wf (RegBind did writer endReceive) r Hwf) as Hwf1. simpl in Hwf1.
  rewrite Hbind in Hwf1. cbn [fst] in Hwf1.
  unfold bindReceiveWriter in Hbind. destruct (clients r !! did) as [e|] eqn:He; [|done].
  injection Hbind as Hr1 <- <-.
  set (e1 := mkClientEntry (ce_did e) (Some writer) (Some endReceive) (Some (nextSymbol r))) in *.
  assert (clients r1 !! did = Some e1) as He1
    by (rewrite <- Hr1; simpl; by rewrite lookup_insert_eq).
  assert (clients (regRun ops r1) !! did = Some e1) as Hfin.
  { clear Hr1. revert r1 Hwf1 He1. induction Hops as [|op ops Hop Hops IH]; intros r1 Hwf1 He1; [done|].
    apply IH; [by apply regExec_wf|]. by apply (regExec_keeps _ _ _ _ (nextSymbol r)). }
  unfold isOnline. rewrite Hfin. done.
Qed.

Lemma binding_survives_witness :
  isOnline "a" (regRun [RegRelease "a" 0; RegUnregisterIfIdle "a"; RegBind "b" 3 3]
    (regRun [RegRegister "a"; RegBind "a" 1 1; RegBind "a" 2 2] emptyRegistry)) = true.
Proof.
  eapply (binding_survives (regRun [RegRegister "a"; RegBind "a" 1 1] emptyRegistry) "a" 2 2
    [RegRelease "a" 0; RegUnregisterIfIdle "a"; RegBind "b" 3 3]); [by apply regRun_wf|done|done|].
  repeat constructor; simpl; naive_solver.
Defined.

(** A token is spent once: when it no longer names the DID's binding (superseded, released or
    unregistered) it never does again, and releasing it, however late, changes nothing. *)
Lemma spent_token_is_dead r did token ops :
  registry_wf r -> token < nextSymbol r -> (getClient did r ≫= ce_token) ≠ Some token ->
  let r' := regRun ops r in
  (getClient did r' ≫= ce_token) ≠ Some token ∧ releaseReceiveWriter did token r' = r'.
Proof.
  intros Hwf Hlt Hdead. cbv zeta.
  assert ((getClient did (regRun ops r) ≫= ce_token) ≠ Some token) as H.
  { clear Hwf. revert r Hlt Hdead. induction ops as [|op ops IH]; intros r Hlt Hdead; [done|].
    apply IH; [pose proof (regExec_next op r); lia|]. intros Hbad. apply bind_Some in Hbad as (e' & He' & Ht).
    destruct (regExec_token op r did token e' He' Ht) as [->|(e & He & Ht')]; [lia|].
    apply Hdead. unfold getClient. by rewrite He. }
  split; [exact H|]. unfold releaseReceiveWriter, getClient in *.
  destruct (clients (regRun ops r) !! did) as [e|]; [|done]. simpl in H. by rewrite decide_True.
Qed.

Lemma spent_token_is_dead_witness :
  let r := regRun [RegRegister "a"; RegBind "a" 1 1; RegBind "a" 2 2] emptyRegistry in
  releaseReceiveWriter "a" 0 (regRun [RegUnregister "a"; RegRegister "a"] r)
  = regRun [RegUnregister "a"; RegRegister "a"] r.
Proof.
  intros r. apply (spent_token_is_dead r "a" 0 [RegUnregister "a"; RegRegister "a"]).
  - by apply regRun_wf.
  - by apply Nat.ltb_lt; vm_compute.
  - by vm_compute.
Defined.
