(* ===== verification/Wake.v ===== *)
(** * Wake pings: the coalescing dispatcher and the padded record

    packages/hub-server/src/wake.ts and packages/hub-protocol/src/wake-envelope.ts. The dispatcher is a
    transition system over its [pending] map; a timer is the window's deadline. A provider call, the
    registry and the cryptography are arguments of the definitions that use them. *)

From S2P Require Import Prelude HubProtocol.

(** ** The record: padding to a fixed size *)

Definition WAKE_RECORD_SIZE : nat := 512.
Definition RECORD_DELIMITER : Byte.byte := Byte.x02.

(** [WAKE_RECORD_SIZE - 17]. *)
Definition recordLength : nat := WAKE_RECORD_SIZE - 17.

(** The record [sealWakeHint] hands to the cipher, or its refusal of a plaintext that does not fit. *)
Definition padRecord (plaintext : bytes) : result string bytes :=
  if recordLength <? length plaintext + 1 then Err "Wake hint too large"
  else Ok (plaintext ++ RECORD_DELIMITER :: repeat Byte.x00 (recordLength - (length plaintext + 1))).

(** [while (end > 0 && record[end - 1] === 0) end--]: drop the trailing zeros. *)
Fixpoint stripZeros (rev_record : bytes) : bytes :=
  match rev_record with
  | b :: rest => if decide (b = Byte.x00) then stripZeros rest else rev_record
  | [] => []
  end.

(** The plaintext of a decrypted record ([openWakeHint], up to the JSON). *)
Definition unpadRecord (record : bytes) : result string bytes :=
  match stripZeros (rev record) with
  | b :: rest => if decide (b = RECORD_DELIMITER) then Ok (rev rest) else Err "Wake body has no record delimiter"
  | [] => Err "Wake body has no record delimiter"
  end.

Lemma stripZeros_repeat n l : stripZeros (repeat Byte.x00 n ++ l) = stripZeros l.
Proof. by induction n. Qed.

(** The padding hides the hint's size and nothing else: every record the hub seals has the one
    fixed length, and opening it gives back the plaintext, trailing zero bytes and delimiters of its
    own included; a plaintext is refused exactly when it leaves no room for the delimiter. *)
Theorem wake_record_roundtrip plaintext :
  match padRecord plaintext with
  | Ok record => length record = recordLength ∧ unpadRecord record = Ok plaintext
  | Err _ => recordLength <= length plaintext
  end.
Proof.
  unfold padRecord. destruct (Nat.ltb_spec recordLength (length plaintext + 1)); [lia|].
  split; [rewrite length_app; cbn [length]; rewrite repeat_length; lia|].
  unfold unpadRecord. rewrite rev_app_distr. cbn [rev]. rewrite rev_repeat, <- !app_assoc.
  rewrite stripZeros_repeat. cbn [app stripZeros]. rewrite decide_False by done.
  by rewrite decide_True, rev_involutive by done.
Qed.

(** ** [wakeRecipientKeyProblem] *)

Section recipient.
(** @sozai/codec's [fromB64U] and the curve library's point check; [None]/[false] is a throw. *)
Context (fromB64U : string -> option bytes) (isP256Point : bytes -> bool).

Definition wakeRecipientKeyProblem (publicKey authSecret : string) : option string :=
  match fromB64U publicKey, fromB64U authSecret with
  | Some pk, Some secret =>
    if negb (length pk =? 65) then Some "publicKey must be a 65-byte uncompressed P-256 point"
    else if negb (isP256Point pk) then Some "publicKey is not a point on P-256"
    else if negb (length secret =? 16) then Some "authSecret must be 16 bytes"
    else None
  | _, _ => Some "publicKey and authSecret must be base64url"
  end.
End recipient.

(** ** One send *)

Record WakeHint := mkWakeHint { wh_topicID : string; wh_sequenceID : string; wh_count : nat }.

Record WakeRegistration := mkWakeRegistration {
  wr_did : string;
  wr_kind : string;
  wr_endpoint : string;
  wr_publicKey : string;
  wr_authSecret : string;
  wr_expiresAt : option Z;
}.

Inductive WakeVerdict := Delivered | Gone | Retry.

Inductive WakeEffect :=
  | DeleteRegistration (did : string)
  | ReportError (did : string).

Section send.
(** The registry, the codec, [sealWakeHint] and the provider; [None] is a throw. *)
Context (registry_get : string -> option (option WakeRegistration))
        (fromB64U : string -> option bytes)
        (sealWakeHint : WakeHint -> bytes -> bytes -> option bytes)
        (sender_send : WakeRegistration -> bytes -> option WakeVerdict).

(** The task [send] starts: what it does to the registry and to the reporter. *)
Definition sendTask (disposed : bool) (did : string) (hint : WakeHint) : list WakeEffect :=
  match registry_get did with
  | None => [ReportError did]
  | Some None => []
  | Some (Some registration) =>
    match fromB64U (wr_publicKey registration), fromB64U (wr_authSecret registration) with
    | Some publicKey, Some authSecret =>
      match sealWakeHint hint publicKey authSecret with
      | None => [ReportError did]
      | Some body =>
        match sender_send registration body with
        | Some Delivered => []
        | Some Gone => if disposed then [] else [DeleteRegistration did]
        | Some Retry => [ReportError did]
        | None => [ReportError did]
        end
      end
    | _, _ => [ReportError did]
    end
  end.
End send.

(** ** The dispatcher *)

Record Pending := mkPending {
  pe_deadline : Z;
  pe_latest : option (string * string);
  pe_count : nat;
}.

Record Dispatcher := mkDispatcher { wd_pending : gmap string Pending; wd_disposed : bool }.

Definition createWakeDispatcher : Dispatcher := mkDispatcher ∅ false.

(** A [send] call: the DID and the hint. *)
Abbreviation sends := (list (string * WakeHint)).

Definition openWindow (debounceMs now : Z) : Pending := mkPending (now + debounceMs) None 0.

Definition notify (debounceMs now : Z) (did topicID sequenceID : string) (d : Dispatcher) :
    Dispatcher * sends :=
  if wd_disposed d then (d, [])
  else match wd_pending d !! did with
  | None =>
    (mkDispatcher (<[did := openWindow debounceMs now]> (wd_pending d)) false,
     [(did, mkWakeHint topicID sequenceID 1)])
  | Some entry =>
    (mkDispatcher
       (<[did := mkPending (pe_deadline entry) (Some (topicID, sequenceID)) (S (pe_count entry))]>
          (wd_pending d)) false, [])
  end.

(** The timer callback of [openWindow]. *)
Definition fire (debounceMs now : Z) (did : string) (d : Dispatcher) : Dispatcher * sends :=
  match wd_pending d !! did with
  | None => (d, [])
  | Some current =>
    match pe_latest current with
    | None => (mkDispatcher (delete did (wd_pending d)) (wd_disposed d), [])
    | Some (topicID, sequenceID) =>
      (mkDispatcher (<[did := openWindow debounceMs now]> (wd_pending d)) (wd_disposed d),
       [(did, mkWakeHint topicID sequenceID (pe_count current))])
    end
  end.

Definition online (did : string) (d : Dispatcher) : Dispatcher :=
  mkDispatcher (delete did (wd_pending d)) (wd_disposed d).

Definition dispose (d : Dispatcher) : Dispatcher := mkDispatcher ∅ true.

Inductive WakeEvent :=
  | EvNotify (did topicID sequenceID : string)
  | EvFire (did : string)
  | EvOnline (did : string)
  | EvDispose.

Definition wakeStep (debounceMs now : Z) (ev : WakeEvent) (d : Dispatcher) : Dispatcher * sends :=
  match ev with
  | EvNotify did topicID sequenceID => notify debounceMs now did topicID sequenceID d
  | EvFire did => fire debounceMs now did d
  | EvOnline did => (online did d, [])
  | EvDispose => (dispose d, [])
  end.

(** A timer runs no earlier than its deadline. *)
Definition enabled (now : Z) (ev : WakeEvent) (d : Dispatcher) : Prop :=
  match ev with
  | EvFire did => ∀ e, wd_pending d !! did = Some e -> (pe_deadline e <= now)%Z
  | _ => True
  end.

(** Histories of one dispatcher: the sends, each with its instant, newest first. *)
Inductive wake_run (debounceMs : Z) : Z -> list WakeEvent -> Dispatcher -> list (Z * (string * WakeHint)) -> Prop :=
  | wake_nil now : wake_run debounceMs now [] createWakeDispatcher []
  | wake_cons now now' evs ev d out d' out' :
      wake_run debounceMs now evs d out -> (now <= now')%Z -> enabled now' ev d ->
      wakeStep debounceMs now' ev d = (d', out') ->
      wake_run debounceMs now' (ev :: evs) d' (map (pair now') (rev out') ++ out).

Definition notifies (did : string) (ev : WakeEvent) : bool :=
  match ev with EvNotify did' _ _ => bool_decide (did' = did) | _ => false end.

Definition notified (did : string) (evs : list WakeEvent) : nat :=
  length (filter (fun ev => notifies did ev = true) evs).

(** The events that drop a DID's window: its device came online, or the hub shut down. *)
Definition drops (did : string) (ev : WakeEvent) : Prop :=
  match ev with EvOnline did' => did' = did | EvDispose => True | _ => False end.

Definition hintsFor (did : string) (out : list (Z * (string * WakeHint))) : list (Z * WakeHint) :=
  omap (fun o => if decide (o.2.1 = did) then Some (o.1, o.2.2) else None) out.

Definition pendingCount (did : string) (d : Dispatcher) : nat :=
  match wd_pending d !! did with Some e => pe_count e | None => 0 end.

Definition totalCount (hs : list (Z * WakeHint)) : nat := sum_list (map (fun h => wh_count h.2) hs).

(** Hints, newest first, at least [gap] apart. *)
Fixpoint spaced (gap : Z) (hs : list (Z * WakeHint)) : Prop :=
  match hs with
  | h :: (h' :: _) as rest => (h'.1 + gap <= h.1)%Z ∧ spaced gap rest
  | _ => True
  end.

(** What a run without drops keeps true of one DID. *)
Record wake_inv (debounceMs now : Z) (did : string) (n : nat) (d : Dispatcher) (hs : list (Z * WakeHint)) :
    Prop := {
  wi_alive : wd_disposed d = false;
  wi_count : n = totalCount hs + pendingCount did d;
  wi_spaced : spaced debounceMs hs;
  wi_window : ∀ h, head hs = Some h ->
    (h.1 + debounceMs <= now)%Z ∨ ∃ e, wd_pending d !! did = Some e ∧ (h.1 + debounceMs <= pe_deadline e)%Z;
  wi_deadline : ∀ e, wd_pending d !! did = Some e ->
    (pe_deadline e <= now + debounceMs)%Z ∧ (pe_latest e = None <-> pe_count e = 0);
}.

Lemma hintsFor_app did o1 o2 : hintsFor did (o1 ++ o2) = hintsFor did o1 ++ hintsFor did o2.
Proof. apply omap_app. Qed.

Lemma spaced_cons gap now (hs : list (Z * WakeHint)) hint :
  (∀ h, head hs = Some h -> (h.1 + gap <= now)%Z) -> spaced gap hs -> spaced gap ((now, hint) :: hs).
Proof. intros Hh Hs. destruct hs as [|h hs]; simpl; [done|]. split; [by apply Hh|done]. Qed.

Lemma wake_inv_later debounceMs now now' did n d hs :
  (now <= now')%Z -> wake_inv debounceMs now did n d hs -> wake_inv debounceMs now' did n d hs.
Proof.
  intros Hle [? ? ? Hw Hd]. split; try done.
  - intros h Hh. destruct (Hw h Hh) as [?|?]; [left; lia|by right].
  - intros e He. destruct (Hd e He). split; [lia|done].
Qed.

(** Another DID's event leaves this one's window alone. *)
Lemma wake_inv_frame debounceMs now did n d d' hs :
  wd_pending d' !! did = wd_pending d !! did -> wd_disposed d' = wd_disposed d ->
  wake_inv debounceMs now did n d hs -> wake_inv debounceMs now did n d' hs.
Proof.
  intros Hp Hdis [? Hc ? ? ?]. split; rewrite ?Hp, ?Hdis; try done.
  unfold pendingCount in *. by rewrite Hp.
Qed.

Lemma wake_inv_notify debounceMs now did n d hs t s d' out :
  wake_inv debounceMs now did n d hs -> notify debounceMs now did t s d = (d', out) ->
  wake_inv debounceMs now did (S n) d' (hintsFor did (map (pair now) (rev out)) ++ hs).
Proof.
  intros [Hal Hc Hsp Hw Hd] H. unfold notify in H. rewrite Hal in H. unfold pendingCount in Hc.
  destruct (wd_pending d !! did) as [e|] eqn:He; injection H as <- <-; simpl.
  - destruct (Hd e eq_refl) as [Hdl Hlat]. split; simpl; try done.
    + unfold pendingCount. simpl. rewrite lookup_insert_eq. simpl. lia.
    + intros h Hh. rewrite lookup_insert_eq. destruct (Hw h Hh) as [?|(e' & [= <-] & ?)]; [by left|].
      right. by eexists.
    + intros e'. rewrite lookup_insert_eq. intros [= <-]. simpl. split; [lia|]. split; [done|lia].
  - unfold hintsFor. simpl. rewrite decide_True by done. simpl. split; simpl; try done.
    + unfold totalCount, pendingCount in *. simpl. rewrite lookup_insert_eq. simpl. lia.
    + apply (spaced_cons _ _ _ (mkWakeHint t s 1)); [|done]. intros h Hh. destruct (Hw h Hh) as [?|(? & ? & ?)]; [lia|done].
    + intros h [= <-]. simpl. right. rewrite lookup_insert_eq. eexists. split; [done|]. simpl. lia.
    + intros e'. rewrite lookup_insert_eq. intros [= <-]. simpl. split; [lia|done].
Qed.

Lemma wake_inv_fire debounceMs now did n d hs d' out :
  wake_inv debounceMs now did n d hs -> enabled now (EvFire did) d ->
  fire debounceMs now did d = (d', out) ->
  wake_inv debounceMs now did n d' (hintsFor did (map (pair now) (rev out)) ++ hs).
Proof.
  intros [Hal Hc Hsp Hw Hd] Hen H. unfold fire in H. unfold pendingCount in Hc. simpl in Hen.
  destruct (wd_pending d !! did) as [e|] eqn:He; [|injection H as <- <-; simpl].
  2: { split; try done; [unfold pendingCount; by rewrite He|by rewrite He|by rewrite He]. }
  destruct (Hd e eq_refl) as [Hdl Hlat]. specialize (Hen e eq_refl).
  assert (∀ h, head hs = Some h -> (h.1 + debounceMs <= now)%Z) as Hpast.
  { intros h Hh. destruct (Hw h Hh) as [?|(e' & [= <-] & ?)]; lia. }
  destruct (pe_latest e) as [[t s]|] eqn:Hl; injection H as <- <-; simpl.
  - unfold hintsFor. simpl. rewrite decide_True by done. simpl. split; simpl; try done.
    + unfold totalCount, pendingCount in *. simpl. rewrite lookup_insert_eq. simpl. lia.
    + by apply (spaced_cons _ _ _ (mkWakeHint t s (pe_count e))).
    + intros h [= <-]. simpl. right. rewrite lookup_insert_eq. eexists. split; [done|]. simpl. lia.
    + intros e'. rewrite lookup_insert_eq. intros [= <-]. simpl. split; [lia|done].
  - split; simpl; try done.
    + unfold pendingCount. simpl. rewrite lookup_delete_eq. rewrite (proj1 Hlat eq_refl) in Hc. done.
    + intros h Hh. left. by apply Hpast.
    + intros e'. by rewrite lookup_delete_eq.
Qed.

Lemma hintsFor_other did did' (now : Z) (hs : list WakeHint) :
  did' ≠ did -> hintsFor did (map (pair now) (map (pair did') hs)) = [].
Proof.
  intros Hne. induction hs as [|h hs IH]; [done|]. unfold hintsFor in *. simpl.
  by rewrite decide_False.
Qed.

#[export] Instance WakeEvent_eq_dec : EqDecision WakeEvent.
Proof. solve_decision. Defined.

(** What each event emits is for its own DID, and it touches no other window. *)
Lemma wakeStep_local debounceMs now did ev d d' out :
  wakeStep debounceMs now ev d = (d', out) -> ¬ drops did ev ->
  (∀ t s, ev ≠ EvNotify did t s) -> ev ≠ EvFire did ->
  wd_pending d' !! did = wd_pending d !! did ∧ wd_disposed d' = wd_disposed d ∧
  hintsFor did (map (pair now) (rev out)) = [].
Proof.
  intros H Hdrop Hn Hf. destruct ev as [did' t s|did'|did'|]; simpl in *; [| | |done].
  - assert (did' ≠ did) by (intros ->; by eapply Hn). unfold notify in H.
    destruct (wd_disposed d) eqn:Hd; [by simplify_eq|].
    destruct (wd_pending d !! did'); simplify_eq; simpl; rewrite lookup_insert_ne by done;
      unfold hintsFor; simpl; by rewrite ?decide_False.
  - assert (did' ≠ did) by congruence. unfold fire in H.
    destruct (wd_pending d !! did') as [e|]; [|by simplify_eq].
    destruct (pe_latest e) as [[t s]|]; simplify_eq; simpl;
      rewrite ?lookup_insert_ne, ?lookup_delete_ne by done; unfold hintsFor; simpl; by rewrite ?decide_False.
  - simplify_eq. simpl. by rewrite lookup_delete_ne.
Qed.

Lemma wake_run_inv debounceMs now evs d out did :
  wake_run debounceMs now evs d out -> Forall (fun ev => ¬ drops did ev) evs ->
  wake_inv debounceMs now did (notified did evs) d (hintsFor did out).
Proof.
  intros Hrun. induction Hrun as [now|now now' evs ev d out d' out' _ IH Hle Hen Hstep]; intros Hdrop.
  { by split. }
  apply Forall_cons in Hdrop as [Hev Hdrop]. specialize (wake_inv_later _ _ now' _ _ _ _ Hle (IH Hdrop)) as Hinv.
  rewrite hintsFor_app. unfold notified in *. rewrite filter_cons.
  destruct (notifies did ev) eqn:Hno.
  - destruct ev as [did' t s| | |]; try done. simpl in Hno. apply bool_decide_eq_true in Hno as ->.
    rewrite decide_True by done. by eapply wake_inv_notify.
  - rewrite decide_False by done.
    assert (∀ t s, ev ≠ EvNotify did t s) as Hn.
    { intros t s ->. simpl in Hno. by rewrite bool_decide_true in Hno. }
    destruct (decide (ev = EvFire did)) as [->|Hf].
    + by eapply wake_inv_fire.
    + destruct (wakeStep_local _ _ did _ _ _ _ Hstep Hev Hn Hf) as (Hp & Hd & ->).
      simpl. by eapply wake_inv_frame.
Qed.

(** Coalescing loses no frame and floods no device: while a device stays offline, the frames
    queued for it are exactly those its hints counted plus those its open window still holds; two of
    its hints are never closer than the debounce; and what a window holds is sent, with the full count,
    when its timer runs, at most one debounce away. *)
Theorem wake_coalescing debounceMs now evs d out did :
  wake_run debounceMs now evs d out -> Forall (fun ev => ¬ drops did ev) evs ->
  notified did evs = totalCount (hintsFor did out) + pendingCount did d ∧
  spaced debounceMs (hintsFor did out) ∧
  (pendingCount did d ≠ 0 -> ∃ e, wd_pending d !! did = Some e ∧ (pe_deadline e <= now + debounceMs)%Z ∧
    ∃ t s, (fire debounceMs (pe_deadline e) did d).2 = [(did, mkWakeHint t s (pendingCount did d))]).
Proof.
  intros Hrun Hdrop. destruct (wake_run_inv _ _ _ _ _ did Hrun Hdrop) as [_ Hc Hsp _ Hd].
  split; [exact Hc|]. split; [exact Hsp|]. unfold pendingCount, fire.
  destruct (wd_pending d !! did) as [e|]; [|done]. intros Hne. exists e. split; [done|].
  destruct (Hd e eq_refl) as [? Hlat]. split; [done|].
  destruct (pe_latest e) as [[t s]|]; [by exists t, s|]. destruct Hne. by apply Hlat.
Qed.

Definition demo_events : list WakeEvent :=
  [EvNotify "a" "t" "3"; EvNotify "a" "t" "2"; EvNotify "a" "t" "1"].

Lemma wake_coalescing_witness :
  ∃ d, wake_run 10 3 demo_events d [(1%Z, ("a", mkWakeHint "t" "1" 1))] ∧
    notified "a" demo_events = 1 + pendingCount "a" d ∧ pendingCount "a" d = 2.
Proof.
  eexists. assert (wake_run 10 3 demo_events
    (mkDispatcher {["a" := mkPending 11 (Some ("t", "3")) 2]} false)
    [(1%Z, ("a", mkWakeHint "t" "1" 1))]) as Hrun.
  { apply (wake_cons 10 2 3 _ _ (mkDispatcher {["a" := mkPending 11 (Some ("t", "2")) 1]} false)
      [(1%Z, ("a", mkWakeHint "t" "1" 1))] _ []); [|lia|done|done].
    apply (wake_cons 10 1 2 _ _ (mkDispatcher {["a" := mkPending 11 None 0]} false)
      [(1%Z, ("a", mkWakeHint "t" "1" 1))] _ []); [|lia|done|done].
    apply (wake_cons 10 1 1 _ _ createWakeDispatcher [] _ [("a", mkWakeHint "t" "1" 1)]);
      [constructor|lia|done|done]. }
  split; [exact Hrun|]. split; [|done].
  destruct (wake_coalescing _ _ _ _ _ "a" Hrun) as [H _]; [|exact H].
  repeat constructor; simpl; tauto.
Defined.
