(* ===== verification/Handlers.v ===== *)
(** * The hub's request handlers

    [createHandlers] of packages/hub-server/src/handlers.ts, over any store that satisfies
    HubStore.v. A handler is a computation on the hub's state that may throw; what it does to the world
    outside that state (a live push, a wake ping, a report) is an event it emits. The [receive]
    channel is in Receive.v. *)

From S2P Require Import Prelude HubProtocol HubStore RateLimit ClientRegistry Wake.
From Stdlib Require Import QArith_base.

#[local] Open Scope nat_scope.

(** ** Host hooks and options *)

Inductive AuthorizeRequest :=
  | AuthPublish (did topicID : string) (retain : RetentionClass) (payloadSize : nat)
  | AuthSubscribe (did topicID : string) (retention : option Z)
  | AuthTopicFetch (did topicID : string)
  | AuthKeyPackageUpload (did : string) (count : nat) (lastResort : bool)
  | AuthKeyPackageFetch (did targetDID : string) (count : nat)
  | AuthKeyPackageStatus (did : string)
  | AuthWakeRegister (did kind : string) (expiresAt : option Z)
  | AuthWakeUnregister (did : string)
  | AuthReceive (did : string)
  | AuthReceiveDeliver (did topicID : string).

(** A bare boolean, or the object form; [code] and [retryAfterMs] never reach a caller. *)
Inductive AuthorizeDecision :=
  | Plain (allow : bool)
  | Detailed (allow : bool) (reason : option string).

Definition normalizeAuthorizeDecision (decision : AuthorizeDecision) : bool * option string :=
  match decision with
  | Plain allow => (allow, None)
  | Detailed allow reason => (allow, reason)
  end.

Record KeyPackageFetchLimits := mkFetchLimits {
  fl_maxCount : nat;
  fl_maxRequests : nat;
  fl_maxPerTargetConsumed : nat;
  fl_windowMs : Z;
}.

Definition DEFAULT_KEYPACKAGE_FETCH_LIMITS : KeyPackageFetchLimits := mkFetchLimits 10 30 60 60000.

Record HubRateLimits := mkHubRateLimits { perDID : RateLimitConfig; perTopic : RateLimitConfig }.

Definition DEFAULT_RATE_LIMITS : HubRateLimits :=
  mkHubRateLimits (mkRateLimitConfig (20 # 1)%Q (50 # 1)%Q None)
    (mkRateLimitConfig (100 # 1)%Q (200 # 1)%Q None).

(** ** Fixed windows *)

Record Window := mkWindow { w_count : nat; w_resetAt : Z }.

(** The sweep past 1024 windows. *)
Definition sweep (now : Z) (windows : gmap string Window) : gmap string Window :=
  if 1024 <? size windows then filter (fun kv => (now < w_resetAt kv.2)%Z) windows else windows.

Definition assertKeyPackageFetchAllowed (limits : KeyPackageFetchLimits) (now : Z) (requesterDID : string)
    (windows : gmap string Window) : gmap string Window * bool :=
  let windows := sweep now windows in
  let open := (<[requesterDID := mkWindow 1 (now + fl_windowMs limits)]> windows, true) in
  match windows !! requesterDID with
  | None => open
  | Some window =>
    if (w_resetAt window <=? now)%Z then open
    else if fl_maxRequests limits <=? w_count window then (windows, false)
    else (<[requesterDID := mkWindow (S (w_count window)) (w_resetAt window)]> windows, true)
  end.

Definition assertTargetConsumptionAllowed (limits : KeyPackageFetchLimits) (now : Z) (targetDID : string)
    (amount : nat) (windows : gmap string Window) : gmap string Window * bool :=
  let windows := sweep now windows in
  let open :=
    if fl_maxPerTargetConsumed limits <? amount then (windows, false)
    else (<[targetDID := mkWindow amount (now + fl_windowMs limits)]> windows, true) in
  match windows !! targetDID with
  | None => open
  | Some window =>
    if (w_resetAt window <=? now)%Z then open
    else if fl_maxPerTargetConsumed limits <? w_count window + amount then (windows, false)
    else (<[targetDID := mkWindow (w_count window + amount) (w_resetAt window)]> windows, true)
  end.

(** ** The monad *)

(** What a handler rejects with: a [HandlerError] with a wire code, or anything else as it was. *)
Inductive Failure :=
  | HandlerError (code message : string)
  | RawError (message : string).

Inductive HubEvent :=
  (** [client.sendMessage(message)], by the writer's channel. *)
  | Push (channel : nat) (recipientDID : string) (message : StoredMessage)
  (** A hint the wake dispatcher sends. *)
  | Ping (did : string) (hint : WakeHint)
  (** A store failure reported instead of failing the request. *)
  | StoreError (method subject : string).

Section handlers.
Context {S : Type} `{HubStore S}.

(** The codec and the host: base64 (a throw is [Err], with the message of a thrown Error), the authorize hook (a throw is [Err]), the
    digest of a stored package, the recipient-key check and the wake registry's operations. *)
Context (fromB64 : string -> result (option string) bytes)
        (authorize : AuthorizeRequest -> result string AuthorizeDecision)
        (keyPackageDigest : string -> string)
        (keyProblem : string -> string -> option string).

Record HubConfig := mkHubConfig {
  hc_rateLimits : HubRateLimits;
  hc_fetchLimits : KeyPackageFetchLimits;
  hc_wake : bool;
  hc_debounceMs : Z;
}.

Context (config : HubConfig).

Record HubState := mkHubState {
  hs_store : S;
  hs_registry : Registry;
  hs_didLimiter : gmap string Bucket;
  hs_topicLimiter : gmap string Bucket;
  hs_fetchWindows : gmap string Window;
  hs_targetWindows : gmap string Window;
  hs_dispatcher : Dispatcher;
  hs_registrations : gmap string WakeRegistration;
  hs_events : list HubEvent;
}.

Definition Handler (A : Type) : Type := HubState -> HubState * result Failure A.

#[local] Instance handler_ret : MRet Handler := fun A a st => (st, Ok a).
#[local] Instance handler_bind : MBind Handler := fun A B f m st =>
  match m st with
  | (st, Ok a) => f a st
  | (st, Err e) => (st, Err e)
  end.

Definition fail {A} (e : Failure) : Handler A := fun st => (st, Err e).

(** [try { … }]: the outcome as a value. *)
Definition attempt {A} (m : Handler A) : Handler (result Failure A) := fun st =>
  let '(st, r) := m st in (st, Ok r).

Definition emit (ev : HubEvent) : Handler unit := fun st =>
  (mkHubState (hs_store st) (hs_registry st) (hs_didLimiter st) (hs_topicLimiter st)
     (hs_fetchWindows st) (hs_targetWindows st) (hs_dispatcher st) (hs_registrations st)
     (hs_events st ++ [ev]), Ok tt).

(** [rethrowAsHandlerError]: a named error gets its wire code, anything else passes through. *)
Definition rethrowAsHandlerError (error : Thrown) : Failure :=
  match hubErrorCodeOf error, error with
  | Some code, HubError _ message => HandlerError code message
  | Some code, OtherError message => HandlerError code message
  | None, HubError _ message => RawError message
  | None, OtherError message => RawError message
  end.

(** A store call; its failure is rethrown. *)
Definition onStore {A} (op : S -> S * result Thrown A) : Handler A := fun st =>
  let '(s, r) := op (hs_store st) in
  (mkHubState s (hs_registry st) (hs_didLimiter st) (hs_topicLimiter st)
     (hs_fetchWindows st) (hs_targetWindows st) (hs_dispatcher st) (hs_registrations st) (hs_events st),
   match r with Ok a => Ok a | Err e => Err (rethrowAsHandlerError e) end).

Definition consumeDID (now : Z) (did message : string) : Handler unit := fun st =>
  let '(buckets, admitted) := tryConsume (perDID (hc_rateLimits config)) now did (hs_didLimiter st) in
  (mkHubState (hs_store st) (hs_registry st) buckets (hs_topicLimiter st)
     (hs_fetchWindows st) (hs_targetWindows st) (hs_dispatcher st) (hs_registrations st) (hs_events st),
   if admitted then Ok tt else Err (HandlerError (HUB_ERROR_CODES RateLimitedError) message)).

Definition consumeTopic (now : Z) (topicID message : string) : Handler unit := fun st =>
  let '(buckets, admitted) := tryConsume (perTopic (hc_rateLimits config)) now topicID (hs_topicLimiter st) in
  (mkHubState (hs_store st) (hs_registry st) (hs_didLimiter st) buckets
     (hs_fetchWindows st) (hs_targetWindows st) (hs_dispatcher st) (hs_registrations st) (hs_events st),
   if admitted then Ok tt else Err (HandlerError (HUB_ERROR_CODES RateLimitedError) message)).

(** [getClientDID]: the verified issuer. *)
Definition getClientDID (iss : option string) : Handler string :=
  match iss with
  | Some did =>
    if decide (did = "") then fail (RawError "Unauthenticated message: missing verified issuer DID")
    else mret did
  | None => fail (RawError "Unauthenticated message: missing verified issuer DID")
  end.

(** Ask the hook, and refuse under [code] when it says no. *)
Definition authorized (code message : string) (req : AuthorizeRequest) : Handler unit :=
  match authorize req with
  | Err e => fail (RawError e)
  | Ok decision =>
    let '(allow, reason) := normalizeAuthorizeDecision decision in
    if allow then mret tt else fail (HandlerError code (default message reason))
  end.

Abbreviation DENIED := (HUB_ERROR_CODES AuthorizationDeniedError).

(** ** hub/v1/publish *)

Definition notifyWake (now : Z) (did topicID sequenceID : string) : Handler unit := fun st =>
  if hc_wake config then
    let '(d, out) := notify (hc_debounceMs config) now did topicID sequenceID (hs_dispatcher st) in
    (mkHubState (hs_store st) (hs_registry st) (hs_didLimiter st) (hs_topicLimiter st)
       (hs_fetchWindows st) (hs_targetWindows st) d (hs_registrations st)
       (hs_events st ++ map (fun o => Ping o.1 o.2) out), Ok tt)
  else (st, Ok tt).

(** The live writer of a DID, when a channel is bound. *)
Definition writerOf (r : Registry) (did : string) : option nat :=
  getClient did r ≫= ce_sendMessage.

(** One turn of the fan-out loop. *)
Definition deliver (now : Z) (senderDID : string) (message : StoredMessage) (recipientDID : string) :
    Handler unit := fun st =>
  if decide (recipientDID = senderDID) then (st, Ok tt)
  else match writerOf (hs_registry st) recipientDID with
  | Some channel => emit (Push channel recipientDID message) st
  | None => notifyWake now recipientDID (sm_topicID message) (sm_sequenceID message) st
  end.

Fixpoint deliverAll (now : Z) (senderDID : string) (message : StoredMessage) (recipients : list string) :
    Handler unit :=
  match recipients with
  | [] => mret tt
  | r :: rest => _ ← deliver now senderDID message r; deliverAll now senderDID message rest
  end.

Record PublishRequest := mkPublishRequest {
  pq_topicID : string;
  pq_payload : string;
  pq_retain : option RetentionClass;
  pq_expectedHead : option (option string);
  pq_publishID : option string;
}.

(** The frame as it is pushed: only a log publish has a log position. *)
Definition liveFrame (req : PublishRequest) (senderDID : string) (payload : bytes) (sequenceID : string) :
    StoredMessage :=
  mkStoredMessage sequenceID senderDID (pq_topicID req) payload
    (if decide (pq_retain req = Some Log) then Some sequenceID else None).

(** After the store accepted: nothing for a deduped publish, else the fan-out, which never fails. *)
Definition fanOut (now : Z) (req : PublishRequest) (senderDID : string) (payload : bytes)
    (published : PublishResult) : Handler string :=
  let sequenceID := pr_sequenceID published in
  if pr_deduped published then mret sequenceID
  else
    subscribers ← attempt (onStore (store_getSubscribers (pq_topicID req)));
    match subscribers with
    | Err _ => _ ← emit (StoreError "getSubscribers" (pq_topicID req)); mret sequenceID
    | Ok dids => _ ← deliverAll now senderDID (liveFrame req senderDID payload sequenceID) dids;
                 mret sequenceID
    end.

Definition handlePublish (now : Z) (iss : option string) (req : PublishRequest) : Handler string :=
  senderDID ← getClientDID iss;
  match fromB64 (pq_payload req) with
  | Err thrown =>
    fail (HandlerError (HUB_ERROR_CODES InvalidPayloadError) (default "Invalid base64 payload encoding" thrown))
  | Ok payload =>
    let topicID := pq_topicID req in
    let retain := default Mailbox (pq_retain req) in
    _ ← authorized "EK02" "Not authorized to publish to topic"
          (AuthPublish senderDID topicID retain (length payload));
    _ ← consumeDID now senderDID "Publish rate limit exceeded for DID";
    _ ← consumeTopic now topicID "Publish rate limit exceeded for topic";
    published ← onStore (store_publish now (mkPublish senderDID topicID payload
                           (pq_expectedHead req) (pq_publishID req) (pq_retain req)));
    fanOut now req senderDID payload published
  end.

(** ** hub/v1/subscribe, unsubscribe and topic/fetch *)

Definition handleSubscribe (now : Z) (iss : option string) (topicID : string) (retention : option Z) :
    Handler unit :=
  did ← getClientDID iss;
  _ ← authorized DENIED "Not authorized to subscribe to topic" (AuthSubscribe did topicID retention);
  _ ← consumeDID now did "Subscribe rate limit exceeded for DID";
  onStore (store_subscribe now (mkSubscribe did topicID retention)).

Definition handleTopicFetch (iss : option string) (topicID : string) (after : option string)
    (limit : option nat) : Handler FetchTopicResult :=
  did ← getClientDID iss;
  _ ← authorized DENIED "Not authorized to fetch topic" (AuthTopicFetch did topicID);
  onStore (store_fetchTopic (mkFetchTopic did topicID after limit)).

Definition handleUnsubscribe (now : Z) (iss : option string) (topicID : string) : Handler unit :=
  did ← getClientDID iss;
  _ ← consumeDID now did "Unsubscribe rate limit exceeded for DID";
  onStore (store_unsubscribe did topicID).

(** ** hub/v1/keypackage *)

(** [Promise.all] over the uploads: every one runs, the first rejection is the result. *)
Fixpoint storeAll (now : Z) (did : string) (notAfter : option Z) (packages : list string) : Handler unit :=
  match packages with
  | [] => mret tt
  | kp :: rest =>
    first ← attempt (onStore (store_storeKeyPackage now (mkStoreKeyPackage did kp notAfter)));
    others ← attempt (storeAll now did notAfter rest);
    match first, others with
    | Err e, _ => fail e
    | Ok _, Err e => fail e
    | Ok _, Ok _ => mret tt
    end
  end.

Definition handleKeyPackageUpload (now : Z) (iss : option string) (keyPackages : list string)
    (lastResort : bool) (notAfter : option Z) : Handler nat :=
  did ← getClientDID iss;
  let invalid m := HandlerError (HUB_ERROR_CODES InvalidPayloadError) m in
  let run (lastResortPackage : option string) :=
    if lastResort && bool_decide (notAfter ≠ None)
    then fail (invalid "A last-resort upload carries no expiry: the slot is kept fresh by rotation")
    else
      _ ← authorized DENIED "Not authorized to upload key packages"
            (AuthKeyPackageUpload did (length keyPackages) lastResort);
      _ ← consumeDID now did "Key package upload rate limit exceeded for DID";
      _ ← match lastResortPackage with
          | Some kp => onStore (store_storeLastResort did kp)
          | None => storeAll now did notAfter keyPackages
          end;
      mret (length keyPackages) in
  if lastResort then
    match keyPackages with
    | [only] => run (Some only)
    | _ => fail (invalid "A last-resort upload must carry exactly one key package")
    end
  else run None.

Definition chargeRequester (now : Z) (did : string) : Handler unit := fun st =>
  let '(w, ok) := assertKeyPackageFetchAllowed (hc_fetchLimits config) now did (hs_fetchWindows st) in
  (mkHubState (hs_store st) (hs_registry st) (hs_didLimiter st) (hs_topicLimiter st)
     w (hs_targetWindows st) (hs_dispatcher st) (hs_registrations st) (hs_events st),
   if ok then Ok tt
   else Err (HandlerError (HUB_ERROR_CODES KeyPackageFetchLimitError) "Key package fetch rate limit exceeded")).

(** Whether the target's window could be charged. *)
Definition chargeTarget (now : Z) (did : string) (amount : nat) : Handler bool := fun st =>
  let '(w, ok) := assertTargetConsumptionAllowed (hc_fetchLimits config) now did amount (hs_targetWindows st) in
  (mkHubState (hs_store st) (hs_registry st) (hs_didLimiter st) (hs_topicLimiter st)
     (hs_fetchWindows st) w (hs_dispatcher st) (hs_registrations st) (hs_events st), Ok ok).

Definition cappedCount (count : option nat) : nat :=
  Nat.min (Nat.max (default 1 count) 1) (fl_maxCount (hc_fetchLimits config)).

Definition handleKeyPackageFetch (now : Z) (iss : option string) (targetDID : string) (count : option nat) :
    Handler (list string) :=
  requesterDID ← getClientDID iss;
  let capped := cappedCount count in
  _ ← authorized DENIED "Not authorized to fetch key packages"
        (AuthKeyPackageFetch requesterDID targetDID capped);
  _ ← chargeRequester now requesterDID;
  charged ← chargeTarget now targetDID capped;
  if negb charged then
    slot ← attempt (onStore (store_fetchLastResort targetDID));
    match slot with
    | Ok (Some kp) => mret [kp]
    | _ => fail (HandlerError (HUB_ERROR_CODES KeyPackageFetchLimitError)
                   ("Key package consumption limit exceeded for target " +:+ targetDID))
    end
  else
    consumed ← onStore (store_fetchKeyPackages now targetDID capped);
    if capped <=? length consumed then mret consumed
    else
      slot ← attempt (onStore (store_fetchLastResort targetDID));
      match slot with
      | Ok (Some kp) => mret (consumed ++ [kp])
      | Ok None => mret consumed
      | Err e =>
        if length consumed =? 0 then fail e
        else _ ← emit (StoreError "fetchLastResortKeyPackage" targetDID); mret consumed
      end.

(** [Promise.all] of the two reads: both run, the first rejection wins. *)
Definition handleKeyPackageStatus (now : Z) (iss : option string) : Handler (nat * option string) :=
  did ← getClientDID iss;
  _ ← authorized DENIED "Not authorized to read key package status" (AuthKeyPackageStatus did);
  _ ← consumeDID now did "Key package status rate limit exceeded for DID";
  count ← attempt (onStore (store_countKeyPackages now did));
  stored ← attempt (onStore (store_fetchLastResort did));
  match count, stored with
  | Err e, _ => fail e
  | _, Err e => fail e
  | Ok n, Ok kp => mret (n, keyPackageDigest <$> kp)
  end.

(** ** hub/v1/wake, over the in-memory registry of packages/hub-wake/src/memoryRegistry.ts *)

Definition wake_put (registration : WakeRegistration) : Handler unit := fun st =>
  (mkHubState (hs_store st) (hs_registry st) (hs_didLimiter st) (hs_topicLimiter st)
     (hs_fetchWindows st) (hs_targetWindows st) (hs_dispatcher st)
     (<[wr_did registration := registration]> (hs_registrations st)) (hs_events st), Ok tt).

Definition wake_delete (did : string) : Handler unit := fun st =>
  (mkHubState (hs_store st) (hs_registry st) (hs_didLimiter st) (hs_topicLimiter st)
     (hs_fetchWindows st) (hs_targetWindows st) (hs_dispatcher st)
     (delete did (hs_registrations st)) (hs_events st), Ok tt).

(** An expired entry is dropped on read. *)
Definition wake_get (now : Z) (did : string) : Handler (option WakeRegistration) := fun st =>
  match hs_registrations st !! did with
  | None => (st, Ok None)
  | Some stored =>
    if match wr_expiresAt stored with
       | Some t => (t <=? now / 1000)%Z
       | None => false
       end
    then (_ ← wake_delete did; mret None) st
    else (st, Ok (Some stored))
  end.

Record WakeRegisterRequest := mkWakeRegister {
  wq_kind : string;
  wq_endpoint : string;
  wq_publicKey : string;
  wq_authSecret : string;
  wq_expiresAt : option Z;
}.

Abbreviation NO_WAKE := (HandlerError (HUB_ERROR_CODES WakeNotSupportedError)
  "This hub does not support wake notifications").

Definition handleWakeRegister (now : Z) (iss : option string) (req : WakeRegisterRequest) : Handler unit :=
  did ← getClientDID iss;
  if negb (hc_wake config) then fail NO_WAKE
  else
    _ ← authorized DENIED "Not authorized to register a wake endpoint"
          (AuthWakeRegister did (wq_kind req) (wq_expiresAt req));
    _ ← consumeDID now did "Wake rate limit exceeded for DID";
    match keyProblem (wq_publicKey req) (wq_authSecret req) with
    | Some problem => fail (HandlerError (HUB_ERROR_CODES InvalidPayloadError) ("Wake " +:+ problem))
    | None => wake_put (mkWakeRegistration did (wq_kind req) (wq_endpoint req) (wq_publicKey req)
                          (wq_authSecret req) (wq_expiresAt req))
    end.

Definition handleWakeUnregister (now : Z) (iss : option string) : Handler bool :=
  did ← getClientDID iss;
  if negb (hc_wake config) then fail NO_WAKE
  else
    _ ← authorized DENIED "Not authorized to unregister a wake endpoint" (AuthWakeUnregister did);
    _ ← consumeDID now did "Wake rate limit exceeded for DID";
    existed ← wake_get now did;
    _ ← wake_delete did;
    mret (match existed with Some _ => true | None => false end).
End handlers.
