(* ===== verification/HandlersSpec.v ===== *)
(** * What the hub's request handlers guarantee

    The theorems about Handlers.v: the error wire codes, the authorization gate, what a publish pushes,
    what a key package fetch may lose, and the consumption windows. *)

From S2P Require Import Prelude SeqID HubProtocol MemoryStore MemoryStoreSpec HubStore RateLimit ClientRegistry Wake Handlers.

(** ** The error codec, end to end *)

(** A named hub error survives the wire: thrown by the store, rethrown by a handler under its code
    and rebuilt by the client from that code, it is the same class with the same message; the codes are
    distinct, and any code the client rebuilds an error from is one of them. *)
Theorem named_error_survives_wire c message :
  (∃ code, rethrowAsHandlerError (HubError c message) = HandlerError code message ∧
    hubErrorFromCode code message = Some (HubError c message)) ∧
  (∀ m, rethrowAsHandlerError (OtherError m) = RawError m) ∧
  (∀ c', HUB_ERROR_CODES c' = HUB_ERROR_CODES c -> c' = c) ∧
  (∀ code m e, hubErrorFromCode code m = Some e -> hubErrorCodeOf e = Some code).
Proof.
  split_and!.
  - exists (HUB_ERROR_CODES c). by destruct c.
  - done.
  - by destruct c, c'.
  - intros code m e (c' & -> & ->)%hubErrorFromCode_Some. done.
Qed.

Section spec.
Context {S : Type} `{HubStore S} {laws : HubStoreLaws S}.
Context (fromB64 : string -> result (option string) bytes)
        (authorize : AuthorizeRequest -> result string AuthorizeDecision)
        (config : HubConfig).

Abbreviation St := (@HubState S).
Abbreviation H_publish := (handlePublish fromB64 authorize config).
Abbreviation H_fetchKP := (handleKeyPackageFetch authorize config).

(** ** Running a step *)

Lemma bind_ok {A B} (m : Handler A) (f : A -> Handler B) (st st1 : St) a :
  m st = (st1, Ok a) -> handler_bind A B f m st = f a st1.
Proof. unfold handler_bind. by intros ->. Qed.

Lemma bind_err {A B} (m : Handler A) (f : A -> Handler B) (st st1 : St) e :
  m st = (st1, Err e) -> handler_bind A B f m st = (st1, Err e).
Proof. unfold handler_bind. by intros ->. Qed.

(** The parts of the state a step leaves alone. *)
Definition outward (st : St) := (hs_store st, hs_registry st, hs_registrations st, hs_events st).

Lemma consumeDID_outward now did m (st : St) : outward (consumeDID config now did m st).1 = outward st.
Proof. unfold consumeDID. by destruct (tryConsume _ _ _ _). Qed.

Lemma consumeTopic_outward now t m (st : St) : outward (consumeTopic config now t m st).1 = outward st.
Proof. unfold consumeTopic. by destruct (tryConsume _ _ _ _). Qed.

Lemma authorized_state code m req (st : St) : (authorized authorize code m req st).1 = st.
Proof.
  unfold authorized. destruct (authorize req) as [d|e]; [|done].
  destruct (normalizeAuthorizeDecision d) as [[] reason]; done.
Qed.

Lemma getClientDID_ok iss (st st' : St) did :
  getClientDID iss st = (st', Ok did) -> st' = st ∧ iss = Some did.
Proof.
  unfold getClientDID. destruct iss as [d|]; [|done]. case_decide; [done|]. by intros [= <- <-].
Qed.

(** ** The fan-out *)

Definition pushes (evs : list HubEvent) : list (nat * string * StoredMessage) :=
  omap (fun ev => match ev with Push ch did m => Some (ch, did, m) | _ => None end) evs.

Definition pinged (evs : list HubEvent) : list string :=
  omap (fun ev => match ev with Ping did _ => Some did | _ => None end) evs.

(** Every bound subscriber but the sender, in subscription order. *)
Definition audience (r : Registry) (senderDID : string) (m : StoredMessage) (dids : list string) :
    list (nat * string * StoredMessage) :=
  omap (fun did => if decide (did = senderDID) then None
                   else (fun ch => (ch, did, m)) <$> writerOf r did) dids.

Lemma pushes_app e1 e2 : pushes (e1 ++ e2) = pushes e1 ++ pushes e2.
Proof. apply omap_app. Qed.

Lemma notify_pings debounceMs now did t s d d' out :
  notify debounceMs now did t s d = (d', out) -> ∀ o, o ∈ out -> o.1 = did.
Proof.
  unfold notify. repeat case_match; intros; simplify_eq; set_solver.
Qed.

(** What one turn of the loop does, and all of them. *)
Record delivered (senderDID : string) (m : StoredMessage) (dids : list string) (st st' : St) : Prop := {
  dl_store : hs_store st' = hs_store st;
  dl_registry : hs_registry st' = hs_registry st;
  dl_events : ∃ new, hs_events st' = hs_events st ++ new ∧
    pushes new = audience (hs_registry st) senderDID m dids ∧
    ∀ did, did ∈ pinged new -> did ∈ dids ∧ did ≠ senderDID ∧ writerOf (hs_registry st) did = None;
}.

Lemma deliver_spec now senderDID m did (st : St) :
  (deliver config now senderDID m did st).2 = Ok tt ∧
  delivered senderDID m [did] st (deliver config now senderDID m did st).1.
Proof.
  unfold deliver. case_decide as Hd.
  { split; [done|]. split; try done. exists []. rewrite app_nil_r. split; [done|].
    split; [unfold audience; simpl; by rewrite decide_True|set_solver]. }
  assert (∀ new, audience (hs_registry st) senderDID m [did] = new <->
    (match writerOf (hs_registry st) did with Some ch => [(ch, did, m)] | None => [] end) = new) as Haud.
  { intros new. unfold audience. simpl. rewrite decide_False by done. by destruct (writerOf _ did). }
  destruct (writerOf (hs_registry st) did) as [ch|] eqn:Hw.
  - split; [done|]. split; try done. exists [Push ch did m]. split; [done|].
    split; [symmetry; by apply Haud|]. simpl. set_solver.
  - unfold notifyWake. destruct (hc_wake config).
    + destruct (notify _ _ _ _ _ _) as [d' out] eqn:Hn. split; [done|]. split; try done.
      eexists. split; [done|]. split.
      * transitivity (@nil (nat * string * StoredMessage)); [|symmetry; by apply Haud].
        clear. induction out; simpl; done.
      * intros x Hx. assert (x = did) as ->; [|set_solver].
        assert (∀ o, o ∈ out -> o.1 = did) as Hout by (by eapply notify_pings).
        clear - Hx Hout. induction out as [|o out IH]; simpl in *; [set_solver|].
        apply elem_of_cons in Hx as [->|Hx]; [apply Hout; set_solver|apply IH; [done|set_solver]].
    + split; [done|]. split; try done. exists []. rewrite app_nil_r. split; [done|].
      split; [symmetry; by apply Haud|set_solver].
Qed.

Lemma deliverAll_spec now senderDID m dids (st : St) :
  (deliverAll config now senderDID m dids st).2 = Ok tt ∧
  delivered senderDID m dids st (deliverAll config now senderDID m dids st).1.
Proof.
  revert st. induction dids as [|did dids IH]; intros st.
  { split; [done|]. split; try done. exists []. rewrite app_nil_r. split; [done|]. split; [done|set_solver]. }
  cbn [deliverAll]. destruct (deliver_spec now senderDID m did st) as [Hok [Hs1 Hr1 (new1 & He1 & Hp1 & Hw1)]].
  destruct (deliver config now senderDID m did st) as [st1 r1] eqn:Hd. cbn [fst snd] in *. subst r1.
  unfold mbind. rewrite (bind_ok _ _ _ _ _ Hd).
  destruct (IH st1) as [Hok2 [Hs2 Hr2 (new2 & He2 & Hp2 & Hw2)]]. split; [done|].
  rewrite Hr1 in *. split; [congruence..|]. exists (new1 ++ new2).
  split; [by rewrite He2, He1, app_assoc|]. split.
  - rewrite pushes_app, Hp1, Hp2. symmetry. unfold audience.
    change (did :: dids) with ([did] ++ dids). apply omap_app.
  - unfold pinged in *. rewrite omap_app. intros x [Hx|Hx]%elem_of_app.
    + destruct (Hw1 x Hx) as (? & ? & ?). set_solver.
    + destruct (Hw2 x Hx) as (? & ? & ?). set_solver.
Qed.

Lemma bind_inv {A B} (m : Handler A) (f : A -> Handler B) (st st' : St) r :
  handler_bind A B f m st = (st', r) ->
  (∃ st1 a, m st = (st1, Ok a) ∧ f a st1 = (st', r)) ∨
  (∃ e, m st = (st', Err e) ∧ r = Err e).
Proof. unfold handler_bind. destruct (m st) as [st1 [a|e]]; [eauto|]. intros [= <- <-]. eauto. Qed.

Lemma authorized_inv code m req (st st' : St) r :
  authorized authorize code m req st = (st', r) ->
  st' = st ∧ (r = Ok tt ∨ ∃ e, r = Err e).
Proof.
  intros Heq. pose proof (authorized_state code m req st) as Hst. rewrite Heq in Hst.
  split; [exact Hst|]. destruct r as [[]|e]; eauto.
Qed.

Lemma onStore_inv {A} (op : S -> S * result Thrown A) (st st' : St) r :
  onStore op st = (st', r) ->
  ∃ s1 r1, op (hs_store st) = (s1, r1) ∧ hs_store st' = s1 ∧
    hs_registry st' = hs_registry st ∧ hs_events st' = hs_events st ∧
    hs_registrations st' = hs_registrations st ∧
    r = match r1 with Ok a => Ok a | Err e => Err (rethrowAsHandlerError e) end.
Proof.
  unfold onStore. destruct (op (hs_store st)) as [s1 r1]. intros [= <- <-]. exists s1, r1. done.
Qed.

Lemma outward_inv (st st' : St) : outward st' = outward st ->
  hs_store st' = hs_store st ∧ hs_registry st' = hs_registry st ∧ hs_events st' = hs_events st.
Proof. unfold outward. by intros [=]. Qed.

Lemma consumeDID_inv now did m (st st' : St) r :
  consumeDID config now did m st = (st', r) ->
  hs_store st' = hs_store st ∧ hs_registry st' = hs_registry st ∧ hs_events st' = hs_events st.
Proof. intros Heq. apply outward_inv. rewrite <- (consumeDID_outward now did m st). by rewrite Heq. Qed.

Lemma consumeTopic_inv now t m (st st' : St) r :
  consumeTopic config now t m st = (st', r) ->
  hs_store st' = hs_store st ∧ hs_registry st' = hs_registry st ∧ hs_events st' = hs_events st.
Proof. intros Heq. apply outward_inv. rewrite <- (consumeTopic_outward now t m st). by rewrite Heq. Qed.

Definition publishParams (req : PublishRequest) (did : string) (payload : bytes) : PublishParams :=
  mkPublish did (pq_topicID req) payload (pq_expectedHead req) (pq_publishID req) (pq_retain req).

(** The rest of the handler once the store has accepted the publish. *)
Lemma fanout_spec now req did payload published (st st' : St) r :
  fanOut config now req did payload published st = (st', r) ->
  r = Ok (pr_sequenceID published) ∧ hs_store st' = hs_store st ∧ hs_registry st' = hs_registry st ∧
  ∃ new, hs_events st' = hs_events st ++ new ∧
    if pr_deduped published then new = []
    else match (store_getSubscribers (pq_topicID req) (hs_store st)).2 with
         | Err _ => new = [StoreError "getSubscribers" (pq_topicID req)]
         | Ok dids =>
           pushes new = audience (hs_registry st) did (liveFrame req did payload (pr_sequenceID published)) dids ∧
           ∀ d, d ∈ pinged new -> d ∈ dids ∧ d ≠ did ∧ writerOf (hs_registry st) d = None
         end.
Proof.
  unfold fanOut. cbv zeta. destruct (pr_deduped published).
  { intros [= <- <-]. split_and!; [done..|]. exists []. by rewrite app_nil_r. }
  unfold mbind. unfold handler_bind at 1, attempt.
  destruct (onStore _ st) as [st1 r1] eqn:Hon. apply onStore_inv in Hon as (s1 & r0 & Hop & Hs & Hr & He & _ & ->).
  pose proof (getSubscribers_reads (pq_topicID req) (hs_store st)) as Hread. rewrite Hop in Hread |- *.
  cbn [fst snd] in *. destruct r0 as [dids|e].
  - unfold handler_bind. set (m := liveFrame _ _ _ _).
    destruct (deliverAll_spec now did m dids st1) as [Hok [Hs2 Hr2 (new & Hn & Hp & Hw)]].
    destruct (deliverAll config now did m dids st1) as [st2 r2]. cbn [fst snd] in *. subst r2.
    intros [= <- <-]. rewrite Hr in *. split_and!; [done|congruence|congruence|].
    exists new. rewrite Hn, He. done.
  - intros [= <- <-]. cbn. split_and!; [done|congruence|done|]. eexists. by rewrite He.
Qed.

(** C38. What a publish pushes: a refused or failed one leaves the store's state and every client as
    they were; an accepted one leaves the store as its [publish] did, is answered with its position,
    and pushes exactly once, in order, to every other subscriber with a bound channel the frame (with
    a log position iff it is a log publish), pinging only offline ones; a deduped one reaches nobody,
    and an unreadable subscriber list is reported, never the caller's error. *)
Theorem publish_handler_effects now iss req (st st' : St) r :
  H_publish now iss req st = (st', r) ->
  hs_registry st' = hs_registry st ∧
  match r with
  | Err _ => hs_store st' = hs_store st ∧ hs_events st' = hs_events st
  | Ok q =>
    ∃ did payload published new,
      iss = Some did ∧ fromB64 (pq_payload req) = Ok payload ∧ q = pr_sequenceID published ∧
      store_publish now (publishParams req did payload) (hs_store st) = (hs_store st', Ok published) ∧
      hs_events st' = hs_events st ++ new ∧
      if pr_deduped published then new = [] ∧ hs_store st' = hs_store st
      else match (store_getSubscribers (pq_topicID req) (hs_store st')).2 with
           | Err _ => new = [StoreError "getSubscribers" (pq_topicID req)]
           | Ok dids =>
             pushes new = audience (hs_registry st) did (liveFrame req did payload q) dids ∧
             ∀ d, d ∈ pinged new -> d ∈ dids ∧ d ≠ did ∧ writerOf (hs_registry st) d = None
           end
  end.
Proof.
  unfold handlePublish, mbind. intros Heq.
  apply bind_inv in Heq as [(st0 & did & [-> Hiss]%getClientDID_ok & Heq)|(e & Hm & ->)].
  2: { unfold getClientDID, fail in Hm. repeat case_match; by simplify_eq. }
  destruct (fromB64 (pq_payload req)) as [payload|] eqn:Hb; [|injection Heq as <- <-; done].
  cbv zeta in Heq. fold (publishParams req did payload) in Heq.
  apply bind_inv in Heq as [(st1 & [] & Hm & Heq)|(e & Hm & ->)];
    apply authorized_inv in Hm as [-> _]; [|done].
  apply bind_inv in Heq as [(st2 & [] & Hm & Heq)|(e & Hm & ->)];
    apply consumeDID_inv in Hm as (Hs2 & Hr2 & He2); [|done].
  apply bind_inv in Heq as [(st3 & [] & Hm & Heq)|(e & Hm & ->)];
    apply consumeTopic_inv in Hm as (Hs3 & Hr3 & He3); [|split; [congruence|split; congruence]].
  apply bind_inv in Heq as [(st4 & published & Hm & Heq)|(e & Hm & ->)];
    apply onStore_inv in Hm as (s1 & r1 & Hop & Hs4 & Hr4 & He4 & _ & Hres); rewrite Hs3, Hs2 in Hop.
  2: { destruct r1 as [|e1]; [done|]. apply publish_refused in Hop. split; [congruence|split; congruence]. }
  destruct r1 as [published'|]; [|done]. injection Hres as <-.
  apply fanout_spec in Heq as (-> & Hs5 & Hr5 & new & He5 & Hnew).
  split; [congruence|]. exists did, payload, published, new. rewrite Hs5, Hs4.
  split_and!; [done..|congruence|]. rewrite Hs4, Hr4, Hr3, Hr2 in Hnew.
  destruct (pr_deduped published) eqn:Hd; [|done]. split; [done|]. by eapply publish_deduped.
Qed.

Lemma chargeRequester_store now did (st st' : St) r :
  chargeRequester config now did st = (st', r) -> hs_store st' = hs_store st.
Proof. unfold chargeRequester. destruct (assertKeyPackageFetchAllowed _ _ _ _). by intros [= <- _]. Qed.

Lemma chargeTarget_store now did n (st st' : St) r :
  chargeTarget config now did n st = (st', r) -> hs_store st' = hs_store st ∧ ∃ b, r = Ok b.
Proof.
  unfold chargeTarget. destruct (assertTargetConsumptionAllowed _ _ _ _ _) as [w b].
  intros [= <- <-]. eauto.
Qed.

Lemma attempt_inv {A} (op : S -> S * result Thrown A) (st st' : St) r :
  attempt (onStore op) st = (st', r) ->
  ∃ s1 r1, op (hs_store st) = (s1, r1) ∧ hs_store st' = s1 ∧
    r = Ok (match r1 with Ok a => Ok a | Err e => Err (rethrowAsHandlerError e) end).
Proof.
  unfold attempt. destruct (onStore op st) as [st1 r1] eqn:Hon. intros [= <- <-].
  apply onStore_inv in Hon as (s1 & r0 & ? & ? & _ & _ & _ & ->). eauto.
Qed.

(** A key package fetch loses nothing it consumed: either the pool was not read, or the read's own
    failure is the answer, or everything the pool gave up is handed to the caller, followed by at most
    one last-resort package and only when the pool fell short; the slot read can fail the request only
    when nothing was consumed. No answer exceeds the capped count (or the one slot package). *)
Theorem keypackage_fetch_loses_nothing now iss target count (st st' : St) r :
  H_fetchKP now iss target count st = (st', r) ->
  let capped := cappedCount config count in
  (hs_store st' = hs_store st ∨
   ∃ out, store_fetchKeyPackages now target capped (hs_store st) = (hs_store st', out) ∧
     match out with
     | Err e => r = Err (rethrowAsHandlerError e)
     | Ok consumed =>
       r = Ok consumed ∨
       (∃ kp, r = Ok (consumed ++ [kp]) ∧ length consumed < capped) ∨
       (consumed = [] ∧ ∃ e, r = Err e)
     end) ∧
  (∀ l, r = Ok l -> length l <= Nat.max 1 capped).
Proof.
  intros Heq capped. unfold handleKeyPackageFetch, mbind in Heq.
  apply bind_inv in Heq as [(st0 & did & [-> _]%getClientDID_ok & Heq)|(e & Hm & ->)].
  2: { split; [|done]. left. unfold getClientDID, fail in Hm. repeat case_match; by simplify_eq. }
  cbv zeta in Heq. fold capped in Heq.
  apply bind_inv in Heq as [(st1 & [] & Hm & Heq)|(e & Hm & ->)];
    apply authorized_inv in Hm as [-> _]; [|by split; [left|]].
  apply bind_inv in Heq as [(st2 & [] & Hs2%chargeRequester_store & Heq)|(e & Hs2%chargeRequester_store & ->)];
    [|by split; [left|]].
  apply bind_inv in Heq as [(st3 & charged & Hm & Heq)|(e & Hm & ->)];
    apply chargeTarget_store in Hm as [Hs3 [b Hb]]; [|done]. rewrite Hs2 in Hs3. clear Hb b.
  destruct charged; cbn [negb] in Heq.
  - apply bind_inv in Heq as [(st4 & consumed & Hm & Heq)|(e & Hm & ->)];
      apply onStore_inv in Hm as (s1 & r1 & Hop & Hs4 & _ & _ & _ & Hres); rewrite Hs3 in Hop.
    2: { split; [|done]. right. exists r1. rewrite Hs4. split; [done|]. destruct r1; [done|].
         by injection Hres as ->. }
    destruct r1 as [c|]; [|done]. injection Hres as <-.
    pose proof (fetchKeyPackages_count _ _ _ _ _ _ Hop) as Hlen.
    destruct (Nat.leb_spec capped (length consumed)) as [Hfull|Hshort].
    { injection Heq as <- <-. split.
      - right. exists (Ok consumed). rewrite Hs4. split; [done|by left].
      - intros l [= <-]. lia. }
    apply bind_inv in Heq as [(st5 & slot & Hm & Heq)|(e & Hm & ->)];
      apply attempt_inv in Hm as (s2 & r2 & Hop2 & Hs5 & Hres2); [|done].
    pose proof (fetchLastResort_reads target (hs_store st4)) as Hread. rewrite Hop2 in Hread.
    cbn [fst] in Hread. injection Hres2 as ->.
    assert (store_fetchKeyPackages now target capped (hs_store st) = (hs_store st5, Ok consumed)) as Hpool
      by (rewrite Hs5, Hread, Hs4; exact Hop).
    destruct r2 as [[kp|]|e2].
    + injection Heq as <- <-. split; [|intros ? [= <-]; rewrite length_app; simpl; lia].
      right. exists (Ok consumed). split; [exact Hpool|]. right. left. by exists kp.
    + injection Heq as <- <-. split; [|intros ? [= <-]; lia]. right. exists (Ok consumed).
      split; [exact Hpool|by left].
    + destruct (Nat.eqb_spec (length consumed) 0) as [Hnil|Hne].
      * injection Heq as <- <-. split; [|done]. right. exists (Ok consumed). split; [exact Hpool|].
        right. right. split; [by apply nil_length_inv|eauto].
      * injection Heq as <- <-. split; [|intros ? [= <-]; lia]. right. exists (Ok consumed).
        split; [exact Hpool|by left].
  - apply bind_inv in Heq as [(st5 & slot & Hm & Heq)|(e & Hm & ->)];
      apply attempt_inv in Hm as (s2 & r2 & Hop2 & Hs5 & Hres2); [|done]. injection Hres2 as ->.
    pose proof (fetchLastResort_reads target (hs_store st3)) as Hread. rewrite Hop2 in Hread.
    cbn [fst] in Hread.
    assert (hs_store st5 = hs_store st) as Hsame by congruence.
    destruct r2 as [[kp|]|e2]; injection Heq as <- <-; (split; [by left|]); intros l; [|done..].
    intros [= <-]. simpl. lia.
Qed.

Context (keyPackageDigest : string -> string) (keyProblem : string -> string -> option string).

End spec.

(** ** The per-target consumption window *)

Section window.
Context (limits : KeyPackageFetchLimits).

Abbreviation cap := (fl_maxPerTargetConsumed limits).

(** A history of charges, each at its instant, for its target, of its amount. *)
Fixpoint chargeAll (calls : list (Z * string * nat)) (ws : gmap string Window) :
    gmap string Window * list bool :=
  match calls with
  | [] => (ws, [])
  | (now, did, amount) :: calls =>
    let '(ws, ok) := assertTargetConsumptionAllowed limits now did amount ws in
    let '(ws, rest) := chargeAll calls ws in
    (ws, ok :: rest)
  end.

(** What the accepted charges of one target add up to. *)
Fixpoint consumedFrom (target : string) (calls : list (Z * string * nat)) (results : list bool) : nat :=
  match calls, results with
  | (_, did, amount) :: calls, ok :: results =>
    (if decide (did = target ∧ ok = true) then amount else 0) + consumedFrom target calls results
  | _, _ => 0
  end.

Definition windows_ok (ws : gmap string Window) : Prop := ∀ did w, ws !! did = Some w -> w_count w <= cap.

Lemma sweep_lookup now ws did :
  sweep now ws !! did = ws !! did ∨
  (sweep now ws !! did = None ∧ ∃ w, ws !! did = Some w ∧ (w_resetAt w <= now)%Z).
Proof.
  unfold sweep. destruct (_ <? _); [|by left]. rewrite map_lookup_filter.
  destruct (ws !! did) as [w|]; [|by left]. simpl. destruct (decide (now < w_resetAt w)%Z).
  - left. by case_guard.
  - right. case_guard; [done|]. split; [done|]. exists w. split; [done|lia].
Qed.

Lemma charge_ok now did amount ws :
  windows_ok ws -> windows_ok (assertTargetConsumptionAllowed limits now did amount ws).1.
Proof.
  intros Hws. assert (windows_ok (sweep now ws)) as Hsw.
  { intros d w Hd. destruct (sweep_lookup now ws d) as [Heq|[Heq _]]; rewrite Heq in Hd; [by eapply Hws|done]. }
  unfold assertTargetConsumptionAllowed. cbv zeta.
  assert (∀ w, w_count w <= cap -> windows_ok (<[did:=w]> (sweep now ws))) as Hins.
  { intros w Hw d w' [[<- <-]|[_ Hl]]%lookup_insert_Some; [done|by eapply Hsw]. }
  destruct (sweep now ws !! did) as [w|]; [destruct (_ <=? _)%Z|];
    match goal with |- context [cap <? ?x] => destruct (Nat.ltb_spec cap x) end; simpl; auto.
Qed.

(** What may still be taken from the target before [until]. *)
Definition allowance (target : string) (until : Z) (ws : gmap string Window) : nat :=
  match ws !! target with
  | None => cap
  | Some w => if (until <=? w_resetAt w)%Z then cap - w_count w else 2 * cap - w_count w
  end.

Lemma charge_allowance target start now did amount ws :
  windows_ok ws -> (start <= now < start + fl_windowMs limits)%Z ->
  let '(ws', ok) := assertTargetConsumptionAllowed limits now did amount ws in
  (if decide (did = target ∧ ok = true) then amount else 0) + allowance target (start + fl_windowMs limits) ws'
    <= allowance target (start + fl_windowMs limits) ws.
Proof.
  intros Hws Hnow. remember (start + fl_windowMs limits)%Z as until eqn:Huntil.
  assert (allowance target until (sweep now ws) <= allowance target until ws) as Hsweep.
  { unfold allowance. destruct (sweep_lookup now ws target) as [->|(Hn & w & Hw & Hr)]; [done|].
    rewrite Hn, Hw. pose proof (Hws _ _ Hw). destruct (Z.leb_spec until (w_resetAt w)); lia. }
  assert (windows_ok (sweep now ws)) as Hsw.
  { intros d w Hd. destruct (sweep_lookup now ws d) as [Heq|[Heq _]]; rewrite Heq in Hd; [by eapply Hws|done]. }
  unfold assertTargetConsumptionAllowed. cbv zeta. revert Hsweep Hsw. generalize (sweep now ws) as ws1.
  intros ws1 Hsweep Hsw. set (old := allowance target until ws) in *.
  assert (∀ w, did ≠ target -> allowance target until (<[did:=w]> ws1) <= old) as Hother.
  { intros w Hne. unfold allowance in *. by rewrite lookup_insert_ne. }
  assert (∀ w, did = target -> allowance target until (<[did:=w]> ws1) =
    if (until <=? w_resetAt w)%Z then cap - w_count w else 2 * cap - w_count w) as Hsame.
  { intros w ->. unfold allowance. by rewrite lookup_insert_eq. }
  assert (∀ b : bool, did ≠ target -> (if decide (did = target ∧ b = true) then amount else 0) = 0) as Hno.
  { intros b Hne. rewrite decide_False; [done|]. by intros []. }
  assert (∀ b : bool, b = false -> (if decide (did = target ∧ b = true) then amount else 0) = 0) as Hno'.
  { intros b ->. rewrite decide_False; [done|]. by intros []. }
  assert (∀ w, w = mkWindow amount (now + fl_windowMs limits) -> amount <= cap -> cap <= old ->
    (if decide (did = target ∧ true = true) then amount else 0) +
      allowance target until (<[did:=w]> ws1) <= old) as Hopen.
  { intros w -> Hle Hold. destruct (decide (did = target)) as [Ht|Ht]; [|rewrite Hno by done; by apply Hother].
    rewrite Hsame by done. cbn [w_resetAt w_count].
    destruct (Z.leb_spec until (now + fl_windowMs limits)); [|lia].
    destruct (decide (did = target ∧ true = true)); lia. }
  destruct (ws1 !! did) as [w|] eqn:Hd.
  - pose proof (Hsw _ _ Hd) as Hcount. destruct (Z.leb_spec (w_resetAt w) now) as [Hexp|Hlive].
    + destruct (Nat.ltb_spec cap amount); [rewrite Hno' by done; exact Hsweep|].
      destruct (decide (did = target)) as [Ht|Ht].
      * apply Hopen; [done|lia|]. unfold allowance in Hsweep. rewrite <- Ht, Hd in Hsweep.
        destruct (Z.leb_spec until (w_resetAt w)); lia.
      * rewrite Hno by done. by apply Hother.
    + destruct (Nat.ltb_spec cap (w_count w + amount)); [rewrite Hno' by done; exact Hsweep|].
      destruct (decide (did = target)) as [Ht|Ht]; [|rewrite Hno by done; by apply Hother].
      rewrite Hsame by done. cbn [w_resetAt w_count]. unfold allowance in Hsweep.
      rewrite <- Ht, Hd in Hsweep. rewrite decide_True by done. destruct (_ <=? _)%Z; lia.
  - destruct (Nat.ltb_spec cap amount); [rewrite Hno' by done; exact Hsweep|].
    destruct (decide (did = target)) as [Ht|Ht]; [|rewrite Hno by done; by apply Hother].
    apply Hopen; [done|lia|]. unfold allowance in Hsweep. by rewrite <- Ht, Hd in Hsweep.
Qed.

Lemma chargeAll_allowance target start calls ws :
  windows_ok ws ->
  Forall (fun c => (start <= c.1.1 < start + fl_windowMs limits)%Z) calls ->
  consumedFrom target calls (chargeAll calls ws).2 <= allowance target (start + fl_windowMs limits) ws.
Proof.
  intros Hws Hcalls. revert ws Hws. induction Hcalls as [|[[now did] amount] calls Hnow Hcalls IH];
    intros ws Hws; simpl; [lia|].
  pose proof (charge_allowance target start now did amount ws Hws Hnow) as Hstep.
  pose proof (charge_ok now did amount ws Hws) as Hws'.
  destruct (assertTargetConsumptionAllowed _ _ _ _ _) as [ws' ok]. simpl in Hws'.
  specialize (IH ws' Hws'). destruct (chargeAll calls ws') as [ws'' rest]. simpl in *. lia.
Qed.
End window.

Lemma chargeAll_windows limits calls ws : windows_ok limits ws -> windows_ok limits (chargeAll limits calls ws).1.
Proof.
  revert ws. induction calls as [|[[now did] amount] calls IH]; intros ws Hws; simpl; [done|].
  pose proof (charge_ok limits now did amount ws Hws) as Hws'.
  destruct (assertTargetConsumptionAllowed _ _ _ _ _) as [ws' ok]. specialize (IH ws' Hws').
  by destruct (chargeAll limits calls ws').
Qed.

(** Collective drain is bounded: whatever was charged before and whoever asks, the packages one
    target can lose in any interval of one window length are at most twice [maxPerTargetConsumed] (two
    fixed windows can meet inside it), and never more than [maxPerTargetConsumed] while one window
    stands. *)
Lemma target_drain_bound limits before start target calls :
  Forall (fun c => (start <= c.1.1 < start + fl_windowMs limits)%Z) calls ->
  let ws := (chargeAll limits before ∅).1 in
  let consumed := consumedFrom target calls (chargeAll limits calls ws).2 in
  consumed <= 2 * fl_maxPerTargetConsumed limits ∧
  (ws !! target = None -> consumed <= fl_maxPerTargetConsumed limits) ∧
  (∀ did w, ws !! did = Some w -> w_count w <= fl_maxPerTargetConsumed limits).
Proof.
  intros Hcalls ws consumed.
  assert (windows_ok limits ws) as Hws by (apply chargeAll_windows; by intros ? ? ?).
  pose proof (chargeAll_allowance limits target start calls ws Hws Hcalls) as Hle. fold consumed in Hle.
  unfold allowance in Hle. split_and!; [|by intros Hn; rewrite Hn in Hle|exact Hws].
  destruct (ws !! target); [|lia]. destruct (_ <=? _)%Z; lia.
Qed.

Definition demo_fetch_limits : KeyPackageFetchLimits := mkFetchLimits 10 30 5 100.

Lemma target_drain_bound_witness :
  consumedFrom "t" [(90%Z, "t", 2); (110%Z, "t", 5); (120%Z, "t", 1)]
    (chargeAll demo_fetch_limits [(90%Z, "t", 2); (110%Z, "t", 5); (120%Z, "t", 1)]
       (chargeAll demo_fetch_limits [(0%Z, "t", 3)] ∅).1).2 = 7 ∧ 7 <= 2 * 5.
Proof.
  split; [by vm_compute|].
  destruct (target_drain_bound demo_fetch_limits [(0%Z, "t", 3)] 50 "t"
    [(90%Z, "t", 2); (110%Z, "t", 5); (120%Z, "t", 1)]) as [H _]; [repeat constructor; simpl; lia|].
  exact H.
Defined.

(** ** Witnesses of the handlers' theorems on the in-memory store *)

Definition demo_fromB64 (s : string) : result (option string) bytes :=
  if decide (s = "!") then Err None else Ok [Byte.x01].
Definition demo_allow : AuthorizeRequest -> result string AuthorizeDecision := fun _ => Ok (Plain true).
Definition demo_deny : AuthorizeRequest -> result string AuthorizeDecision := fun _ => Ok (Plain false).

Definition demo_hub_config : HubConfig :=
  mkHubConfig DEFAULT_RATE_LIMITS DEFAULT_KEYPACKAGE_FETCH_LIMITS true 10000.

(** bob and carol share a topic with alice; only bob has a channel. *)
Definition demo_hub : @HubState MemStore :=
  mkHubState
    (run demo_cfg [OpSubscribe (mkSubscribe "alice" "t" None); OpSubscribe (mkSubscribe "bob" "t" None);
                   OpSubscribe (mkSubscribe "carol" "t" None);
                   OpStoreKeyPackage 0 (mkStoreKeyPackage "alice" "kp1" None);
                   OpStoreLastResort "alice" "last"] createMemoryStore)
    (regRun [RegRegister "bob"; RegBind "bob" 7 7] emptyRegistry)
    ∅ ∅ ∅ ∅ createWakeDispatcher ∅ [].

#[local] Existing Instance memory_store_laws.

Definition demo_request : PublishRequest := mkPublishRequest "t" "AQ==" (Some Log) None None.

Lemma publish_handler_effects_witness :
  let out := handlePublish (H := memory_store demo_cfg) demo_fromB64 demo_allow demo_hub_config 0 (Some "alice")
               demo_request demo_hub in
  hs_registry out.1 = hs_registry demo_hub ∧
  pushes (hs_events out.1) =
    [(7, "bob", mkStoredMessage "000000000001" "alice" "t" [Byte.x01] (Some "000000000001"))] ∧
  pinged (hs_events out.1) = ["carol"].
Proof.
  intros out. split; [|by vm_compute]. destruct out as [st' r] eqn:Hout.
  destruct (publish_handler_effects (H := memory_store demo_cfg) demo_fromB64 demo_allow demo_hub_config 0
    (Some "alice") demo_request demo_hub st' r Hout) as [Hreg _]. exact Hreg.
Defined.

Lemma keypackage_fetch_loses_nothing_witness :
  let out := handleKeyPackageFetch (H := memory_store demo_cfg) demo_allow demo_hub_config 0 (Some "bob")
               "alice" (Some 3) demo_hub in
  out.2 = Ok ["kp1"; "last"] ∧ ∀ l, out.2 = Ok l -> length l <= 3.
Proof.
  intros out. split; [by vm_compute|]. destruct out as [st' r] eqn:Hout.
  destruct (keypackage_fetch_loses_nothing (H := memory_store demo_cfg) demo_allow demo_hub_config 0
    (Some "bob") "alice" (Some 3) demo_hub st' r Hout) as [_ Hlen]. exact Hlen.
Defined.

