(* ===== verification/Codecs.v ===== *)
(** * The wire codecs of the peer

    The byte formats of packages/rpc/src: the commit frame (commit-frame.ts), the handshake header
    (handshake.ts), the rendezvous payloads (recovery.ts), the directed-payload tag (directed-tag.ts),
    the ledger-entry blob (ledger-entries.ts), the app AAD (app-aad.ts) and the frame size check
    (frame-size.ts). A [Uint8Array] is a list of bytes, a [throw] an [Err]; integers are written
    modulo their width, as [DataView] does. *)

From coqutil Require Word.LittleEndianList.
From S2P Require Import Prelude HubProtocol.

#[local] Open Scope Z_scope.

Abbreviation le_split := LittleEndianList.le_split.
Abbreviation le_combine := LittleEndianList.le_combine.

(** ** Typed-array primitives *)

(** Storing a number in a [Uint8Array] keeps its low eight bits. *)
Definition byteOf (z : Z) : Byte.byte := coqutil.Byte.byte.of_Z z.
Definition numberOf (b : Byte.byte) : Z := coqutil.Byte.byte.unsigned b.

(** [DataView.setUint]: [n] bytes of the value, wrapped to [8 * n] bits. *)
Definition setUint (n : nat) (littleEndian : bool) (value : Z) : bytes :=
  if littleEndian then le_split n value else rev (le_split n value).

(** [view.subarray(first, last)], for bounds the caller checked. *)
Definition subarray (first last : nat) (view : bytes) : bytes := take (last - first) (drop first view).

(** [DataView.getUint] at an offset. Every call in the code follows a length check that covers it. *)
Definition getUint (n : nat) (littleEndian : bool) (offset : nat) (view : bytes) : Z :=
  let raw := subarray offset (offset + n) view in
  le_combine (if littleEndian then raw else rev raw).

Definition size (view : bytes) : Z := Z.of_nat (length view).

(** What a codec throws. The messages are the code's, without the numbers some of them interpolate. *)
Inductive CodecError :=
  | Malformed (message : string)
  | UnsupportedCommitFrameVersionError (version : Z)
  | FrameTooLargeError (rawBytes : Z).

#[export] Instance CodecError_eq_dec : EqDecision CodecError.
Proof. solve_decision. Defined.

(** ** frame-size.ts *)

Definition ceilDiv (a b : Z) : Z := (a + b - 1) / b.

Definition assertFrameFits (payload : bytes) : result CodecError unit :=
  if 1048576 <? 4 * ceilDiv (size payload) 3 then Err (FrameTooLargeError (size payload)) else Ok tt.

(** ** commit-frame.ts *)

Definition COMMIT_FRAME_VERSION : Z := 1.

Record CommitFrame := mkCommitFrame { cf_commit : bytes; cf_sealedEntries : bytes }.

Definition encodeCommitFrame (f : CommitFrame) : bytes :=
  [byteOf COMMIT_FRAME_VERSION] ++ setUint 4 true (size (cf_commit f)) ++ cf_commit f ++ cf_sealedEntries f.

Definition isUnsupportedCommitFrameVersion (e : CodecError) : bool :=
  match e with UnsupportedCommitFrameVersionError _ => true | _ => false end.

Definition decodeCommitFrame (frame : bytes) : result CodecError CommitFrame :=
  if (length frame <? 5)%nat then Err (Malformed "commit frame is too short")
  else match head frame with
  | None => Err (Malformed "commit frame is too short")
  | Some version =>
    if negb (numberOf version =? COMMIT_FRAME_VERSION)
    then Err (UnsupportedCommitFrameVersionError (numberOf version))
    else
      let blobStart := (5 + Z.to_nat (getUint 4 true 1 frame))%nat in
      if (length frame <? blobStart)%nat
      then Err (Malformed "commit frame is truncated: the commit runs past the end of the frame")
      else Ok (mkCommitFrame (subarray 5 blobStart frame) (drop blobStart frame))
  end.

(** ** handshake.ts *)

Definition HANDSHAKE_MAGIC : bytes := [byteOf 69; byteOf 75].
Definition HANDSHAKE_VERSION : Z := 1.

Inductive HandshakeKind :=
  | commit | recoveryRequest | recoveryReply | ledgerRequest | ledgerReply
  | recoveryConfirmRequest | recoveryVerdict.

#[export] Instance HandshakeKind_eq_dec : EqDecision HandshakeKind.
Proof. solve_decision. Defined.

Definition HANDSHAKE_KIND (k : HandshakeKind) : Z :=
  match k with
  | commit => 0 | recoveryRequest => 1 | recoveryReply => 2 | ledgerRequest => 3 | ledgerReply => 4
  | recoveryConfirmRequest => 5 | recoveryVerdict => 6
  end.

Definition KINDS : list Z :=
  map HANDSHAKE_KIND [commit; recoveryRequest; recoveryReply; ledgerRequest; ledgerReply;
                      recoveryConfirmRequest; recoveryVerdict].

Definition isHandshakeKind (value : Z) : bool := existsb (Z.eqb value) KINDS.

Definition encodeHandshakeFrame (kind : HandshakeKind) (payload : bytes) : result CodecError bytes :=
  let frame := HANDSHAKE_MAGIC ++ [byteOf HANDSHAKE_VERSION; byteOf (HANDSHAKE_KIND kind)] ++ payload in
  if decide (kind = recoveryConfirmRequest ∨ kind = recoveryVerdict)
  then _ ← assertFrameFits frame; Ok frame
  else Ok frame.

(** The kind is a raw number: under an unknown version nothing is known of it. *)
Record HandshakeFrame := mkHandshakeFrame { hf_version : Z; hf_kind : Z; hf_payload : bytes }.

Definition decodeHandshakeFrame (frame : bytes) : result CodecError HandshakeFrame :=
  match frame with
  | m0 :: m1 :: version :: kind :: payload =>
    if negb (bool_decide ([m0; m1] = HANDSHAKE_MAGIC)) then Err (Malformed "handshake frame has a bad magic")
    else
      let decoded := mkHandshakeFrame (numberOf version) (numberOf kind) payload in
      if negb (numberOf version =? HANDSHAKE_VERSION) then Ok decoded
      else if negb (isHandshakeKind (numberOf kind)) then Err (Malformed "unknown handshake kind")
      else Ok decoded
  | _ => Err (Malformed "handshake frame is too short")
  end.

Section utf.
(** @sozai/codec's [fromUTF] and [toUTF] (a throw is [None]), and the fatal [TextDecoder] of app-aad.ts
    that the latter wraps. What they guarantee is a hypothesis of the theorems that use it. *)
Context (fromUTF : string -> bytes) (toUTF : bytes -> option string).

Definition decodeText (raw : bytes) : result CodecError string :=
  match toUTF raw with Some s => Ok s | None => Err (Malformed "ill-formed UTF-8") end.

(** ** recovery.ts *)

Definition MAX_REQUEST_ID_BYTES : nat := 128.
Definition MAX_CONFIRMATION_FIELD_BYTES : nat := Z.to_nat 65535.

Definition encodeWithRequestID (maxBytes : nat) (label requestID : string) (payload : bytes) :
    result CodecError bytes :=
  let rid := fromUTF requestID in
  if (maxBytes <? length rid)%nat then Err (Malformed (label +:+ " requestID is too long"))
  else Ok (setUint 2 true (size rid) ++ rid ++ payload).

Definition decodeWithRequestID (maxBytes : nat) (label : string) (payload : bytes) :
    result CodecError (string * bytes) :=
  if (length payload <? 2)%nat then Err (Malformed (label +:+ " is too short"))
  else
    let ridLen := Z.to_nat (getUint 2 true 0 payload) in
    if (maxBytes <? ridLen)%nat then Err (Malformed (label +:+ " requestID is too long"))
    else if (length payload <? 2 + ridLen)%nat then Err (Malformed (label +:+ " is truncated"))
    else
      requestID ← decodeText (subarray 2 (2 + ridLen) payload);
      Ok (requestID, drop (2 + ridLen) payload).

Definition encodeRecoveryRequest := encodeWithRequestID MAX_REQUEST_ID_BYTES "recovery request".
Definition decodeRecoveryRequest := decodeWithRequestID MAX_REQUEST_ID_BYTES "recovery request".
Definition encodeRecoveryReply := encodeWithRequestID MAX_REQUEST_ID_BYTES "recovery reply".
Definition decodeRecoveryReply := decodeWithRequestID MAX_REQUEST_ID_BYTES "recovery reply".
Definition encodeLedgerRequest := encodeWithRequestID MAX_REQUEST_ID_BYTES "ledger request".
Definition decodeLedgerRequest := decodeWithRequestID MAX_REQUEST_ID_BYTES "ledger request".
Definition encodeLedgerReply := encodeWithRequestID MAX_REQUEST_ID_BYTES "ledger reply".
Definition decodeLedgerReply := decodeWithRequestID MAX_REQUEST_ID_BYTES "ledger reply".
Definition encodeRecoveryVerdict := encodeWithRequestID MAX_REQUEST_ID_BYTES "recovery verdict".
Definition decodeRecoveryVerdict := decodeWithRequestID MAX_REQUEST_ID_BYTES "recovery verdict".

Record RecoveryConfirmRequest := mkRecoveryConfirmRequest {
  rcr_requestID : string;
  rcr_request : bytes;
  rcr_position : string;
  rcr_commitDigest : string;
}.

Abbreviation CONFIRMATION := "recovery confirmation"%string.

Definition encodeRecoveryConfirmRequest (v : RecoveryConfirmRequest) : result CodecError bytes :=
  digestPrefixed ← encodeWithRequestID MAX_CONFIRMATION_FIELD_BYTES CONFIRMATION
                     (rcr_commitDigest v) (rcr_request v);
  positionPrefixed ← encodeWithRequestID MAX_CONFIRMATION_FIELD_BYTES CONFIRMATION
                       (rcr_position v) digestPrefixed;
  encodeWithRequestID MAX_REQUEST_ID_BYTES CONFIRMATION (rcr_requestID v) positionPrefixed.

Definition decodeRecoveryConfirmRequest (payload : bytes) : result CodecError RecoveryConfirmRequest :=
  '(requestID, rest) ← decodeWithRequestID MAX_REQUEST_ID_BYTES CONFIRMATION payload;
  '(position, rest) ← decodeWithRequestID MAX_CONFIRMATION_FIELD_BYTES CONFIRMATION rest;
  '(commitDigest, request) ← decodeWithRequestID MAX_CONFIRMATION_FIELD_BYTES CONFIRMATION rest;
  if (length request =? 0)%nat then Err (Malformed "recovery confirmation has no signed request")
  else Ok (mkRecoveryConfirmRequest requestID request position commitDigest).

(** ** directed-tag.ts *)

Definition DIRECTED_TAG_VERSION : Z := 0.
Definition MAX_PROTOCOL_BYTES : nat := Z.to_nat 65535.

Definition isLegacyDirectedPayload (payload : bytes) : bool :=
  match payload with [] => true | b :: _ => negb (numberOf b =? DIRECTED_TAG_VERSION) end.

Definition encodeDirectedPayload (protocol : string) (frame : bytes) : result CodecError bytes :=
  let name := fromUTF protocol in
  if (MAX_PROTOCOL_BYTES <? length name)%nat
  then Err (Malformed "encodeDirectedPayload: protocol name exceeds the tag limit")
  else Ok ([byteOf DIRECTED_TAG_VERSION] ++ setUint 2 false (size name) ++ name ++ frame).

Definition decodeDirectedPayload (payload : bytes) : result CodecError (string * bytes) :=
  if (length payload <? 3)%nat
  then Err (Malformed "decodeDirectedPayload: buffer shorter than the tag header")
  else if isLegacyDirectedPayload payload
  then Err (Malformed "decodeDirectedPayload: unexpected version byte")
  else
    let frameStart := (3 + Z.to_nat (getUint 2 false 1 payload))%nat in
    if (length payload <? frameStart)%nat
    then Err (Malformed "decodeDirectedPayload: protocol length overruns the buffer")
    else
      protocol ← decodeText (subarray 3 frameStart payload);
      Ok (protocol, drop frameStart payload).

(** ** ledger-entries.ts *)

Definition LEDGER_ENTRIES_VERSION : Z := 1.

Definition encodeToken (raw : bytes) : bytes := setUint 4 true (size raw) ++ raw.

(** No check on the number of tokens: the count field wraps. *)
Definition encodeLedgerEntries (tokens : list string) : bytes :=
  let encoded := map fromUTF tokens in
  [byteOf LEDGER_ENTRIES_VERSION] ++ setUint 2 true (Z.of_nat (length encoded)) ++
  concat (map encodeToken encoded).

(** The loop of [decodeLedgerEntries]: [count] more tokens from [offset]. *)
Fixpoint decodeTokens (count offset : nat) (view : bytes) : result CodecError (list string) :=
  match count with
  | O => Ok []
  | S count =>
    if (length view <? offset + 4)%nat then Err (Malformed "ledger entry blob is truncated")
    else
      let start := (offset + 4)%nat in
      let last := (start + Z.to_nat (getUint 4 true offset view))%nat in
      if (length view <? last)%nat then Err (Malformed "ledger entry blob is truncated")
      else
        token ← decodeText (subarray start last view);
        tokens ← decodeTokens count last view;
        Ok (token :: tokens)
  end.

Definition decodeLedgerEntries (view : bytes) : result CodecError (list string) :=
  if (length view <? 3)%nat then Err (Malformed "ledger entry blob is too short")
  else if negb (bool_decide (head view = Some (byteOf LEDGER_ENTRIES_VERSION)))
  then Err (Malformed "unsupported ledger entry blob version")
  else decodeTokens (Z.to_nat (getUint 2 true 1 view)) 3 view.

(** The resolver of a commit's blob: [openEntries] is the port's, and any failure is no entry. *)
Definition resolveLedgerEntries (openEntries : bytes -> option bytes) (sealedEntries : bytes) : list string :=
  match openEntries sealedEntries with
  | None => []
  | Some view => match decodeLedgerEntries view with Ok tokens => tokens | Err _ => [] end
  end.

(** ** app-aad.ts *)

Inductive Intent := Ephemeral | LogIntent.

Record AppAAD := mkAppAAD { aad_topicID : string; aad_intent : Intent }.

Definition encodeAppAAD (a : AppAAD) : result CodecError bytes :=
  let topic := fromUTF (aad_topicID a) in
  if bool_decide (toUTF topic = Some (aad_topicID a))
  then Ok ([byteOf 1; byteOf (match aad_intent a with LogIntent => 1 | Ephemeral => 0 end)] ++ topic)
  else Err (Malformed "App AAD topic must be well-formed UTF-8").

Definition decodeAppAAD (view : bytes) : option AppAAD :=
  match view with
  | version :: intent :: topic =>
    if negb (numberOf version =? 1) || (negb (numberOf intent =? 0) && negb (numberOf intent =? 1)) then None
    else
      topicID ← toUTF topic;
      Some (mkAppAAD topicID (if numberOf intent =? 1 then LogIntent else Ephemeral))
  | _ => None
  end.
End utf.
