(* ===== verification/CodecsSpec.v ===== *)
(** * The wire codecs round-trip and refuse what they must

    Theorems about Codecs.v. The helper lemmas are about one shape, a length-prefixed field behind a
    header, which every codec of the file is built from. *)

From coqutil Require Word.LittleEndianList.
From S2P Require Import Prelude HubProtocol Codecs.

#[local] Open Scope Z_scope.

(** ** Bytes and integers *)

Lemma numberOf_byteOf z : 0 <= z < 256 -> numberOf (byteOf z) = z.
Proof. intros. unfold numberOf, byteOf. rewrite coqutil.Byte.byte.unsigned_of_Z. by apply Z.mod_small. Qed.

Lemma byteOf_numberOf b : byteOf (numberOf b) = b.
Proof. apply coqutil.Byte.byte.of_Z_unsigned. Qed.

Lemma numberOf_inj b z : numberOf b = z -> b = byteOf z.
Proof. intros <-. by rewrite byteOf_numberOf. Qed.

Lemma numberOf_range b : 0 <= numberOf b < 256.
Proof. apply coqutil.Byte.byte.unsigned_range. Qed.

Lemma length_setUint n e z : length (setUint n e z) = n.
Proof. unfold setUint. destruct e; rewrite ?length_rev; apply LittleEndianList.length_le_split. Qed.

Lemma subarray_mid pre raw rest :
  subarray (length pre) (length pre + length raw) (pre ++ raw ++ rest) = raw.
Proof.
  unfold subarray. rewrite drop_app_length, take_app_le by lia.
  rewrite Nat.add_comm, Nat.add_sub. by apply take_ge.
Qed.

Lemma getUint_mid n e pre z rest :
  getUint n e (length pre) (pre ++ setUint n e z ++ rest) = z mod 2 ^ (8 * Z.of_nat n).
Proof.
  unfold getUint. pose proof (subarray_mid pre (setUint n e z) rest) as Hs.
  rewrite length_setUint in Hs. rewrite Hs. unfold setUint.
  destruct e; rewrite ?rev_involutive, LittleEndianList.le_combine_split; f_equal; f_equal; lia.
Qed.

Lemma getUint_range n e offset view :
  (offset + n <= length view)%nat -> 0 <= getUint n e offset view < 2 ^ (8 * Z.of_nat n).
Proof.
  intros Hlen. unfold getUint.
  set (raw := if e then _ else _).
  assert (length raw = n) as Hraw.
  { subst raw. unfold subarray. destruct e; rewrite ?length_rev, length_take, length_drop; lia. }
  pose proof (LittleEndianList.le_combine_bound raw) as Hb. rewrite Hraw in Hb. lia.
Qed.

Lemma setUint_getUint n e offset view :
  (offset + n <= length view)%nat ->
  setUint n e (getUint n e offset view) = subarray offset (offset + n) view.
Proof.
  intros Hlen. unfold getUint, setUint. set (raw := subarray _ _ _).
  assert (length raw = n) as Hraw by (subst raw; unfold subarray; rewrite length_take, length_drop; lia).
  destruct e.
  - rewrite <- Hraw. apply LittleEndianList.split_le_combine.
  - rewrite <- (rev_involutive raw) at 2. f_equal.
    rewrite <- Hraw, <- length_rev. apply LittleEndianList.split_le_combine.
Qed.

(** ** One length-prefixed field *)

Definition field (n : nat) (e : bool) (raw : bytes) : bytes := setUint n e (size raw) ++ raw.

(** The field at the end of a header reads back. *)
Lemma field_read n e pre raw rest :
  size raw < 2 ^ (8 * Z.of_nat n) ->
  let view := pre ++ field n e raw ++ rest in
  let start := (length pre + n)%nat in
  Z.to_nat (getUint n e (length pre) view) = length raw ∧
  subarray start (start + length raw) view = raw ∧
  drop (start + length raw) view = rest ∧
  length view = (start + length raw + length rest)%nat.
Proof.
  intros Hsize. unfold field. rewrite <- app_assoc. split_and!.
  - rewrite getUint_mid, Z.mod_small by (unfold size in *; lia). unfold size. lia.
  - pose proof (subarray_mid (pre ++ setUint n e (size raw)) raw rest) as H.
    by rewrite length_app, length_setUint, <- app_assoc in H.
  - rewrite !app_assoc, drop_app_length'; [done|]. rewrite !length_app, length_setUint. lia.
  - rewrite !length_app, length_setUint. lia.
Qed.

(** And a field that fits was written by [field]. *)
Lemma field_parse n e pre view :
  (length pre + n <= length view)%nat -> take (length pre) view = pre ->
  let raw := subarray (length pre + n) (length pre + n + Z.to_nat (getUint n e (length pre) view)) view in
  let last := (length pre + n + Z.to_nat (getUint n e (length pre) view))%nat in
  (last <= length view)%nat ->
  view = pre ++ field n e raw ++ drop last view ∧ size raw = getUint n e (length pre) view.
Proof.
  intros Hlen Hpre raw last Hlast.
  assert (size raw = getUint n e (length pre) view) as Hsize.
  { pose proof (getUint_range n e _ _ Hlen). subst raw last. unfold size, subarray.
    rewrite length_take, length_drop. lia. }
  split; [|done]. unfold field. rewrite Hsize, setUint_getUint by lia.
  rewrite <- Hpre at 1. rewrite <- (take_drop (length pre) view) at 1. f_equal.
  unfold subarray in *. rewrite Nat.add_comm, Nat.add_sub.
  rewrite <- (take_drop n (drop (length pre) view)) at 1. rewrite <- app_assoc. f_equal.
  rewrite drop_drop. subst raw last.
  rewrite <- (take_drop (Z.to_nat (getUint n e (length pre) view)) (drop (length pre + n) view)) at 1.
  rewrite drop_drop. f_equal. f_equal. lia.
Qed.

(** ** The commit frame *)

Lemma take_1_head (view : bytes) b : head view = Some b -> take 1 view = [b].
Proof. destruct view; [done|]. by intros [= ->]. Qed.

Lemma decodeCommitFrame_inv frame f :
  decodeCommitFrame frame = Ok f ->
  encodeCommitFrame f = frame ∧ size (cf_commit f) < 2 ^ 32.
Proof.
  unfold decodeCommitFrame. destruct (Nat.ltb_spec (length frame) 5) as [|Hlen]; [done|].
  destruct (head frame) as [version|] eqn:Hhead; [|done].
  destruct (Z.eqb_spec (numberOf version) COMMIT_FRAME_VERSION) as [Hv|]; [|done]. cbn [negb].
  pose proof (getUint_range 4 true 1 frame Hlen).
  destruct (Nat.ltb_spec (length frame) (5 + Z.to_nat (getUint 4 true 1 frame))) as [|Hlast]; [done|].
  intros [= <-]. unfold encodeCommitFrame. cbn [cf_commit cf_sealedEntries].
  assert (take 1 frame = [byteOf COMMIT_FRAME_VERSION]) as Hpre
    by (rewrite (take_1_head _ _ Hhead), <- Hv, byteOf_numberOf; done).
  destruct (field_parse 4 true [byteOf COMMIT_FRAME_VERSION] frame Hlen Hpre) as [Hview Hsize]; [simpl; lia|].
  cbn [length Nat.add] in *. unfold field in Hview. rewrite <- app_assoc in Hview.
  split; [by symmetry|]. rewrite Hsize. lia.
Qed.

Lemma decode_encodeCommitFrame f :
  size (cf_commit f) < 2 ^ 32 -> decodeCommitFrame (encodeCommitFrame f) = Ok f.
Proof.
  intros Hsize. destruct f as [c s]. cbn [cf_commit] in Hsize.
  unfold encodeCommitFrame. cbn [cf_commit cf_sealedEntries].
  destruct (field_read 4 true [byteOf COMMIT_FRAME_VERSION] c s Hsize) as (Hn & Hraw & Hrest & Hlen).
  unfold field in *. rewrite <- app_assoc in *. unfold decodeCommitFrame.
  set (view := [byteOf COMMIT_FRAME_VERSION] ++ _) in *. cbn [length Nat.add] in *.
  rewrite (proj2 (Nat.ltb_ge _ _)) by lia.
  change (head view) with (Some (byteOf COMMIT_FRAME_VERSION)). cbn [negb].
  rewrite numberOf_byteOf by done. cbn [Z.eqb COMMIT_FRAME_VERSION Pos.eqb negb].
  rewrite Hn. rewrite (proj2 (Nat.ltb_ge _ _)) by lia. cbn [Nat.add]. by rewrite Hraw, Hrest.
Qed.

(** C40. The commit frame is canonical and never silently mis-read: what is encoded decodes to itself as
    long as the commit fits its length field, every frame that decodes is byte for byte the encoding of
    what it decodes to, cutting a frame inside its commit half is refused, and the version error is
    raised for an unknown version of a frame with a whole header and for nothing else. *)
Theorem commit_frame_codec f frame n :
  (size (cf_commit f) < 2 ^ 32 ->
   decodeCommitFrame (encodeCommitFrame f) = Ok f ∧
   ((n < 5 + length (cf_commit f))%nat ->
    ∃ m, decodeCommitFrame (take n (encodeCommitFrame f)) = Err (Malformed m))) ∧
  (∀ f', decodeCommitFrame frame = Ok f' -> encodeCommitFrame f' = frame) ∧
  ((∃ e, decodeCommitFrame frame = Err e ∧ isUnsupportedCommitFrameVersion e = true) <->
   (5 <= length frame)%nat ∧ head frame ≠ Some (byteOf COMMIT_FRAME_VERSION)).
Proof.
  split_and!.
  - intros Hsize. split; [by apply decode_encodeCommitFrame|]. intros Hn.
    set (view := take n (encodeCommitFrame f)).
    assert (length view <= n)%nat as Hlen by (unfold view; rewrite length_take; lia).
    destruct (decodeCommitFrame view) as [f'|e] eqn:Hdec.
    + exfalso. apply decodeCommitFrame_inv in Hdec as [Henc Hsize'].
      assert (encodeCommitFrame f = encodeCommitFrame (mkCommitFrame (cf_commit f')
        (cf_sealedEntries f' ++ drop n (encodeCommitFrame f)))) as Heq.
      { rewrite <- (take_drop n (encodeCommitFrame f)) at 1. fold view. rewrite <- Henc.
        unfold encodeCommitFrame. cbn [cf_commit cf_sealedEntries]. by rewrite <- !app_assoc. }
      apply (f_equal decodeCommitFrame) in Heq. rewrite !decode_encodeCommitFrame in Heq by done.
      injection Heq as Heq. rewrite <- Henc in Hlen. revert Hlen. unfold encodeCommitFrame.
      rewrite !length_app, length_setUint, Heq in *. cbn [cf_commit length] in *. lia.
    + exists (match e with Malformed m => m | _ => "" end). revert Hdec. unfold decodeCommitFrame.
      destruct (Nat.ltb_spec (length view) 5) as [|H5]; [by intros [= <-]|].
      assert (head view = Some (byteOf COMMIT_FRAME_VERSION)) as ->.
      { unfold view in *. rewrite length_take in H5. by destruct n; [lia|]. }
      rewrite numberOf_byteOf by done. cbn [Z.eqb COMMIT_FRAME_VERSION Pos.eqb negb].
      destruct (_ <? _)%nat; [by intros [= <-]|done].
  - intros f' Hdec. by apply decodeCommitFrame_inv in Hdec as [? _].
  - unfold decodeCommitFrame. destruct (Nat.ltb_spec (length frame) 5) as [|Hlen].
    { split; [by intros (e & [= <-] & ?)|lia]. }
    destruct (head frame) as [v|] eqn:Hh; [|by destruct frame; simpl in *; try lia].
    destruct (Z.eqb_spec (numberOf v) COMMIT_FRAME_VERSION) as [Hv|Hv]; cbn [negb].
    + apply numberOf_inj in Hv as ->. split; [|naive_solver].
      destruct (_ <? _)%nat; [by intros (e & [= <-] & ?)|naive_solver].
    + split; [|by intros; eexists]. intros _. split; [done|]. intros [= ->].
      by rewrite numberOf_byteOf in Hv.
Qed.

Lemma commit_frame_codec_witness :
  decodeCommitFrame (encodeCommitFrame (mkCommitFrame [byteOf 7; byteOf 8] [byteOf 9])) =
  Ok (mkCommitFrame [byteOf 7; byteOf 8] [byteOf 9]).
Proof.
  destruct (commit_frame_codec (mkCommitFrame [byteOf 7; byteOf 8] [byteOf 9]) [] 0) as [H _].
  destruct (H ltac:(done)) as [H' _]. exact H'.
Defined.

(** ** The handshake header *)

Lemma assertFrameFits_spec payload :
  assertFrameFits payload = if decide (size payload <= 786432) then Ok tt else Err (FrameTooLargeError (size payload)).
Proof.
  unfold assertFrameFits, ceilDiv. assert (0 <= size payload) by (unfold size; lia).
  destruct (Z.ltb_spec 1048576 (4 * ((size payload + 3 - 1) / 3))); destruct (decide _); try done;
    pose proof (Z.div_mod (size payload + 3 - 1) 3); pose proof (Z.mod_pos_bound (size payload + 3 - 1) 3); lia.
Qed.

Lemma isHandshakeKind_spec z : isHandshakeKind z = true <-> ∃ k, HANDSHAKE_KIND k = z.
Proof.
  unfold isHandshakeKind. rewrite existsb_exists. split.
  - intros (y & Hy%list_elem_of_In & <-%Z.eqb_eq). unfold KINDS in Hy. rewrite list_elem_of_fmap in Hy.
    destruct Hy as (k & -> & _). by exists k.
  - intros (k & <-). exists (HANDSHAKE_KIND k). split; [|apply Z.eqb_refl].
    by destruct k; vm_compute; tauto.
Qed.

(** The handshake header: a frame is built for every payload except an oversized confirmation or
    verdict (more than 786,432 bytes with the header), and decodes to its kind and payload; whatever
    decodes keeps every byte, under the current version with a kind this build knows, and a frame under
    any other version is handed back rather than refused, whatever its kind. *)
Theorem handshake_codec kind payload frame decoded :
  (encodeHandshakeFrame kind payload = Ok frame ->
   decodeHandshakeFrame frame = Ok (mkHandshakeFrame HANDSHAKE_VERSION (HANDSHAKE_KIND kind) payload)) ∧
  ((∃ e, encodeHandshakeFrame kind payload = Err e) <->
   kind ∈ [recoveryConfirmRequest; recoveryVerdict] ∧ 786432 < 4 + size payload) ∧
  (decodeHandshakeFrame frame = Ok decoded <->
   frame = HANDSHAKE_MAGIC ++ byteOf (hf_version decoded) :: byteOf (hf_kind decoded) :: hf_payload decoded ∧
   0 <= hf_version decoded < 256 ∧ 0 <= hf_kind decoded < 256 ∧
   (hf_version decoded = HANDSHAKE_VERSION -> ∃ k, HANDSHAKE_KIND k = hf_kind decoded)).
Proof.
  assert (∀ k, 0 <= HANDSHAKE_KIND k < 256) as Hrange by (intros []; simpl; lia).
  assert (decodeHandshakeFrame frame = Ok decoded <->
   frame = HANDSHAKE_MAGIC ++ byteOf (hf_version decoded) :: byteOf (hf_kind decoded) :: hf_payload decoded ∧
   0 <= hf_version decoded < 256 ∧ 0 <= hf_kind decoded < 256 ∧
   (hf_version decoded = HANDSHAKE_VERSION -> ∃ k, HANDSHAKE_KIND k = hf_kind decoded)) as Hdec.
  { split.
    - unfold decodeHandshakeFrame. destruct frame as [|m0 [|m1 [|v [|k p]]]]; try done.
      case_bool_decide as Hmagic; [|done]. cbn [negb].
      change (m0 :: m1 :: v :: k :: p) with ([m0; m1] ++ v :: k :: p). rewrite Hmagic.
      pose proof (numberOf_range v). pose proof (numberOf_range k).
      destruct (Z.eqb_spec (numberOf v) HANDSHAKE_VERSION) as [Hv|Hv]; cbn [negb].
      + destruct (isHandshakeKind (numberOf k)) eqn:Hk; [|done]. intros [= <-].
        cbn [hf_version hf_kind hf_payload]. rewrite !byteOf_numberOf. split_and!; try done; try lia.
        intros _. by apply isHandshakeKind_spec.
      + intros [= <-]. cbn [hf_version hf_kind hf_payload]. rewrite !byteOf_numberOf. split_and!; done || lia.
    - destruct decoded as [v k p]. cbn [hf_version hf_kind hf_payload]. intros (-> & Hv & Hk & Hkind).
      unfold decodeHandshakeFrame, HANDSHAKE_MAGIC. cbn [app]. rewrite bool_decide_eq_true_2 by done.
      cbn [negb]. rewrite !numberOf_byteOf by done.
      destruct (Z.eqb_spec v HANDSHAKE_VERSION) as [->|]; cbn [negb]; [|done].
      by rewrite (proj2 (isHandshakeKind_spec k) (Hkind eq_refl)). }
  split_and!; [| |done]; clear Hdec decoded.
  - intros Henc. assert (frame = HANDSHAKE_MAGIC ++ byteOf HANDSHAKE_VERSION :: byteOf (HANDSHAKE_KIND kind) :: payload)
      as ->.
    { unfold encodeHandshakeFrame in Henc. destruct (decide _); [|by injection Henc as <-].
      rewrite assertFrameFits_spec in Henc. destruct (decide _); [by injection Henc as <-|done]. }
    unfold decodeHandshakeFrame, HANDSHAKE_MAGIC. cbn [app]. rewrite bool_decide_eq_true_2 by done.
    cbn [negb]. rewrite !numberOf_byteOf by (done || apply Hrange). cbn [Z.eqb HANDSHAKE_VERSION Pos.eqb negb].
    by rewrite (proj2 (isHandshakeKind_spec _) (ex_intro _ kind eq_refl)).
  - unfold encodeHandshakeFrame. set (view := _ ++ _).
    assert (size view = 4 + size payload) as Hsize.
    { unfold view, size, HANDSHAKE_MAGIC. rewrite !length_app. cbn [length]. lia. }
    rewrite assertFrameFits_spec, Hsize. rewrite !elem_of_cons, elem_of_nil.
    destruct (decide (kind = _ ∨ kind = _)).
    + destruct (decide (4 + size payload <= 786432)); cbn.
      * split; [by intros [? ?]|intros [? ?]; lia].
      * split; [intros _; split; [tauto|lia]|intros _; by eexists].
    + split; [by intros [? ?]|tauto].
Qed.

Lemma handshake_codec_witness :
  decodeHandshakeFrame [byteOf 69; byteOf 75; byteOf 1; byteOf 4; byteOf 9] =
  Ok (mkHandshakeFrame 1 4 [byteOf 9]).
Proof.
  destruct (handshake_codec ledgerReply [byteOf 9] [byteOf 69; byteOf 75; byteOf 1; byteOf 4; byteOf 9]
              (mkHandshakeFrame 1 4 [])) as [H _].
  exact (H ltac:(vm_compute; reflexivity)).
Defined.

(** ** The rendezvous payloads *)

Section utf_facts.
Context (fromUTF : string -> bytes) (toUTF : bytes -> option string).

Lemma encodeWithRequestID_Ok maxBytes label s payload p :
  encodeWithRequestID fromUTF maxBytes label s payload = Ok p <->
  (length (fromUTF s) <= maxBytes)%nat ∧ p = field 2 true (fromUTF s) ++ payload.
Proof.
  unfold encodeWithRequestID, field. destruct (Nat.ltb_spec maxBytes (length (fromUTF s))).
  - split; [done|lia].
  - rewrite <- app_assoc. split; [by intros [= <-]|by intros [_ ->]].
Qed.

Lemma decodeWithRequestID_field maxBytes label raw s rest :
  (length raw <= maxBytes)%nat -> size raw < 2 ^ 16 -> toUTF raw = Some s ->
  decodeWithRequestID toUTF maxBytes label (field 2 true raw ++ rest) = Ok (s, rest).
Proof.
  intros Hmax Hsize Hs. unfold decodeWithRequestID.
  destruct (field_read 2 true [] raw rest Hsize) as (Hn & Hraw & Hrest & Hlen). cbn [app length Nat.add] in *.
  rewrite (proj2 (Nat.ltb_ge _ _)) by lia. rewrite Hn, (proj2 (Nat.ltb_ge _ _)) by lia.
  rewrite (proj2 (Nat.ltb_ge _ _)) by lia. cbn [Nat.add]. rewrite Hraw, Hrest.
  unfold decodeText. by rewrite Hs.
Qed.

Lemma decodeWithRequestID_inv maxBytes label p s rest :
  decodeWithRequestID toUTF maxBytes label p = Ok (s, rest) ->
  ∃ raw, (length raw <= maxBytes)%nat ∧ size raw < 2 ^ 16 ∧ toUTF raw = Some s ∧ p = field 2 true raw ++ rest.
Proof.
  unfold decodeWithRequestID. destruct (Nat.ltb_spec (length p) 2) as [|Hlen]; [done|].
  pose proof (getUint_range 2 true 0 p Hlen) as Hrange.
  destruct (Nat.ltb_spec maxBytes (Z.to_nat (getUint 2 true 0 p))); [done|].
  destruct (Nat.ltb_spec (length p) (2 + Z.to_nat (getUint 2 true 0 p))) as [|Hlast]; [done|].
  destruct (field_parse 2 true [] p Hlen eq_refl Hlast) as [Hview Hsize]. cbn [length Nat.add app] in *.
  unfold decodeText. destruct (toUTF _) as [s'|] eqn:Hs; [|done]. intros [= <- <-].
  eexists. split_and!; [| |exact Hs|exact Hview]; unfold size in *; lia.
Qed.

Definition textual (s : string) : Prop := toUTF (fromUTF s) = Some s.

Lemma decode_encodeWithRequestID maxBytes label s payload p :
  (maxBytes <= MAX_CONFIRMATION_FIELD_BYTES)%nat -> textual s ->
  encodeWithRequestID fromUTF maxBytes label s payload = Ok p ->
  decodeWithRequestID toUTF maxBytes label p = Ok (s, payload).
Proof.
  intros Hmax Hs [Hlen ->]%encodeWithRequestID_Ok. apply decodeWithRequestID_field; [done| |done].
  unfold size, MAX_CONFIRMATION_FIELD_BYTES in *. lia.
Qed.

(** The rendezvous payloads: with identifiers the text codec round-trips, every request and reply
    decodes to the identifier and payload it was built from, a confirmation request to its three
    identifiers and its signed request, the only refusals at encoding being of over-long fields; and
    whatever bytes arrive, an identifier that decodes came from at most 128 bytes, and a confirmation
    that decodes carries a non-empty signed request. *)
Lemma rendezvous_codec label s payload p v :
  textual s -> textual (rcr_requestID v) -> textual (rcr_position v) -> textual (rcr_commitDigest v) ->
  (encodeWithRequestID fromUTF MAX_REQUEST_ID_BYTES label s payload = Ok p ->
   decodeWithRequestID toUTF MAX_REQUEST_ID_BYTES label p = Ok (s, payload)) ∧
  (encodeRecoveryConfirmRequest fromUTF v = Ok p -> rcr_request v ≠ [] ->
   decodeRecoveryConfirmRequest toUTF p = Ok v) ∧
  (is_ok (encodeRecoveryConfirmRequest fromUTF v) = true <->
   (length (fromUTF (rcr_requestID v)) <= 128)%nat ∧
   size (fromUTF (rcr_position v)) <= 65535 ∧ size (fromUTF (rcr_commitDigest v)) <= 65535) ∧
  (∀ requestID rest, decodeWithRequestID toUTF MAX_REQUEST_ID_BYTES label p = Ok (requestID, rest) ->
   ∃ raw, (length raw <= 128)%nat ∧ toUTF raw = Some requestID ∧ p = field 2 true raw ++ rest) ∧
  (∀ w, decodeRecoveryConfirmRequest toUTF p = Ok w ->
   rcr_request w ≠ [] ∧
   ∃ raw, (length raw <= 128)%nat ∧ toUTF raw = Some (rcr_requestID w)).
Proof.
  intros Hs Hrid Hpos Hdig. assert (MAX_REQUEST_ID_BYTES <= MAX_CONFIRMATION_FIELD_BYTES)%nat as Hmax
    by (unfold MAX_REQUEST_ID_BYTES, MAX_CONFIRMATION_FIELD_BYTES; lia).
  split_and!.
  - by apply decode_encodeWithRequestID.
  - unfold encodeRecoveryConfirmRequest, decodeRecoveryConfirmRequest.
    destruct (encodeWithRequestID _ _ _ (rcr_commitDigest v) _) as [d|] eqn:Hd; [|done]. cbn.
    destruct (encodeWithRequestID _ _ _ (rcr_position v) d) as [q|] eqn:Hq; [|done]. cbn. intros Hp Hreq.
    apply decode_encodeWithRequestID in Hp, Hq, Hd; try done.
    rewrite Hp. cbn. rewrite Hq. cbn. rewrite Hd. cbn.
    destruct v as [? req ? ?]. cbn in *. by destruct req.
  - unfold encodeRecoveryConfirmRequest. unfold encodeWithRequestID.
    unfold size, MAX_CONFIRMATION_FIELD_BYTES, MAX_REQUEST_ID_BYTES.
    destruct (Nat.ltb_spec (Z.to_nat 65535) (length (fromUTF (rcr_commitDigest v)))); cbn [mbind result_bind is_ok];
      [split; [done|lia]|].
    destruct (Nat.ltb_spec (Z.to_nat 65535) (length (fromUTF (rcr_position v)))); cbn [mbind result_bind is_ok];
      [split; [done|lia]|].
    destruct (Nat.ltb_spec 128 (length (fromUTF (rcr_requestID v)))); cbn [is_ok]; (split; [done || lia|done || lia]).
  - intros requestID rest (raw & ? & _ & ? & ->)%decodeWithRequestID_inv. by exists raw.
  - intros w. unfold decodeRecoveryConfirmRequest.
    destruct (decodeWithRequestID _ _ _ p) as [[rid r1]|] eqn:H1; [|done]. cbn.
    destruct (decodeWithRequestID _ _ _ r1) as [[pos r2]|] eqn:H2; [|done]. cbn.
    destruct (decodeWithRequestID _ _ _ r2) as [[dig r3]|] eqn:H3; [|done]. cbn.
    destruct r3; [done|]. cbn. intros [= <-]. cbn. split; [done|].
    apply decodeWithRequestID_inv in H1 as (raw & ? & _ & ? & _). by exists raw.
Qed.

(** ** The ledger-entry blob *)

Lemma decodeTokens_encoded pre tokens rest :
  Forall (λ t, textual t ∧ size (fromUTF t) < 2 ^ 32) tokens ->
  decodeTokens toUTF (length tokens) (length pre)
    (pre ++ concat (map encodeToken (map fromUTF tokens)) ++ rest) = Ok tokens.
Proof.
  intros Hall. revert pre. induction Hall as [|t tokens [Ht Hsize] _ IH]; intros pre; [done|].
  cbn [length decodeTokens map concat].
  destruct (field_read 4 true pre (fromUTF t) (concat (map encodeToken (map fromUTF tokens)) ++ rest) Hsize)
    as (Hn & Hraw & _ & Hlen).
  unfold field in *. change (setUint 4 true (size (fromUTF t)) ++ fromUTF t) with (encodeToken (fromUTF t)) in *.
  rewrite <- app_assoc. set (view := pre ++ _) in *.
  rewrite (proj2 (Nat.ltb_ge _ _)) by lia. rewrite Hn. rewrite (proj2 (Nat.ltb_ge _ _)) by lia.
  rewrite Hraw. unfold decodeText. rewrite Ht. cbn.
  assert (view = (pre ++ encodeToken (fromUTF t)) ++ concat (map encodeToken (map fromUTF tokens)) ++ rest) as ->
    by by unfold view; rewrite <- app_assoc.
  replace (length pre + 4 + length (fromUTF t))%nat with (length (pre ++ encodeToken (fromUTF t)))
    by (unfold encodeToken; rewrite !length_app, length_setUint; lia).
  by rewrite IH.
Qed.

(** The ledger-entry blob: what a commit's blob decodes to is the list it was built from when there
    are fewer than 65,536 entries, and in general the first [count mod 65536] of them, the count field
    being written unchecked; the resolver answers exactly the blob's tokens when the port opens it, and
    nothing at all when it cannot be opened or read. *)
Theorem ledger_entries_codec tokens openEntries sealedEntries :
  Forall (λ t, textual t ∧ size (fromUTF t) < 2 ^ 32) tokens ->
  let blob := encodeLedgerEntries fromUTF tokens in
  let kept := take (Z.to_nat (Z.of_nat (length tokens) mod 65536)) tokens in
  decodeLedgerEntries toUTF blob = Ok kept ∧
  (Z.of_nat (length tokens) < 65536 -> kept = tokens) ∧
  resolveLedgerEntries toUTF openEntries sealedEntries =
    match openEntries sealedEntries with
    | Some view => match decodeLedgerEntries toUTF view with Ok ts => ts | Err _ => [] end
    | None => []
    end ∧
  (openEntries sealedEntries = Some blob ->
   resolveLedgerEntries toUTF openEntries sealedEntries = kept).
Proof.
  intros Hall blob kept.
  assert (decodeLedgerEntries toUTF blob = Ok kept) as Hdec.
  { unfold decodeLedgerEntries, blob, encodeLedgerEntries.
    set (n := Z.of_nat _). set (pre := [byteOf LEDGER_ENTRIES_VERSION] ++ setUint 2 true n).
    rewrite app_assoc. fold pre.
    assert (length pre = 3%nat) as Hpre by (unfold pre; rewrite length_app, length_setUint; done).
    rewrite (proj2 (Nat.ltb_ge _ _)) by (rewrite length_app; lia).
    rewrite bool_decide_eq_true_2 by done. cbn [negb].
    assert (getUint 2 true 1 (pre ++ concat (map encodeToken (map fromUTF tokens))) = n mod 65536) as ->.
    { unfold pre. rewrite <- app_assoc. by rewrite (getUint_mid 2 true [byteOf LEDGER_ENTRIES_VERSION]). }
    assert (n = Z.of_nat (length tokens)) as -> by (unfold n; by rewrite length_map).
    set (k := Z.to_nat _) in *. assert (k <= length tokens)%nat as Hk.
    { unfold k. pose proof (Z.mod_le (Z.of_nat (length tokens)) 65536). lia. }
    unfold kept. rewrite <- (take_drop k tokens) at 1. rewrite map_app, map_app, concat_app.
    rewrite <- (length_take_le tokens k) at 1 by done. rewrite <- Hpre.
    apply decodeTokens_encoded. by apply Forall_take. }
  split_and!; [done| |done|].
  - intros Hn. unfold kept. rewrite Z.mod_small by lia. apply take_ge. lia.
  - unfold resolveLedgerEntries. intros ->. by rewrite Hdec.
Qed.

(** ** The directed-payload tag *)

Lemma decode_encodeDirectedPayload protocol frame p :
  textual protocol -> encodeDirectedPayload fromUTF protocol frame = Ok p ->
  isLegacyDirectedPayload p = false ∧ decodeDirectedPayload toUTF p = Ok (protocol, frame).
Proof.
  intros Hs. unfold encodeDirectedPayload.
  destruct (Nat.ltb_spec MAX_PROTOCOL_BYTES (length (fromUTF protocol))) as [|Hmax]; [done|].
  intros Henc. assert (p = [byteOf DIRECTED_TAG_VERSION] ++ setUint 2 false (size (fromUTF protocol)) ++
    fromUTF protocol ++ frame) as -> by congruence.
  split; [done|].
  assert (size (fromUTF protocol) < 2 ^ (8 * Z.of_nat 2)) as Hsize
    by (unfold size, MAX_PROTOCOL_BYTES in *; lia).
  destruct (field_read 2 false [byteOf DIRECTED_TAG_VERSION] (fromUTF protocol) frame Hsize)
    as (Hn & Hraw & Hrest & Hlen).
  unfold field in *. rewrite <- app_assoc in *. unfold decodeDirectedPayload. set (view := _ ++ _) in *.
  cbn [length Nat.add] in *. rewrite (proj2 (Nat.ltb_ge _ _)) by lia.
  assert (isLegacyDirectedPayload view = false) as -> by done.
  rewrite Hn, (proj2 (Nat.ltb_ge _ _)) by lia. cbn [Nat.add]. rewrite Hraw, Hrest.
  unfold decodeText. by rewrite Hs.
Qed.

(** A JSON frame of an older peer never reads as a tagged one. *)
Lemma legacy_frame_refused p :
  isLegacyDirectedPayload p = true -> ∃ e, decodeDirectedPayload toUTF p = Err e.
Proof.
  unfold decodeDirectedPayload. intros ->. destruct (_ <? _)%nat; by eexists.
Qed.

(** ** The app AAD *)

Lemma app_aad_roundtrip a p : encodeAppAAD fromUTF toUTF a = Ok p -> decodeAppAAD toUTF p = Some a.
Proof.
  unfold encodeAppAAD. case_bool_decide as Hs; [|done]. intros [= <-]. cbn [app decodeAppAAD].
  destruct a as [topic []]; cbn in *; rewrite !numberOf_byteOf by done; cbn; by rewrite Hs.
Qed.
End utf_facts.

Lemma rendezvous_codec_witness :
  let v := mkRecoveryConfirmRequest "r" [byteOf 7] "000000000001" "digest" in
  ∃ p, encodeRecoveryConfirmRequest String.list_byte_of_string v = Ok p ∧
       decodeRecoveryConfirmRequest (λ b, Some (String.string_of_list_byte b)) p = Ok v.
Proof.
  intros v. destruct (encodeRecoveryConfirmRequest String.list_byte_of_string v) as [p|] eqn:Hp; [|by vm_compute in Hp].
  exists p. split; [done|].
  destruct (rendezvous_codec String.list_byte_of_string (λ b, Some (String.string_of_list_byte b)) "" "" [] p v
              eq_refl eq_refl eq_refl eq_refl) as (_ & H & _).
  exact (H Hp ltac:(done)).
Defined.

Lemma ledger_entries_codec_witness :
  decodeLedgerEntries (λ b, Some (String.string_of_list_byte b))
    (encodeLedgerEntries String.list_byte_of_string ["eyJ"; ""]%string) = Ok ["eyJ"; ""]%string.
Proof.
  destruct (ledger_entries_codec String.list_byte_of_string (λ b, Some (String.string_of_list_byte b))
              ["eyJ"; ""]%string (λ b, Some b) [] ltac:(repeat constructor)) as (H & _).
  exact H.
Defined.
