(* ===== verification/Classify.v ===== *)
(** * Classifying the frames of the commit log

    packages/rpc/src/classify.ts, roster.ts and the page check of cursor.ts: what a peer does with one
    frame of the commit log, decided from the frame's evidence and the peer's own state. The records
    the peer keeps (the applied commits, its floor and its durable cursor) are here too. *)

From S2P Require Import Prelude HubProtocol.

#[local] Open Scope Z_scope.

(** ** Data *)

(** crypto.ts [CommitHeader]: the epoch is cleartext; the committer is there only when the port could
    authenticate it. *)
Record CommitHeader := mkCommitHeader {
  ch_epoch : Z;
  ch_committerDID : option string;
  ch_external : bool;
}.

(** [CommitFrameEvidence]: the header, [null], or [UNKNOWN_FRAME_VERSION]. *)
Inductive CommitFrameEvidence :=
  | UNKNOWN_FRAME_VERSION
  | NoHeader
  | Header (header : CommitHeader).

Record AppliedCommit := mkAppliedCommit { ac_sequenceID : string; ac_digest : string }.

Record CommitClassifierState := mkClassifierState {
  cs_localDID : string;
  cs_epoch : Z;
  cs_appliedByEpoch : gmap Z AppliedCommit;
}.

Inductive Branch := Winning | Losing.

Inductive CommitDisposition :=
  | Apply
  | Ahead
  | History
  | Fork (appliedSequenceID : string) (branch : Branch)
  | OwnUnmerged
  | Poison.

#[export] Instance Branch_eq_dec : EqDecision Branch.
Proof. solve_decision. Defined.
#[export] Instance CommitDisposition_eq_dec : EqDecision CommitDisposition.
Proof. solve_decision. Defined.

(** ** [classifyCommit], in its order *)

Definition classifyCommit (evidence : CommitFrameEvidence) (sequenceID : string)
    (commitDigest : option string) (state : CommitClassifierState) : CommitDisposition :=
  match evidence with
  | UNKNOWN_FRAME_VERSION => Ahead
  | NoHeader => Poison
  | Header header =>
    if cs_epoch state <? ch_epoch header then Ahead
    else if ch_epoch header <? cs_epoch state then
      match cs_appliedByEpoch state !! ch_epoch header with
      | None => History
      | Some applied =>
        match commitDigest with
        | None => History
        | Some digest =>
          if decide (digest = ac_digest applied) then History
          else Fork (ac_sequenceID applied)
                    (if decide (sequenceID <ₛ ac_sequenceID applied) then Losing else Winning)
        end
      end
    else
      match ch_committerDID header with
      | None => Poison
      | Some committer => if decide (committer = cs_localDID state) then OwnUnmerged else Apply
      end
  end.

(** The rows on which the walk asks for a heal. *)
Definition heals (d : CommitDisposition) : bool :=
  match d with Ahead | OwnUnmerged | Fork _ Losing => true | _ => false end.

(** ** cursor.ts *)

Fixpoint assertForwardPage (previous : option string) (ids : list string) : bool :=
  match ids with
  | [] => true
  | id :: rest =>
    match previous with
    | Some p => if decide (id ≤ₛ p) then false else assertForwardPage (Some id) rest
    | None => assertForwardPage (Some id) rest
    end
  end.

(** ** roster.ts *)

Definition detectRosterChange (before after : list string) : bool :=
  let held : gset string := list_to_set before in
  let present : gset string := list_to_set after in
  if negb (size held =? size present)%nat then true
  else negb (forallb (fun did => bool_decide (did ∈ present)) (elements held)).

Definition detectLeafAdmission (before after : list string) : bool :=
  let held : gset string := list_to_set before in
  existsb (fun admission => negb (bool_decide (admission ∈ held))) after.

(** ** Helper lemmas *)

Lemma ascending_cons x l : ascending l -> (∀ y, y ∈ l -> x <ₛ y) -> ascending (x :: l).
Proof. intros Hl Hx. constructor; [done|]. apply Forall_forall. exact Hx. Qed.

(** A page passes exactly when it climbs from the cursor. *)
Lemma assertForwardPage_spec previous ids :
  assertForwardPage previous ids = true <-> ascending (option_list previous ++ ids).
Proof.
  revert previous. induction ids as [|id rest IH]; intros previous.
  { rewrite app_nil_r. split; [intros _|done]. destruct previous; repeat constructor. }
  cbn [assertForwardPage]. destruct previous as [p|]; cbn [option_list app]; [|by rewrite IH].
  destruct (decide (id ≤ₛ p)) as [Hle|Hlt].
  - split; [done|]. intros [_ Ha]%ascending_cons_inv.
    exfalso. apply (slt_irrefl p). eapply slt_sle_trans; [apply (Ha id); set_solver|done].
  - rewrite IH. cbn [option_list app]. apply not_slt in Hlt || (rewrite <- not_slt in Hlt).
    split; [|by intros [? _]%ascending_cons_inv].
    intros H. apply ascending_cons; [done|]. intros y Hy.
    assert (p <ₛ id) as Hp by (by destruct (decide (p <ₛ id)); [|tauto]).
    apply elem_of_cons in Hy as [->|Hy]; [done|].
    apply ascending_cons_inv in H as [_ H]. by etrans; [exact Hp|apply H].
Qed.

Lemma detectRosterChange_spec before after :
  detectRosterChange before after = true <-> ¬ (∀ did, did ∈ before <-> did ∈ after).
Proof.
  unfold detectRosterChange. set (held := list_to_set before : gset string).
  set (present := list_to_set after : gset string).
  assert ((∀ did, did ∈ before <-> did ∈ after) <-> held = present) as ->.
  { unfold held, present. rewrite set_eq. setoid_rewrite elem_of_list_to_set. done. }
  destruct (Nat.eqb_spec (size held) (size present)) as [Hs|Hs]; cbn [negb].
  - rewrite negb_true_iff, <- not_true_iff_false, forallb_forall.
    apply not_iff_compat. split.
    + intros Hsub. apply leibniz_equiv, set_subseteq_size_equiv; [|lia].
      intros x Hx. specialize (Hsub x). rewrite bool_decide_eq_true in Hsub. apply Hsub.
      by apply list_elem_of_In, elem_of_elements.
    + intros -> x Hx%list_elem_of_In%elem_of_elements. by apply bool_decide_eq_true.
  - split; [intros _ Heq|done]. by rewrite Heq in Hs.
Qed.

Lemma detectLeafAdmission_spec before after :
  detectLeafAdmission before after = true <-> ∃ a, a ∈ after ∧ a ∉ before.
Proof.
  unfold detectLeafAdmission. rewrite existsb_exists.
  setoid_rewrite negb_true_iff. setoid_rewrite bool_decide_eq_false.
  setoid_rewrite <- list_elem_of_In. by setoid_rewrite elem_of_list_to_set.
Qed.

Lemma classify_fork h sequenceID digest state applied :
  ch_epoch h < cs_epoch state -> cs_appliedByEpoch state !! ch_epoch h = Some applied ->
  digest ≠ ac_digest applied ->
  classifyCommit (Header h) sequenceID (Some digest) state =
  Fork (ac_sequenceID applied) (if decide (sequenceID <ₛ ac_sequenceID applied) then Losing else Winning).
Proof.
  intros Hlt Ha Hd. unfold classifyCommit.
  rewrite (proj2 (Z.ltb_ge _ _)), (proj2 (Z.ltb_lt _ _)), Ha by lia. by rewrite decide_False.
Qed.

(** ** What the classification guarantees *)

(** The evidence that heals a peer: a format it cannot read, a claimed later epoch, its own commit at
    its own epoch under an authenticated name, or a different commit at an epoch it passed whose
    position is below the one it applied. *)
Definition heal_evidence (evidence : CommitFrameEvidence) (sequenceID : string)
    (commitDigest : option string) (state : CommitClassifierState) : Prop :=
  evidence = UNKNOWN_FRAME_VERSION ∨
  ∃ h, evidence = Header h ∧
    (cs_epoch state < ch_epoch h ∨
     (ch_epoch h = cs_epoch state ∧ ch_committerDID h = Some (cs_localDID state)) ∨
     (ch_epoch h < cs_epoch state ∧ ∃ applied digest,
        cs_appliedByEpoch state !! ch_epoch h = Some applied ∧ commitDigest = Some digest ∧
        digest ≠ ac_digest applied ∧ sequenceID <ₛ ac_sequenceID applied)).

(** What a frame can do to a peer: it asks for a heal exactly on the evidence above, so no frame
    without an authenticated committer at the peer's own epoch and no re-served copy of an applied
    commit does; only a frame of another member at this epoch is handed to the port; forgetting the
    applied commits (a restart) turns forks into history and changes nothing else; and of two peers
    that applied different commits at one epoch, shown each other's, exactly one is on the losing
    branch. *)
Theorem classification_sound evidence sequenceID commitDigest state :
  let d := classifyCommit evidence sequenceID commitDigest in
  (heals (d state) = true <-> heal_evidence evidence sequenceID commitDigest state) ∧
  (d state = Apply <-> ∃ h committer, evidence = Header h ∧ ch_epoch h = cs_epoch state ∧
                         ch_committerDID h = Some committer ∧ committer ≠ cs_localDID state) ∧
  d (mkClassifierState (cs_localDID state) (cs_epoch state) ∅) =
    match d state with Fork _ _ => History | other => other end ∧
  (∀ h other e epoch1 epoch2 local1 local2 applied1 applied2,
     ch_epoch h = e -> ch_epoch other = e -> e < epoch1 -> e < epoch2 ->
     ac_digest applied1 ≠ ac_digest applied2 -> ac_sequenceID applied1 ≠ ac_sequenceID applied2 ->
     let peer1 := mkClassifierState local1 epoch1 {[e := applied1]} in
     let peer2 := mkClassifierState local2 epoch2 {[e := applied2]} in
     heals (classifyCommit (Header other) (ac_sequenceID applied2) (Some (ac_digest applied2)) peer1) =
     negb (heals (classifyCommit (Header h) (ac_sequenceID applied1) (Some (ac_digest applied1)) peer2))).
Proof.
  split_and!.
  - unfold heal_evidence, classifyCommit. destruct evidence as [| |h]; [naive_solver..|].
    destruct (Z.ltb_spec (cs_epoch state) (ch_epoch h)) as [|Hge]; [split; [right; eauto|done]|].
    destruct (Z.ltb_spec (ch_epoch h) (cs_epoch state)) as [Hlt|Heq].
    + split.
      * destruct (_ !! _) as [applied|] eqn:Ha; [|done]. destruct commitDigest as [digest|]; [|done].
        destruct (decide (digest = _)); [done|]. destruct (decide (_ <ₛ _)); [|done].
        intros _. right. exists h. split; [done|]. right. right. split; [done|]. by exists applied, digest.
      * intros [|(h' & [= <-] & [?|[[? ?]|(_ & applied & digest & -> & -> & Hd & Hs)]])]; [done|lia|lia|].
        by rewrite decide_False, decide_True by done.
    + split.
      * destruct (ch_committerDID h) as [c|] eqn:Hc; [|done]. destruct (decide (c = _)) as [->|]; [|done].
        intros _. right. exists h. split; [done|]. right. left. split; [lia|done].
      * intros [|(h' & [= <-] & [?|[[? ->]|[? _]]])]; [done|lia| |lia]. by rewrite decide_True by done.
  - unfold classifyCommit. destruct evidence as [| |h]; [naive_solver..|].
    destruct (Z.ltb_spec (cs_epoch state) (ch_epoch h)) as [|Hge].
    { split; [done|]. intros (h' & c & [= <-] & ? & _). lia. }
    destruct (Z.ltb_spec (ch_epoch h) (cs_epoch state)) as [Hlt|Heq].
    { split; [|intros (h' & c & [= <-] & ? & _); lia].
      repeat (case_match; try done). }
    split.
    + destruct (ch_committerDID h) as [c|] eqn:Hc; [|done]. destruct (decide (c = _)); [done|].
      intros _. exists h, c. split_and!; [done|lia|done|done].
    + intros (h' & c & [= <-] & _ & -> & Hc). by rewrite decide_False by done.
  - unfold classifyCommit. destruct evidence as [| |h]; [done..|]. cbn [cs_epoch cs_localDID cs_appliedByEpoch].
    destruct (_ <? _); [done|]. destruct (_ <? _).
    + rewrite lookup_empty. repeat (case_match; try done).
    + repeat (case_match; try done).
  - intros h other e epoch1 epoch2 l1 l2 a1 a2 Hh Ho H1 H2 Hd Hs peer1 peer2.
    rewrite (classify_fork other _ _ peer1 a1), (classify_fork h _ _ peer2 a2);
      unfold peer1, peer2; cbn [cs_epoch cs_appliedByEpoch]; try lia; try congruence;
      try (rewrite Ho || rewrite Hh; apply lookup_singleton_eq).
    destruct (decide (ac_sequenceID a2 <ₛ ac_sequenceID a1)) as [Hlt|Hge].
    + rewrite decide_False; [done|]. intros Hlt'. apply (slt_irrefl (ac_sequenceID a1)). by etrans.
    + rewrite decide_True; [done|]. apply not_slt in Hge. by destruct (sle_lt_or_eq _ _ Hge) as [|].
Qed.

Lemma classification_sound_witness :
  heals (classifyCommit (Header (mkCommitHeader 3 None false)) "000000000004" (Some "x")
    (mkClassifierState "did:a" 5 {[3%Z := mkAppliedCommit "000000000007" "y"]})) = true.
Proof.
  destruct (classification_sound (Header (mkCommitHeader 3 None false)) "000000000004" (Some "x")
    (mkClassifierState "did:a" 5 {[3%Z := mkAppliedCommit "000000000007" "y"]})) as (_ & _ & _ & H).
  refine (eq_trans (H (mkCommitHeader 3 None false) (mkCommitHeader 3 None false) 3 5 4 "did:a" "did:b"
    (mkAppliedCommit "000000000007" "y") (mkAppliedCommit "000000000004" "x")
    eq_refl eq_refl ltac:(lia) ltac:(lia) ltac:(done) ltac:(done)) _).
  vm_compute. reflexivity.
Defined.
