(* ===== verification/CommitWalk.v ===== *)
(** * Walking the commit log

    [walkCommits] of packages/rpc/src/peer.ts with the parts of the peer it moves: the cursor and its
    durable copy, the strand and heal flags, the applied-commit records, the floor and the log's tip.
    The MLS port and the hub are parameters. A walk holds the peer's commit mutex, so nothing else
    moves this state between two of its steps; [disposed] is false throughout. The anchor rotation that
    [advanceHandle] records around an apply is not part of the state, and no earlier one is pending. *)

From S2P Require Import Prelude HubProtocol Codecs Classify.

#[local] Open Scope Z_scope.

(** ** Data *)

(** log-delivery.ts [EpochFloor] and app-outbox.ts [CommitCursor]. *)
Record EpochFloor := mkEpochFloor { ef_epoch : Z; ef_position : option string; ef_covered : bool }.

Record CommitCursor := mkCommitCursor { cc_position : option string; cc_epoch : Z; cc_stranded : bool }.

(** What [processCommit] settles as: a result, the missing-entries error, or a broken contract. *)
Inductive ProcessOutcome :=
  | Processed (advanced : bool) (epochBefore epochAfter : Z) (refusal : option string)
  | MissingLedgerEntries
  | PortFailure (error : string).

Inductive StrandKind := KindOwnUnmerged | KindForkLosing | KindAhead | KindUnknownVersion | KindRetentionGap.
Inductive StrandConfidence := Authenticated | Observed | Claimed.

Record StrandObservation := mkStrandObservation {
  so_position : string;
  so_commitDigest : option string;
  so_localEpoch : Z;
  so_claimedEpoch : option Z;
  so_kind : StrandKind;
  so_confidence : StrandConfidence;
}.

Inductive RecoveryCommitOutcome :=
  | OutcomeApplied
  | OutcomeSuperseded
  | OutcomeRefused (reason : string).

(** The calls a walk makes to the rest of the peer. *)
Inductive WalkCall :=
  | Certify (epoch : Z) (started : nat)
  | Rejoined
  | LocallyRemoved
  | ObserveStrand (observation : StrandObservation)
  | RecordOutcome (position commitDigest : string) (outcome : RecoveryCommitOutcome).

(** How a frame leaves the walk: on to the next one, out of the drain, or with a thrown error. *)
Inductive Flow := Next | Stop | Raise (error : string).

Inductive WalkResult := Returned (advancedEpoch : bool) | Raised (error : string) | Exhausted.

Definition COMMIT_FETCH_LIMIT : nat := 100.

Section walk.
(** The MLS port over its group state [P], the text codec, the commit digest, the DID normalisation,
    the peer's own DID and the recovery whose confirmation it is waiting for. *)
Context {P : Type} (readEpoch : P -> Z) (rosterEntries : P -> list string)
        (readCommitHeader : P -> bytes -> option CommitHeader)
        (processCommit : P -> bytes -> list string -> P * ProcessOutcome)
        (openEntries : P -> bytes -> option bytes)
        (toUTF : bytes -> option string) (digestAppliedCommit : bytes -> string)
        (normalizeDID : string -> string) (localDID : string)
        (pendingRecovery : option (string * string)).

Record Walk := mkWalk {
  w_port : P;
  w_reconciledHead : option string;
  w_durableCursor : option CommitCursor;
  w_commitLogHead : option string;
  w_appliedByEpoch : gmap Z AppliedCommit;
  w_healRequested : bool;
  w_stranded : bool;
  w_floor : EpochFloor;
  w_locallyRemoved : bool;
  w_advancedEpoch : bool;
  w_covered : bool;
  w_calls : list WalkCall;
}.

(** ** Assignments *)

Definition set_port (p : P) (w : Walk) : Walk :=
  mkWalk p (w_reconciledHead w) (w_durableCursor w) (w_commitLogHead w) (w_appliedByEpoch w)
    (w_healRequested w) (w_stranded w) (w_floor w) (w_locallyRemoved w) (w_advancedEpoch w)
    (w_covered w) (w_calls w).
Definition set_reconciledHead (position : option string) (w : Walk) : Walk :=
  mkWalk (w_port w) position (w_durableCursor w) (w_commitLogHead w) (w_appliedByEpoch w)
    (w_healRequested w) (w_stranded w) (w_floor w) (w_locallyRemoved w) (w_advancedEpoch w)
    (w_covered w) (w_calls w).
Definition set_durableCursor (cursor : CommitCursor) (w : Walk) : Walk :=
  mkWalk (w_port w) (w_reconciledHead w) (Some cursor) (w_commitLogHead w) (w_appliedByEpoch w)
    (w_healRequested w) (w_stranded w) (w_floor w) (w_locallyRemoved w) (w_advancedEpoch w)
    (w_covered w) (w_calls w).
Definition set_commitLogHead (head : option string) (w : Walk) : Walk :=
  mkWalk (w_port w) (w_reconciledHead w) (w_durableCursor w) head (w_appliedByEpoch w)
    (w_healRequested w) (w_stranded w) (w_floor w) (w_locallyRemoved w) (w_advancedEpoch w)
    (w_covered w) (w_calls w).
Definition set_applied (epoch : Z) (record : AppliedCommit) (w : Walk) : Walk :=
  mkWalk (w_port w) (w_reconciledHead w) (w_durableCursor w) (w_commitLogHead w)
    (<[epoch := record]> (w_appliedByEpoch w))
    (w_healRequested w) (w_stranded w) (w_floor w) (w_locallyRemoved w) (w_advancedEpoch w)
    (w_covered w) (w_calls w).
Definition set_healRequested (w : Walk) : Walk :=
  mkWalk (w_port w) (w_reconciledHead w) (w_durableCursor w) (w_commitLogHead w) (w_appliedByEpoch w)
    true (w_stranded w) (w_floor w) (w_locallyRemoved w) (w_advancedEpoch w) (w_covered w) (w_calls w).
Definition set_stranded (w : Walk) : Walk :=
  mkWalk (w_port w) (w_reconciledHead w) (w_durableCursor w) (w_commitLogHead w) (w_appliedByEpoch w)
    (w_healRequested w) true (w_floor w) (w_locallyRemoved w) (w_advancedEpoch w) (w_covered w) (w_calls w).
Definition set_floor (floor : EpochFloor) (w : Walk) : Walk :=
  mkWalk (w_port w) (w_reconciledHead w) (w_durableCursor w) (w_commitLogHead w) (w_appliedByEpoch w)
    (w_healRequested w) (w_stranded w) floor (w_locallyRemoved w) (w_advancedEpoch w) (w_covered w) (w_calls w).
Definition set_locallyRemoved (w : Walk) : Walk :=
  mkWalk (w_port w) (w_reconciledHead w) (w_durableCursor w) (w_commitLogHead w) (w_appliedByEpoch w)
    (w_healRequested w) (w_stranded w) (w_floor w) true (w_advancedEpoch w) (w_covered w) (w_calls w).
Definition set_advancedEpoch (b : bool) (w : Walk) : Walk :=
  mkWalk (w_port w) (w_reconciledHead w) (w_durableCursor w) (w_commitLogHead w) (w_appliedByEpoch w)
    (w_healRequested w) (w_stranded w) (w_floor w) (w_locallyRemoved w) b (w_covered w) (w_calls w).
Definition set_covered (b : bool) (w : Walk) : Walk :=
  mkWalk (w_port w) (w_reconciledHead w) (w_durableCursor w) (w_commitLogHead w) (w_appliedByEpoch w)
    (w_healRequested w) (w_stranded w) (w_floor w) (w_locallyRemoved w) (w_advancedEpoch w) b (w_calls w).
Definition call (c : WalkCall) (w : Walk) : Walk :=
  mkWalk (w_port w) (w_reconciledHead w) (w_durableCursor w) (w_commitLogHead w) (w_appliedByEpoch w)
    (w_healRequested w) (w_stranded w) (w_floor w) (w_locallyRemoved w) (w_advancedEpoch w) (w_covered w)
    (w_calls w ++ [c]).

Definition epochOf (w : Walk) : Z := readEpoch (w_port w).

(** ** The cursor *)

Definition persistStrand (w : Walk) : Walk :=
  let epoch := epochOf w in
  match w_durableCursor w with
  | Some c =>
    if cc_stranded c && (cc_epoch c =? epoch) then w
    else set_durableCursor (mkCommitCursor (if cc_epoch c =? epoch then cc_position c else None) epoch true) w
  | None => set_durableCursor (mkCommitCursor None epoch true) w
  end.

Definition saveCommitCursor (position : string) (w : Walk) : Walk :=
  set_reconciledHead (Some position)
    (if w_stranded w then persistStrand w
     else set_durableCursor (mkCommitCursor (Some position) (epochOf w) false) w).

(** ** One apply: [advanceHandle] *)

(** [observe]: this member's own removal, and the floor of the epoch the commit opened. *)
Definition observe (rosterBefore : list string) (epochBefore epochAfter : Z) (position : string) (w : Walk) :
    Walk :=
  let epoch := epochOf w in
  let roster := map normalizeDID (rosterEntries (w_port w)) in
  let w := if bool_decide (localDID ∈ rosterBefore) && negb (bool_decide (localDID ∈ roster))
           then call LocallyRemoved (set_locallyRemoved w) else w in
  if (epoch =? epochAfter) && negb (epoch =? epochBefore)
  then set_floor (mkEpochFloor epoch (Some position) true) w else w.

Definition advanceHandle (header : CommitHeader) (position commitDigest : string) (frame : CommitFrame)
    (w : Walk) : Walk * ProcessOutcome :=
  let rosterBefore := map normalizeDID (rosterEntries (w_port w)) in
  let epochBefore := epochOf w in
  let epochAfter := ch_epoch header + 1 in
  let tokens := resolveLedgerEntries toUTF (openEntries (w_port w)) (cf_sealedEntries frame) in
  let '(p, outcome) := processCommit (w_port w) (cf_commit frame) tokens in
  let w := set_port p w in
  match outcome with
  | Processed advanced _ _ _ =>
    let w := if ch_external header && advanced && negb (w_stranded w)
             then call (RecordOutcome position commitDigest OutcomeApplied) w else w in
    (observe rosterBefore epochBefore epochAfter position (saveCommitCursor position w), outcome)
  | _ => (observe rosterBefore epochBefore epochAfter position w, outcome)
  end.

(** ** One frame *)

Definition strand (position : string) (commitDigest : option string) (localEpoch : Z)
    (claimedEpoch : option Z) (kind : StrandKind) (confidence : StrandConfidence) (w : Walk) : Walk :=
  call (ObserveStrand (mkStrandObservation position commitDigest localEpoch claimedEpoch kind confidence)) w.

Definition classifierState (localEpoch : Z) (w : Walk) : CommitClassifierState :=
  mkClassifierState localDID localEpoch (w_appliedByEpoch w).

(** A frame in a format this build cannot read. *)
Definition unreadable (position : string) (w : Walk) : Walk :=
  let localEpoch := epochOf w in
  let ahead := bool_decide
    (classifyCommit UNKNOWN_FRAME_VERSION position None (classifierState localEpoch w) = Ahead) in
  let w := saveCommitCursor position (if ahead then set_stranded w else w) in
  if ahead then strand position None localEpoch None KindUnknownVersion Claimed (set_healRequested w) else w.

(** The header as the classifier reads it, the committer's DID normalised. *)
Definition readHeader (p : P) (commit : bytes) : CommitFrameEvidence :=
  match readCommitHeader p commit with
  | None => NoHeader
  | Some h => Header (mkCommitHeader (ch_epoch h) (normalizeDID <$> ch_committerDID h) (ch_external h))
  end.

(** The loop over one commit. It turns again only when the port reports that the handle had moved off
    the epoch the frame was classified at. *)
Fixpoint walkCommit (fuel : nat) (localEpoch : Z) (position commitDigest : string) (frame : CommitFrame)
    (w : Walk) : Walk * Flow :=
  match fuel with
  | O => (w, Raise "the port's epoch never settled")
  | S fuel =>
    let evidence := readHeader (w_port w) (cf_commit frame) in
    let claimed := match evidence with Header h => Some (ch_epoch h) | _ => None end in
    let external := match evidence with Header h => ch_external h | _ => false end in
    match classifyCommit evidence position (Some commitDigest) (classifierState localEpoch w) with
    | OwnUnmerged =>
      (strand position (Some commitDigest) localEpoch claimed KindOwnUnmerged Authenticated
         (persistStrand (set_stranded (set_healRequested w))), Stop)
    | Ahead =>
      (strand position (Some commitDigest) localEpoch claimed KindAhead Claimed
         (set_healRequested (saveCommitCursor position (set_stranded w))), Next)
    | History => (saveCommitCursor position w, Next)
    | Fork _ Losing =>
      (strand position (Some commitDigest) localEpoch claimed KindForkLosing Observed
         (set_healRequested (saveCommitCursor position (set_stranded w))), Next)
    | Fork _ Winning =>
      let w := if external && negb (w_stranded w)
               then call (RecordOutcome position commitDigest OutcomeSuperseded) w else w in
      (saveCommitCursor position w, Next)
    | Poison => (saveCommitCursor position w, Next)
    | Apply =>
      let framedEpoch := localEpoch in
      match evidence with
      | Header header =>
        match advanceHandle header position commitDigest frame w with
        | (w, PortFailure e) => (w, Raise e)
        | (w, MissingLedgerEntries) =>
          if epochOf w =? framedEpoch then (saveCommitCursor position w, Next)
          else (w, Raise "missing ledger entries")
        | (w, Processed advanced epochBefore epochAfter refusal) =>
          if negb advanced && negb (epochBefore =? framedEpoch)
          then walkCommit fuel epochBefore position commitDigest frame (set_advancedEpoch true w)
          else
            let w := if advanced then
                let w := set_applied framedEpoch (mkAppliedCommit position commitDigest) (set_advancedEpoch true w) in
                if external then call Rejoined w else w
              else w in
            let w := if external && negb advanced && negb (w_stranded w)
              then call (RecordOutcome position commitDigest (OutcomeRefused (default "invalid" refusal))) w
              else w in
            (saveCommitCursor position w, Next)
        end
      | _ => (w, Raise "unreachable")
      end
    end
  end.

(** The epoch is read once more only after a port that was moved under the walk. *)
Definition SETTLE : nat := 2.

Definition walkFrame (message : StoredMessage) (w : Walk) : Walk * Flow :=
  let position := sm_sequenceID message in
  match decodeHandshakeFrame (sm_payload message) with
  | Err _ => (saveCommitCursor position w, Next)
  | Ok frame =>
    if negb (hf_version frame =? HANDSHAKE_VERSION) then (unreadable position w, Next)
    else if negb (hf_kind frame =? HANDSHAKE_KIND commit) then (saveCommitCursor position w, Next)
    else match decodeCommitFrame (hf_payload frame) with
    | Err e =>
      if isUnsupportedCommitFrameVersion e then (unreadable position w, Next)
      else (saveCommitCursor position w, Next)
    | Ok commitFrame =>
      let commitDigest := digestAppliedCommit (cf_commit commitFrame) in
      if decide (pendingRecovery = Some (position, commitDigest)) then (w, Stop)
      else walkCommit SETTLE (epochOf w) position commitDigest commitFrame w
    end
  end.

Fixpoint walkPage (messages : list StoredMessage) (w : Walk) : Walk * Flow :=
  match messages with
  | [] => (w, Next)
  | m :: rest =>
    match walkFrame m w with
    | (w, Next) => walkPage rest w
    | (w, flow) => (w, flow)
    end
  end.

(** ** The drain *)

Definition takeHead (started : nat) (head : option string) (w : Walk) : Walk :=
  let w := set_commitLogHead head w in
  if w_covered w && negb (w_stranded w) && ef_covered (w_floor w) then
    let w := if negb (w_advancedEpoch w)
             then set_floor (mkEpochFloor (ef_epoch (w_floor w)) (w_reconciledHead w) (ef_covered (w_floor w))) w
             else w in
    call (Certify (ef_epoch (w_floor w)) started) w
  else w.

Definition uncover (w : Walk) : Walk :=
  set_floor (mkEpochFloor (ef_epoch (w_floor w)) (ef_position (w_floor w)) false) w.

(** [hub n after limit]: the reply to the walk's [n]-th request. *)
Context (hub : nat -> option string -> nat -> result string FetchTopicResult).

Fixpoint walkLoop (fuel request started : nat) (w : Walk) : Walk * WalkResult :=
  match fuel with
  | O => (w, Exhausted)
  | S fuel =>
    let pageAfter := w_reconciledHead w in
    match hub request pageAfter COMMIT_FETCH_LIMIT with
    | Err e => (w, Raised e)
    | Ok reply =>
      let messages := fr_messages reply in
      let gap := fr_gap reply ||
        match messages, fr_head reply, pageAfter with
        | [], Some head, Some after => bool_decide (after <ₛ head)
        | _, _, _ => false
        end in
      match pageAfter, gap with
      | Some after, true =>
        let w := persistStrand (set_healRequested (set_stranded (uncover w))) in
        (strand after None (epochOf w) None KindRetentionGap Claimed w, Returned (w_advancedEpoch w))
      | _, _ =>
        let w := match pageAfter with
                 | None => if fr_gap reply then uncover (set_covered false w) else w
                 | Some _ => w
                 end in
        if (length messages =? COMMIT_FETCH_LIMIT)%nat && negb (assertForwardPage pageAfter (map sm_sequenceID messages))
        then (w, Raised "hub returned non-increasing log positions")
        else match messages with
        | [] => let w := takeHead started (fr_head reply) w in (w, Returned (w_advancedEpoch w))
        | _ =>
          match walkPage messages w with
          | (w, Raise e) => (w, Raised e)
          | (w, Stop) => (w, Returned (w_advancedEpoch w))
          | (w, Next) =>
            if (length messages <? COMMIT_FETCH_LIMIT)%nat
            then let w := takeHead started (fr_head reply) w in (w, Returned (w_advancedEpoch w))
            else walkLoop fuel (S request) started w
          end
        end
      end
    end
  end.

Definition walkCommits (fuel started : nat) (w : Walk) : Walk * WalkResult :=
  walkLoop fuel 0 started (set_covered true (set_advancedEpoch false w)).

(** What a restarted peer takes from the durable cursor: its position, whether it is stranded. *)
Definition restore (cursor : option CommitCursor) (p : P) : option string * bool :=
  match cursor with
  | Some c => if cc_epoch c =? readEpoch p then (cc_position c, cc_stranded c) else (None, false)
  | None => (None, false)
  end.
End walk.

Arguments Walk : clear implicits.
