(* ===== verification/CommitWalkSpec.v ===== *)
(** * What a walk of the commit log guarantees

    Theorems about CommitWalk.v: the pages of a well-behaved hub add up to one pass over the log, only
    the evidence of Classify.v strands or heals a peer, and the durable cursor never loses a strand. *)

From S2P Require Import Prelude SeqID HubProtocol HubSpec Codecs Classify CommitWalk.

#[local] Open Scope Z_scope.

(** ** The frames after a cursor *)

Lemma positions_cons m ms : positions (m :: ms) = sm_sequenceID m :: positions ms.
Proof. done. Qed.

(** What is above a frame of an ascending log is what follows it. *)
Lemma above_frame l1 m l2 :
  ascending (positions (l1 ++ m :: l2)) -> above (Some (sm_sequenceID m)) (l1 ++ m :: l2) = l2.
Proof.
  rewrite positions_app, positions_cons. intros (_ & [_ H2]%ascending_cons_inv & H)%ascending_app.
  cbn [above]. rewrite filter_app, filter_cons_False by apply slt_irrefl.
  rewrite filter_none, filter_all; [done| |].
  - intros m' Hm'. apply H2, elem_of_positions. by exists m'.
  - intros m' Hm' Hlt. apply (slt_irrefl (sm_sequenceID m)). etrans; [exact Hlt|].
    apply H; [apply elem_of_positions; by exists m'|set_solver].
Qed.

(** The frames above a cursor are a suffix of an ascending log. *)
Lemma above_suffix after ms :
  ascending (positions ms) -> ∃ before, ms = before ++ above after ms ∧
    (∀ m a, m ∈ before -> after = Some a -> sm_sequenceID m ≤ₛ a).
Proof.
  intros Hms. destruct after as [a|]; [|exists []; split; [done|set_solver]].
  induction ms as [|m ms IH]; [by exists []; split; [|set_solver]|].
  rewrite positions_cons in Hms. apply ascending_cons_inv in Hms as [Hms Hm].
  cbn [above]. destruct (decide (a <ₛ sm_sequenceID m)) as [Hlt|Hge].
  - exists []. split; [|set_solver]. rewrite filter_all; [done|].
    intros m' [->|Hm']%elem_of_cons; [done|]. etrans; [exact Hlt|]. apply Hm, elem_of_positions. by exists m'.
  - destruct (IH Hms) as (before & Heq & Hb). exists (m :: before).
    rewrite filter_cons_False by done. split; [by rewrite Heq at 1|].
    intros m' a' [->|Hm']%elem_of_cons [= <-]; [by apply not_slt|by eapply Hb].
Qed.

Section walk_facts.
Context {P : Type} (readEpoch : P -> Z) (rosterEntries : P -> list string)
        (readCommitHeader : P -> bytes -> option CommitHeader)
        (processCommit : P -> bytes -> list string -> P * ProcessOutcome)
        (openEntries : P -> bytes -> option bytes)
        (toUTF : bytes -> option string) (digestAppliedCommit : bytes -> string)
        (normalizeDID : string -> string) (localDID : string)
        (pendingRecovery : option (string * string)).

Abbreviation FRAME := (walkFrame readEpoch rosterEntries readCommitHeader processCommit openEntries toUTF
  digestAppliedCommit normalizeDID localDID pendingRecovery).
Abbreviation COMMIT := (walkCommit readEpoch rosterEntries readCommitHeader processCommit openEntries toUTF
  normalizeDID localDID).
Abbreviation PAGE := (walkPage readEpoch rosterEntries readCommitHeader processCommit openEntries toUTF
  digestAppliedCommit normalizeDID localDID pendingRecovery).
Abbreviation LOOP := (walkLoop readEpoch rosterEntries readCommitHeader processCommit openEntries toUTF
  digestAppliedCommit normalizeDID localDID pendingRecovery).
Abbreviation WALK := (walkCommits readEpoch rosterEntries readCommitHeader processCommit openEntries toUTF
  digestAppliedCommit normalizeDID localDID pendingRecovery).
Abbreviation SAVE := (saveCommitCursor readEpoch).

Lemma save_cursor position (w : Walk P) : w_reconciledHead (SAVE position w) = Some position.
Proof. done. Qed.

(** Every frame that is done with leaves the cursor on it. *)
Lemma walkCommit_cursor fuel localEpoch position dg frame w w' :
  COMMIT fuel localEpoch position dg frame w = (w', Next) -> w_reconciledHead w' = Some position.
Proof.
  revert localEpoch w. induction fuel as [|fuel IH]; intros localEpoch w; [done|]. cbn [walkCommit].
  destruct (classifyCommit _ _ _ _) as [| | |seq []| |]; try (by intros [= <-]).
  destruct (readHeader _ _ _ _) as [| |header]; [done..|].
  destruct (advanceHandle _ _ _ _ _ _ _ _ _ _ _ _) as [w1 [advanced eb ea refusal| |e]]; [| |done].
  - destruct (negb advanced && _); [apply IH|]. by intros [= <-].
  - destruct (_ =? _); [by intros [= <-]|done].
Qed.

Lemma unreadable_cursor position (w : Walk P) :
  w_reconciledHead (unreadable readEpoch localDID position w) = Some position.
Proof. done. Qed.

Lemma walkFrame_cursor m w w' : FRAME m w = (w', Next) -> w_reconciledHead w' = Some (sm_sequenceID m).
Proof.
  unfold walkFrame. destruct (decodeHandshakeFrame _) as [f|]; [|by intros [= <-]].
  destruct (negb _); [by intros [= <-]|]. destruct (negb _); [by intros [= <-]|].
  destruct (decodeCommitFrame _) as [cf|e].
  - destruct (decide _); [done|]. apply walkCommit_cursor.
  - destruct (isUnsupportedCommitFrameVersion e); by intros [= <-].
Qed.

Lemma walkPage_app a b w :
  PAGE (a ++ b) w = match PAGE a w with (w', Next) => PAGE b w' | other => other end.
Proof.
  revert w. induction a as [|m a IH]; intros w; [done|]. cbn [app walkPage].
  destruct (FRAME m w) as [w1 []]; [apply IH|done..].
Qed.

Lemma walkPage_cursor ms m w w' : PAGE (ms ++ [m]) w = (w', Next) -> w_reconciledHead w' = Some (sm_sequenceID m).
Proof.
  rewrite walkPage_app. destruct (PAGE ms w) as [w1 []]; [|done..]. cbn [walkPage].
  destruct (FRAME m w1) as [w2 flow] eqn:Hf. destruct flow; [|done..]. intros [= <-]. by eapply walkFrame_cursor.
Qed.

(** ** Paging *)

(** What a drain does with a log it has read to the end of. *)
Definition drained (started : nat) (l : TopicLog) (out : Walk P * Flow) : Walk P * WalkResult :=
  match out with
  | (w, Next) => let w := takeHead started (tl_head l) w in (w, Returned (w_advancedEpoch w))
  | (w, Stop) => (w, Returned (w_advancedEpoch w))
  | (w, Raise e) => (w, Raised e)
  end.

(** With no gap a cursor at a retained frame has none either. *)
Lemma gap_after_served after l m :
  tl_wf l -> tl_gap after l = false -> m ∈ above after (tl_live l) ->
  tl_gap (Some (sm_sequenceID m)) l = false.
Proof.
  intros Hwf _ Hm. pose proof (wf_split l Hwf) as (_ & _ & Hsep).
  assert (m ∈ tl_live l) as Hlive.
  { destruct after; [|done]. by apply list_elem_of_filter in Hm as [_ ?]. }
  unfold tl_gap. rewrite negb_false_iff, bool_decide_eq_true. apply filter_none.
  intros m' Hm' Hlt. apply (slt_irrefl (sm_sequenceID m)). etrans; [exact Hlt|]. by apply Hsep.
Qed.

(** A reader with no gap and nothing to read is at the head. *)
Lemma head_reached after l :
  tl_wf l -> above (Some after) (tl_history l) = [] ->
  ∀ h, tl_head l = Some h -> ¬ after <ₛ h.
Proof.
  intros Hwf Hnil h Hh Hlt. unfold tl_head in Hh.
  apply last_positions_elem, elem_of_positions in Hh as (m & -> & Hm).
  apply (not_elem_of_nil m). rewrite <- Hnil. by apply list_elem_of_filter.
Qed.

Lemma page_forward after l k :
  tl_wf l -> assertForwardPage after (positions (take k (above after (tl_history l)))) = true.
Proof.
  intros Hwf. apply assertForwardPage_spec.
  destruct (above_suffix after (tl_history l) (wf_ascending l Hwf)) as (before & Heq & _).
  assert (ascending (positions (take k (above after (tl_history l))))) as Ha.
  { pose proof (wf_ascending l Hwf) as H. rewrite Heq, positions_app in H.
    apply ascending_app in H as (_ & H & _).
    rewrite <- (take_drop k (above _ _)), positions_app in H.
    by apply ascending_app in H as (? & _). }
  destruct after as [a|]; [|done]. cbn [option_list app]. apply ascending_cons; [done|].
  intros y (m & -> & Hm%elem_of_take)%elem_of_positions. destruct Hm as (i & Hm & _).
  apply list_elem_of_lookup_2, list_elem_of_filter in Hm. by destruct Hm.
Qed.

Lemma above_last after l ms m :
  tl_wf l -> ms ++ [m] = take COMMIT_FETCH_LIMIT (above after (tl_history l)) ->
  above (Some (sm_sequenceID m)) (tl_history l) = drop COMMIT_FETCH_LIMIT (above after (tl_history l)).
Proof.
  intros Hwf Hms.
  destruct (above_suffix after (tl_history l) (wf_ascending l Hwf)) as (before & Heq & _).
  set (rest := above after (tl_history l)) in *.
  assert (tl_history l = (before ++ ms) ++ m :: drop COMMIT_FETCH_LIMIT rest) as Hh.
  { rewrite Heq, <- (take_drop COMMIT_FETCH_LIMIT rest), <- Hms at 1. by rewrite <- !app_assoc. }
  rewrite Hh at 1. apply above_frame. rewrite <- Hh. apply Hwf.
Qed.

Lemma walkLoop_pages hub l fuel : ∀ request started w,
  tl_wf l -> (∀ n after limit, hub n after limit = Ok (tl_fetch after (Some limit) l)) ->
  tl_gap (w_reconciledHead w) l = false ->
  (length (above (w_reconciledHead w) (tl_history l)) < fuel)%nat ->
  LOOP hub fuel request started w = drained started l (PAGE (above (w_reconciledHead w) (tl_history l)) w).
Proof.
  induction fuel as [|fuel IH]; intros request started w Hwf Hhub Hgap Hfuel; [lia|].
  cbn [walkLoop]. rewrite Hhub. unfold tl_fetch. cbn [fr_messages fr_head fr_gap].
  pose proof (proj1 (tl_gap_false _ _) Hgap) as Hlive. rewrite Hlive, Hgap. cbn [orb page].
  set (rest := above (w_reconciledHead w) (tl_history l)) in *.
  set (messages := take COMMIT_FETCH_LIMIT rest) in *.
  assert ((match messages, tl_head l, w_reconciledHead w with
           | [], Some head, Some after => bool_decide (after <ₛ head) | _, _, _ => false end) = false) as Hreached.
  { destruct messages as [|m ms] eqn:Hm; [|done]. destruct (tl_head l) as [h|] eqn:Hh; [|done].
    destruct (w_reconciledHead w) as [a|] eqn:Ha; [|done]. apply bool_decide_eq_false.
    eapply head_reached; [done| |done]. unfold messages, rest in Hm.
    by destruct (above (Some a) (tl_history l)). }
  rewrite Hreached.
  assert ((length messages =? COMMIT_FETCH_LIMIT)%nat &&
          negb (assertForwardPage (w_reconciledHead w) (map sm_sequenceID messages)) = false) as Hforward.
  { change (map sm_sequenceID messages) with (positions messages). unfold messages, rest.
    rewrite page_forward by done. apply andb_false_r. }
  assert (drop COMMIT_FETCH_LIMIT rest = [] ∨ length messages = COMMIT_FETCH_LIMIT) as Hshort.
  { destruct (decide (COMMIT_FETCH_LIMIT <= length rest)%nat).
    - right. unfold messages. rewrite length_take. lia.
    - left. apply drop_ge. lia. }
  assert (match w_reconciledHead w with None => w | Some _ => w end = w) as Hsame
    by by destruct (w_reconciledHead w).
  transitivity (match messages with
    | [] => let w := takeHead started (tl_head l) w in (w, Returned (w_advancedEpoch w))
    | _ => match PAGE messages w with
           | (w, Raise e) => (w, Raised e)
           | (w, Stop) => (w, Returned (w_advancedEpoch w))
           | (w, Next) =>
             if (length messages <? COMMIT_FETCH_LIMIT)%nat
             then let w := takeHead started (tl_head l) w in (w, Returned (w_advancedEpoch w))
             else LOOP hub fuel (S request) started w
           end
    end).
  { revert Hforward. destruct (w_reconciledHead w); intros ->; done. }
  clear Hforward Hsame Hreached.
  destruct (decide (messages = [])) as [Hm|Hne].
  - rewrite Hm. assert (rest = []) as ->; [|done]. unfold messages in Hm. by destruct rest.
  - destruct (exists_last Hne) as (ms & m & Hm).
    assert (rest = messages ++ drop COMMIT_FETCH_LIMIT rest) as Hrest by (unfold messages; by rewrite take_drop).
    rewrite Hrest, walkPage_app.
    destruct (PAGE messages w) as [w1 flow] eqn:Hpage.
    destruct messages as [|m0 messages0] eqn:Hmessages; [done|]. rewrite <- Hmessages in *.
    destruct flow; [|done..].
    destruct (Nat.ltb_spec (length messages) COMMIT_FETCH_LIMIT) as [Hlt|Hge].
    { destruct Hshort as [->|]; [done|lia]. }
    rewrite Hm in Hpage. pose proof (walkPage_cursor _ _ _ _ Hpage) as Hcursor.
    assert (above (w_reconciledHead w1) (tl_history l) = drop COMMIT_FETCH_LIMIT rest) as Habove.
    { rewrite Hcursor. apply (above_last (w_reconciledHead w) l ms); [done|]. by rewrite <- Hm. }
    rewrite <- Habove. apply IH; [done..| |].
    + rewrite Hcursor. eapply gap_after_served; [done..|]. rewrite Hlive. fold rest. rewrite Hrest, Hm. set_solver.
    + assert (length messages <= length rest)%nat by (apply (f_equal length) in Hrest; rewrite length_app in Hrest; lia).
      rewrite Habove, length_drop. unfold COMMIT_FETCH_LIMIT in *. lia.
Qed.

(** ** What a walk may change *)

Definition certifies (c : WalkCall) : bool := match c with Certify _ _ => true | _ => false end.

(** Flags only rise, and frames certify nothing and leave the log's tip alone. *)
Record evolves (w w' : Walk P) : Prop := {
  ev_stranded : w_stranded w = true -> w_stranded w' = true;
  ev_heal : w_healRequested w = true -> w_healRequested w' = true;
  ev_covered : w_covered w' = w_covered w;
  ev_head : w_commitLogHead w' = w_commitLogHead w;
  ev_calls : ∃ new, w_calls w' = w_calls w ++ new ∧ Forall (λ c, certifies c = false) new;
}.

#[local] Instance evolves_preorder : PreOrder evolves.
Proof.
  split.
  - intros w. split; try done. exists []. by rewrite app_nil_r.
  - intros w1 w2 w3 [S1 H1 C1 D1 (n1 & N1 & F1)] [S2 H2 C2 D2 (n2 & N2 & F2)].
    split; [tauto|tauto|congruence|congruence|].
    exists (n1 ++ n2). rewrite N2, N1, app_assoc. split; [done|]. by apply Forall_app.
Qed.

Ltac evolve := split; try done; try (by intros _); exists []; by rewrite app_nil_r.

Lemma evolves_call c (w : Walk P) : certifies c = false -> evolves w (call c w).
Proof. intros Hc. split; try done. exists [c]. split; [done|]. by constructor. Qed.

Lemma evolves_persist (w : Walk P) : evolves w (persistStrand readEpoch w).
Proof. unfold persistStrand. destruct (w_durableCursor w) as [c|]; [destruct (_ && _)|]; evolve. Qed.

Lemma evolves_save position (w : Walk P) : evolves w (SAVE position w).
Proof.
  unfold saveCommitCursor. destruct (w_stranded w); [|evolve].
  transitivity (persistStrand readEpoch w); [apply evolves_persist|evolve].
Qed.

Lemma evolves_set_stranded (w : Walk P) : evolves w (set_stranded w).
Proof. evolve. Qed.
Lemma evolves_set_heal (w : Walk P) : evolves w (set_healRequested w).
Proof. evolve. Qed.
Lemma evolves_set_advanced b (w : Walk P) : evolves w (set_advancedEpoch b w).
Proof. evolve. Qed.
Lemma evolves_set_applied e a (w : Walk P) : evolves w (set_applied e a w).
Proof. evolve. Qed.
Lemma evolves_set_floor f (w : Walk P) : evolves w (set_floor f w).
Proof. evolve. Qed.
Lemma evolves_set_port p (w : Walk P) : evolves w (set_port p w).
Proof. evolve. Qed.
Lemma evolves_set_removed (w : Walk P) : evolves w (set_locallyRemoved w).
Proof. evolve. Qed.

Create HintDb walk discriminated.
Hint Resolve evolves_call evolves_persist evolves_save evolves_set_stranded evolves_set_heal
  evolves_set_advanced evolves_set_applied evolves_set_floor evolves_set_port evolves_set_removed : walk.

(** Peel the outermost assignment of the right-hand state. *)
Ltac peel := repeat (first [reflexivity
  | match goal with |- evolves ?w (?f ?x ?y) => etrans; [|by apply evolves_call] end
  | match goal with |- evolves ?w (if ?b then _ else _) => destruct b end
  | etrans; [|solve [eauto with walk]] ]).

Lemma evolves_observe roster eb ea position (w : Walk P) :
  evolves w (observe readEpoch rosterEntries normalizeDID localDID roster eb ea position w).
Proof. unfold observe. cbv zeta. destruct (_ && negb (bool_decide _)), (_ && negb (_ =? _)); peel. Qed.

Lemma evolves_advance header position dg frame (w : Walk P) w' outcome :
  advanceHandle readEpoch rosterEntries processCommit openEntries toUTF normalizeDID localDID
    header position dg frame w = (w', outcome) -> evolves w w'.
Proof.
  unfold advanceHandle. destruct (processCommit _ _ _) as [p [advanced eb ea r| |e]]; intros [= <- <-];
    (etrans; [|apply evolves_observe]); [|peel..]. destruct (_ && _); peel.
Qed.

Lemma evolves_walkCommit fuel localEpoch position dg frame w w' flow :
  COMMIT fuel localEpoch position dg frame w = (w', flow) -> evolves w w'.
Proof.
  revert localEpoch w. induction fuel as [|fuel IH]; intros localEpoch w; [by intros [= <- _]|]. cbn [walkCommit].
  destruct (classifyCommit _ _ _ _) as [| | |seq []| |]; try (intros [= <- _]; unfold strand; peel; fail).
  - destruct (readHeader _ _ _ _) as [| |header]; [by intros [= <- _]..|].
    destruct (advanceHandle _ _ _ _ _ _ _ _ _ _ _ _) as [w1 outcome] eqn:Hadv.
    apply evolves_advance in Hadv. intros Hrest. etrans; [exact Hadv|]. clear Hadv. revert Hrest.
    destruct outcome as [advanced eb ea refusal| |e]; [| |by intros [= <- _]].
    + destruct (negb advanced && negb _).
      * intros H%IH. etrans; [|exact H]. peel.
      * intros [= <- _]. destruct advanced, (ch_external header); peel.
    + destruct (_ =? _); intros [= <- _]; peel.
Qed.

Lemma evolves_unreadable position (w : Walk P) : evolves w (unreadable readEpoch localDID position w).
Proof. unfold unreadable. cbv zeta. destruct (bool_decide _); unfold strand; peel. Qed.

Lemma evolves_walkFrame m w w' flow : FRAME m w = (w', flow) -> evolves w w'.
Proof.
  unfold walkFrame. destruct (decodeHandshakeFrame _) as [f|]; [|intros [= <- _]; peel].
  destruct (negb _); [intros [= <- _]; apply evolves_unreadable|].
  destruct (negb _); [intros [= <- _]; peel|].
  destruct (decodeCommitFrame _) as [cf|e].
  - destruct (decide _); [by intros [= <- _]|]. apply evolves_walkCommit.
  - destruct (isUnsupportedCommitFrameVersion e); intros [= <- _]; [apply evolves_unreadable|peel].
Qed.

Lemma evolves_walkPage ms w w' flow : PAGE ms w = (w', flow) -> evolves w w'.
Proof.
  revert w. induction ms as [|m ms IH]; intros w; cbn [walkPage]; [by intros [= <- _]|].
  destruct (FRAME m w) as [w1 f] eqn:Hf. apply evolves_walkFrame in Hf.
  destruct f; [|by intros [= <- _]..]. intros H%IH. by etrans.
Qed.

(** ** The durable cursor *)

(** What a restart needs: the stored cursor is of this epoch, carries the strand flag, and when there
    is no strand names the position reached. *)
Definition durable_ok (w : Walk P) : Prop :=
  match w_durableCursor w with
  | Some c =>
    cc_epoch c = epochOf readEpoch w ∧ cc_stranded c = w_stranded w ∧
    (w_stranded w = false -> cc_position c = w_reconciledHead w)
  | None => w_stranded w = false ∧ w_reconciledHead w = None
  end.

Lemma durable_persist (w : Walk P) : w_stranded w = true -> durable_ok (persistStrand readEpoch w).
Proof.
  intros Hs. unfold durable_ok, persistStrand. destruct (w_durableCursor w) as [c|] eqn:Hc.
  - destruct (cc_stranded c && _) eqn:Hb; [|cbn; by rewrite Hs].
    apply andb_true_iff in Hb as [Hst ?%Z.eqb_eq]. rewrite Hc, Hst, Hs. done.
  - cbn. by rewrite Hs.
Qed.

Lemma durable_save position (w : Walk P) : durable_ok (SAVE position w).
Proof.
  unfold saveCommitCursor. destruct (w_stranded w) eqn:Hs.
  - pose proof (durable_persist w Hs) as H. unfold durable_ok in *. cbn.
    assert (w_stranded (persistStrand readEpoch w) = true) as Hs' by by apply evolves_persist.
    rewrite Hs' in *. destruct (w_durableCursor _); naive_solver.
  - unfold durable_ok. cbn. by rewrite Hs.
Qed.

Lemma durable_unreadable position (w : Walk P) : durable_ok (unreadable readEpoch localDID position w).
Proof. apply (durable_save position (set_stranded w)). Qed.

Lemma durable_walkCommit fuel localEpoch position dg frame w w' flow :
  COMMIT fuel localEpoch position dg frame w = (w', flow) ->
  match flow with Raise _ => True | _ => durable_ok w' end.
Proof.
  revert localEpoch w. induction fuel as [|fuel IH]; intros localEpoch w; [by intros [= <- <-]|]. cbn [walkCommit].
  destruct (classifyCommit _ _ _ _) as [| | |seq []| |];
    try (intros [= <- <-]; first [apply durable_save | apply (durable_save position (set_stranded w))
                                 | by apply (durable_persist (set_stranded (set_healRequested w)))]; fail).
  - destruct (readHeader _ _ _ _) as [| |header]; [by intros [= <- <-]..|].
    destruct (advanceHandle _ _ _ _ _ _ _ _ _ _ _ _) as [w1 [advanced eb ea refusal| |e]];
      [| |by intros [= <- <-]].
    + destruct (negb advanced && _); [apply IH|]. intros [= <- <-]. apply durable_save.
    + destruct (_ =? _); intros [= <- <-]; [apply durable_save|done].
Qed.

Lemma durable_walkFrame m w w' flow :
  durable_ok w -> FRAME m w = (w', flow) -> match flow with Raise _ => True | _ => durable_ok w' end.
Proof.
  intros Hw. unfold walkFrame. destruct (decodeHandshakeFrame _) as [f|]; [|intros [= <- <-]; apply durable_save].
  destruct (negb _); [intros [= <- <-]; apply durable_unreadable|].
  destruct (negb _); [intros [= <- <-]; apply durable_save|].
  destruct (decodeCommitFrame _) as [cf|e].
  - destruct (decide _); [by intros [= <- <-]|]. apply durable_walkCommit.
  - destruct (isUnsupportedCommitFrameVersion e); intros [= <- <-]; [apply durable_unreadable|apply durable_save].
Qed.

Lemma durable_walkPage ms w w' flow :
  durable_ok w -> PAGE ms w = (w', flow) -> match flow with Raise _ => True | _ => durable_ok w' end.
Proof.
  revert w. induction ms as [|m ms IH]; intros w Hw; cbn [walkPage]; [by intros [= <- <-]|].
  destruct (FRAME m w) as [w1 f] eqn:Hf. apply durable_walkFrame in Hf; [|done].
  destruct f; [|by intros [= <- <-]..]. by apply IH.
Qed.

(** Certification is the last thing a drain does, and only of a covered, unstranded walk. *)
Lemma takeHead_ok started head (w : Walk P) :
  let w' := takeHead started head w in
  w_stranded w' = w_stranded w ∧ (durable_ok w -> durable_ok w') ∧
  ∃ certified, w_calls w' = w_calls w ++ certified ∧
    (certified ≠ [] -> certified = [Certify (ef_epoch (w_floor w)) started] ∧ w_stranded w = false ∧
                       w_covered w = true ∧ ef_covered (w_floor w) = true).
Proof.
  unfold takeHead. cbn. destruct (w_covered w) eqn:H1, (w_stranded w) eqn:H2, (ef_covered (w_floor w)) eqn:H3; cbn;
    try (rewrite ?H2; split_and!; [done|by unfold durable_ok; cbn|exists []; by rewrite app_nil_r]).
  destruct (w_advancedEpoch w); cbn; rewrite ?H2; (split_and!; [done|by unfold durable_ok; cbn|]);
    by exists [Certify (ef_epoch (w_floor w)) started].
Qed.

(** A drain that returned: the cursor on disk is right, and it certified at most once, at its end. *)
Definition safe (started : nat) (w w' : Walk P) : Prop :=
  durable_ok w' ∧ (w_stranded w = true -> w_stranded w' = true) ∧
  ∃ new certified, w_calls w' = w_calls w ++ new ++ certified ∧
    Forall (λ c, certifies c = false) new ∧
    (certified ≠ [] -> w_stranded w' = false ∧ w_covered w = true ∧
                       ∃ epoch, certified = [Certify epoch started]).

Lemma safe_evolves started w w' : evolves w w' -> durable_ok w' -> safe started w w'.
Proof.
  intros [Hs _ _ _ (new & Hn & Hf)] Hd. split_and!; [done..|]. exists new, []. by rewrite app_nil_r.
Qed.

Lemma safe_after started w w1 w' : evolves w w1 -> safe started w1 w' -> safe started w w'.
Proof.
  intros [Hs _ Hc _ (new & Hn & Hf)] (Hd & Hs1 & new1 & certified & Hcalls & Hf1 & Hcert).
  split_and!; [done|tauto|]. exists (new ++ new1), certified. rewrite Hcalls, Hn, <- !app_assoc, <- Hc.
  split_and!; [done|by apply Forall_app|done].
Qed.

Lemma safe_takeHead started head w : durable_ok w -> safe started w (takeHead started head w).
Proof.
  intros Hd. destruct (takeHead_ok started head w) as (Hs & Hd1 & certified & Hcalls & Hcert).
  split_and!; [by apply Hd1|by rewrite Hs|]. exists [], certified. rewrite Hcalls. split_and!; [done..|].
  intros Hne. destruct (Hcert Hne) as (-> & ? & ? & _). rewrite Hs. eauto.
Qed.

Lemma safe_uncover started w w' : safe started (uncover (set_covered false w)) w' -> safe started w w'.
Proof.
  intros (Hd & Hs & new & certified & Hcalls & Hf & Hcert). split_and!; [done..|].
  exists new, certified. split_and!; [done..|]. intros Hne. by destruct (Hcert Hne) as (_ & ? & _).
Qed.

Lemma walkLoop_safe hub fuel : ∀ request started w w' advanced,
  durable_ok w -> LOOP hub fuel request started w = (w', Returned advanced) -> safe started w w'.
Proof.
  induction fuel as [|fuel IH]; intros request started w w' advanced Hw; [done|]. cbn [walkLoop].
  destruct (hub request _ _) as [reply|]; [|done]. cbv zeta. set (gap := fr_gap reply || _).
  set (drain := λ w : Walk P,
    if (length (fr_messages reply) =? COMMIT_FETCH_LIMIT)%nat &&
       negb (assertForwardPage (w_reconciledHead w) (map sm_sequenceID (fr_messages reply)))
    then (w, Raised "hub returned non-increasing log positions")
    else match fr_messages reply with
    | [] => (takeHead started (fr_head reply) w, Returned (w_advancedEpoch (takeHead started (fr_head reply) w)))
    | _ => match PAGE (fr_messages reply) w with
      | (w, Raise e) => (w, Raised e)
      | (w, Stop) => (w, Returned (w_advancedEpoch w))
      | (w, Next) =>
        if (length (fr_messages reply) <? COMMIT_FETCH_LIMIT)%nat
        then (takeHead started (fr_head reply) w, Returned (w_advancedEpoch (takeHead started (fr_head reply) w)))
        else LOOP hub fuel (S request) started w
      end
    end).
  assert (∀ w1, durable_ok w1 -> drain w1 = (w', Returned advanced) -> safe started w1 w') as Hdrain.
  { intros w1 Hw1. unfold drain. destruct (_ && _); [done|].
    destruct (fr_messages reply) as [|m ms]; [intros [= <- _]; by apply safe_takeHead|].
    destruct (PAGE (m :: ms) w1) as [w2 flow] eqn:Hpage.
    pose proof (durable_walkPage _ _ _ _ Hw1 Hpage) as Hd. apply evolves_walkPage in Hpage.
    destruct flow; [|intros [= <- _]; by apply safe_evolves|done].
    destruct (_ <? _)%nat; [intros [= <- _]|intros H]; apply (safe_after _ _ w2 _ Hpage).
    - by apply safe_takeHead.
    - by eapply IH. }
  destruct (w_reconciledHead w) as [after|] eqn:Hafter.
  - destruct gap; [|intros H; apply Hdrain; [done|]; unfold drain; by rewrite Hafter].
    intros [= <- _]. apply safe_evolves.
    + unfold strand, uncover. peel.
    + by apply (durable_persist (set_healRequested (set_stranded (uncover w)))).
  - intros H. assert (drain (if fr_gap reply then uncover (set_covered false w) else w) = (w', Returned advanced))
      as Hd by (unfold drain; by destruct (fr_gap reply); cbn; rewrite Hafter).
    destruct (fr_gap reply); [apply safe_uncover|]; apply Hdrain; done.
Qed.

(** ** The verdict on one frame *)

(** What the lane got out of a frame: nothing when it is dropped unread, else what the classifier is
    given. *)
Definition frameEvidence (m : StoredMessage) (w : Walk P) :
    option (CommitFrameEvidence * option (bytes * bytes)) :=
  match decodeHandshakeFrame (sm_payload m) with
  | Err _ => None
  | Ok frame =>
    if negb (hf_version frame =? HANDSHAKE_VERSION) then Some (UNKNOWN_FRAME_VERSION, None)
    else if negb (hf_kind frame =? HANDSHAKE_KIND commit) then None
    else match decodeCommitFrame (hf_payload frame) with
    | Err e => if isUnsupportedCommitFrameVersion e then Some (UNKNOWN_FRAME_VERSION, None) else None
    | Ok cf => Some (readHeader readCommitHeader normalizeDID (w_port w) (cf_commit cf),
                     Some (cf_commit cf, cf_sealedEntries cf))
    end
  end.

(** What the port documents of [processCommit]: the epochs it reports are the handle's, and the handle
    stays where it was unless it advanced. *)
Definition port_lawful : Prop := ∀ p commit tokens p' outcome,
  processCommit p commit tokens = (p', outcome) ->
  match outcome with
  | Processed advanced epochBefore epochAfter _ =>
    epochBefore = readEpoch p ∧ epochAfter = readEpoch p' ∧ (advanced = false -> readEpoch p' = readEpoch p)
  | MissingLedgerEntries => readEpoch p' = readEpoch p
  | PortFailure _ => True
  end.

(** What becomes of a frame the port is asked about. *)
Definition offered (m : StoredMessage) (commit sealedEntries : bytes) (w w' : Walk P) (flow : Flow) : Prop :=
  let tokens := resolveLedgerEntries toUTF (openEntries (w_port w)) sealedEntries in
  ∃ outcome, processCommit (w_port w) commit tokens = (w_port w', outcome) ∧
  match outcome with
  | Processed true _ _ _ =>
    flow = Next ∧ w_appliedByEpoch w' = <[epochOf readEpoch w :=
      mkAppliedCommit (sm_sequenceID m) (digestAppliedCommit commit)]> (w_appliedByEpoch w)
  | Processed false _ _ _ | MissingLedgerEntries =>
    flow = Next ∧ epochOf readEpoch w' = epochOf readEpoch w ∧ w_appliedByEpoch w' = w_appliedByEpoch w
  | PortFailure e => flow = Raise e ∧ w_reconciledHead w' = w_reconciledHead w
  end.

Lemma observe_fields roster eb ea position (w : Walk P) :
  let w' := observe readEpoch rosterEntries normalizeDID localDID roster eb ea position w in
  w_port w' = w_port w ∧ w_reconciledHead w' = w_reconciledHead w ∧
  w_appliedByEpoch w' = w_appliedByEpoch w ∧ w_stranded w' = w_stranded w ∧
  w_healRequested w' = w_healRequested w.
Proof. unfold observe. cbv zeta. by destruct (_ && negb (bool_decide _)), (_ && negb (_ =? _)). Qed.

Lemma save_fields position (w : Walk P) :
  let w' := SAVE position w in
  w_port w' = w_port w ∧ w_appliedByEpoch w' = w_appliedByEpoch w ∧ w_stranded w' = w_stranded w ∧
  w_healRequested w' = w_healRequested w.
Proof.
  unfold saveCommitCursor, persistStrand. destruct (w_stranded w) eqn:Hs; [|by cbn].
  destruct (w_durableCursor w) as [c|]; [destruct (_ && _)|]; by cbn.
Qed.

Lemma advance_fields header position dg frame (w : Walk P) w' outcome :
  advanceHandle readEpoch rosterEntries processCommit openEntries toUTF normalizeDID localDID
    header position dg frame w = (w', outcome) ->
  processCommit (w_port w) (cf_commit frame)
    (resolveLedgerEntries toUTF (openEntries (w_port w)) (cf_sealedEntries frame)) = (w_port w', outcome) ∧
  w_appliedByEpoch w' = w_appliedByEpoch w ∧ w_stranded w' = w_stranded w ∧
  w_healRequested w' = w_healRequested w ∧
  (∀ e, outcome = PortFailure e -> w_reconciledHead w' = w_reconciledHead w).
Proof.
  unfold advanceHandle. destruct (processCommit _ _ _) as [p [advanced eb ea r| |e]]; intros [= <- <-].
  - edestruct observe_fields as (-> & _ & -> & -> & ->). edestruct save_fields as (-> & -> & -> & ->).
    by destruct (_ && _).
  - edestruct observe_fields as (-> & -> & -> & -> & ->). by cbn.
  - edestruct observe_fields as (-> & -> & -> & -> & ->). by cbn.
Qed.

Lemma walkCommit_verdict m dg frame w w' flow :
  port_lawful -> dg = digestAppliedCommit (cf_commit frame) ->
  COMMIT SETTLE (epochOf readEpoch w) (sm_sequenceID m) dg frame w = (w', flow) ->
  let d := classifyCommit (readHeader readCommitHeader normalizeDID (w_port w) (cf_commit frame))
             (sm_sequenceID m) (Some dg) (classifierState localDID (epochOf readEpoch w) w) in
  w_stranded w' = w_stranded w || heals d ∧
  w_healRequested w' = w_healRequested w || heals d ∧
  (flow = Stop <-> d = OwnUnmerged) ∧
  (d = OwnUnmerged -> w_reconciledHead w' = w_reconciledHead w) ∧
  (d ≠ Apply -> w_port w' = w_port w ∧ w_appliedByEpoch w' = w_appliedByEpoch w ∧ ∀ e, flow ≠ Raise e) ∧
  (d = Apply -> offered m (cf_commit frame) (cf_sealedEntries frame) w w' flow).
Proof.
  intros Hlaw ->. unfold SETTLE. generalize 1%nat as fuel1. intros fuel1. cbn [walkCommit].
  set (ev := readHeader _ _ _ _). set (d := classifyCommit ev _ _ _). intros Hwalk.
  pose proof (save_fields (sm_sequenceID m)) as Hsave.
  destruct d as [| | |seq branch| |] eqn:Hd.
  - (* handed to the port *)
    assert (∃ h, ev = Header h) as [h Hh].
    { subst d. unfold classifyCommit in Hd. destruct ev; [done|done|by eexists]. }
    rewrite Hh in Hwalk.
    destruct (advanceHandle _ _ _ _ _ _ _ _ _ _ _ _) as [w1 outcome] eqn:Hadv.
    apply advance_fields in Hadv as (Hproc & Ha & Hs & Hheal & Hcur).
    pose proof (Hlaw _ _ _ _ _ Hproc) as Hl. cbn [heals]. rewrite !orb_false_r.
    assert (∀ w2, w_port w2 = w_port w1 -> epochOf readEpoch w2 = epochOf readEpoch w1) as Hepoch
      by by unfold epochOf; intros ? ->.
    destruct outcome as [advanced eb ea refusal| |e].
    + destruct Hl as (-> & -> & Hstay). unfold epochOf at 1 in Hwalk. rewrite Z.eqb_refl, andb_false_r in Hwalk.
      injection Hwalk as <- <-. set (w2 := if ch_external h && _ && _ then _ else _).
      assert (w_port w2 = w_port w1 ∧ w_stranded w2 = w_stranded w1 ∧ w_healRequested w2 = w_healRequested w1 ∧
              w_appliedByEpoch w2 = if advanced
                then <[epochOf readEpoch w := mkAppliedCommit (sm_sequenceID m) (digestAppliedCommit (cf_commit frame))]>
                       (w_appliedByEpoch w1) else w_appliedByEpoch w1) as (Hp2 & Hs2 & Hh2 & Ha2).
      { subst w2. destruct advanced, (ch_external h); cbn [negb andb]; try (by cbn);
          destruct (negb (w_stranded w1)); by cbn. }
      destruct (Hsave w2) as (Hp3 & Ha3 & Hs3 & Hh3).
      split_and!; [congruence|congruence|done|done|done|]. intros _.
      exists (Processed advanced (readEpoch (w_port w)) (readEpoch (w_port w1)) refusal).
      rewrite Hp3, Hp2. split; [done|]. destruct advanced.
      * split; [done|]. by rewrite Ha3, Ha2, Ha.
      * split; [done|]. unfold epochOf. rewrite Hp3, Hp2, Ha3, Ha2, Ha. split; [by apply Hstay|done].
    + unfold epochOf in Hwalk. rewrite Hl, Z.eqb_refl in Hwalk. injection Hwalk as <- <-.
      destruct (Hsave w1) as (Hp3 & Ha3 & Hs3 & Hh3).
      split_and!; [congruence|congruence|done|done|done|]. intros _.
      exists MissingLedgerEntries. rewrite Hp3. split; [done|]. unfold epochOf. rewrite Hp3, Ha3, Ha. done.
    + injection Hwalk as <- <-. split_and!; [done..|]. intros _. exists (PortFailure e).
      split; [done|]. split; [done|]. by apply (Hcur e).
  - injection Hwalk as <- <-. destruct (Hsave (set_stranded w)) as (Hp & Ha & Hs & Hh).
    cbn in *. rewrite Hs, !orb_true_r. by split_and!.
  - injection Hwalk as <- <-. destruct (Hsave w) as (Hp & Ha & Hs & Hh). cbn [heals]. rewrite !orb_false_r.
    by split_and!.
  - destruct branch.
    + injection Hwalk as <- <-. set (w2 := if _ && _ then _ else _).
      destruct (Hsave w2) as (Hp & Ha & Hs & Hh). cbn [heals]. rewrite !orb_false_r, Hp, Ha, Hs, Hh.
      unfold w2. by destruct (_ && _); split_and!.
    + injection Hwalk as <- <-. destruct (Hsave (set_stranded w)) as (Hp & Ha & Hs & Hh).
      cbn in *. rewrite Hs, !orb_true_r. by split_and!.
  - injection Hwalk as <- <-. cbn [heals]. rewrite !orb_true_r. unfold strand, persistStrand. cbn.
    destruct (w_durableCursor w) as [c|]; [destruct (_ && _)|]; by split_and!.
  - injection Hwalk as <- <-. destruct (Hsave w) as (Hp & Ha & Hs & Hh). cbn [heals]. rewrite !orb_false_r.
    by split_and!.
Qed.

Lemma unreadable_fields position (w : Walk P) :
  let w' := unreadable readEpoch localDID position w in
  w_port w' = w_port w ∧ w_appliedByEpoch w' = w_appliedByEpoch w ∧ w_stranded w' = true ∧
  w_healRequested w' = true ∧ w_reconciledHead w' = Some position.
Proof.
  unfold unreadable. cbv zeta. rewrite bool_decide_eq_true_2 by done.
  destruct (save_fields position (set_stranded w)) as (Hp & Ha & Hs & _).
  unfold strand. by split_and!.
Qed.

(** C15. Paging does not matter: over a hub whose log has no gap at the cursor, a walk is one pass over
    every frame accepted after the cursor, in order and each once, whatever the page limit; it comes to
    an end, and its tip is the log's head when it read to the end of it. *)
Theorem walk_is_one_pass hub l fuel started w :
  tl_wf l -> (∀ n after limit, hub n after limit = Ok (tl_fetch after (Some limit) l)) ->
  tl_gap (w_reconciledHead w) l = false -> (length (tl_history l) < fuel)%nat ->
  WALK hub fuel started w =
  drained started l
    (PAGE (above (w_reconciledHead w) (tl_history l)) (set_covered true (set_advancedEpoch false w))).
Proof.
  intros Hwf Hhub Hgap Hfuel. unfold walkCommits. rewrite (walkLoop_pages hub l) by
    (try done; destruct (above_suffix (w_reconciledHead w) (tl_history l) (wf_ascending l Hwf))
       as (b & Hb & _); apply (f_equal length) in Hb; rewrite length_app in Hb; cbn [w_reconciledHead set_covered set_advancedEpoch]; lia).
  done.
Qed.

(** One frame of the log, with a port that keeps its documented contract: a frame that cannot be
    read as a commit frame only moves the cursor; any other strands the peer and asks for a heal exactly
    when the classifier says so, so a refused commit, one whose entries do not resolve and a copy of an
    applied one never do; the port is asked only about a commit of another member at this epoch, once,
    and only what it applied is recorded; the cursor moves over every frame but the peer's own
    un-merged commit, which alone stops the drain, and a frame on which the port broke its contract. *)
Theorem frame_verdict m w w' flow :
  port_lawful -> FRAME m w = (w', flow) ->
  (∀ position dg, pendingRecovery = Some (position, dg) -> position ≠ sm_sequenceID m) ->
  (flow = Next -> w_reconciledHead w' = Some (sm_sequenceID m)) ∧
  match frameEvidence m w with
  | None =>
    flow = Next ∧ w_port w' = w_port w ∧ w_appliedByEpoch w' = w_appliedByEpoch w ∧
    w_stranded w' = w_stranded w ∧ w_healRequested w' = w_healRequested w
  | Some (evidence, halves) =>
    let d := classifyCommit evidence (sm_sequenceID m) (digestAppliedCommit ∘ fst <$> halves)
               (classifierState localDID (epochOf readEpoch w) w) in
    w_stranded w' = w_stranded w || heals d ∧
    w_healRequested w' = w_healRequested w || heals d ∧
    (flow = Stop <-> d = OwnUnmerged) ∧
    (d = OwnUnmerged -> w_reconciledHead w' = w_reconciledHead w) ∧
    (d ≠ Apply -> w_port w' = w_port w ∧ w_appliedByEpoch w' = w_appliedByEpoch w ∧ ∀ e, flow ≠ Raise e) ∧
    (d = Apply -> ∃ commit sealedEntries, halves = Some (commit, sealedEntries) ∧
                    offered m commit sealedEntries w w' flow)
  end.
Proof.
  intros Hlaw Hframe Hpending. split.
  { intros ->. by apply walkFrame_cursor in Hframe. }
  assert (∀ w1, w1 = SAVE (sm_sequenceID m) w ->
    w_port w1 = w_port w ∧ w_appliedByEpoch w1 = w_appliedByEpoch w ∧
    w_stranded w1 = w_stranded w ∧ w_healRequested w1 = w_healRequested w) as Hsave
    by (intros w1 ->; apply save_fields).
  destruct (unreadable_fields (sm_sequenceID m) w) as (Hup & Hua & Hus & Huh & _).
  unfold frameEvidence. unfold walkFrame in Hframe.
  destruct (decodeHandshakeFrame _) as [f|]; [|injection Hframe as <- <-; by split; [|apply Hsave]].
  destruct (negb _).
  { injection Hframe as <- <-. cbn. rewrite Hus, Huh, !orb_true_r. by split_and!. }
  destruct (negb _); [injection Hframe as <- <-; by split; [|apply Hsave]|].
  destruct (decodeCommitFrame _) as [cf|e].
  - rewrite decide_False in Hframe by (intros Heq; by apply (Hpending _ _ Heq)).
    pose proof (walkCommit_verdict m _ cf w w' flow Hlaw eq_refl Hframe) as (H1 & H2 & H3 & H4 & H5 & H6).
    cbn [fmap option_fmap option_map compose fst]. split_and!; try done.
    intros Hd. exists (cf_commit cf), (cf_sealedEntries cf). split; [done|]. by apply H6.
  - destruct (isUnsupportedCommitFrameVersion e); injection Hframe as <- <-.
    + cbn. rewrite Hus, Huh, !orb_true_r. by split_and!.
    + by split; [|apply Hsave].
Qed.

End walk_facts.

(** ** A concrete port and log *)

Section demo.
(** The group state is its epoch; the commit's first byte is the epoch it is framed at, its second says
    whether it applies. *)
Definition demo_commit (epoch : Z) (good : bool) : bytes :=
  [byteOf epoch; byteOf (if good then 1 else 0)].

Definition demo_header (p : Z) (commit : bytes) : option CommitHeader :=
  match commit with
  | e :: _ => Some (mkCommitHeader (numberOf e) (if numberOf e =? p then Some "did:bob"%string else None) false)
  | [] => None
  end.

Definition demo_process (p : Z) (commit : bytes) (_ : list string) : Z * ProcessOutcome :=
  match commit with
  | [_; b] => if numberOf b =? 1 then (p + 1, Processed true p (p + 1) None) else (p, Processed false p p None)
  | _ => (p, MissingLedgerEntries)
  end.

Definition demo_frame (position : string) (commit : bytes) : StoredMessage :=
  mkStoredMessage position "did:bob" "t"
    (HANDSHAKE_MAGIC ++ [byteOf 1; byteOf 0] ++ encodeCommitFrame (mkCommitFrame commit []))
    (Some position).

Definition demo_log : TopicLog := mkTopicLog
  [demo_frame (formatSequenceID 1) (demo_commit 5 true);
   demo_frame (formatSequenceID 2) (demo_commit 6 false);
   demo_frame (formatSequenceID 3) (demo_commit 6 true)] 0.

Definition demo_walk : Walk Z :=
  mkWalk 5 None None None ∅ false false (mkEpochFloor 5 None true) false false true [].

Definition demo_text (b : bytes) : option string := Some (String.string_of_list_byte b).

Abbreviation demo_WALK := (walkCommits (λ p : Z, p) (λ _, []) demo_header demo_process (λ _ _, None)
  demo_text String.string_of_list_byte (λ d, d) "did:alice" None).
Abbreviation demo_FRAME := (walkFrame (λ p : Z, p) (λ _, []) demo_header demo_process (λ _ _, None)
  demo_text String.string_of_list_byte (λ d, d) "did:alice" None).

Definition demo_hub (_ : nat) (after : option string) (limit : nat) : result string FetchTopicResult :=
  Ok (tl_fetch after (Some limit) demo_log).

Lemma demo_log_wf : tl_wf demo_log.
Proof.
  split.
  - repeat constructor.
  - simpl. lia.
  - intros m Hm. repeat (apply elem_of_cons in Hm as [->|Hm]; [done|]). by apply not_elem_of_nil in Hm.
Qed.

Lemma demo_lawful : port_lawful (λ p : Z, p) demo_process.
Proof.
  intros p commit tokens p' outcome. unfold demo_process.
  destruct commit as [|? [|b []]]; try (by intros [= <- <-]).
  destruct (_ =? 1); intros [= <- <-]; by split_and!.
Qed.

(** Three frames, the second refused: the walk ends two epochs on, with nothing stranded. *)
Lemma walk_is_one_pass_witness :
  let out := demo_WALK demo_hub 4 0 demo_walk in
  w_port out.1 = 7 ∧ w_stranded out.1 = false ∧ w_commitLogHead out.1 = Some (formatSequenceID 3) ∧
  out.2 = Returned true.
Proof.
  intros out. unfold out. rewrite (walk_is_one_pass (λ p : Z, p) (λ _, []) demo_header demo_process (λ _ _, None)
    demo_text String.string_of_list_byte (λ d, d) "did:alice" None demo_hub demo_log 4 0 demo_walk
    demo_log_wf (λ _ _ _, eq_refl) eq_refl ltac:(simpl; lia)).
  vm_compute. split_and!; reflexivity.
Defined.

Lemma frame_verdict_witness :
  let m := demo_frame (formatSequenceID 1) (demo_commit 5 false) in
  let out := demo_FRAME m demo_walk in
  w_stranded out.1 = false ∧ w_reconciledHead out.1 = Some (sm_sequenceID m).
Proof.
  intros m out.
  destruct (frame_verdict (λ p : Z, p) (λ _, []) demo_header demo_process (λ _ _, None)
    demo_text String.string_of_list_byte (λ d, d) "did:alice" None m demo_walk out.1 out.2
    demo_lawful ltac:(apply surjective_pairing) ltac:(done)) as (Hcursor & Hverdict).
  split; [|exact (Hcursor ltac:(vm_compute; reflexivity))].
  destruct Hverdict as (Hs & _). rewrite Hs. vm_compute. reflexivity.
Defined.

End demo.
