(* ===== verification/Json.v ===== *)
(** * Decoded JSON values

    What [JSON.parse] returns and how the packages read it: properties, type tests, and the numbers it
    holds, as the code compares them. *)

From S2P Require Import Prelude.
From Stdlib Require Import QArith.
#[local] Close Scope Q_scope.

(** ** Claim values *)

(** A decoded JSON value. A number is an integer, another finite number, or past the double range; the
    keys of an object are distinct. *)
Inductive number := Int (z : Z) | Fractional (numerator : Z) (denominator : positive) | Infinite (negative : bool).

Inductive json :=
  | JNull
  | JBool (b : bool)
  | JNum (n : number)
  | JStr (s : string)
  | JArr (items : list json)
  | JObj (fields : list (string * json)).

(** [v.key]; [None] is [undefined]. *)
Definition get (key : string) (v : json) : option json :=
  match v with JObj fields => jm_get key fields | _ => None end.

Definition has (key : string) (v : json) : bool :=
  match get key v with Some _ => true | None => false end.

Definition isString (v : option json) : bool := match v with Some (JStr _) => true | _ => false end.
Definition isNumber (v : option json) : bool := match v with Some (JNum _) => true | _ => false end.
Definition isArray (v : option json) : bool := match v with Some (JArr _) => true | _ => false end.

(** [v === undefined || test v]. *)
Definition optional (test : option json -> bool) (v : option json) : bool :=
  match v with None => true | Some _ => test v end.

Definition everyItem (test : json -> bool) (v : option json) : bool :=
  match v with Some (JArr items) => forallb test items | _ => false end.

Definition isObject (v : option json) : bool :=
  match v with Some (JObj _) | Some (JArr _) => true | _ => false end.

Definition stringOf (v : option json) : string := match v with Some (JStr s) => s | _ => "" end.
Definition numberOf (v : option json) : number := match v with Some (JNum n) => n | _ => Int 0 end.
Definition optString (v : option json) : option string := match v with Some (JStr s) => Some s | _ => None end.

(** ** Numbers

    The numbers of JavaScript the code computes times and generations with: finite values exactly (they
    are doubles there), the infinities, and [NaN], which is also what [undefined] becomes in arithmetic
    and comparisons. *)

Inductive num := Fin (q : Q) | PosInf | NegInf | NaN.

Definition numZ (z : Z) : num := Fin (inject_Z z).

(** [a < b]: false as soon as one of them is not a number. *)
Definition nlt (a b : num) : bool :=
  match a, b with
  | NaN, _ | _, NaN => false
  | Fin p, Fin q => negb (Qle_bool q p)
  | NegInf, NegInf => false
  | NegInf, _ => true
  | Fin _, PosInf => true
  | _, _ => false
  end.

(** [a <= b]. *)
Definition nle (a b : num) : bool :=
  match a, b with
  | NaN, _ | _, NaN => false
  | _, _ => negb (nlt b a)
  end.

(** [Math.max(a, b)] and [Math.min(a, b)]. *)
Definition nmax (a b : num) : num :=
  match a, b with NaN, _ | _, NaN => NaN | _, _ => if nlt a b then b else a end.

Definition nmin (a b : num) : num :=
  match a, b with NaN, _ | _, NaN => NaN | _, _ => if nlt b a then b else a end.

(** [a === b] on numbers. *)
Definition nsame (a b : num) : bool := nle a b && nle b a.

(** [a - b > maximum], for finite [a] and [b]. *)
Definition gapExceeds (a b : num) (maximum : Z) : bool :=
  match a, b with Fin p, Fin q => negb (Qle_bool (p - q) (inject_Z maximum)) | _, _ => true end.

(** [Number.isFinite]. *)
Definition finite (a : num) : bool := match a with Fin _ => true | _ => false end.

Definition toNum (n : number) : num :=
  match n with
  | Int z => numZ z
  | Fractional numerator denominator => Fin (numerator # denominator)
  | Infinite negative => if negative then NegInf else PosInf
  end.

(** A property the code takes for a number, in arithmetic. *)
Definition numOf (v : option json) : num := match v with Some (JNum n) => toNum n | _ => NaN end.

(** *** The order of numbers that are not [NaN] *)

Definition isNum (a : num) : Prop := a ≠ NaN.

Lemma nle_refl a : isNum a -> nle a a = true.
Proof. destruct a; try done. intros _. cbn. by rewrite (proj2 (Qle_bool_iff q q) (Qle_refl q)). Qed.

Lemma nle_isNum a b : nle a b = true -> isNum a ∧ isNum b.
Proof. by destruct a, b. Qed.

Lemma nle_Fin p q : nle (Fin p) (Fin q) = true <-> (p <= q)%Q.
Proof. cbn. by rewrite negb_involutive, Qle_bool_iff. Qed.

Lemma nle_trans a b c : nle a b = true -> nle b c = true -> nle a c = true.
Proof.
  destruct a, b, c; try done. rewrite !nle_Fin. apply Qle_trans.
Qed.

Lemma nlt_nle a b : nlt a b = true -> nle a b = true.
Proof.
  destruct a as [p| | |], b as [q| | |]; try done. intros H. apply nle_Fin. cbn in H.
  apply Qlt_le_weak, Qnot_le_lt. intros Hle%Qle_bool_iff. by rewrite Hle in H.
Qed.

(** What the guard [if (a < b) throw] leaves. *)
Lemma not_nlt a b : isNum a -> isNum b -> nlt a b = false -> nle b a = true.
Proof. destruct a, b; try done. intros _ _ H. unfold nle. by rewrite H. Qed.

Lemma nle_not_nlt a b : nle a b = true -> nlt b a = false.
Proof. destruct a, b; cbn [nle]; try done; by rewrite negb_true_iff. Qed.

Lemma nle_nlt_trans a b c : nle a b = true -> nlt b c = true -> nlt a c = true.
Proof.
  intros Hab Hbc. destruct (nlt a c) eqn:Hac; [done|].
  assert (isNum a ∧ isNum b) as [Ha Hb] by (by apply nle_isNum).
  assert (isNum c) as Hc by (apply nlt_nle, nle_isNum in Hbc; tauto).
  apply not_nlt in Hac; [|done..]. pose proof (nle_trans _ _ _ Hac Hab) as H%nle_not_nlt. congruence.
Qed.

Lemma nmax_isNum a b : isNum (nmax a b) <-> isNum a ∧ isNum b.
Proof.
  unfold isNum. destruct a, b; cbn [nmax]; try (split; [by intros H | by intros [? ?]]);
    case_match; naive_solver.
Qed.

Lemma nmax_lub a b c : nle (nmax a b) c = true <-> nle a c = true ∧ nle b c = true.
Proof.
  assert (isNum a ∨ a = NaN) as [Ha| ->] by (unfold isNum; destruct a; auto; by left); [|by split; [|intros [? _]]].
  assert (isNum b ∨ b = NaN) as [Hb| ->] by (unfold isNum; destruct b; auto; by left);
    [|destruct a; split; (done || by intros [_ ?])].
  assert (nmax a b = if nlt a b then b else a) as -> by (by destruct a, b).
  destruct (nlt a b) eqn:Hlt.
  - apply nlt_nle in Hlt. split; [|tauto]. intros H. split; [by eapply nle_trans|done].
  - apply not_nlt in Hlt; [|done..]. split; [|tauto]. intros H. split; [done|by eapply nle_trans].
Qed.

Lemma nmax_l a b : isNum a -> isNum b -> nle a (nmax a b) = true.
Proof.
  intros Ha Hb. refine (proj1 (proj1 (nmax_lub a b _) (nle_refl _ _))). by apply nmax_isNum.
Qed.

Lemma nmax_r a b : isNum a -> isNum b -> nle b (nmax a b) = true.
Proof.
  intros Ha Hb. refine (proj2 (proj1 (nmax_lub a b _) (nle_refl _ _))). by apply nmax_isNum.
Qed.
