(* ===== verification/ControllerLog.v ===== *)
(** * Controller logs

    packages/mls/src: the errors of the lifecycle (errors.ts), how a group folds a controller's log
    (controller-log.ts), takes in an extension of one it has recorded (controller-ingest.ts), and relates
    a leaf's prefix to it ([prefixRelation] of embedded-resolver.ts). The log format, its fold and its merge
    are @kokuin/controller's: a class of operations, of which nothing is assumed. An event is the JSON the
    library signs. Folds that the code remembers are folded again here: a fold is a function of its log. *)

From S2P Require Import Prelude HubProtocol Json.

(** ** errors.ts *)

Inductive LeafBindingReason :=
  | missing_holder_evidence | holder_evidence_mismatch | issuer_mismatch | audience_mismatch
  | permission_denied | signature_invalid | confirmation_invalid | subject_mismatch | chain_depth
  | self_issued | child_outlives_parent | denied_issuer | denied_id | renewal_order | lifetime_cap
  | generation_floor | identity_change | controller_mismatch | floating_refused | history_horizon
  | member_removed | member_unavailable | epoch_cap.

Inductive RecoveryKnowledgeReason :=
  | lost_revocation | lost_removal | lost_epoch_event | lost_attestation | lost_floor | forked_log.

Inductive RevokeProofReason :=
  | no_rev | wrong_controller | not_authority_signed | not_endorsed | below_generation_floor | too_large
  | detached | needs_reset | time_regression | effects_mismatch | removes_mismatch.

#[export] Instance LeafBindingReason_eq_dec : EqDecision LeafBindingReason.
Proof. solve_decision. Defined.
#[export] Instance RecoveryKnowledgeReason_eq_dec : EqDecision RecoveryKnowledgeReason.
Proof. solve_decision. Defined.
#[export] Instance RevokeProofReason_eq_dec : EqDecision RevokeProofReason.
Proof. solve_decision. Defined.

(** What the lifecycle code throws. [OtherError] is an [Error] of the library or of no named class. *)
Inductive LifecycleError :=
  | LeafBindingError (reason : LeafBindingReason)
  | LeafLapsedError
  | RevokeProofError (reason : RevokeProofReason)
  | RecoveryKnowledgeError (reason : RecoveryKnowledgeReason)
  | OtherError (message : string).

#[export] Instance LifecycleError_eq_dec : EqDecision LifecycleError.
Proof. solve_decision. Defined.

Abbreviation checked := (result LifecycleError).

(** [if (b) throw e]. *)
Definition throwIf {E} (b : bool) (e : E) : result E unit := if b then Err e else Ok tt.

(** [for (const x of l) f(x)], where [f] may throw. *)
Fixpoint forEach {E A} (f : A -> result E unit) (l : list A) : result E unit :=
  match l with [] => Ok tt | x :: l' => match f x with Ok _ => forEach f l' | Err e => Err e end end.

Fixpoint foldM {E A S} (f : S -> A -> result E S) (l : list A) (s : S) : result E S :=
  match l with [] => Ok s | x :: l' => match f s x with Ok s' => foldM f l' s' | Err e => Err e end end.

(** *** Inversion: what a check that passed has passed *)

Lemma mbind_Ok {E A B} (m : result E A) (k : A -> result E B) b :
  m ≫= k = Ok b -> ∃ a, m = Ok a ∧ k a = Ok b.
Proof. destruct m as [a|e]; [|done]. intros H. by exists a. Qed.

Lemma fmap_Ok {E A B} (m : result E A) (f : A -> B) b : f <$> m = Ok b -> ∃ a, m = Ok a ∧ b = f a.
Proof. destruct m as [a|e]; [|done]. intros [= <-]. by exists a. Qed.

Lemma throwIf_Ok {E} b (e : E) u : throwIf b e = Ok u -> b = false.
Proof. by destruct b. Qed.

Lemma forEach_Ok {E A} (f : A -> result E unit) l :
  forEach f l = Ok tt <-> ∀ x, x ∈ l -> f x = Ok tt.
Proof.
  induction l as [|x l IH]; cbn [forEach]; [split; [by intros _ ? ?%elem_of_nil|done]|].
  destruct (f x) as [[]|e] eqn:Hf.
  - rewrite IH. split; [by intros H y [->|Hy]%elem_of_cons; auto|]. intros H y Hy. apply H. by right.
  - split; [done|]. intros H. rewrite <- Hf. apply H. by left.
Qed.

Lemma foldM_app {E A S} (f : S -> A -> result E S) l1 l2 s :
  foldM f (l1 ++ l2) s = foldM f l1 s ≫= foldM f l2.
Proof. revert s. induction l1 as [|x l1 IH]; intros s; cbn [foldM app]; [done|]. destruct (f s x); [apply IH|done]. Qed.

(** An invariant of a fold that may throw. *)
Lemma foldM_ind {E A S} (P : S -> Prop) (f : S -> A -> result E S) l s s' :
  (∀ x s s', x ∈ l -> f s x = Ok s' -> P s -> P s') -> foldM f l s = Ok s' -> P s -> P s'.
Proof.
  revert s. induction l as [|x l IH]; cbn [foldM]; intros s Hstep Hf Hp; [by injection Hf as <-|].
  destruct (f s x) as [s1|e] eqn:Hx; [|done]. eapply IH; [|done|].
  - intros y t t' Hy. apply Hstep. by right.
  - eapply Hstep; [by left|done..].
Qed.

(** Every step of a fold that passed has passed. *)
Lemma foldM_steps {E A S} (f : S -> A -> result E S) l s s' :
  foldM f l s = Ok s' -> ∀ x, x ∈ l -> ∃ t t', f t x = Ok t'.
Proof.
  revert s. induction l as [|y l IH]; cbn [foldM]; intros s Hf x Hx; [by apply elem_of_nil in Hx|].
  destruct (f s y) as [s1|e] eqn:Hy; [|done].
  apply elem_of_cons in Hx as [->|Hx]; [by exists s, s1|by eapply IH].
Qed.

Lemma is_ok_Ok {E A} (m : result E A) : is_ok m = true -> ∃ a, m = Ok a.
Proof. destruct m as [a|e]; [by exists a|done]. Qed.

(** Opens a hypothesis that a chain of checks passed, one check at a time. *)
Ltac passed H :=
  repeat lazymatch type of H with
  | (throwIf _ _ ≫= _) = Ok _ =>
    let Hg := fresh "Hguard" in apply mbind_Ok in H as ([] & Hg & H); apply throwIf_Ok in Hg
  | (Ok _ ≫= _) = Ok _ => cbn [mbind result_bind] in H
  | (_ ≫= _) = Ok _ => let Hs := fresh "Hstep" in apply mbind_Ok in H as (? & Hs & H)
  | throwIf _ _ = Ok _ => apply throwIf_Ok in H
  end.

(** [[...new Set(l)]]: each element once, where it first comes. *)
Definition setOf {A} `{EqDecision A} (l : list A) : list A := map fst (foldl (fun m x => jm_set x tt m) [] l).

(** ** What a group records of a controller (registry.ts, member-root.ts) *)

Record ControllerLog := mkControllerLog { cl_chain : list json; cl_events : list json }.

(** Where the log proves an effect: a rotation of the chain, a snapshot of a rotation into a new
    generation, or an epoch event, of the epoch it names if not of the last one. *)
Inductive ProofRef :=
  | ChainIndex (index : nat)
  | Snapshot (index : nat)
  | EventRef (event : string) (epoch : option string).

Record RemovedMember := mkRemoved { rm_did : string; rm_gen : num; rm_proofRef : ProofRef }.

(** A projection without its beacon. *)
Record Lifecycle := mkLifecycle {
  lc_recordedLog : option ControllerLog;
  lc_genFloor : Z;
  lc_timeFloor : num;
  lc_attestations : gmap string num;
  lc_removedMembers : gmap string RemovedMember;
  lc_survivorGrants : gmap string string;
}.

Definition freshLifecycle : Lifecycle := mkLifecycle None 0 (numZ 0) ∅ ∅ ∅.

#[export] Instance ProofRef_eq_dec : EqDecision ProofRef.
Proof. solve_decision. Defined.

(** ** @kokuin/controller and @kokuin/token *)

Record MemberState := mkMember {
  ms_did : string; ms_key : string; ms_lease : num; ms_effective : bool; ms_removed : bool;
}.

(** The state after a chain event. Maps keep their insertion order; the tombstones name removed members. *)
Record KeyState := mkKeyState {
  ks_digest : string;
  ks_epoch : string;
  ks_gen : Z;
  ks_deny : list string;
  ks_members : list (string * MemberState);
  ks_tombstones : list (string * string);
  ks_saturated : bool;
}.

(** One state per chain event, the state with the epoch's events, and the events it applied. *)
Record FoldOk := mkFold { fo_states : list KeyState; fo_head : KeyState; fo_applied : list string }.

Inductive FoldResult := Folded (f : FoldOk) | Unfolded (reason : string) (index : nat).

Class ControllerLib := {
  normalizeDID : string -> string;
  isControllerLog : json -> bool;
  isEpochEventShape : json -> bool;
  digestOf : option json -> string;
  foldLog : string -> ControllerLog -> FoldResult;
  deviceRevokeIndices : string -> list json -> string -> list nat;
  pruneLog : string -> ControllerLog -> ControllerLog;
  mergeLogs : string -> ControllerLog -> ControllerLog -> result string ControllerLog;
  authoritativeLog : string -> ControllerLog -> option ControllerLog -> result string (ControllerLog * FoldOk);
  didFromInception : option json -> string;
  resolveBranches : string -> list (list json) -> option (list json);
  decodeKey : string -> bytes;
  tryDecodeKey : string -> option (string * bytes);
  LOG_FORKED : string;
  LOG_NOT_AUTHORITATIVE : string;
  LOG_TOO_LARGE : string;
  localeCompare : string -> string -> Z;
  jsonSize : json -> Z;
}.

Section log.
Context {lib : ControllerLib}.

(** Two DIDs that name the same subject. *)
Definition sameDID (a b : string) : bool := bool_decide (normalizeDID a = normalizeDID b).

Definition event (signed : json) : option json := get "event" signed.
Definition eventField (key : string) (signed : json) : option json := event signed ≫= get key.
Definition eventType (signed : json) : option string := optString (eventField "t" signed).
Definition eventGen (signed : json) : num := numOf (eventField "g" signed).
Definition isEvent (t : string) (signed : json) : bool := bool_decide (eventType signed = Some t).

(** The value of a log, and a value the library vouches for as one. *)
Definition logValue (log : ControllerLog) : json :=
  JObj [("chain"%string, JArr (cl_chain log)); ("events"%string, JArr (cl_events log))].

Definition itemsOf (v : option json) : list json := match v with Some (JArr items) => items | _ => [] end.

Definition logOf (v : json) : ControllerLog := mkControllerLog (itemsOf (get "chain" v)) (itemsOf (get "events" v)).

(** ** controller-log.ts *)

Definition CHAIN_REVOKE_REFUSED : string := "chain revoke refused".

Definition asControllerLog (chain : list json) : ControllerLog := mkControllerLog chain [].

Definition hasChainRevoke (chain : list json) : bool := existsb (isEvent "rev") chain.

Definition foldControllerLog (did : string) (log : ControllerLog) : FoldResult :=
  match list_find (fun signed => isEvent "rev" signed = true) (cl_chain log) with
  | Some (index, _) => Unfolded CHAIN_REVOKE_REFUSED index
  | None => foldLog did log
  end.

Definition foldChain (did : string) (chain : list json) : FoldResult :=
  foldControllerLog did (asControllerLog chain).

(** [folded.states.at(-1)?.gen ?? 0]. *)
Definition lastGen (f : FoldOk) : Z := default 0%Z (ks_gen <$> last (fo_states f)).

Definition revokeIndices (did : string) (chain : list json) (subject : string) : list nat :=
  deviceRevokeIndices did chain subject.

(** Position [index] of the chain is a rotation whose states, before and after, satisfy [test]. *)
Definition rotationAt (test : KeyState -> KeyState -> bool) (chain : list json) (states : list KeyState)
    (index : nat) : bool :=
  match index with
  | O => false
  | S before =>
    match chain !! index, states !! index, states !! before with
    | Some signed, Some state, Some prior => isEvent "rot" signed && test prior state
    | _, _, _ => false
    end
  end.

Definition sameGen (prior state : KeyState) : bool := (ks_gen state =? ks_gen prior)%Z.

(** The rotations that keep the generation and satisfy [test]. *)
Definition rotationIndices (test : KeyState -> KeyState -> bool) (did : string) (chain : list json) : list nat :=
  match foldChain did chain with
  | Unfolded _ _ => []
  | Folded f =>
    filter (fun index => rotationAt (fun prior state => sameGen prior state && test prior state)
                           chain (fo_states f) index = true) (seq 1 (length chain - 1))
  end.

Definition liveMember (add : string) (state : KeyState) : bool :=
  match jm_get add (ks_members state) with Some member => negb (ms_removed member) | None => false end.

Definition memberDropIndices (did : string) (chain : list json) (add : string) : list nat :=
  rotationIndices (fun prior state => liveMember add prior && negb (jm_has add (ks_members state))) did chain.

Definition memberTombstoneIndices (did : string) (chain : list json) (add member : string) : list nat :=
  rotationIndices (fun prior state =>
    negb (jm_has add (ks_tombstones prior)) &&
    sameDID (default ""%string (jm_get add (ks_tombstones state))) member) did chain.

(** The digests an event names as its parents. *)
Definition parentsOf (signed : json) : list string := omap (fun v => optString (Some v)) (itemsOf (eventField "p" signed)).

(** The newest event first: one that is needed is kept, and needs its parents. *)
Definition closureStep (acc : list string * list json) (signed : json) : list string * list json :=
  if bool_decide (digestOf (event signed) ∈ acc.1) then (acc.1 ++ parentsOf signed, signed :: acc.2) else acc.

(** The chain with the applied events [targets] and their ancestors. *)
Definition closureOf (did : string) (log : ControllerLog) (targets : list string) : option ControllerLog :=
  match foldControllerLog did log with
  | Unfolded _ _ => None
  | Folded f =>
    if ks_saturated (fo_head f) then None
    else if existsb (fun digest => bool_decide (digest ∉ fo_applied f)) targets then None
    else Some (mkControllerLog (cl_chain log) (foldl closureStep (targets, []) (rev (cl_events (pruneLog did log)))).2)
  end.

(** [text.includes(part)]. *)
Definition includes (part text : string) : bool :=
  match String.index 0 part text with Some _ => true | None => false end.

Definition isDetachedFoldReason (reason : string) : bool := includes "sequence" reason || includes "digest" reason.

(** ** controller-ingest.ts *)

Record IngestedControllerLog := mkIngested {
  ig_log : ControllerLog;
  ig_before : option FoldOk;
  ig_after : FoldOk;
  ig_introduced : list string;
}.

Definition notNull (v : option json) : bool := match v with None | Some JNull => false | Some _ => true end.

(** [first.p !== digest], for a digest that may be [undefined]. *)
Definition follows (p : option json) (digest : option string) : bool :=
  match p, digest with
  | Some (JStr p), Some d => bool_decide (p = d)
  | None, None => true
  | _, _ => false
  end.

Definition authorityEvent (signed : json) : bool :=
  (isEvent "icp" signed || isEvent "rot" signed) && negb (notNull (eventField "cap" signed)).

(** Two neighbouring states with one digest: a chain event that folded to nothing. *)
Definition stutters (states : list KeyState) : bool :=
  existsb (fun p => bool_decide (ks_digest p.1 = ks_digest p.2)) (zip states (tail states)).

(** An event newly applied may not be by a member that was out: removed, ineffective, or a tombstone of
    the registry for the same device. *)
Definition endorsed (before : option FoldOk) (previous : option Lifecycle) (introduced : list string)
    (signed : json) : bool :=
  match eventField "by" signed with
  | Some (JStr by') =>
    if negb (isEpochEventShape signed) || negb (bool_decide (digestOf (event signed) ∈ introduced)) then true
    else
      let author := before ≫= fun f => jm_get by' (ks_members (fo_head f)) in
      let tombstone := previous ≫= fun p => lc_removedMembers p !! by' in
      negb (match tombstone, author with
            | None, _ => false
            | Some _, None => true
            | Some t, Some a => sameDID (rm_did t) (ms_did a)
            end || match author with Some a => ms_removed a || negb (ms_effective a) | None => false end)
  | _ => true
  end.

(** The chain that a proof stands for: the whole of it, or the recorded chain it continues. *)
Definition joinedChain (recorded : option ControllerLog) (before : option FoldOk) (proof : ControllerLog) :
    checked (list json) :=
  match head (cl_chain proof) with
  | None => match recorded with None => Err (RevokeProofError detached) | Some r => Ok (cl_chain r) end
  | Some first =>
    if isEvent "icp" first then Ok (cl_chain proof)
    else match recorded, before with
    | Some r, Some b =>
      if negb (follows (eventField "p" first) (ks_digest <$> last (fo_states b))) then Err (RevokeProofError detached)
      else if existsb (fun signed => nlt (numZ (ks_gen (fo_head b))) (eventGen signed)) (cl_chain proof)
      then Err (RevokeProofError needs_reset)
      else Ok (cl_chain r ++ cl_chain proof)
    | _, _ => Err (RevokeProofError detached)
    end
  end.

(** The failure of the library's merge, as the lifecycle names it. *)
Definition mergeError (message : string) : LifecycleError :=
  RevokeProofError (if includes LOG_FORKED message || includes LOG_NOT_AUTHORITATIVE message ||
                       isDetachedFoldReason message then detached else not_authority_signed).

Definition authoritative (did : string) (recorded : option ControllerLog) (joined : ControllerLog) :
    result string (ControllerLog * FoldOk) :=
  loaded ← (match recorded with None => Ok joined | Some r => mergeLogs did r joined end);
  authoritativeLog did loaded recorded.

Definition ingestControllerLog (controller : string) (recorded : option ControllerLog) (proof : ControllerLog)
    (previous : option Lifecycle) : checked IngestedControllerLog :=
  let did := normalizeDID controller in
  before ← (match recorded with
    | None => Ok None
    | Some r => match foldControllerLog did r with
                | Folded f => Ok (Some f)
                | Unfolded _ _ => Err (RevokeProofError not_authority_signed)
                end
    end);
  throwIf (negb (isControllerLog (logValue proof))) (RevokeProofError not_authority_signed) ;;
  chain ← joinedChain recorded before proof;
  throwIf (negb (forallb authorityEvent chain)) (RevokeProofError not_authority_signed) ;;
  folded ← (match foldControllerLog did (asControllerLog chain) with
    | Folded f => Ok f
    | Unfolded reason _ =>
      Err (RevokeProofError (if isDetachedFoldReason reason then detached else not_authority_signed))
    end);
  throwIf (stutters (fo_states folded)) (RevokeProofError not_authority_signed) ;;
  throwIf (match head (cl_chain proof), before with
           | Some first, Some b => isEvent "icp" first && (ks_gen (fo_head folded) <=? ks_gen (fo_head b))%Z
           | _, _ => false
           end) (RevokeProofError detached) ;;
  merged ← (match authoritative did recorded (mkControllerLog chain (cl_events proof)) with
    | Err message => Err (mergeError message)
    | Ok merged => Ok merged
    end);
  let '(log, after) := (merged : ControllerLog * FoldOk) in
  let introduced := filter (fun digest => digest ∉ default [] (fo_applied <$> before)) (fo_applied after) in
  throwIf (negb (forallb (endorsed before previous introduced) (cl_events proof))) (RevokeProofError not_endorsed) ;;
  Ok (mkIngested log before after introduced).

Record EffectDelta := mkDelta {
  ed_denied : list string;
  ed_removed : list (string * string);
  ed_generation : bool;
}.

Definition denials (state : option KeyState) : list string :=
  normalizeDID <$> filter (fun target => String.prefix "did:" target = true) (default [] (ks_deny <$> state)).

(** By device, then by incarnation, as [localeCompare] orders them. *)
Definition removalOrder (a b : string * string) : Prop :=
  let byDID := localeCompare a.1 b.1 in
  ((if byDID =? 0 then localeCompare a.2 b.2 else byDID) <= 0)%Z.

#[export] Instance removalOrder_dec a b : Decision (removalOrder a b).
Proof. unfold removalOrder. apply _. Defined.

(** An effective member of [before] that is no longer effective under the same device. *)
Definition lostMember (after : KeyState) (entry : string * MemberState) : bool :=
  ms_effective entry.2 &&
  negb (match jm_get entry.1 (ks_members after) with
        | Some held => ms_effective held && sameDID (ms_did held) (ms_did entry.2)
        | None => false
        end).

Definition effectDelta (before : option KeyState) (after : KeyState) : EffectDelta :=
  let prior := denials before in
  mkDelta
    (merge_sort sle (remove_dups (filter (fun did => did ∉ prior) (denials (Some after)))))
    (merge_sort removalOrder
      ((fun entry => (normalizeDID (ms_did entry.2), entry.1)) <$>
         filter (fun entry => lostMember after entry = true) (default [] (ks_members <$> before))))
    (negb (ks_gen after =? default 0 (ks_gen <$> before))%Z).

(** ** embedded-resolver.ts: [prefixRelation] *)

Inductive PrefixRelation := Contained | Ahead | Forked | NoRelation.

Definition prefixRelation (recorded : option ControllerLog) (prefix : list json) : PrefixRelation :=
  match recorded, last prefix with
  | Some log, Some carried =>
    match last (cl_chain log) with
    | None => NoRelation
    | Some held =>
      let carries := existsb (fun signed => bool_decide (digestOf (event signed) = digestOf (event carried))) in
      let holds := existsb (fun signed => bool_decide (digestOf (event signed) = digestOf (event held))) in
      if carries (cl_chain log) then Contained else if holds prefix then Ahead else Forked
    end
  | _, _ => NoRelation
  end.

(** ** history.ts: sizes *)

Definition HISTORY_HORIZON : Z := 393216.
Definition MAX_EPOCH_EVENTS_FOR_LEAVES : nat := 32.

Definition controllerLogSize (events : list json) : Z := foldl (fun total event => (total + jsonSize event)%Z) 0%Z events.

Definition proofSize (value : option json) : Z :=
  match value with
  | Some v => if isControllerLog v
              then (controllerLogSize (cl_chain (logOf v)) + controllerLogSize (cl_events (logOf v)))%Z else 0%Z
  | None => 0%Z
  end.
End log.
