(* ===== verification/GroupFold.v ===== *)
(** * Folding a group's control ledger

    packages/mls/src: the generic fold (fold.ts), the role reducer and roster (roster.ts), the device
    registry of an ordinary group and the two folds over it, [foldControl] (registry.ts), which replays
    the whole ledger, and [foldEnvelope] (envelope-fold.ts), which judges one commit's entries. The
    branch of [registryApply] that a lifecycle group takes is a parameter here, and every theorem holds for
    any function in its place; LifecycleRegistry.v is that branch. *)

From S2P Require Import Prelude HubProtocol Json ControllerLog.

(** ** Ledger entries (ledger.ts) *)

Record LedgerEntry (V : Type) := mkLedgerEntry {
  le_type : string;
  le_groupID : string;
  le_subject : string;
  le_value : V;
}.
Arguments mkLedgerEntry {V}. Arguments le_type {V}. Arguments le_groupID {V}.
Arguments le_subject {V}. Arguments le_value {V}.

Record VerifiedLedgerEntry (V : Type) := mkVerified { ve_issuer : string; ve_entry : LedgerEntry V }.
Arguments mkVerified {V}. Arguments ve_issuer {V}. Arguments ve_entry {V}.

Record FoldInput (V : Type) := mkFoldInput { fi_verified : VerifiedLedgerEntry V; fi_entryID : string }.
Arguments mkFoldInput {V}. Arguments fi_verified {V}. Arguments fi_entryID {V}.

(** [{ ...entry, value }]. *)
Definition withValue {V W : Type} (value : W) (e : LedgerEntry V) : LedgerEntry W :=
  mkLedgerEntry (le_type e) (le_groupID e) (le_subject e) value.

(** The genesis anchor (anchor.ts). The folds read its creator and its controller. *)
Record GroupAnchor := mkAnchor {
  ga_creatorDID : string;
  ga_version : number;
  ga_controller : option string;
  ga_leafLifetime : option Z;
  ga_trustedGrantLifetime : option Z;
  ga_app : option json;
}.

(** ** fold.ts *)

Record LedgerReducer (V State : Type) := mkReducer {
  lr_type : string;
  lr_seed : GroupAnchor -> State;
  lr_verifyAuthority : VerifiedLedgerEntry V -> State -> bool;
  lr_apply : VerifiedLedgerEntry V -> State -> State;
}.
Arguments mkReducer {V State}. Arguments lr_type {V State}. Arguments lr_seed {V State}.
Arguments lr_verifyAuthority {V State}. Arguments lr_apply {V State}.

Inductive DropReason := UnrelatedType | NotAuthorized.

(** One turn of the loop: the next state, and the drop reported to [onDrop]. *)
Definition foldStep {V State} (reducer : LedgerReducer V State) (state : State) (input : FoldInput V) :
    State * option (string * DropReason) :=
  let verified := fi_verified input in
  if negb (bool_decide (le_type (ve_entry verified) = lr_type reducer))
  then (state, Some (fi_entryID input, UnrelatedType))
  else if negb (lr_verifyAuthority reducer verified state)
  then (state, Some (fi_entryID input, NotAuthorized))
  else (lr_apply reducer verified state, None).

Definition foldLedger {V State} (entries : list (FoldInput V)) (anchor : GroupAnchor)
    (reducer : LedgerReducer V State) : State * list (string * DropReason) :=
  foldl (fun acc input =>
    let '(state, drop) := foldStep reducer acc.1 input in
    (state, acc.2 ++ option_list drop)) (lr_seed reducer anchor, []) entries.

(** ** roster.ts *)

Inductive GroupPermission := Admin | Member.

#[export] Instance GroupPermission_eq_dec : EqDecision GroupPermission.
Proof. solve_decision. Defined.

Definition ROLE_ENTRY_TYPE : string := "kumiai.role".
Definition DEVICE_ENTRY_TYPE : string := "kumiai.device".
Definition GROUP_TYPE_PREFIX : string := "kumiai.".

Abbreviation RosterState := (gmap string GroupPermission).

Definition adminCount (state : RosterState) : nat := size (filter (fun kv => kv.2 = Admin) state).

Section fold.
(** @kokuin/token's DID normalisation, @kokuin/controller's [isControllerLog], and the lifecycle branch
    of [registryApply]. *)
Context (normalizeDID : string -> string) (isControllerLog : json -> bool).

Definition roleReducer : LedgerReducer GroupPermission RosterState :=
  mkReducer ROLE_ENTRY_TYPE
    (fun anchor => {[normalizeDID (default (ga_creatorDID anchor) (ga_controller anchor)) := Admin]})
    (fun verified stateSoFar => bool_decide (stateSoFar !! normalizeDID (ve_issuer verified) = Some Admin))
    (fun verified stateSoFar =>
       <[normalizeDID (le_subject (ve_entry verified)) := le_value (ve_entry verified)]> stateSoFar).

Definition foldRoster (entries : list (FoldInput GroupPermission)) (anchor : GroupAnchor) (groupID : string) :
    RosterState * list (string * DropReason) :=
  foldLedger entries anchor
    (mkReducer (lr_type roleReducer) (lr_seed roleReducer)
      (fun verified stateSoFar =>
         if negb (bool_decide (le_groupID (ve_entry verified) = groupID)) then false
         else if negb (lr_verifyAuthority roleReducer verified stateSoFar) then false
         else (0 <? adminCount (lr_apply roleReducer verified stateSoFar))%nat)
      (lr_apply roleReducer)).

(** ** registry.ts: device values *)

Inductive DeviceOp :=
  | op_register | op_add | op_revoke | op_label | op_beacon | op_reset | op_clock | op_log | op_seed.

#[export] Instance DeviceOp_eq_dec : EqDecision DeviceOp.
Proof. solve_decision. Defined.

Definition opOf (v : json) : option DeviceOp :=
  match get "op" v with
  | Some (JStr s) =>
    if decide (s = "register") then Some op_register
    else if decide (s = "add") then Some op_add
    else if decide (s = "revoke") then Some op_revoke
    else if decide (s = "label") then Some op_label
    else if decide (s = "beacon") then Some op_beacon
    else if decide (s = "reset") then Some op_reset
    else if decide (s = "clock") then Some op_clock
    else if decide (s = "log") then Some op_log
    else if decide (s = "seed") then Some op_seed
    else None
  | _ => None
  end%string.

Definition controllerLog (v : option json) : bool :=
  match v with Some log => isControllerLog log | None => false end.

Definition isRevokedEffect (v : json) : bool :=
  isObject (Some v) && isString (get "did" v) && optional isString (get "cascadedFrom" v).

Definition isRemovedEffect (v : json) : bool :=
  isObject (Some v) && isString (get "did" v) && isString (get "cascadedFrom" v).

Definition nonNegative (v : option json) : bool :=
  match v with Some (JNum (Int z)) => (0 <=? z)%Z | _ => false end.

Definition isProofRef (v : option json) : bool :=
  match v with
  | Some ref =>
    isObject v &&
    let keys := match ref with JObj fields => map fst fields | _ => [] end in
    ((length keys =? 1)%nat && (nonNegative (get "chainIndex" ref) || nonNegative (get "snapshot" ref))) ||
    (isObject v && isString (get "event" ref) &&
     forallb (fun key => bool_decide (key = "event" ∨ key = "epoch")%string) keys &&
     optional isString (get "epoch" ref))
  | None => false
  end.

Definition isEffectClaim (v : json) : bool :=
  isObject (Some v) &&
  match get "kind" v with
  | Some (JStr kind) =>
    if decide (kind = "deny")%string then isString (get "did" v)
    else if decide (kind = "remove")%string then
      isObject (get "member" v) &&
      match get "member" v with
      | Some member => isString (get "did" member) && isString (get "add" member)
      | None => false
      end
    else false
  | _ => false
  end && isProofRef (get "ref" v).

Definition isDeviceValue (v : json) : bool :=
  match opOf v with
  | None => false
  | Some op =>
    let logBearing := bool_decide (op = op_log ∨ op = op_seed) in
    let proofBearing := logBearing || bool_decide (op = op_reset) ||
                        (bool_decide (op = op_revoke) && has "proof" v) in
    let effects := has "revoked" v || has "effects" v || has "removed" v || has "survivors" v in
    negb (negb proofBearing && (has "proof" v || effects)) &&
    negb (logBearing && (negb (controllerLog (get "proof" v)) || effects || has "capability" v)) &&
    negb (bool_decide (op = op_register ∨ op = op_add) && negb (isString (get "controller" v))) &&
    negb (bool_decide (op = op_beacon) && (negb (isNumber (get "logLength" v)) || negb (isString (get "headDigest" v)))) &&
    optional isString (get "label" v) && optional isString (get "controller" v) &&
    optional isString (get "capability" v) && optional isNumber (get "logLength" v) &&
    optional isString (get "headDigest" v) &&
    match get "time" v with None => true | Some (JNum (Infinite _)) => false | Some (JNum _) => true | _ => false end &&
    optional controllerLog (get "proof" v) &&
    optional (everyItem isRevokedEffect) (get "revoked" v) &&
    negb (bool_decide (op = op_clock) && negb (isNumber (get "time" v))) &&
    match get "attest" v with
    | None => true
    | Some (JBool true) => bool_decide (op = op_clock)
    | Some _ => false
    end &&
    negb (negb logBearing && (bool_decide (op = op_reset) || has "proof" v) &&
          (negb (controllerLog (get "proof" v)) || negb (isArray (get "revoked" v)) ||
           negb (isArray (get "effects" v)) || negb (isArray (get "removed" v)))) &&
    optional (everyItem isEffectClaim) (get "effects" v) &&
    optional (everyItem isRemovedEffect) (get "removed" v) &&
    optional (everyItem (fun raw => isString (Some raw))) (get "survivors" v)
  end.

Definition isLifecycleDeviceValue (v : json) : bool :=
  isDeviceValue v &&
  match opOf v with
  | Some op_beacon | Some op_clock | Some op_log | Some op_seed => true
  | Some op_revoke | Some op_reset => has "proof" v && has "revoked" v && negb (has "capability" v)
  | _ => false
  end.

(** ** registry.ts: the registry *)

Inductive DeviceStatus := Active | Revoked.

#[export] Instance DeviceStatus_eq_dec : EqDecision DeviceStatus.
Proof. solve_decision. Defined.

(** [dr_reset] is [reason === 'reset']. *)
Record DeviceRecord := mkDeviceRecord {
  dr_controller : string;
  dr_status : DeviceStatus;
  dr_label : option string;
  dr_proofRef : option ProofRef;
  dr_reset : bool;
  dr_cascadedFrom : option string;
}.

Record ControllerBeacon := mkBeacon { cb_logLength : number; cb_headDigest : string }.

(** The advisory beacon, and the part of a projection only lifecycle entries write. *)
Record ControllerProjection := mkProjection { cp_beacon : option ControllerBeacon; cp_lifecycle : Lifecycle }.

Record DeviceRegistry := mkRegistry {
  reg_devices : gmap string DeviceRecord;
  reg_controllers : gmap string ControllerProjection;
}.

Definition registrySeed : DeviceRegistry := mkRegistry ∅ ∅.

Definition controllerProjection : ControllerProjection := mkProjection None freshLifecycle.

Definition isResetOnly (record : DeviceRecord) : bool :=
  bool_decide (dr_status record = Revoked) && dr_reset record && bool_decide (dr_cascadedFrom record = None).

Definition controllerOf (registry : DeviceRegistry) (deviceDID : string) : option string :=
  dr_controller <$> reg_devices registry !! normalizeDID deviceDID.

Definition denied (registry : DeviceRegistry) (did : string) : bool :=
  match reg_devices registry !! did with Some r => bool_decide (dr_status r = Revoked) | None => false end.

Definition authority (registry : DeviceRegistry) (issuer : string) : string :=
  let norm := normalizeDID issuer in
  match reg_devices registry !! norm with
  | Some record => if bool_decide (dr_status record = Active) then dr_controller record else norm
  | None => norm
  end.


(** The lifecycle branch of [registryApply]: it may throw ([None]). *)
Context (lifecycleApply : VerifiedLedgerEntry json -> DeviceRegistry -> string -> option DeviceRegistry).

Definition isLifecycleOp (op : DeviceOp) : bool :=
  match op with op_reset | op_revoke | op_clock | op_log | op_seed => true | _ => false end.

Definition setDevice (did : string) (r : DeviceRecord) (state : DeviceRegistry) : DeviceRegistry :=
  mkRegistry (<[did := r]> (reg_devices state)) (reg_controllers state).

Definition registryApply (verified : VerifiedLedgerEntry json) (state : DeviceRegistry)
    (controllerID : option string) : option DeviceRegistry :=
  let subject := normalizeDID (le_subject (ve_entry verified)) in
  let value := le_value (ve_entry verified) in
  let existing := reg_devices state !! subject in
  match opOf value with
  | None => Some state
  | Some op =>
    match controllerID, isLifecycleOp op with
    | Some controller, true => lifecycleApply verified state controller
    | _, _ =>
      Some match op with
      | op_register | op_add =>
        match existing with
        | Some r =>
          if bool_decide (dr_status r = Revoked) && negb (isResetOnly r) then state
          else setDevice subject (mkDeviceRecord (normalizeDID (stringOf (get "controller" value))) Active
                 (if has "label" value then optString (get "label" value) else dr_label r) None false None) state
        | None =>
          setDevice subject (mkDeviceRecord (normalizeDID (stringOf (get "controller" value))) Active
            (optString (get "label" value)) None false None) state
        end
      | op_revoke =>
        match existing with
        | None => state
        | Some r => setDevice subject (mkDeviceRecord (dr_controller r) Revoked (dr_label r) (dr_proofRef r)
                                         false (dr_cascadedFrom r)) state
        end
      | op_reset | op_clock | op_log | op_seed => state
      | op_label =>
        match existing with
        | None => state
        | Some r => setDevice subject (mkDeviceRecord (dr_controller r) (dr_status r)
                      (if has "label" value then optString (get "label" value) else dr_label r)
                      (dr_proofRef r) (dr_reset r) (dr_cascadedFrom r)) state
        end
      | op_beacon =>
        let previous := default controllerProjection (reg_controllers state !! subject) in
        mkRegistry (reg_devices state)
          (<[subject := mkProjection (Some (mkBeacon (numberOf (get "logLength" value))
                                             (stringOf (get "headDigest" value))))
                          (cp_lifecycle previous)]> (reg_controllers state))
      end
    end
  end.

(** ** [foldControl] *)

Inductive ControlDrop :=
  | CrossGroup | MalformedDevice | NotInLifecycle | InvalidProof | Unrelated | InvalidRole
  | NotAdmin | EmptiesAdmins.

Definition roleValue (v : json) : option GroupPermission :=
  match v with
  | JStr s => if decide (s = "admin")%string then Some Admin
              else if decide (s = "member")%string then Some Member else None
  | _ => None
  end.

Definition applyRole (issuer : string) (entry : LedgerEntry json) (permission : GroupPermission)
    (roster : RosterState) : RosterState :=
  lr_apply roleReducer (mkVerified issuer (withValue permission entry)) roster.

Record Control := mkControl { ct_roster : RosterState; ct_registry : DeviceRegistry }.

(** One entry of the replay: the next state, or why the entry is dropped. *)
Definition controlStep (anchor : GroupAnchor) (groupID : string) (position : nat)
    (verified : VerifiedLedgerEntry json) (state : Control) : Control * option ControlDrop :=
  let entry := ve_entry verified in
  let value := le_value entry in
  if negb (bool_decide (le_groupID entry = groupID)) then (state, Some CrossGroup)
  else if bool_decide (le_type entry = DEVICE_ENTRY_TYPE) then
    if negb (isDeviceValue value) then (state, Some MalformedDevice)
    else if bool_decide (ga_controller anchor ≠ None) && negb (isLifecycleDeviceValue value)
    then (state, Some NotInLifecycle)
    else if bool_decide (opOf value = Some op_seed) && negb (position =? 0)%nat then (state, Some InvalidProof)
    else match registryApply verified (ct_registry state) (ga_controller anchor) with
    | Some registry => (mkControl (ct_roster state) registry, None)
    | None => (state, Some InvalidProof)
    end
  else if bool_decide (ga_controller anchor ≠ None) || negb (bool_decide (le_type entry = ROLE_ENTRY_TYPE))
  then (state, Some Unrelated)
  else match roleValue value with
  | None => (state, Some InvalidRole)
  | Some permission =>
    if negb (bool_decide (ct_roster state !! authority (ct_registry state) (ve_issuer verified) = Some Admin))
    then (state, Some NotAdmin)
    else
      let next := applyRole (ve_issuer verified) entry permission (ct_roster state) in
      if (adminCount next =? 0)%nat then (state, Some EmptiesAdmins)
      else (mkControl next (ct_registry state), None)
  end.

Definition controlSeed (anchor : GroupAnchor) : Control := mkControl (lr_seed roleReducer anchor) registrySeed.

Fixpoint controlFrom (anchor : GroupAnchor) (groupID : string) (position : nat)
    (entries : list (FoldInput json)) (state : Control) : Control :=
  match entries with
  | [] => state
  | input :: rest =>
    controlFrom anchor groupID (S position) rest
      (controlStep anchor groupID position (fi_verified input) state).1
  end.

Definition foldControl (entries : list (FoldInput json)) (anchor : GroupAnchor) (groupID : string) : Control :=
  controlFrom anchor groupID 0 entries (controlSeed anchor).

(** ** [foldEnvelope] *)

Record FoldEnvelopeContext := mkEnvelopeContext {
  ec_controllerID : string;
  ec_memberController : string -> option string;
}.

Inductive EnvelopeReject :=
  | RejectCrossGroup | RejectMalformedDevice | RejectDeviceOp | RejectProof | RejectReserved
  | RejectUnbound | RejectNonAdmin | RejectRole | RejectEmptyAdmins | RejectUnknownKumiai.

Record Envelope := mkEnvelope {
  en_roster : RosterState;
  en_registry : DeviceRegistry;
  en_surfaced : list (VerifiedLedgerEntry json);
}.

Definition deviceAllowed (context : option FoldEnvelopeContext) (value : json) : bool :=
  match context with
  | Some _ => isLifecycleDeviceValue value
  | None => negb (bool_decide (opOf value = Some op_reset) || bool_decide (opOf value = Some op_clock) ||
                  has "proof" value)
  end.

Definition envelopeStep (groupID : string) (context : option FoldEnvelopeContext)
    (verified : VerifiedLedgerEntry json) (w : Envelope) : result EnvelopeReject Envelope :=
  let entry := ve_entry verified in
  let value := le_value entry in
  let issuer := ve_issuer verified in
  if negb (bool_decide (le_groupID entry = groupID)) then Err RejectCrossGroup
  else if bool_decide (le_type entry = DEVICE_ENTRY_TYPE) then
    if negb (isDeviceValue value) then Err RejectMalformedDevice
    else if negb (deviceAllowed context value) then Err RejectDeviceOp
    else match registryApply verified (en_registry w) (ec_controllerID <$> context) with
    | Some registry => Ok (mkEnvelope (en_roster w) registry (en_surfaced w))
    | None => Err RejectProof
    end
  else match context with
  | Some c =>
    if String.prefix GROUP_TYPE_PREFIX (le_type entry) then Err RejectReserved
    else match ec_memberController c (normalizeDID issuer) with
    | None => Err RejectUnbound
    | Some bound =>
      if negb (bool_decide (normalizeDID bound = normalizeDID (ec_controllerID c))) then Err RejectUnbound
      else Ok (mkEnvelope (en_roster w) (en_registry w) (en_surfaced w ++ [verified]))
    end
  | None =>
    if negb (bool_decide (en_roster w !! authority (en_registry w) issuer = Some Admin)) then Err RejectNonAdmin
    else if bool_decide (le_type entry = ROLE_ENTRY_TYPE) then
      match roleValue value with
      | None => Err RejectRole
      | Some permission =>
        let roster := applyRole issuer entry permission (en_roster w) in
        if (adminCount roster =? 0)%nat then Err RejectEmptyAdmins
        else Ok (mkEnvelope roster (en_registry w) (en_surfaced w))
      end
    else if String.prefix GROUP_TYPE_PREFIX (le_type entry) then Err RejectUnknownKumiai
    else Ok (mkEnvelope (en_roster w) (en_registry w) (en_surfaced w ++ [verified]))
  end.

(** A rejection names the entry it is about. *)
Fixpoint envelopeFrom (groupID : string) (context : option FoldEnvelopeContext)
    (entries : list (FoldInput json)) (w : Envelope) : result (EnvelopeReject * string) Envelope :=
  match entries with
  | [] => Ok w
  | input :: rest =>
    match envelopeStep groupID context (fi_verified input) w with
    | Err reason => Err (reason, fi_entryID input)
    | Ok w => envelopeFrom groupID context rest w
    end
  end.

Definition foldEnvelope (base : Control) (entries : list (FoldInput json)) (groupID : string)
    (context : option FoldEnvelopeContext) : result (EnvelopeReject * string) Envelope :=
  envelopeFrom groupID context entries (mkEnvelope (ct_roster base) (ct_registry base) []).
End fold.
