(* ===== verification/GroupFoldSpec.v ===== *)
(** * What the control folds guarantee

    Theorems about GroupFold.v: the strict fold of a commit's envelope agrees with the lenient replay of
    the whole ledger, a group always keeps an admin and every admin descends from the anchor, and a
    revoked device stays revoked. *)

From S2P Require Import Prelude Json ControllerLog GroupFold.

Section fold_facts.
Context (normalizeDID : string -> string) (isControllerLog : json -> bool)
        (lifecycleApply : VerifiedLedgerEntry json -> DeviceRegistry -> string -> option DeviceRegistry).

Abbreviation AUTH := (authority normalizeDID).
Abbreviation STEP := (controlStep normalizeDID isControllerLog lifecycleApply).
Abbreviation FROM := (controlFrom normalizeDID isControllerLog lifecycleApply).
Abbreviation CONTROL := (foldControl normalizeDID isControllerLog lifecycleApply).
Abbreviation ESTEP := (envelopeStep normalizeDID isControllerLog lifecycleApply).
Abbreviation EFROM := (envelopeFrom normalizeDID isControllerLog lifecycleApply).
Abbreviation ENVELOPE := (foldEnvelope normalizeDID isControllerLog lifecycleApply).
Abbreviation DEVICE_VALUE := (isDeviceValue isControllerLog).

Definition isSeed (input : FoldInput json) : bool :=
  bool_decide (opOf (le_value (ve_entry (fi_verified input))) = Some op_seed).

Definition isConsumer (input : FoldInput json) : bool :=
  negb (String.prefix GROUP_TYPE_PREFIX (le_type (ve_entry (fi_verified input)))).

(** The context [group-handle.ts] builds for the anchor of its group. *)
Definition contextOf (anchor : GroupAnchor) (memberController : string -> option string) :
    option FoldEnvelopeContext :=
  (fun c => mkEnvelopeContext c memberController) <$> ga_controller anchor.

(** ** Splitting a replay *)

Lemma controlFrom_app anchor groupID position a b state :
  FROM anchor groupID position (a ++ b) state =
  FROM anchor groupID (position + length a) b (FROM anchor groupID position a state).
Proof.
  revert position state. induction a as [|input a IH]; intros position state; cbn [app controlFrom length].
  - by rewrite Nat.add_0_r.
  - rewrite IH. f_equal. lia.
Qed.

Lemma foldControl_snoc anchor groupID entries input :
  CONTROL (entries ++ [input]) anchor groupID =
  (STEP anchor groupID (length entries) (fi_verified input) (CONTROL entries anchor groupID)).1.
Proof. unfold foldControl. rewrite controlFrom_app. done. Qed.

(** ** The two folds agree *)

(** An ordinary group's envelope carries no proof, so a seed, whose value must, is refused. *)
Lemma seed_has_proof v :
  opOf v = Some op_seed -> DEVICE_VALUE v = true -> has "proof" v = true.
Proof.
  unfold isDeviceValue. intros ->. rewrite !andb_true_iff. unfold has, controllerLog, negb at 1.
  intros H. destruct (get "proof" v); [done|]. naive_solver.
Qed.

Lemma kumiai_prefix_device : String.prefix GROUP_TYPE_PREFIX DEVICE_ENTRY_TYPE = true.
Proof. done. Qed.

(** What the strict fold accepts, the replay does too, with the same effect. *)
Lemma envelopeStep_control anchor memberController groupID position verified w w' :
  (ga_controller anchor ≠ None -> opOf (le_value (ve_entry verified)) ≠ Some op_seed) ->
  ESTEP groupID (contextOf anchor memberController) verified w = Ok w' ->
  (STEP anchor groupID position verified (mkControl (en_roster w) (en_registry w))).1 =
    mkControl (en_roster w') (en_registry w') ∧
  en_surfaced w' = en_surfaced w ++
    (if String.prefix GROUP_TYPE_PREFIX (le_type (ve_entry verified)) then [] else [verified]).
Proof.
  unfold envelopeStep, controlStep. intros Hseed. cbn [ct_roster ct_registry].
  destruct (negb (bool_decide (le_groupID (ve_entry verified) = groupID))); [done|].
  case_bool_decide as Htype.
  - rewrite Htype, kumiai_prefix_device, app_nil_r.
    destruct (DEVICE_VALUE (le_value (ve_entry verified))) eqn:Hvalue; [|done]. cbn [negb].
    assert (bool_decide (opOf (le_value (ve_entry verified)) = Some op_seed) && negb (position =? 0) = true ->
            deviceAllowed isControllerLog (contextOf anchor memberController) (le_value (ve_entry verified)) = false)
      as Hs.
    { intros [Hop%bool_decide_eq_true _]%andb_true_iff. unfold contextOf in *.
      destruct (ga_controller anchor); [by destruct (Hseed ltac:(done))|]. cbn.
      rewrite seed_has_proof by done. by rewrite !orb_true_r. }
    destruct (deviceAllowed _ _ _) eqn:Hallowed; [|done]. cbn [negb].
    destruct (bool_decide (opOf _ = Some op_seed) && _); [by specialize (Hs eq_refl)|].
    assert (bool_decide (ga_controller anchor ≠ None) &&
            negb (isLifecycleDeviceValue isControllerLog (le_value (ve_entry verified))) = false) as ->.
    { unfold contextOf in Hallowed. destruct (ga_controller anchor); cbn in Hallowed.
      - by rewrite Hallowed, andb_false_r.
      - by rewrite bool_decide_eq_false_2 by auto. }
    assert (ec_controllerID <$> contextOf anchor memberController = ga_controller anchor) as ->
      by (unfold contextOf; by destruct (ga_controller anchor)).
    destruct (registryApply _ _ _ _ _) as [registry|]; [|done]. by intros [= <-].
  - unfold contextOf. destruct (ga_controller anchor) as [c|]; cbn [fmap option_fmap option_map].
    + destruct (String.prefix _ _); [done|]. destruct (ec_memberController _ _) as [bound|]; [|done].
      destruct (negb (bool_decide (normalizeDID bound = _))); [done|]. intros [= <-]. by rewrite bool_decide_eq_true_2.
    + rewrite (bool_decide_eq_false_2 (@None string ≠ None)) by auto. cbn [orb].
      destruct (bool_decide (en_roster w !! _ = Some Admin)) eqn:Hadmin; [|done]. cbn [negb].
      destruct (bool_decide (le_type (ve_entry verified) = ROLE_ENTRY_TYPE)) eqn:Hrole; cbn [negb].
      * apply bool_decide_eq_true in Hrole. destruct (roleValue _) as [permission|]; [|done].
        destruct (adminCount _ =? 0); [done|]. intros [= <-]. rewrite Hrole, app_nil_r. done.
      * destruct (String.prefix _ _); [done|]. by intros [= <-].
Qed.

Lemma envelopeFrom_control anchor memberController groupID entries : ∀ position w w',
  (ga_controller anchor ≠ None -> Forall (λ input, isSeed input = false) entries) ->
  EFROM groupID (contextOf anchor memberController) entries w = Ok w' ->
  FROM anchor groupID position entries (mkControl (en_roster w) (en_registry w)) =
    mkControl (en_roster w') (en_registry w') ∧
  en_surfaced w' = en_surfaced w ++ map fi_verified (filter (λ input, isConsumer input = true) entries).
Proof.
  induction entries as [|input rest IH]; intros position w w' Hseeds; cbn [envelopeFrom controlFrom].
  { intros [= <-]. by rewrite app_nil_r. }
  destruct (ESTEP _ _ _ w) as [w1|] eqn:Hstep; [|done]. intros Hrest.
  apply (envelopeStep_control _ _ _ position) in Hstep as [Hctl Hsurf].
  - rewrite Hctl. destruct (IH (S position) w1 w') as [H1 H2]; [|done|].
    { intros Hc. by apply Forall_cons_1 in Hseeds as [_ ?]. }
    split; [done|]. rewrite H2, Hsurf, <- app_assoc. f_equal. rewrite filter_cons.
    destruct (decide (isConsumer input = true)) as [Hc|Hc]; unfold isConsumer in Hc;
      by destruct (String.prefix _ (le_type (ve_entry (fi_verified input)))).
  - intros Hc. apply Forall_cons_1 in Hseeds as [Hs _]; [|done].
    unfold isSeed in Hs. by apply bool_decide_eq_false in Hs.
Qed.

(** ** Authority *)

Lemma adminCount_pos (roster : RosterState) :
  (0 < adminCount roster) <-> ∃ did, roster !! did = Some Admin.
Proof.
  unfold adminCount. split.
  - intros Hpos. destruct (map_choose (filter (λ kv, kv.2 = Admin) roster)) as (did & p & Hl).
    { intros Hempty. rewrite Hempty, map_size_empty in Hpos. lia. }
    apply map_lookup_filter_Some in Hl as [Hl Hp]. cbn in Hp. subst. by exists did.
  - intros (did & Hl). destruct (decide (size (filter (λ kv, kv.2 = Admin) roster) = 0)) as [H0|]; [|lia].
    apply map_size_empty_inv in H0. exfalso.
    assert (filter (λ kv : string * GroupPermission, kv.2 = Admin) roster !! did = Some Admin) as Hf
      by by apply map_lookup_filter_Some.
    by rewrite H0, lookup_empty in Hf.
Qed.

(** A role entry the replay applies at a position: who granted what, under which authority. *)
Definition grants (anchor : GroupAnchor) (groupID : string) (before : Control) (input : FoldInput json)
    (did : string) (permission : GroupPermission) : Prop :=
  let entry := ve_entry (fi_verified input) in
  le_groupID entry = groupID ∧ le_type entry = ROLE_ENTRY_TYPE ∧ ga_controller anchor = None ∧
  normalizeDID (le_subject entry) = did ∧ roleValue (le_value entry) = Some permission ∧
  ct_roster before !! AUTH (ct_registry before) (ve_issuer (fi_verified input)) = Some Admin.

(** One entry either leaves the roster alone, or is such a grant and leaves an admin. *)
Lemma controlStep_roster anchor groupID position input state :
  let state' := (STEP anchor groupID position (fi_verified input) state).1 in
  ct_roster state' = ct_roster state ∨
  ∃ did permission, grants anchor groupID state input did permission ∧
    ct_roster state' = <[did := permission]> (ct_roster state) ∧ 0 < adminCount (ct_roster state').
Proof.
  unfold controlStep, grants. cbv zeta.
  destruct (bool_decide (le_groupID _ = _)) eqn:Hg; cbn [negb]; [|by left]. apply bool_decide_eq_true in Hg.
  destruct (bool_decide (le_type _ = DEVICE_ENTRY_TYPE)).
  { left. destruct (negb _); [done|]. destruct (_ && negb _); [done|]. destruct (_ && negb _); [done|].
    by destruct (registryApply _ _ _ _ _). }
  destruct (bool_decide (ga_controller anchor ≠ None)) eqn:Hc; cbn [orb]; [by left|].
  apply bool_decide_eq_false in Hc.
  destruct (bool_decide (le_type _ = ROLE_ENTRY_TYPE)) eqn:Ht; cbn [negb]; [|by left].
  apply bool_decide_eq_true in Ht. destruct (roleValue _) as [permission|] eqn:Hr; [|by left].
  destruct (bool_decide (ct_roster state !! _ = Some Admin)) eqn:Ha; cbn [negb]; [|by left].
  apply bool_decide_eq_true in Ha.
  destruct (Nat.eqb_spec (adminCount (applyRole normalizeDID (ve_issuer (fi_verified input))
    (ve_entry (fi_verified input)) permission (ct_roster state))) 0) as [|Hn]; [by left|].
  right. eexists _, permission. split_and!; [done|done|by destruct (ga_controller anchor); [destruct Hc|]|
    reflexivity|done|done|done|cbn [fst ct_roster]; lia].
Qed.

(** ** Terminal revocations *)

(** Only lifecycle entries set [reason]; elsewhere a revoked record is never reactivated. *)
Definition terminal (did : string) (registry : DeviceRegistry) : Prop :=
  ∃ r, reg_devices registry !! did = Some r ∧ dr_status r = Revoked ∧ isResetOnly r = false.

Lemma setDevice_terminal did k r registry :
  terminal did registry -> (k = did -> dr_status r = Revoked ∧ isResetOnly r = false) ->
  terminal did (setDevice k r registry).
Proof.
  intros (r0 & Hl & Hs & Hr) Hk. unfold terminal, setDevice. cbn [reg_devices].
  destruct (decide (k = did)) as [->|Hne].
  - exists r. rewrite lookup_insert_eq. by destruct (Hk eq_refl).
  - exists r0. by rewrite lookup_insert_ne.
Qed.

Lemma registryApply_terminal did verified registry registry' :
  registryApply normalizeDID lifecycleApply verified registry None = Some registry' ->
  terminal did registry -> terminal did registry'.
Proof.
  unfold registryApply. set (subject := normalizeDID _).
  destruct (opOf _) as [op|]; [|by intros [= <-]]. intros [= <-] Hterm.
  pose proof Hterm as (r0 & Hl & Hs & Hr).
  destruct op; try done.
  - destruct (reg_devices registry !! subject) as [r|] eqn:He.
    + destruct (bool_decide (dr_status r = Revoked) && negb (isResetOnly r)) eqn:Hb; [done|].
      apply setDevice_terminal; [done|]. intros ->. simplify_eq. rewrite Hr, bool_decide_eq_true_2 in Hb by done. done.
    + apply setDevice_terminal; [done|]. intros ->. congruence.
  - destruct (reg_devices registry !! subject) as [r|] eqn:He.
    + destruct (bool_decide (dr_status r = Revoked) && negb (isResetOnly r)) eqn:Hb; [done|].
      apply setDevice_terminal; [done|]. intros ->. simplify_eq. rewrite Hr, bool_decide_eq_true_2 in Hb by done. done.
    + apply setDevice_terminal; [done|]. intros ->. congruence.
  - destruct (reg_devices registry !! subject) as [r|]; [|done]. apply setDevice_terminal; [done|].
    intros _. split; [done|]. unfold isResetOnly. cbn [dr_status dr_reset]. by rewrite andb_false_r.
  - destruct (reg_devices registry !! subject) as [r|] eqn:He; [|done]. apply setDevice_terminal; [done|].
    intros ->. simplify_eq. split; [done|]. revert Hr. unfold isResetOnly. by cbn.
Qed.

Lemma controlStep_terminal did anchor groupID position verified state :
  ga_controller anchor = None -> terminal did (ct_registry state) ->
  terminal did (ct_registry (STEP anchor groupID position verified state).1).
Proof.
  intros Hc Hterm. unfold controlStep. rewrite Hc.
  destruct (negb (bool_decide (le_groupID _ = _))); [done|].
  destruct (bool_decide (le_type _ = DEVICE_ENTRY_TYPE)).
  - destruct (negb _); [done|]. destruct (_ && negb _); [done|]. destruct (_ && negb _); [done|].
    destruct (registryApply _ _ _ _ _) as [registry|] eqn:Hr; [|done].
    cbn [fst ct_registry]. by eapply registryApply_terminal.
  - destruct (_ || _); [done|]. destruct (roleValue _); [|done].
    destruct (negb _); [done|]. by destruct (adminCount _ =? 0).
Qed.

(** C17. A commit's envelope and the replay of the ledger agree: when the strict fold accepts an
    envelope over the state replayed from the ledger, replaying the ledger with the envelope's entries
    at its end gives exactly the roster and registry it returned, and it surfaces exactly the entries
    outside the reserved namespace, in order. In a lifecycle group a seed is refused before this fold
    (lifecycle.ts), which is the hypothesis; an ordinary group's fold refuses it itself. *)
Theorem control_fold_agreement anchor groupID memberController ledger entries w :
  (ga_controller anchor ≠ None -> Forall (λ input, isSeed input = false) entries) ->
  ENVELOPE (CONTROL ledger anchor groupID) entries groupID (contextOf anchor memberController) = Ok w ->
  CONTROL (ledger ++ entries) anchor groupID = mkControl (en_roster w) (en_registry w) ∧
  en_surfaced w = map fi_verified (filter (λ input, isConsumer input = true) entries).
Proof.
  intros Hseeds Hok. apply (envelopeFrom_control _ _ _ _ (length ledger)) in Hok as [Hctl Hsurf]; [|done].
  split; [|done]. unfold foldControl. rewrite controlFrom_app. cbn [Nat.add en_roster en_registry] in *.
  rewrite <- Hctl. unfold foldControl. by destruct (FROM anchor groupID 0 ledger _).
Qed.

(** C18. Authority descends from the anchor and never runs out: whatever entries a ledger holds, its
    roster keeps an admin, and every admin is the anchor's own DID or was granted the role by an entry
    whose issuer's authority was an admin in the replay of the entries before it; in an ordinary group
    a device revoked by then is revoked for good, and speaks for nobody but itself. *)
Theorem authority_descends anchor groupID entries did :
  let final := CONTROL entries anchor groupID in
  0 < adminCount (ct_roster final) ∧
  (ct_roster final !! did = Some Admin ->
   did = normalizeDID (default (ga_creatorDID anchor) (ga_controller anchor)) ∨
   ∃ before input after, entries = before ++ input :: after ∧
     grants anchor groupID (CONTROL before anchor groupID) input did Admin) ∧
  (∀ before after, ga_controller anchor = None -> entries = before ++ after ->
   terminal did (ct_registry (CONTROL before anchor groupID)) ->
   terminal did (ct_registry final) ∧
   ∀ issuer, normalizeDID issuer = did -> AUTH (ct_registry final) issuer = did).
Proof.
  cbv zeta. split_and!.
  - induction entries as [|input entries IH] using rev_ind.
    + apply adminCount_pos. eexists. apply lookup_singleton_eq.
    + rewrite foldControl_snoc.
      destruct (controlStep_roster anchor groupID (length entries) input (CONTROL entries anchor groupID))
        as [->|(? & ? & _ & _ & ?)]; done.
  - induction entries as [|input entries IH] using rev_ind.
    + unfold foldControl. cbn [controlFrom controlSeed ct_roster lr_seed roleReducer].
      intros Hl. left. by apply lookup_singleton_Some in Hl as [<- _].
    + rewrite foldControl_snoc.
      assert (ct_roster (CONTROL entries anchor groupID) !! did = Some Admin ->
        did = normalizeDID (default (ga_creatorDID anchor) (ga_controller anchor)) ∨
        ∃ before input0 after, entries ++ [input] = before ++ input0 :: after ∧
          grants anchor groupID (CONTROL before anchor groupID) input0 did Admin) as Hold.
      { intros H. destruct (IH H) as [|(before & input0 & after & -> & Hg)]; [by left|right].
        exists before, input0, (after ++ [input]). by rewrite <- app_assoc. }
      destruct (controlStep_roster anchor groupID (length entries) input (CONTROL entries anchor groupID))
        as [->|(did' & permission & Hg & -> & _)]; [done|].
      destruct (decide (did' = did)) as [->|Hne].
      * rewrite lookup_insert_eq. intros [= ->]. right. by exists entries, input, [].
      * rewrite lookup_insert_ne by done. done.
  - intros before after Hc -> Hterm.
    assert (terminal did (ct_registry (CONTROL (before ++ after) anchor groupID))) as Hfinal.
    { induction after as [|input after IH] using rev_ind; [by rewrite app_nil_r|].
      rewrite app_assoc, foldControl_snoc. by apply controlStep_terminal. }
    split; [done|]. intros issuer <-. destruct Hfinal as (r & Hl & Hs & _).
    unfold authority. by rewrite Hl, Hs.
Qed.
End fold_facts.

(** ** A concrete group *)

Definition demo_anchor : GroupAnchor := mkAnchor "did:root" (Int 1) None None None None.

Definition demo_entry (type issuer subject : string) (value : json) : FoldInput json :=
  mkFoldInput (mkVerified issuer (mkLedgerEntry type "g" subject value)) (issuer +:+ subject).

Definition demo_ledger : list (FoldInput json) :=
  [demo_entry DEVICE_ENTRY_TYPE "did:phone" "did:phone"
     (JObj [("op", JStr "register"); ("controller", JStr "did:root")]);
   demo_entry ROLE_ENTRY_TYPE "did:phone" "did:bob" (JStr "admin");
   demo_entry DEVICE_ENTRY_TYPE "did:root" "did:phone" (JObj [("op", JStr "revoke")])]%string.

Definition demo_envelope : list (FoldInput json) :=
  [demo_entry ROLE_ENTRY_TYPE "did:bob" "did:carol" (JStr "member");
   demo_entry "app.note" "did:bob" "x" (JNum (Int 3))]%string.

Definition demo_control (entries : list (FoldInput json)) : Control :=
  foldControl (λ d, d) (λ _, false) (λ _ _ _, None) entries demo_anchor "g".

Definition demo_result : result (EnvelopeReject * string) Envelope :=
  foldEnvelope (λ d, d) (λ _, false) (λ _ _ _, None) (demo_control demo_ledger) demo_envelope "g"
    (contextOf demo_anchor (λ _, None)).

Lemma control_fold_agreement_witness :
  ∃ w, demo_result = Ok w ∧ demo_control (demo_ledger ++ demo_envelope) = mkControl (en_roster w) (en_registry w) ∧
       en_roster w !! "did:carol"%string = Some Member.
Proof.
  destruct demo_result as [w|e] eqn:Hw; [|vm_compute in Hw; discriminate Hw].
  exists w. split; [reflexivity|].
  destruct (control_fold_agreement (λ d, d) (λ _, false) (λ _ _ _, None) demo_anchor "g" (λ _, None)
    demo_ledger demo_envelope w (λ H, False_ind _ (H eq_refl)) Hw) as [Hctl _].
  split; [exact Hctl|]. vm_compute in Hw. injection Hw as <-. reflexivity.
Defined.

Lemma authority_descends_witness :
  authority (λ d, d) (ct_registry (foldControl (λ d, d) (λ _, false) (λ _ _ _, None)
    (demo_ledger ++ demo_ledger) demo_anchor "g")) "did:phone" = "did:phone"%string.
Proof.
  destruct (authority_descends (λ d, d) (λ _, false) (λ _ _ _, None) demo_anchor "g"
    (demo_ledger ++ demo_ledger) "did:phone") as (_ & _ & H).
  apply (H demo_ledger demo_ledger); [reflexivity|reflexivity| |reflexivity].
  eexists. split_and!; vm_compute; reflexivity.
Defined.
