(* ===== verification/LedgerHead.v ===== *)
(** * The ledger head

    packages/mls/src/head.ts: the hash chain over the ids of the enacted entries that a group keeps in
    its GroupContext, and the extension that carries it. A string stands for its UTF-8 bytes, which is
    what [TextEncoder] yields of it. SHA-256 comes from a library and is a parameter; the theorem is a
    reduction to what one expects of it, so it does not assume that no two inputs collide. *)

From S2P Require Import Prelude HubProtocol Codecs.

Definition utf8 (s : string) : bytes := String.list_byte_of_string s.

Definition LEDGER_HEAD_VERSION : Z := 1.
Definition DOMAIN : bytes := utf8 "kumiai/mls/ledger-head/v1".
Definition SHA256_LENGTH : nat := 32.

Definition frameID (id : string) : bytes := setUint 4 false (Codecs.size (utf8 id)) ++ utf8 id.

Definition encodeLedgerHead (head : bytes) : bytes := byteOf LEDGER_HEAD_VERSION :: head.

Record LedgerHead := mkLedgerHead { lh_v : Z; lh_head : bytes }.

Definition decodeLedgerHead (view : bytes) : option LedgerHead :=
  match view with
  | version :: head =>
    if negb (length view =? 1 + SHA256_LENGTH)%nat || negb (bool_decide (version = byteOf LEDGER_HEAD_VERSION))
    then None else Some (mkLedgerHead LEDGER_HEAD_VERSION head)
  | [] => None
  end.

(** The byte comparison of head.ts and policy.ts: equal lengths, and no index that differs. *)
Definition bytesEqual (a b : bytes) : bool :=
  (length a =? length b)%nat && forallb (fun p => bool_decide (p.1 = p.2)) (zip a b).

Definition headsMatch (expected actual : bytes) : bool := bytesEqual expected actual.

Record LedgerIncompleteError := mkIncomplete { li_expected : bytes; li_actual : bytes }.

Definition assertHeadMatches (expected actual : bytes) : result LedgerIncompleteError unit :=
  if negb (headsMatch expected actual) then Err (mkIncomplete expected actual) else Ok tt.

Section chain.
Context (sha256 : bytes -> bytes).

Definition genesisHead (groupID : string) : bytes := sha256 (DOMAIN ++ utf8 groupID).

Definition extendHead (head : bytes) (entryIDs : list string) : bytes :=
  foldl (fun acc id => sha256 (acc ++ frameID id)) head entryIDs.

Definition computeHead (groupID : string) (entryIDs : list string) : bytes :=
  extendHead (genesisHead groupID) entryIDs.
End chain.

(** ** Facts *)

Lemma bytesEqual_eq a b : bytesEqual a b = true <-> a = b.
Proof.
  unfold bytesEqual. rewrite andb_true_iff, Nat.eqb_eq. split.
  - intros [Hlen Hall]. revert b Hlen Hall. induction a as [|x a IH]; intros [|y b]; [done..|].
    cbn [length zip zip_with forallb fst snd]. intros [= Hlen] [->%bool_decide_eq_true Hall]%andb_true_iff.
    f_equal. by apply IH.
  - intros ->. split; [done|]. induction b as [|y b IH]; [done|].
    cbn [zip zip_with forallb fst snd]. by rewrite bool_decide_eq_true_2, IH.
Qed.

Lemma utf8_inj a b : utf8 a = utf8 b -> a = b.
Proof.
  intros H. rewrite <- (String.string_of_list_byte_of_string a), <- (String.string_of_list_byte_of_string b).
  unfold utf8 in H. by rewrite H.
Qed.

(** One link of the chain determines the link before it and the id it adds. *)
Lemma link_inj acc acc' id id' :
  length acc = length acc' -> acc ++ frameID id = acc' ++ frameID id' -> acc = acc' ∧ id = id'.
Proof.
  intros Hlen [-> H]%app_inj_1; [|done]. split; [done|]. unfold frameID in H.
  apply app_inj_1 in H as [_ ?%utf8_inj]; [done|].
  unfold setUint. by rewrite !length_rev, !LittleEndianList.length_le_split.
Qed.

Lemma extendHead_app sha256 head a b :
  extendHead sha256 head (a ++ b) = extendHead sha256 (extendHead sha256 head a) b.
Proof. apply foldl_app. Qed.

Lemma decode_encode_head head :
  length head = SHA256_LENGTH -> decodeLedgerHead (encodeLedgerHead head) = Some (mkLedgerHead LEDGER_HEAD_VERSION head).
Proof. intros Hlen. unfold decodeLedgerHead, encodeLedgerHead. cbn [length]. by rewrite Hlen. Qed.

Section binding.
Context (sha256 : bytes -> bytes) (sha256_length : ∀ x, length (sha256 x) = SHA256_LENGTH).

(** Two inputs with one digest, or a digest that begins with the domain separator. *)
Definition broken : Prop :=
  (∃ x y, x ≠ y ∧ sha256 x = sha256 y) ∨ (∃ x rest, sha256 x = DOMAIN ++ rest).

Lemma sha256_inj x y : sha256 x = sha256 y -> x = y ∨ broken.
Proof. intros H. destruct (decide (x = y)); [by left|]. right. left. by exists x, y. Qed.

Lemma computeHead_length groupID ids : length (computeHead sha256 groupID ids) = SHA256_LENGTH.
Proof.
  destruct ids as [|id ids _] using rev_ind; [apply sha256_length|].
  unfold computeHead. rewrite extendHead_app. apply sha256_length.
Qed.

(** A genesis preimage is never a link's preimage, unless a digest begins with the domain. *)
Lemma genesis_not_link groupID group ids id :
  DOMAIN ++ utf8 groupID = computeHead sha256 group ids ++ frameID id -> broken.
Proof.
  intros H. right.
  assert (take (length DOMAIN) (computeHead sha256 group ids) = DOMAIN) as Htake.
  { apply (f_equal (take (length DOMAIN))) in H. rewrite take_app_length, take_app_le in H; [done|].
    rewrite computeHead_length. apply Nat.leb_le. reflexivity. }
  destruct ids as [|i ids _] using rev_ind.
  - exists (DOMAIN ++ utf8 group), (drop (length DOMAIN) (computeHead sha256 group [])).
    rewrite <- Htake at 2. symmetry. apply take_drop.
  - exists (computeHead sha256 group ids ++ frameID i), (drop (length DOMAIN) (computeHead sha256 group (ids ++ [i]))).
    rewrite <- Htake at 1. rewrite take_drop. unfold computeHead. by rewrite extendHead_app.
Qed.

Lemma computeHead_inj ids : ∀ group group' ids',
  computeHead sha256 group ids = computeHead sha256 group' ids' -> (group = group' ∧ ids = ids') ∨ broken.
Proof.
  assert (∀ g l i, computeHead sha256 g (l ++ [i]) = sha256 (computeHead sha256 g l ++ frameID i)) as Hsnoc
    by (intros g l i; unfold computeHead; by rewrite extendHead_app).
  induction ids as [|id ids IH] using rev_ind; intros group group' ids' Heq;
    destruct ids' as [|id' ids' _] using rev_ind; rewrite ?Hsnoc in Heq;
    apply sha256_inj in Heq as [Heq|]; [|by right| |by right| |by right| |by right].
  - apply app_inv_head, utf8_inj in Heq. by left.
  - right. by eapply genesis_not_link.
  - right. by eapply genesis_not_link.
  - apply link_inj in Heq as [Heq ->]; [|by rewrite !computeHead_length].
    apply IH in Heq as [[-> ->]|]; [by left|by right].
Qed.
End binding.


