(* ===== verification/Credential.v ===== *)
(** * What a group reads from untrusted bytes

    packages/mls/src: the identity in a leaf's credential (credential.ts), the genesis anchor
    (anchor.ts) and the control envelope of a commit (envelope.ts). Each is JSON in UTF-8; the parser
    and the serializer of that are arguments of the definitions ([None]: the bytes do not parse). *)

From S2P Require Import Prelude HubProtocol Json ControllerLog GroupFold.

(** ** credential.ts *)

Record MemberClaim := mkMemberClaim { mc_add : string; mc_g : Z }.

Record ControllerBinding := mkBinding {
  cb_id : string;
  cb_prefix : list json;
  cb_capability : option string;
  cb_holderGrant : option string;
  cb_member : option MemberClaim;
  cb_iat : option number;
}.

Record MLSCredentialIdentity := mkIdentity {
  ci_id : string;
  ci_longForm : option string;
  ci_controller : option ControllerBinding;
}.

(** ts-mls's credential: a basic one carries identity bytes. *)
Inductive Credential := Basic (identity : bytes) | OtherCredential.

Inductive CredentialError :=
  | NotJSON | NotAnObject | UnsupportedIdentityVersion | BadID | BadLongForm | BadController
  | BadControllerID | NotOneBindingForm | BadCapability | BadMemberClaim | MembershipForm
  | BadIat | BadPrefix | BadHolderGrant.

Definition MAX_SAFE_INTEGER : Z := 9007199254740991.

Definition isFinite (v : option json) : bool :=
  match v with Some (JNum (Infinite _)) => false | Some (JNum _) => true | _ => false end.

Definition absent {A} (o : option A) : bool := match o with None => true | Some _ => false end.

(** The member claim of a binding: exactly the two keys, a non-empty [add] and a safe counter. *)
Definition memberClaim (v : option json) : option MemberClaim :=
  match v with
  | Some (JObj fields) =>
    if negb (length fields =? 2)%nat then None else
    match jm_get "add" fields, jm_get "g" fields with
    | Some (JStr add), Some (JNum (Int g)) =>
      if bool_decide (add = "")%string || negb (Z.abs g <=? MAX_SAFE_INTEGER)%Z || (g <? 0)%Z then None
      else Some (mkMemberClaim add g)
    | _, _ => None
    end
  | _ => None
  end%string.

Definition parseBinding (cc : json) : result CredentialError ControllerBinding :=
  if negb (isObject (Some cc)) then Err BadController
  else if negb (isString (get "id" cc)) then Err BadControllerID
  else if Bool.eqb (has "capability" cc) (has "member" cc) then Err NotOneBindingForm
  else if has "capability" cc && negb (isString (get "capability" cc)) then Err BadCapability
  else if has "member" cc && absent (memberClaim (get "member" cc))
  then Err BadMemberClaim
  else if has "member" cc && (negb (has "iat" cc) || has "holderGrant" cc) then Err MembershipForm
  else if has "iat" cc && negb (isFinite (get "iat" cc)) then Err BadIat
  else match get "prefix" cc with
  | Some (JArr prefix) =>
    if has "holderGrant" cc && negb (isString (get "holderGrant" cc)) then Err BadHolderGrant
    else Ok (mkBinding (stringOf (get "id" cc)) prefix (optString (get "capability" cc))
               (optString (get "holderGrant" cc)) (memberClaim (get "member" cc))
               (match get "iat" cc with Some (JNum n) => Some n | _ => None end))
  | _ => Err BadPrefix
  end%string.

Section json_text.
(** [JSON.parse] of decoded UTF-8 ([None]: it throws), and [JSON.stringify] encoded. *)
Context (parseJSON : bytes -> option json) (stringifyJSON : json -> bytes).

Definition parseMLSCredentialIdentity (identity : bytes) : result CredentialError MLSCredentialIdentity :=
  match parseJSON identity with
  | None => Err NotJSON
  | Some candidate =>
    if negb (isObject (Some candidate)) then Err NotAnObject
    else if has "v" candidate &&
            negb (match get "v" candidate with Some (JNum (Int 1)) => true | _ => false end)
    then Err UnsupportedIdentityVersion
    else if negb (isString (get "id" candidate)) then Err BadID
    else if has "longForm" candidate && negb (isString (get "longForm" candidate)) then Err BadLongForm
    else
      let identity := mkIdentity (stringOf (get "id" candidate)) (optString (get "longForm" candidate)) in
      match get "controller" candidate with
      | None => Ok (identity None)
      | Some c => match parseBinding c with
                  | Err e => Err e
                  | Ok binding => Ok (identity (Some binding))
                  end
      end
  end%string.

Definition didFromCredential (normalizeDID : string -> string) (credential : Credential) : option string :=
  match credential with
  | OtherCredential => None
  | Basic identity =>
    match parseMLSCredentialIdentity identity with
    | Ok parsed => if bool_decide (ci_id parsed = "")%string then None else Some (normalizeDID (ci_id parsed))
    | Err _ => None
    end
  end.

(** ** anchor.ts *)

Definition CURRENT_VERSION : Z := 1.
Definition MAX_LEAF_LIFETIME : Z := 604800.
Definition MAX_TRUSTED_GRANT_LIFETIME : Z := 31536000.

(** [n <= bound] for an integer bound. *)
Definition atMost (n : number) (bound : Z) : bool :=
  match n with
  | Int z => (z <=? bound)%Z
  | Fractional numerator denominator => (numerator <=? bound * Zpos denominator)%Z
  | Infinite negative => negative
  end.

(** A lifetime field, absent or an integer from 1 to its maximum. *)
Definition lifetimeAllowed (field : string) (maximum : Z) (record : json) : bool :=
  match get field record with
  | None => true
  | Some (JNum (Int z)) => (1 <=? z)%Z && (z <=? maximum)%Z
  | Some _ => false
  end.

Definition optInt (v : option json) : option Z := match v with Some (JNum (Int z)) => Some z | _ => None end.

Definition decodeGroupAnchor (view : bytes) : option GroupAnchor :=
  match parseJSON view with
  | None => None
  | Some record =>
    if negb (isObject (Some record)) then None
    else match get "creatorDID" record, get "version" record with
    | Some (JStr creatorDID), Some (JNum version) =>
      if has "controller" record &&
         negb (isString (get "controller" record) && String.prefix "did:kokuin:" (stringOf (get "controller" record)))
      then None
      else if negb (lifetimeAllowed "leafLifetime" MAX_LEAF_LIFETIME record &&
                    lifetimeAllowed "trustedGrantLifetime" MAX_TRUSTED_GRANT_LIFETIME record)
      then None
      else Some (mkAnchor creatorDID version (optString (get "controller" record))
                   (optInt (get "leafLifetime" record)) (optInt (get "trustedGrantLifetime" record))
                   (if atMost version CURRENT_VERSION then get "app" record else None))
    | _, _ => None
    end
  end%string.

(** [JSON.stringify] leaves out the fields that are undefined. *)
Definition fieldOf {A} (key : string) (wrap : A -> json) (v : option A) : list (string * json) :=
  match v with Some a => [(key, wrap a)] | None => [] end.

Definition anchorFields (anchor : GroupAnchor) : json :=
  JObj ([("creatorDID"%string, JStr (ga_creatorDID anchor)); ("version"%string, JNum (ga_version anchor))] ++
        fieldOf "controller" JStr (ga_controller anchor) ++
        fieldOf "leafLifetime" (fun z => JNum (Int z)) (ga_leafLifetime anchor) ++
        fieldOf "trustedGrantLifetime" (fun z => JNum (Int z)) (ga_trustedGrantLifetime anchor) ++
        fieldOf "app" id (ga_app anchor)).

Definition encodeGroupAnchor (anchor : GroupAnchor) : bytes := stringifyJSON (anchorFields anchor).

(** ** envelope.ts *)

Definition CONTROL_ENVELOPE_VERSION : Z := 1.

Record ControlEnvelope := mkControlEnvelope { ce_entries : option (list string); ce_app : option json }.

Inductive EnvelopeError :=
  | EnvelopeNotJSON | EnvelopeNotObject | UnsupportedEnvelopeVersion | EntriesNotStrings.

Definition isStringArray (v : json) : option (list string) :=
  match v with
  | JArr items => mapM (fun item => match item with JStr s => Some s | _ => None end) items
  | _ => None
  end.

Definition decodeControlEnvelope (view : bytes) : result EnvelopeError ControlEnvelope :=
  if (length view =? 0)%nat then Ok (mkControlEnvelope None None)
  else match parseJSON view with
  | None => Err EnvelopeNotJSON
  | Some (JObj fields) =>
    match jm_get "v" fields with
    | Some (JNum (Int 1)) =>
      match jm_get "entries" fields with
      | None => Ok (mkControlEnvelope None (jm_get "app" fields))
      | Some entries =>
        match isStringArray entries with
        | None => Err EntriesNotStrings
        | Some ids => Ok (mkControlEnvelope (Some ids) (jm_get "app" fields))
        end
      end
    | _ => Err UnsupportedEnvelopeVersion
    end
  | Some _ => Err EnvelopeNotObject
  end%string.

Definition encodeControlEnvelope (envelope : ControlEnvelope) : bytes :=
  stringifyJSON (JObj ([("v"%string, JNum (Int CONTROL_ENVELOPE_VERSION))] ++
    fieldOf "entries" (fun ids => JArr (map JStr ids)) (ce_entries envelope) ++
    fieldOf "app" id (ce_app envelope))).
End json_text.
