(* ===== verification/Policy.v ===== *)
(** * The commit policy

    packages/mls/src/policy.ts: the default policy that decides whether a received commit or proposal
    is admissible, and the context the group handle hands it (group-handle.ts,
    [buildCommitPolicyContext]). The MLS library's proposals keep what the policy reads of them; a type
    outside its defaults is [Other]. *)

From S2P Require Import Prelude HubProtocol Json ControllerLog GroupFold Credential LedgerHead.

Definition GROUP_ANCHOR_EXTENSION_TYPE : Z := 61696.
Definition LEDGER_HEAD_EXTENSION_TYPE : Z := 61697.
Definition RESERVED_EXTENSION_TYPE : Z := 61698.

(** Extension data is raw bytes, or an object the MLS library decoded. *)
Inductive ExtensionData := Raw (view : bytes) | Decoded.

Record GroupContextExtension := mkExtension { ex_type : Z; ex_data : ExtensionData }.

#[export] Instance ExtensionData_eq_dec : EqDecision ExtensionData.
Proof. solve_decision. Defined.
#[export] Instance Extension_eq_dec : EqDecision GroupContextExtension.
Proof. solve_decision. Defined.

Record Leaf := mkLeaf { lf_credential : Credential; lf_signaturePublicKey : bytes }.

(** The nodes of the ratchet tree; blank and parent nodes are [None]. *)
Abbreviation RatchetTree := (list (option Leaf)).

Inductive Proposal :=
  | Add (leaf : Leaf)
  | Update (leaf : Leaf)
  | Remove (removed : nat)
  | Psk
  | Reinit
  | ExternalInit
  | GroupContextExtensions (extensions : list GroupContextExtension)
  | Other.

Record ProposalWithSender := mkProposal { pw_proposal : Proposal; pw_sender : option nat }.

Inductive IncomingMessage :=
  | CommitMessage (senderLeafIndex : option nat) (proposals : list ProposalWithSender)
  | ProposalMessage (proposal : ProposalWithSender).

Inductive IncomingMessageAction := Accept | Reject.

#[export] Instance Action_eq_dec : EqDecision IncomingMessageAction.
Proof. solve_decision. Defined.

Record CommitPolicyContext := mkPolicyContext {
  pc_baseRoster : RosterState;
  pc_candidateRoster : RosterState;
  pc_didOfLeaf : nat -> option string;
  pc_controllerOf : string -> option string;
  pc_currentExtensions : list GroupContextExtension;
  pc_expectedHeadExtensionData : bytes;
  pc_commitEnactsEntries : bool;
  pc_enactedDeviceEntries : list (string * option DeviceOp);
  pc_enactsOnlyDeviceEntries : bool;
  pc_externalCommitDID : option string;
}.

Definition isGCE (p : Proposal) : bool := match p with GroupContextExtensions _ => true | _ => false end.
Definition isExternalInit (p : Proposal) : bool := match p with ExternalInit => true | _ => false end.
Definition roleOf (roster : RosterState) (did : string) : option GroupPermission := roster !! did.

Section policy.
Context (normalizeDID : string -> string) (parseJSON : bytes -> option json).

Definition isAdmin (context : CommitPolicyContext) (leafIndex : option nat) : bool :=
  match leafIndex with
  | None => false
  | Some leafIndex =>
    match pc_didOfLeaf context leafIndex with
    | None => false
    | Some did =>
      let normalized := normalizeDID did in
      let authority := default normalized (pc_controllerOf context normalized) in
      bool_decide (roleOf (pc_baseRoster context) authority = Some Admin)
    end
  end.

(** ** [evaluateGroupContextExtensions] *)

Definition expectedExtensions (context : CommitPolicyContext) : list GroupContextExtension :=
  map (fun ext =>
    if bool_decide (ex_type ext = LEDGER_HEAD_EXTENSION_TYPE)
    then mkExtension LEDGER_HEAD_EXTENSION_TYPE (Raw (pc_expectedHeadExtensionData context))
    else ext) (pc_currentExtensions context).

Definition findExtension (type : Z) (extensions : list GroupContextExtension) : option GroupContextExtension :=
  snd <$> list_find (fun ext => ex_type ext = type) extensions.

Definition isLifecycle (expected : list GroupContextExtension) : bool :=
  match findExtension GROUP_ANCHOR_EXTENSION_TYPE expected with
  | Some (mkExtension _ (Raw view)) =>
    match decodeGroupAnchor parseJSON view with
    | Some anchor => negb (absent (ga_controller anchor))
    | None => false
    end
  | _ => false
  end.

Definition isEmptyReserved (ext : GroupContextExtension) : bool :=
  bool_decide (ex_type ext = RESERVED_EXTENSION_TYPE) &&
  match ex_data ext with Raw view => (length view =? 0)%nat | Decoded => false end.

(** The candidate list: one empty reserved extension more than expected is set aside. *)
Definition strippedCandidate (expected extensions : list GroupContextExtension) : list GroupContextExtension :=
  let reservedAlreadyInstalled :=
    existsb (fun ext => bool_decide (ex_type ext = RESERVED_EXTENSION_TYPE)) expected in
  if negb (isLifecycle expected) && negb reservedAlreadyInstalled &&
     (length extensions =? length expected + 1)%nat
  then match list_find (fun ext => isEmptyReserved ext = true) extensions with
  | Some (reservedIndex, _) => take reservedIndex extensions ++ drop (reservedIndex + 1) extensions
  | None => extensions
  end
  else extensions.

Definition extensionMatches (got want : GroupContextExtension) : bool :=
  bool_decide (ex_type got = ex_type want) &&
  match ex_data got, ex_data want with
  | Raw a, Raw b => bytesEqual a b
  | _, _ => false
  end.

Definition evaluateGroupContextExtensions (extensions : list GroupContextExtension)
    (context : CommitPolicyContext) : IncomingMessageAction :=
  let expected := expectedExtensions context in
  let candidate := strippedCandidate expected extensions in
  if negb (length candidate =? length expected)%nat then Reject
  else if forallb (fun p => extensionMatches p.1 p.2) (zip candidate expected) then Accept else Reject.

(** ** [evaluateProposal], [evaluateExternalCommit], [defaultCommitPolicy] *)

Definition acceptIf (b : bool) : IncomingMessageAction := if b then Accept else Reject.

Definition enacts (context : CommitPolicyContext) (op : DeviceOp) (subject : string) : bool :=
  existsb (fun e => bool_decide (e.2 = Some op) && bool_decide (e.1 = subject)) (pc_enactedDeviceEntries context).

Definition evaluateProposal (proposal : Proposal) (effectiveSender : option nat)
    (context : CommitPolicyContext) : IncomingMessageAction :=
  match proposal with
  | Add leaf =>
    match didFromCredential parseJSON normalizeDID (lf_credential leaf) with
    | None => Reject
    | Some addedDID =>
      if isAdmin context effectiveSender && negb (absent (roleOf (pc_candidateRoster context) addedDID))
      then Accept
      else acceptIf (enacts context op_add (normalizeDID addedDID))
    end
  | Psk | Reinit => acceptIf (isAdmin context effectiveSender)
  | Remove removed =>
    let removedDID := pc_didOfLeaf context removed in
    if match removedDID with
       | Some did => bool_decide (roleOf (pc_candidateRoster context) (normalizeDID did) = Some Admin)
       | None => false
       end then Reject
    else if isAdmin context effectiveSender then Accept
    else if bool_decide (effectiveSender = Some removed) then Accept
    else acceptIf (match removedDID with
                   | Some did => enacts context op_revoke (normalizeDID did)
                   | None => false
                   end)
  | Update _ => Accept
  | GroupContextExtensions extensions =>
    if isAdmin context effectiveSender || pc_enactsOnlyDeviceEntries context
    then evaluateGroupContextExtensions extensions context
    else Reject
  | ExternalInit | Other => Reject
  end.

(** The loop of the external rule: what it saw, or [None] when it returned early. *)
Fixpoint externalLoop (proposals : list ProposalWithSender) (sawExternalInit : bool)
    (removeTarget : option nat) : option (bool * option nat) :=
  match proposals with
  | [] => Some (sawExternalInit, removeTarget)
  | p :: rest =>
    match pw_proposal p with
    | ExternalInit => externalLoop rest true removeTarget
    | Remove removed => externalLoop rest sawExternalInit (Some removed)
    | _ => None
    end
  end.

Definition evaluateExternalCommit (proposals : list ProposalWithSender)
    (context : CommitPolicyContext) : IncomingMessageAction :=
  match pc_externalCommitDID context with
  | None => Reject
  | Some did =>
    if absent (roleOf (pc_baseRoster context) (normalizeDID did)) then Reject
    else if negb (length proposals =? 2)%nat then Reject
    else match externalLoop proposals false None with
    | Some (true, Some removeTarget) => acceptIf (bool_decide (pc_didOfLeaf context removeTarget = Some did))
    | _ => Reject
    end
  end.

Definition effectiveSender (senderLeafIndex : option nat) (p : ProposalWithSender) : option nat :=
  match pw_sender p with Some sender => Some sender | None => senderLeafIndex end.

Definition defaultCommitPolicy (incoming : IncomingMessage) (context : CommitPolicyContext) :
    IncomingMessageAction :=
  match incoming with
  | ProposalMessage p => evaluateProposal (pw_proposal p) (pw_sender p) context
  | CommitMessage senderLeafIndex proposals =>
    if pc_commitEnactsEntries context && negb (existsb (fun p => isGCE (pw_proposal p)) proposals) then Reject
    else if (length proposals =? 0)%nat then Accept
    else if existsb (fun p => isExternalInit (pw_proposal p)) proposals
    then evaluateExternalCommit proposals context
    else acceptIf (forallb (fun p =>
           bool_decide (evaluateProposal (pw_proposal p) (effectiveSender senderLeafIndex p) context = Accept))
           proposals)
  end.

(** ** [buildCommitPolicyContext] *)

(** A leaf's identity, when its credential has one that parses. *)
Definition identityOf (node : option Leaf) : option MLSCredentialIdentity :=
  match node with
  | Some (mkLeaf (Basic identity) _) =>
    match parseMLSCredentialIdentity parseJSON identity with Ok parsed => Some parsed | Err _ => None end
  | _ => None
  end.

(** [listMembers]: the leaf index and the DID of every leaf that parses, in tree order. *)
Definition listMembers (tree : RatchetTree) : list (nat * string) :=
  omap (fun p => (fun parsed => (Nat.div2 p.1, ci_id parsed)) <$> identityOf p.2) (imap pair tree).

Definition leafToDID (tree : RatchetTree) : gmap nat string :=
  foldl (fun dids member => <[member.1 := member.2]> dids) ∅ (listMembers tree).

Definition activeControllerOf (registry : DeviceRegistry) (did : string) : option string :=
  match reg_devices registry !! normalizeDID did with
  | Some record => if bool_decide (dr_status record = Active) then Some (dr_controller record) else None
  | None => None
  end.

Definition currentHead (extensions : list GroupContextExtension) : option LedgerHead :=
  match findExtension LEDGER_HEAD_EXTENSION_TYPE extensions with
  | Some (mkExtension _ (Raw view)) => decodeLedgerHead view
  | _ => None
  end.

Definition buildCommitPolicyContext (sha256 : bytes -> bytes) (tree : RatchetTree)
    (extensions : list GroupContextExtension) (registry : DeviceRegistry)
    (baseRoster candidateRoster : RosterState) (entryIDs : list string)
    (enactedDeviceEntries : list (string * option DeviceOp)) (externalCommitDID : option string) :
    CommitPolicyContext :=
  mkPolicyContext baseRoster candidateRoster
    (fun leafIndex => leafToDID tree !! leafIndex)
    (activeControllerOf registry)
    extensions
    (match currentHead extensions with
     | None => []
     | Some h => encodeLedgerHead (extendHead sha256 (lh_head h) entryIDs)
     end)
    (0 <? length entryIDs)%nat
    enactedDeviceEntries
    ((0 <? length entryIDs) && (length enactedDeviceEntries =? length entryIDs))%nat
    externalCommitDID.
End policy.
