(* ===== verification/PolicySpec.v ===== *)
(** * What the commit policy admits

    Theorems about Policy.v: who may join, leave or change the group through an accepted commit, which
    extension lists an accepted commit may install, and what an admin can always do. *)

From S2P Require Import Prelude HubProtocol Json ControllerLog GroupFold Credential LedgerHead Policy.

(** ** Extension lists *)

Definition isRaw (ext : GroupContextExtension) : Prop := ∃ view, ex_data ext = Raw view.

Lemma extensionMatches_eq got want :
  extensionMatches got want = true <-> got = want ∧ isRaw want.
Proof.
  destruct got as [t [a|]], want as [t' [b|]]; unfold extensionMatches, isRaw; cbn [ex_type ex_data];
    rewrite andb_true_iff, bool_decide_eq_true, ?bytesEqual_eq; naive_solver.
Qed.

Lemma forallb_matches (candidate expected : list GroupContextExtension) :
  length candidate = length expected ->
  forallb (fun p => extensionMatches p.1 p.2) (zip candidate expected) = true <->
  candidate = expected ∧ Forall isRaw expected.
Proof.
  revert expected. induction candidate as [|got candidate IH]; intros [|want expected] Hlen; [naive_solver|done..|].
  cbn [zip zip_with forallb fst snd]. injection Hlen as Hlen.
  rewrite andb_true_iff, extensionMatches_eq, IH, Forall_cons by done. naive_solver.
Qed.

Lemma isEmptyReserved_eq ext :
  isEmptyReserved ext = true <-> ext = mkExtension RESERVED_EXTENSION_TYPE (Raw []).
Proof.
  destruct ext as [t [[|b view]|]]; unfold isEmptyReserved; cbn [ex_type ex_data length Nat.eqb];
    rewrite andb_true_iff, bool_decide_eq_true; naive_solver.
Qed.

Lemma not_installed (expected : list GroupContextExtension) :
  existsb (fun ext => bool_decide (ex_type ext = RESERVED_EXTENSION_TYPE)) expected = false <->
  Forall (fun ext => ex_type ext ≠ RESERVED_EXTENSION_TYPE) expected.
Proof.
  induction expected as [|ext expected IH]; [by split|].
  cbn [existsb]. rewrite orb_false_iff, bool_decide_eq_false, Forall_cons, IH. done.
Qed.

Section facts.
Context (normalizeDID : string -> string) (parseJSON : bytes -> option json).

Abbreviation GCE := (evaluateGroupContextExtensions parseJSON).
Abbreviation EVAL := (evaluateProposal normalizeDID parseJSON).
Abbreviation POLICY := (defaultCommitPolicy normalizeDID parseJSON).
Abbreviation ADMIN := (isAdmin normalizeDID).
Abbreviation DID := (didFromCredential parseJSON normalizeDID).

(** An extension list a commit may install: the expected one, or in an ordinary group that has not
    installed it the expected one with the empty reserved extension added somewhere. *)
Definition installable (expected extensions : list GroupContextExtension) : Prop :=
  Forall isRaw expected ∧
  (extensions = expected ∨
   isLifecycle parseJSON expected = false ∧
   Forall (fun ext => ex_type ext ≠ RESERVED_EXTENSION_TYPE) expected ∧
   ∃ before after, expected = before ++ after ∧
     extensions = before ++ mkExtension RESERVED_EXTENSION_TYPE (Raw []) :: after).

Lemma strippedCandidate_id expected : strippedCandidate parseJSON expected expected = expected.
Proof.
  unfold strippedCandidate. destruct (_ =? _)%nat eqn:Hlen; [apply Nat.eqb_eq in Hlen; lia|].
  by rewrite andb_false_r.
Qed.

Lemma strippedCandidate_added before after :
  isLifecycle parseJSON (before ++ after) = false ->
  Forall (fun ext => ex_type ext ≠ RESERVED_EXTENSION_TYPE) (before ++ after) ->
  strippedCandidate parseJSON (before ++ after)
    (before ++ mkExtension RESERVED_EXTENSION_TYPE (Raw []) :: after) = before ++ after.
Proof.
  intros Hl Hr. unfold strippedCandidate. rewrite Hl, (proj2 (not_installed _) Hr).
  rewrite !length_app. cbn [length negb andb].
  rewrite (proj2 (Nat.eqb_eq _ _)) by lia.
  assert (list_find (fun ext => isEmptyReserved ext = true)
    (before ++ mkExtension RESERVED_EXTENSION_TYPE (Raw []) :: after) =
    Some (length before, mkExtension RESERVED_EXTENSION_TYPE (Raw []))) as ->.
  { apply list_find_Some. split_and!.
    - by rewrite lookup_app_r, Nat.sub_diag by lia.
    - by apply isEmptyReserved_eq.
    - intros i ext Hi Hlt ->%isEmptyReserved_eq. rewrite lookup_app_l in Hi by done.
      apply Forall_app in Hr as [Hr _]. by apply (Forall_lookup_1 _ _ _ _ Hr) in Hi. }
  rewrite take_app_length. f_equal. rewrite <- drop_drop. by rewrite drop_app_length.
Qed.

Lemma gce_accepts extensions context :
  GCE extensions context = Accept <-> installable (expectedExtensions context) extensions.
Proof.
  unfold evaluateGroupContextExtensions, installable. set (expected := expectedExtensions context).
  destruct (length (strippedCandidate parseJSON expected extensions) =? length expected)%nat eqn:Hlen; cbn [negb].
  - apply Nat.eqb_eq in Hlen.
    assert (∀ b : bool, (if b then Accept else Reject) = Accept <-> b = true) as Hif by (by intros []).
    rewrite Hif, forallb_matches by done. split.
    + intros [Hc Hraw]. split; [done|]. unfold strippedCandidate in Hc.
      destruct (negb _ && _ && _) eqn:Hcond; [|by left].
      rewrite !andb_true_iff, !negb_true_iff in Hcond. destruct Hcond as [[Hl Hr] Hn].
      destruct (list_find _ _) as [[i ext]|] eqn:Hfind; [|by left].
      apply list_find_Some in Hfind as (Hi & ->%isEmptyReserved_eq & _).
      right. split_and!; [done|by apply not_installed|].
      exists (take i extensions), (drop (i + 1) extensions). split; [done|].
      rewrite Nat.add_1_r. symmetry. by apply take_drop_middle.
    + intros [Hraw [->|(Hl & Hr & before & after & Heq & ->)]]; [by rewrite strippedCandidate_id|].
      rewrite Heq in *. by rewrite strippedCandidate_added.
  - apply Nat.eqb_neq in Hlen. split; [done|]. intros [_ [->|(Hl & Hr & before & after & Heq & ->)]]; exfalso.
    + by rewrite strippedCandidate_id in Hlen.
    + rewrite Heq in *. by rewrite strippedCandidate_added in Hlen.
Qed.

(** ** The head extension *)

Lemma findExtension_cons type ext extensions :
  findExtension type (ext :: extensions) =
  if bool_decide (ex_type ext = type) then Some ext else findExtension type extensions.
Proof.
  unfold findExtension. cbn [list_find]. case_decide; case_bool_decide; [done..|].
  by destruct (list_find _ extensions) as [[i e]|].
Qed.

Lemma findExtension_app type before after :
  findExtension type (before ++ after) =
  match findExtension type before with Some ext => Some ext | None => findExtension type after end.
Proof.
  induction before as [|ext before IH]; [done|]. cbn [app]. rewrite !findExtension_cons, IH.
  by destruct (bool_decide _).
Qed.

(** Installing moves the head to the expected one and touches no other extension. *)
Lemma installable_find type expected extensions :
  type ≠ RESERVED_EXTENSION_TYPE -> installable expected extensions ->
  findExtension type extensions = findExtension type expected.
Proof.
  intros Htype [_ [->|(_ & _ & before & after & -> & ->)]]; [done|].
  rewrite !findExtension_app, findExtension_cons. by rewrite bool_decide_eq_false_2 by done.
Qed.

Lemma expected_head context ext :
  findExtension LEDGER_HEAD_EXTENSION_TYPE (pc_currentExtensions context) = Some ext ->
  findExtension LEDGER_HEAD_EXTENSION_TYPE (expectedExtensions context) =
    Some (mkExtension LEDGER_HEAD_EXTENSION_TYPE (Raw (pc_expectedHeadExtensionData context))).
Proof.
  unfold expectedExtensions. induction (pc_currentExtensions context) as [|e exts IH]; [done|].
  cbn [map]. rewrite !findExtension_cons. intros Hfind.
  destruct (bool_decide (ex_type e = LEDGER_HEAD_EXTENSION_TYPE)) eqn:He; cbn [ex_type]; [done|].
  rewrite He. by apply IH.
Qed.

Lemma acceptIf_Accept b : acceptIf b = Accept <-> b = true.
Proof. by destruct b. Qed.

Lemma enacts_In context op subject :
  enacts context op subject = true <-> (subject, Some op) ∈ pc_enactedDeviceEntries context.
Proof.
  unfold enacts. rewrite existsb_exists. setoid_rewrite <- list_elem_of_In.
  split; [intros ([s o] & Hin & Hb)|intros Hin; exists (subject, Some op); split; [done|]];
    rewrite andb_true_iff, !bool_decide_eq_true in *; naive_solver.
Qed.

(** ** External commits *)

(** A member rejoins: it enters by an external commit under a DID the roster knows, removes the stale
    leaf of that DID, and does nothing else. *)
Definition rejoins (context : CommitPolicyContext) (proposals : list ProposalWithSender) (removed : nat) : Prop :=
  (∃ did, pc_externalCommitDID context = Some did ∧ pc_didOfLeaf context removed = Some did ∧
          is_Some (pc_baseRoster context !! normalizeDID did)) ∧
  (map pw_proposal proposals = [ExternalInit; Remove removed] ∨
   map pw_proposal proposals = [Remove removed; ExternalInit]).

Lemma evaluateExternalCommit_accepts proposals context :
  evaluateExternalCommit normalizeDID proposals context = Accept -> ∃ removed, rejoins context proposals removed.
Proof.
  unfold evaluateExternalCommit, rejoins, roleOf.
  destruct (pc_externalCommitDID context) as [did|]; [|done].
  destruct (pc_baseRoster context !! normalizeDID did) eqn:Hrole; [|done]. cbn [absent].
  destruct (length proposals =? 2)%nat eqn:Hlen; [|done]. apply Nat.eqb_eq in Hlen. cbn [negb].
  destruct proposals as [|[p ps] [|[q qs] [|]]]; [done..| |done].
  destruct p, q; cbn [externalLoop pw_proposal map]; try done;
    intros ?%acceptIf_Accept%bool_decide_eq_true; naive_solver.
Qed.

Lemma policy_cases context sender proposals :
  POLICY (CommitMessage sender proposals) context = Accept ->
  (∃ removed, rejoins context proposals removed) ∨
  (∀ p, p ∈ proposals -> EVAL (pw_proposal p) (effectiveSender sender p) context = Accept).
Proof.
  unfold defaultCommitPolicy. destruct (_ && _); [done|].
  destruct proposals as [|p proposals]; [intros _; right; by intros ? ?%elem_of_nil|].
  cbn [length Nat.eqb]. destruct (existsb _ _); [left; by apply evaluateExternalCommit_accepts|].
  intros Hall%acceptIf_Accept. right. intros q Hq.
  rewrite forallb_forall in Hall. setoid_rewrite <- list_elem_of_In in Hall.
  specialize (Hall q Hq). by apply bool_decide_eq_true in Hall.
Qed.

Lemma rejoins_proposal context proposals removed p :
  rejoins context proposals removed -> p ∈ proposals ->
  pw_proposal p = ExternalInit ∨ pw_proposal p = Remove removed.
Proof.
  intros [_ Hmap] Hin. apply (list_elem_of_fmap_2 pw_proposal) in Hin.
  change (pw_proposal <$> proposals) with (map pw_proposal proposals) in Hin.
  destruct Hmap as [Hm|Hm]; rewrite Hm in Hin; set_solver.
Qed.

(** ** The lists an accepted commit installs *)

Lemma accepted_gce context sender extensions :
  EVAL (GroupContextExtensions extensions) sender context = Accept ->
  installable (expectedExtensions context) extensions.
Proof. cbn [evaluateProposal]. destruct (_ || _); [|done]. apply gce_accepts. Qed.

Lemma policy_extensions context sender proposals :
  POLICY (CommitMessage sender proposals) context = Accept ->
  (pc_commitEnactsEntries context = true -> ∃ p, p ∈ proposals ∧ isGCE (pw_proposal p) = true) ∧
  ∀ p extensions, p ∈ proposals -> pw_proposal p = GroupContextExtensions extensions ->
    installable (expectedExtensions context) extensions.
Proof.
  intros Hok. split.
  - intros Henacts. unfold defaultCommitPolicy in Hok. rewrite Henacts in Hok.
    destruct (existsb _ proposals) eqn:Hgce; [|done].
    apply existsb_exists in Hgce as (p & Hin%list_elem_of_In & Hp). by exists p.
  - intros p extensions Hin Hp. apply policy_cases in Hok as [[removed Hre]|Hall].
    + by destruct (rejoins_proposal _ _ _ _ Hre Hin) as [Hq|Hq]; rewrite Hp in Hq.
    + specialize (Hall p Hin). rewrite Hp in Hall. by eapply accepted_gce.
Qed.

(** ** What an admin may always do *)

Definition adminMay (context : CommitPolicyContext) (p : Proposal) : Prop :=
  match p with
  | Add leaf => ∃ did, DID (lf_credential leaf) = Some did ∧ is_Some (pc_candidateRoster context !! did)
  | Remove removed => ∀ did, pc_didOfLeaf context removed = Some did ->
                             pc_candidateRoster context !! normalizeDID did ≠ Some Admin
  | GroupContextExtensions extensions => installable (expectedExtensions context) extensions
  | Update _ | Psk | Reinit => True
  | ExternalInit | Other => False
  end.

Lemma admin_accepted context sender p :
  ADMIN context sender = true -> adminMay context p -> EVAL p sender context = Accept.
Proof.
  intros Hadmin Hmay. unfold evaluateProposal, roleOf. rewrite Hadmin.
  destruct p as [leaf|leaf|removed| | | |extensions|]; cbn [adminMay] in Hmay; try done.
  - destruct Hmay as (did & -> & [role ->]). done.
  - destruct (pc_didOfLeaf context removed) as [did|] eqn:Hleaf; [|done].
    rewrite bool_decide_eq_false_2; [done|]. by apply Hmay.
  - by apply gce_accepts.
Qed.

Lemma accepted_remove context sender removed did :
  EVAL (Remove removed) sender context = Accept -> pc_didOfLeaf context removed = Some did ->
  pc_candidateRoster context !! normalizeDID did ≠ Some Admin.
Proof.
  unfold evaluateProposal, roleOf. intros Hev Hleaf. rewrite Hleaf in Hev.
  destruct (bool_decide (_ !! normalizeDID did = _)) eqn:Hb; [done|]. by apply bool_decide_eq_false in Hb.
Qed.

Lemma accepted_plain context sender p :
  ADMIN context sender = false -> pc_enactedDeviceEntries context = [] ->
  pc_enactsOnlyDeviceEntries context = false -> EVAL p sender context = Accept ->
  (∃ leaf, p = Update leaf) ∨ ∃ removed, p = Remove removed ∧ sender = Some removed.
Proof.
  intros Hadmin Hnone Honly. unfold evaluateProposal, enacts. rewrite Hadmin, Hnone, Honly. cbn [existsb].
  destruct p as [leaf|leaf|removed| | | |extensions|]; cbn [orb andb acceptIf]; try done.
  - by destruct (DID (lf_credential leaf)).
  - left. by exists leaf.
  - destruct (match pc_didOfLeaf context removed with Some _ => _ | None => _ end); [done|].
    destruct (bool_decide (sender = Some removed)) eqn:Hs; [|by destruct (pc_didOfLeaf context removed)].
    apply bool_decide_eq_true in Hs. intros _. right. by exists removed.
Qed.

End facts.

#[local] Open Scope string_scope.

(** ** A concrete commit: an admin invites Bob, whose grant rides the same commit *)

Definition demo_parse (view : bytes) : option json :=
  match view with [] => None | _ => Some (JObj [("id", JStr (String.string_of_list_byte view))]) end%string.

Definition demo_context : CommitPolicyContext :=
  mkPolicyContext {["did:root" := Admin]} {["did:root" := Admin; "did:bob" := Member]}
    (λ leaf, if decide (leaf = 0) then Some "did:root" else None) (λ _, None)
    [mkExtension LEDGER_HEAD_EXTENSION_TYPE (Raw (utf8 "h0"))] (utf8 "h1") true [] false None.

Definition demo_proposals : list ProposalWithSender :=
  [mkProposal (Add (mkLeaf (Basic (utf8 "did:bob")) [])) None;
   mkProposal (GroupContextExtensions [mkExtension LEDGER_HEAD_EXTENSION_TYPE (Raw (utf8 "h1"))]) None].

