(* ===== verification/GroupHandle.v ===== *)
(** * Receiving a commit

    packages/mls/src/group-handle.ts: how a group handle takes in a commit or a proposal. Its ledger
    entries are resolved and content-addressed, folded strictly over the current roster and registry,
    the device entries proved (device-proof.ts), the policy consulted, and only then is the state
    replaced, all of it or nothing. The MLS library, the token library and the lifecycle gate are
    parameters; the gate can only refuse. LifecycleGate.v is that gate. *)

From S2P Require Import Prelude HubProtocol Json ControllerLog GroupFold Credential LedgerHead Policy.

(** ** State *)

Record HeldLedgerEntry := mkHeld { hl_token : string; hl_verified : VerifiedLedgerEntry json }.
Record LedgerLogEntry := mkLog { ll_entryID : string; ll_held : HeldLedgerEntry }.

(** What the handle reads of the MLS library's client state. *)
Record MlsState := mkMls {
  ml_epoch : Z;
  ml_tree : RatchetTree;
  ml_extensions : list GroupContextExtension;
  ml_removedFromGroup : bool;
}.

Record GroupHandle := mkGroup {
  gh_groupID : string;
  gh_anchor : GroupAnchor;
  gh_state : MlsState;
  gh_ledger : list LedgerLogEntry;
  gh_entryBodies : gmap string HeldLedgerEntry;
  gh_roster : RosterState;
  gh_registry : DeviceRegistry;
}.

(** A received frame: a private commit with its cleartext authenticated data, an external commit with
    its path leaf, or a standalone proposal of an epoch. The rest of the frame is
    opaque to the handle. *)
Inductive Frame :=
  | PrivateCommit (authenticatedData : bytes) (wire : bytes)
  | ExternalCommit (pathLeaf : option Leaf) (wire : bytes)
  | StandaloneProposal (epoch : Z) (wire : bytes).

(** [externalLeaf]. *)
Definition pathLeafOf (frame : Frame) : option Leaf :=
  match frame with ExternalCommit pathLeaf _ => pathLeaf | _ => None end.

(** What the MLS library makes of a frame that authenticates: what it shows the callback, and the state
    it moves to when the callback accepts. *)
Record MlsOutcome := mkOutcome { mo_incoming : IncomingMessage; mo_state : MlsState }.

Inductive ProcessError :=
  | MissingLedgerEntriesError (ids : list string)
  | CommitRejectedError
  | PersistError.

(** A commit's effect beyond the state: the entries surfaced to the consumer, the device entries enacted. *)
Record Notification := mkNotification {
  no_surfaced : list (VerifiedLedgerEntry json);
  no_devices : list (VerifiedLedgerEntry json);
}.

Definition inputOf (e : LedgerLogEntry) : FoldInput json := mkFoldInput (hl_verified (ll_held e)) (ll_entryID e).
Definition verifiedOf (e : LedgerLogEntry) : VerifiedLedgerEntry json := hl_verified (ll_held e).

Section handle.
Context (normalizeDID : string -> string) (isControllerLog : json -> bool)
        (lifecycleApply : VerifiedLedgerEntry json -> DeviceRegistry -> string -> option DeviceRegistry)
        (parseJSON : bytes -> option json) (sha256 : bytes -> bytes).

(** The token library: the issuer and payload of a token that verifies, and its content id. *)
Context (verifyToken : string -> option (string * json)) (ledgerEntryDigest : string -> string).

(** ** ledger.ts *)

Definition verifyLedgerEntry (token : string) : option (VerifiedLedgerEntry json) :=
  match verifyToken token with
  | None => None
  | Some (iss, payload) =>
    match get "type" payload, get "groupID" payload, get "subject" payload with
    | Some (JStr type), Some (JStr groupID), Some (JStr subject) =>
      if negb (optional isString (get "ord" payload)) then None
      else Some (mkVerified (normalizeDID iss)
                   (mkLedgerEntry type groupID subject (default JNull (get "value" payload))))
    | _, _, _ => None
    end
  end%string.

(** ** device-proof.ts *)

Record LeafBinding := mkLeafBinding { lb_controller : option ControllerBinding; lb_leafKey : bytes }.

Definition bindingOfDID (tree : RatchetTree) (did : string) : option LeafBinding :=
  let target := normalizeDID did in
  let named node := match identityOf parseJSON node with
                    | Some parsed => bool_decide (normalizeDID (ci_id parsed) = target)
                    | None => false
                    end in
  match list_find (fun node => named node = true) tree with
  | Some (_, Some leaf) =>
    Some (mkLeafBinding (identityOf parseJSON (Some leaf) ≫= ci_controller) (lf_signaturePublicKey leaf))
  | _ => None
  end.

Definition controllerID (binding : option LeafBinding) : option string :=
  cb_id <$> (binding ≫= lb_controller).

(** The management capability check of authentication.ts: the capability, the log prefix that resolves
    its signature, the profile, the audience and the leaf key it is pinned to. *)
Context (verifyManagementCapability : option string -> list json -> string -> string -> bytes -> bool).

Definition verifyDeviceEntry (verified : VerifiedLedgerEntry json) (tree : RatchetTree)
    (registry : DeviceRegistry) : bool :=
  let issuer := normalizeDID (ve_issuer verified) in
  let subject := normalizeDID (le_subject (ve_entry verified)) in
  let value := le_value (ve_entry verified) in
  let same a b := bool_decide (normalizeDID a = normalizeDID b) in
  let binding := bindingOfDID tree issuer in
  if bool_decide (opOf value = Some op_beacon) then
    match controllerID binding with
    | None => false
    | Some controller => bool_decide (normalizeDID controller = subject)
    end
  else if bool_decide (opOf value = Some op_reset ∨ opOf value = Some op_clock) || has "proof" value then false
  else
    let recorded := controllerOf normalizeDID registry subject in
    let claimed := if bool_decide (opOf value = Some op_register ∨ opOf value = Some op_add)
                   then optString (get "controller" value) else recorded in
    match claimed with
    | None => false
    | Some subjectController =>
      if match recorded with Some r => negb (same r subjectController) | None => false end then false
      else if match bindingOfDID tree subject with
              | None => false
              | Some b => match controllerID (Some b) with
                          | None => true
                          | Some c => negb (same c subjectController)
                          end
              end then false
      else if bool_decide (opOf value = Some op_register) && bool_decide (subject = issuer) then
        match controllerID binding with
        | None => false
        | Some controller => same controller subjectController
        end
      else match binding ≫= lb_controller with
      | None => false
      | Some b =>
        if negb (same (cb_id b) subjectController) then false
        else verifyManagementCapability (optString (get "capability" value)) (cb_prefix b)
               (normalizeDID subjectController) issuer (default [] (lb_leafKey <$> binding))
      end
    end%string.

(** ** Resolving the entries of a commit *)

Context (resolveLedgerEntries : option (list string -> list string)).

Definition isMissing (bodies : gmap string HeldLedgerEntry) (id : string) : bool :=
  absent (bodies !! id).

Definition resolveHeld (bodies : gmap string HeldLedgerEntry) (ids : list string) : gmap string HeldLedgerEntry :=
  foldl (fun resolved id =>
    match bodies !! id with Some held => <[id := held]> resolved | None => resolved end) ∅ ids.

(** One fetched token: kept only under the id it was asked for. *)
Definition resolveToken (missing : list string) (resolved : gmap string HeldLedgerEntry) (token : string) :
    gmap string HeldLedgerEntry :=
  let id := ledgerEntryDigest token in
  if negb (absent (resolved !! id)) || negb (bool_decide (id ∈ missing)) then resolved
  else match verifyLedgerEntry token with
  | None => resolved
  | Some verified => <[id := mkHeld token verified]> resolved
  end.

Definition orderEntries (resolved : gmap string HeldLedgerEntry) (ids : list string) :
    result ProcessError (list LedgerLogEntry) :=
  match filter (fun id => isMissing resolved id = true) ids with
  | [] => Ok (omap (fun id => mkLog id <$> resolved !! id) ids)
  | id :: _ => Err (MissingLedgerEntriesError [id])
  end.

Definition resolveEntries (bodies : gmap string HeldLedgerEntry) (ids : list string) :
    result ProcessError (list LedgerLogEntry) :=
  let resolved := resolveHeld bodies ids in
  let missing := filter (fun id => isMissing bodies id = true) ids in
  if (length missing =? 0)%nat then orderEntries resolved ids
  else match resolveLedgerEntries with
  | None => Err (MissingLedgerEntriesError missing)
  | Some fetch =>
    let resolved := foldl (resolveToken missing) resolved (fetch missing) in
    match filter (fun id => isMissing resolved id = true) missing with
    | [] => orderEntries resolved ids
    | stillMissing => Err (MissingLedgerEntriesError stillMissing)
    end
  end.

(** ** [#prepareCommitPipeline] *)

(** The lifecycle gate of lifecycle.ts and the checks it runs on the state MLS produced; the caller's
    own policy, when it has one; the re-admission rule of a lifecycle group. *)
Context (gate : GroupHandle -> option Leaf -> list (VerifiedLedgerEntry json) -> DeviceRegistry -> CommitPolicyContext ->
                IncomingMessage -> bool)
        (postApply : GroupHandle -> option Leaf -> list (VerifiedLedgerEntry json) -> DeviceRegistry ->
                     CommitPolicyContext -> IncomingMessage -> MlsState -> bool)
        (callerPolicy : option (IncomingMessage -> IncomingMessageAction))
        (mayReadmitResetDevice : DeviceRegistry -> MLSCredentialIdentity -> bool).

Record CommitPipeline := mkPipeline {
  cp_precomputedReject : bool;
  cp_candidateRoster : RosterState;
  cp_candidateRegistry : DeviceRegistry;
  cp_surfaced : list (VerifiedLedgerEntry json);
  cp_acceptedEntries : list LedgerLogEntry;
  cp_envelopeIDs : list string;
  cp_externalCommitDID : option string;
}.

Definition isDeviceEntry (verified : VerifiedLedgerEntry json) : bool :=
  bool_decide (le_type (ve_entry verified) = DEVICE_ENTRY_TYPE).

(** The device entries the proof gate judges: all of them, or the beacons of a lifecycle group. *)
Definition proofGated (anchor : GroupAnchor) (verified : VerifiedLedgerEntry json) : bool :=
  isDeviceEntry verified &&
  (absent (ga_controller anchor) || bool_decide (opOf (le_value (ve_entry verified)) = Some op_beacon)).

Definition envelopeContext (g : GroupHandle) : option FoldEnvelopeContext :=
  (fun controller => mkEnvelopeContext controller
    (fun did => controllerID (bindingOfDID (ml_tree (gh_state g)) did))) <$> ga_controller (gh_anchor g).

Definition noEntries (g : GroupHandle) (reject : bool) (ids : list string) (did : option string) : CommitPipeline :=
  mkPipeline reject (gh_roster g) (gh_registry g) [] [] ids did.

Definition prepareCommitPipeline (g : GroupHandle) (frame : Frame) : result ProcessError CommitPipeline :=
  match frame with
  | StandaloneProposal _ _ => Ok (noEntries g false [] None)
  | ExternalCommit pathLeaf _ =>
    let did := ci_id <$> identityOf parseJSON pathLeaf in
    Ok (noEntries g (absent did) [] did)
  | PrivateCommit authenticatedData _ =>
    match decodeControlEnvelope parseJSON authenticatedData with
    | Err _ => Ok (noEntries g true [] None)
    | Ok envelope =>
      let ids := default [] (ce_entries envelope) in
      match resolveEntries (gh_entryBodies g) ids with
      | Err e => Err e
      | Ok ordered =>
        match foldEnvelope normalizeDID isControllerLog lifecycleApply
                (mkControl (gh_roster g) (gh_registry g)) (map inputOf ordered) (gh_groupID g) (envelopeContext g) with
        | Err _ => Ok (noEntries g true ids None)
        | Ok w =>
          let proved := forallb (fun e => negb (proofGated (gh_anchor g) (verifiedOf e)) ||
                          verifyDeviceEntry (verifiedOf e) (ml_tree (gh_state g)) (gh_registry g)) ordered in
          Ok (mkPipeline (negb proved) (en_roster w) (en_registry w) (en_surfaced w) ordered ids None)
        end
      end
    end
  end.

Definition enactedDeviceEntries (accepted : list LedgerLogEntry) : list (string * option DeviceOp) :=
  map (fun e => (normalizeDID (le_subject (ve_entry (verifiedOf e))), opOf (le_value (ve_entry (verifiedOf e)))))
    (filter (fun e => isDeviceEntry (verifiedOf e) = true) accepted).

Definition policyContext (g : GroupHandle) (p : CommitPipeline) : CommitPolicyContext :=
  buildCommitPolicyContext normalizeDID parseJSON sha256 (ml_tree (gh_state g)) (ml_extensions (gh_state g))
    (gh_registry g) (gh_roster g) (cp_candidateRoster p) (cp_envelopeIDs p)
    (enactedDeviceEntries (cp_acceptedEntries p)) (cp_externalCommitDID p).

(** The callback of [processMessage]. *)
Definition combined (g : GroupHandle) (pathLeaf : option Leaf) (p : CommitPipeline) (incoming : IncomingMessage) :
    IncomingMessageAction :=
  if cp_precomputedReject p then Reject
  else if negb (gate g pathLeaf (map verifiedOf (cp_acceptedEntries p)) (cp_candidateRegistry p) (policyContext g p) incoming)
  then Reject
  else match callerPolicy with
  | Some policy => policy incoming
  | None => if absent (ga_controller (gh_anchor g))
            then defaultCommitPolicy normalizeDID parseJSON incoming (policyContext g p) else Accept
  end.

(** ** [applyOnAccept] and [processMessage] *)

(** Re-admissions the tree of a lifecycle group shows. *)
Definition registryWithTreeBindings (registry : DeviceRegistry) (tree : RatchetTree) (anchor : GroupAnchor) :
    DeviceRegistry :=
  if absent (ga_controller anchor) then registry
  else foldl (fun acc node =>
    match identityOf parseJSON node with
    | None => acc
    | Some parsed =>
      if negb (mayReadmitResetDevice registry parsed) then acc
      else let did := normalizeDID (ci_id parsed) in
      match reg_devices acc !! did with
      | None => acc
      | Some record => setDevice did (mkDeviceRecord (dr_controller record) Active (dr_label record) None false None) acc
      end
    end) registry tree.

(** The handle's state after an accepted commit: MLS has already moved. *)
Definition applyOnAccept (g : GroupHandle) (state : MlsState) (p : CommitPipeline) : GroupHandle :=
  let ledger := gh_ledger g ++ cp_acceptedEntries p in
  let folded := foldControl normalizeDID isControllerLog lifecycleApply (map inputOf ledger)
                  (gh_anchor g) (gh_groupID g) in
  mkGroup (gh_groupID g) (gh_anchor g) state ledger
    (foldl (fun bodies e => <[ll_entryID e := ll_held e]> bodies) (gh_entryBodies g) (cp_acceptedEntries p))
    (cp_candidateRoster p)
    (registryWithTreeBindings (ct_registry folded) (ml_tree state) (gh_anchor g)).

(** The MLS library: [None] when the frame does not authenticate or decode. *)
Context (mlsProcessMessage : MlsState -> Frame -> option MlsOutcome).

(** [processMessage]. [persist] answers whether the host stored the new state; [None] is a caller that
    passed no [persist]. A proposal of a past epoch is ignored. *)
Definition processMessage (g : GroupHandle) (frame : Frame) (persist : option (GroupHandle -> bool)) :
    GroupHandle * result ProcessError Notification :=
  if match frame with StandaloneProposal epoch _ => (epoch <? ml_epoch (gh_state g))%Z | _ => false end
  then (g, Ok (mkNotification [] []))
  else match prepareCommitPipeline g frame with
  | Err e => (g, Err e)
  | Ok p =>
    match mlsProcessMessage (gh_state g) frame with
    | None => (g, Err CommitRejectedError)
    | Some outcome =>
      match combined g (pathLeafOf frame) p (mo_incoming outcome) with
      | Reject => (g, Err CommitRejectedError)
      | Accept =>
        if negb (postApply g (pathLeafOf frame) (map verifiedOf (cp_acceptedEntries p)) (cp_candidateRegistry p)
                   (policyContext g p) (mo_incoming outcome) (mo_state outcome))
        then (g, Err CommitRejectedError)
        else
          let next := applyOnAccept g (mo_state outcome) p in
          let devices := filter (fun v => isDeviceEntry v = true) (map verifiedOf (cp_acceptedEntries p)) in
          let notification := mkNotification (cp_surfaced p) devices in
          match persist with
          | Some persist => if persist next then (next, Ok notification) else (g, Err PersistError)
          | None => (next, Ok notification)
          end
      end
    end
  end.
End handle.
