(* ===== verification/Capability.v ===== *)
(** * Leaf capabilities

    packages/mls/src: the tokens a controller and its members sign for devices. capability.ts reads and
    checks their claims and prepares the ones this device mints; authentication.ts pins one to a leaf and
    asks a chained leaf for its holder's own grant. Signatures, permissions and DID documents are
    @kokuin/token's and @kokuin/capability's: a class of operations. A claim that is not a number counts as
    [NaN] in a comparison. *)

From S2P Require Import Prelude HubProtocol Json ControllerLog GroupFold Credential LedgerHead.

(** ** @kokuin/token and @kokuin/capability *)

(** What a resolver answers from: the prefix a leaf carries, the recorded log of the registry when there is
    one, and the deny set. *)
Record Resolver := mkResolver {
  rs_controller : string;
  rs_prefix : list json;
  rs_registry : bool;
  rs_recorded : option ControllerLog;
  rs_denied : gset string;
}.

Record VerificationMethod := mkMethod { vm_id : string; vm_publicKeyMultibase : option string }.

(** A decoded did:peer:4: its short form and the parts of its document that are read. *)
Record Peer4 := mkPeer4 {
  p4_shortForm : string;
  p4_authentication : list string;
  p4_verificationMethod : list VerificationMethod;
}.

Class TokenLib := {
  b64uToJSON : string -> option json;
  isSignedToken : json -> json -> bool;
  hasPermission : string * string -> json -> bool;
  audienceConfirmation : bytes -> json;
  isPeer4 : string -> bool;
  decodePeer4 : string -> option Peer4;
  decodeMultibase : string -> option bytes;
  getAlgorithmAndPublicKey : bytes -> option bytes;
  getSignatureInfo : string -> option bytes;
  verifySignature : option json -> string -> string -> bytes -> bool;
  verifyToken : Resolver -> string -> num -> bool;
  checkCapability : Resolver -> string * string -> json -> num -> bool;
  validAt : json -> num -> bool;
  validDelegation : json -> json -> num -> bool;
  resolveMember : Resolver -> string -> string -> Z -> option bytes;
  parseJSON : bytes -> option json;
}.

(** [split] of a string. *)
Fixpoint splitAt (c : ascii) (s : string) : list string :=
  match s with
  | EmptyString => [EmptyString]
  | String d s' =>
    if Ascii.eqb c d then EmptyString :: splitAt c s'
    else match splitAt c s' with
         | part :: parts => String d part :: parts
         | [] => [String d EmptyString]
         end
  end.

Section capability.
Context {lib : ControllerLib} {tokens : TokenLib}.

(** ** capability.ts: reading *)

Definition MLS_LEAF_ACT : string := "authenticate".
Definition MLS_LEAF_RES : string := "kumiai/mls-leaf".
Definition leafPermission : string * string := (MLS_LEAF_ACT, MLS_LEAF_RES).

Record SignedToken := mkToken { tk_header : json; tk_payload : json; tk_signature : string; tk_data : string }.

Definition isPermissionPart (v : option json) : bool :=
  isString v || everyItem (fun part => isString (Some part)) v.

Definition readCapability (raw : string) : checked SignedToken :=
  match splitAt "." raw with
  | [header; payload; signature] =>
    if bool_decide (header = "" ∨ payload = "" ∨ signature = "")%string
    then Err (OtherError "Invalid capability encoding")
    else match b64uToJSON header, b64uToJSON payload with
    | Some h, Some claims =>
      if negb (isSignedToken h claims) then Err (OtherError "Invalid signed capability")
      else if negb (isString (get "sub" claims) && isString (get "aud" claims))
      then Err (OtherError "Invalid capability subject or audience")
      else if negb (isPermissionPart (get "act" claims) && isPermissionPart (get "res" claims))
      then Err (OtherError "Invalid capability permission")
      else Ok (mkToken h claims signature (header +:+ "." +:+ payload)%string)
    | _, _ => Err (OtherError "Invalid JSON")
    end
  | _ => Err (OtherError "Invalid capability encoding")
  end.

(** [readCapability(raw).payload]. *)
Definition capabilityOf (raw : string) : checked json := tk_payload <$> readCapability raw.

Definition iat (payload : json) : num := numOf (get "iat" payload).
Definition exp (payload : json) : num := numOf (get "exp" payload).
(** [payload.exp], when it is neither missing nor [null]. *)
Definition expiryOf (payload : json) : option num :=
  if notNull (get "exp" payload) then Some (exp payload) else None.

Definition issuerOf (payload : json) : string := stringOf (get "iss" payload).
Definition audienceOf (payload : json) : string := stringOf (get "aud" payload).
Definition subjectOf (payload : json) : string := stringOf (get "sub" payload).

(** [payload.mbr], when it is neither missing nor [null]. *)
Definition memberOf (payload : json) : option (string * num) :=
  match get "mbr" payload with
  | None | Some JNull => None
  | Some m => Some (stringOf (get "add" m), numOf (get "g" m))
  end.

(** [Array.isArray(cap) ? cap[0] : cap], when it is neither missing nor [null]. *)
Definition parentOf (payload : json) : option json :=
  match get "cap" payload with
  | Some (JArr (JNull :: _)) | Some (JArr []) | Some JNull | None => None
  | Some (JArr (parent :: _)) => Some parent
  | Some parent => Some parent
  end.

(** [readCapability] of a claim that ought to be a token. *)
Definition readParent (v : json) : checked SignedToken :=
  match v with JStr raw => readCapability raw | _ => Err (OtherError "raw.split is not a function") end.

(** ** capability.ts: checks *)

Definition assertCapabilityLifetime (payload : json) (maximum : Z) : checked unit :=
  throwIf (negb (finite (iat payload)) || negb (finite (exp payload)) || nle (exp payload) (iat payload) ||
           gapExceeds (exp payload) (iat payload) maximum || (maximum <=? 0)%Z) (LeafBindingError lifetime_cap) ;;
  throwIf (has "nbf" payload && negb (finite (numOf (get "nbf" payload))))
    (OtherError "Invalid capability not-before claim").

Definition capabilityKey (payload : json) : checked bytes :=
  match get "cnf" payload with
  | Some (JObj [(key, JStr kid)]) =>
    if negb (bool_decide (key = "kid"%string)) then Err (LeafBindingError confirmation_invalid)
    else match tryDecodeKey kid with
    | Some (alg, publicKey) =>
      if bool_decide (alg = "EdDSA"%string) then Ok publicKey
      else Err (OtherError "Invalid capability confirmation key")
    | None => Err (OtherError "Invalid capability confirmation key")
    end
  | _ => Err (LeafBindingError confirmation_invalid)
  end.

Definition assertControllerGrant (payload : json) (controllerID : string) : checked unit :=
  throwIf (has "mbr" payload && absent (memberClaim (get "mbr" payload))) (LeafBindingError issuer_mismatch) ;;
  throwIf (negb (has "mbr" payload) && negb (sameDID (issuerOf payload) controllerID))
    (LeafBindingError issuer_mismatch) ;;
  throwIf (negb (sameDID (subjectOf payload) controllerID)) (LeafBindingError subject_mismatch).

(** ** capability.ts: minting. What is minted is the payload the signer signs. *)

Record MintParams := mkMint {
  mp_signerID : string;
  mp_signerKey : bytes;
  mp_controllerID : string;
  mp_audience : string;
  mp_leafKey : bytes;
  mp_exp : number;
  mp_parent : option string;
  mp_member : option MemberClaim;
}.

Definition memberClaimValue (m : MemberClaim) : json :=
  JObj [("add"%string, JStr (mc_add m)); ("g"%string, JNum (Int (mc_g m)))].

Definition issuingPayload (params : MintParams) (now : number) (maximum : Z) : checked json :=
  throwIf (negb (String.prefix "did:kokuin:" (mp_controllerID params))) (LeafBindingError controller_mismatch) ;;
  assertCapabilityLifetime (JObj [("iat"%string, JNum now); ("exp"%string, JNum (mp_exp params))]) maximum ;;
  let cnf := audienceConfirmation (mp_leafKey params) in
  capabilityKey (JObj [("cnf"%string, cnf)]) ;;
  Ok (JObj ([("sub"%string, JStr (mp_controllerID params)); ("aud"%string, JStr (mp_audience params));
             ("act"%string, JStr MLS_LEAF_ACT); ("res"%string, JStr MLS_LEAF_RES); ("cnf"%string, cnf);
             ("iat"%string, JNum now); ("exp"%string, JNum (mp_exp params))] ++
            fieldOf "mbr" memberClaimValue (mp_member params))).

(** [signToken] adds the issuer. *)
Definition issuedBy (issuer : string) (payload : json) : json :=
  match payload with JObj fields => JObj (fields ++ [("iss"%string, JStr issuer)]) | _ => payload end.

Definition withField (key : string) (v : json) (payload : json) : json :=
  match payload with JObj fields => JObj (fields ++ [(key, v)]) | _ => payload end.

(** A grant that only a controller signs, unless it is a member's. *)
Definition checkIssuingController (params : MintParams) (payload : json) : checked unit :=
  match mp_member params with
  | Some _ => Ok tt
  | None => assertControllerGrant (issuedBy (mp_signerID params) payload) (mp_controllerID params)
  end.

Definition checkIssuingParent (params : MintParams) (payload : json) (raw : string) : checked unit :=
  parent ← capabilityOf raw;
  throwIf (has "cap" parent) (LeafBindingError chain_depth) ;;
  assertControllerGrant parent (mp_controllerID params) ;;
  throwIf (negb (hasPermission leafPermission parent)) (OtherError "Parent does not grant leaf authentication") ;;
  assertCapabilityLifetime parent MAX_TRUSTED_GRANT_LIFETIME ;;
  throwIf (negb (sameDID (audienceOf parent) (mp_signerID params))) (LeafBindingError issuer_mismatch) ;;
  key ← capabilityKey parent;
  throwIf (negb (bytesEqual key (mp_signerKey params))) (LeafBindingError issuer_mismatch) ;;
  throwIf (nlt (exp parent) (exp payload)) (LeafBindingError child_outlives_parent) ;;
  throwIf (nlt (iat payload) (iat parent) || nlt (exp parent) (iat payload) ||
           (notNull (get "nbf" parent) && nlt (iat payload) (numOf (get "nbf" parent))))
    (OtherError "Parent capability is not valid at issuance").

Definition mintLeafCapability (params : MintParams) (now : number) : checked json :=
  payload ← issuingPayload params now MAX_LEAF_LIFETIME;
  throwIf (sameDID (mp_audience params) (mp_signerID params)) (LeafBindingError self_issued) ;;
  match mp_parent params with
  | None => checkIssuingController params payload ;; Ok (issuedBy (mp_signerID params) payload)
  | Some raw =>
    checkIssuingParent params payload raw ;;
    Ok (issuedBy (mp_signerID params) (withField "cap" (JStr raw) payload))
  end.

Definition mintTrustedGrant (params : MintParams) (now : number) : checked json :=
  payload ← issuingPayload params now MAX_TRUSTED_GRANT_LIFETIME;
  throwIf (sameDID (mp_audience params) (mp_signerID params)) (LeafBindingError self_issued) ;;
  checkIssuingController params payload ;;
  Ok (issuedBy (mp_signerID params) payload).

(** ** authentication.ts: the leaf key *)

(** The keys a did:peer:4 document lets authenticate. *)
Definition methodKey (vm : VerificationMethod) : option bytes :=
  multibase ← vm_publicKeyMultibase vm; key ← decodeMultibase multibase; getAlgorithmAndPublicKey key.

Definition authenticationKeys (doc : Peer4) : list bytes :=
  omap methodKey (filter (fun vm => vm_id vm ∈ p4_authentication doc) (p4_verificationMethod doc)).

Definition matchesLeafKey (parsed : MLSCredentialIdentity) (signaturePublicKey : bytes) : bool :=
  if isPeer4 (ci_id parsed) then
    match ci_longForm parsed ≫= decodePeer4 with
    | None => false
    | Some doc =>
      bool_decide (p4_shortForm doc = ci_id parsed) &&
      existsb (fun key => bytesEqual key signaturePublicKey) (authenticationKeys doc)
    end
  else match getSignatureInfo (ci_id parsed) with
  | Some key => bytesEqual key signaturePublicKey
  | None => false
  end.

Definition isDenied (denied : gset string) (did : string) : bool :=
  bool_decide (did ∈ denied) || bool_decide (normalizeDID did ∈ denied).

(** ** authentication.ts: [verifyPinnedCapability] *)

Record PinParams := mkPin {
  pp_capability : string;
  pp_resolver : Resolver;
  pp_structural : bool;
  pp_prefix : list json;
  pp_controllerID : string;
  pp_audience : string;
  pp_permission : string * string;
  pp_leafKey : bytes;
  pp_denySet : gset string;
  pp_leafLifetime : option Z;
  pp_trustedGrantLifetime : option Z;
  pp_directOnly : bool;
  pp_trustedGrant : bool;
}.

Definition libraryRefusal (ok : bool) : checked unit := throwIf (negb ok) (OtherError "token").

(** [Math.min(lifetime ?? ceiling, ceiling)]. *)
Definition cappedLifetime (lifetime : option Z) (ceiling : Z) : Z := Z.min (default ceiling lifetime) ceiling.

Definition foldsChain (did : string) (prefix : list json) : bool :=
  match foldChain did prefix with Folded _ => true | Unfolded _ _ => false end.

Definition pinnedResolver (params : PinParams) : Resolver :=
  let base := pp_resolver params in
  mkResolver (rs_controller base) (rs_prefix base) (rs_registry base) (rs_recorded base) (pp_denySet params).

(** The library's walk of a capability at the leaf's issuance, which a structural check leaves out. *)
Definition checkPinned (params : PinParams) (atTime : num) (claims : json) : checked unit :=
  if pp_structural params then Ok tt
  else libraryRefusal (checkCapability (pinnedResolver params) (pp_permission params) claims atTime).

Definition verifyDirect (params : PinParams) (payload : json) : checked unit :=
  assertControllerGrant payload (pp_controllerID params) ;;
  libraryRefusal (verifyToken (pinnedResolver params) (pp_capability params) (iat payload)) ;;
  checkPinned params (iat payload) payload.

Definition oneParent (payload : json) : checked json :=
  match get "cap" payload with
  | Some (JArr [parent]) => if notNull (Some parent) then Ok parent else Err (LeafBindingError chain_depth)
  | Some (JArr _) | Some JNull | None => Err (LeafBindingError chain_depth)
  | Some parent => Ok parent
  end.

Definition verifyChained (params : PinParams) (token : SignedToken) : checked unit :=
  let payload := tk_payload token in
  throwIf (pp_directOnly params) (LeafBindingError chain_depth) ;;
  parentRaw ← oneParent payload;
  parentToken ← readParent parentRaw;
  let parent := tk_payload parentToken in
  throwIf (has "cap" parent) (LeafBindingError chain_depth) ;;
  assertControllerGrant parent (pp_controllerID params) ;;
  assertCapabilityLifetime parent (cappedLifetime (pp_trustedGrantLifetime params) MAX_TRUSTED_GRANT_LIFETIME) ;;
  throwIf (negb (sameDID (issuerOf payload) (audienceOf parent))) (LeafBindingError issuer_mismatch) ;;
  throwIf (sameDID (audienceOf payload) (issuerOf payload)) (LeafBindingError self_issued) ;;
  throwIf (nlt (exp parent) (exp payload)) (LeafBindingError child_outlives_parent) ;;
  throwIf (negb (pp_structural params) && isDenied (pp_denySet params) (issuerOf payload))
    (LeafBindingError denied_issuer) ;;
  issuerKey ← capabilityKey parent;
  throwIf (negb (bool_decide (optString (get "alg" (tk_header token)) = Some "EdDSA"%string)))
    (LeafBindingError signature_invalid) ;;
  throwIf (negb (verifySignature (get "alg" (tk_header token)) (tk_signature token) (tk_data token) issuerKey))
    (LeafBindingError signature_invalid) ;;
  libraryRefusal (validAt payload (iat payload)) ;;
  libraryRefusal (verifyToken (pinnedResolver params) (stringOf (Some parentRaw)) (iat payload)) ;;
  libraryRefusal (validDelegation parent payload (iat payload)) ;;
  (if sameDID (issuerOf payload) (subjectOf payload) then checkPinned params (iat payload) parent else Ok tt) ;;
  checkPinned params (iat payload) payload.

Definition verifyPinnedCapability (params : PinParams) : checked unit :=
  throwIf (negb (String.prefix "did:kokuin:" (pp_controllerID params)) ||
           negb (foldsChain (pp_controllerID params) (pp_prefix params))) (LeafBindingError controller_mismatch) ;;
  token ← readCapability (pp_capability params);
  let payload := tk_payload token in
  let ceiling := if pp_trustedGrant params then MAX_TRUSTED_GRANT_LIFETIME else MAX_LEAF_LIFETIME in
  let lifetime := if pp_trustedGrant params then pp_trustedGrantLifetime params else pp_leafLifetime params in
  assertCapabilityLifetime payload (cappedLifetime lifetime ceiling) ;;
  throwIf (negb (sameDID (subjectOf payload) (pp_controllerID params))) (LeafBindingError subject_mismatch) ;;
  throwIf (negb (sameDID (audienceOf payload) (pp_audience params))) (LeafBindingError audience_mismatch) ;;
  throwIf (negb (hasPermission (pp_permission params) payload)) (LeafBindingError permission_denied) ;;
  leafKey ← capabilityKey payload;
  throwIf (negb (bytesEqual leafKey (pp_leafKey params))) (LeafBindingError confirmation_invalid) ;;
  if has "cap" payload then verifyChained params token else verifyDirect params payload.

Definition MLS_DEVICES_ACT : string := "manage".
Definition MLS_DEVICES_RES : string := "kumiai/devices".

(** The resolver of a prefix alone. *)
Definition prefixResolver (controllerID : string) (prefix : list json) : Resolver :=
  mkResolver (normalizeDID controllerID) prefix false None ∅.

Definition verifyManagementCapability (capability : option string) (prefix : list json)
    (controllerID audience : string) (leafKey : bytes) : bool :=
  match capability with
  | None => false
  | Some raw =>
    is_ok (
      payload ← capabilityOf raw;
      throwIf (match memberOf payload with Some _ => true | None => false end) (OtherError "member") ;;
      verifyPinnedCapability
        (mkPin raw (prefixResolver controllerID prefix) false prefix controllerID audience
           (MLS_DEVICES_ACT, MLS_DEVICES_RES) leafKey ∅ None None true false))
  end.

(** ** authentication.ts: holder evidence *)

(** What a failed check of the holder's grant is reported as. *)
Definition holderError (grant : checked json) (e : LifecycleError) : LifecycleError :=
  if bool_decide (e = LeafBindingError lifetime_cap) &&
     match grant with Ok payload => negb (absent (memberOf payload)) | Err _ => false end
  then e else LeafBindingError holder_evidence_mismatch.

Definition checkHolderGrant (parsed : MLSCredentialIdentity) (controllerID : string) (signaturePublicKey : bytes)
    (trustedGrantLifetime : Z) (leafPayload grant : json) : checked unit :=
  assertControllerGrant grant controllerID ;;
  assertCapabilityLifetime grant (Z.min trustedGrantLifetime MAX_TRUSTED_GRANT_LIFETIME) ;;
  throwIf (has "cap" grant || nlt (iat leafPayload) (iat grant) || nle (exp grant) (iat leafPayload) ||
           (notNull (get "nbf" grant) && nlt (iat leafPayload) (numOf (get "nbf" grant))) ||
           negb (sameDID (audienceOf grant) (ci_id parsed))) (LeafBindingError holder_evidence_mismatch) ;;
  key ← capabilityKey grant;
  throwIf (negb (bytesEqual key signaturePublicKey) || negb (hasPermission leafPermission grant))
    (LeafBindingError holder_evidence_mismatch).

(** The holder's grant of a chained leaf; a leaf without a chain carries none. *)
Definition checkHolderEvidence (parsed : MLSCredentialIdentity) (signaturePublicKey : bytes)
    (trustedGrantLifetime : Z) : checked (option string) :=
  match ci_controller parsed with
  | None => Ok None
  | Some binding =>
    match cb_member binding, cb_capability binding with
    | Some _, _ => Ok None
    | None, None => Err (LeafBindingError controller_mismatch)
    | None, Some capability =>
      leafPayload ← capabilityOf capability;
      match has "cap" leafPayload, cb_holderGrant binding with
      | false, Some _ => Err (LeafBindingError holder_evidence_mismatch)
      | false, None => Ok None
      | true, None => Err (LeafBindingError missing_holder_evidence)
      | true, Some raw =>
        match (grant ← capabilityOf raw;
               checkHolderGrant parsed (cb_id binding) signaturePublicKey trustedGrantLifetime leafPayload grant) with
        | Ok _ => Ok (Some raw)
        | Err e => Err (holderError (capabilityOf raw) e)
        end
      end
    end
  end.

Definition hasHolderEvidence (parsed : MLSCredentialIdentity) (signaturePublicKey : bytes)
    (denied : gset string) (trustedGrantLifetime : Z) : checked bool :=
  match ci_controller parsed with
  | None => Ok false
  | Some binding =>
    if negb (absent (cb_member binding)) || isDenied denied (ci_id parsed) then Ok false
    else match cb_capability binding with
    | None => Err (LeafBindingError controller_mismatch)
    | Some capability =>
      Ok match capabilityOf capability with
         | Err _ => false
         | Ok payload =>
           has "cap" payload &&
           match checkHolderEvidence parsed signaturePublicKey trustedGrantLifetime with
           | Ok (Some _) => true
           | _ => false
           end
         end
    end
  end.
End capability.
