(* ===== verification/MemberRoot.v ===== *)
(** * Authority under a controller

    packages/mls/src/member-root.ts: whose authority a leaf stands on, the controller's or a member's; which
    effects of a controller log (a device denied, a member removed) it proves, and where; the claims that an
    entry has to make; and the leaves that lose their standing when those effects are recorded. *)

From S2P Require Import Prelude HubProtocol Json ControllerLog GroupFold Credential LedgerHead Capability.

Inductive MemberRoot :=
  | RootController (controller : string)
  | RootMember (did add : string) (gen : num).

Inductive EvidenceSlot := SlotCapability | SlotParent | SlotHolder | SlotMembership | SlotSurvivor.

#[export] Instance EvidenceSlot_eq_dec : EqDecision EvidenceSlot.
Proof. solve_decision. Defined.

Inductive EffectClaim :=
  | DenyClaim (did : string) (ref : ProofRef)
  | RemoveClaim (did add : string) (ref : ProofRef).

Record RevokedEffect := mkRevoked { re_did : string; re_cascadedFrom : option string }.
Record RemovedEffect := mkRemovedEffect { rv_did : string; rv_cascadedFrom : string }.

#[export] Instance RevokedEffect_eq_dec : EqDecision RevokedEffect.
Proof. solve_decision. Defined.
#[export] Instance RemovedEffect_eq_dec : EqDecision RemovedEffect.
Proof. solve_decision. Defined.

Definition refOf (claim : EffectClaim) : ProofRef :=
  match claim with DenyClaim _ ref | RemoveClaim _ _ ref => ref end.

(** Which effect a claim is of, whatever its proof. *)
Inductive Target := TargetDeny (did : string) | TargetRemove (add : string).

#[export] Instance Target_eq_dec : EqDecision Target.
Proof. solve_decision. Defined.

(** ** Views of the registry *)

Definition lifecycleOf (registry : DeviceRegistry) (controller : string) : option Lifecycle :=
  cp_lifecycle <$> reg_controllers registry !! controller.

Definition denySetOf (registry : DeviceRegistry) : gset string :=
  dom (filter (fun kv => dr_status kv.2 = Revoked) (reg_devices registry)).

Section roots.
Context {lib : ControllerLib} {tokens : TokenLib}.

Definition recordedLogOf (registry : DeviceRegistry) (controller : string) : option ControllerLog :=
  lifecycleOf registry (normalizeDID controller) ≫= lc_recordedLog.

(** ** [memberRootsOf] *)

Definition payloadRoot (controller : string) (payload : json) : MemberRoot :=
  match memberOf payload with
  | None => RootController controller
  | Some (add, gen) => RootMember (issuerOf payload) add gen
  end.

Definition tokenRoot (controller raw : string) : checked MemberRoot :=
  payloadRoot controller <$> capabilityOf raw.

Definition memberRootsOf (binding : ControllerBinding) (leafDID : string) : checked (list (EvidenceSlot * MemberRoot)) :=
  match cb_member binding, cb_capability binding with
  | Some m, _ => Ok [(SlotMembership, RootMember leafDID (mc_add m) (numZ (mc_g m)))]
  | None, None => Err (LeafBindingError controller_mismatch)
  | None, Some raw =>
    payload ← capabilityOf raw;
    primary ← (match parentOf payload with
               | None => Ok (SlotCapability, payloadRoot (cb_id binding) payload)
               | Some parent => token ← readParent parent;
                                Ok (SlotParent, payloadRoot (cb_id binding) (tk_payload token))
               end);
    match cb_holderGrant binding with
    | None => Ok [primary]
    | Some grant => root ← tokenRoot (cb_id binding) grant; Ok [primary; (SlotHolder, root)]
    end
  end.

(** ** What a log proves *)

Definition foldedLog (controller : string) (log : ControllerLog) : checked FoldOk :=
  match foldControllerLog controller log with
  | Folded f => Ok f
  | Unfolded _ _ => Err (RevokeProofError effects_mismatch)
  end.

Definition denies (state : KeyState) (did : string) : bool :=
  existsb (fun entry => sameDID entry did) (ks_deny state).

(** [effectProofs]: the log with the fold that authenticates it. *)
Record EffectProofs := mkProofs { ef_did : string; ef_log : ControllerLog; ef_folded : FoldOk }.

Definition effectProofs (did : string) (log : ControllerLog) : checked EffectProofs :=
  mkProofs did log <$> foldedLog did log.

(** Each event of the log under its digest. *)
Definition eventMap (log : ControllerLog) : list (string * json) :=
  foldl (fun m signed => jm_set (digestOf (event signed)) signed m) [] (cl_events log).

(** A chain of an inception and rotations only: the controller itself signed every change. *)
Definition rootOnly (chain : list json) : bool :=
  forallb (fun p => isEvent (if (p.1 =? 0)%nat then "icp" else "rot") p.2) (imap pair chain).

Definition proofIndices (test : KeyState -> KeyState -> bool) (proofs : EffectProofs) : list nat :=
  filter (fun index => rotationAt test (cl_chain (ef_log proofs)) (fo_states (ef_folded proofs)) index = true)
    (seq 1 (length (fo_states (ef_folded proofs)) - 1)).

Definition snapshotAt (did : string) (prior state : KeyState) : bool :=
  (ks_gen prior <? ks_gen state)%Z && denies state did.

Definition revokeAt (chain : list json) (did : string) (prior state : KeyState) : bool :=
  rootOnly chain && sameGen prior state && denies state did && negb (denies prior did).

Definition dropAt (add : string) (prior state : KeyState) : bool :=
  sameGen prior state && liveMember add prior && negb (jm_has add (ks_members state)).

Definition tombstoneAt (add : string) (prior state : KeyState) : bool :=
  sameGen prior state && jm_has add (ks_tombstones state) && negb (jm_has add (ks_tombstones prior)).

Definition snapshots (proofs : EffectProofs) (did : string) : list nat := proofIndices (snapshotAt did) proofs.
Definition revokes (proofs : EffectProofs) (did : string) : list nat :=
  proofIndices (revokeAt (cl_chain (ef_log proofs)) did) proofs.
Definition drops (proofs : EffectProofs) (add : string) : list nat := proofIndices (dropAt add) proofs.
Definition tombstones (proofs : EffectProofs) (add : string) : list nat := proofIndices (tombstoneAt add) proofs.

(** The fold at an epoch: the last one, or the chain up to the state of that digest with all the events. *)
Definition viewAt (proofs : EffectProofs) (epoch : option string) : option FoldResult :=
  let f := ef_folded proofs in
  match epoch with
  | None => Some (Folded f)
  | Some e =>
    if bool_decide (e = ks_epoch (fo_head f)) then Some (Folded f)
    else match last (filter (fun p => ks_digest p.2 = e) (imap pair (fo_states f))) with
    | None => None
    | Some (anchor, _) =>
      Some (foldControllerLog (ef_did proofs)
              (mkControllerLog (take (S anchor) (cl_chain (ef_log proofs))) (cl_events (ef_log proofs))))
    end
  end.

Definition checkEventEffect (proofs : EffectProofs) (claim : EffectClaim) (genFloor : Z) (digest : string)
    (epoch : option string) : checked unit :=
  match viewAt proofs epoch with
  | None => Err (RevokeProofError no_rev)
  | Some (Unfolded _ _) => Err (RevokeProofError effects_mismatch)
  | Some (Folded f) =>
    match jm_get digest (eventMap (ef_log proofs)) with
    | None => Err (RevokeProofError no_rev)
    | Some signed =>
      throwIf (bool_decide (digest ∉ fo_applied f)) (RevokeProofError effects_mismatch) ;;
      throwIf (nlt (eventGen signed) (numZ genFloor)) (RevokeProofError below_generation_floor) ;;
      throwIf (negb match claim with
        | DenyClaim did _ => isEvent "rev" signed && sameDID (stringOf (eventField "x" signed)) did
        | RemoveClaim did add _ =>
          isEvent "rmv" signed && bool_decide (optString (eventField "add" signed) = Some add) &&
          match jm_get add (ks_members (fo_head f)) with
          | Some member => sameDID (ms_did member) did
          | None => false
          end
        end) (RevokeProofError effects_mismatch)
    end
  end.

Definition checkChainEffect (proofs : EffectProofs) (claim : EffectClaim) (index : nat) (prior state : KeyState) :
    checked unit :=
  match claim with
  | DenyClaim did _ => throwIf (bool_decide (index ∉ revokes proofs did)) (RevokeProofError no_rev)
  | RemoveClaim did add _ =>
    throwIf (match jm_get add (ks_members prior) with
             | Some member => negb (sameDID (ms_did member) did)
             | None => false
             end) (RevokeProofError effects_mismatch) ;;
    if bool_decide (index ∈ drops proofs add) then Ok tt
    else match jm_get add (ks_tombstones state) with
    | None => Err (RevokeProofError no_rev)
    | Some tombstone =>
      throwIf (bool_decide (index ∉ tombstones proofs add)) (RevokeProofError no_rev) ;;
      throwIf (negb (sameDID tombstone did)) (RevokeProofError effects_mismatch)
    end
  end.

Definition checkSnapshotEffect (claim : EffectClaim) (prior state : KeyState) : checked unit :=
  throwIf (match claim with
           | DenyClaim did _ => (ks_gen state <=? ks_gen prior)%Z || negb (denies state did)
           | RemoveClaim _ _ _ => true
           end) (RevokeProofError effects_mismatch).

(** A rotation of the chain: its states before and after. *)
Definition rotationStates (proofs : EffectProofs) (index : nat) : option (KeyState * KeyState) :=
  match index with
  | O => None
  | S before =>
    match cl_chain (ef_log proofs) !! index, fo_states (ef_folded proofs) !! index,
          fo_states (ef_folded proofs) !! before with
    | Some signed, Some state, Some prior => if isEvent "rot" signed then Some (prior, state) else None
    | _, _, _ => None
    end
  end.

Definition checkRotationEffect (proofs : EffectProofs) (claim : EffectClaim) (genFloor : Z) (index : nat)
    (check : KeyState -> KeyState -> checked unit) : checked unit :=
  match rotationStates proofs index with
  | None => Err (RevokeProofError no_rev)
  | Some (prior, state) =>
    check prior state ;;
    throwIf (ks_gen state <? genFloor)%Z (RevokeProofError below_generation_floor)
  end.

Definition checkEffect (proofs : EffectProofs) (claim : EffectClaim) (genFloor : Z) : checked unit :=
  match refOf claim with
  | EventRef digest epoch => checkEventEffect proofs claim genFloor digest epoch
  | Snapshot index => checkRotationEffect proofs claim genFloor index (checkSnapshotEffect claim)
  | ChainIndex index => checkRotationEffect proofs claim genFloor index (checkChainEffect proofs claim index)
  end.

(** ** [claimsFor]: the claims that cover what a log changes *)

(** A revocation or removal among the log's events, with its generation, applied in its epoch. *)
Definition eventClaim (proofs : EffectProofs) (entry : string * json) : option (EffectClaim * num) :=
  let '(digest, signed) := entry in
  if negb (isEvent "rev" signed || isEvent "rmv" signed) then None
  else
    let epoch := optString (eventField "e" signed) in
    match viewAt proofs epoch with
    | Some (Folded f) =>
      if bool_decide (digest ∉ fo_applied f) then None
      else
        let ref := EventRef digest
          (if bool_decide (epoch = Some (ks_epoch (fo_head (ef_folded proofs)))) then None else epoch) in
        if isEvent "rev" signed
        then Some (DenyClaim (normalizeDID (stringOf (eventField "x" signed))) ref, eventGen signed)
        else let add := stringOf (eventField "add" signed) in
             (fun member => (RemoveClaim (normalizeDID (ms_did member)) add ref, eventGen signed)) <$>
               jm_get add (ks_members (fo_head f))
    | _ => None
    end.

Definition eventClaims (proofs : EffectProofs) : list (EffectClaim * num) :=
  omap (eventClaim proofs) (eventMap (ef_log proofs)).

Definition targetOf (claim : EffectClaim) : Target :=
  match claim with DenyClaim did _ => TargetDeny did | RemoveClaim _ add _ => TargetRemove add end.

(** Without a recorded log, every member that any state held and the last no longer does effectively. *)
Definition everRemoved (proofs : EffectProofs) : list (string * string) :=
  let after := ef_folded proofs in
  foldl (fun removed entry =>
    let '(add, member) := entry in
    if match jm_get add (ks_members (fo_head after)) with Some held => ms_effective held | None => false end
    then removed
    else if ms_removed member || negb (bool_decide (drops proofs add = []))
    then jm_set add (normalizeDID (ms_did member)) removed
    else removed) [] (concat (ks_members <$> (fo_states after ++ [fo_head after]))).

Definition byAdd (a b : string * string) : Prop := a.1 ≤ₛ b.1.

#[export] Instance byAdd_dec a b : Decision (byAdd a b).
Proof. unfold byAdd. apply _. Defined.

(** The effects to claim, still without their proofs: [(did, None)] is a denial, [(did, Some add)] a removal. *)
Definition effectTargets (proofs : EffectProofs) (before : option FoldOk) : list (string * option string) :=
  let delta := effectDelta (fo_head <$> before) (fo_head (ef_folded proofs)) in
  let removed := foldl (fun m entry => jm_set entry.2 entry.1 m) [] (ed_removed delta) in
  let removed := match before with Some _ => removed | None => everRemoved proofs end in
  ((fun did => (did, None)) <$> ed_denied delta) ++
  ((fun entry => (entry.2, Some entry.1)) <$> merge_sort byAdd removed).

Definition claimOf (target : string * option string) (ref : ProofRef) : EffectClaim :=
  match target.2 with None => DenyClaim target.1 ref | Some add => RemoveClaim target.1 add ref end.

Definition claimTarget (target : string * option string) : Target :=
  match target.2 with None => TargetDeny target.1 | Some add => TargetRemove add end.

(** An event proves the target at the floor; a removal also has to name the same device. *)
Definition provesTarget (target : string * option string) (floor : Z) (candidate : EffectClaim * num) : bool :=
  bool_decide (targetOf candidate.1 = claimTarget target) && nle (numZ floor) candidate.2 &&
  match candidate.1 with
  | DenyClaim _ _ => true
  | RemoveClaim did _ _ => bool_decide (did = target.1)
  end.

Definition atFloor (proofs : EffectProofs) (floor : Z) (index : nat) : Prop :=
  (floor <= default (-1) (ks_gen <$> fo_states (ef_folded proofs) !! index))%Z.

#[export] Instance atFloor_dec proofs floor index : Decision (atFloor proofs floor index).
Proof. unfold atFloor. apply _. Defined.

Definition firstAtFloor (proofs : EffectProofs) (floor : Z) (indices : list nat) : option nat :=
  snd <$> list_find (atFloor proofs floor) indices.

Definition chainRef (proofs : EffectProofs) (target : string * option string) (floor : Z) : option ProofRef :=
  let first := firstAtFloor proofs floor in
  match target.2 with
  | None =>
    match first (revokes proofs target.1) with
    | Some index => Some (ChainIndex index)
    | None => Snapshot <$> first (snapshots proofs target.1)
    end
  | Some add =>
    ChainIndex <$> match first (drops proofs add) with
                   | Some index => Some index
                   | None => first (tombstones proofs add)
                   end
  end.

(** A removal that needs no proof: a new generation or a denial of the device already ends its authority. *)
Definition impliedRemoval (proofs : EffectProofs) (before : option FoldOk) (target : string * option string) : bool :=
  match target.2, before with
  | Some add, Some b =>
    let after := fo_head (ef_folded proofs) in
    negb (match jm_get add (ks_members after) with Some member => ms_removed member | None => false end) &&
    bool_decide (drops proofs add = []) &&
    forallb (fun candidate => negb (bool_decide (targetOf candidate.1 = claimTarget target))) (eventClaims proofs) &&
    (negb (ks_gen (fo_head b) =? ks_gen after)%Z || denies after target.1)
  | _, _ => false
  end.

Definition claimFloor (proofs : EffectProofs) (genFloor : Z) (target : string * option string) : Z :=
  match target.2 with None => Z.max genFloor (ks_gen (fo_head (ef_folded proofs))) | Some _ => genFloor end.

Definition claimFor (proofs : EffectProofs) (before : option FoldOk) (genFloor : Z)
    (target : string * option string) : checked (list EffectClaim) :=
  let floor := claimFloor proofs genFloor target in
  match list_find (fun candidate => provesTarget target floor candidate = true) (eventClaims proofs) with
  | Some (_, (claim, _)) => checkEffect proofs claim floor ;; Ok [claim]
  | None =>
    match chainRef proofs target floor with
    | Some ref => checkEffect proofs (claimOf target ref) floor ;; Ok [claimOf target ref]
    | None => if impliedRemoval proofs before target then Ok [] else Err (RevokeProofError no_rev)
    end
  end.

Definition claimsWithProofs (recorded : option ControllerLog) (genFloor : Z) (proofs : EffectProofs) :
    checked (list EffectClaim) :=
  before ← (match recorded with
            | None => Ok None
            | Some log => Some <$> foldedLog (ef_did proofs) log
            end);
  foldM (fun claims target => more ← claimFor proofs before genFloor target; Ok (claims ++ more))
    (effectTargets proofs before) [].

Definition claimsFor (controller : string) (recorded : option ControllerLog) (merged : ControllerLog)
    (genFloor : Z) : checked (list EffectClaim) :=
  proofs ← effectProofs (normalizeDID controller) merged;
  claimsWithProofs recorded genFloor proofs.

(** ** Standing *)

Definition projectionFold (controller : string) (projection : option Lifecycle) : option FoldResult :=
  foldControllerLog controller <$> (projection ≫= lc_recordedLog).

Definition effectiveAttestingMembers (head : option KeyState) (projection : option Lifecycle) (time : option num) :
    list (string * MemberState) :=
  match head with
  | None => []
  | Some state =>
    if ks_saturated state || (ks_gen state <? default 0 (lc_genFloor <$> projection))%Z then []
    else filter (fun entry =>
      ms_effective entry.2 && negb (ms_removed entry.2) &&
      absent (projection ≫= fun p => lc_removedMembers p !! entry.1) &&
      match time with None => true | Some t => nle t (ms_lease entry.2) end = true) (ks_members state)
  end.

Inductive Unavailability := NoLog | Saturated | UnknownIncarnation | PrefixMismatch.

Inductive MemberRootStatus :=
  | IsRoot
  | IsEffective (key : bytes) (lease : num)
  | IsRemoved
  | IsUnavailable (why : Unavailability).

Definition memberRootStatus (registry : DeviceRegistry) (controller : string) (root : MemberRoot) : MemberRootStatus :=
  match root with
  | RootController _ => IsRoot
  | RootMember memberDID add gen =>
    let did := normalizeDID controller in
    let projection := lifecycleOf registry did in
    if negb (absent (projection ≫= fun p => lc_removedMembers p !! add)) then IsRemoved
    else match projectionFold did projection with
    | None => IsUnavailable NoLog
    | Some (Unfolded _ _) => IsUnavailable PrefixMismatch
    | Some (Folded f) =>
      let state := fo_head f in
      if negb (nsame gen (numZ (ks_gen state))) || nlt gen (numZ (default 0%Z (lc_genFloor <$> projection)))
      then IsRemoved
      else if ks_saturated state then IsUnavailable Saturated
      else match jm_get add (ks_members state) with
      | None => IsUnavailable UnknownIncarnation
      | Some member =>
        if ms_removed member || negb (ms_effective member) || negb (sameDID (ms_did member) memberDID)
        then IsRemoved
        else IsEffective (decodeKey (ms_key member)) (ms_lease member)
      end
    end
  end.

Definition standing (status : MemberRootStatus) : bool :=
  match status with IsRoot | IsEffective _ _ => true | _ => false end.

Definition isRemoved (status : MemberRootStatus) : bool := match status with IsRemoved => true | _ => false end.

Record LeafRef := mkLeafRef {
  lr_did : string;
  lr_binding : ControllerBinding;
  lr_leafKey : bytes;
  lr_leafIndex : nat;
}.

(** The root of a grant to this leaf's device and key. *)
Definition substituteRoot (raw : string) (leaf : LeafRef) : option MemberRoot :=
  match (payload ← capabilityOf raw; key ← capabilityKey payload; Ok (payload, key)) with
  | Err _ => None
  | Ok (payload, key) =>
    if negb (sameDID (audienceOf payload) (lr_did leaf)) || negb (bytesEqual key (lr_leafKey leaf)) then None
    else Some (payloadRoot (cb_id (lr_binding leaf)) payload)
  end.

Inductive Authority :=
  | AuthorityOf (root : MemberRoot) (slot : EvidenceSlot) (expiry : option num)
  | AuthorityRemoved
  | AuthorityUnavailable.

(** Some signed event of the leaf's prefix is not the recorded chain's at that position. *)
Definition prefixDiffers (chain prefix : list json) : bool :=
  existsb (fun p => match chain !! p.1 with
                    | None => true
                    | Some recorded => negb (bool_decide (digestOf (event recorded) = digestOf (event p.2)))
                    end) (imap pair prefix).

(** The first grant in the place of the removed root that still stands: the leaf's own holder grant, or the
    one its survivors' entry recorded. *)
Definition substituteAuthority (registry : DeviceRegistry) (did : string) (leaf : LeafRef) : checked Authority :=
  let try (slot : EvidenceSlot) (raw : option string) : option (MemberRoot * EvidenceSlot * string) :=
    raw ← raw; root ← substituteRoot raw leaf;
    if standing (memberRootStatus registry did root) then Some (root, slot, raw) else None in
  let held := try SlotHolder (cb_holderGrant (lr_binding leaf)) in
  let survived := try SlotSurvivor
    (lifecycleOf registry did ≫= fun p => lc_survivorGrants p !! normalizeDID (lr_did leaf)) in
  match (match held with Some _ => held | None => survived end) with
  | Some (root, slot, raw) => payload ← capabilityOf raw; Ok (AuthorityOf root slot (expiryOf payload))
  | None => Ok AuthorityRemoved
  end.

Definition holderRoot (roots : list (EvidenceSlot * MemberRoot)) : option MemberRoot :=
  snd <$> (snd <$> list_find (fun r => r.1 = SlotHolder) roots).

Definition effectiveAuthorityOf (leaf : LeafRef) (registry : DeviceRegistry) (controller : string) : checked Authority :=
  let did := normalizeDID controller in
  let binding := lr_binding leaf in
  if negb (sameDID (cb_id binding) controller) then Ok AuthorityUnavailable
  else
    roots ← memberRootsOf binding (lr_did leaf);
    match head roots with
    | None => Ok AuthorityUnavailable
    | Some (slot, root) =>
      let status := memberRootStatus registry did root in
      let differs := match lifecycleOf registry did ≫= lc_recordedLog with
                     | Some log => prefixDiffers (cl_chain log) (cb_prefix binding)
                     | None => false
                     end in
      if differs then Ok (if isRemoved status then AuthorityRemoved else AuthorityUnavailable)
      else match status with
      | IsRoot | IsEffective _ _ =>
        match memberRootStatus registry did <$> holderRoot roots with
        | Some IsRemoved => Ok AuthorityRemoved
        | Some (IsUnavailable _) => Ok AuthorityUnavailable
        | _ => Ok (AuthorityOf root slot None)
        end
      | IsUnavailable _ => Ok AuthorityUnavailable
      | IsRemoved => substituteAuthority registry did leaf
      end
    end.

(** ** [cascadeOf]: the leaves that fall with the claimed effects *)

Record Cascade := mkCascade {
  ca_revoked : list RevokedEffect;
  ca_removed : list RemovedEffect;
  ca_removeLeafIndices : list nat;
}.

Definition deniedBy (claims : list EffectClaim) : list string :=
  omap (fun claim => match claim with
                     | DenyClaim did _ => Some (normalizeDID did)
                     | RemoveClaim _ _ _ => None
                     end) claims.

(** The device that issued a chained capability. *)
Definition chainIssuer (binding : ControllerBinding) : checked (option string) :=
  match cb_capability binding with
  | None => Ok None
  | Some raw =>
    payload ← capabilityOf raw;
    Ok (if notNull (get "cap" payload) then Some (normalizeDID (issuerOf payload)) else None)
  end.

Definition isMember (root : MemberRoot) : bool := match root with RootMember _ _ _ => true | _ => false end.

(** The first member root of the leaf, as it stood before or as it is bound, that is removed now. *)
Definition removedRoot (leaf : LeafRef) (before after : DeviceRegistry) (controller : string) : checked (option string) :=
  prior ← effectiveAuthorityOf leaf before controller;
  roots ← memberRootsOf (lr_binding leaf) (lr_did leaf);
  let candidates := match prior with AuthorityOf root _ _ => [root] | _ => [] end ++ map snd roots in
  Ok (match snd <$> list_find (fun root => isMember root && isRemoved (memberRootStatus after controller root) = true)
                      candidates with
      | Some (RootMember did _ _) => Some (normalizeDID did)
      | _ => None
      end).

(** The leaf keeps its standing though its issuer is denied: its holder's own grant, or a survivor's, stands. *)
Definition isEvidenced (leaf : LeafRef) (direct : list string) (after : DeviceRegistry) (controller : string)
    (authority : Authority) : bool :=
  let did := normalizeDID (lr_did leaf) in
  let holder := cb_holderGrant (lr_binding leaf) ≫= fun raw => substituteRoot raw leaf in
  negb (bool_decide (did ∈ direct)) && negb (denied after did) &&
  (match holder with Some root => standing (memberRootStatus after controller root) | None => false end ||
   match authority with AuthorityOf _ SlotSurvivor _ => true | _ => false end).

Definition cascadeLeaf (direct : list string) (before after : DeviceRegistry) (controller : string)
    (c : Cascade) (leaf : LeafRef) : checked Cascade :=
  let did := normalizeDID (lr_did leaf) in
  if negb (sameDID (cb_id (lr_binding leaf)) controller) then Ok c
  else
    issuer ← chainIssuer (lr_binding leaf);
    authority ← effectiveAuthorityOf leaf after controller;
    let cascaded := match issuer with
      | Some i => bool_decide (i ∈ direct) && negb (bool_decide (did ∈ direct)) &&
                  negb (isEvidenced leaf direct after controller authority)
      | None => false
      end in
    let affected := bool_decide (did ∈ re_did <$> ca_revoked c) in
    let c := if cascaded && negb affected
             then mkCascade (ca_revoked c ++ [mkRevoked did issuer]) (ca_removed c) (ca_removeLeafIndices c) else c in
    if affected || cascaded
    then Ok (mkCascade (ca_revoked c) (ca_removed c) (ca_removeLeafIndices c ++ [lr_leafIndex leaf]))
    else match authority with
    | AuthorityRemoved =>
      root ← removedRoot leaf before after controller;
      Ok match root with
         | None => c
         | Some from => mkCascade (ca_revoked c) (ca_removed c ++ [mkRemovedEffect did from])
                          (ca_removeLeafIndices c ++ [lr_leafIndex leaf])
         end
    | _ => Ok c
    end.

Definition cascadeOf (leaves : list LeafRef) (claims : list EffectClaim) (before after : DeviceRegistry)
    (controller : string) : checked Cascade :=
  let direct := deniedBy claims in
  foldM (cascadeLeaf direct before after controller) leaves
    (mkCascade ((fun did => mkRevoked did None) <$> direct) [] []).
End roots.
