(* ===== verification/LifecycleRegistry.v ===== *)
(** * The registry of a lifecycle group

    packages/mls/src: the branch of [registryApply] that a group with a controller takes (registry.ts), the
    authentication of the proofs it records (lifecycle-proof.ts), the seeding of a registry from a log, and
    what a recovered registry must retain of a known one. A device value is the typed view that
    [isDeviceValue] vouches for. *)

From S2P Require Import Prelude HubProtocol Json ControllerLog GroupFold Credential LedgerHead Capability MemberRoot.

(** ** Device values (registry.ts) *)

Record DeviceValue := mkDeviceValue {
  dv_op : DeviceOp;
  dv_controller : option string;
  dv_label : option string;
  dv_capability : option string;
  dv_proof : option json;
  dv_effects : option (list EffectClaim);
  dv_removed : option (list RemovedEffect);
  dv_survivors : option (list string);
  dv_revoked : option (list RevokedEffect);
  dv_time : option num;
  dv_attest : bool;
  dv_logLength : option number;
  dv_headDigest : option string;
}.

(** An optional property read as an [A]: present and of another type is no value. *)
Definition readField {A} (read : json -> option A) (v : option json) : option (option A) :=
  match v with None => Some None | Some x => Some <$> read x end.

Definition readString (v : json) : option string := match v with JStr s => Some s | _ => None end.
Definition readNumber (v : json) : option number := match v with JNum n => Some n | _ => None end.
Definition readArray {A} (read : json -> option A) (v : json) : option (list A) :=
  match v with JArr items => mapM read items | _ => None end.
Definition readIndex (v : json) : option nat :=
  match v with JNum (Int z) => if (0 <=? z)%Z then Some (Z.to_nat z) else None | _ => None end.

Definition readProofRef (v : json) : option ProofRef :=
  if has "event" v then
    digest ← get "event" v ≫= readString;
    epoch ← readField readString (get "epoch" v);
    Some (EventRef digest epoch)
  else if has "snapshot" v then Snapshot <$> (get "snapshot" v ≫= readIndex)
  else ChainIndex <$> (get "chainIndex" v ≫= readIndex).

Definition readEffectClaim (v : json) : option EffectClaim :=
  kind ← get "kind" v ≫= readString;
  ref ← get "ref" v ≫= readProofRef;
  if bool_decide (kind = "deny")%string then did ← get "did" v ≫= readString; Some (DenyClaim did ref)
  else if bool_decide (kind = "remove")%string then
    member ← get "member" v;
    did ← get "did" member ≫= readString;
    add ← get "add" member ≫= readString;
    Some (RemoveClaim did add ref)
  else None.

Definition readRevokedEffect (v : json) : option RevokedEffect :=
  did ← get "did" v ≫= readString;
  cascadedFrom ← readField readString (get "cascadedFrom" v);
  Some (mkRevoked did cascadedFrom).

Definition readRemovedEffect (v : json) : option RemovedEffect :=
  did ← get "did" v ≫= readString;
  cascadedFrom ← get "cascadedFrom" v ≫= readString;
  Some (mkRemovedEffect did cascadedFrom).

Definition readAttest (v : json) : option bool := match v with JBool true => Some true | _ => None end.

Definition deviceValueOf (v : json) : option DeviceValue :=
  op ← opOf v;
  controller ← readField readString (get "controller" v);
  label ← readField readString (get "label" v);
  capability ← readField readString (get "capability" v);
  effects ← readField (readArray readEffectClaim) (get "effects" v);
  removed ← readField (readArray readRemovedEffect) (get "removed" v);
  survivors ← readField (readArray readString) (get "survivors" v);
  revoked ← readField (readArray readRevokedEffect) (get "revoked" v);
  time ← readField readNumber (get "time" v);
  attest ← readField readAttest (get "attest" v);
  logLength ← readField readNumber (get "logLength" v);
  headDigest ← readField readString (get "headDigest" v);
  Some (mkDeviceValue op controller label capability (get "proof" v) effects removed survivors revoked
          (toNum <$> time) (default false attest) logLength headDigest).

Section registry.
Context {lib : ControllerLib} {tokens : TokenLib}.

(** ** lifecycle-proof.ts: [authenticateLifecycleProof] *)

Record AuthenticatedProof := mkAuthenticated {
  ap_recordedLog : ControllerLog;
  ap_genFloor : Z;
  ap_resetRef : option nat;
}.

Definition mergeLifecycleProofLogs (controller : string) (first second : ControllerLog) : checked ControllerLog :=
  match mergeLogs controller first second with
  | Ok log => Ok log
  | Err message => Err (if String.prefix LOG_TOO_LARGE message then RevokeProofError too_large else OtherError message)
  end.

(** The ingested log with the proof's events of earlier epochs put back. *)
Definition lifecycleProofLog (controller : string) (ingested : IngestedControllerLog) (proof : ControllerLog) :
    checked ControllerLog :=
  mergeLifecycleProofLogs controller (ig_log ingested)
    (mkControllerLog (cl_chain (ig_log ingested))
       (filter (fun signed => optString (eventField "e" signed) ≠ Some (ks_epoch (fo_head (ig_after ingested))))
          (cl_events proof))).

Definition genFloorOf (projection : option Lifecycle) : Z := default 0%Z (lc_genFloor <$> projection).

Definition authenticateLog (controller : string) (op : DeviceOp) (proof : ControllerLog) (previous : option Lifecycle) :
    checked AuthenticatedProof :=
  let recorded := previous ≫= lc_recordedLog in
  throwIf (if bool_decide (op = op_seed) then negb (absent recorded) else absent recorded) (RevokeProofError detached) ;;
  ingested ← ingestControllerLog controller recorded proof previous;
  let delta := effectDelta (fo_head <$> ig_before ingested) (fo_head (ig_after ingested)) in
  let tip (f : FoldOk) := ks_digest <$> last (fo_states f) in
  (if bool_decide (op = op_log) then
     throwIf (bool_decide (ig_introduced ingested = []) &&
              bool_decide ((ig_before ingested ≫= tip) = tip (ig_after ingested))) (RevokeProofError effects_mismatch) ;;
     throwIf (ed_generation delta) (RevokeProofError needs_reset) ;;
     throwIf (negb (bool_decide (ed_denied delta = [] ∧ ed_removed delta = []))) (RevokeProofError effects_mismatch)
   else Ok tt) ;;
  Ok (mkAuthenticated (ig_log ingested) (Z.max (genFloorOf previous) (ks_gen (fo_head (ig_after ingested)))) None).

(** The target of a claim, as the declared effects are compared with the derived ones. *)
Definition declaredTarget (claim : EffectClaim) : string :=
  match claim with
  | DenyClaim did _ => "deny:" +:+ normalizeDID did
  | RemoveClaim did add _ => "remove:" +:+ normalizeDID did +:+ ":" +:+ add
  end%string.

Definition isSnapshot (ref : ProofRef) : bool := match ref with Snapshot _ => true | _ => false end.

(** The first chain position whose event is of a later generation than the one before it. *)
Definition resetIndex (chain : list json) : option nat :=
  snd <$> list_find (fun index =>
    match chain !! index, chain !! pred index with
    | Some signed, Some before =>
      let previous := eventGen before in
      nlt (match previous with NaN => numZ 0 | n => n end) (eventGen signed)
    | _, _ => false
    end = true) (seq 1 (length chain - 1)).

(** Generations that refuse a proof before it is read further. *)
Definition proofGenerations (op : DeviceOp) (proof : ControllerLog) (floor : Z) : checked unit :=
  let chain := cl_chain proof in
  throwIf (negb (bool_decide (chain = [])) && forallb (fun signed => nlt (eventGen signed) (numZ floor)) chain)
    (RevokeProofError below_generation_floor) ;;
  throwIf (bool_decide (op = op_reset) && match head chain with Some first => isEvent "icp" first | None => false end &&
           forallb (fun signed => nle (eventGen signed) (numZ floor)) chain) (RevokeProofError below_generation_floor) ;;
  throwIf (bool_decide (op = op_revoke) && existsb (fun signed => nlt (numZ floor) (eventGen signed)) chain)
    (RevokeProofError needs_reset).

(** The declared effects are the derived ones, in order, and each is proved. *)
Definition checkDeclared (proofs : EffectProofs) (op : DeviceOp) (floor : Z) (declared : option (list EffectClaim))
    (expected : list EffectClaim) : checked unit :=
  match declared with
  | None => Err (RevokeProofError no_rev)
  | Some effects =>
    throwIf (bool_decide (effects = []) && negb (bool_decide (op = op_reset))) (RevokeProofError no_rev) ;;
    throwIf (negb (bool_decide (map declaredTarget effects = map declaredTarget expected)))
      (RevokeProofError effects_mismatch) ;;
    forEach (fun claim =>
      throwIf (negb (bool_decide (op = op_reset)) && isSnapshot (refOf claim)) (RevokeProofError no_rev) ;;
      checkEffect proofs claim floor) effects
  end.

Definition authenticateEffects (controller : string) (value : DeviceValue) (proof : ControllerLog)
    (previous : option Lifecycle) : checked AuthenticatedProof :=
  let floor := genFloorOf previous in
  let op := dv_op value in
  let recorded := previous ≫= lc_recordedLog in
  proofGenerations op proof floor ;;
  ingested ← ingestControllerLog controller recorded proof previous;
  let after := fo_head (ig_after ingested) in
  throwIf (ks_saturated after) (RevokeProofError too_large) ;;
  let delta := effectDelta (fo_head <$> ig_before ingested) after in
  (if bool_decide (op = op_reset)
   then throwIf (negb (ed_generation delta) || (ks_gen after <=? floor)%Z) (RevokeProofError below_generation_floor)
   else throwIf (ed_generation delta) (RevokeProofError needs_reset)) ;;
  proofLog ← lifecycleProofLog controller ingested proof;
  proofs ← effectProofs (normalizeDID controller) proofLog;
  expected ← claimsWithProofs recorded floor proofs;
  checkDeclared proofs op floor (dv_effects value) expected ;;
  Ok (mkAuthenticated (ig_log ingested) (Z.max floor (ks_gen after))
        (if bool_decide (op = op_reset) then resetIndex (cl_chain (ig_log ingested)) else None)).

Definition isLogBearing (op : DeviceOp) : bool := match op with op_log | op_seed => true | _ => false end.

Definition authenticateLifecycleProof (controllerID subject : string) (value : DeviceValue) (registry : DeviceRegistry) :
    checked AuthenticatedProof :=
  let controller := normalizeDID controllerID in
  let previous := lifecycleOf registry controller in
  throwIf (match dv_controller value with Some c => negb (bool_decide (normalizeDID c = controller)) | None => false end ||
           negb (bool_decide (normalizeDID subject = controller))) (RevokeProofError wrong_controller) ;;
  match dv_proof value with
  | Some proof =>
    if isControllerLog proof
    then if isLogBearing (dv_op value) then authenticateLog controller (dv_op value) (logOf proof) previous
         else authenticateEffects controller value (logOf proof) previous
    else Err (RevokeProofError (if isLogBearing (dv_op value) then not_authority_signed else no_rev))
  | None => Err (RevokeProofError (if isLogBearing (dv_op value) then not_authority_signed else no_rev))
  end.

(** ** registry.ts: recording effects *)

(** Devices and removed members that a log denies and removes, when it is the first one recorded. *)
Abbreviation Devices := (gmap string DeviceRecord).

Definition revokedRecord (controller : string) (ref : ProofRef) (reset : bool) (cascadedFrom : option string) :
    DeviceRecord := mkDeviceRecord controller Revoked None (Some ref) reset cascadedFrom.

Definition claimGen (log : ControllerLog) (f : FoldOk) (ref : ProofRef) : option num :=
  match ref with
  | EventRef digest _ =>
    signed ← snd <$> list_find (fun signed => digestOf (event signed) = digest) (cl_events log);
    match eventGen signed with NaN => None | gen => Some gen end
  | ChainIndex index | Snapshot index => (fun state => numZ (ks_gen state)) <$> fo_states f !! index
  end.

Definition seedClaim (controller : string) (log : ControllerLog) (f : FoldOk)
    (acc : Devices * gmap string RemovedMember) (claim : EffectClaim) : checked (Devices * gmap string RemovedMember) :=
  match claim with
  | DenyClaim did ref => Ok (<[normalizeDID did := revokedRecord controller ref false None]> acc.1, acc.2)
  | RemoveClaim did add ref =>
    match claimGen log f ref with
    | None => Err (RevokeProofError no_rev)
    | Some gen => Ok (acc.1, <[add := mkRemoved (normalizeDID did) gen ref]> acc.2)
    end
  end.

Definition withRemoved (projection : Lifecycle) (removedMembers : gmap string RemovedMember) : Lifecycle :=
  mkLifecycle (lc_recordedLog projection) (lc_genFloor projection) (lc_timeFloor projection)
    (lc_attestations projection) removedMembers (lc_survivorGrants projection).

Definition seedEffects (controller : string) (devices : Devices) (projection : Lifecycle) (log : ControllerLog) :
    checked (Devices * Lifecycle) :=
  f ← foldedLog controller log;
  claims ← claimsFor controller None log 0;
  acc ← foldM (seedClaim controller log f) claims (devices, lc_removedMembers projection);
  let '(devices, removedMembers) := (acc : Devices * gmap string RemovedMember) in
  Ok (devices, withRemoved projection removedMembers).

(** The proofs of the denials an entry claims: the last one of each device. *)
Definition denialRefs (effects : list EffectClaim) : gmap string ProofRef :=
  foldl (fun m claim => match claim with
                        | DenyClaim did ref => <[normalizeDID did := ref]> m
                        | RemoveClaim _ _ _ => m
                        end) ∅ effects.

Definition isRevoked (held : option DeviceRecord) : bool :=
  match held with Some r => bool_decide (dr_status r = Revoked) | None => false end.

Definition heldResetOnly (held : option DeviceRecord) : bool :=
  match held with Some r => isResetOnly r | None => false end.

Definition recordRevoked (controller : string) (op : DeviceOp) (refs : gmap string ProofRef) (resetRef : option nat)
    (devices : Devices) (effect : RevokedEffect) : checked Devices :=
  let did := normalizeDID (re_did effect) in
  let held := devices !! did in
  if isRevoked held && (bool_decide (op = op_reset) || negb (heldResetOnly held)) then Ok devices
  else
    let proved := refs !! normalizeDID (default did (re_cascadedFrom effect)) in
    match (match proved with Some ref => Some ref | None => Snapshot <$> resetRef end) with
    | None => Err (RevokeProofError effects_mismatch)
    | Some ref => Ok (<[did := revokedRecord controller ref (bool_decide (op = op_reset))
                                 (normalizeDID <$> re_cascadedFrom effect)]> devices)
    end.

Definition recordDenied (controller : string) (devices : Devices) (did : string) (ref : ProofRef) : Devices :=
  let held := devices !! did in
  if isRevoked held && negb (heldResetOnly held) then devices
  else <[did := revokedRecord controller ref false None]> devices.

Definition recordRemoved (genFloor : Z) (removedMembers : gmap string RemovedMember) (claim : EffectClaim) :
    gmap string RemovedMember :=
  match claim with
  | DenyClaim _ _ => removedMembers
  | RemoveClaim did add ref => <[add := mkRemoved (normalizeDID did) (numZ genFloor) ref]> removedMembers
  end.

Definition isEventRef (ref : ProofRef) : bool := match ref with EventRef _ _ => true | _ => false end.

(** A proof by an event is moved to the rotation that settled it, once the chain holds one. *)
Definition settleRemoved (controller : string) (chain : list json) (add : string) (member : RemovedMember) : RemovedMember :=
  if negb (isEventRef (rm_proofRef member)) then member
  else
    let dropped := last (memberDropIndices controller chain add) in
    match (match dropped with Some index => Some index
           | None => last (memberTombstoneIndices controller chain add (rm_did member)) end) with
    | Some index => mkRemoved (rm_did member) (rm_gen member) (ChainIndex index)
    | None => member
    end.

Definition settleDevice (controller : string) (chain : list json) (did : string) (held : DeviceRecord) : DeviceRecord :=
  if negb (bool_decide (dr_controller held = controller)) ||
     match dr_proofRef held with Some ref => negb (isEventRef ref) | None => true end then held
  else match last (revokeIndices controller chain (default did (dr_cascadedFrom held))) with
  | Some index => mkDeviceRecord (dr_controller held) (dr_status held) (dr_label held) (Some (ChainIndex index))
                    (dr_reset held) (dr_cascadedFrom held)
  | None => held
  end.

Definition recordSurvivor (grants : gmap string string) (raw : string) : checked (gmap string string) :=
  payload ← capabilityOf raw;
  Ok (<[normalizeDID (audienceOf payload) := raw]> grants).

(** What a proof entry records: the effects of [value] over the log and floor [effect] that [controller]
    proved. *)
Definition recordEffects (controller : string) (value : DeviceValue) (effect : AuthenticatedProof)
    (devices : Devices) (projection : Lifecycle) : checked (Devices * Lifecycle) :=
  let effects := default [] (dv_effects value) in
  let refs := denialRefs effects in
  let chain := cl_chain (ap_recordedLog effect) in
  revoked ← foldM (recordRevoked controller (dv_op value) refs (ap_resetRef effect)) (default [] (dv_revoked value)) devices;
  let denied := map_fold (fun did ref devices => recordDenied controller devices did ref) revoked refs in
  let removed := map_imap (fun add member => Some (settleRemoved controller chain add member))
    (foldl (recordRemoved (ap_genFloor effect)) (lc_removedMembers projection) effects) in
  survivors ← foldM recordSurvivor (default [] (dv_survivors value)) (lc_survivorGrants projection);
  Ok (map_imap (fun did held => Some (settleDevice controller chain did held)) denied,
      mkLifecycle (lc_recordedLog projection) (lc_genFloor projection) (lc_timeFloor projection)
        (lc_attestations projection) removed survivors).

(** A clock entry: the controller's floor, or the attestation of the issuing member. *)
Definition recordClock (controller issuer : string) (value : DeviceValue) (previous : Lifecycle) : checked Lifecycle :=
  let time := default NaN (dv_time value) in
  if dv_attest value then
    let members := match projectionFold controller (Some previous) with
                   | Some (Folded f) => ks_members (fo_head f)
                   | _ => []
                   end in
    match list_find (fun entry => ms_effective entry.2 && sameDID (ms_did entry.2) issuer = true) members with
    | None => Err (RevokeProofError effects_mismatch)
    | Some (_, (_, member)) =>
      let held := default (numZ 0) (lc_attestations previous !! ms_key member) in
      Ok (mkLifecycle (lc_recordedLog previous) (lc_genFloor previous) (lc_timeFloor previous)
            (<[ms_key member := nmax held time]> (lc_attestations previous)) (lc_removedMembers previous)
            (lc_survivorGrants previous))
    end
  else Ok (mkLifecycle (lc_recordedLog previous) (lc_genFloor previous) (nmax (lc_timeFloor previous) time)
             (lc_attestations previous) (lc_removedMembers previous) (lc_survivorGrants previous)).

Definition setLifecycle (controller : string) (l : Lifecycle) (registry : DeviceRegistry) : gmap string ControllerProjection :=
  let previous := default controllerProjection (reg_controllers registry !! controller) in
  <[controller := mkProjection (cp_beacon previous) l]> (reg_controllers registry).

(** [registryApply] of reset, revoke, clock, log and seed, in a group whose anchor names a controller. *)
Definition applyLifecycle (issuer subject : string) (value : DeviceValue) (registry : DeviceRegistry)
    (controllerID : string) : checked DeviceRegistry :=
  let controller := normalizeDID controllerID in
  let previous := default freshLifecycle (lifecycleOf registry controller) in
  if bool_decide (dv_op value = op_clock) then
    l ← recordClock controller issuer value previous;
    Ok (mkRegistry (reg_devices registry) (setLifecycle controller l registry))
  else
    effect ← authenticateLifecycleProof controller subject value registry;
    let projection := mkLifecycle (Some (ap_recordedLog effect)) (ap_genFloor effect) (lc_timeFloor previous)
                        (lc_attestations previous) (lc_removedMembers previous) (lc_survivorGrants previous) in
    seeded ← (if bool_decide (dv_op value = op_seed)
              then seedEffects controller (reg_devices registry) projection (ap_recordedLog effect)
              else Ok (reg_devices registry, projection));
    recorded ← recordEffects controller value effect (fst seeded) (snd seeded);
    Ok (mkRegistry (fst recorded) (setLifecycle controller (snd recorded) registry)).

(** The branch as the folds of GroupFold.v take it. *)
Definition lifecycleApply (verified : VerifiedLedgerEntry json) (registry : DeviceRegistry) (controllerID : string) :
    option DeviceRegistry :=
  value ← deviceValueOf (le_value (ve_entry verified));
  match applyLifecycle (ve_issuer verified) (le_subject (ve_entry verified)) value registry controllerID with
  | Ok next => Some next
  | Err _ => None
  end.

(** ** registry.ts: other operations *)

(** A registry known from a log alone. *)
Definition registryForLog (controller : string) (log : ControllerLog) : checked DeviceRegistry :=
  let did := normalizeDID controller in
  ingested ← ingestControllerLog controller None log None;
  seeded ← seedEffects did ∅ (mkLifecycle (Some (ig_log ingested)) (ks_gen (fo_head (ig_after ingested))) (numZ 0) ∅ ∅ ∅)
             (ig_log ingested);
  Ok (mkRegistry (fst seeded) {[did := mkProjection None (snd seeded)]}).

(** A device that only a reset removed may come back under a prefix at the recorded generation. *)
Definition mayReadmitResetDevice (registry : DeviceRegistry) (parsed : MLSCredentialIdentity) : bool :=
  match reg_devices registry !! normalizeDID (ci_id parsed), ci_controller parsed with
  | Some record, Some binding =>
    isResetOnly record && bool_decide (normalizeDID (cb_id binding) = dr_controller record) &&
    match foldChain (cb_id binding) (cb_prefix binding) with
    | Folded f => (genFloorOf (lifecycleOf registry (dr_controller record)) <=? lastGen f)%Z
    | Unfolded _ _ => false
    end
  | _, _ => false
  end.

Record Revocation := mkRevocation {
  rn_controller : string; rn_proofRef : ProofRef; rn_reset : bool; rn_cascadedFrom : option string;
}.

Definition revocationOf (registry : DeviceRegistry) (did : string) : option Revocation :=
  record ← reg_devices registry !! normalizeDID did;
  ref ← dr_proofRef record;
  if bool_decide (dr_status record = Revoked)
  then Some (mkRevocation (dr_controller record) ref (dr_reset record) (dr_cascadedFrom record)) else None.

(** ** registry.ts: [assertRetainsKnownEffects] *)

Definition recordedFold (did : string) (projection : option Lifecycle) : option FoldOk :=
  match projectionFold did projection with Some (Folded f) => Some f | _ => None end.

(** The two recorded chains resolve to one branch, the epoch of the offered log. *)
Definition sameBranch (did : string) (held offered : option Lifecycle) (after : option FoldOk) : bool :=
  match held ≫= lc_recordedLog, offered ≫= lc_recordedLog with
  | Some h, Some o =>
    match resolveBranches did [cl_chain h; cl_chain o] with
    | None => false
    | Some winner =>
      match foldChain did winner with
      | Unfolded _ _ => false
      | Folded w => match after with
                    | Some a => bool_decide (ks_epoch (fo_head a) = ks_epoch (fo_head w))
                    | None => true
                    end
      end
    end
  | _, _ => true
  end.

(** A terminal revocation of the controller's device. *)
Definition terminalOf (did : string) (record : option DeviceRecord) : bool :=
  match record with
  | Some r => bool_decide (dr_controller r = did) && bool_decide (dr_status r = Revoked) && negb (isResetOnly r)
  | None => false
  end.

Definition resetPast (after : option FoldOk) (offered : option Lifecycle) (generation : num) : bool :=
  match after with
  | Some a => nlt generation (numZ (ks_gen (fo_head a))) && nlt generation (numZ (genFloorOf offered))
  | None => false
  end.

(** The epoch of the known log was settled by a later rotation of the offered one. *)
Definition settledIn (before : FoldOk) (after : option FoldOk) : bool :=
  match after with
  | None => false
  | Some a =>
    match list_find (fun state => ks_digest state = ks_epoch (fo_head before)) (fo_states a) with
    | Some (index, _) => (index <? length (fo_states a) - 1)%nat
    | None => false
    end
  end.

Definition retainsEvents (before after : option FoldOk) (offered : option Lifecycle) : bool :=
  match before with
  | None => true
  | Some b =>
    settledIn b after || resetPast after offered (numZ (ks_gen (fo_head b))) ||
    forallb (fun digest => bool_decide (digest ∈ default [] (fo_applied <$> after))) (fo_applied b)
  end.

Definition retainsAttestations (after : option FoldOk) (held offered : option Lifecycle) : bool :=
  match after with
  | None => true
  | Some a =>
    let attested (p : option Lifecycle) key := default (numZ 0) (p ≫= fun p => lc_attestations p !! key) in
    forallb (fun entry => negb (ms_effective entry.2) ||
               negb (nlt (attested offered (ms_key entry.2)) (attested held (ms_key entry.2)))) (ks_members (fo_head a))
  end.

Definition timeFloorOf (projection : option Lifecycle) : num := default (numZ 0) (lc_timeFloor <$> projection).

Definition assertRetainsKnownEffects (controller : string) (known candidate : DeviceRegistry) : checked unit :=
  let did := normalizeDID controller in
  let held := lifecycleOf known did in
  let offered := lifecycleOf candidate did in
  let before := recordedFold did held in
  let after := recordedFold did offered in
  throwIf (negb (absent before) && match after with Some a => ks_saturated (fo_head a) | None => true end)
    (RecoveryKnowledgeError lost_epoch_event) ;;
  throwIf (negb (sameBranch did held offered after)) (RecoveryKnowledgeError forked_log) ;;
  throwIf (nlt (timeFloorOf offered) (timeFloorOf held) || (genFloorOf offered <? genFloorOf held)%Z)
    (RecoveryKnowledgeError lost_floor) ;;
  throwIf (negb (bool_decide (map_Forall (fun device record =>
             terminalOf did (Some record) = true -> terminalOf did (reg_devices candidate !! device) = true)
             (reg_devices known)))) (RecoveryKnowledgeError lost_revocation) ;;
  throwIf (negb (bool_decide (map_Forall (fun add member =>
             negb (absent (offered ≫= fun p => lc_removedMembers p !! add)) || resetPast after offered (rm_gen member) = true)
             (default ∅ (lc_removedMembers <$> held))))) (RecoveryKnowledgeError lost_removal) ;;
  throwIf (negb (retainsEvents before after offered)) (RecoveryKnowledgeError lost_epoch_event) ;;
  throwIf (negb (retainsAttestations after held offered)) (RecoveryKnowledgeError lost_attestation).
End registry.
