(* ===== verification/Authentication.v ===== *)
(** * Whether a leaf may stand in the tree

    packages/mls/src/authentication.ts: [verifyLeafCredential], which authenticates a leaf's credential with
    what it embeds and judges it against a registry. [JudgingContext] says how strictly: structurally or
    fully, and whether the leaf is admitted, was already there, or is judged again on a Welcome. *)

From S2P Require Import Prelude HubProtocol Json ControllerLog GroupFold Credential LedgerHead Capability MemberRoot LifecycleRegistry.

Inductive JudgingMode := Admit | Retain | Rejudge.

#[export] Instance JudgingMode_eq_dec : EqDecision JudgingMode.
Proof. solve_decision. Defined.

Record JudgingContext := mkJudging {
  jc_registry : option DeviceRegistry;
  jc_structural : bool;
  jc_mode : JudgingMode;
}.

(** The dependencies a caller supplies, evaluated for the leaf at hand. *)
Record AuthDeps := mkDeps {
  ad_judging : JudgingContext;
  ad_deviceDenySet : option (gset string);
  ad_mayKeepDeniedIssuer : bool;
  ad_leafLifetime : option Z;
  ad_trustedGrantLifetime : option Z;
}.

Section authentication.
Context {lib : ControllerLib} {tokens : TokenLib}.

(** history.ts: [epochEventCount]. *)
Definition epochEventCount (log : ControllerLog) : checked nat :=
  match head (cl_chain log) with
  | Some first =>
    if negb (isEvent "icp" first) then Err (OtherError "Missing controller inception")
    else match foldControllerLog (didFromInception (event first)) log with
    | Folded f => Ok (length (fo_applied f))
    | Unfolded reason _ => Err (OtherError reason)
    end
  | None => Err (OtherError "Missing controller inception")
  end.

Definition SETTLE_PROMPT_EPOCH_EVENTS : nat := 24.

Inductive SettleAdvisory := SettleOk | SettlePrompt | SettleBlocked.

Definition settleAdvisory (log : ControllerLog) : checked SettleAdvisory :=
  count ← epochEventCount log;
  Ok (if (MAX_EPOCH_EVENTS_FOR_LEAVES <? count)%nat then SettleBlocked
      else if (SETTLE_PROMPT_EPOCH_EVENTS <=? count)%nat then SettlePrompt else SettleOk).

(** embedded-resolver.ts: [createRegistryControllerResolver]. *)
Definition registryResolver (controllerID : string) (prefix : list json) (registry : option DeviceRegistry) : Resolver :=
  mkResolver (normalizeDID controllerID) prefix (negb (absent registry))
    (registry ≫= fun r => recordedLogOf r controllerID)
    (match registry with Some r => denySetOf r | None => ∅ end).

Definition withoutDID (denied : gset string) (did : string) : gset string :=
  filter (fun d => normalizeDID d ≠ normalizeDID did) denied.

Definition withoutIssuer (denied : gset string) (capability : string) : checked (gset string) :=
  payload ← capabilityOf capability;
  Ok (withoutDID denied (issuerOf payload)).

(** ** The parts of [verifyLeafCredential] *)

Record Judged := mkJudged {
  jd_parsed : MLSCredentialIdentity;
  jd_binding : ControllerBinding;
  jd_key : bytes;
  jd_denySet : gset string;
  jd_deps : AuthDeps;
}.

Definition jd_registry (j : Judged) : option DeviceRegistry := jc_registry (ad_judging (jd_deps j)).
Definition jd_structural (j : Judged) : bool := jc_structural (ad_judging (jd_deps j)).
Definition jd_mode (j : Judged) : JudgingMode := jc_mode (ad_judging (jd_deps j)).

Definition leafRef (j : Judged) : LeafRef := mkLeafRef (ci_id (jd_parsed j)) (jd_binding j) (jd_key j) 0.

(** [frozen]. *)
Definition leafResolver (j : Judged) : Resolver :=
  registryResolver (cb_id (jd_binding j)) (cb_prefix (jd_binding j)) (if jd_structural j then None else jd_registry j).

(** A capability pinned to the leaf; a trusted grant is a direct one with its own lifetime. *)
Definition pinned (j : Judged) (capability : string) (structural : bool) (denySet : gset string) (trusted : bool) : PinParams :=
  mkPin capability (leafResolver j) structural (cb_prefix (jd_binding j)) (cb_id (jd_binding j)) (ci_id (jd_parsed j))
    leafPermission (jd_key j) denySet (ad_leafLifetime (jd_deps j)) (ad_trustedGrantLifetime (jd_deps j)) trusted trusted.

Definition checkEpochCap (j : Judged) (primary : MemberRoot) : checked unit :=
  match jd_registry j with
  | Some registry =>
    if negb (bool_decide (jd_mode j = Admit)) || negb (isMember primary) then Ok tt
    else match recordedLogOf registry (cb_id (jd_binding j)) with
    | None => Ok tt
    | Some log => count ← epochEventCount log;
                  throwIf (MAX_EPOCH_EVENTS_FOR_LEAVES <? count)%nat (LeafBindingError epoch_cap)
    end
  | None => Ok tt
  end.

Definition survivorGrant (j : Judged) (registry : DeviceRegistry) : option string :=
  lifecycleOf registry (normalizeDID (cb_id (jd_binding j))) ≫= fun p =>
    lc_survivorGrants p !! normalizeDID (ci_id (jd_parsed j)).

Definition unavailable (j : Judged) : checked unit :=
  throwIf (negb (bool_decide (jd_mode j = Retain))) (LeafBindingError member_unavailable).

Definition prefixContained (j : Judged) (registry : DeviceRegistry) : bool :=
  match prefixRelation (recordedLogOf registry (cb_id (jd_binding j))) (cb_prefix (jd_binding j)) with
  | Contained => true
  | _ => false
  end.

(** A membership leaf whose member was removed stands on a grant in its place, if it was there before. *)
Definition verifyRemovedMember (j : Judged) (registry : DeviceRegistry) : checked unit :=
  throwIf (bool_decide (jd_mode j = Admit)) (LeafBindingError member_removed) ;;
  authority ← effectiveAuthorityOf (leafRef j) registry (cb_id (jd_binding j));
  match authority with
  | AuthorityOf _ slot _ =>
    match (if bool_decide (slot = SlotHolder) then cb_holderGrant (jd_binding j) else survivorGrant j registry) with
    | None => Err (LeafBindingError member_removed)
    | Some substitute => verifyPinnedCapability (pinned j substitute false (jd_denySet j) true)
    end
  | _ => Err (LeafBindingError member_removed)
  end.

Definition verifyMembership (j : Judged) (claim : MemberClaim) (primary : MemberRoot) : checked unit :=
  let binding := jd_binding j in
  throwIf (negb (String.prefix "did:kokuin:" (cb_id binding)) || negb (foldsChain (cb_id binding) (cb_prefix binding)))
    (LeafBindingError controller_mismatch) ;;
  if jd_structural j then Ok tt
  else match jd_registry j with
  | None => Err (LeafBindingError controller_mismatch)
  | Some registry =>
    match memberRootStatus registry (cb_id binding) primary with
    | IsRemoved => verifyRemovedMember j registry
    | IsEffective _ _ =>
      if negb (prefixContained j registry) then unavailable j
      else match resolveMember (leafResolver j) (ci_id (jd_parsed j)) (mc_add claim) (mc_g claim) with
      | None => unavailable j
      | Some key =>
        throwIf (negb (bytesEqual key (jd_key j))) (LeafBindingError confirmation_invalid) ;;
        checkEpochCap j primary
      end
    | IsRoot | IsUnavailable _ => unavailable j
    end
  end.

(** A failure of the holder's grant, but for its lifetime, is reported as one of its evidence. *)
Definition verifyHolder (j : Judged) (capability : string) (structural : bool) : checked unit :=
  match verifyPinnedCapability (pinned j capability structural (jd_denySet j) true) with
  | Ok _ => Ok tt
  | Err e => Err (if bool_decide (e = LeafBindingError lifetime_cap) then e else LeafBindingError holder_evidence_mismatch)
  end.

Definition grantLifetime (deps : AuthDeps) : Z := default MAX_TRUSTED_GRANT_LIFETIME (ad_trustedGrantLifetime deps).

(** Where a capability's member root stands: [Some (Ok _)] ends the check, [None] goes on to the full one. *)
Definition verifyMemberRoot (j : Judged) (primary : MemberRoot) (holderGrant : option string) : checked (option unit) :=
  let admitted := bool_decide (jd_mode j = Admit) in
  let retained := bool_decide (jd_mode j = Retain) in
  match jd_registry j with
  | None => if retained then Ok (Some tt) else Err (LeafBindingError member_unavailable)
  | Some registry =>
    let status := memberRootStatus registry (cb_id (jd_binding j)) primary in
    let out := match status with IsUnavailable _ => true | IsRemoved => false | _ => negb (prefixContained j registry) end in
    throwIf (admitted && isRemoved status) (LeafBindingError member_removed) ;;
    throwIf (admitted && match status with IsUnavailable _ => true | _ => false end) (LeafBindingError member_unavailable) ;;
    if out then (if retained then Ok (Some tt) else Err (LeafBindingError member_unavailable))
    else
      authority ← effectiveAuthorityOf (leafRef j) registry (cb_id (jd_binding j));
      match authority with
      | AuthorityUnavailable => if retained then Ok (Some tt) else Err (LeafBindingError member_unavailable)
      | AuthorityRemoved => Err (LeafBindingError member_removed)
      | AuthorityOf _ slot _ =>
        let substituted (grant : option string) : checked (option unit) :=
          match grant with
          | None => Err (LeafBindingError member_removed)
          | Some raw => Some <$> verifyHolder j raw false
          end in
        match slot with
        | SlotHolder => substituted holderGrant
        | SlotSurvivor => substituted (survivorGrant j registry)
        | _ => Ok None
        end
      end
  end.

(** The holder's own grant, checked in full once its member root is reachable. *)
Definition verifyHolderRoot (j : Judged) (roots : list (EvidenceSlot * MemberRoot)) (holderGrant : string) : checked unit :=
  match holderRoot roots, jd_registry j with
  | Some root, Some registry =>
    let status := memberRootStatus registry (cb_id (jd_binding j)) root in
    let out := isMember root && match status with
                                | IsUnavailable _ => true
                                | IsRemoved => false
                                | _ => negb (prefixContained j registry)
                                end in
    if out then unavailable j else verifyHolder j holderGrant false
  | _, _ => verifyHolder j holderGrant false
  end.

Definition verifyCapabilityLeaf (j : Judged) (capability : string) (roots : list (EvidenceSlot * MemberRoot))
    (primary : MemberRoot) : checked unit :=
  verifyPinnedCapability (pinned j capability true ∅ false) ;;
  holderGrant ← checkHolderEvidence (jd_parsed j) (jd_key j) (grantLifetime (jd_deps j));
  (match holderGrant with Some raw => verifyHolder j raw true | None => Ok tt end) ;;
  if jd_structural j then Ok tt
  else
    checkEpochCap j primary ;;
    done ← (if isMember primary then verifyMemberRoot j primary holderGrant else Ok None);
    match (done : option unit) with
    | Some _ => Ok tt
    | None =>
      evidence ← (if ad_mayKeepDeniedIssuer (jd_deps j)
                  then hasHolderEvidence (jd_parsed j) (jd_key j) (jd_denySet j) (grantLifetime (jd_deps j)) else Ok false);
      leafDenySet ← (if (evidence : bool) then withoutIssuer (jd_denySet j) capability else Ok (jd_denySet j));
      verifyPinnedCapability (pinned j capability false leafDenySet false) ;;
      match holderGrant with Some raw => verifyHolderRoot j roots raw | None => Ok tt end
    end.

Definition verifyBinding (j : Judged) : checked unit :=
  roots ← memberRootsOf (jd_binding j) (ci_id (jd_parsed j));
  match head roots with
  | None => Err (LeafBindingError member_unavailable)
  | Some (_, primary) =>
    throwIf (negb (jd_structural j) && absent (jd_registry j) && existsb (fun r => isMember r.2) roots)
      (LeafBindingError controller_mismatch) ;;
    match cb_member (jd_binding j), cb_capability (jd_binding j) with
    | Some claim, _ => verifyMembership j claim primary
    | None, None => Err (LeafBindingError controller_mismatch)
    | None, Some capability => verifyCapabilityLeaf j capability roots primary
    end
  end.

(** Whatever is not a [LeafBindingError] is reported as an invalid signature. *)
Definition asBindingError (e : LifecycleError) : LifecycleError :=
  match e with LeafBindingError _ => e | _ => LeafBindingError signature_invalid end.

(** The generation a leaf's prefix reaches may not be below the recorded floor. *)
Definition checkGeneration (binding : ControllerBinding) (registry : DeviceRegistry) : checked unit :=
  match foldChain (cb_id binding) (cb_prefix binding) with
  | Unfolded _ _ => Err (LeafBindingError controller_mismatch)
  | Folded f => throwIf (lastGen f <? genFloorOf (lifecycleOf registry (normalizeDID (cb_id binding))))%Z
                  (LeafBindingError generation_floor)
  end.

Definition judgedDenySet (deps : AuthDeps) : gset string :=
  let judging := ad_judging deps in
  if jc_structural judging then ∅
  else match ad_deviceDenySet deps, jc_registry judging with
  | Some denied, _ => denied
  | None, Some registry => denySetOf registry
  | None, None => ∅
  end.

Definition verifyLeafCredential (credential : Credential) (signaturePublicKey : bytes) (deps : AuthDeps) : checked unit :=
  match credential with
  | OtherCredential => Err (OtherError "Unsupported MLS credential type")
  | Basic identity =>
    match parseMLSCredentialIdentity parseJSON identity with
    | Err _ => Err (OtherError "identity")
    | Ok parsed =>
      throwIf (negb (matchesLeafKey parsed signaturePublicKey)) (LeafBindingError identity_change) ;;
      let registry := jc_registry (ad_judging deps) in
      let denied := judgedDenySet deps in
      let named := isDenied denied (ci_id parsed) in
      throwIf (named && negb (match registry with Some r => mayReadmitResetDevice r parsed | None => false end))
        (LeafBindingError denied_id) ;;
      match ci_controller parsed with
      | None => Ok tt
      | Some binding =>
        (match registry with
         | Some r => if jc_structural (ad_judging deps) then Ok tt else checkGeneration binding r
         | None => Ok tt
         end) ;;
        match verifyBinding (mkJudged parsed binding signaturePublicKey
                (if named then withoutDID denied (ci_id parsed) else denied) deps) with
        | Ok _ => Ok tt
        | Err e => Err (asBindingError e)
        end
      end
    end
  end.

Definition validateCredential (credential : Credential) (signaturePublicKey : bytes) (deps : AuthDeps) : bool :=
  is_ok (verifyLeafCredential credential signaturePublicKey deps).
End authentication.
