(* ===== verification/TreeTime.v ===== *)
(** * Time as a tree attests it

    packages/mls/src: the time a group reads off its own tree and registry (lifecycle.ts,
    [attestedTreeTime]), when a leaf has expired against it ([leafExpiry], [isLapsed]), which leaf a fresh
    key package replaces (stale-leaf.ts), and the size of the controller history a tree and its ledger hold
    (history.ts). No clock is read: time moves as signed claims enter the tree or the ledger. *)

From S2P Require Import Prelude HubProtocol Json ControllerLog GroupFold Credential LedgerHead Policy GroupHandle Capability MemberRoot LifecycleRegistry.

(** The order of the times, latest first: the comparator [b - a] does not ask for a swap. *)
Definition later (a b : num) : Prop := nlt a b = false.

#[export] Instance later_dec a b : Decision (later a b).
Proof. unfold later. apply _. Defined.

Section time.
Context {lib : ControllerLib} {tokens : TokenLib}.

(** ** lifecycle.ts: leaves *)

Definition identity (leaf : Leaf) : checked MLSCredentialIdentity :=
  match lf_credential leaf with
  | OtherCredential => Err (LeafBindingError identity_change)
  | Basic raw => match parseMLSCredentialIdentity parseJSON raw with
                 | Ok parsed => Ok parsed
                 | Err _ => Err (OtherError "identity")
                 end
  end.

Definition leafAt (tree : RatchetTree) (index : nat) : option Leaf := mjoin (tree !! (index * 2)).

(** The leaves of a tree with their positions. *)
Definition leavesOf (tree : RatchetTree) : list (nat * Leaf) :=
  omap (fun p => (fun leaf => (p.1, leaf)) <$> p.2) (imap pair tree).

(** ** [attestedTreeTime] *)

Record Attested := mkAttested { at_rootTime : num; at_attestations : gmap string num }.

Definition attest (key : string) (time : num) (a : gmap string num) : gmap string num :=
  <[key := nmax (default (numZ 0) (a !! key)) time]> a.

(** The grant that vouches for a leaf: its capability, or the capability's parent. *)
Definition attestedGrant (binding : ControllerBinding) (controller : string) : checked (option json) :=
  match cb_capability binding, cb_member binding with
  | Some raw, None =>
    if negb (bool_decide (normalizeDID (cb_id binding) = controller)) then Ok None
    else
      payload ← capabilityOf raw;
      match parentOf payload with
      | None => Ok (Some payload)
      | Some parent => token ← readParent parent; Ok (Some (tk_payload token))
      end
  | _, _ => Ok None
  end.

(** What a grant adds: the controller's own issuance, or an effective member's of the current generation. *)
Definition countGrant (controller : string) (head : option KeyState) (effective : list (string * MemberState))
    (a : Attested) (grant : json) : Attested :=
  match memberOf grant with
  | None =>
    if bool_decide (normalizeDID (issuerOf grant) = controller)
    then mkAttested (nmax (at_rootTime a) (iat grant)) (at_attestations a) else a
  | Some (add, gen) =>
    match jm_get add effective, head with
    | Some member, Some state =>
      if nsame gen (numZ (ks_gen state)) && sameDID (ms_did member) (issuerOf grant)
      then mkAttested (at_rootTime a) (attest (ms_key member) (iat grant) (at_attestations a)) else a
    | _, _ => a
    end
  end.

Definition countLeaf (controller : string) (head : option KeyState) (effective : list (string * MemberState))
    (a : Attested) (leaf : Leaf) : checked Attested :=
  parsed ← identity leaf;
  match ci_controller parsed with
  | None => Ok a
  | Some binding =>
    grant ← attestedGrant binding controller;
    Ok (match grant with Some g => countGrant controller head effective a g | None => a end)
  end.

(** The second latest attestation, so that no single member moves the time; the latest of an only member. *)
Definition quorumTime (times : list num) : option num :=
  match merge_sort later times with
  | [only] => Some only
  | _ :: second :: _ => Some second
  | [] => None
  end.

Definition unsaturatedHead (folded : option FoldResult) : option KeyState :=
  match folded with
  | Some (Folded f) => if ks_saturated (fo_head f) then None else Some (fo_head f)
  | _ => None
  end.

(** What the registry already records, before the leaves are counted. *)
Definition recordedAttestations (effective : list (string * MemberState)) (projection : option Lifecycle) : gmap string num :=
  foldl (fun a entry =>
    <[ms_key entry.2 := default (numZ 0) (projection ≫= fun p => lc_attestations p !! ms_key entry.2)]> a) ∅ effective.

Definition attestedTreeTime (tree : RatchetTree) (registry : DeviceRegistry) (controllerID : string) : checked num :=
  let controller := normalizeDID controllerID in
  let projection := lifecycleOf registry controller in
  let head := unsaturatedHead (projectionFold controller projection) in
  let effective := effectiveAttestingMembers head projection None in
  counted ← foldM (countLeaf controller head effective) (map snd (leavesOf tree))
              (mkAttested (numZ 0) (recordedAttestations effective projection));
  let quorum := quorumTime (map snd (map_to_list (at_attestations counted))) in
  Ok (nmax (nmax (timeFloorOf projection) (at_rootTime counted)) (default (numZ 0) quorum)).

(** In an ordinary group no controller is recorded. *)
Definition timedRegistry (anchor : GroupAnchor) (registry : DeviceRegistry) : DeviceRegistry :=
  if absent (ga_controller anchor) then mkRegistry (reg_devices registry) ∅ else registry.

Definition treeTime (g : GroupHandle) (controllerID : string) (registry : DeviceRegistry) : checked num :=
  attestedTreeTime (ml_tree (gh_state g)) (timedRegistry (gh_anchor g) registry) controllerID.

(** ** [leafExpiry] and [isLapsed] *)

Definition authorityExpiry (authority : Authority) : option num :=
  match authority with AuthorityOf _ _ expiry => expiry | _ => None end.

Definition capabilityExpiry (binding : ControllerBinding) (registry : DeviceRegistry) (controller : string) : checked (option num) :=
  match cb_capability binding with
  | None => Err (LeafBindingError controller_mismatch)
  | Some raw =>
    payload ← capabilityOf raw;
    key ← capabilityKey payload;
    authority ← effectiveAuthorityOf (mkLeafRef (audienceOf payload) binding key 0) registry controller;
    Ok (match authorityExpiry authority with
        | Some expiry => Some (nmin (exp payload) expiry)
        | None => expiryOf payload
        end)
  end.

(** The key of a member's leaf: as the log has it, or as the grant of a survivor pins it. *)
Definition memberKey (member : option MemberState) (survivor : option string) : checked (option bytes) :=
  match member, survivor with
  | Some m, _ => Ok (Some (decodeKey (ms_key m)))
  | None, None => Ok None
  | None, Some raw => payload ← capabilityOf raw; Some <$> capabilityKey payload
  end.

Definition membershipExpiry (binding : ControllerBinding) (claim : MemberClaim) (registry : DeviceRegistry)
    (controller : string) : checked (option num) :=
  let did := normalizeDID controller in
  let projection := lifecycleOf registry did in
  if negb (bool_decide (normalizeDID (cb_id binding) = did)) then Ok None
  else match projection ≫= lc_recordedLog with
  | None => Ok None
  | Some log =>
    match prefixRelation (Some log) (cb_prefix binding), recordedFold did projection with
    | Contained, Some f =>
      let member := jm_get (mc_add claim) (ks_members (fo_head f)) in
      let removed := projection ≫= fun p => lc_removedMembers p !! mc_add claim in
      match (match member with Some m => Some (ms_did m) | None => rm_did <$> removed end) with
      | None => Ok None
      | Some memberDID =>
        let survivor := projection ≫= fun p => lc_survivorGrants p !! normalizeDID memberDID in
        leafKey ← memberKey member survivor;
        authority ← (match leafKey with
                     | None => Ok None
                     | Some key => Some <$> effectiveAuthorityOf (mkLeafRef memberDID binding key 0) registry controller
                     end);
        match authority ≫= authorityExpiry with
        | Some expiry => Ok (Some expiry)
        | None =>
          Ok (match memberRootStatus registry did (RootMember memberDID (mc_add claim) (numZ (mc_g claim))) with
              | IsEffective _ lease => Some lease
              | _ => None
              end)
        end
      end
    | _, _ => Ok None
    end
  end.

Definition leafExpiry (binding : ControllerBinding) (registry : DeviceRegistry) (controller : string) : checked (option num) :=
  match cb_member binding with
  | None => capabilityExpiry binding registry controller
  | Some claim => membershipExpiry binding claim registry controller
  end.

(** The expiry of a leaf, if it is bound. *)
Definition boundExpiry (leaf : Leaf) (registry : DeviceRegistry) (controller : string) : checked (option num) :=
  parsed ← identity leaf;
  match ci_controller parsed with
  | None => Ok None
  | Some binding => leafExpiry binding registry controller
  end.

Definition isLapsed (g : GroupHandle) (leaf : Leaf) (registry : DeviceRegistry) : checked bool :=
  match ga_controller (gh_anchor g) with
  | None => Ok false
  | Some controller =>
    expiry ← boundExpiry leaf registry controller;
    match expiry with
    | None => Ok false
    | Some e => time ← treeTime g controller registry; Ok (nlt e time)
    end
  end.

(** ** stale-leaf.ts *)

Definition leafDID (leaf : Leaf) : option string := didFromCredential parseJSON normalizeDID (lf_credential leaf).

Definition bindingIssuedAt (binding : ControllerBinding) : checked num :=
  match cb_member binding, cb_iat binding, cb_capability binding with
  | Some _, Some issued, _ => Ok (toNum issued)
  | _, _, None => Err (LeafBindingError controller_mismatch)
  | _, _, Some raw => iat <$> capabilityOf raw
  end.

Definition leafBindingIssuedAt (leaf : Leaf) : checked (option num) :=
  match lf_credential leaf with
  | OtherCredential => Ok None
  | Basic _ =>
    parsed ← identity leaf;
    match ci_controller parsed with
    | None => Ok None
    | Some binding => Some <$> bindingIssuedAt binding
    end
  end.

Definition assertNewerBinding (leaf replaced : Leaf) : checked unit :=
  next ← leafBindingIssuedAt leaf;
  previous ← leafBindingIssuedAt replaced;
  throwIf (match next, previous with Some n, Some p => nle n p | _, _ => true end) (LeafBindingError renewal_order).

Definition leafIndicesOf (tree : RatchetTree) (did : string) : list nat :=
  (fun p => Nat.div2 p.1) <$> filter (fun p => leafDID p.2 = Some did) (leavesOf tree).

(** The leaf an admission replaces: the only one of its DID. [None] past the [Ok]: two or more. *)
Definition staleLeafIndex (tree : RatchetTree) (leaf : Leaf) : result string (option nat) :=
  match leafDID leaf with
  | None => Ok None
  | Some did =>
    match leafIndicesOf tree did with
    | _ :: _ :: _ => Err did
    | indices => Ok (head indices)
    end
  end.

Definition removesLeaf (target : nat) (p : ProposalWithSender) : bool :=
  match pw_proposal p with Remove removed => (removed =? target)%nat | _ => false end.

Definition addsDID (did : string) (p : ProposalWithSender) : option Leaf :=
  match pw_proposal p with
  | Add leaf => if bool_decide (leafDID leaf = Some did) then Some leaf else None
  | _ => None
  end.

(** The leaf added in the place of [target] by the commit that removes it. *)
Definition stalePairedAdd (before : RatchetTree) (target : nat) (proposals : list ProposalWithSender)
    (committer : nat) (denied : list (gset string)) : option Leaf :=
  if (target =? committer)%nat then None
  else match leafAt before target ≫= leafDID with
  | None => None
  | Some did =>
    if negb (length (leafIndicesOf before did) =? 1)%nat then None
    else if existsb (fun set => existsb (fun held => bool_decide (normalizeDID held = did)) (elements set)) denied then None
    else match filter (fun p => removesLeaf target p = true) proposals, omap (addsDID did) proposals with
    | [_], [leaf] => Some leaf
    | _, _ => None
    end
  end.

(** ** history.ts: [historySize] *)

Definition leafHistory (total : Z) (leaf : Leaf) : checked Z :=
  match lf_credential leaf with
  | OtherCredential => Ok total
  | Basic _ =>
    parsed ← identity leaf;
    Ok (match ci_controller parsed with
        | Some binding => (total + controllerLogSize (cb_prefix binding))%Z
        | None => total
        end)
  end.

Definition entryHistory (total : Z) (verified : VerifiedLedgerEntry json) : Z :=
  let entry := ve_entry verified in
  if bool_decide (le_type entry = DEVICE_ENTRY_TYPE) then (total + proofSize (get "proof" (le_value entry)))%Z else total.

Definition historySize (tree : RatchetTree) (entries : list (VerifiedLedgerEntry json)) : checked Z :=
  leaves ← foldM leafHistory (map snd (leavesOf tree)) 0%Z;
  Ok (foldl entryHistory leaves entries).
End time.
