(* ===== verification/LifecycleProof.v ===== *)
(** * Proof entries against the tree

    packages/mls/src/lifecycle-proof.ts: what a revoke, reset, clock or log entry does to a group whose
    leaves still describe the epoch before the commit, and whether the entry declares exactly that. *)

From S2P Require Import Prelude HubProtocol Json ControllerLog GroupFold Credential LedgerHead Policy GroupHandle Capability MemberRoot LifecycleRegistry Authentication TreeTime.

Definition DEFAULT_LEAF_LIFETIME : Z := 86400.
Definition DEFAULT_TRUSTED_GRANT_LIFETIME : Z := 2592000.

Definition anchorLeafLifetime (anchor : GroupAnchor) : Z := default DEFAULT_LEAF_LIFETIME (ga_leafLifetime anchor).
Definition anchorGrantLifetime (anchor : GroupAnchor) : Z :=
  default DEFAULT_TRUSTED_GRANT_LIFETIME (ga_trustedGrantLifetime anchor).

Record LifecycleProofEffects := mkProofEffects {
  pe_controller : string;
  pe_recordedLog : ControllerLog;
  pe_genFloor : Z;
  pe_timeFloor : num;
  pe_revoked : list RevokedEffect;
  pe_removed : list RemovedEffect;
  pe_removeLeafIndices : list nat;
}.

Section proof.
Context {lib : ControllerLib} {tokens : TokenLib}.

Definition treeOf (g : GroupHandle) : RatchetTree := ml_tree (gh_state g).
Definition ledgerOf (g : GroupHandle) : list (VerifiedLedgerEntry json) := map verifiedOf (gh_ledger g).
Definition bindingOf (g : GroupHandle) (did : string) : option LeafBinding := bindingOfDID normalizeDID parseJSON (treeOf g) did.
Definition membersOf (g : GroupHandle) : list (nat * string) := listMembers parseJSON (treeOf g).

Definition findMemberLeafIndex (g : GroupHandle) (did : string) : option nat :=
  fst <$> (snd <$> list_find (fun member => normalizeDID member.2 = normalizeDID did) (membersOf g)).

(** ** [isEvidencedChild] *)

Definition isEvidencedChild (g : GroupHandle) (leaf : Leaf) (denied : gset string) : checked bool :=
  match ga_controller (gh_anchor g), identityOf parseJSON (Some leaf) with
  | Some controller, Some parsed =>
    match ci_controller parsed with
    | Some binding =>
      if negb (sameDID (cb_id binding) controller) then Ok false
      else hasHolderEvidence parsed (lf_signaturePublicKey leaf) denied (anchorGrantLifetime (gh_anchor g))
    | None => Ok false
    end
  | _, _ => Ok false
  end.

(** [isExemptMember]. *)
Definition isExemptMember (g : GroupHandle) (leafIndex : nat) : checked bool :=
  match leafAt (treeOf g) leafIndex with
  | Some leaf => isEvidencedChild g leaf (denySetOf (gh_registry g))
  | None => Ok false
  end.

(** ** [lifecycleProofEffects] *)

(** A member, with the generation and the size of the prefix that the leaf found under its DID carries. *)
Record ProofLeaf := mkProofLeaf { pl_did : string; pl_leafIndex : nat; pl_generation : option Z; pl_prefix : list json }.

Definition proofLeaf (g : GroupHandle) (controller : string) (member : nat * string) : ProofLeaf :=
  let binding := bindingOf g member.2 ≫= lb_controller in
  mkProofLeaf (normalizeDID member.2) member.1
    (b ← binding; match foldChain controller (cb_prefix b) with
                  | Folded f => ks_gen <$> last (fo_states f)
                  | Unfolded _ _ => None
                  end)
    (default [] (cb_prefix <$> binding)).

Definition proofLeaves (g : GroupHandle) (controller : string) : list ProofLeaf := map (proofLeaf g controller) (membersOf g).

(** A clock entry: an effective member attests a later time than it has, or the controller's floor rises to
    a time the tree has reached. *)
Definition clockEffects (g : GroupHandle) (controller issuer subject : string) (value : DeviceValue)
    (registry : DeviceRegistry) : checked LifecycleProofEffects :=
  let previous := lifecycleOf registry controller in
  let floor := timeFloorOf previous in
  throwIf (negb (bool_decide (normalizeDID subject = controller))) (RevokeProofError wrong_controller) ;;
  match dv_time value with
  | Some (Fin q) =>
    let time := Fin q in
    (if dv_attest value then
       let eligible := effectiveAttestingMembers (fo_head <$> recordedFold controller previous) previous (Some time) in
       throwIf (negb (existsb (fun entry => sameDID (ms_did entry.2) issuer &&
                        nlt (default (numZ 0) (previous ≫= fun p => lc_attestations p !! ms_key entry.2)) time) eligible))
         (RevokeProofError effects_mismatch)
     else if nle time floor then Err (RevokeProofError effects_mismatch)
     else
       now ← attestedTreeTime (treeOf g) (gh_registry g) controller;
       then_ ← attestedTreeTime (treeOf g) registry controller;
       throwIf (nlt (nmax now then_) time) (RevokeProofError effects_mismatch)) ;;
    Ok (mkProofEffects controller (default (mkControllerLog [] []) (previous ≫= lc_recordedLog)) (genFloorOf previous)
          (if dv_attest value then floor else time) [] [] [])
  | _ => Err (RevokeProofError effects_mismatch)
  end.

(** A log entry may only come from a standing member, and may not grow the history past its horizon. *)
Definition logEffects (g : GroupHandle) (controller issuer : string) (value : DeviceValue) (registry : DeviceRegistry)
    (authenticated : AuthenticatedProof) : checked LifecycleProofEffects :=
  match findMemberLeafIndex g issuer ≫= leafAt (treeOf g) with
  | None => Err (RevokeProofError wrong_controller)
  | Some leaf =>
    throwIf (bool_decide (normalizeDID issuer ∈ denySetOf registry)) (LeafBindingError denied_id) ;;
    lapsed ← isLapsed g leaf registry;
    throwIf lapsed LeafLapsedError ;;
    before ← historySize (treeOf g) (ledgerOf g);
    throwIf (HISTORY_HORIZON <? before + proofSize (dv_proof value))%Z (RevokeProofError too_large) ;;
    Ok (mkProofEffects controller (ap_recordedLog authenticated) (ap_genFloor authenticated)
          (timeFloorOf (lifecycleOf registry controller)) [] [] [])
  end.

(** A survivor's grant: a member's direct one, to the device and key of a leaf of the group, by a member that
    still stands once the entry is recorded. *)
Definition checkSurvivorGrant (g : GroupHandle) (controller : string) (candidate : DeviceRegistry) (raw : string) :
    checked unit :=
  payload ← capabilityOf raw;
  assertControllerGrant payload controller ;;
  match memberOf payload with
  | None => Err (LeafBindingError issuer_mismatch)
  | Some (add, gen) =>
    throwIf (notNull (get "cap" payload)) (LeafBindingError issuer_mismatch) ;;
    assertCapabilityLifetime payload (anchorGrantLifetime (gh_anchor g)) ;;
    let leaf := bindingOf g (audienceOf payload) in
    key ← capabilityKey payload;
    throwIf (match leaf with
             | Some b => negb (bool_decide (controllerID (Some b) = Some controller)) || negb (bytesEqual key (lb_leafKey b))
             | None => true
             end) (LeafBindingError confirmation_invalid) ;;
    match memberRootStatus candidate controller (RootMember (issuerOf payload) add gen) with
    | IsEffective _ _ =>
      let resolver := registryResolver controller (default [] (cl_chain <$> recordedLogOf candidate controller)) (Some candidate) in
      libraryRefusal (verifyToken resolver raw (iat payload)) ;;
      libraryRefusal (checkCapability resolver leafPermission payload (iat payload))
    | IsRemoved => Err (LeafBindingError member_removed)
    | _ => Err (LeafBindingError member_unavailable)
    end
  end.

(** The members a reset denies: those whose prefix is of an earlier generation. *)
Definition resetDIDs (op : DeviceOp) (genFloor : Z) (leaves : list ProofLeaf) : list string :=
  if bool_decide (op = op_reset)
  then setOf (pl_did <$> filter (fun leaf => match pl_generation leaf with
                                                   | Some gen => (gen <? genFloor)%Z
                                                   | None => false
                                                   end = true) leaves)
  else [].

Definition isDenyOf (dids : list string) (claim : EffectClaim) : bool :=
  match claim with DenyClaim did _ => bool_decide (normalizeDID did ∈ dids) | RemoveClaim _ _ _ => false end.

Definition proofClaims (resetRef : option nat) (dids : list string) (effects : list EffectClaim) : list EffectClaim :=
  match resetRef with
  | None => effects
  | Some index => map (fun did => DenyClaim did (Snapshot index)) dids ++
                  filter (fun claim => isDenyOf dids claim = false) effects
  end.

(** The leaves of the group that are bound, as the cascade judges them. *)
Definition boundLeaves (g : GroupHandle) : list LeafRef :=
  omap (fun member =>
    leaf ← bindingOf g member.2;
    binding ← lb_controller leaf;
    Some (mkLeafRef member.2 binding (lb_leafKey leaf) member.1)) (membersOf g).

Definition keepsRevoked (op : DeviceOp) (dids : list string) (effect : RevokedEffect) : bool :=
  negb (bool_decide (op = op_reset)) || bool_decide (re_did effect ∈ dids) || negb (absent (re_cascadedFrom effect)).

Definition withRevoked (value : DeviceValue) (revoked : list RevokedEffect) : DeviceValue :=
  mkDeviceValue (dv_op value) (dv_controller value) (dv_label value) (dv_capability value) (dv_proof value)
    (dv_effects value) (dv_removed value) (dv_survivors value) (Some revoked) (dv_time value) (dv_attest value)
    (dv_logLength value) (dv_headDigest value).

Definition removalEffects (g : GroupHandle) (controller issuer subject : string) (value : DeviceValue)
    (registry : DeviceRegistry) (authenticated : AuthenticatedProof) : checked LifecycleProofEffects :=
  let leaves := proofLeaves g controller in
  candidate ← applyLifecycle issuer subject (withRevoked value []) registry controller;
  forEach (checkSurvivorGrant g controller candidate) (default [] (dv_survivors value)) ;;
  let resetRef := ap_resetRef authenticated in
  throwIf (bool_decide (dv_op value = op_reset) && absent resetRef) (RevokeProofError no_rev) ;;
  let dids := resetDIDs (dv_op value) (ap_genFloor authenticated) leaves in
  let claims := proofClaims resetRef dids (default [] (dv_effects value)) in
  cascade ← cascadeOf (boundLeaves g) claims registry candidate controller;
  before ← historySize (treeOf g) (ledgerOf g);
  let indices := ca_removeLeafIndices cascade in
  let dropped := filter (fun leaf => pl_leafIndex leaf ∈ indices) leaves in
  let after := (before + proofSize (dv_proof value) -
                foldl (fun size leaf => size + controllerLogSize (pl_prefix leaf)) 0 dropped)%Z in
  throwIf ((HISTORY_HORIZON <? after) && (before <? after))%Z (RevokeProofError too_large) ;;
  Ok (mkProofEffects controller (ap_recordedLog authenticated) (ap_genFloor authenticated)
        (timeFloorOf (lifecycleOf registry controller))
        (filter (fun effect => keepsRevoked (dv_op value) dids effect = true) (ca_revoked cascade))
        (ca_removed cascade) indices).

Definition lifecycleProofEffects (g : GroupHandle) (issuer groupID subject : string) (value : DeviceValue)
    (registry : DeviceRegistry) : checked LifecycleProofEffects :=
  match ga_controller (gh_anchor g) with
  | None => Err (RevokeProofError wrong_controller)
  | Some controllerID' =>
    let controller := normalizeDID controllerID' in
    throwIf (negb (bool_decide (groupID = gh_groupID g)) ||
             match controllerID (bindingOf g issuer) with
             | Some c => negb (bool_decide (normalizeDID c = controller))
             | None => true
             end) (RevokeProofError wrong_controller) ;;
    if bool_decide (dv_op value = op_clock) then clockEffects g controller issuer subject value registry
    else
      authenticated ← authenticateLifecycleProof controller subject value registry;
      match dv_op value with
      | op_log => logEffects g controller issuer value registry authenticated
      | op_revoke | op_reset => removalEffects g controller issuer subject value registry authenticated
      | _ => Err (RevokeProofError no_rev)
      end
  end.

(** ** [verifyLifecycleProof]: the entry declares exactly the derived effects, in derivation order *)

Definition effectsMatch (declared : option (list (string * option string))) (derived : list (string * option string)) : bool :=
  match declared with
  | None => false
  | Some effects => bool_decide (map (fun e => (normalizeDID e.1, normalizeDID <$> e.2)) effects = derived)
  end.

Definition revokedPair (effect : RevokedEffect) : string * option string := (re_did effect, re_cascadedFrom effect).
Definition removedPair (effect : RemovedEffect) : string * option string := (rv_did effect, Some (rv_cascadedFrom effect)).

Definition isProofOp (op : DeviceOp) : bool := match op with op_revoke | op_reset => true | _ => false end.

Definition verifyLifecycleProof (g : GroupHandle) (verified : VerifiedLedgerEntry json) (value : DeviceValue)
    (registry : DeviceRegistry) : checked LifecycleProofEffects :=
  effects ← lifecycleProofEffects g (ve_issuer verified) (le_groupID (ve_entry verified))
              (le_subject (ve_entry verified)) value registry;
  throwIf (isProofOp (dv_op value) &&
           (negb (effectsMatch (map revokedPair <$> dv_revoked value) (map revokedPair (pe_revoked effects))) ||
            negb (effectsMatch (map removedPair <$> dv_removed value) (map removedPair (pe_removed effects)))))
    (RevokeProofError effects_mismatch) ;;
  Ok effects.
End proof.
