(* ===== verification/LifecycleGate.v ===== *)
(** * The gate of a lifecycle group

    packages/mls/src/lifecycle.ts: what a commit or proposal may do to the tree of a group whose anchor names
    a controller. [prepareLifecycleGate] reads the epoch before, [gateCheck] judges the proposals and
    [gatePostApply] the state the MLS library made of them. The gate also runs, with fewer rules, in a group
    without a controller. *)

From S2P Require Import Prelude HubProtocol Json ControllerLog GroupFold Credential LedgerHead Policy GroupHandle Capability MemberRoot LifecycleRegistry Authentication TreeTime LifecycleProof.

Inductive CommitRejectionReason := reason_binding | reason_lapse | reason_floor | reason_policy | reason_invalid.

Definition rejectionReason (error : LifecycleError) : CommitRejectionReason :=
  match error with
  | LeafLapsedError => reason_lapse
  | LeafBindingError generation_floor => reason_floor
  | LeafBindingError denied_id | LeafBindingError identity_change => reason_invalid
  | LeafBindingError _ => reason_binding
  | RevokeProofError below_generation_floor | RevokeProofError time_regression => reason_floor
  | _ => reason_invalid
  end.

(** A write to a JavaScript array, which grows to the position. *)
Definition setNode (tree : RatchetTree) (position : nat) (node : option Leaf) : RatchetTree :=
  if (position <? length tree)%nat then <[position := node]> tree
  else tree ++ replicate (position - length tree) None ++ [node].

Section gate.
Context {lib : ControllerLib} {tokens : TokenLib}.

(** ** Judging one leaf *)

(** A direct grant of the group's controller in the place of one by a device the group recorded revoked. *)
Definition replacesRevokedIssuer (g : GroupHandle) (binding old : ControllerBinding) : checked bool :=
  match ga_controller (gh_anchor g) with
  | None => Ok false
  | Some controller =>
    if negb (sameDID (cb_id binding) controller) then Ok false
    else match cb_member binding, cb_member old, cb_capability old with
    | None, None, Some held =>
      match cb_capability binding with
      | None => Err (LeafBindingError controller_mismatch)
      | Some raw =>
        payload ← capabilityOf raw;
        if has "cap" payload then Ok false
        else current ← capabilityOf held;
             Ok (has "cap" current && denied (gh_registry g) (normalizeDID (issuerOf current)))
      end
    | _, _, _ => Ok false
    end
  end.

(** A leaf in the place of another keeps its identity, key and controller, and an issuance not older. *)
Definition checkReplacement (g : GroupHandle) (parsed : MLSCredentialIdentity) (leaf previous : Leaf) : checked unit :=
  old ← identity previous;
  let binding := ci_controller parsed in
  throwIf (negb (bool_decide (ci_id parsed = ci_id old)) || negb (bool_decide (ci_longForm parsed = ci_longForm old)) ||
           negb (bytesEqual (lf_signaturePublicKey leaf) (lf_signaturePublicKey previous)) ||
           match ci_controller old, binding with
           | Some o, Some b => negb (bool_decide (cb_id b = cb_id o))
           | Some _, None => true
           | None, _ => false
           end) (LeafBindingError identity_change) ;;
  match binding, ci_controller old with
  | Some b, Some o =>
    next ← bindingIssuedAt b;
    previous ← bindingIssuedAt o;
    if nlt next previous
    then replaces ← replacesRevokedIssuer g b o; throwIf (negb replaces) (LeafBindingError renewal_order)
    else Ok tt
  | _, _ => Ok tt
  end.

(** The deny set of a full judgement. *)
Definition judgingDenied (judging : JudgingContext) : gset string :=
  match jc_structural judging, jc_registry judging with false, Some registry => denySetOf registry | _, _ => ∅ end.

(** A leaf and the controller of the group, and of the record of its device. *)
Definition checkController (g : GroupHandle) (parsed : MLSCredentialIdentity) (judging : JudgingContext) : checked unit :=
  let binding := ci_controller parsed in
  (match ga_controller (gh_anchor g), binding with
   | Some _, None => Err (LeafBindingError floating_refused)
   | Some controller, Some b => throwIf (negb (sameDID (cb_id b) controller)) (LeafBindingError controller_mismatch)
   | None, Some b => roots ← memberRootsOf b (ci_id parsed);
                     throwIf (existsb (fun r => isMember r.2) roots) (LeafBindingError controller_mismatch)
   | None, None => Ok tt
   end) ;;
  throwIf (bool_decide (normalizeDID (ci_id parsed) ∈ judgingDenied judging) &&
           negb (mayReadmitResetDevice (default (gh_registry g) (jc_registry judging)) parsed)) (LeafBindingError denied_id) ;;
  throwIf (match jc_structural judging, jc_registry judging ≫= fun r => reg_devices r !! normalizeDID (ci_id parsed) with
           | false, Some record =>
             match binding with Some b => negb (bool_decide (normalizeDID (cb_id b) = dr_controller record)) | None => true end
           | _, _ => false
           end) (LeafBindingError controller_mismatch).

(** The lifetimes of a capability and of its parent, and an issuer that is denied: only an evidenced child
    that was there before, or comes in a Welcome, keeps one. *)
Definition checkLeafGrant (g : GroupHandle) (leaf : Leaf) (binding : ControllerBinding) (welcome : bool)
    (judging : JudgingContext) : checked unit :=
  let controlled := negb (absent (ga_controller (gh_anchor g))) in
  let grantLifetime := if controlled then anchorGrantLifetime (gh_anchor g) else MAX_TRUSTED_GRANT_LIFETIME in
  match cb_member binding, cb_capability binding with
  | Some _, _ => Ok tt
  | None, None => Err (LeafBindingError controller_mismatch)
  | None, Some raw =>
    payload ← capabilityOf raw;
    assertCapabilityLifetime payload (if controlled then anchorLeafLifetime (gh_anchor g) else MAX_LEAF_LIFETIME) ;;
    (match parentOf payload with
     | None => Ok tt
     | Some parent => token ← readParent parent; assertCapabilityLifetime (tk_payload token) grantLifetime
     end) ;;
    if notNull (get "cap" payload) && bool_decide (normalizeDID (issuerOf payload) ∈ judgingDenied judging)
    then
      kept ← (if welcome || bool_decide (jc_mode judging = Retain) then isEvidencedChild g leaf (judgingDenied judging) else Ok false);
      throwIf (negb kept) (LeafBindingError denied_issuer)
    else Ok tt
  end.

(** The generation a leaf's prefix reaches, against the floor of the group's controller. *)
Definition checkLeafGeneration (g : GroupHandle) (binding : ControllerBinding) (judging : JudgingContext) : checked unit :=
  match foldChain (cb_id binding) (cb_prefix binding) with
  | Unfolded _ _ => Err (LeafBindingError controller_mismatch)
  | Folded f =>
    throwIf (match jc_structural judging, ga_controller (gh_anchor g) with
             | false, Some controller =>
               (lastGen f <? genFloorOf (jc_registry judging ≫= fun r => lifecycleOf r (normalizeDID controller)))%Z
             | _, _ => false
             end) (LeafBindingError generation_floor)
  end.

Definition checkBinding (g : GroupHandle) (leaf : Leaf) (previous : option Leaf) (welcome : bool)
    (judging : JudgingContext) : checked unit :=
  parsed ← identity leaf;
  checkController g parsed judging ;;
  (match previous with Some old => checkReplacement g parsed leaf old | None => Ok tt end) ;;
  match ci_controller parsed with
  | None => Ok tt
  | Some binding =>
    checkHolderEvidence parsed (lf_signaturePublicKey leaf)
      (if absent (ga_controller (gh_anchor g)) then MAX_TRUSTED_GRANT_LIFETIME else anchorGrantLifetime (gh_anchor g)) ;;
    checkLeafGrant g leaf binding welcome judging ;;
    checkLeafGeneration g binding judging
  end.

Definition checkAdmissionExpiry (g : GroupHandle) (leaf : Leaf) (registry : DeviceRegistry) : checked unit :=
  parsed ← identity leaf;
  match ci_controller parsed with
  | None => Ok tt
  | Some binding =>
    expiry ← leafExpiry binding registry (cb_id binding);
    match expiry with
    | None => Err (LeafBindingError member_unavailable)
    | Some e => time ← treeTime g (cb_id binding) registry; throwIf (nle e time) LeafLapsedError
    end
  end.

Definition judgedRegistry (g : GroupHandle) (judging : JudgingContext) : DeviceRegistry :=
  default (gh_registry g) (jc_registry judging).

Definition admissionExpiry (g : GroupHandle) (leaf : Leaf) (judging : JudgingContext) : checked unit :=
  if bool_decide (jc_mode judging = Admit) then checkAdmissionExpiry g leaf (judgedRegistry g judging) else Ok tt.

Definition checkEntry (g : GroupHandle) (leaf : Leaf) (previous : option Leaf) (judging : JudgingContext) : checked unit :=
  checkBinding g leaf previous false judging ;; admissionExpiry g leaf judging.

Definition leafDeps (g : GroupHandle) (welcome : bool) (judging : JudgingContext) : AuthDeps :=
  let controlled := negb (absent (ga_controller (gh_anchor g))) in
  mkDeps (mkJudging (if controlled then jc_registry judging else None) (jc_structural judging) (jc_mode judging))
    (Some (match jc_registry judging with Some registry => denySetOf registry | None => ∅ end))
    ((welcome || bool_decide (jc_mode judging = Retain)) && controlled)
    (if controlled then Some (anchorLeafLifetime (gh_anchor g)) else None)
    (if controlled then Some (anchorGrantLifetime (gh_anchor g)) else None).

Definition validateBoundLeaf (g : GroupHandle) (leaf : Leaf) (previous : option Leaf) (welcome : bool)
    (judging : JudgingContext) : checked unit :=
  checkBinding g leaf previous welcome judging ;;
  verifyLeafCredential (lf_credential leaf) (lf_signaturePublicKey leaf) (leafDeps g welcome judging).

Definition validateEntry (g : GroupHandle) (leaf : Leaf) (previous : option Leaf) (judging : JudgingContext) : checked unit :=
  validateBoundLeaf g leaf previous false judging ;; admissionExpiry g leaf judging.

(** ** Judging a tree *)

Definition credentialEqual (a b : Leaf) : bool :=
  match lf_credential a, lf_credential b with Basic x, Basic y => bytesEqual x y | _, _ => false end.

Definition isUnchangedLeaf (tree : RatchetTree) (index : nat) (leaf : Leaf) : bool :=
  match leafAt tree index with
  | Some held => credentialEqual held leaf && bytesEqual (lf_signaturePublicKey held) (lf_signaturePublicKey leaf)
  | None => false
  end.

(** [before] is the tree before the commit; a Welcome has none. *)
Definition keepsDeniedIssuer (g : GroupHandle) (before : option RatchetTree) (position : nat) (leaf : Leaf)
    (denied : gset string) : checked bool :=
  if match before with
     | None => true
     | Some tree => Nat.even position && isUnchangedLeaf tree (Nat.div2 position) leaf
     end
  then isEvidencedChild g leaf denied else Ok false.

Definition survivorIssuer (g : GroupHandle) (before : option RatchetTree) (registry : DeviceRegistry)
    (position : nat) (leaf : Leaf) (binding : ControllerBinding) : checked unit :=
  match cb_member binding, cb_capability binding with
  | None, Some raw =>
    payload ← capabilityOf raw;
    if notNull (get "cap" payload) && bool_decide (normalizeDID (issuerOf payload) ∈ denySetOf registry)
    then kept ← keepsDeniedIssuer g before position leaf (denySetOf registry);
         throwIf (negb kept) (LeafBindingError denied_issuer)
    else Ok tt
  | _, _ => Ok tt
  end.

Definition survivorAuthority (g : GroupHandle) (registry : DeviceRegistry) (leaf : Leaf)
    (parsed : MLSCredentialIdentity) (binding : ControllerBinding) : checked unit :=
  match ga_controller (gh_anchor g) with
  | None => Ok tt
  | Some controller =>
    match foldChain (cb_id binding) (cb_prefix binding) with
    | Unfolded _ _ => Err (LeafBindingError controller_mismatch)
    | Folded f =>
      throwIf (negb (sameDID (cb_id binding) controller)) (LeafBindingError controller_mismatch) ;;
      throwIf (lastGen f <? genFloorOf (lifecycleOf registry (normalizeDID controller)))%Z (LeafBindingError generation_floor) ;;
      authority ← effectiveAuthorityOf (mkLeafRef (ci_id parsed) binding (lf_signaturePublicKey leaf) 0) registry controller;
      throwIf (match authority with AuthorityRemoved => true | _ => false end) (LeafBindingError member_removed)
    end
  end.

Definition checkSurvivor (g : GroupHandle) (before : option RatchetTree) (registry : DeviceRegistry)
    (entry : nat * Leaf) : checked unit :=
  let '(position, leaf) := entry in
  parsed ← identity leaf;
  throwIf (bool_decide (normalizeDID (ci_id parsed) ∈ denySetOf registry) && negb (mayReadmitResetDevice registry parsed))
    (LeafBindingError denied_id) ;;
  match ci_controller parsed with
  | None => throwIf (negb (absent (ga_controller (gh_anchor g)))) (LeafBindingError floating_refused)
  | Some binding =>
    survivorIssuer g before registry position leaf binding ;;
    survivorAuthority g registry leaf parsed binding
  end.

Definition checkSurvivors (g : GroupHandle) (tree : RatchetTree) (registry : DeviceRegistry) (before : option RatchetTree) :
    checked unit :=
  forEach (checkSurvivor g before registry) (leavesOf tree).

(** [ownPosition] is the node of the joiner's own leaf. *)
Definition validateWelcomeTree (g : GroupHandle) (ownPosition : nat) (judging : JudgingContext) : checked unit :=
  forEach (fun entry =>
    validateBoundLeaf g entry.2 None true judging ;;
    if negb (jc_structural judging) && (entry.1 =? ownPosition)%nat
    then checkAdmissionExpiry g entry.2 (judgedRegistry g judging) else Ok tt) (leavesOf (treeOf g)) ;;
  if jc_structural judging then Ok tt else checkSurvivors g (treeOf g) (judgedRegistry g judging) None.

(** ** [prepareLifecycleGate] *)

Record LifecycleGate := mkGate {
  lg_group : GroupHandle;
  lg_entries : list (VerifiedLedgerEntry json);
  lg_registry : DeviceRegistry;
  lg_context : CommitPolicyContext;
  lg_externalLeaf : option Leaf;
  lg_beforeSize : Z;
  lg_beforeTime : num;
  lg_lapsed : gset nat;
  lg_proofs : bool;
  lg_expectedRemoves : gset nat;
}.

Definition lg_controller (gate : LifecycleGate) : option string := ga_controller (gh_anchor (lg_group gate)).
Definition lg_before (gate : LifecycleGate) : RatchetTree := treeOf (lg_group gate).

(** In an ordinary group a management capability may not be past its expiry. *)
Definition capabilityLapsed (g : GroupHandle) (registry : DeviceRegistry) (verified : VerifiedLedgerEntry json) : checked unit :=
  if negb (isDeviceEntry verified) then Ok tt
  else match optString (get "capability" (le_value (ve_entry verified))), controllerID (bindingOf g (ve_issuer verified)) with
  | Some capability, Some controller =>
    payload ← capabilityOf capability;
    time ← treeTime g controller registry;
    throwIf (nlt (exp payload) time) LeafLapsedError
  | _, _ => Ok tt
  end.

Definition entryOp (verified : VerifiedLedgerEntry json) : option DeviceOp := opOf (le_value (ve_entry verified)).

Definition isOp (op : DeviceOp) (verified : VerifiedLedgerEntry json) : bool := bool_decide (entryOp verified = Some op).

Definition isLifecycleEntry (verified : VerifiedLedgerEntry json) : bool :=
  isDeviceEntry verified && match entryOp verified with Some op => isLifecycleOp op | None => false end.

Definition isProofEntry (verified : VerifiedLedgerEntry json) : bool :=
  match entryOp verified with Some op => isProofOp op | None => false end.

(** A commit enacts one proof and at most one clock, or one log, and a seed belongs to genesis alone. *)
Definition checkEntryMix (entries : list (VerifiedLedgerEntry json)) : checked unit :=
  let lifecycle := filter (fun v => isLifecycleEntry v = true) entries in
  let count op := length (filter (fun v => isOp op v = true) lifecycle) in
  let proofs := length (filter (fun v => isProofEntry v = true) lifecycle) in
  throwIf (0 <? count op_seed)%nat (RevokeProofError detached) ;;
  throwIf ((1 <? proofs) || (1 <? count op_log) || (1 <? count op_clock) || ((0 <? count op_log) && (0 <? proofs)) ||
           ((0 <? proofs) && negb (length entries =? proofs + count op_clock)))%nat (RevokeProofError effects_mismatch).

Definition lapsedLeaf (g : GroupHandle) (controller : string) (time : num) (lapsed : gset nat) (index : nat) :
    checked (gset nat) :=
  match leafAt (treeOf g) index with
  | None => Ok lapsed
  | Some leaf =>
    expiry ← boundExpiry leaf (gh_registry g) controller;
    Ok (match expiry with Some e => if nlt e time then {[index]} ∪ lapsed else lapsed | None => lapsed end)
  end.

(** The leaf positions of a tree: [index * 2 < length]. *)
Definition leafIndices (tree : RatchetTree) : list nat := seq 0 (Nat.div2 (S (length tree))).

(** One lifecycle entry: its effects on the registry so far, and the leaves that its proof removes. *)
Definition applyProof (g : GroupHandle) (controller : string) (acc : DeviceRegistry * gset nat)
    (verified : VerifiedLedgerEntry json) : checked (DeviceRegistry * gset nat) :=
  match deviceValueOf (le_value (ve_entry verified)) with
  | None => Err (OtherError "value")
  | Some value =>
    effects ← verifyLifecycleProof g verified value acc.1;
    registry ← applyLifecycle (ve_issuer verified) (le_subject (ve_entry verified)) value acc.1 controller;
    Ok (registry, if isProofOp (dv_op value) then acc.2 ∪ list_to_set (pe_removeLeafIndices effects) else acc.2)
  end.

Definition judgingOf (before : RatchetTree) (registry : DeviceRegistry) (index : option nat) (leaf : Leaf) : JudgingContext :=
  mkJudging (Some registry) false
    (match index with Some i => if isUnchangedLeaf before i leaf then Retain else Admit | None => Admit end).

Definition prepareLifecycleGate (g : GroupHandle) (externalLeaf : option Leaf) (entries : list (VerifiedLedgerEntry json))
    (registry : DeviceRegistry) (context : CommitPolicyContext) : checked LifecycleGate :=
  let before := treeOf g in
  let lifecycle := filter (fun v => isLifecycleEntry v = true) entries in
  gate ← (match ga_controller (gh_anchor g) with
    | None =>
      forEach (capabilityLapsed g registry) entries ;;
      Ok (mkGate g entries registry context externalLeaf 0 (numZ 0) ∅
            (existsb isProofEntry lifecycle) ∅)
    | Some controller =>
      size ← historySize before (ledgerOf g);
      time ← treeTime g controller (gh_registry g);
      lapsed ← foldM (lapsedLeaf g controller time) (leafIndices before) ∅;
      checkEntryMix entries ;;
      applied ← foldM (applyProof g controller) lifecycle (gh_registry g, ∅);
      Ok (mkGate g entries registry context externalLeaf size time lapsed
            (existsb isProofEntry lifecycle) (snd applied))
    end);
  (match externalLeaf with
   | None => Ok tt
   | Some leaf => validateEntry g leaf None (judgingOf before registry None leaf)
   end) ;;
  Ok gate.

(** ** [check] *)

Definition lg_judging (gate : LifecycleGate) (index : option nat) (leaf : Leaf) : JudgingContext :=
  judgingOf (lg_before gate) (lg_registry gate) index leaf.

Definition checkSize (gate : LifecycleGate) (tree : RatchetTree) : checked unit :=
  if absent (lg_controller gate) then Ok tt
  else
    size ← historySize tree (ledgerOf (lg_group gate) ++ lg_entries gate);
    throwIf ((HISTORY_HORIZON <? size) && (lg_beforeSize gate <? size))%Z (LeafBindingError history_horizon).

Definition checkTime (gate : LifecycleGate) (tree : RatchetTree) : checked unit :=
  match lg_controller gate with
  | None => Ok tt
  | Some controller =>
    time ← attestedTreeTime tree (lg_registry gate) controller;
    throwIf (nlt time (lg_beforeTime gate)) (RevokeProofError time_regression)
  end.

(** A device that an entry registers, and any leaf of it, belongs to the controller the entry names. *)
Definition checkRegistryAdd (gate : LifecycleGate) (proposals : list ProposalWithSender)
    (verified : VerifiedLedgerEntry json) : checked unit :=
  let g := lg_group gate in
  if negb (isDeviceEntry verified && (isOp op_register verified || isOp op_add verified)) then Ok tt
  else
    let subject := normalizeDID (le_subject (ve_entry verified)) in
    let controller := normalizeDID (stringOf (get "controller" (le_value (ve_entry verified)))) in
    throwIf (match reg_devices (gh_registry g) !! subject with
             | Some held => negb (bool_decide (dr_controller held = controller))
             | None => false
             end) (LeafBindingError controller_mismatch) ;;
    throwIf (match bindingOf g subject with
             | Some current => negb (bool_decide (controllerID (Some current) = Some controller))
             | None => false
             end) (LeafBindingError controller_mismatch) ;;
    forEach (fun p =>
      match pw_proposal p with
      | Add leaf =>
        parsed ← identity leaf;
        throwIf (bool_decide (normalizeDID (ci_id parsed) = subject) &&
                 match ci_controller parsed with
                 | Some b => negb (bool_decide (normalizeDID (cb_id b) = controller))
                 | None => true
                 end) (LeafBindingError controller_mismatch)
      | _ => Ok tt
      end) proposals.

Definition removedOf (p : ProposalWithSender) : option nat :=
  match pw_proposal p with Remove removed => Some removed | _ => None end.

(** An external commit replaces exactly one leaf with its own. *)
Definition checkExternal (gate : LifecycleGate) (isCommit : bool) (proposals : list ProposalWithSender) : checked unit :=
  match lg_externalLeaf gate, omap removedOf proposals with
  | Some leaf, [removed] =>
    if negb isCommit || negb (length proposals =? 2)%nat then Err (OtherError "Invalid external replacement")
    else match leafAt (lg_before gate) removed with
    | None => Err (LeafBindingError identity_change)
    | Some old =>
      checkEntry (lg_group gate) leaf (Some old) (lg_judging gate (Some removed) leaf) ;;
      let tree := setNode (lg_before gate) (removed * 2) (Some leaf) in
      checkTime gate tree ;; checkSize gate tree
    end
  | _, _ => Err (OtherError "Invalid external replacement")
  end.

(** The commit of a proof removes exactly the leaves it has to, and is not sent by one of them. *)
Definition checkProofRemoves (gate : LifecycleGate) (isCommit : bool) (sender : option nat)
    (proposals : list ProposalWithSender) : checked unit :=
  if absent (lg_controller gate) || negb (lg_proofs gate) then Ok tt
  else
    let actual := omap removedOf proposals in
    throwIf (negb (length actual =? size (lg_expectedRemoves gate))%nat ||
             negb (size (list_to_set actual : gset nat) =? size (lg_expectedRemoves gate))%nat ||
             existsb (fun index => bool_decide (index ∉ lg_expectedRemoves gate)) actual)
      (RevokeProofError removes_mismatch) ;;
    throwIf (negb isCommit || match sender with
                              | Some index => bool_decide (index ∈ lg_expectedRemoves gate)
                              | None => true
                              end) (RevokeProofError effects_mismatch).

Definition checkAdd (gate : LifecycleGate) (leaf : Leaf) : checked unit :=
  checkEntry (lg_group gate) leaf None (lg_judging gate None leaf) ;;
  parsed ← identity leaf;
  throwIf (match reg_devices (lg_registry gate) !! normalizeDID (ci_id parsed) with
           | Some record =>
             match ci_controller parsed with
             | Some b => negb (bool_decide (normalizeDID (cb_id b) = dr_controller record))
             | None => true
             end
           | None => false
           end) (LeafBindingError controller_mismatch).

(** A member leaves by proposing it, for another member to commit. *)
Definition selfRemoval (isCommit : bool) (sender : option nat) (p : ProposalWithSender) (target : nat) : bool :=
  bool_decide (pw_sender p = Some target) && (negb isCommit || negb (bool_decide (sender = Some target))).

Definition removeAuthorised (gate : LifecycleGate) (isCommit : bool) (sender : option nat) (p : ProposalWithSender)
    (target : nat) : bool :=
  lg_proofs gate || bool_decide (target ∈ lg_lapsed gate) || selfRemoval isCommit sender p target.

Definition replacementFor (gate : LifecycleGate) (isCommit : bool) (sender : option nat)
    (proposals : list ProposalWithSender) (authorised : bool) (target : nat) : option Leaf :=
  match sender with
  | Some committer =>
    if absent (lg_controller gate) || authorised || absent (leafAt (lg_before gate) target) || negb isCommit then None
    else stalePairedAdd (lg_before gate) target proposals committer
           [denySetOf (gh_registry (lg_group gate)); denySetOf (lg_registry gate)]
  | None => None
  end.

Definition checkRemove (gate : LifecycleGate) (isCommit : bool) (sender : option nat)
    (proposals : list ProposalWithSender) (p : ProposalWithSender) (target : nat) : checked unit :=
  let old := leafAt (lg_before gate) target in
  let authorised := removeAuthorised gate isCommit sender p target in
  let replacement := replacementFor gate isCommit sender proposals authorised target in
  (match replacement, old with
   | Some leaf, Some held =>
     checkEntry (lg_group gate) leaf (Some held) (lg_judging gate (Some target) leaf) ;; assertNewerBinding leaf held
   | _, _ => Ok tt
   end) ;;
  throwIf (negb (absent (lg_controller gate)) && (absent old || negb (authorised || negb (absent replacement))))
    (OtherError "Unauthorised Remove").

Definition unsupported (gate : LifecycleGate) : checked unit :=
  throwIf (negb (absent (lg_controller gate))) (OtherError "Unsupported lifecycle proposal").

(** One proposal of the loop: the tree as it will be. *)
Definition checkProposal (gate : LifecycleGate) (isCommit : bool) (sender : option nat)
    (proposals : list ProposalWithSender) (tree : RatchetTree) (p : ProposalWithSender) : checked RatchetTree :=
  let proposer := match pw_sender p with Some s => Some s | None => if isCommit then sender else None end in
  let proofOnly := negb (absent (lg_controller gate)) && lg_proofs gate in
  match pw_proposal p with
  | Other => unsupported gate ;; Ok tree
  | Remove target =>
    checkRemove gate isCommit sender proposals p target ;;
    Ok (setNode tree (target * 2) None)
  | GroupContextExtensions extensions =>
    throwIf (bool_decide (evaluateGroupContextExtensions parseJSON extensions (lg_context gate) = Reject))
      (OtherError "Invalid extensions") ;;
    Ok tree
  | Add leaf =>
    throwIf proofOnly (RevokeProofError effects_mismatch) ;; checkAdd gate leaf ;; Ok (tree ++ [Some leaf])
  | Update leaf =>
    throwIf proofOnly (RevokeProofError effects_mismatch) ;;
    match proposer, proposer ≫= leafAt (lg_before gate) with
    | Some index, Some old =>
      checkEntry (lg_group gate) leaf (Some old) (lg_judging gate (Some index) leaf) ;;
      Ok (setNode tree (index * 2) (Some leaf))
    | _, _ => Err (LeafBindingError identity_change)
    end
  | Psk | Reinit | ExternalInit =>
    throwIf proofOnly (RevokeProofError effects_mismatch) ;; unsupported gate ;; Ok tree
  end.

(** A lapsed member may only commit a clock, and the move of the head it needs. *)
Definition checkLapsedSender (gate : LifecycleGate) (isCommit : bool) (sender : option nat)
    (proposals : list ProposalWithSender) : checked unit :=
  match lg_controller gate, sender with
  | Some _, Some index =>
    throwIf (isCommit && negb (absent (leafAt (lg_before gate) index)) && bool_decide (index ∈ lg_lapsed gate) &&
             (existsb (fun p => negb (isGCE (pw_proposal p))) proposals ||
              existsb (fun v => negb (isDeviceEntry v && isOp op_clock v)) (lg_entries gate))) LeafLapsedError
  | _, _ => Ok tt
  end.

Definition incomingProposals (incoming : IncomingMessage) : bool * option nat * list ProposalWithSender :=
  match incoming with
  | CommitMessage sender proposals => (true, sender, proposals)
  | ProposalMessage p => (false, None, [p])
  end.

Definition gateCheck (gate : LifecycleGate) (incoming : IncomingMessage) : checked unit :=
  let '(isCommit, sender, proposals) := incomingProposals incoming in
  forEach (checkRegistryAdd gate proposals) (lg_entries gate) ;;
  if existsb (fun p => isExternalInit (pw_proposal p)) proposals then checkExternal gate isCommit proposals
  else
    checkProofRemoves gate isCommit sender proposals ;;
    tree ← foldM (checkProposal gate isCommit sender proposals) proposals (lg_before gate);
    throwIf (isCommit && pc_commitEnactsEntries (lg_context gate) &&
             negb (existsb (fun p => isGCE (pw_proposal p)) proposals)) (OtherError "Missing head move") ;;
    checkLapsedSender gate isCommit sender proposals ;;
    (if isCommit then checkTime gate tree else Ok tt) ;;
    checkSize gate tree ;;
    checkSurvivors (lg_group gate) tree (lg_registry gate) (Some (lg_before gate)).

(** ** [postApply] *)

(** The leaf of the committer, after its own path. *)
Definition checkPathLeaf (gate : LifecycleGate) (proposals : list ProposalWithSender) (tree : RatchetTree) (index : nat) :
    checked unit :=
  match leafAt tree index, leafAt (lg_before gate) index with
  | Some next, Some old =>
    if credentialEqual next old && bytesEqual (lf_signaturePublicKey next) (lf_signaturePublicKey old) then Ok tt
    else
      throwIf (negb (absent (lg_controller gate)) && (negb (bool_decide (omap removedOf proposals = [])) || lg_proofs gate))
        (LeafBindingError identity_change) ;;
      validateEntry (lg_group gate) next (Some old) (lg_judging gate (Some index) next)
  | _, _ => Ok tt
  end.

(** A lapsed committer leaves the commit renewed, or it does not stand. *)
Definition checkLapsedPath (gate : LifecycleGate) (controller : string) (tree : RatchetTree) (index : nat) : checked unit :=
  let next := leafAt tree index in
  expiry ← (match next with Some leaf => boundExpiry leaf (lg_registry gate) controller | None => Ok None end);
  match leafAt (lg_before gate) index with
  | None => Ok tt
  | Some old =>
    if negb (bool_decide (index ∈ lg_lapsed gate)) then Ok tt
    else match next, expiry with
    | Some leaf, Some e =>
      if credentialEqual old leaf then Err LeafLapsedError
      else time ← treeTime (lg_group gate) controller (lg_registry gate); throwIf (nlt e time) LeafLapsedError
    | _, _ => Err LeafLapsedError
    end
  end.

Definition gatePostApply (gate : LifecycleGate) (incoming : IncomingMessage) (state : MlsState) : checked unit :=
  match incoming with
  | ProposalMessage _ => Ok tt
  | CommitMessage sender proposals =>
    if ml_removedFromGroup state then Ok tt
    else
      let tree := ml_tree state in
      (match sender with
       | None => Ok tt
       | Some index =>
         checkPathLeaf gate proposals tree index ;;
         match lg_controller gate with
         | None => Ok tt
         | Some controller => checkLapsedPath gate controller tree index
         end
       end) ;;
      checkTime gate tree ;;
      checkSize gate tree ;;
      checkSurvivors (lg_group gate) tree (lg_registry gate) (Some (lg_before gate))
  end.

(** ** [registryAt] and [assertSenderNotLapsed] *)

(** The entries whose head is [head]: the shortest such prefix of the ledger. *)
Fixpoint ledgerUpTo (sha256 : bytes -> bytes) (head held : bytes) (entries : list LedgerLogEntry) :
    option (list LedgerLogEntry) :=
  if headsMatch held head then Some []
  else match entries with
  | [] => None
  | e :: rest => cons e <$> ledgerUpTo sha256 head (extendHead sha256 held [ll_entryID e]) rest
  end.

Definition registryAt (sha256 : bytes -> bytes) (g : GroupHandle) (head : bytes) : checked DeviceRegistry :=
  match ledgerUpTo sha256 head (genesisHead sha256 (gh_groupID g)) (gh_ledger g) with
  | None => Err (OtherError "Unknown epoch ledger head")
  | Some entries =>
    Ok (ct_registry (foldControl normalizeDID isControllerLog lifecycleApply (map inputOf entries) (gh_anchor g) (gh_groupID g)))
  end.

Definition assertSenderNotLapsed (sha256 : bytes -> bytes) (g : GroupHandle) (tree : RatchetTree) (leafIndex : option nat)
    (extensions : list GroupContextExtension) : checked unit :=
  match ga_controller (gh_anchor g), leafIndex ≫= leafAt tree with
  | Some controller, Some leaf =>
    match currentHead extensions with
    | None => Err (OtherError "Missing epoch ledger head")
    | Some expected =>
      registry ← registryAt sha256 g (lh_head expected);
      expiry ← boundExpiry leaf registry controller;
      match expiry with
      | None => Ok tt
      | Some e => time ← attestedTreeTime tree registry controller; throwIf (nlt e time) LeafLapsedError
      end
    end
  | _, _ => Ok tt
  end.

(** ** The gate as the handle consults it *)

Definition lifecycleGate (g : GroupHandle) (externalLeaf : option Leaf) (entries : list (VerifiedLedgerEntry json))
    (registry : DeviceRegistry) (context : CommitPolicyContext) (incoming : IncomingMessage) : bool :=
  is_ok (gate ← prepareLifecycleGate g externalLeaf entries registry context; gateCheck gate incoming).

Definition lifecyclePostApply (g : GroupHandle) (externalLeaf : option Leaf) (entries : list (VerifiedLedgerEntry json))
    (registry : DeviceRegistry) (context : CommitPolicyContext) (incoming : IncomingMessage) (state : MlsState) : bool :=
  is_ok (gate ← prepareLifecycleGate g externalLeaf entries registry context; gatePostApply gate incoming state).
End gate.
