(* ===== verification/LifecycleDemo.v ===== *)
(** * A small lifecycle group

    Concrete libraries and a group of two devices, at which the theorems about a lifecycle are evaluated: the
    controller granted Alice's leaf until 150 and Bob's from 200 on, so the tree attests 200 and Alice's leaf
    has lapsed. *)

From S2P Require Import Prelude HubProtocol Json ControllerLog GroupFold Credential LedgerHead Policy GroupHandle Capability MemberRoot LifecycleRegistry Authentication TreeTime LifecycleProof LifecycleGate.

#[local] Open Scope string_scope.

Definition demo_controller : string := "did:kokuin:c".

(** A controller whose log is its inception: one state, of generation zero. *)
Definition demo_state : KeyState := mkKeyState "d0" "d0" 0 [] [] [] false.

Definition demoLib : ControllerLib := {|
  normalizeDID := fun did => did;
  isControllerLog := fun v => isArray (get "chain" v) && isArray (get "events" v);
  isEpochEventShape := fun _ => false;
  digestOf := fun v => stringOf (v ≫= get "d");
  foldLog := fun _ _ => Folded (mkFold [demo_state] demo_state []);
  deviceRevokeIndices := fun _ _ _ => [];
  pruneLog := fun _ log => log;
  mergeLogs := fun _ first _ => Ok first;
  authoritativeLog := fun _ log _ => Ok (log, mkFold [demo_state] demo_state []);
  didFromInception := fun _ => demo_controller;
  resolveBranches := fun _ chains => head chains;
  decodeKey := utf8;
  tryDecodeKey := fun kid => Some ("EdDSA", utf8 kid);
  LOG_FORKED := "forked";
  LOG_NOT_AUTHORITATIVE := "not authoritative";
  LOG_TOO_LARGE := "too large";
  localeCompare := fun _ _ => 0%Z;
  jsonSize := fun _ => 1%Z;
|}.

(** A direct grant of the controller. *)
Definition demo_grant (audience key : string) (issued expires : Z) : json :=
  JObj [("iss", JStr demo_controller); ("sub", JStr demo_controller); ("aud", JStr audience);
        ("act", JStr MLS_LEAF_ACT); ("res", JStr MLS_LEAF_RES); ("cnf", JObj [("kid", JStr key)]);
        ("iat", JNum (Int issued)); ("exp", JNum (Int expires))].

Definition demo_parts (part : string) : option json :=
  if decide (part = "a") then Some (demo_grant "did:alice" "ka" 100 150)
  else if decide (part = "b") then Some (demo_grant "did:bob" "kb" 200 400)
  else Some (JObj [("alg", JStr "EdDSA")]).

Definition demo_identity (did capability : string) : json :=
  JObj [("id", JStr did);
        ("controller", JObj [("id", JStr demo_controller); ("capability", JStr capability);
                             ("prefix", JArr [JObj [("event", JObj [("d", JStr "d0"); ("t", JStr "icp")])]])])].

Definition demo_credentials (view : bytes) : option json :=
  if decide (view = utf8 "alice") then Some (demo_identity "did:alice" "h.a.s")
  else if decide (view = utf8 "bob") then Some (demo_identity "did:bob" "h.b.s")
  else None.

Definition demoTokens : TokenLib := {|
  b64uToJSON := demo_parts;
  isSignedToken := fun _ _ => true;
  hasPermission := fun _ _ => true;
  audienceConfirmation := fun _ => JNull;
  isPeer4 := fun _ => false;
  decodePeer4 := fun _ => None;
  decodeMultibase := fun _ => None;
  getAlgorithmAndPublicKey := Some;
  getSignatureInfo := fun did => Some (utf8 (if decide (did = "did:alice") then "ka" else "kb"));
  verifySignature := fun _ _ _ _ => true;
  verifyToken := fun _ _ _ => true;
  checkCapability := fun _ _ _ _ => true;
  validAt := fun _ _ => true;
  validDelegation := fun _ _ _ => true;
  resolveMember := fun _ _ _ _ => None;
  parseJSON := demo_credentials;
|}.

#[local] Existing Instance demoLib.
#[local] Existing Instance demoTokens.

Definition demo_alice : Leaf := mkLeaf (Basic (utf8 "alice")) (utf8 "ka").
Definition demo_bob : Leaf := mkLeaf (Basic (utf8 "bob")) (utf8 "kb").

Definition demo_anchor : GroupAnchor := mkAnchor "did:alice" (Int 1) (Some demo_controller) None None None.

Definition demo_mls_state : MlsState := mkMls 0 [Some demo_alice; None; Some demo_bob] [] false.

Definition demo_lifecycle_group : GroupHandle := mkGroup "g" demo_anchor demo_mls_state [] ∅ ∅ registrySeed.

(** Bob commits the removal of Alice's lapsed leaf. *)
Definition demo_removal : list ProposalWithSender := [mkProposal (Remove 0) None].

Definition demo_after : MlsState := mkMls 1 [None; None; Some demo_bob] [] false.

Definition demo_received (state : MlsState) (frame : Frame) : option MlsOutcome :=
  Some (mkOutcome (CommitMessage (Some 1) demo_removal) demo_after).

Definition demo_policy_context : CommitPolicyContext :=
  mkPolicyContext ∅ ∅ (fun _ => None) (fun _ => None) [] [] false [] false None.

Definition demo_gate : LifecycleGate :=
  mkGate demo_lifecycle_group [] registrySeed demo_policy_context None 2 (numZ 200) {[0]} false ∅.

Definition demo_commit : Frame := PrivateCommit [] [].

Definition demo_processed : GroupHandle * result ProcessError Notification :=
  processMessage normalizeDID isControllerLog lifecycleApply parseJSON (fun x => x) (fun _ => None) (fun t => t)
    verifyManagementCapability None lifecycleGate lifecyclePostApply None mayReadmitResetDevice demo_received
    demo_lifecycle_group demo_commit None.
