(* ===== verification/TreeTimeSpec.v ===== *)
(** * No single member moves the time

    Theorems about TreeTime.v: what a later time of the tree stands on. *)

From S2P Require Import Prelude HubProtocol Json ControllerLog GroupFold Credential LedgerHead Policy GroupHandle Capability MemberRoot LifecycleRegistry TreeTime LifecycleDemo.

#[export] Instance later_total : Total later.
Proof.
  intros a b. unfold later. destruct (nlt a b) eqn:Hab; [right|by left].
  by apply nlt_nle, nle_not_nlt in Hab.
Qed.

Lemma nmax_choice a b : isNum (nmax a b) -> nmax a b = a ∨ nmax a b = b.
Proof. unfold isNum. destruct a, b; cbn [nmax]; try done; intros _; case_match; auto. Qed.

(** Two values of a map side by side are at two keys. *)
Lemma map_values_two {A} (m : gmap string A) first second rest :
  map snd (map_to_list m) ≡ₚ first :: second :: rest ->
  ∃ k1 k2, k1 ≠ k2 ∧ m !! k1 = Some first ∧ m !! k2 = Some second.
Proof.
  intros (l & Hl & Hp)%symmetry%Permutation_map_inv. destruct l as [|[k1 v1] [|[k2 v2] l]]; try done.
  injection Hl as -> -> _. pose proof (NoDup_fst_map_to_list m) as Hnd.
  assert (fst <$> map_to_list m ≡ₚ k1 :: k2 :: (fst <$> l)) as Hkeys by (by rewrite Hp).
  rewrite Hkeys in Hnd. apply NoDup_cons in Hnd as [Hne _]. exists k1, k2. split_and!.
  - intros ->. apply Hne. by left.
  - apply elem_of_map_to_list. rewrite Hp. by left.
  - apply elem_of_map_to_list. rewrite Hp. right. by left.
Qed.

Lemma map_values_one {A} (m : gmap string A) only :
  map snd (map_to_list m) ≡ₚ [only] -> ∃ k, m = {[k := only]}.
Proof.
  intros (l & Hl & Hp)%symmetry%Permutation_map_inv. destruct l as [|[k v] [|]]; try done. injection Hl as ->.
  exists k. apply map_eq. intros k'. destruct (decide (k' = k)) as [->|Hne].
  - rewrite lookup_singleton_eq. apply elem_of_map_to_list. rewrite Hp. by left.
  - rewrite lookup_singleton_ne by done. destruct (m !! k') as [v'|] eqn:Hm; [|done].
    apply elem_of_map_to_list in Hm. rewrite Hp in Hm. by apply list_elem_of_singleton in Hm as [= -> _].
Qed.

Section time.
Context {lib : ControllerLib} {tokens : TokenLib}.

(** A leaf of the tree carries this grant, as itself or as the parent of its capability. *)
Definition carries (tree : RatchetTree) (controller : string) (grant : json) : Prop :=
  ∃ position leaf parsed binding, (position, leaf) ∈ leavesOf tree ∧ identity leaf = Ok parsed ∧
    ci_controller parsed = Some binding ∧ attestedGrant binding controller = Ok (Some grant).

(** What one grant does to the count. *)
Lemma countGrant_cases controller head effective a grant :
  countGrant controller head effective a grant = a ∨
  (memberOf grant = None ∧ normalizeDID (issuerOf grant) = controller ∧
   countGrant controller head effective a grant = mkAttested (nmax (at_rootTime a) (iat grant)) (at_attestations a)) ∨
  ∃ add gen member state, memberOf grant = Some (add, gen) ∧ (add, member) ∈ effective ∧ head = Some state ∧
    nsame gen (numZ (ks_gen state)) = true ∧ sameDID (ms_did member) (issuerOf grant) = true ∧
    countGrant controller head effective a grant =
      mkAttested (at_rootTime a) (attest (ms_key member) (iat grant) (at_attestations a)).
Proof.
  unfold countGrant. destruct (memberOf grant) as [[add gen]|].
  - destruct (jm_get add effective) as [member|] eqn:Hget; [|by left]. destruct head as [state|]; [|by left].
    destruct (_ && _) eqn:Hsame; [|by left]. apply andb_true_iff in Hsame as [? ?].
    right; right. exists add, gen, member, state. split_and!; try done. by apply jm_get_elem.
  - case_bool_decide; [right; left; done|by left].
Qed.

Section counting.
Context (tree : RatchetTree) (controller : string) (projection : option Lifecycle) (head : option KeyState).

Abbreviation effective := (effectiveAttestingMembers head projection None).

(** The controller itself issued a grant at this time. *)
Definition issuedByController (time : num) : Prop :=
  ∃ grant, carries tree controller grant ∧ memberOf grant = None ∧ normalizeDID (issuerOf grant) = controller ∧ iat grant = time.

(** The member of this key attests the time: the registry records it, or a grant of the member's does, issued
    in the current generation. *)
Definition attests (key : string) (time : num) : Prop :=
  ∃ add member, (add, member) ∈ effective ∧ ms_key member = key ∧
    (time = default (numZ 0) (projection ≫= fun p => lc_attestations p !! key) ∨
     ∃ grant gen state, carries tree controller grant ∧ memberOf grant = Some (add, gen) ∧ head = Some state ∧
       nsame gen (numZ (ks_gen state)) = true ∧ sameDID (ms_did member) (issuerOf grant) = true ∧ iat grant = time).

(** What counting keeps true: every time it holds is one of these, and every member has one. *)
Definition accounted (a : Attested) : Prop :=
  (at_rootTime a = numZ 0 ∨ issuedByController (at_rootTime a)) ∧
  map_Forall attests (at_attestations a) ∧
  ∀ add member, (add, member) ∈ effective -> is_Some (at_attestations a !! ms_key member).

Lemma recorded_step l : ∀ a : gmap string num,
  (∀ x, x ∈ l -> x ∈ effective) -> map_Forall attests a ->
  let a' := foldl (fun a (entry : string * MemberState) =>
    <[ms_key entry.2 := default (numZ 0) (projection ≫= fun p => lc_attestations p !! ms_key entry.2)]> a) a l in
  map_Forall attests a' ∧
  ∀ key, is_Some (a !! key) ∨ key ∈ map (fun entry => ms_key entry.2) l -> is_Some (a' !! key).
Proof.
  induction l as [|[add member] l IH]; cbn [foldl map snd]; intros a Hin Ha.
  - split; [done|]. by intros key [?|?%elem_of_nil].
  - destruct (IH (<[ms_key member := default (numZ 0) (projection ≫= fun p => lc_attestations p !! ms_key member)]> a))
      as [Hall Hdom].
    + intros x Hx. apply Hin. by right.
    + apply map_Forall_insert_2; [|done]. exists add, member. split_and!; [apply Hin; by left|done|by left].
    + split; [done|]. intros key Hkey. apply Hdom. destruct (decide (key = ms_key member)) as [->|Hne].
      * left. rewrite lookup_insert_eq. by eexists.
      * rewrite lookup_insert_ne by done. destruct Hkey as [?|[?|?]%elem_of_cons]; [by left|done|by right].
Qed.

Lemma recorded_accounted : accounted (mkAttested (numZ 0) (recordedAttestations effective projection)).
Proof.
  destruct (recorded_step effective ∅) as [Hall Hdom]; [done|apply map_Forall_empty|].
  split_and!; [by left|exact Hall|]. intros add member Hin. apply Hdom. right. apply list_elem_of_fmap. by exists (add, member).
Qed.

(** The times of the grants are numbers, and so are the recorded ones. *)
Context (Hgrants : ∀ grant, carries tree controller grant -> isNum (iat grant)).
Context (Hrecorded : ∀ p, projection = Some p -> map_Forall (fun _ time => isNum time) (lc_attestations p)).

Lemma attests_isNum key time : attests key time -> isNum time.
Proof.
  intros (add & member & _ & _ & [->|(grant & gen & state & Hc & _ & _ & _ & _ & <-)]); [|by apply Hgrants].
  destruct projection as [p|]; [|done]. cbn. destruct (lc_attestations p !! key) as [t|] eqn:Ht; [|done].
  by eapply (Hrecorded p).
Qed.

Lemma root_isNum a : accounted a -> isNum (at_rootTime a).
Proof. intros [[->|(grant & Hc & _ & _ & <-)] _]; [done|by apply Hgrants]. Qed.

Lemma countGrant_accounted a grant :
  carries tree controller grant -> accounted a -> accounted (countGrant controller head effective a grant).
Proof.
  intros Hc Ha. pose proof (root_isNum _ Ha) as Hnum. destruct Ha as (Hroot & Hall & Hdom).
  destruct (countGrant_cases controller head effective a grant) as [->|[(Hm & Hiss & ->)|H]]; [done|..].
  - split_and!; [|done..]. cbn [at_rootTime].
    destruct (nmax_choice (at_rootTime a) (iat grant)) as [->| ->]; [by apply nmax_isNum; auto|done|].
    right. by exists grant.
  - destruct H as (add & gen & member & state & Hm & Hget & Hhead & Hgen & Hdid & ->).
    assert (attests (ms_key member) (iat grant)) as Hnew.
    { exists add, member. split_and!; [done..|right]. by exists grant, gen, state. }
    destruct (Hdom _ _ Hget) as (held & Hheld).
    split_and!; [done| |]; cbn [at_attestations]; unfold attest; rewrite Hheld; change (default (numZ 0) (Some held)) with held.
    + apply map_Forall_insert_2; [|done]. destruct (nmax_choice held (iat grant)) as [->| ->]; [|by apply Hall|done].
      apply nmax_isNum. split; eapply attests_isNum; [by apply Hall|done].
    + intros add' member' Hin. destruct (decide (ms_key member' = ms_key member)) as [->|Hne].
      * rewrite lookup_insert_eq. by eexists.
      * rewrite lookup_insert_ne by done. by eapply Hdom.
Qed.

Lemma countLeaves_accounted l : ∀ a a',
  (∀ leaf, leaf ∈ l -> ∃ position, (position, leaf) ∈ leavesOf tree) ->
  foldM (countLeaf controller head effective) l a = Ok a' -> accounted a -> accounted a'.
Proof.
  induction l as [|leaf l IH]; cbn [foldM]; intros a a' Hin Hf Ha; [by injection Hf as <-|].
  destruct (countLeaf controller head effective a leaf) as [a1|] eqn:Hstep; [|done].
  eapply IH; [intros x Hx; apply Hin; by right|exact Hf|]. unfold countLeaf in Hstep.
  apply mbind_Ok in Hstep as (parsed & Hid & Hstep). destruct (ci_controller parsed) as [binding|] eqn:Hb;
    [|by injection Hstep as <-].
  apply mbind_Ok in Hstep as (grant & Hgrant & [= <-]). destruct grant as [grant|]; [|done].
  apply countGrant_accounted; [|done]. destruct (Hin leaf) as (position & Hp); [by left|]. by exists position, leaf, parsed, binding.
Qed.

(** The quorum: a time two keys attest at least, or that of the only member. *)
Lemma quorum_keys a time :
  accounted a -> quorumTime (map snd (map_to_list (at_attestations a))) = Some time ->
  ∃ k1 t1, attests k1 t1 ∧ nle time t1 = true ∧
    ((∃ k2, k2 ≠ k1 ∧ attests k2 time) ∨ (t1 = time ∧ ∀ add member, (add, member) ∈ effective -> ms_key member = k1)).
Proof.
  intros (_ & Hall & Hdom) Hq. unfold quorumTime in Hq.
  pose proof (merge_sort_Permutation later (map snd (map_to_list (at_attestations a)))) as Hp.
  pose proof (Sorted_merge_sort later (map snd (map_to_list (at_attestations a)))) as Hs.
  destruct (merge_sort later _) as [|t1 [|t2 rest]]; [done|..]; injection Hq as <-.
  - apply symmetry, map_values_one in Hp as (k & Hm). rewrite Hm in Hall, Hdom. exists k, t1.
    assert (attests k t1) as Hk by (apply Hall, lookup_singleton_eq).
    split_and!; [done|by eapply nle_refl, attests_isNum|right]. split; [done|].
    intros add member (t & Ht%lookup_singleton_Some)%Hdom. by destruct Ht as [-> _].
  - apply symmetry, map_values_two in Hp as (k1 & k2 & Hne & H1 & H2). apply Hall in H1, H2. exists k1, t1.
    split_and!; [done| |left; by exists k2].
    apply Sorted_inv in Hs as [_ Hs]. apply HdRel_inv in Hs. apply not_nlt; [by eapply attests_isNum..|done].
Qed.
End counting.

(** C21. No single member moves the time. When the tree attests a time later than the recorded floor, either a
    leaf carries a grant that the controller itself issued at that time, or two members of different keys
    attest it or later, or the only attesting member does; and a member attests what the registry recorded of
    it or what a grant it issued in the current generation says. The times of the grants in the tree are
    finite when they are admitted, which is the first hypothesis. *)
Theorem time_needs_quorum tree registry controllerID time :
  let controller := normalizeDID controllerID in
  let projection := lifecycleOf registry controller in
  let head := unsaturatedHead (projectionFold controller projection) in
  (∀ grant, carries tree controller grant -> isNum (iat grant)) ->
  (∀ p, projection = Some p -> map_Forall (fun _ time => isNum time) (lc_attestations p)) ->
  attestedTreeTime tree registry controllerID = Ok time ->
  nlt (nmax (timeFloorOf projection) (numZ 0)) time = true ->
  issuedByController tree controller time ∨
  ∃ k1 t1, attests tree controller projection head k1 t1 ∧ nle time t1 = true ∧
    ((∃ k2, k2 ≠ k1 ∧ attests tree controller projection head k2 time) ∨
     (t1 = time ∧ ∀ add member, (add, member) ∈ effectiveAttestingMembers head projection None -> ms_key member = k1)).
Proof.
  intros controller projection head Hgrants Hrecorded Htime Hlater. unfold attestedTreeTime in Htime.
  fold controller projection head in Htime. apply mbind_Ok in Htime as (a & Hcount & [= Htime]).
  assert (accounted tree controller projection head a) as Ha.
  { eapply countLeaves_accounted; [exact Hgrants|exact Hrecorded| |exact Hcount|apply recorded_accounted].
    intros leaf (p & -> & Hp)%list_elem_of_fmap. by exists p.1; destruct p. }
  pose proof (root_isNum _ _ _ _ Hgrants _ Ha) as Hroot.
  set (quorum := quorumTime (map snd (map_to_list (at_attestations a)))) in Htime.
  pose proof (proj2 (nle_isNum _ _ (nlt_nle _ _ Hlater))) as Hnum.
  pose proof (proj1 (nmax_isNum _ _) (proj1 (nle_isNum _ _ (nlt_nle _ _ Hlater)))) as [Hfloor _].
  assert (∀ t, t = time -> nle t (nmax (timeFloorOf projection) (numZ 0)) = true -> False) as Hno.
  { intros t -> Hle%nle_not_nlt. congruence. }
  rewrite <- Htime in Hnum. destruct (nmax_choice _ _ Hnum) as [H1|H1]; rewrite H1 in Htime, Hnum.
  - destruct (nmax_choice _ _ Hnum) as [H2|H2]; rewrite H2 in Htime.
    + destruct (Hno _ Htime). by apply nmax_l.
    + destruct Ha as [[Hz|Hissued] _]; [|left; by rewrite Htime in Hissued].
      rewrite Hz in Htime. destruct (Hno _ Htime). by apply nmax_r.
  - right. destruct quorum as [q|] eqn:Hq; [|destruct (Hno _ Htime); by apply nmax_r].
    change (q = time) in Htime. subst q. by eapply (quorum_keys tree controller projection head Hgrants Hrecorded a).
Qed.
End time.

(** ** At the small group: the controller granted Bob's leaf at 200 *)

#[local] Existing Instance demoLib.
#[local] Existing Instance demoTokens.

Lemma demo_grants_timed grant : carries (ml_tree demo_mls_state) demo_controller grant -> isNum (iat grant).
Proof.
  intros (position & leaf & parsed & binding & Hin & Hid & Hb & Hg).
  change (leavesOf (ml_tree demo_mls_state)) with [(0, demo_alice); (2, demo_bob)] in Hin.
  apply elem_of_cons in Hin as [[= -> ->]|[= -> ->]%list_elem_of_singleton];
    vm_compute in Hid; injection Hid as <-; injection Hb as <-; vm_compute in Hg; by injection Hg as <-.
Qed.

Lemma time_needs_quorum_witness :
  attestedTreeTime (ml_tree demo_mls_state) registrySeed demo_controller = Ok (numZ 200) ∧
  (issuedByController (ml_tree demo_mls_state) demo_controller (numZ 200) ∨
   ∃ k1 t1, attests (ml_tree demo_mls_state) demo_controller None None k1 t1 ∧ nle (numZ 200) t1 = true).
Proof.
  split; [vm_compute; reflexivity|].
  destruct (time_needs_quorum (ml_tree demo_mls_state) registrySeed demo_controller (numZ 200)) as [H|(k & t & H & Hle & _)];
    [exact demo_grants_timed|done|vm_compute; reflexivity|reflexivity|by left|right; by exists k, t].
Defined.
