(* ===== verification/MemberRootSpec.v ===== *)
(** * Who falls with an effect

    Theorems about MemberRoot.v: the leaves that a denial or a removal takes down with it. *)

From S2P Require Import Prelude HubProtocol Json ControllerLog GroupFold Credential LedgerHead Capability MemberRoot LifecycleDemo.

Section cascade.
Context {lib : ControllerLib} {tokens : TokenLib}.
(** A normal form is its own. *)
Context (normalizeDID_idem : ∀ did, normalizeDID (normalizeDID did) = normalizeDID did).

Lemma memberRootStatus_normal registry controller root :
  memberRootStatus registry (normalizeDID controller) root = memberRootStatus registry controller root.
Proof. unfold memberRootStatus. by rewrite normalizeDID_idem. Qed.

Lemma isRemoved_member registry controller root :
  isRemoved (memberRootStatus registry controller root) = true -> isMember root = true.
Proof. by destruct root. Qed.

Lemma holderRoot_in roots held : holderRoot roots = Some held -> held ∈ map snd roots.
Proof.
  unfold holderRoot. intros (p & Hp & ->)%fmap_Some. apply fmap_Some in Hp as ([i p'] & Hfind & ->).
  apply list_find_Some in Hfind as (Hl & _). apply list_elem_of_fmap. exists p'. split; [done|].
  by eapply list_elem_of_lookup_2.
Qed.

(** A removed authority rests on a member root of the leaf that is removed. *)
Lemma removed_root leaf registry controller :
  effectiveAuthorityOf leaf registry controller = Ok AuthorityRemoved ->
  ∃ roots root, memberRootsOf (lr_binding leaf) (lr_did leaf) = Ok roots ∧ root ∈ map snd roots ∧
    isRemoved (memberRootStatus registry controller root) = true.
Proof.
  unfold effectiveAuthorityOf. destruct (negb _); [done|]. intros H. apply mbind_Ok in H as (roots & Hroots & H).
  rewrite Hroots. destruct (head roots) as [[slot root]|] eqn:Hhead; [|done].
  assert (root ∈ map snd roots) as Hin.
  { destruct roots as [|r roots]; [done|]. injection Hhead as ->. by left. }
  rewrite memberRootStatus_normal in H.
  destruct (isRemoved (memberRootStatus registry controller root)) eqn:Hr; [by exists roots, root|].
  revert H. destruct (match lifecycleOf _ _ ≫= lc_recordedLog with Some _ => _ | None => _ end); [done|].
  assert (∀ status : MemberRootStatus, isRemoved status = false ->
    match memberRootStatus registry (normalizeDID controller) <$> holderRoot roots with
    | Some IsRemoved => Ok AuthorityRemoved
    | Some (IsUnavailable _) => Ok AuthorityUnavailable
    | _ => Ok (AuthorityOf root slot None)
    end = Ok (E := LifecycleError) AuthorityRemoved ->
    ∃ held, holderRoot roots = Some held ∧ isRemoved (memberRootStatus registry controller held) = true) as Hholder.
  { intros _ _. destruct (holderRoot roots) as [held|]; cbn [fmap option_fmap option_map]; [|done].
    rewrite memberRootStatus_normal. intros Ha. exists held. split; [done|].
    by destruct (memberRootStatus registry controller held). }
  destruct (memberRootStatus registry controller root) eqn:Hs; try done; intros H;
    destruct (Hholder _ Hr H) as (held & Hheld & Hremoved); exists roots, held; split_and!; try done;
    by apply holderRoot_in.
Qed.

Lemma removedRoot_found leaf before after controller r :
  effectiveAuthorityOf leaf after controller = Ok AuthorityRemoved ->
  removedRoot leaf before after controller = Ok r -> is_Some r.
Proof.
  intros Hauth H. destruct (removed_root _ _ _ Hauth) as (roots & root & Hroots & Hin & Hr).
  unfold removedRoot in H. apply mbind_Ok in H as (prior & _ & H). rewrite Hroots in H. cbn [mbind result_bind] in H.
  injection H as <-. destruct (list_find _ _) as [[i found]|] eqn:Hfind; cbn.
  - apply list_find_Some in Hfind as (_ & Hf & _). apply andb_true_iff in Hf as [Hm _]. by destruct found.
  - apply list_find_None, Forall_forall with (x := root) in Hfind.
    + destruct Hfind. by rewrite Hr, (isRemoved_member _ _ _ Hr).
    + apply elem_of_app. by right.
Qed.

(** ** What takes a leaf down *)

(** The issuer of its chain is denied and nothing of its own keeps it: no standing grant of the holder. *)
Definition cascades (direct : list string) (after : DeviceRegistry) (controller : string) (leaf : LeafRef) : Prop :=
  ∃ issuer authority, chainIssuer (lr_binding leaf) = Ok (Some issuer) ∧
    effectiveAuthorityOf leaf after controller = Ok authority ∧
    issuer ∈ direct ∧ normalizeDID (lr_did leaf) ∉ direct ∧ isEvidenced leaf direct after controller authority = false.

(** The leaf is of the controller, and its device is denied, it cascades, or its authority is removed. *)
Definition falls (direct : list string) (after : DeviceRegistry) (controller : string) (leaf : LeafRef) : Prop :=
  sameDID (cb_id (lr_binding leaf)) controller = true ∧
  (normalizeDID (lr_did leaf) ∈ direct ∨ cascades direct after controller leaf ∨
   effectiveAuthorityOf leaf after controller = Ok AuthorityRemoved).

(** A leaf of the same device as one that cascades. *)
Definition sharesDevice (direct : list string) (after : DeviceRegistry) (controller : string) (leaves : list LeafRef)
    (leaf : LeafRef) : Prop :=
  sameDID (cb_id (lr_binding leaf)) controller = true ∧
  ∃ other, other ∈ leaves ∧ cascades direct after controller other ∧ normalizeDID (lr_did other) = normalizeDID (lr_did leaf).

Definition devicesOf (c : Cascade) : list string := re_did <$> ca_revoked c.

(** One leaf: what it adds, and what it keeps. *)
Lemma cascadeLeaf_cases direct before after controller c leaf c' :
  (∀ did, did ∈ direct -> did ∈ devicesOf c) ->
  cascadeLeaf direct before after controller c leaf = Ok c' ->
  (ca_removeLeafIndices c' = ca_removeLeafIndices c ∧ devicesOf c' = devicesOf c ∧ ~ falls direct after controller leaf) ∨
  (ca_removeLeafIndices c' = ca_removeLeafIndices c ++ [lr_leafIndex leaf] ∧
   sameDID (cb_id (lr_binding leaf)) controller = true ∧
   ((devicesOf c' = devicesOf c ∧ (normalizeDID (lr_did leaf) ∈ devicesOf c ∨ falls direct after controller leaf)) ∨
    (devicesOf c' = devicesOf c ++ [normalizeDID (lr_did leaf)] ∧ cascades direct after controller leaf))).
Proof.
  intros Hdirect H. unfold cascadeLeaf in H.
  destruct (sameDID (cb_id (lr_binding leaf)) controller) eqn:Hsame; cbn [negb] in H;
    [|injection H as <-; left; split_and!; [done..|]; intros [Hs _]; by rewrite Hsame in Hs].
  apply mbind_Ok in H as (issuer & Hissuer & H). apply mbind_Ok in H as (authority & Hauth & H).
  set (did := normalizeDID (lr_did leaf)) in *.
  set (cascaded := match issuer with Some _ => _ | None => _ end) in H.
  assert (cascaded = true <-> cascades direct after controller leaf) as Hcasc.
  { unfold cascaded, cascades. rewrite Hissuer, Hauth. split.
    - destruct issuer as [i|]; [|done]. rewrite !andb_true_iff, !negb_true_iff.
      intros [[?%bool_decide_eq_true ?%bool_decide_eq_false] ?]. by exists i, authority.
    - intros (i & a & [= ->] & [= ->] & Hi & Hd & He). rewrite bool_decide_eq_true_2, bool_decide_eq_false_2, He by done. done. }
  destruct (bool_decide (did ∈ re_did <$> ca_revoked c)) eqn:Haff.
  - apply bool_decide_eq_true in Haff. rewrite andb_false_r in H. cbn [orb] in H. injection H as <-. right.
    split_and!; [done..|left]. split; [done|by left].
  - apply bool_decide_eq_false in Haff. rewrite andb_true_r in H. cbn [orb] in H. destruct cascaded eqn:Hc.
    + injection H as <-. right. split_and!; [done..|right]. split; [|by apply Hcasc].
      unfold devicesOf. cbn [ca_revoked]. by rewrite fmap_app.
    + assert (did ∉ direct) as Hnd by (intros Hd; by apply Haff, Hdirect).
      assert (~ cascades direct after controller leaf) as Hnc by (rewrite <- Hcasc; done).
      destruct authority as [root slot expiry| |]; cbn [negb andb] in H.
      * injection H as <-. left. split_and!; [done..|]. intros [_ [?|[?|Ha]]]; [done..|]. by rewrite Hauth in Ha.
      * apply mbind_Ok in H as (r & Hr & H). destruct (removedRoot_found _ _ _ _ _ Hauth Hr) as (from & ->).
        injection H as <-. right. split_and!; [done..|left]. split; [done|right]. split; [done|by right; right].
      * injection H as <-. left. split_and!; [done..|]. intros [_ [?|[?|Ha]]]; [done..|]. by rewrite Hauth in Ha.
Qed.

Lemma cascade_spec direct before after controller all leaves : ∀ c c',
  (∀ leaf, leaf ∈ leaves -> leaf ∈ all) ->
  (∀ did, did ∈ direct -> did ∈ devicesOf c) ->
  (∀ did, did ∈ devicesOf c -> did ∈ direct ∨ ∃ other, other ∈ all ∧ cascades direct after controller other ∧
                                                    normalizeDID (lr_did other) = did) ->
  foldM (cascadeLeaf direct before after controller) leaves c = Ok c' ->
  (∀ leaf, leaf ∈ leaves -> falls direct after controller leaf -> lr_leafIndex leaf ∈ ca_removeLeafIndices c') ∧
  (∀ index, index ∈ ca_removeLeafIndices c' -> index ∈ ca_removeLeafIndices c ∨
     ∃ leaf, leaf ∈ all ∧ lr_leafIndex leaf = index ∧
       (falls direct after controller leaf ∨ sharesDevice direct after controller all leaf)) ∧
  (∀ index, index ∈ ca_removeLeafIndices c -> index ∈ ca_removeLeafIndices c').
Proof.
  induction leaves as [|leaf leaves IH]; cbn [foldM]; intros c c' Hall Hdirect Hdev Hf.
  { injection Hf as <-. split_and!; [by intros ? ?%elem_of_nil|by left|done]. }
  destruct (cascadeLeaf direct before after controller c leaf) as [c1|] eqn:Hstep; [|done].
  assert (leaf ∈ all) as Hleaf by (apply Hall; by left).
  assert (∀ x, x ∈ leaves -> x ∈ all) as Hall' by (intros x Hx; apply Hall; by right).
  destruct (cascadeLeaf_cases _ _ _ _ _ _ _ Hdirect Hstep) as [(Hi & Hd & Hno)|(Hi & Hsame & Hcase)].
  - destruct (IH c1 c' Hall') as (H1 & H2 & H3); [by rewrite Hd..|done|]. rewrite Hi in H2, H3.
    split_and!; [|done..]. intros x [->|Hx]%elem_of_cons; [done|by apply H1].
  - assert ((∀ did, did ∈ direct -> did ∈ devicesOf c1) ∧
            (∀ did, did ∈ devicesOf c1 -> did ∈ direct ∨ ∃ other, other ∈ all ∧ cascades direct after controller other ∧
                                                    normalizeDID (lr_did other) = did)) as [Hdirect1 Hdev1].
    { destruct Hcase as [[-> _]|[-> Hc]]; [done|]. split; [set_solver|].
      intros did [?| ->%list_elem_of_singleton]%elem_of_app; [by apply Hdev|right]. by exists leaf. }
    destruct (IH c1 c' Hall' Hdirect1 Hdev1 Hf) as (H1 & H2 & H3). rewrite Hi in H2, H3. split_and!.
    + intros x [->|Hx]%elem_of_cons; [|by apply H1]. intros _. apply H3, elem_of_app. right. by left.
    + intros index Hin. destruct (H2 _ Hin) as [[?| ->%list_elem_of_singleton]%elem_of_app|?]; [by left| |by right].
      right. exists leaf. split_and!; [done..|]. destruct Hcase as [[_ [Hd|?]]|[_ Hc]]; [|by left|].
      * apply Hdev in Hd as [Hd|(other & ? & ? & ?)]; [left; split; [done|by left]|right; split; [done|]]. by exists other.
      * left. split; [done|right; by left].
    + intros index Hin. apply H3, elem_of_app. by left.
Qed.

(** C20. The cascade of a denial or removal is complete and takes down no one else. Every leaf of the
    controller falls whose device is denied, whose authority the effects remove, or that a denied device
    issued while nothing of its holder's own stands. And a leaf that is taken down is one of these, or another
    leaf of a device that cascaded. So no leaf whose authority is removed stays in the tree. *)
Theorem cascade_exact leaves claims before after controller c :
  cascadeOf leaves claims before after controller = Ok c ->
  (∀ leaf, leaf ∈ leaves -> falls (deniedBy claims) after controller leaf ->
     lr_leafIndex leaf ∈ ca_removeLeafIndices c) ∧
  (∀ index, index ∈ ca_removeLeafIndices c -> ∃ leaf, leaf ∈ leaves ∧ lr_leafIndex leaf = index ∧
     (falls (deniedBy claims) after controller leaf ∨ sharesDevice (deniedBy claims) after controller leaves leaf)).
Proof.
  intros H. unfold cascadeOf in H.
  assert (devicesOf (mkCascade ((fun did => mkRevoked did None) <$> deniedBy claims) [] []) = deniedBy claims) as Hd
    by (unfold devicesOf; cbn [ca_revoked]; rewrite <- list_fmap_compose; apply list_fmap_id).
  destruct (cascade_spec (deniedBy claims) before after controller leaves leaves _ _ (fun _ Hx => Hx)
    ltac:(by rewrite Hd) ltac:(rewrite Hd; by left) H) as (H1 & H2 & _).
  split; [done|]. intros index Hin. destruct (H2 _ Hin) as [?%elem_of_nil|?]; done.
Qed.
End cascade.

(** ** At the small group: a denial of Alice's device takes her leaf down, and only hers *)

#[local] Existing Instance demoLib.
#[local] Existing Instance demoTokens.

Definition demo_ref (did capability key : string) (index : nat) : LeafRef :=
  mkLeafRef did (mkBinding demo_controller [] (Some capability) None None None) (utf8 key) index.

Definition demo_leaves : list LeafRef := [demo_ref "did:alice" "h.a.s" "ka" 0; demo_ref "did:bob" "h.b.s" "kb" 1].
Definition demo_denial : list EffectClaim := [DenyClaim "did:alice" (ChainIndex 1)].

Lemma cascade_exact_witness :
  ∃ c, cascadeOf demo_leaves demo_denial registrySeed registrySeed demo_controller = Ok c ∧
    ca_removeLeafIndices c = [0] ∧
    (∀ leaf, leaf ∈ demo_leaves -> falls (deniedBy demo_denial) registrySeed demo_controller leaf ->
       lr_leafIndex leaf ∈ ca_removeLeafIndices c).
Proof.
  exists (mkCascade [mkRevoked "did:alice" None] [] [0]). split; [vm_compute; reflexivity|]. split; [done|].
  apply (cascade_exact (lib := demoLib) (fun did => eq_refl did) demo_leaves demo_denial registrySeed registrySeed demo_controller).
  vm_compute. reflexivity.
Defined.
