(* ===== verification/AuthenticationSpec.v ===== *)
(** * What lets a leaf into the tree

    Theorems about Capability.v and Authentication.v: what a capability that is pinned to a leaf has passed,
    and what holds of every leaf that is newly admitted. *)

From S2P Require Import Prelude HubProtocol Json ControllerLog GroupFold Credential LedgerHead Policy Capability MemberRoot MemberRootSpec LifecycleRegistry Authentication LifecycleDemo.

Section authentication.
Context {lib : ControllerLib} {tokens : TokenLib}.

(** ** A pinned capability *)

(** The controller's own grant, or that of a member in its name. *)
Definition controllerGrant (payload : json) (controllerID : string) : Prop :=
  sameDID (subjectOf payload) controllerID = true ∧
  (has "mbr" payload = true ∧ memberClaim (get "mbr" payload) ≠ None ∨
   has "mbr" payload = false ∧ sameDID (issuerOf payload) controllerID = true).

(** Valid for a span of time within the limit. *)
Definition lasts (payload : json) (maximum : Z) : Prop :=
  finite (iat payload) = true ∧ finite (exp payload) = true ∧ nle (exp payload) (iat payload) = false ∧
  gapExceeds (exp payload) (iat payload) maximum = false.

Inductive vouched (params : PinParams) (token : SignedToken) : Prop :=
  | vouched_directly :
      has "cap" (tk_payload token) = false ->
      controllerGrant (tk_payload token) (pp_controllerID params) ->
      verifyToken (pinnedResolver params) (pp_capability params) (iat (tk_payload token)) = true ->
      vouched params token
  | vouched_by_parent parentRaw parent issuerKey :
      oneParent (tk_payload token) = Ok parentRaw -> readParent parentRaw = Ok parent ->
      has "cap" (tk_payload parent) = false ->
      controllerGrant (tk_payload parent) (pp_controllerID params) ->
      lasts (tk_payload parent) (cappedLifetime (pp_trustedGrantLifetime params) MAX_TRUSTED_GRANT_LIFETIME) ->
      sameDID (issuerOf (tk_payload token)) (audienceOf (tk_payload parent)) = true ->
      sameDID (audienceOf (tk_payload token)) (issuerOf (tk_payload token)) = false ->
      nlt (exp (tk_payload parent)) (exp (tk_payload token)) = false ->
      isDenied (pp_denySet params) (issuerOf (tk_payload token)) = false ->
      capabilityKey (tk_payload parent) = Ok issuerKey ->
      verifySignature (get "alg" (tk_header token)) (tk_signature token) (tk_data token) issuerKey = true ->
      vouched params token.

(** What a capability says of the leaf it is pinned to, and who vouches for it. *)
Record pinnedTo (params : PinParams) (token : SignedToken) : Prop := {
  pin_read : readCapability (pp_capability params) = Ok token;
  pin_chain : foldsChain (pp_controllerID params) (pp_prefix params) = true;
  pin_lasts : lasts (tk_payload token)
    (if pp_trustedGrant params then cappedLifetime (pp_trustedGrantLifetime params) MAX_TRUSTED_GRANT_LIFETIME
     else cappedLifetime (pp_leafLifetime params) MAX_LEAF_LIFETIME);
  pin_subject : sameDID (subjectOf (tk_payload token)) (pp_controllerID params) = true;
  pin_audience : sameDID (audienceOf (tk_payload token)) (pp_audience params) = true;
  pin_permission : hasPermission (pp_permission params) (tk_payload token) = true;
  pin_key : ∃ key, capabilityKey (tk_payload token) = Ok key ∧ bytesEqual key (pp_leafKey params) = true;
  pin_vouched : vouched params token;
  pin_library : checkCapability (pinnedResolver params) (pp_permission params) (tk_payload token) (iat (tk_payload token)) = true;
}.

Lemma assertControllerGrant_ok payload controllerID :
  assertControllerGrant payload controllerID = Ok tt -> controllerGrant payload controllerID.
Proof.
  unfold assertControllerGrant. intros H. passed H. apply negb_false_iff in H. split; [done|].
  destruct (has "mbr" payload) eqn:Hm; cbn [negb andb] in *.
  - left. split; [done|]. by destruct (memberClaim _).
  - right. split; [done|]. by apply negb_false_iff in Hguard0.
Qed.

Lemma assertLifetime_ok payload maximum : assertCapabilityLifetime payload maximum = Ok tt -> lasts payload maximum.
Proof.
  unfold assertCapabilityLifetime. intros H. passed H. rewrite !orb_false_iff, !negb_false_iff in Hguard.
  by destruct Hguard as [[[[? ?] ?] ?] _].
Qed.

Lemma checkPinned_ok params time claims :
  pp_structural params = false -> checkPinned params time claims = Ok tt ->
  checkCapability (pinnedResolver params) (pp_permission params) claims time = true.
Proof. unfold checkPinned, libraryRefusal. intros ->. by intros H%throwIf_Ok%negb_false_iff. Qed.

Lemma verifyDirect_ok params token :
  pp_structural params = false -> has "cap" (tk_payload token) = false ->
  verifyDirect params (tk_payload token) = Ok tt ->
  vouched params token ∧
  checkCapability (pinnedResolver params) (pp_permission params) (tk_payload token) (iat (tk_payload token)) = true.
Proof.
  intros Hs Hcap H. unfold verifyDirect, libraryRefusal in H. apply mbind_Ok in H as ([] & Hgrant & H). passed H.
  apply negb_false_iff in Hguard. split; [|by apply checkPinned_ok].
  apply vouched_directly; [done|by apply assertControllerGrant_ok|done].
Qed.

Lemma verifyChained_ok params token :
  pp_structural params = false -> verifyChained params token = Ok tt ->
  vouched params token ∧
  checkCapability (pinnedResolver params) (pp_permission params) (tk_payload token) (iat (tk_payload token)) = true.
Proof.
  intros Hs H. unfold verifyChained, libraryRefusal in H. rewrite Hs in H. cbn [negb andb] in H. cbn zeta in H.
  apply mbind_Ok in H as ([] & _ & H). apply mbind_Ok in H as (parentRaw & Hraw & H).
  apply mbind_Ok in H as (parent & Hparent & H). apply mbind_Ok in H as ([] & Hcap%throwIf_Ok & H).
  apply mbind_Ok in H as ([] & Hgrant & H). apply mbind_Ok in H as ([] & Hlife & H).
  apply mbind_Ok in H as ([] & Hiss%throwIf_Ok%negb_false_iff & H). apply mbind_Ok in H as ([] & Hself%throwIf_Ok & H).
  apply mbind_Ok in H as ([] & Hexp%throwIf_Ok & H). apply mbind_Ok in H as ([] & Hden%throwIf_Ok & H).
  apply mbind_Ok in H as (key & Hkey & H). apply mbind_Ok in H as ([] & _ & H).
  apply mbind_Ok in H as ([] & Hsig%throwIf_Ok%negb_false_iff & H). do 4 apply mbind_Ok in H as ([] & _ & H).
  split; [|by apply checkPinned_ok].
  apply (vouched_by_parent params token parentRaw parent key); try done;
    [by apply assertControllerGrant_ok|by apply assertLifetime_ok].
Qed.

Lemma verifyPinned_ok params :
  pp_structural params = false -> verifyPinnedCapability params = Ok tt -> ∃ token, pinnedTo params token.
Proof.
  intros Hs H. unfold verifyPinnedCapability in H. apply mbind_Ok in H as ([] & Hchain%throwIf_Ok & H).
  apply orb_false_iff in Hchain as [_ Hchain%negb_false_iff]. apply mbind_Ok in H as (token & Htoken & H). cbn zeta in H.
  apply mbind_Ok in H as ([] & Hlife%assertLifetime_ok & H).
  apply mbind_Ok in H as ([] & Hsub%throwIf_Ok%negb_false_iff & H).
  apply mbind_Ok in H as ([] & Haud%throwIf_Ok%negb_false_iff & H).
  apply mbind_Ok in H as ([] & Hperm%throwIf_Ok%negb_false_iff & H).
  apply mbind_Ok in H as (key & Hkey & H). apply mbind_Ok in H as ([] & Hsame%throwIf_Ok%negb_false_iff & H).
  assert (vouched params token ∧
    checkCapability (pinnedResolver params) (pp_permission params) (tk_payload token) (iat (tk_payload token)) = true) as [Hv Hc].
  { destruct (has "cap" (tk_payload token)) eqn:Hcap; [by apply verifyChained_ok|by apply verifyDirect_ok]. }
  exists token. constructor; try done; [|by exists key]. by destruct (pp_trustedGrant params).
Qed.

(** ** Authorities in their place *)

Lemma primary_slot binding did roots slot root :
  memberRootsOf binding did = Ok roots -> head roots = Some (slot, root) -> slot ≠ SlotHolder ∧ slot ≠ SlotSurvivor.
Proof.
  unfold memberRootsOf. intros H Hh. destruct (cb_member binding); [injection H as <-; by injection Hh as <- _|].
  destruct (cb_capability binding); [|done]. apply mbind_Ok in H as (payload & _ & H).
  apply mbind_Ok in H as (primary & Hp & H).
  assert (primary.1 ≠ SlotHolder ∧ primary.1 ≠ SlotSurvivor) as Hslot.
  { destruct (parentOf payload); [|by injection Hp as <-]. by apply mbind_Ok in Hp as (? & _ & [= <-]). }
  destruct (cb_holderGrant binding).
  - apply mbind_Ok in H as (? & _ & [= <-]). by injection Hh as ->.
  - injection H as <-. by injection Hh as ->.
Qed.

Lemma member_not_root registry controller root :
  isMember root = true -> memberRootStatus registry controller root ≠ IsRoot.
Proof. destruct root; [done|]. intros _. unfold memberRootStatus. by repeat case_match. Qed.

(** A normal form is its own. *)
Context (normalizeDID_idem : ∀ did, normalizeDID (normalizeDID did) = normalizeDID did).

(** Unless it is removed, the authority of a leaf is its first root's. *)
Lemma authority_primary leaf registry controller roots slot root root' slot' expiry :
  memberRootsOf (lr_binding leaf) (lr_did leaf) = Ok roots -> head roots = Some (slot, root) ->
  isRemoved (memberRootStatus registry controller root) = false ->
  effectiveAuthorityOf leaf registry controller = Ok (AuthorityOf root' slot' expiry) -> slot' = slot.
Proof.
  intros Hroots Hhead Hr H. unfold effectiveAuthorityOf in H. destruct (negb _); [done|].
  rewrite Hroots in H. cbn [mbind result_bind] in H. rewrite Hhead, memberRootStatus_normal in H by done.
  revert H. destruct (match lifecycleOf _ _ ≫= lc_recordedLog with Some _ => _ | None => _ end);
    [by destruct (isRemoved _)|].
  destruct (memberRootStatus registry controller root); try done;
    by destruct (memberRootStatus _ _ <$> holderRoot roots) as [[]|]; intros [= _ <- _].
Qed.

(** ** Admission *)

(** The standing of a member root: it is effective, the leaf's prefix is part of the recorded chain, and the
    epoch holds few enough events for a leaf. *)
Definition effectiveRoot (j : Judged) (registry : DeviceRegistry) (root : MemberRoot) : Prop :=
  isMember root = true ->
  (∃ key lease, memberRootStatus registry (cb_id (jd_binding j)) root = IsEffective key lease) ∧
  prefixContained j registry = true ∧
  ∀ log, recordedLogOf registry (cb_id (jd_binding j)) = Some log ->
    ∃ count, epochEventCount log = Ok count ∧ count <= MAX_EPOCH_EVENTS_FOR_LEAVES.

Inductive grounded (j : Judged) (registry : DeviceRegistry) : Prop :=
  | by_membership claim key :
      cb_member (jd_binding j) = Some claim ->
      effectiveRoot j registry (RootMember (ci_id (jd_parsed j)) (mc_add claim) (numZ (mc_g claim))) ->
      resolveMember (leafResolver j) (ci_id (jd_parsed j)) (mc_add claim) (mc_g claim) = Some key ->
      bytesEqual key (jd_key j) = true -> grounded j registry
  | by_capability raw token slot root roots :
      cb_member (jd_binding j) = None -> cb_capability (jd_binding j) = Some raw ->
      pinnedTo (pinned j raw false (jd_denySet j) false) token ->
      memberRootsOf (jd_binding j) (ci_id (jd_parsed j)) = Ok roots -> head roots = Some (slot, root) ->
      effectiveRoot j registry root ->
      (has "cap" (tk_payload token) = true -> ∃ grant, cb_holderGrant (jd_binding j) = Some grant ∧
         checkHolderEvidence (jd_parsed j) (jd_key j) (grantLifetime (jd_deps j)) = Ok (Some grant)) ->
      grounded j registry.

Lemma checkEpochCap_ok j registry root :
  jd_registry j = Some registry -> jd_mode j = Admit -> isMember root = true -> checkEpochCap j root = Ok tt ->
  ∀ log, recordedLogOf registry (cb_id (jd_binding j)) = Some log ->
    ∃ count, epochEventCount log = Ok count ∧ count <= MAX_EPOCH_EVENTS_FOR_LEAVES.
Proof.
  intros Hreg Hmode Hm H log Hlog. unfold checkEpochCap in H. rewrite Hreg, Hmode, Hm, Hlog in H.
  cbn [negb orb] in H. rewrite bool_decide_eq_true_2 in H by done. cbn [negb orb] in H.
  apply mbind_Ok in H as (count & Hc & H). apply throwIf_Ok, Nat.ltb_ge in H. by exists count.
Qed.

Lemma checkHolderEvidence_grant j raw payload grant :
  cb_member (jd_binding j) = None -> ci_controller (jd_parsed j) = Some (jd_binding j) ->
  cb_capability (jd_binding j) = Some raw -> capabilityOf raw = Ok payload -> has "cap" payload = true ->
  checkHolderEvidence (jd_parsed j) (jd_key j) (grantLifetime (jd_deps j)) = Ok grant ->
  ∃ held, cb_holderGrant (jd_binding j) = Some held ∧ grant = Some held.
Proof.
  intros Hm Hb Hraw Hp Hcap. unfold checkHolderEvidence. rewrite Hb, Hm, Hraw, Hp. cbn [mbind result_bind].
  rewrite Hcap. destruct (cb_holderGrant (jd_binding j)) as [held|]; [|done].
  destruct (grant ← capabilityOf held; _); [|done]. intros [= <-]. by exists held.
Qed.

Lemma verifyMembership_ok j registry claim :
  jd_registry j = Some registry -> jd_structural j = false -> jd_mode j = Admit ->
  cb_member (jd_binding j) = Some claim ->
  verifyMembership j claim (RootMember (ci_id (jd_parsed j)) (mc_add claim) (numZ (mc_g claim))) = Ok tt ->
  grounded j registry.
Proof.
  intros Hreg Hs Hmode Hm H. unfold verifyMembership in H. rewrite Hs, Hreg in H. apply mbind_Ok in H as ([] & _ & H).
  assert (unavailable j = Err (LeafBindingError member_unavailable)) as Hun.
  { unfold unavailable. rewrite Hmode. by rewrite bool_decide_eq_false_2. }
  destruct (memberRootStatus registry _ _) as [|key lease| |] eqn:Hstatus; [by rewrite Hun in H| | |by rewrite Hun in H].
  - destruct (prefixContained j registry) eqn:Hp; cbn [negb] in H; [|by rewrite Hun in H].
    destruct (resolveMember _ _ _ _) as [k|] eqn:Hk; [|by rewrite Hun in H].
    apply mbind_Ok in H as ([] & Hsame%throwIf_Ok%negb_false_iff & H).
    apply (by_membership j registry claim k); [done| |done|done].
    intros Hmem. split_and!; [by exists key, lease|done|]. by eapply checkEpochCap_ok.
  - unfold verifyRemovedMember in H. rewrite Hmode, bool_decide_eq_true_2 in H by done. done.
Qed.

Lemma verifyMemberRoot_ok j registry roots slot root holderGrant done' :
  jd_registry j = Some registry -> jd_mode j = Admit ->
  memberRootsOf (jd_binding j) (ci_id (jd_parsed j)) = Ok roots -> head roots = Some (slot, root) ->
  isMember root = true -> verifyMemberRoot j root holderGrant = Ok done' ->
  done' = None ∧ (∃ key lease, memberRootStatus registry (cb_id (jd_binding j)) root = IsEffective key lease) ∧
  prefixContained j registry = true.
Proof.
  intros Hreg Hmode Hroots Hhead Hmem H. unfold verifyMemberRoot in H. rewrite Hreg, Hmode in H.
  rewrite (bool_decide_eq_true_2 (Admit = Admit)), (bool_decide_eq_false_2 (Admit = Retain)) in H by done.
  cbn [andb] in H. destruct (memberRootStatus registry _ root) as [|key lease| |] eqn:Hstatus; try done; [by destruct (member_not_root _ _ _ Hmem Hstatus)|].
  cbn [isRemoved throwIf mbind result_bind] in H. destruct (prefixContained j registry); cbn [negb] in H; [|done].
  apply mbind_Ok in H as (authority & Hauth & H). destruct authority as [root' slot' expiry| |]; [|done..].
  assert (slot' = slot) as -> by (eapply (authority_primary (leafRef j)); [done|done|by rewrite Hstatus|done]).
  destruct (primary_slot _ _ _ _ _ Hroots Hhead). split_and!; [|by exists key, lease|done].
  destruct slot; try done; by injection H.
Qed.

Lemma verifyCapabilityLeaf_ok j registry raw roots slot root :
  jd_registry j = Some registry -> jd_structural j = false -> jd_mode j = Admit ->
  ad_mayKeepDeniedIssuer (jd_deps j) = false -> ci_controller (jd_parsed j) = Some (jd_binding j) ->
  cb_member (jd_binding j) = None -> cb_capability (jd_binding j) = Some raw ->
  memberRootsOf (jd_binding j) (ci_id (jd_parsed j)) = Ok roots -> head roots = Some (slot, root) ->
  verifyCapabilityLeaf j raw roots root = Ok tt -> grounded j registry.
Proof.
  intros Hreg Hs Hmode Hkeep Hb Hm Hraw Hroots Hhead H. unfold verifyCapabilityLeaf in H.
  apply mbind_Ok in H as ([] & _ & H). apply mbind_Ok in H as (holder & Hholder & H).
  apply mbind_Ok in H as ([] & _ & H). rewrite Hs in H. apply mbind_Ok in H as ([] & Hcap & H).
  apply mbind_Ok in H as (done' & Hdone & H). rewrite Hkeep in H.
  assert (done' = None ∧ effectiveRoot j registry root) as [-> Hroot].
  { destruct (isMember root) eqn:Hmem; [|injection Hdone as <-; split; [done|intros Hx; congruence]].
    destruct (verifyMemberRoot_ok _ _ _ _ _ _ _ Hreg Hmode Hroots Hhead Hmem Hdone) as (-> & ? & ?).
    split; [done|]. intros _. split_and!; [done..|]. by eapply checkEpochCap_ok. }
  cbn [mbind result_bind] in H. apply mbind_Ok in H as ([] & Hpin & _).
  apply verifyPinned_ok in Hpin as (token & Hpin); [|done].
  eapply (by_capability j registry raw token); [done..|].
  intros Hc. assert (capabilityOf raw = Ok (tk_payload token)) as Hp.
  { pose proof (pin_read _ _ Hpin) as Hread. cbn in Hread. unfold capabilityOf. by rewrite Hread. }
  destruct (checkHolderEvidence_grant _ _ _ _ Hm Hb Hraw Hp Hc Hholder) as (held & Hh & ->). by exists held.
Qed.

Lemma verifyBinding_ok parsed binding key denied deps registry :
  ad_judging deps = mkJudging (Some registry) false Admit -> ad_mayKeepDeniedIssuer deps = false ->
  ci_controller parsed = Some binding ->
  verifyBinding (mkJudged parsed binding key denied deps) = Ok tt ->
  grounded (mkJudged parsed binding key denied deps) registry.
Proof.
  intros Hj Hkeep Hb H. set (j := mkJudged parsed binding key denied deps) in *.
  assert (jd_registry j = Some registry ∧ jd_structural j = false ∧ jd_mode j = Admit) as (Hreg & Hs & Hmode)
    by (unfold jd_registry, jd_structural, jd_mode; cbn [jd_deps j]; by rewrite Hj).
  unfold verifyBinding in H. apply mbind_Ok in H as (roots & Hroots & H).
  destruct (head roots) as [[slot root]|] eqn:Hhead; [|done]. apply mbind_Ok in H as ([] & _ & H).
  destruct (cb_member (jd_binding j)) as [claim|] eqn:Hm.
  - unfold memberRootsOf in Hroots. rewrite Hm in Hroots. injection Hroots as <-. injection Hhead as _ <-.
    by eapply verifyMembership_ok.
  - destruct (cb_capability (jd_binding j)) as [raw|] eqn:Hraw; [|done]. by eapply verifyCapabilityLeaf_ok.
Qed.

End authentication.

(** ** At the small group: Bob's leaf is admitted *)

#[local] Existing Instance demoLib.
#[local] Existing Instance demoTokens.

Definition demo_deps : AuthDeps := mkDeps (mkJudging (Some registrySeed) false Admit) (Some ∅) false None None.

