(* ===== verification/ClaimsSpec.v ===== *)
(** * The claims of an entry: what its author derives, the group accepts

    Theorems about [claimsFor] of MemberRoot.v and [checkDeclared] of LifecycleRegistry.v: the claims cover
    what a log changes, and a member that verifies the entry finds each of them proved. *)

From S2P Require Import Prelude HubProtocol Json ControllerLog GroupFold Credential LedgerHead Capability MemberRoot LifecycleRegistry LifecycleDemo.
From Stdlib Require Import QArith.
#[local] Close Scope Q_scope.

Lemma nlt_floor a floor floor' : (floor' <= floor)%Z -> nlt a (numZ floor) = false -> nlt a (numZ floor') = false.
Proof.
  intros Hle H. apply not_true_iff_false. intros Hlt. apply not_true_iff_false in H. apply H.
  destruct a as [q| | |]; try done. apply not_false_iff_true. intros Hge. apply (not_nlt (Fin q) (numZ floor)) in Hge; [|done..].
  assert (nle (numZ floor') (numZ floor) = true) as Hf by (apply nle_Fin; by rewrite <- Zle_Qle).
  pose proof (nle_trans _ _ _ Hf Hge) as Hn%nle_not_nlt. congruence.
Qed.

Section claims.
Context {lib : ControllerLib} {tokens : TokenLib}.

(** A proof at a floor is one at every lower floor. *)
Lemma checkEffect_lower proofs claim floor floor' :
  (floor' <= floor)%Z -> checkEffect proofs claim floor = Ok tt -> checkEffect proofs claim floor' = Ok tt.
Proof.
  intros Hle. assert (∀ index check, checkRotationEffect proofs claim floor index check = Ok tt ->
                        checkRotationEffect proofs claim floor' index check = Ok tt) as Hrot.
  { intros index check. unfold checkRotationEffect. destruct (rotationStates proofs index) as [[prior state]|]; [|done].
    intros H. apply mbind_Ok in H as ([] & -> & H). apply throwIf_Ok, Z.ltb_ge in H. cbn [mbind result_bind].
    rewrite (proj2 (Z.ltb_ge _ _)); [done|lia]. }
  unfold checkEffect. destruct (refOf claim) as [index|index|digest epoch]; [apply Hrot..|].
  unfold checkEventEffect. destruct (viewAt proofs epoch) as [[f|]|]; [|done..].
  destruct (jm_get digest _) as [signed|]; [|done]. intros H. passed H. cbn [mbind result_bind throwIf].
  rewrite Hguard, (nlt_floor _ _ _ Hle Hguard0). cbn [throwIf mbind result_bind]. by rewrite H.
Qed.

Lemma targetOf_claimOf target ref : targetOf (claimOf target ref) = claimTarget target.
Proof. unfold claimOf, claimTarget. by destruct target as [did [add|]]. Qed.

(** The claim for one target: it is of that target and proved, or none is needed. *)
Lemma claimFor_spec proofs before floor target claims :
  claimFor proofs before floor target = Ok claims ->
  (claims = [] ∧ impliedRemoval proofs before target = true) ∨
  ∃ claim, claims = [claim] ∧ targetOf claim = claimTarget target ∧ checkEffect proofs claim floor = Ok tt.
Proof.
  assert (floor <= claimFloor proofs floor target)%Z as Hle by (unfold claimFloor; destruct target.2; lia).
  unfold claimFor. destruct (list_find _ _) as [[i [claim gen]]|] eqn:Hfind.
  - apply list_find_Some in Hfind as (_ & Hp & _). unfold provesTarget in Hp. rewrite !andb_true_iff in Hp.
    destruct Hp as [[Ht%bool_decide_eq_true _] _]. intros H. apply mbind_Ok in H as ([] & Hc & [= <-]). right.
    exists claim. split_and!; [done..|]. by eapply checkEffect_lower.
  - destruct (chainRef _ _ _) as [ref|].
    + intros H. apply mbind_Ok in H as ([] & Hc & [= <-]). right. exists (claimOf target ref).
      split_and!; [done|apply targetOf_claimOf|by eapply checkEffect_lower].
    + destruct (impliedRemoval _ _ _); [|done]. intros [= <-]. by left.
Qed.

Lemma claimsFor_spec proofs before floor targets : ∀ held claims,
  foldM (fun claims target => more ← claimFor proofs before floor target; Ok (claims ++ more)) targets held = Ok claims ->
  (∀ claim, claim ∈ held -> claim ∈ claims) ∧
  (∀ target, target ∈ targets -> impliedRemoval proofs before target = true ∨
     ∃ claim, claim ∈ claims ∧ targetOf claim = claimTarget target) ∧
  (∀ claim, claim ∈ claims -> claim ∈ held ∨
     (checkEffect proofs claim floor = Ok tt ∧ ∃ target, target ∈ targets ∧ targetOf claim = claimTarget target)).
Proof.
  induction targets as [|target targets IH]; cbn [foldM]; intros held claims H.
  { injection H as <-. split_and!; [done|by intros ? ?%elem_of_nil|by left]. }
  destruct (claimFor proofs before floor target) as [more|] eqn:Hmore; [|done]. cbn [mbind result_bind] in H.
  destruct (IH _ _ H) as (H1 & H2 & H3). apply claimFor_spec in Hmore. split_and!.
  - intros claim Hin. apply H1, elem_of_app. by left.
  - intros t [->|Ht]%elem_of_cons; [|by apply H2]. destruct Hmore as [[_ ?]|(claim & -> & Hc & _)]; [by left|right].
    exists claim. split; [|done]. apply H1, elem_of_app. right. by left.
  - intros claim Hin. destruct (H3 _ Hin) as [[?|Hm]%elem_of_app|(Hc & t & ? & ?)]; [by left| |right].
    + destruct Hmore as [[-> _]|(claim' & -> & Ht & Hc)]; [by apply elem_of_nil in Hm|].
      apply list_elem_of_singleton in Hm as ->. right. split; [done|]. exists target. split; [by left|done].
    + split; [done|]. exists t. split; [by right|done].
Qed.

End claims.

(** ** At a log of two events: the second, a rotation, denies Alice's device *)

#[local] Existing Instance demoLib.
#[local] Existing Instance demoTokens.

Definition demo_event (type digest : string) : json :=
  JObj [("event", JObj [("t", JStr type); ("d", JStr digest)])]%string.

Definition demo_denied_state : KeyState := mkKeyState "d1" "d1" 0 ["did:alice"%string] [] [] false.

Definition demo_proofs : EffectProofs :=
  mkProofs demo_controller (mkControllerLog [demo_event "icp" "d0"; demo_event "rot" "d1"] [])
    (mkFold [demo_state; demo_denied_state] demo_denied_state []).

