(* ===== verification/DeviceValueSpec.v ===== *)
(** * Device values are what their type says

    registry.ts admits a device value with [isDeviceValue] and casts it; everything after the cast reads its
    fields without a test. The theorem is that the cast is sound. *)

From S2P Require Import Prelude HubProtocol Json ControllerLog GroupFold Credential LedgerHead Capability MemberRoot LifecycleRegistry LifecycleDemo.

Lemma readField_some {A} (read : json -> option A) (test : option json -> bool) v :
  (∀ x, test (Some x) = true -> is_Some (read x)) -> optional test v = true -> is_Some (readField read v).
Proof. intros Hread. destruct v as [x|]; [|done]. intros [a Ha]%Hread. exists (Some a). cbn. by rewrite Ha. Qed.

Lemma readArray_some {A} (read : json -> option A) (test : json -> bool) :
  (∀ x, test x = true -> is_Some (read x)) ->
  ∀ x, everyItem test (Some x) = true -> is_Some (readArray read x).
Proof.
  intros Hread x. destruct x as [| | | |items|]; try done. cbn [everyItem readArray]. intros Hall.
  apply mapM_is_Some, Forall_forall. intros y Hy%list_elem_of_In. apply Hread.
  by apply (proj1 (forallb_forall _ _) Hall).
Qed.

Lemma readString_some x : isString (Some x) = true -> is_Some (readString x).
Proof. by destruct x. Qed.

Lemma readNumber_some x : isNumber (Some x) = true -> is_Some (readNumber x).
Proof. by destruct x. Qed.

(** A property that passes for a string reads as one. *)
Lemma string_at key v : isString (get key v) = true -> ∃ s, get key v = Some (JStr s).
Proof. destruct (get key v) as [[| | |s| |]|]; try done. by exists s. Qed.

#[local] Create HintDb reads.
#[local] Hint Resolve readString_some readNumber_some : reads.

Lemma readIndex_some v : nonNegative v = true -> is_Some (v ≫= readIndex).
Proof.
  destruct v as [[| |[z| |]| | |]|]; try done. cbn [nonNegative mbind option_bind readIndex]. intros ->. by eexists.
Qed.

Lemma readProofRef_some v : isProofRef (Some v) = true -> is_Some (readProofRef v).
Proof.
  unfold isProofRef. destruct v as [| | | | |fields]; try done.
  intros [_ H]%andb_true_iff. apply orb_true_iff in H as [[Hone Hat]%andb_true_iff|H].
  - destruct fields as [|[key value] [|]]; try done. cbn [get jm_get] in Hat.
    destruct (decide ("chainIndex" = key)%string) as [<-|Hc]; [|destruct (decide ("snapshot" = key)%string) as [<-|Hs]]; [..|done].
    + change (is_Some (ChainIndex <$> readIndex value)). apply fmap_is_Some, (readIndex_some (Some value)).
      by rewrite orb_false_r in Hat.
    + change (is_Some (Snapshot <$> readIndex value)). by apply fmap_is_Some, (readIndex_some (Some value)).
  - rewrite !andb_true_iff in H. destruct H as [[[_ Hevent] _] Hepoch].
    destruct (string_at _ _ Hevent) as (digest & Hd). unfold readProofRef, has. rewrite Hd. cbn [mbind option_bind readString].
    destruct (readField_some readString isString _ readString_some Hepoch) as (epoch & ->). by eexists.
Qed.

Lemma readEffectClaim_some v : isEffectClaim v = true -> is_Some (readEffectClaim v).
Proof.
  unfold isEffectClaim, readEffectClaim. rewrite !andb_true_iff. intros [[_ Hkind] Href].
  destruct (get "kind" v) as [[| | |kind| |]|]; try done. cbn [mbind option_bind readString].
  destruct (get "ref" v) as [ref|]; [|done]. destruct (readProofRef_some _ Href) as (r & Hr).
  cbn [mbind option_bind]. rewrite Hr. cbn [mbind option_bind]. revert Hkind. destruct (decide (kind = "deny")%string) as [->|Hk].
  - rewrite bool_decide_eq_true_2 by done. intros (did & ->)%string_at. by eexists.
  - rewrite (bool_decide_eq_false_2 (kind = "deny")%string) by done. destruct (decide (kind = "remove")%string) as [->|]; [|done].
    rewrite bool_decide_eq_true_2 by done. intros [_ Hm]%andb_true_iff. destruct (get "member" v) as [member|]; [|done].
    apply andb_true_iff in Hm as [(did & Hdid)%string_at (add & Hadd)%string_at].
    cbn [mbind option_bind]. rewrite Hdid, Hadd. by eexists.
Qed.

Lemma readRevoked_some v : isRevokedEffect v = true -> is_Some (readRevokedEffect v).
Proof.
  unfold isRevokedEffect, readRevokedEffect. rewrite !andb_true_iff. intros [[_ (did & ->)%string_at] Hfrom].
  destruct (readField_some readString isString _ readString_some Hfrom) as (from & ->). by eexists.
Qed.

Lemma readRemoved_some v : isRemovedEffect v = true -> is_Some (readRemovedEffect v).
Proof.
  unfold isRemovedEffect, readRemovedEffect. rewrite !andb_true_iff.
  intros [[_ (did & ->)%string_at] (from & ->)%string_at]. by eexists.
Qed.

Section typed.
Context {lib : ControllerLib}.

Definition given {A} (v : option A) : Prop := v ≠ None.
Definition logGiven (value : DeviceValue) : Prop := ∃ proof, dv_proof value = Some proof ∧ isControllerLog proof = true.

(** What each operation carries, as the union type of registry.ts means it. *)
Definition wellTyped (value : DeviceValue) : Prop :=
  (∀ proof, dv_proof value = Some proof -> isControllerLog proof = true) ∧
  (dv_attest value = true -> dv_op value = op_clock) ∧
  (∀ time, dv_time value = Some time -> finite time = true) ∧
  match dv_op value with
  | op_register | op_add => given (dv_controller value) ∧ dv_proof value = None
  | op_beacon => given (dv_logLength value) ∧ given (dv_headDigest value) ∧ dv_proof value = None
  | op_clock => given (dv_time value) ∧ dv_proof value = None
  | op_log | op_seed => logGiven value ∧ dv_capability value = None ∧
                        dv_effects value = None ∧ dv_revoked value = None ∧ dv_removed value = None ∧ dv_survivors value = None
  | op_reset => logGiven value ∧ given (dv_effects value) ∧ given (dv_revoked value) ∧ given (dv_removed value)
  | op_revoke => given (dv_proof value) -> given (dv_effects value) ∧ given (dv_revoked value) ∧ given (dv_removed value)
  | op_label => dv_proof value = None
  end.

Lemma readField_none {A} (read : json -> option A) v a : readField read v = Some a -> (a = None <-> v = None).
Proof. destruct v as [x|]; cbn; [|by intros [= <-]]. intros (b & _ & ->)%fmap_Some. by split. Qed.

Lemma has_none key v : has key v = false <-> get key v = None.
Proof. unfold has. by destruct (get key v). Qed.

Lemma isArray_has key v : isArray (get key v) = true -> get key v ≠ None.
Proof. by destruct (get key v). Qed.

(** The fields an operation needs, from the tests that [isDeviceValue] makes together. *)
Definition carried (op : DeviceOp) (v : json) : Prop :=
  match op with
  | op_register | op_add => get "controller" v ≠ None ∧ get "proof" v = None
  | op_revoke => get "proof" v ≠ None -> get "effects" v ≠ None ∧ get "revoked" v ≠ None ∧ get "removed" v ≠ None
  | op_label => get "proof" v = None
  | op_beacon => get "logLength" v ≠ None ∧ get "headDigest" v ≠ None ∧ get "proof" v = None
  | op_reset => (∃ proof, get "proof" v = Some proof ∧ isControllerLog proof = true) ∧
                get "effects" v ≠ None ∧ get "revoked" v ≠ None ∧ get "removed" v ≠ None
  | op_clock => get "time" v ≠ None ∧ get "proof" v = None
  | op_log | op_seed => (∃ proof, get "proof" v = Some proof ∧ isControllerLog proof = true) ∧
                get "capability" v = None ∧
                get "effects" v = None ∧ get "revoked" v = None ∧ get "removed" v = None ∧ get "survivors" v = None
  end.

Lemma lists_given v :
  negb (controllerLog isControllerLog (get "proof" v)) || negb (isArray (get "revoked" v)) ||
  negb (isArray (get "effects" v)) || negb (isArray (get "removed" v)) = false ->
  (∃ proof, get "proof" v = Some proof ∧ isControllerLog proof = true) ∧
  get "effects" v ≠ None ∧ get "revoked" v ≠ None ∧ get "removed" v ≠ None.
Proof.
  rewrite !orb_false_iff, !negb_false_iff. intros [[[Hlog ?] ?] ?]. split_and!; [|by apply isArray_has..].
  destruct (get "proof" v) as [proof|]; [by exists proof|done].
Qed.

Lemma log_bare v :
  negb (controllerLog isControllerLog (get "proof" v)) ||
  (has "revoked" v || has "effects" v || has "removed" v || has "survivors" v) || has "capability" v = false ->
  (∃ proof, get "proof" v = Some proof ∧ isControllerLog proof = true) ∧ get "capability" v = None ∧
  get "effects" v = None ∧ get "revoked" v = None ∧ get "removed" v = None ∧ get "survivors" v = None.
Proof.
  rewrite !orb_false_iff, negb_false_iff, !has_none. intros ([Hlog ([[? ?] ?] & ?)] & ?). split_and!; [|done..].
  destruct (get "proof" v) as [proof|]; [by exists proof|done].
Qed.

Lemma fields_by_op op v :
  negb (negb (bool_decide (op = op_log ∨ op = op_seed) || bool_decide (op = op_reset) ||
              bool_decide (op = op_revoke) && has "proof" v) &&
        (has "proof" v || (has "revoked" v || has "effects" v || has "removed" v || has "survivors" v))) = true ->
  negb (bool_decide (op = op_log ∨ op = op_seed) &&
        (negb (controllerLog isControllerLog (get "proof" v)) ||
         (has "revoked" v || has "effects" v || has "removed" v || has "survivors" v) || has "capability" v)) = true ->
  negb (bool_decide (op = op_register ∨ op = op_add) && negb (isString (get "controller" v))) = true ->
  negb (bool_decide (op = op_beacon) && (negb (isNumber (get "logLength" v)) || negb (isString (get "headDigest" v)))) = true ->
  negb (bool_decide (op = op_clock) && negb (isNumber (get "time" v))) = true ->
  negb (negb (bool_decide (op = op_log ∨ op = op_seed)) && (bool_decide (op = op_reset) || has "proof" v) &&
        (negb (controllerLog isControllerLog (get "proof" v)) || negb (isArray (get "revoked" v)) ||
         negb (isArray (get "effects" v)) || negb (isArray (get "removed" v)))) = true ->
  carried op v.
Proof.
  rewrite !negb_true_iff. intros Hbare Hlog Hreg Hbeacon Hclock Hlists.
  assert (∀ key, negb (isString (get key v)) = false -> get key v ≠ None) as Hstring by (intros key; by destruct (get key v)).
  assert (∀ key, negb (isNumber (get key v)) = false -> get key v ≠ None) as Hnumber by (intros key; by destruct (get key v)).
  destruct op; cbn in Hbare, Hlog, Hreg, Hbeacon, Hclock, Hlists; cbn [carried].
  1,2,4,5,7: apply orb_false_iff in Hbare as [Hproof%has_none _].
  - auto.
  - auto.
  - done.
  - apply orb_false_iff in Hbeacon as [? ?]. auto.
  - auto.
  - intros Hp. apply lists_given. destruct (has "proof" v) eqn:Hhas; [done|by apply has_none in Hhas].
  - by apply lists_given.
  - by apply log_bare.
  - by apply log_bare.
Qed.

(** C35. The cast of a device entry is sound: a value that [isDeviceValue] lets in reads, field by field, as a
    [DeviceValue], and carries what its operation needs. A proof is a controller log. A reset, and a revoke
    with a proof, list what they revoke, remove and claim; a log or a seed lists none of it. A clock has a
    finite time, and only a clock attests; a register or add names its controller, a beacon its length and
    digest. *)
Theorem device_value_typed v :
  isDeviceValue isControllerLog v = true -> ∃ value, deviceValueOf v = Some value ∧ wellTyped value.
Proof.
  unfold isDeviceValue. destruct (opOf v) as [op|] eqn:Hop; [|done]. cbn zeta. rewrite !andb_true_iff.
  intros [[[[[[[[[[[[[[[[[Hbare Hlog] Hreg] Hbeacon] Hlabel] Hctl] Hcap] Hlen] Hdigest] Htime] Hproof] Hrev] Hclock] Hattest]
    Hlists] Heff] Hrem] Hsurv].
  destruct (readField_some readString isString _ readString_some Hctl) as (controller & Hcontroller).
  destruct (readField_some readString isString _ readString_some Hlabel) as (label & Hlabel').
  destruct (readField_some readString isString _ readString_some Hcap) as (capability & Hcapability).
  destruct (readField_some (readArray readEffectClaim) _ _ (readArray_some _ _ readEffectClaim_some) Heff) as (effects & Heffects).
  destruct (readField_some (readArray readRemovedEffect) _ _ (readArray_some _ _ readRemoved_some) Hrem) as (removed & Hremoved).
  destruct (readField_some (readArray readString) _ _ (readArray_some _ _ readString_some) Hsurv) as (survivors & Hsurvivors).
  destruct (readField_some (readArray readRevokedEffect) _ _ (readArray_some _ _ readRevoked_some) Hrev) as (revoked & Hrevoked).
  destruct (readField_some readNumber isNumber _ readNumber_some Hlen) as (logLength & Hlength).
  destruct (readField_some readString isString _ readString_some Hdigest) as (headDigest & Hhead).
  assert (∃ time, readField readNumber (get "time" v) = Some time ∧ ∀ t, toNum <$> time = Some t -> finite t = true)
    as (time & Htimed & Hfinite).
  { destruct (get "time" v) as [[| |n| | |]|]; try done; [|by exists None].
    exists (Some n). split; [done|]. intros t [= <-]. by destruct n. }
  assert (∃ attest, readField readAttest (get "attest" v) = Some attest ∧ (default false attest = true -> op = op_clock))
    as (attest & Hattested & Hatt).
  { destruct (get "attest" v) as [[|[]| | | |]|]; try done; [|by exists None].
    exists (Some true). split; [done|]. intros _. by apply bool_decide_eq_true in Hattest. }
  eexists. split.
  { unfold deviceValueOf. rewrite Hop. cbn [mbind option_bind].
    by rewrite Hcontroller, Hlabel', Hcapability, Heffects, Hremoved, Hsurvivors, Hrevoked, Htimed, Hattested, Hlength, Hhead. }
  unfold wellTyped, given, logGiven. cbn [dv_op dv_proof dv_attest dv_time dv_controller dv_logLength dv_headDigest
    dv_effects dv_revoked dv_removed dv_capability dv_survivors].
  apply readField_none in Hcontroller, Hcapability, Heffects, Hremoved, Hsurvivors, Hrevoked, Hlength, Hhead.
  split_and!; [|done|done|].
  { intros proof Hp. by rewrite Hp in Hproof. }
  apply readField_none in Htimed.
  assert (toNum <$> time = None <-> get "time" v = None) as Ht by (rewrite <- Htimed; by destruct time).
  assert (carried op v) as H by (by eapply fields_by_op).
  by destruct op; rewrite ?Hcontroller, ?Hcapability, ?Heffects, ?Hremoved, ?Hsurvivors, ?Hrevoked, ?Hlength, ?Hhead, ?Ht.
Qed.
End typed.

#[local] Existing Instance demoLib.

Definition demo_clock (time : Z) : json := JObj [("op", JStr "clock"); ("time", JNum (Int time))]%string.

Lemma device_value_typed_witness : ∃ value, deviceValueOf (demo_clock 5) = Some value ∧ wellTyped value.
Proof. apply (device_value_typed (demo_clock 5)). vm_compute. reflexivity. Defined.
