(* ===== verification/LifecycleRegistrySpec.v ===== *)
(** * What a lifecycle registry remembers

    Theorems about LifecycleRegistry.v: device values read back as the types the code casts them to, and a
    registry that folds a longer ledger never unlearns a revocation, a removal, a floor or an attestation. *)

From S2P Require Import Prelude HubProtocol Json ControllerLog GroupFold GroupFoldSpec Credential LedgerHead Capability MemberRoot LifecycleRegistry LifecycleDemo.

Section registry.
Context {lib : ControllerLib} {tokens : TokenLib}.

Abbreviation Devices := (gmap string DeviceRecord).

(** ** Devices: every record is a revocation of the group's controller *)

Definition revokedAll (controller : string) (devices : Devices) : Prop :=
  map_Forall (fun _ record => dr_controller record = controller ∧ dr_status record = Revoked) devices.

(** No device is forgotten, and one that is out for good stays out for good. *)
Definition keeps (devices devices' : Devices) : Prop :=
  ∀ did record, devices !! did = Some record ->
  ∃ record', devices' !! did = Some record' ∧ (isResetOnly record = false -> isResetOnly record' = false).

Lemma keeps_refl devices : keeps devices devices.
Proof. intros did record Hd. by exists record. Qed.

Lemma keeps_trans d1 d2 d3 : keeps d1 d2 -> keeps d2 d3 -> keeps d1 d3.
Proof.
  intros H12 H23 did record Hd. destruct (H12 _ _ Hd) as (r2 & Hd2 & Hr2).
  destruct (H23 _ _ Hd2) as (r3 & Hd3 & Hr3). exists r3. auto.
Qed.

(** A step on the devices of a controller. *)
Definition grows (controller : string) (devices devices' : Devices) : Prop :=
  revokedAll controller devices -> revokedAll controller devices' ∧ keeps devices devices'.

Lemma grows_trans controller d1 d2 d3 : grows controller d1 d2 -> grows controller d2 d3 -> grows controller d1 d3.
Proof.
  intros H12 H23 H1. destruct (H12 H1) as [H2 ?]. destruct (H23 H2) as [H3 ?].
  split; [done|]. by eapply keeps_trans.
Qed.

Lemma grows_insert controller devices did record :
  dr_controller record = controller -> dr_status record = Revoked ->
  (∀ held, devices !! did = Some held -> isResetOnly held = false -> isResetOnly record = false) ->
  grows controller devices (<[did := record]> devices).
Proof.
  intros Hc Hs Hheld Hall. split; [by apply map_Forall_insert_2|].
  intros did' held Hd. destruct (decide (did' = did)) as [->|Hne].
  - exists record. rewrite lookup_insert_eq. eauto.
  - exists held. by rewrite lookup_insert_ne.
Qed.

Lemma revokedRecord_terminal controller ref from : isResetOnly (revokedRecord controller ref false from) = false.
Proof. done. Qed.

Lemma recordRevoked_grows controller op refs resetRef devices effect devices' :
  recordRevoked controller op refs resetRef devices effect = Ok devices' -> grows controller devices devices'.
Proof.
  unfold recordRevoked. destruct (_ && _) eqn:Hkept; [intros [= <-] Hall; by split; [|apply keeps_refl]|].
  destruct (match _ with Some ref => Some ref | None => _ end) as [ref|]; [|done]. intros [= <-] Hall.
  apply grows_insert; [done..| |done]. intros held Hd Hterm. rewrite Hd in Hkept. cbn [isRevoked heldResetOnly] in Hkept.
  destruct (Hall _ _ Hd) as [_ Hs]. rewrite (bool_decide_eq_true_2 _ Hs), Hterm, orb_true_r in Hkept. done.
Qed.

Lemma recordDenied_grows controller devices did ref : grows controller devices (recordDenied controller devices did ref).
Proof.
  unfold recordDenied. destruct (_ && _); [intros Hall; by split; [|apply keeps_refl]|]. by apply grows_insert.
Qed.

Lemma foldM_grows {A} controller (f : Devices -> A -> checked Devices) l : ∀ devices devices',
  (∀ x d d', f d x = Ok d' -> grows controller d d') -> foldM f l devices = Ok devices' -> grows controller devices devices'.
Proof.
  induction l as [|x l IH]; cbn [foldM]; intros devices devices' Hf H.
  - injection H as <-. intros Hall. by split; [|apply keeps_refl].
  - destruct (f devices x) as [d|] eqn:Hx; [|done]. eapply grows_trans; [by eapply Hf|by eapply IH].
Qed.

Lemma denials_grow controller devices (refs : gmap string ProofRef) :
  grows controller devices (map_fold (fun did ref devices => recordDenied controller devices did ref) devices refs).
Proof.
  apply (map_fold_weak_ind (fun r _ => grows controller devices r)).
  - intros Hall. by split; [|apply keeps_refl].
  - intros did ref m r _ IH. eapply grows_trans; [exact IH|apply recordDenied_grows].
Qed.

Lemma settled_grow controller chain devices :
  grows controller devices (map_imap (fun did held => Some (settleDevice controller chain did held)) devices).
Proof.
  assert (∀ did held, dr_controller (settleDevice controller chain did held) = dr_controller held ∧
            dr_status (settleDevice controller chain did held) = dr_status held ∧
            isResetOnly (settleDevice controller chain did held) = isResetOnly held) as Hsame.
  { intros did held. unfold settleDevice. destruct (_ || _); [done|]. by destruct (last _). }
  intros Hall. split.
  - intros did record Hd. rewrite map_lookup_imap in Hd. destruct (devices !! did) as [held|] eqn:Hh; [|done].
    injection Hd as <-. destruct (Hsame did held) as (-> & -> & _). by eapply Hall.
  - intros did held Hd. exists (settleDevice controller chain did held). rewrite map_lookup_imap, Hd.
    split; [done|]. by destruct (Hsame did held) as (_ & _ & ->).
Qed.

(** ** Projections *)

Record advances (l l' : Lifecycle) : Prop := {
  adv_gen : (lc_genFloor l <= lc_genFloor l')%Z;
  adv_time : nle (lc_timeFloor l) (lc_timeFloor l') = true;
  adv_attested : ∀ key time, lc_attestations l !! key = Some time ->
    ∃ time', lc_attestations l' !! key = Some time' ∧ nle time time' = true;
  adv_removed : dom (lc_removedMembers l) ⊆ dom (lc_removedMembers l');
  adv_survivors : dom (lc_survivorGrants l) ⊆ dom (lc_survivorGrants l');
}.

(** The times of a projection are numbers, and no attestation is before zero. *)
Definition timed (l : Lifecycle) : Prop :=
  isNum (lc_timeFloor l) ∧ map_Forall (fun _ time => nle (numZ 0) time = true) (lc_attestations l).

Lemma advances_refl l : timed l -> advances l l.
Proof.
  intros [Ht Ha]. constructor; [lia|by apply nle_refl| |done..].
  intros key time Hk. exists time. split; [done|]. apply nle_refl. by apply Ha, nle_isNum in Hk as [_ ?].
Qed.

Lemma advances_trans l1 l2 l3 : advances l1 l2 -> advances l2 l3 -> advances l1 l3.
Proof.
  intros [] []. constructor; [lia|by eapply nle_trans| |set_solver..].
  intros key time Hk. destruct (adv_attested0 _ _ Hk) as (t2 & Hk2 & ?).
  destruct (adv_attested1 _ _ Hk2) as (t3 & Hk3 & ?). exists t3. split; [done|by eapply nle_trans].
Qed.

Lemma foldM_survivors l : ∀ grants grants', foldM recordSurvivor l grants = Ok grants' -> dom grants ⊆ dom grants'.
Proof.
  induction l as [|raw l IH]; cbn [foldM]; intros grants grants' H; [by injection H as <-|].
  destruct (recordSurvivor grants raw) as [g|] eqn:Hg; [|done]. unfold recordSurvivor in Hg.
  apply mbind_Ok in Hg as (payload & _ & [= <-]). apply IH in H. rewrite dom_insert in H. set_solver.
Qed.

Lemma recordRemoved_dom genFloor effects : ∀ removed,
  dom removed ⊆ dom (foldl (recordRemoved genFloor) removed effects).
Proof.
  induction effects as [|claim effects IH]; cbn [foldl]; intros removed; [done|].
  etrans; [|apply IH]. destruct claim; cbn [recordRemoved]; [done|]. rewrite dom_insert. set_solver.
Qed.

Lemma dom_settled controller chain (removed : gmap string RemovedMember) :
  dom removed ⊆ dom (map_imap (fun add member => Some (settleRemoved controller chain add member)) removed).
Proof.
  intros add (member & Hm)%elem_of_dom. apply elem_of_dom. rewrite map_lookup_imap, Hm. by eexists.
Qed.

(** ** The steps of [applyLifecycle] *)

Lemma recordEffects_learns controller value effect devices projection devices' l' :
  timed projection ->
  recordEffects controller value effect devices projection = Ok (devices', l') ->
  grows controller devices devices' ∧ advances projection l' ∧ timed l'.
Proof.
  intros Ht H. unfold recordEffects in H. apply mbind_Ok in H as (revoked & Hrev & H).
  apply mbind_Ok in H as (survivors & Hsurv & H). injection H as <- <-.
  split_and!.
  - eapply grows_trans; [|eapply grows_trans; [apply denials_grow|apply settled_grow]].
    eapply foldM_grows; [|exact Hrev]. intros x d d' Hd. by eapply recordRevoked_grows.
  - destruct (advances_refl _ Ht). constructor; [done..| |].
    + etrans; [|apply dom_settled]. apply recordRemoved_dom.
    + by eapply foldM_survivors.
  - done.
Qed.

Lemma seedEffects_learns controller devices projection log devices' l' :
  timed projection ->
  seedEffects controller devices projection log = Ok (devices', l') ->
  grows controller devices devices' ∧ advances projection l' ∧ timed l'.
Proof.
  intros Ht H. unfold seedEffects in H. apply mbind_Ok in H as (f & _ & H). apply mbind_Ok in H as (claims & _ & H).
  apply mbind_Ok in H as ([d m] & Hfold & H). injection H as <- <-.
  assert (∀ l acc acc', foldM (seedClaim controller log f) l acc = Ok acc' ->
            grows controller acc.1 acc'.1 ∧ dom acc.2 ⊆ dom acc'.2) as Hsteps.
  { clear. induction l as [|claim l IH]; cbn [foldM]; intros acc acc' H.
    - injection H as <-. split; [|done]. intros Hall. by split; [|apply keeps_refl].
    - destruct (seedClaim controller log f acc claim) as [acc1|] eqn:Hstep; [|done].
      destruct (IH _ _ H) as [Hg Hd]. destruct claim as [did ref|did add ref]; cbn [seedClaim] in Hstep.
      + injection Hstep as <-. split; [|done]. eapply grows_trans; [|exact Hg]. by apply grows_insert.
      + destruct (claimGen log f ref); [|done]. injection Hstep as <-. split; [done|].
        cbn [snd] in Hd. rewrite dom_insert in Hd. set_solver. }
  destruct (Hsteps _ _ _ Hfold) as [Hg Hd]. split_and!; [done| |done].
  destruct (advances_refl _ Ht). by constructor.
Qed.

Lemma recordClock_learns controller issuer value previous l' :
  (∀ time, dv_time value = Some time -> isNum time) -> dv_time value ≠ None ->
  timed previous -> recordClock controller issuer value previous = Ok l' -> advances previous l' ∧ timed l'.
Proof.
  intros Hnum Hsome Ht H. destruct (dv_time value) as [time|] eqn:Htime; [|done]. specialize (Hnum _ eq_refl).
  unfold recordClock in H. rewrite Htime in H. cbn [default] in H.
  pose proof (advances_refl _ Ht) as Hrefl. destruct Ht as [Ht Ha]. destruct (dv_attest value).
  - destruct (list_find _ _) as [[? [? member]]|]; [|done]. injection H as <-.
    set (held := default (numZ 0) (lc_attestations previous !! ms_key member)).
    assert (nle (numZ 0) held = true) as Hpos.
    { unfold held. destruct (_ !! _) as [t|] eqn:Hk; [by eapply Ha|done]. }
    pose proof (nle_isNum _ _ Hpos) as [_ Hheld].
    destruct Hrefl. split; [constructor; [done|done| |done..]|split; [done|]].
    + intros key t Hk. cbn [lc_attestations]. destruct (decide (key = ms_key member)) as [->|Hne].
      * eexists. rewrite lookup_insert_eq. split; [done|].
        replace t with held by (unfold held; by rewrite Hk). by apply nmax_l.
      * rewrite lookup_insert_ne by done. by apply adv_attested0.
    + apply map_Forall_insert_2; [|done]. eapply nle_trans; [exact Hpos|]. by apply nmax_l.
  - injection H as <-. destruct Hrefl. split; [constructor; [done| |done..]|split; [|done]].
    + cbn [lc_timeFloor]. by apply nmax_l.
    + by apply nmax_isNum.
Qed.

(** ** One entry, and the ledger *)

Definition lifecycle (controller : string) (registry : DeviceRegistry) : Lifecycle :=
  default freshLifecycle (lifecycleOf registry controller).

(** The registry of a group with this controller. *)
Definition sound (controller : string) (registry : DeviceRegistry) : Prop :=
  revokedAll controller (reg_devices registry) ∧ timed (lifecycle controller registry).

Record learns (controller : string) (r r' : DeviceRegistry) : Prop := {
  ln_devices : keeps (reg_devices r) (reg_devices r');
  ln_lifecycle : advances (lifecycle controller r) (lifecycle controller r');
}.

Lemma learns_refl controller r : sound controller r -> learns controller r r.
Proof. intros [_ Ht]. split; [apply keeps_refl|by apply advances_refl]. Qed.

Lemma learns_trans controller r1 r2 r3 : learns controller r1 r2 -> learns controller r2 r3 -> learns controller r1 r3.
Proof. intros [] []. split; [by eapply keeps_trans|by eapply advances_trans]. Qed.

Lemma lifecycle_set controller l registry devices :
  lifecycle controller (mkRegistry devices (setLifecycle controller l registry)) = l.
Proof. unfold lifecycle, lifecycleOf, setLifecycle. cbn [reg_controllers]. by rewrite lookup_insert_eq. Qed.

Lemma lifecycle_floor controller registry :
  lc_genFloor (lifecycle controller registry) = genFloorOf (lifecycleOf registry controller).
Proof. unfold lifecycle. by destruct (lifecycleOf registry controller). Qed.

(** A normal form is its own. *)
Context (normalizeDID_idem : ∀ did, normalizeDID (normalizeDID did) = normalizeDID did).

Lemma authenticated_floor controller subject value registry ap :
  authenticateLifecycleProof controller subject value registry = Ok ap ->
  (genFloorOf (lifecycleOf registry (normalizeDID controller)) <= ap_genFloor ap)%Z.
Proof.
  unfold authenticateLifecycleProof. intros H. passed H. destruct (dv_proof value) as [proof|]; [|done].
  destruct (isControllerLog proof); [|done]. destruct (isLogBearing _).
  - unfold authenticateLog in H. passed H. injection H as <-. cbn [ap_genFloor]. lia.
  - unfold authenticateEffects in H. passed H. injection H as <-. cbn [ap_genFloor]. lia.
Qed.

Definition timesValue (value : DeviceValue) : Prop :=
  (∀ time, dv_time value = Some time -> isNum time) ∧ (dv_op value = op_clock -> dv_time value ≠ None).

Lemma applyLifecycle_learns issuer subject value registry controller registry' :
  timesValue value -> sound (normalizeDID controller) registry ->
  applyLifecycle issuer subject value registry controller = Ok registry' ->
  sound (normalizeDID controller) registry' ∧ learns (normalizeDID controller) registry registry'.
Proof.
  intros [Hnum Hclock] [Hall Ht] H. unfold applyLifecycle in H. fold (lifecycle (normalizeDID controller) registry) in H.
  case_bool_decide as Hop.
  - apply mbind_Ok in H as (l & Hl & [= <-]).
    destruct (recordClock_learns _ _ _ _ _ Hnum (Hclock Hop) Ht Hl) as [Hadv Ht'].
    split; split; rewrite ?lifecycle_set; [done..|apply keeps_refl|done].
  - apply mbind_Ok in H as (effect & Heff & H). apply authenticated_floor in Heff.
    set (projection := mkLifecycle _ _ _ _ _ _) in H.
    assert (timed projection) as Hp by done.
    assert (advances (lifecycle (normalizeDID controller) registry) projection) as Hadv.
    { destruct (advances_refl _ Ht). constructor; [|done..]. unfold projection. cbn [lc_genFloor].
      rewrite normalizeDID_idem in Heff. by rewrite lifecycle_floor. }
    apply mbind_Ok in H as ([devices seeded] & Hseed & H). apply mbind_Ok in H as ([devices' l'] & Hrec & [= <-]).
    cbn [fst snd] in *.
    assert (grows (normalizeDID controller) (reg_devices registry) devices ∧ advances projection seeded ∧ timed seeded)
      as (Hg1 & Ha1 & Ht1).
    { revert Hseed. case_bool_decide; [by apply seedEffects_learns|]. intros [= <- <-].
      split_and!; [intros ?; by split; [|apply keeps_refl]|by apply advances_refl|done]. }
    destruct (recordEffects_learns _ _ _ _ _ _ _ Ht1 Hrec) as (Hg2 & Ha2 & Ht2).
    destruct (grows_trans _ _ _ _ Hg1 Hg2 Hall) as [Hall' Hkeeps].
    split; [by split; rewrite ?lifecycle_set|]. split; [done|]. rewrite lifecycle_set.
    eapply advances_trans; [exact Hadv|]. by eapply advances_trans.
Qed.

(** ** The replay of a controlled ledger *)

Abbreviation STEP := (controlStep normalizeDID isControllerLog lifecycleApply).
Abbreviation FROM := (controlFrom normalizeDID isControllerLog lifecycleApply).
Abbreviation CONTROL := (foldControl normalizeDID isControllerLog lifecycleApply).

Lemma toNum_isNum n : isNum (toNum n).
Proof. by destruct n as [| |[]]. Qed.

Lemma deviceValue_times v value :
  isDeviceValue isControllerLog v = true -> deviceValueOf v = Some value -> timesValue value.
Proof.
  intros Hv H. unfold deviceValueOf in H. apply bind_Some in H as (op & Hop & H).
  do 7 (apply bind_Some in H as (? & _ & H)). apply bind_Some in H as (time & Htime & H).
  do 3 (apply bind_Some in H as (? & _ & H)). injection H as <-. split; cbn [dv_op dv_time].
  - intros t. destruct time as [n|]; [|done]. intros [= <-]. apply toNum_isNum.
  - intros ->. unfold isDeviceValue in Hv. rewrite Hop, !andb_true_iff in Hv.
    destruct Hv as [[[[[[_ Hclock] _] _] _] _] _]. rewrite bool_decide_eq_true_2 in Hclock by done.
    destruct (get "time" v) as [[| |n| | |]|]; try done. cbn in Htime. by injection Htime as <-.
Qed.

Lemma lifecycle_beacon controller registry subject beacon :
  lifecycle controller (mkRegistry (reg_devices registry)
    (<[subject := mkProjection beacon (cp_lifecycle (default controllerProjection (reg_controllers registry !! subject)))]>
       (reg_controllers registry))) = lifecycle controller registry.
Proof.
  unfold lifecycle, lifecycleOf. cbn [reg_controllers]. destruct (decide (subject = controller)) as [->|Hne].
  - rewrite lookup_insert_eq. by destruct (_ !! _).
  - by rewrite lookup_insert_ne.
Qed.

Lemma registryApply_learns verified registry controllerID registry' :
  isLifecycleDeviceValue isControllerLog (le_value (ve_entry verified)) = true ->
  sound (normalizeDID controllerID) registry ->
  registryApply normalizeDID lifecycleApply verified registry (Some controllerID) = Some registry' ->
  sound (normalizeDID controllerID) registry' ∧ learns (normalizeDID controllerID) registry registry'.
Proof.
  unfold isLifecycleDeviceValue. intros [Hv Hop]%andb_true_iff Hs. unfold registryApply.
  destruct (opOf _) as [op|] eqn:Hopof; [|done].
  assert (lifecycleApply verified registry controllerID = Some registry' ->
          sound (normalizeDID controllerID) registry' ∧ learns (normalizeDID controllerID) registry registry') as Happ.
  { unfold lifecycleApply. intros H. apply bind_Some in H as (value & Hval & H).
    destruct (applyLifecycle _ _ _ _ _) as [next|] eqn:Happ; [|done]. injection H as <-.
    eapply applyLifecycle_learns; [by eapply deviceValue_times|done|exact Happ]. }
  destruct op; cbn [isLifecycleOp]; try done. intros [= <-].
  pose proof (learns_refl _ _ Hs) as Hrefl. destruct Hs as [Hall Ht].
  split; split; rewrite ?lifecycle_beacon; try done; by destruct Hrefl.
Qed.

Lemma controlStep_learns anchor controllerID groupID position verified state :
  ga_controller anchor = Some controllerID -> sound (normalizeDID controllerID) (ct_registry state) ->
  let state' := (STEP anchor groupID position verified state).1 in
  sound (normalizeDID controllerID) (ct_registry state') ∧
  learns (normalizeDID controllerID) (ct_registry state) (ct_registry state').
Proof.
  intros Hc Hs. cbn zeta. pose proof (learns_refl _ _ Hs) as Hrefl. unfold controlStep. rewrite Hc.
  destruct (negb _); [done|]. rewrite (bool_decide_eq_true_2 (Some controllerID ≠ None)) by done. cbn [orb andb].
  case_bool_decide; [|done]. destruct (negb (isDeviceValue _ _)); [done|].
  destruct (isLifecycleDeviceValue _ _) eqn:Hv; cbn [negb]; [|done]. destruct (_ && _); [done|].
  destruct (registryApply _ _ _ _ _) as [registry|] eqn:Happ; [|done]. by apply registryApply_learns in Happ.
Qed.

Lemma controlFrom_learns anchor controllerID groupID entries : ∀ position state,
  ga_controller anchor = Some controllerID -> sound (normalizeDID controllerID) (ct_registry state) ->
  sound (normalizeDID controllerID) (ct_registry (FROM anchor groupID position entries state)) ∧
  learns (normalizeDID controllerID) (ct_registry state) (ct_registry (FROM anchor groupID position entries state)).
Proof.
  induction entries as [|input rest IH]; cbn [controlFrom]; intros position state Hc Hs.
  - split; [done|by apply learns_refl].
  - destruct (controlStep_learns anchor controllerID groupID position (fi_verified input) state Hc Hs) as [Hs1 Hl1].
    destruct (IH (S position) _ Hc Hs1) as [Hs2 Hl2]. split; [done|by eapply learns_trans].
Qed.

Lemma seed_sound controller : sound controller registrySeed.
Proof. by split; [apply map_Forall_empty|split; [|apply map_Forall_empty]]. Qed.

(** ** Recovery *)

(** What the retention check asks of two registries of one ledger, but for the folds of their logs. *)
Lemma retains_terminal controller r r' :
  sound controller r' -> learns controller r r' ->
  map_Forall (fun device record => terminalOf controller (Some record) = true ->
    terminalOf controller (reg_devices r' !! device) = true) (reg_devices r).
Proof.
  intros [Hall _] [Hkeeps _] did record Hd Hterm. destruct (Hkeeps _ _ Hd) as (record' & Hd' & Hres).
  rewrite Hd'. unfold terminalOf in *. rewrite !andb_true_iff, negb_true_iff in Hterm |- *.
  destruct (Hall _ _ Hd') as [Hc Hs], Hterm as [_ Hterm]. by rewrite (Hres Hterm), !bool_decide_eq_true_2.
Qed.

Lemma attested_default (p : option Lifecycle) key :
  default (numZ 0) (p ≫= fun p => lc_attestations p !! key) =
  default (numZ 0) (lc_attestations (default freshLifecycle p) !! key).
Proof. destruct p as [p|]; [done|]. cbn [default lc_attestations freshLifecycle]. by rewrite lookup_empty. Qed.

Lemma retains_attestations controller r r' after :
  sound controller r' -> learns controller r r' ->
  retainsAttestations after (lifecycleOf r controller) (lifecycleOf r' controller) = true.
Proof.
  intros [_ [_ Hpos]] [_ Hadv]. unfold retainsAttestations. destruct after as [a|]; [|done].
  apply forallb_forall. intros entry _. apply orb_true_iff. right. apply negb_true_iff.
  rewrite !attested_default. fold (lifecycle controller r) (lifecycle controller r').
  destruct (lc_attestations (lifecycle controller r) !! ms_key entry.2) as [t|] eqn:Ht; cbn [default].
  - destruct (adv_attested _ _ Hadv _ _ Ht) as (t' & -> & Hle). by apply nle_not_nlt.
  - apply nle_not_nlt.
    destruct (lc_attestations (lifecycle controller r') !! ms_key entry.2) as [t'|] eqn:Ht'; [by eapply Hpos|done].
Qed.

Lemma retains_floors controller r r' :
  learns controller r r' ->
  nlt (timeFloorOf (lifecycleOf r' controller)) (timeFloorOf (lifecycleOf r controller)) = false ∧
  (genFloorOf (lifecycleOf r controller) <= genFloorOf (lifecycleOf r' controller))%Z.
Proof.
  intros [_ [Hgen Htime _ _ _]]. unfold lifecycle in Hgen, Htime. unfold timeFloorOf, genFloorOf.
  apply nle_not_nlt in Htime. by destruct (lifecycleOf r controller), (lifecycleOf r' controller).
Qed.

Lemma retains_removals controller r r' after :
  learns controller r r' ->
  map_Forall (fun add member =>
    negb (absent (lifecycleOf r' controller ≫= fun p => lc_removedMembers p !! add)) ||
    resetPast after (lifecycleOf r' controller) (rm_gen member) = true)
    (default ∅ (lc_removedMembers <$> lifecycleOf r controller)).
Proof.
  intros [_ Hadv] add member Hm. apply orb_true_iff. left.
  assert (add ∈ dom (lc_removedMembers (lifecycle controller r'))) as (m' & Hm')%elem_of_dom.
  { apply (adv_removed _ _ Hadv), elem_of_dom. exists member. unfold lifecycle.
    by destruct (lifecycleOf r controller). }
  unfold lifecycle in Hm'. destruct (lifecycleOf r' controller); cbn in *; by rewrite ?Hm'.
Qed.

(** C13. In a group with a controller the registry only ever learns. Every device it records is revoked, by
    the controller. A longer ledger forgets no device, no removed member and no survivor's grant; a device
    that is out for good stays out for good; the floors and the attested times never go back. So a registry
    recovered from more of the ledger passes the retention check against the one known before, but for what
    the controller's own logs decide: that the branches agree and the epoch's events are still applied. *)
Theorem registry_only_learns anchor controllerID groupID entries more :
  ga_controller anchor = Some controllerID ->
  let held := ct_registry (CONTROL entries anchor groupID) in
  let next := ct_registry (CONTROL (entries ++ more) anchor groupID) in
  revokedAll (normalizeDID controllerID) (reg_devices next) ∧
  learns (normalizeDID controllerID) held next ∧
  (assertRetainsKnownEffects controllerID held next = Ok tt ∨
   ∃ reason, assertRetainsKnownEffects controllerID held next = Err (RecoveryKnowledgeError reason) ∧
             (reason = lost_epoch_event ∨ reason = forked_log)).
Proof.
  intros Hc held next.
  assert (sound (normalizeDID controllerID) held) as Hheld
    by (apply controlFrom_learns; [done|apply seed_sound]).
  assert (sound (normalizeDID controllerID) next ∧ learns (normalizeDID controllerID) held next) as [Hnext Hl].
  { unfold next, foldControl. rewrite controlFrom_app. by apply controlFrom_learns. }
  split_and!; [apply Hnext|done|]. unfold assertRetainsKnownEffects.
  destruct (_ && _); [right; eexists; split; [done|by left]|]. cbn [throwIf mbind result_bind].
  destruct (negb (sameBranch _ _ _ _)); [right; eexists; split; [done|by right]|]. cbn [throwIf mbind result_bind].
  destruct (retains_floors _ _ _ Hl) as [-> ->%Z.ltb_ge]. cbn [orb throwIf mbind result_bind].
  rewrite (bool_decide_eq_true_2 _ (retains_terminal _ _ _ Hnext Hl)). cbn [negb throwIf mbind result_bind].
  rewrite (bool_decide_eq_true_2 _ (retains_removals _ _ _ _ Hl)). cbn [negb throwIf mbind result_bind].
  destruct (negb (retainsEvents _ _ _)); [right; eexists; split; [done|by left]|]. cbn [throwIf mbind result_bind].
  left. by rewrite (retains_attestations _ _ _ _ Hnext Hl).
Qed.
End registry.

(** ** At the small group: a clock, and then a later one *)

#[local] Existing Instance demoLib.
#[local] Existing Instance demoTokens.

Definition demo_clock_entry (time : Z) : FoldInput json :=
  mkFoldInput (mkVerified demo_controller (mkLedgerEntry DEVICE_ENTRY_TYPE "g" demo_controller
    (JObj [("op", JStr "clock"); ("time", JNum (Int time))])))%string "clock".

Definition demo_registry (entries : list (FoldInput json)) : DeviceRegistry :=
  ct_registry (foldControl normalizeDID isControllerLog lifecycleApply entries demo_anchor "g").

Lemma registry_only_learns_witness :
  lc_timeFloor (lifecycle demo_controller (demo_registry [demo_clock_entry 5; demo_clock_entry 9])) = numZ 9 ∧
  learns demo_controller (demo_registry [demo_clock_entry 5]) (demo_registry [demo_clock_entry 5; demo_clock_entry 9]).
Proof.
  split; [vm_compute; reflexivity|].
  apply (registry_only_learns (lib := demoLib) (fun did => eq_refl did) demo_anchor demo_controller "g" [demo_clock_entry 5] [demo_clock_entry 9]).
  reflexivity.
Defined.
