(* ===== verification/LifecycleGateSpec.v ===== *)
(** * What passes the lifecycle gate

    Theorems about LifecycleGate.v: who may be removed from the tree, and what holds of the tree, its time and
    its history once a commit is accepted. *)

From S2P Require Import Prelude HubProtocol Json ControllerLog GroupFold Credential LedgerHead Policy GroupHandle Capability MemberRoot LifecycleRegistry Authentication TreeTime LifecycleProof LifecycleGate LifecycleDemo.

Section gate.
Context {lib : ControllerLib} {tokens : TokenLib}.

(** ** The gate as prepared *)

Lemma prepare_controlled g externalLeaf entries registry context controller gate :
  ga_controller (gh_anchor g) = Some controller ->
  prepareLifecycleGate g externalLeaf entries registry context = Ok gate ->
  ∃ lapsed applied,
    gate = mkGate g entries registry context externalLeaf (lg_beforeSize gate) (lg_beforeTime gate) lapsed
             (existsb isProofEntry (filter (fun v => isLifecycleEntry v = true) entries)) applied.2 ∧
    historySize (treeOf g) (ledgerOf g) = Ok (lg_beforeSize gate) ∧
    treeTime g controller (gh_registry g) = Ok (lg_beforeTime gate) ∧
    foldM (lapsedLeaf g controller (lg_beforeTime gate)) (leafIndices (treeOf g)) ∅ = Ok lapsed ∧
    checkEntryMix entries = Ok tt ∧
    foldM (applyProof g controller) (filter (fun v => isLifecycleEntry v = true) entries) (gh_registry g, ∅) = Ok applied.
Proof.
  intros Hc. unfold prepareLifecycleGate. rewrite Hc. intros H.
  apply mbind_Ok in H as (gate' & Hgate & H). apply mbind_Ok in H as (u & _ & [= <-]).
  apply mbind_Ok in Hgate as (size & Hsize & Hgate). apply mbind_Ok in Hgate as (time & Htime & Hgate).
  apply mbind_Ok in Hgate as (lapsed & Hlapsed & Hgate). apply mbind_Ok in Hgate as ([] & Hmix & Hgate).
  apply mbind_Ok in Hgate as (applied & Happ & [= <-]). cbn [lg_beforeSize lg_beforeTime].
  by exists lapsed, applied.
Qed.

(** ** Leaves that stand *)

(** What the gate asks of a leaf that stays or comes: it is bound to the controller by a prefix that reaches
    the recorded generation, its device is not denied, or only by a reset and comes back, its authority is
    not gone, and a denied issuer is kept only by an evidenced child that was there before, unchanged. *)
Definition stands (g : GroupHandle) (controller : string) (registry : DeviceRegistry) (position : nat) (leaf : Leaf) : Prop :=
  ∃ parsed binding f authority,
    identity leaf = Ok parsed ∧ ci_controller parsed = Some binding ∧
    normalizeDID (cb_id binding) = normalizeDID controller ∧
    (normalizeDID (ci_id parsed) ∉ denySetOf registry ∨ mayReadmitResetDevice registry parsed = true) ∧
    foldChain (cb_id binding) (cb_prefix binding) = Folded f ∧
    (genFloorOf (lifecycleOf registry (normalizeDID controller)) <= lastGen f)%Z ∧
    effectiveAuthorityOf (mkLeafRef (ci_id parsed) binding (lf_signaturePublicKey leaf) 0) registry controller = Ok authority ∧
    authority ≠ AuthorityRemoved ∧
    ∀ raw payload, cb_member binding = None -> cb_capability binding = Some raw -> capabilityOf raw = Ok payload ->
      notNull (get "cap" payload) = true -> normalizeDID (issuerOf payload) ∈ denySetOf registry ->
      Nat.even position = true ∧ isUnchangedLeaf (treeOf g) (Nat.div2 position) leaf = true ∧
      isEvidencedChild g leaf (denySetOf registry) = Ok true.

Lemma survivorIssuer_keeps g before registry position leaf binding raw payload :
  survivorIssuer g (Some before) registry position leaf binding = Ok tt ->
  cb_member binding = None -> cb_capability binding = Some raw -> capabilityOf raw = Ok payload ->
  notNull (get "cap" payload) = true -> normalizeDID (issuerOf payload) ∈ denySetOf registry ->
  Nat.even position = true ∧ isUnchangedLeaf before (Nat.div2 position) leaf = true ∧
  isEvidencedChild g leaf (denySetOf registry) = Ok true.
Proof.
  unfold survivorIssuer. intros H Hm Hcb Hp Hcap Hden. rewrite Hm, Hcb, Hp in H. cbn [mbind result_bind] in H.
  rewrite Hcap, (bool_decide_eq_true_2 _ Hden) in H. cbn [andb] in H.
  apply mbind_Ok in H as (kept & Hkept & H). apply throwIf_Ok, negb_false_iff in H as ->.
  unfold keepsDeniedIssuer in Hkept. destruct (_ && _) eqn:Hsame; [|done].
  by apply andb_true_iff in Hsame as [-> ->].
Qed.

Lemma checkSurvivor_stands g controller registry position leaf :
  ga_controller (gh_anchor g) = Some controller ->
  checkSurvivor g (Some (treeOf g)) registry (position, leaf) = Ok tt -> stands g controller registry position leaf.
Proof.
  intros Hc. unfold checkSurvivor. intros H. apply mbind_Ok in H as (parsed & Hid & H). passed H.
  destruct (ci_controller parsed) as [binding|] eqn:Hb; [|by rewrite Hc in H].
  apply mbind_Ok in H as ([] & Hissuer & H). unfold survivorAuthority in H. rewrite Hc in H.
  destruct (foldChain _ _) as [f|] eqn:Hf; [|done]. passed H.
  apply negb_false_iff, bool_decide_eq_true in Hguard0. apply Z.ltb_ge in Hguard1.
  exists parsed, binding, f, x. split_and!; try done.
  - apply andb_false_iff in Hguard as [Hd|Hm]; [left; by apply bool_decide_eq_false in Hd|].
    right. by apply negb_false_iff in Hm.
  - by intros ->.
  - intros raw payload. by apply survivorIssuer_keeps.
Qed.

Lemma checkSurvivors_stand g controller registry tree :
  ga_controller (gh_anchor g) = Some controller ->
  checkSurvivors g tree registry (Some (treeOf g)) = Ok tt ->
  ∀ position leaf, (position, leaf) ∈ leavesOf tree -> stands g controller registry position leaf.
Proof.
  intros Hc H position leaf Hin. apply checkSurvivor_stands; [done|]. by apply (proj1 (forEach_Ok _ _) H).
Qed.

(** ** What [gatePostApply] leaves *)

Lemma checkTime_kept gate controller tree :
  lg_controller gate = Some controller -> checkTime gate tree = Ok tt ->
  ∃ time, attestedTreeTime tree (lg_registry gate) controller = Ok time ∧ nlt time (lg_beforeTime gate) = false.
Proof.
  unfold checkTime. intros -> H. passed H. by exists x.
Qed.

Lemma checkSize_kept gate controller tree :
  lg_controller gate = Some controller -> checkSize gate tree = Ok tt ->
  ∃ size, historySize tree (ledgerOf (lg_group gate) ++ lg_entries gate) = Ok size ∧
          (size <= HISTORY_HORIZON ∨ size <= lg_beforeSize gate)%Z.
Proof.
  unfold checkSize. intros -> H. cbn [absent] in H. passed H. exists x. split; [done|].
  apply andb_false_iff in H as [H|H]; apply Z.ltb_ge in H; auto.
Qed.

Lemma postApply_checks gate sender proposals state :
  ml_removedFromGroup state = false -> gatePostApply gate (CommitMessage sender proposals) state = Ok tt ->
  checkTime gate (ml_tree state) = Ok tt ∧ checkSize gate (ml_tree state) = Ok tt ∧
  checkSurvivors (lg_group gate) (ml_tree state) (lg_registry gate) (Some (lg_before gate)) = Ok tt.
Proof.
  unfold gatePostApply. intros -> H. apply mbind_Ok in H as ([] & _ & H).
  apply mbind_Ok in H as ([] & Ht & H). apply mbind_Ok in H as ([] & Hs & H). done.
Qed.

(** ** Whom a commit removes *)

Lemma lapsed_spec g controller time indices : ∀ lapsed lapsed' target,
  foldM (lapsedLeaf g controller time) indices lapsed = Ok lapsed' -> target ∈ lapsed' ->
  target ∈ lapsed ∨ ∃ leaf e, leafAt (treeOf g) target = Some leaf ∧
    boundExpiry leaf (gh_registry g) controller = Ok (Some e) ∧ nlt e time = true.
Proof.
  induction indices as [|index indices IH]; cbn [foldM]; intros lapsed lapsed' target Hf Hin; [left; by injection Hf as <-|].
  destruct (lapsedLeaf _ _ _ _ _) as [lapsed1|] eqn:Hstep; [|done].
  destruct (IH _ _ _ Hf Hin) as [Hin1|]; [|by right]. unfold lapsedLeaf in Hstep.
  destruct (leafAt (treeOf g) index) as [leaf|] eqn:Hleaf; [|left; by injection Hstep as <-].
  apply mbind_Ok in Hstep as (expiry & Hexp & [= <-]).
  destruct expiry as [e|]; [|by left]. destruct (nlt e time) eqn:Hlt; [|by left].
  apply elem_of_union in Hin1 as [->%elem_of_singleton|]; [|by left]. right. by exists leaf, e.
Qed.

Lemma isProofEntry_value verified value :
  deviceValueOf (le_value (ve_entry verified)) = Some value -> isProofEntry verified = isProofOp (dv_op value).
Proof.
  unfold deviceValueOf, isProofEntry, entryOp. intros H. apply bind_Some in H as (op & -> & H).
  repeat (apply bind_Some in H as (? & _ & H)). by injection H as <-.
Qed.

(** The proof entry of a commit: what it was judged by, and that the removals are exactly its own. *)
Definition provenRemovals (g : GroupHandle) (entries : list (VerifiedLedgerEntry json)) (removed : nat -> Prop) : Prop :=
  ∃ verified value registry effects, verified ∈ entries ∧ isProofOp (dv_op value) = true ∧
    verifyLifecycleProof g verified value registry = Ok effects ∧ ∀ i, removed i <-> i ∈ pe_removeLeafIndices effects.

Lemma applyProofs_none g controller l : ∀ acc acc',
  foldM (applyProof g controller) l acc = Ok acc' -> filter (fun v => isProofEntry v = true) l = [] -> acc'.2 = acc.2.
Proof.
  induction l as [|v l IH]; cbn [foldM]; intros acc acc' Hf Hnone; [by injection Hf as <-|].
  destruct (applyProof _ _ _ _) as [acc1|] eqn:Hstep; [|done]. rewrite filter_cons in Hnone. case_decide as Hv; [done|].
  rewrite (IH _ _ Hf Hnone). unfold applyProof in Hstep.
  destruct (deviceValueOf _) as [value|] eqn:Hval; [|done]. rewrite (isProofEntry_value _ _ Hval) in Hv.
  passed Hstep. injection Hstep as <-. by destruct (isProofOp _).
Qed.

Lemma applyProofs_one g controller l : ∀ acc acc' v,
  foldM (applyProof g controller) l acc = Ok acc' -> filter (fun v => isProofEntry v = true) l = [v] ->
  ∃ value registry effects, isProofOp (dv_op value) = true ∧ verifyLifecycleProof g v value registry = Ok effects ∧
    acc'.2 = acc.2 ∪ list_to_set (pe_removeLeafIndices effects).
Proof.
  induction l as [|w l IH]; cbn [foldM]; intros acc acc' v Hf Hone; [done|].
  destruct (applyProof _ _ _ _) as [acc1|] eqn:Hstep; [|done]. unfold applyProof in Hstep.
  destruct (deviceValueOf _) as [value|] eqn:Hval; [|done]. pose proof (isProofEntry_value _ _ Hval) as Hw.
  apply mbind_Ok in Hstep as (effects & Hver & Hstep). apply mbind_Ok in Hstep as (registry & _ & [= <-]).
  rewrite filter_cons in Hone. case_decide as Hd.
  - injection Hone as -> Hnone. rewrite Hw in Hd. exists value, acc.1, effects. split_and!; [done..|].
    rewrite (applyProofs_none _ _ _ _ _ Hf Hnone). cbn [snd]. by rewrite Hd.
  - destruct (IH _ _ _ Hf Hone) as (value' & registry' & effects' & ? & ? & Heq).
    exists value', registry', effects'. split_and!; [done..|]. rewrite Heq. cbn [snd].
    rewrite Hw in Hd. by destruct (isProofOp (dv_op value)).
Qed.

(** A commit with a proof holds one, and what the gate expects removed is what it proves. *)
Lemma expected_proven g externalLeaf entries registry context controller gate :
  ga_controller (gh_anchor g) = Some controller ->
  prepareLifecycleGate g externalLeaf entries registry context = Ok gate -> lg_proofs gate = true ->
  provenRemovals g entries (.∈ lg_expectedRemoves gate).
Proof.
  intros Hc Hprep Hproofs. destruct (prepare_controlled _ _ _ _ _ _ _ Hc Hprep) as
    (lapsed & applied & Hgate & _ & _ & _ & Hmix & Happ).
  rewrite Hgate in Hproofs |- *. cbn [lg_proofs lg_expectedRemoves] in *.
  unfold checkEntryMix in Hmix. passed Hmix. rewrite !orb_false_iff in Hmix. destruct Hmix as [[[[Hone _] _] _] _].
  apply Nat.ltb_ge in Hone. set (l := filter (fun v => isLifecycleEntry v = true) entries) in *.
  apply existsb_exists in Hproofs as (v0 & Hv0 & Hp0).
  assert (v0 ∈ filter (fun v => isProofEntry v = true) l) as Hin
    by (apply list_elem_of_filter; split; [done|by apply list_elem_of_In]).
  destruct (filter (fun v => isProofEntry v = true) l) as [|v [|]] eqn:Hfilter; [by apply elem_of_nil in Hin| |cbn in Hone; lia].
  destruct (applyProofs_one _ _ _ _ _ _ Happ Hfilter) as (value & r & effects & Hop & Hver & Heq).
  assert (v ∈ filter (fun v => isProofEntry v = true) l) as [_ Hvl]%list_elem_of_filter by (rewrite Hfilter; by left).
  exists v, value, r, effects. split_and!; [by apply list_elem_of_filter in Hvl as [_ ?]|done..|].
  intros i. rewrite Heq. cbn [snd]. set_solver.
Qed.

Lemma proofRemoves_exact gate sender proposals controller :
  lg_controller gate = Some controller -> lg_proofs gate = true ->
  checkProofRemoves gate true sender proposals = Ok tt ->
  (∀ i, i ∈ omap removedOf proposals <-> i ∈ lg_expectedRemoves gate) ∧
  ∃ s, sender = Some s ∧ s ∉ lg_expectedRemoves gate.
Proof.
  unfold checkProofRemoves. intros -> -> H. cbn [absent orb negb] in H. passed H.
  rewrite !orb_false_iff in Hguard. destruct Hguard as [[_ Hsize] Hall]. apply negb_false_iff, Nat.eqb_eq in Hsize.
  split.
  - assert ((list_to_set (omap removedOf proposals) : gset nat) ⊆ lg_expectedRemoves gate) as Hsub.
    { intros i Hi%elem_of_list_to_set. apply list_elem_of_In in Hi.
      destruct (decide (i ∈ lg_expectedRemoves gate)) as [|Hno]; [done|exfalso].
      rewrite <- not_true_iff_false in Hall. apply Hall, existsb_exists. exists i. split; [done|by apply bool_decide_eq_true_2]. }
    assert (lg_expectedRemoves gate ≡ list_to_set (omap removedOf proposals)) as Heq.
    { apply set_subseteq_antisymm; [|done]. apply set_subseteq_size_eq in Hsub; [set_solver|lia]. }
    intros i. rewrite (Heq i), elem_of_list_to_set. done.
  - destruct sender as [s|]; [|by cbn in H]. exists s. split; [done|].
    cbn [negb orb] in H. by apply bool_decide_eq_false in H.
Qed.

(** The leaf outlived its grant: its expiry is before the time the tree attests. *)
Definition leafLapsed (g : GroupHandle) (controller : string) (old : Leaf) : Prop :=
  ∃ time e, treeTime g controller (gh_registry g) = Ok time ∧
    boundExpiry old (gh_registry g) controller = Ok (Some e) ∧ nlt e time = true.

(** The same commit adds a leaf of the device whose only leaf goes, by a member other than it, with a later
    issuance, and the device is not denied. *)
Definition leafReplaced (g : GroupHandle) (registry : DeviceRegistry) (sender : option nat)
    (proposals : list ProposalWithSender) (target : nat) (old : Leaf) : Prop :=
  ∃ committer p leaf did next previous,
    sender = Some committer ∧ committer ≠ target ∧ p ∈ proposals ∧ pw_proposal p = Add leaf ∧
    leafDID old = Some did ∧ leafDID leaf = Some did ∧ length (leafIndicesOf (treeOf g) did) = 1 ∧
    (∀ held, held ∈ denySetOf (gh_registry g) ∪ denySetOf registry -> normalizeDID held ≠ did) ∧
    leafBindingIssuedAt leaf = Ok (Some next) ∧ leafBindingIssuedAt old = Ok (Some previous) ∧ nle next previous = false.

Lemma stalePairedAdd_spec before target proposals committer denied leaf old :
  leafAt before target = Some old -> stalePairedAdd before target proposals committer denied = Some leaf ->
  committer ≠ target ∧ ∃ did p, leafDID old = Some did ∧ p ∈ proposals ∧ pw_proposal p = Add leaf ∧
    leafDID leaf = Some did ∧ length (leafIndicesOf before did) = 1 ∧
    ∀ set held, set ∈ denied -> held ∈ set -> normalizeDID held ≠ did.
Proof.
  unfold stalePairedAdd. intros Hold H. destruct (target =? committer) eqn:Hne; [done|]. apply Nat.eqb_neq in Hne.
  rewrite Hold in H. cbn [mbind option_bind] in H. destruct (leafDID old) as [did|] eqn:Hdid; [|done].
  destruct (negb _) eqn:Hone; [done|]. apply negb_false_iff, Nat.eqb_eq in Hone.
  destruct (existsb _ denied) eqn:Hden; [done|]. split; [done|]. exists did.
  destruct (filter _ proposals) as [|? [|]]; [done| |done].
  destruct (omap (addsDID did) proposals) as [|leaf' [|]] eqn:Hadds; [done| |done]. injection H as ->.
  assert (leaf ∈ omap (addsDID did) proposals) as (q & Hq & Hadd)%list_elem_of_omap by (rewrite Hadds; by left).
  unfold addsDID in Hadd. destruct (pw_proposal q) as [leaf'| | | | | | |] eqn:Hprop; try done.
  case_bool_decide as Hd; [|done]. injection Hadd as ->. exists q. split_and!; try done.
  intros set held Hset Hheld Heq. rewrite <- not_true_iff_false in Hden. apply Hden.
  apply existsb_exists. exists set. split; [by apply list_elem_of_In|].
  apply existsb_exists. exists held. split; [by apply list_elem_of_In, elem_of_elements|]. by apply bool_decide_eq_true_2.
Qed.

Lemma checkRemove_replaced gate sender proposals p target leaf :
  checkRemove gate true sender proposals p target = Ok tt ->
  replacementFor gate true sender proposals (removeAuthorised gate true sender p target) target = Some leaf ->
  ∃ old, leafAt (lg_before gate) target = Some old ∧
    leafReplaced (lg_group gate) (lg_registry gate) sender proposals target old.
Proof.
  unfold checkRemove. intros H Hrep. rewrite Hrep in H. unfold replacementFor in Hrep.
  destruct sender as [committer|]; [|done]. destruct (leafAt (lg_before gate) target) as [old|] eqn:Hold;
    [|by destruct (absent (lg_controller gate)), (removeAuthorised _ _ _ _ _)].
  revert Hrep. destruct (_ || _ || _ || _); [done|]. intros Hrep.
  apply mbind_Ok in H as ([] & H & _). apply mbind_Ok in H as ([] & _ & Hnew).
  apply mbind_Ok in Hnew as (next & Hnext & Hnew). apply mbind_Ok in Hnew as (previous & Hprev & Hnew).
  apply throwIf_Ok in Hnew. destruct next as [next|], previous as [previous|]; try done.
  destruct (stalePairedAdd_spec _ _ _ _ _ _ _ Hold Hrep) as (Hne & did & q & Hdid & Hq & Hadd & Hleaf & Hone & Hden).
  exists old. split; [done|]. exists committer, q, leaf, did, next, previous. split_and!; try done.
  intros held [Hin|Hin]%elem_of_union; eapply Hden; [|exact Hin| |exact Hin]; set_solver.
Qed.

(** The leaf's own member comes back in its place, by the external commit: the same identity and key. *)
Definition leafReturns (externalLeaf : option Leaf) (old : Leaf) : Prop :=
  ∃ leaf parsed held, externalLeaf = Some leaf ∧ identity leaf = Ok parsed ∧ identity old = Ok held ∧
    ci_id parsed = ci_id held ∧ ci_longForm parsed = ci_longForm held ∧
    bytesEqual (lf_signaturePublicKey leaf) (lf_signaturePublicKey old) = true.

Lemma checkReplacement_same g parsed leaf old :
  checkReplacement g parsed leaf old = Ok tt ->
  ∃ held, identity old = Ok held ∧ ci_id parsed = ci_id held ∧ ci_longForm parsed = ci_longForm held ∧
    bytesEqual (lf_signaturePublicKey leaf) (lf_signaturePublicKey old) = true.
Proof.
  unfold checkReplacement. intros H. apply mbind_Ok in H as (held & Hheld & H). cbn zeta in H.
  apply mbind_Ok in H as ([] & Hsame%throwIf_Ok & _). rewrite !orb_false_iff, !negb_false_iff in Hsame.
  destruct Hsame as [[[Hid%bool_decide_eq_true Hlong%bool_decide_eq_true] Hkey] _]. by exists held.
Qed.

Lemma checkExternal_returns gate proposals p target :
  checkExternal gate true proposals = Ok tt -> p ∈ proposals -> pw_proposal p = Remove target ->
  ∃ old, leafAt (lg_before gate) target = Some old ∧ leafReturns (lg_externalLeaf gate) old.
Proof.
  unfold checkExternal. intros H Hp Hrem. destruct (lg_externalLeaf gate) as [leaf|]; [|done].
  assert (target ∈ omap removedOf proposals) as Hin
    by (apply list_elem_of_omap; exists p; split; [done|]; unfold removedOf; by rewrite Hrem).
  destruct (omap removedOf proposals) as [|removed [|]]; [done| |done].
  apply list_elem_of_singleton in Hin as <-. revert H. destruct (_ || _); [done|].
  destruct (leafAt (lg_before gate) target) as [old|]; [|done]. intros H. exists old. split; [done|].
  apply mbind_Ok in H as ([] & Hentry & _). unfold checkEntry in Hentry. apply mbind_Ok in Hentry as ([] & Hentry & _).
  unfold checkBinding in Hentry. apply mbind_Ok in Hentry as (parsed & Hid & H).
  apply mbind_Ok in H as ([] & _ & H). apply mbind_Ok in H as ([] & Hsame & _).
  apply checkReplacement_same in Hsame as (held & ? & ? & ? & ?). by exists leaf, parsed, held.
Qed.

(** What lets a leaf be removed. *)
Inductive removable (g : GroupHandle) (controller : string) (externalLeaf : option Leaf) (entries : list (VerifiedLedgerEntry json))
    (registry : DeviceRegistry) (sender : option nat) (proposals : list ProposalWithSender)
    (p : ProposalWithSender) (target : nat) (old : Leaf) : Prop :=
  | by_proof : provenRemovals g entries (.∈ omap removedOf proposals) ->
               (∃ s, sender = Some s ∧ s ∉ omap removedOf proposals) ->
               removable g controller externalLeaf entries registry sender proposals p target old
  | by_lapse : leafLapsed g controller old ->
               removable g controller externalLeaf entries registry sender proposals p target old
  | by_itself : pw_sender p = Some target -> sender ≠ Some target ->
                removable g controller externalLeaf entries registry sender proposals p target old
  | by_replacement : leafReplaced g registry sender proposals target old ->
                     removable g controller externalLeaf entries registry sender proposals p target old
  | by_return : leafReturns externalLeaf old ->
                removable g controller externalLeaf entries registry sender proposals p target old.

(** C11. In a group with a controller a commit removes a member's leaf only for a reason the gate can see.
    Either the commit enacts one proof, and then it removes exactly the leaves that proof takes down, none of
    them the committer's. Or the leaf outlived its grant by the time the tree itself attests. Or its member
    proposed to leave and another commits it. Or the same commit, by another member, brings the device back
    in a leaf whose grant was issued strictly later, when the leaf removed was the device's only one and the
    device is not denied before or after. Or an external commit of the member itself puts a leaf of the same
    identity and key in its place. Nothing else removes anyone. *)
Theorem removals_have_grounds g externalLeaf entries registry context controller gate sender proposals :
  ga_controller (gh_anchor g) = Some controller ->
  prepareLifecycleGate g externalLeaf entries registry context = Ok gate ->
  gateCheck gate (CommitMessage sender proposals) = Ok tt ->
  ∀ p target, p ∈ proposals -> pw_proposal p = Remove target ->
  ∃ old, leafAt (treeOf g) target = Some old ∧
    removable g controller externalLeaf entries registry sender proposals p target old.
Proof.
  intros Hc Hprep Hcheck p target Hp Hrem.
  destruct (prepare_controlled _ _ _ _ _ _ _ Hc Hprep) as (lapsed & applied & Hgate & _ & Htime & Hlapsed & _ & _).
  assert (lg_group gate = g ∧ lg_registry gate = registry ∧ lg_lapsed gate = lapsed ∧ lg_externalLeaf gate = externalLeaf)
    as (Hg & Hr & Hl & He) by (by rewrite Hgate).
  unfold gateCheck in Hcheck. cbn [incomingProposals] in Hcheck. apply mbind_Ok in Hcheck as ([] & _ & Hcheck).
  destruct (existsb _ proposals).
  { destruct (checkExternal_returns _ _ _ _ Hcheck Hp Hrem) as (old & Hold & Hret). unfold lg_before in Hold.
    rewrite Hg in Hold. rewrite He in Hret. exists old. split; [done|by apply by_return]. }
  apply mbind_Ok in Hcheck as ([] & Hproof & Hcheck).
  apply mbind_Ok in Hcheck as (tree & Hfold & _).
  destruct (foldM_steps _ _ _ _ Hfold p Hp) as (t & t' & Hstep). unfold checkProposal in Hstep. rewrite Hrem in Hstep.
  apply mbind_Ok in Hstep as ([] & Hremove & _).
  assert (lg_controller gate = Some controller) as Hcon by (unfold lg_controller; by rewrite Hg).
  destruct (replacementFor gate true sender proposals (removeAuthorised gate true sender p target) target) as [leaf|] eqn:Hrep.
  { destruct (checkRemove_replaced _ _ _ _ _ _ Hremove Hrep) as (old & Hold & Hin).
    unfold lg_before in Hold. rewrite Hg in Hold, Hin. rewrite Hr in Hin. exists old. split; [done|by apply by_replacement]. }
  unfold checkRemove in Hremove. rewrite Hrep, Hcon in Hremove. cbn [absent negb andb mbind result_bind] in Hremove.
  passed Hremove. unfold lg_before in Hremove. rewrite Hg in Hremove.
  destruct (leafAt (treeOf g) target) as [old|] eqn:Hold; [|done]. exists old. split; [done|].
  cbn [absent orb] in Hremove. rewrite orb_false_r in Hremove. apply negb_false_iff in Hremove.
  unfold removeAuthorised in Hremove. rewrite !orb_true_iff in Hremove.
  destruct Hremove as [[Hproofs|Hlap%bool_decide_eq_true]|Hself].
  - destruct (proofRemoves_exact _ _ _ _ Hcon Hproofs Hproof) as [Hexact (s & -> & Hs)].
    destruct (expected_proven _ _ _ _ _ _ _ Hc Hprep Hproofs) as (v & value & r & effects & Hv & Hop & Hver & Hiff).
    apply by_proof; [|exists s; split; [done|by rewrite Hexact]].
    exists v, value, r, effects. split_and!; [done..|]. intros i. by rewrite Hexact.
  - rewrite Hl in Hlap. destruct (lapsed_spec _ _ _ _ _ _ _ Hlapsed Hlap) as [[]%elem_of_empty|(leaf & e & Hleaf & Hexp & Hlt)].
    rewrite Hold in Hleaf. injection Hleaf as <-. apply by_lapse. by exists (lg_beforeTime gate), e.
  - unfold selfRemoval in Hself. apply andb_true_iff in Hself as [Hs%bool_decide_eq_true Hne].
    cbn [negb orb] in Hne. apply negb_true_iff, bool_decide_eq_false in Hne. by apply by_itself.
Qed.

(** ** A commit through the whole of [processMessage] *)

Section received.
Context (sha256 : bytes -> bytes) (verifyEntryToken : string -> option (string * json))
        (ledgerEntryDigest : string -> string) (resolveLedgerEntries : option (list string -> list string))
        (callerPolicy : option (IncomingMessage -> IncomingMessageAction))
        (mls : MlsState -> Frame -> option MlsOutcome).

(** The handle's parameters, with the lifecycle as it is. *)
Abbreviation PREPARE := (prepareCommitPipeline normalizeDID isControllerLog lifecycleApply parseJSON verifyEntryToken
  ledgerEntryDigest verifyManagementCapability resolveLedgerEntries).
Abbreviation PROCESS := (processMessage normalizeDID isControllerLog lifecycleApply parseJSON sha256 verifyEntryToken
  ledgerEntryDigest verifyManagementCapability resolveLedgerEntries lifecycleGate lifecyclePostApply callerPolicy
  mayReadmitResetDevice mls).

Definition isStandalone (frame : Frame) : bool := match frame with StandaloneProposal _ _ => true | _ => false end.

(** A message that was taken in passed the preparation and both halves of the gate. *)
Lemma processed_gate g frame persist g' n outcome :
  isStandalone frame = false -> PROCESS g frame persist = (g', Ok n) -> mls (gh_state g) frame = Some outcome ->
  ∃ p context gate, PREPARE g frame = Ok p ∧ gh_state g' = mo_state outcome ∧
    gh_ledger g' = gh_ledger g ++ cp_acceptedEntries p ∧
    prepareLifecycleGate g (pathLeafOf frame) (map verifiedOf (cp_acceptedEntries p)) (cp_candidateRegistry p) context = Ok gate ∧
    gateCheck gate (mo_incoming outcome) = Ok tt ∧ gatePostApply gate (mo_incoming outcome) (mo_state outcome) = Ok tt.
Proof.
  intros Hframe Hproc Hmls. unfold processMessage in Hproc.
  assert ((match frame with StandaloneProposal epoch _ => epoch <? ml_epoch (gh_state g) | _ => false end)%Z = false)
    as Hearly by (by destruct frame). rewrite Hearly in Hproc.
  destruct (PREPARE g frame) as [p|] eqn:Hprep; [|done]. rewrite Hmls in Hproc.
  destruct (combined _ _ _ _ _ g (pathLeafOf frame) p (mo_incoming outcome)) eqn:Hcomb; [|done].
  unfold combined in Hcomb. destruct (cp_precomputedReject p); [done|].
  destruct (lifecycleGate _ _ _ _ _ _) eqn:Hgate; [|done]. clear Hcomb.
  destruct (lifecyclePostApply _ _ _ _ _ _ _) eqn:Hpost; [|done]. cbn [negb] in Hproc.
  apply is_ok_Ok in Hgate as ([] & Hgate). apply mbind_Ok in Hgate as (gate & Hprepare & Hcheck).
  apply is_ok_Ok in Hpost as ([] & Hpost). rewrite Hprepare in Hpost. cbn [mbind result_bind] in Hpost.
  eexists p, _, gate. split_and!; [done|..|exact Hprepare|done|done];
    (destruct persist as [store|]; [destruct (store _); [|done]|]; by injection Hproc as <- _).
Qed.

(** C12. What a group with a controller is left with when it takes in a commit. Every leaf of the new tree
    stands under the registry the commit yields: it is bound to the group's controller by a prefix that
    reaches the recorded generation, its device is not denied, its authority is not removed, and a denied
    issuer is kept only by a child with evidence of its own whose leaf did not change. The time the tree
    attests has not gone back. The history the tree and the ledger hold is within its horizon, or has not
    grown. *)
Theorem accepted_commit_stands controller g frame persist g' n sender proposals state :
  ga_controller (gh_anchor g) = Some controller ->
  isStandalone frame = false ->
  mls (gh_state g) frame = Some (mkOutcome (CommitMessage sender proposals) state) ->
  ml_removedFromGroup state = false ->
  PROCESS g frame persist = (g', Ok n) ->
  ∃ p, PREPARE g frame = Ok p ∧ treeOf g' = ml_tree state ∧
    (∀ position leaf, (position, leaf) ∈ leavesOf (treeOf g') ->
       stands g controller (cp_candidateRegistry p) position leaf) ∧
    (∃ before after, treeTime g controller (gh_registry g) = Ok before ∧
       attestedTreeTime (treeOf g') (cp_candidateRegistry p) controller = Ok after ∧ nlt after before = false) ∧
    (∃ before after, historySize (treeOf g) (ledgerOf g) = Ok before ∧ historySize (treeOf g') (ledgerOf g') = Ok after ∧
       (after <= HISTORY_HORIZON ∨ after <= before)%Z).
Proof.
  intros Hc Hframe Hmls Hin Hproc.
  destruct (processed_gate _ _ _ _ _ _ Hframe Hproc Hmls) as (p & context & gate & Hp & Hstate & Hledger & Hprep & _ & Hpost).
  cbn [mo_state mo_incoming] in *. destruct (postApply_checks _ _ _ _ Hin Hpost) as (Htime & Hsize & Hsurv).
  destruct (prepare_controlled _ _ _ _ _ _ _ Hc Hprep) as (lapsed & applied & Hgate & Hsize0 & Htime0 & _).
  assert (lg_group gate = g ∧ lg_registry gate = cp_candidateRegistry p ∧
          lg_entries gate = map verifiedOf (cp_acceptedEntries p)) as (Hg & Hr & He) by (by rewrite Hgate).
  assert (lg_controller gate = Some controller) as Hcon by (unfold lg_controller; by rewrite Hg).
  destruct (checkTime_kept _ _ _ Hcon Htime) as (after & Hafter & Hlt).
  destruct (checkSize_kept _ _ _ Hcon Hsize) as (size & Hsize1 & Hle).
  unfold lg_before in Hsurv. rewrite Hg, Hr in Hsurv. rewrite Hr in Hafter. rewrite Hg, He in Hsize1.
  assert (treeOf g' = ml_tree state) as -> by (unfold treeOf; by rewrite Hstate).
  assert (ledgerOf g' = ledgerOf g ++ map verifiedOf (cp_acceptedEntries p)) as -> by (unfold ledgerOf; by rewrite Hledger, map_app).
  exists p. split_and!; [done..| | |].
  - by apply checkSurvivors_stand.
  - by exists (lg_beforeTime gate), after.
  - by exists (lg_beforeSize gate), size.
Qed.
End received.
End gate.

(** ** At the small group *)

#[local] Existing Instance demoLib.
#[local] Existing Instance demoTokens.

(** Bob's commit removes Alice's leaf, because it lapsed. *)
Lemma removals_have_grounds_witness :
  ∃ old, leafAt (treeOf demo_lifecycle_group) 0 = Some old ∧
    removable demo_lifecycle_group demo_controller None [] registrySeed (Some 1) demo_removal (mkProposal (Remove 0) None) 0 old.
Proof.
  apply (removals_have_grounds demo_lifecycle_group None [] registrySeed demo_policy_context demo_controller demo_gate
    (Some 1) demo_removal); [reflexivity|vm_compute; reflexivity|vm_compute; reflexivity|by left|reflexivity].
Defined.

(** The commit is taken in, and Bob's leaf, which is left, stands. *)
Lemma accepted_commit_stands_witness :
  ∃ p leaf, leavesOf (treeOf demo_processed.1) = [(2, leaf)] ∧
    stands demo_lifecycle_group demo_controller (cp_candidateRegistry p) 2 leaf.
Proof.
  destruct (accepted_commit_stands (fun x => x) (fun _ => None) (fun t => t) None None demo_received demo_controller
    demo_lifecycle_group demo_commit None demo_processed.1 (mkNotification [] []) (Some 1) demo_removal demo_after)
    as (p & _ & _ & Hstand & _); [reflexivity|reflexivity|reflexivity|reflexivity|vm_compute; reflexivity|].
  exists p, demo_bob. split; [vm_compute; reflexivity|]. apply Hstand. vm_compute. by left.
Defined.
