(* ===== verification/AppOutbox.v ===== *)
(** * The app outbox

    packages/rpc/src/app-outbox.ts: how an application entry is accepted for delivery. A call to
    [accept] spans several turns of the event loop (it may wait for the durable inventory, and it waits
    for its own write), so the component is a state and one function per turn; calls are numbered by
    their caller. *)

From S2P Require Import Prelude HubProtocol.

Definition MAX_APP_ENTRY_BYTES : nat := Z.to_nat 524288.

Record Attempt := mkAttempt { at_epoch : Z; at_floor : option string; at_attempts : nat }.

Record AppOutboxEntry := mkEntry {
  ae_seq : nat;
  ae_protocol : string;
  ae_prc : string;
  ae_data : bytes;
  ae_lastAttempt : option Attempt;
}.

Record Input := mkInput { in_protocol : string; in_prc : string; in_data : bytes }.

Inductive AcceptError :=
  | PeerDisposedError
  | PeerRemovedError
  | SendNotAdmissibleError
  | AppEntryTooLargeError
  | AppOutboxFullError
  | PutError.

#[export] Instance AcceptError_eq_dec : EqDecision AcceptError.
Proof. solve_decision. Defined.

(** The queue of one peer. [q_waiters] are the calls that await [ready], oldest first; [q_pending] are
    the reservations, oldest first, each with the call that made it and the entry it is writing. *)
Record Acceptance := mkAcceptance {
  q_limit : nat;
  q_accepted : gmap nat AppOutboxEntry;
  q_pending : list (nat * (nat * AppOutboxEntry));
  q_nextSeq : nat;
  q_listed : bool;
  q_waiters : list (nat * Input);
  q_closed : bool;
  q_stopped : bool;
}.

Definition createAppOutboxAcceptance (limit : nat) : Acceptance := mkAcceptance limit ∅ [] 0 false [] false false.

(** The host's durable outbox. *)
Abbreviation Durable := (gmap nat AppOutboxEntry).

(** [load]: the durable inventory arrived. A failed listing is retried and changes nothing. *)
Definition load (inventory : list AppOutboxEntry) (q : Acceptance) : Acceptance :=
  if q_closed q then q
  else mkAcceptance (q_limit q)
    (foldl (fun accepted entry => <[ae_seq entry := entry]> accepted) (q_accepted q) inventory)
    (q_pending q)
    (foldl (fun next entry => Nat.max next (ae_seq entry + 1)) (q_nextSeq q) inventory)
    true (q_waiters q) (q_closed q) (q_stopped q).

(** [ready] has resolved: the inventory is listed, or the queue was closed. *)
Definition isReady (q : Acceptance) : bool := q_listed q || q_closed q.

Definition withPending (pending : list (nat * (nat * AppOutboxEntry))) (nextSeq : nat) (q : Acceptance) : Acceptance :=
  mkAcceptance (q_limit q) (q_accepted q) pending nextSeq (q_listed q) (q_waiters q) (q_closed q) (q_stopped q).

Definition withWaiters (waiters : list (nat * Input)) (q : Acceptance) : Acceptance :=
  mkAcceptance (q_limit q) (q_accepted q) (q_pending q) (q_nextSeq q) (q_listed q) waiters (q_closed q) (q_stopped q).

Definition withAccepted (accepted : gmap nat AppOutboxEntry) (q : Acceptance) : Acceptance :=
  mkAcceptance (q_limit q) accepted (q_pending q) (q_nextSeq q) (q_listed q) (q_waiters q) (q_closed q) (q_stopped q).

(** The part of [accept] after the wait, up to the write it starts. *)
Definition admitCall (admissible : bool) (call : nat) (input : Input) (q : Acceptance) :
    Acceptance * option AcceptError :=
  if q_closed q then (q, Some PeerDisposedError)
  else if q_stopped q then (q, Some PeerRemovedError)
  else if negb admissible then (q, Some SendNotAdmissibleError)
  else if (MAX_APP_ENTRY_BYTES <? length (in_data input))%nat then (q, Some AppEntryTooLargeError)
  else if (q_limit q <=? size (q_accepted q) + length (q_pending q))%nat then (q, Some AppOutboxFullError)
  else
    let seq := q_nextSeq q in
    let entry := mkEntry seq (in_protocol input) (in_prc input) (in_data input) None in
    (withPending (q_pending q ++ [(seq, (call, entry))]) (S seq) q, None).

(** A call of [accept]: it joins the waiters when the inventory is not listed or others wait. *)
Definition accept (admissible : bool) (call : nat) (input : Input) (q : Acceptance) :
    Acceptance * option AcceptError :=
  if negb (q_listed q) || (0 <? length (q_waiters q))%nat
  then (withWaiters (q_waiters q ++ [(call, input)]) q, None)
  else admitCall admissible call input q.

(** The oldest waiter resumes, once [ready] has resolved. *)
Definition resumeWaiter (admissible : bool) (q : Acceptance) : Acceptance * option (nat * option AcceptError) :=
  match q_waiters q with
  | (call, input) :: rest =>
    if isReady q
    then let '(q, error) := admitCall admissible call input (withWaiters rest q) in (q, Some (call, error))
    else (q, None)
  | [] => (q, None)
  end.

(** The write of a reservation settled. *)
Definition settlePut (seq : nat) (stored : bool) (q : Acceptance) : Acceptance * option (nat * option AcceptError) :=
  match jm_get seq (q_pending q) with
  | None => (q, None)
  | Some (call, entry) =>
    let q := if stored then withAccepted (<[seq := entry]> (q_accepted q)) q else q in
    (withPending (jm_delete seq (q_pending q)) (q_nextSeq q) q,
     Some (call, if stored then None else Some PutError))
  end.

Definition seqOrder (a b : AppOutboxEntry) : Prop := ae_seq a ≤ ae_seq b.

#[export] Instance seqOrder_dec a b : Decision (seqOrder a b).
Proof. unfold seqOrder. apply _. Defined.

(** [entries]: ascending sequence order. *)
Definition entries (q : Acceptance) : list AppOutboxEntry :=
  merge_sort seqOrder (map snd (map_to_list (q_accepted q))).

Definition lowestUnresolvedSeq (q : Acceptance) : option nat := fst <$> head (q_pending q).

Definition replace (entry : AppOutboxEntry) (q : Acceptance) : Acceptance :=
  withAccepted (<[ae_seq entry := entry]> (q_accepted q)) q.

Definition remove (seq : nat) (q : Acceptance) : Acceptance := withAccepted (delete seq (q_accepted q)) q.

Definition clear (q : Acceptance) : Acceptance := withAccepted ∅ q.

Definition stop (q : Acceptance) : Acceptance :=
  mkAcceptance (q_limit q) (q_accepted q) (q_pending q) (q_nextSeq q) (q_listed q) (q_waiters q) (q_closed q) true.

Definition close (q : Acceptance) : Acceptance :=
  mkAcceptance (q_limit q) (q_accepted q) (q_pending q) (q_nextSeq q) (q_listed q) (q_waiters q) true (q_stopped q).
