(* ===== verification/LogDelivery.v ===== *)
(** * Delivering the outbox to the hub log

    packages/rpc/src/log-delivery.ts: the single worker that publishes accepted entries in order and
    removes them once nothing can have overtaken them. A pass is a sequence of turns separated by its
    awaits; everything else in the peer (new entries, walks of the commit log, a change of epoch,
    removal from the group) runs between two turns. So the worker is a machine whose [pc] is the await
    it is at, [resume] the turn that follows, and [step] interleaves it with the environment. When a
    pass is scheduled (timers and backoff) is left open: a pass may start whenever none is active. *)

From S2P Require Import Prelude HubProtocol AppOutbox CommitWalk.

(** ** State *)

Record Publication := mkPublication { pu_epoch : Z; pu_floor : option string; pu_acknowledged : nat }.

(** A delivered entry is an object of its own; the sequence number it was removed under identifies it. *)
Record Delivered := mkDelivered {
  de_seq : nat;
  de_protocol : string;
  de_prc : string;
  de_data : bytes;
  de_epoch : Z;
  de_at : Z;
}.

(** A sealed frame, by the floor snapshot its admission was checked against. *)
Record SealedLogFrame := mkSealed { sf_floor : EpochFloor; sf_payload : bytes }.

(** Where a pass resumes after the durable removals at its start or at its end. *)
Inductive RemovalPhase := Leading | Trailing.

(** The await a pass is at. An entry's turn carries the entry of the loop's snapshot, the rest of the
    snapshot and the count of entries taken so far. *)
Inductive Pc :=
  | Idle
  | AwaitReady
  | AwaitClear (seqs : list nat)
  | AwaitRemove (seq : nat) (phase : RemovalPhase)
  | AwaitResendSeal
  | AwaitResendPublish
  | AwaitProbe (entry : AppOutboxEntry) (rest : list AppOutboxEntry) (count : nat)
  | AwaitPull (entry : AppOutboxEntry) (rest : list AppOutboxEntry) (count : nat)
  | AwaitSeal (entry : AppOutboxEntry) (rest : list AppOutboxEntry) (count : nat) (since : Z)
  | AwaitPut (updated : AppOutboxEntry) (frame : SealedLogFrame) (rest : list AppOutboxEntry) (count : nat)
  | AwaitPublish (seq : nat) (frame : SealedLogFrame) (rest : list AppOutboxEntry) (count : nat)
  | AwaitLastProbe
  | AwaitLastPull
  | AwaitHeal.

(** What can be seen of the worker from outside, oldest first. *)
Inductive Observed :=
  | Accepted (entry : AppOutboxEntry)
  | Submitted (seq : nat) (epoch : Z)
  | Resubmitted (epoch : Z)
  | Acknowledged (seq : nat) (epoch : Z) (floor : option string) (acknowledged : nat)
  | Certified (epoch : Z) (started : nat)
  | ProbedHead (head : option string)
  | RemovedDurably (seq : nat)
  | Cleared (seqs : list nat).

Record World := mkWorld {
  w_queue : Acceptance;
  w_durable : Durable;
  w_floor : EpochFloor;
  w_held : bool;
  w_refuses : bool;
  w_now : Z;
  w_publications : list (nat * Publication);
  w_proven : list nat;
  w_delivered : list Delivered;
  w_resend : list Delivered;
  w_acknowledgements : nat;
  w_removed : bool;
  w_closed : bool;
  w_immediate : bool;
  w_pc : Pc;
  w_trace : list Observed;
}.

(** The answer an await settles with. *)
Inductive Reply :=
  | Done
  | Throw
  | Probed (head : option string)
  | Sealed (frame : SealedLogFrame).

Section setters.
Context (w : World).

Definition setQueue (q : Acceptance) : World :=
  mkWorld q (w_durable w) (w_floor w) (w_held w) (w_refuses w) (w_now w) (w_publications w) (w_proven w) (w_delivered w)
    (w_resend w) (w_acknowledgements w) (w_removed w) (w_closed w) (w_immediate w) (w_pc w) (w_trace w).
Definition setDurable (d : Durable) : World :=
  mkWorld (w_queue w) d (w_floor w) (w_held w) (w_refuses w) (w_now w) (w_publications w) (w_proven w) (w_delivered w)
    (w_resend w) (w_acknowledgements w) (w_removed w) (w_closed w) (w_immediate w) (w_pc w) (w_trace w).
Definition setEvidence (publications : list (nat * Publication)) (proven : list nat) : World :=
  mkWorld (w_queue w) (w_durable w) (w_floor w) (w_held w) (w_refuses w) (w_now w) publications proven (w_delivered w)
    (w_resend w) (w_acknowledgements w) (w_removed w) (w_closed w) (w_immediate w) (w_pc w) (w_trace w).
Definition setDelivered (delivered resend : list Delivered) : World :=
  mkWorld (w_queue w) (w_durable w) (w_floor w) (w_held w) (w_refuses w) (w_now w) (w_publications w) (w_proven w) delivered
    resend (w_acknowledgements w) (w_removed w) (w_closed w) (w_immediate w) (w_pc w) (w_trace w).
Definition setAcknowledgements (n : nat) : World :=
  mkWorld (w_queue w) (w_durable w) (w_floor w) (w_held w) (w_refuses w) (w_now w) (w_publications w) (w_proven w) (w_delivered w)
    (w_resend w) n (w_removed w) (w_closed w) (w_immediate w) (w_pc w) (w_trace w).
Definition setImmediate (immediate : bool) : World :=
  mkWorld (w_queue w) (w_durable w) (w_floor w) (w_held w) (w_refuses w) (w_now w) (w_publications w) (w_proven w) (w_delivered w)
    (w_resend w) (w_acknowledgements w) (w_removed w) (w_closed w) immediate (w_pc w) (w_trace w).
Definition setEnvironment (floor : EpochFloor) (held refuses : bool) (now : Z) : World :=
  mkWorld (w_queue w) (w_durable w) floor held refuses now (w_publications w) (w_proven w) (w_delivered w)
    (w_resend w) (w_acknowledgements w) (w_removed w) (w_closed w) (w_immediate w) (w_pc w) (w_trace w).
Definition setFlags (removed closed : bool) : World :=
  mkWorld (w_queue w) (w_durable w) (w_floor w) (w_held w) (w_refuses w) (w_now w) (w_publications w) (w_proven w) (w_delivered w)
    (w_resend w) (w_acknowledgements w) removed closed (w_immediate w) (w_pc w) (w_trace w).
Definition goto (pc : Pc) : World :=
  mkWorld (w_queue w) (w_durable w) (w_floor w) (w_held w) (w_refuses w) (w_now w) (w_publications w) (w_proven w) (w_delivered w)
    (w_resend w) (w_acknowledgements w) (w_removed w) (w_closed w) (w_immediate w) pc (w_trace w).
Definition observe (o : Observed) : World :=
  mkWorld (w_queue w) (w_durable w) (w_floor w) (w_held w) (w_refuses w) (w_now w) (w_publications w) (w_proven w) (w_delivered w)
    (w_resend w) (w_acknowledgements w) (w_removed w) (w_closed w) (w_immediate w) (w_pc w) (w_trace w ++ [o]).
End setters.

Definition headPastFloor (head : option string) (floor : EpochFloor) : bool :=
  match head with
  | None => false
  | Some head => match ef_position floor with None => true | Some position => bool_decide (position <ₛ head) end
  end.

Definition publicationEpoch (w : World) (seq : nat) : option Z := pu_epoch <$> jm_get seq (w_publications w).

Definition isProven (w : World) (seq : nat) : bool := bool_decide (seq ∈ w_proven w).

(** [proven.add]: a set keeps the place of a member. *)
Definition addProven (seq : nat) (proven : list nat) : list nat :=
  if bool_decide (seq ∈ proven) then proven else proven ++ [seq].

(** Is an earlier entry of the queue neither proven nor published at this epoch? *)
Definition needsEarlierPublication (w : World) (seq : nat) (epoch : Z) : bool :=
  existsb (fun earlier => bool_decide (ae_seq earlier < seq) && negb (isProven w (ae_seq earlier)) &&
                          negb (bool_decide (publicationEpoch w (ae_seq earlier) = Some epoch)))
    (entries (w_queue w)).

#[export] Instance Delivered_eq_dec : EqDecision Delivered.
Proof. solve_decision. Defined.

Section worker.
Context (deliveredWindowMs : Z) (deliveredLimit : nat).

(** [pruneDelivered]: entries leave from the front while the first is too old or there are too many. *)
Fixpoint pruneDelivered (now : Z) (delivered : list Delivered) : list Delivered :=
  match delivered with
  | [] => []
  | first :: rest =>
    if (de_at first <? now - deliveredWindowMs)%Z || (deliveredLimit <? length delivered)%nat
    then pruneDelivered now rest else delivered
  end.

Definition keepDelivered (seq : nat) (w : World) : World :=
  match q_accepted (w_queue w) !! seq, publicationEpoch w seq with
  | Some entry, Some epoch =>
    setDelivered w (pruneDelivered (w_now w)
      (w_delivered w ++ [mkDelivered seq (ae_protocol entry) (ae_prc entry) (ae_data entry) epoch (w_now w)])) (w_resend w)
  | _, _ => w
  end.

(** [certify]: a walk of the log that started after the acknowledgement reached its end. *)
Definition certify (epoch : Z) (started : nat) (w : World) : World :=
  setEvidence w (w_publications w)
    (foldl (fun proven p => if bool_decide (pu_epoch p.2 = epoch) && (pu_acknowledged p.2 <=? started)%nat
                            then addProven p.1 proven else proven) (w_proven w) (w_publications w)).

(** ** The turns of a pass, last first *)

(** The pass ends, normally or by an error. *)
Definition finish (w : World) : World := goto w Idle.

(** The loop of the entries, from the top of an iteration. *)
Fixpoint entryLoop (rest : list AppOutboxEntry) (count : nat) (w : World) : World :=
  match rest with
  | [] => goto w AwaitLastProbe
  | entry :: rest =>
    if w_closed w then finish w
    else if match lowestUnresolvedSeq (w_queue w) with
            | Some fence => (fence <=? ae_seq entry)%nat
            | None => false
            end then finish w
    else if (count =? 64)%nat then goto (setImmediate w true) AwaitLastProbe
    else if isProven w (ae_seq entry) then entryLoop rest (S count) w
    else goto w (AwaitProbe entry rest (S count))
  end.

Definition startEntries (w : World) : World :=
  match entries (w_queue w) with
  | [] => finish w
  | queued => entryLoop queued 0 w
  end.

Definition resendLoop (w : World) : World :=
  match w_resend w with
  | [] => startEntries w
  | _ :: _ => if w_closed w || w_held w then finish w else goto w AwaitResendSeal
  end.

(** [removeProven], at the top of its loop. *)
Definition removeProven (phase : RemovalPhase) (w : World) : World :=
  match w_proven w with
  | seq :: _ => goto w (AwaitRemove seq phase)
  | [] => match phase with Leading => resendLoop w | Trailing => finish w end
  end.

Definition afterRemove (seq : nat) (phase : RemovalPhase) (w : World) : World :=
  let w := observe (setDurable w (delete seq (w_durable w))) (RemovedDurably seq) in
  let w := keepDelivered seq w in
  let w := setQueue w (remove seq (w_queue w)) in
  let w := setEvidence w (jm_delete seq (w_publications w)) (filter (fun s => s ≠ seq) (w_proven w)) in
  if w_closed w then finish w else removeProven phase w.

Definition afterReady (w : World) : World :=
  if w_closed w then finish w
  else if w_removed w then
    match lowestUnresolvedSeq (w_queue w) with
    | Some _ => finish w
    | None =>
      match map ae_seq (entries (w_queue w)) with
      | [] => finish w
      | seqs => goto w (AwaitClear seqs)
      end
    end
  else removeProven Leading w.

Definition afterClear (seqs : list nat) (w : World) : World :=
  finish (setEvidence (setQueue (observe (setDurable w ∅) (Cleared seqs)) (clear (w_queue w))) [] []).

Definition afterResendSeal (frame : SealedLogFrame) (w : World) : World :=
  if w_closed w || w_held w then finish w
  else if w_refuses w then finish w
  else goto (observe w (Resubmitted (ef_epoch (sf_floor frame)))) AwaitResendPublish.

Definition afterPull (entry : AppOutboxEntry) (rest : list AppOutboxEntry) (count : nat) (w : World) : World :=
  if w_closed w || w_removed w
  then finish (setImmediate w (w_removed w && match lowestUnresolvedSeq (w_queue w) with None => true | Some _ => false end))
  else if w_held w then finish w
  else if bool_decide (publicationEpoch w (ae_seq entry) = Some (ef_epoch (w_floor w))) then entryLoop rest count w
  else goto w (AwaitSeal entry rest count (ef_epoch (w_floor w))).

Definition afterProbe (entry : AppOutboxEntry) (rest : list AppOutboxEntry) (count : nat) (head : option string)
    (w : World) : World :=
  let w := observe w (ProbedHead head) in
  if headPastFloor head (w_floor w) then goto w (AwaitPull entry rest count) else afterPull entry rest count w.

Definition afterSeal (entry : AppOutboxEntry) (rest : list AppOutboxEntry) (count : nat) (frame : SealedLogFrame)
    (w : World) : World :=
  if w_closed w || w_held w then finish w
  else if needsEarlierPublication w (ae_seq entry) (ef_epoch (sf_floor frame))
  then goto (setImmediate w true) AwaitLastProbe
  else
    let attempts := S (match ae_lastAttempt entry with Some a => at_attempts a | None => 0 end) in
    let updated := mkEntry (ae_seq entry) (ae_protocol entry) (ae_prc entry) (ae_data entry)
      (Some (mkAttempt (ef_epoch (sf_floor frame)) (ef_position (sf_floor frame)) attempts)) in
    goto w (AwaitPut updated frame rest count).

Definition afterPut (updated : AppOutboxEntry) (frame : SealedLogFrame) (rest : list AppOutboxEntry) (count : nat)
    (w : World) : World :=
  let w := setDurable w (<[ae_seq updated := updated]> (w_durable w)) in
  let w := setQueue w (replace updated (w_queue w)) in
  if w_closed w || w_held w then finish w
  else if needsEarlierPublication w (ae_seq updated) (ef_epoch (sf_floor frame))
  then goto (setImmediate w true) AwaitLastProbe
  else if w_refuses w then finish w
  else goto (observe w (Submitted (ae_seq updated) (ef_epoch (sf_floor frame))))
         (AwaitPublish (ae_seq updated) frame rest count).

Definition afterPublish (seq : nat) (frame : SealedLogFrame) (rest : list AppOutboxEntry) (count : nat) (w : World) :
    World :=
  if w_closed w then finish w
  else
    let n := S (w_acknowledgements w) in
    let epoch := ef_epoch (sf_floor frame) in
    let floor := ef_position (sf_floor frame) in
    let w := observe (setAcknowledgements w n) (Acknowledged seq epoch floor n) in
    let w := setEvidence w (jm_set seq (mkPublication epoch floor n) (w_publications w)) (w_proven w) in
    if bool_decide (ef_epoch (w_floor w) ≠ epoch) then goto (setImmediate w true) AwaitLastProbe
    else entryLoop rest count w.

Definition afterHeal (w : World) : World :=
  let w := if existsb (fun p => negb (bool_decide (pu_epoch p.2 = ef_epoch (w_floor w)))) (w_publications w)
           then setImmediate w true else w in
  removeProven Trailing w.

(** Is the head of the log no later than the floor an entry was sealed at? *)
Definition headWithin (head : option string) (floor : option string) : bool :=
  match head with
  | None => true
  | Some head => match floor with Some floor => bool_decide (head ≤ₛ floor) | None => false end
  end.

Definition afterLastProbe (head : option string) (w : World) : World :=
  let w := observe w (ProbedHead head) in
  if w_closed w then finish w
  else
    let w := setEvidence w (w_publications w)
      (foldl (fun proven p => if headWithin head (pu_floor p.2) then addProven p.1 proven else proven)
         (w_proven w) (w_publications w)) in
    if headPastFloor head (w_floor w) then goto w AwaitLastPull else afterHeal w.

Definition afterLastPull (w : World) : World :=
  if negb (ef_covered (w_floor w)) && negb (w_held w) && (0 <? length (w_publications w))%nat
  then goto w AwaitHeal else afterHeal w.

(** The turn an await resumes into. A rejection ends the pass; an answer of the wrong kind is no turn. *)
Definition resume (reply : Reply) (w : World) : option World :=
  match reply, w_pc w with
  | _, Idle => None
  | Throw, _ => Some (finish w)
  | Done, AwaitReady => Some (afterReady w)
  | Done, AwaitClear seqs => Some (afterClear seqs w)
  | Done, AwaitRemove seq phase => Some (afterRemove seq phase w)
  | Sealed frame, AwaitResendSeal => Some (afterResendSeal frame w)
  | Done, AwaitResendPublish => Some (resendLoop (setDelivered w (w_delivered w) (tail (w_resend w))))
  | Probed head, AwaitProbe entry rest count => Some (afterProbe entry rest count head w)
  | Done, AwaitPull entry rest count => Some (afterPull entry rest count w)
  | Sealed frame, AwaitSeal entry rest count _ => Some (afterSeal entry rest count frame w)
  | Done, AwaitPut updated frame rest count => Some (afterPut updated frame rest count w)
  | Done, AwaitPublish seq frame rest count => Some (afterPublish seq frame rest count w)
  | Probed head, AwaitLastProbe => Some (afterLastProbe head w)
  | Done, AwaitLastPull => Some (afterLastPull w)
  | Done, AwaitHeal => Some (afterHeal w)
  | _, _ => None
  end.

(** ** The environment *)

(** [rejoined]: delivered entries of the epochs a rejoined member could have missed go out again. *)
Definition rejoined (anchorEpoch : Z) (w : World) : World :=
  if w_closed w || w_removed w then w
  else
    let delivered := pruneDelivered (w_now w) (w_delivered w) in
    setDelivered w delivered
      (w_resend w ++ filter (fun entry => (anchorEpoch <= de_epoch entry)%Z ∧ entry ∉ w_resend w) delivered).

Definition removedFromGroup (w : World) : World :=
  setQueue (setFlags (setDelivered w [] []) true (w_closed w)) (stop (w_queue w)).

(** What can happen between two turns of the worker, and the worker's own turns. *)
Inductive Event :=
  | Load
  | Call (admissible : bool) (call : nat) (input : Input)
  | ResumeWaiter (admissible : bool)
  | SettlePut (seq : nat) (stored : bool)
  | CloseQueue
  | StartPass
  | Resume (reply : Reply)
  | Environment (floor : EpochFloor) (held refuses : bool) (now : Z)
  | Walked (epoch : Z) (started : nat)
  | MemberRejoined (anchorEpoch : Z)
  | LocallyRemoved
  | CloseDelivery.

(** The floor a seal reports was the floor at some moment since the call. *)
Definition sealedNow (w : World) (frame : SealedLogFrame) : bool :=
  (match w_pc w with AwaitSeal _ _ _ since => (since <=? ef_epoch (sf_floor frame))%Z | _ => true end) &&
  (ef_epoch (sf_floor frame) <=? ef_epoch (w_floor w))%Z.

(** [None]: the event cannot happen in this state. *)
Definition step (e : Event) (w : World) : option World :=
  match e with
  | Load =>
    if q_listed (w_queue w) then None
    else Some (setQueue w (load (map snd (map_to_list (w_durable w))) (w_queue w)))
  | Call admissible call input => Some (setQueue w (accept admissible call input (w_queue w)).1)
  | ResumeWaiter admissible => Some (setQueue w (resumeWaiter admissible (w_queue w)).1)
  | SettlePut seq stored =>
    match jm_get seq (q_pending (w_queue w)) with
    | None => None
    | Some (_, entry) =>
      let w := if stored then observe (setDurable w (<[seq := entry]> (w_durable w))) (Accepted entry) else w in
      Some (setQueue w (settlePut seq stored (w_queue w)).1)
    end
  | CloseQueue => Some (setQueue w (close (w_queue w)))
  | StartPass => match w_pc w with
                 | Idle => if w_closed w then None else Some (goto (setImmediate w false) AwaitReady)
                 | _ => None
                 end
  | Resume (Sealed frame) => if sealedNow w frame then resume (Sealed frame) w else None
  | Resume Done =>
    match w_pc w with
    | AwaitReady => if isReady (w_queue w) then resume Done w else None
    | _ => resume Done w
    end
  | Resume reply => resume reply w
  | Environment floor held refuses now =>
    if (ef_epoch (w_floor w) <=? ef_epoch floor)%Z && (w_now w <=? now)%Z
    then Some (setEnvironment w floor held refuses now) else None
  | Walked epoch started =>
    if (started <=? w_acknowledgements w)%nat && bool_decide (epoch = ef_epoch (w_floor w))
    then Some (observe (certify epoch started w) (Certified epoch started)) else None
  | MemberRejoined anchorEpoch => Some (rejoined anchorEpoch w)
  | LocallyRemoved => Some (removedFromGroup w)
  | CloseDelivery => Some (setFlags w (w_removed w) true)
  end.

Fixpoint run (events : list Event) (w : World) : option World :=
  match events with
  | [] => Some w
  | e :: events => match step e w with Some w => run events w | None => None end
  end.
End worker.

(** A worker over a durable outbox, created by a peer at a floor. *)
Definition createLogDelivery (limit : nat) (durable : Durable) (floor : EpochFloor) : World :=
  mkWorld (createAppOutboxAcceptance limit) durable floor false false 0 [] [] [] [] 0 false false false Idle [].
