(* ===== verification/LogDeliverySpec.v ===== *)
(** * What log delivery guarantees

    Theorems about LogDelivery.v and AppOutbox.v over every interleaving of the worker's turns with the
    rest of the peer: within an epoch entries reach the log in their order and no acknowledged entry is
    sent twice, an entry leaves the durable outbox only on evidence, and an accepted entry stays there
    until then. *)

From S2P Require Import Prelude HubProtocol AppOutbox CommitWalk LogDelivery.

(** ** What a trace must show *)

(** The evidence that removes an entry: after its publication was acknowledged, a walk of the log that
    began no earlier reached its end at that epoch, or the head of the log was seen no later than the
    floor the frame was sealed at. *)
Definition proves (o : Observed) (epoch : Z) (floor : option string) (n : nat) : Prop :=
  match o with
  | Certified e started => e = epoch ∧ n ≤ started
  | ProbedHead head => headWithin head floor = true
  | _ => False
  end.

Definition evidence (trace : list Observed) (seq : nat) : Prop :=
  ∃ before after epoch floor n o, trace = before ++ Acknowledged seq epoch floor n :: after ∧
    o ∈ after ∧ proves o epoch floor n.

(** What one observation must find before it. *)
Definition permitted (before : list Observed) (o : Observed) : Prop :=
  match o with
  | Submitted seq epoch =>
    (∀ earlier, Submitted earlier epoch ∈ before -> earlier ≤ seq) ∧
    (∀ floor n, Acknowledged seq epoch floor n ∉ before)
  | RemovedDurably seq => evidence before seq
  | _ => True
  end.

Definition permittedTrace (trace : list Observed) : Prop :=
  ∀ j o, trace !! j = Some o -> permitted (take j trace) o.

Lemma permittedTrace_snoc trace o : permittedTrace trace -> permitted trace o -> permittedTrace (trace ++ [o]).
Proof.
  intros Ht Ho j o'. rewrite lookup_app_Some. intros [Hj|[Hlen Hj]].
  - rewrite take_app_le; [by apply Ht|]. apply lookup_lt_Some in Hj. lia.
  - apply list_lookup_singleton_Some in Hj as [Hj ->].
    by replace j with (length trace) by lia; rewrite take_app_length.
Qed.

Lemma evidence_app trace trace' seq : evidence trace seq -> evidence (trace ++ trace') seq.
Proof.
  intros (before & after & epoch & floor & n & o & -> & Hin & Ho).
  exists before, (after ++ trace'), epoch, floor, n, o. rewrite <- app_assoc. cbn [app]. set_solver.
Qed.

Lemma evidence_new trace seq epoch floor n o :
  Acknowledged seq epoch floor n ∈ trace -> proves o epoch floor n -> evidence (trace ++ [o]) seq.
Proof.
  intros (before & after & ->)%list_elem_of_split Ho.
  exists before, (after ++ [o]), epoch, floor, n, o. rewrite <- app_assoc. set_solver.
Qed.

(** ** Lists and maps of the worker *)

Lemma addProven_elem s seq proven : s ∈ addProven seq proven <-> s = seq ∨ s ∈ proven.
Proof. unfold addProven. case_bool_decide; [set_solver|]. rewrite elem_of_app, list_elem_of_singleton. naive_solver. Qed.

(** A pass over the publications adds those that meet a test. *)
Lemma proven_fold (test : nat * Publication -> bool) publications : ∀ proven s,
  s ∈ foldl (λ proven p, if test p then addProven p.1 proven else proven) proven publications ->
  s ∈ proven ∨ ∃ p, (s, p) ∈ publications ∧ test (s, p) = true.
Proof.
  induction publications as [|[k p] publications IH]; intros proven s; cbn [foldl]; [by left|].
  intros [Hin|(p' & Hin & Hp)]%IH; [|right; exists p'; set_solver].
  destruct (test (k, p)) eqn:Ht; [|by left]. cbn [fst] in Hin.
  apply addProven_elem in Hin as [->|Hin]; [right; exists p; set_solver|by left].
Qed.

Lemma proven_fold_keeps (test : nat * Publication -> bool) publications : ∀ proven s,
  s ∈ proven -> s ∈ foldl (λ proven p, if test p then addProven p.1 proven else proven) proven publications.
Proof.
  induction publications as [|[k p] publications IH]; intros proven s Hin; cbn [foldl]; [done|].
  apply IH. destruct (test (k, p)); [apply addProven_elem; by right|done].
Qed.

Lemma jm_set_member {V} (k x : nat) (v y : V) m : (x, y) ∈ jm_set k v m -> (x = k ∧ y = v) ∨ (x, y) ∈ m.
Proof.
  unfold jm_set. destruct (jm_has k m); [|rewrite elem_of_app, list_elem_of_singleton; naive_solver].
  intros ([k' v'] & Heq & Hin)%list_elem_of_fmap. cbn [fst] in Heq. case_decide; naive_solver.
Qed.

Lemma entries_elem q e : e ∈ entries q <-> ∃ k, q_accepted q !! k = Some e.
Proof.
  unfold entries. rewrite (merge_sort_Permutation seqOrder). split.
  - intros ([k e'] & -> & Hin)%list_elem_of_fmap. exists k. by apply elem_of_map_to_list.
  - intros [k Hk]. apply list_elem_of_fmap. exists (k, e). split; [done|]. by apply elem_of_map_to_list.
Qed.

(** ** The invariant *)

Definition content (e : AppOutboxEntry) : string * string * bytes := (ae_protocol e, ae_prc e, ae_data e).

(** The part of a world the invariant speaks of. *)
Record Core := mkCore {
  c_queue : Acceptance;
  c_durable : Durable;
  c_epoch : Z;
  c_publications : list (nat * Publication);
  c_proven : list nat;
  c_removed : bool;
  c_trace : list Observed;
}.

Definition core (w : World) : Core :=
  mkCore (w_queue w) (w_durable w) (ef_epoch (w_floor w)) (w_publications w) (w_proven w) (w_removed w) (w_trace w).

Abbreviation acc c := (q_accepted (c_queue c)).
Abbreviation pend c := (q_pending (c_queue c)).
Abbreviation next c := (q_nextSeq (c_queue c)).

Definition epochOf (c : Core) (seq : nat) : option Z := pu_epoch <$> jm_get seq (c_publications c).

(** A sequence number that can no longer be submitted at an epoch up to [epoch]. *)
Definition settled (c : Core) (seq : nat) (epoch : Z) : Prop :=
  seq ∉ map fst (pend c) ∧
  (is_Some (acc c !! seq) -> seq ∈ c_proven c ∨ ∃ e, epochOf c seq = Some e ∧ (epoch ≤ e)%Z).

Definition kept (c : Core) (seq : nat) (what : string * string * bytes) : Prop :=
  (∃ d, c_durable c !! seq = Some d ∧ content d = what) ∨ RemovedDurably seq ∈ c_trace c ∨
  ∃ seqs, Cleared seqs ∈ c_trace c ∧ seq ∈ seqs.

Section invariant.
Context (inventory : Durable).

Record base (c : Core) : Prop := {
  iv_keys : ∀ k e, acc c !! k = Some e -> ae_seq e = k ∧ k < next c;
  iv_pending : ∀ k p, (k, p) ∈ pend c -> ae_seq p.2 = k ∧ k < next c ∧ acc c !! k = None;
  iv_ascending : StronglySorted lt (map fst (pend c));
  iv_unlisted : q_listed (c_queue c) = false ->
    acc c = ∅ ∧ pend c = [] ∧ next c = 0 ∧ c_durable c = inventory;
  iv_same : q_listed (c_queue c) = true -> ∀ k, content <$> c_durable c !! k = content <$> acc c !! k;
  iv_durable : ∀ k e, c_durable c !! k = Some e -> ae_seq e = k;
  iv_stopped : c_removed c = true -> q_stopped (c_queue c) = true;
  iv_publications : ∀ s p, (s, p) ∈ c_publications c -> is_Some (acc c !! s) ∧ (pu_epoch p ≤ c_epoch c)%Z ∧
    Acknowledged s (pu_epoch p) (pu_floor p) (pu_acknowledged p) ∈ c_trace c;
  iv_proven : ∀ s, s ∈ c_proven c -> is_Some (acc c !! s) ∧ evidence (c_trace c) s;
  iv_submitted : ∀ s e, Submitted s e ∈ c_trace c -> s < next c ∧ (e ≤ c_epoch c)%Z ∧
    ∀ s0, s0 < s -> settled c s0 e;
  iv_acknowledged : ∀ s e f n, Acknowledged s e f n ∈ c_trace c -> s < next c ∧ s ∉ map fst (pend c) ∧
    (is_Some (acc c !! s) -> ∃ e1, epochOf c s = Some e1 ∧ (e ≤ e1)%Z);
  iv_trace : permittedTrace (c_trace c);
  iv_accepted : ∀ e, Accepted e ∈ c_trace c -> kept c (ae_seq e) (content e);
  iv_inventory : ∀ k e, inventory !! k = Some e -> kept c k (content e);
}.

(** An entry of the loop's snapshot that is still queued, with its content. *)
Definition queued (c : Core) (x : AppOutboxEntry) : Prop :=
  ∃ a, acc c !! ae_seq x = Some a ∧ content a = content x.

(** The entry whose turn it is: no reservation is below it, and where a later one went out it went first. *)
Definition turn (c : Core) (x : AppOutboxEntry) : Prop :=
  queued c x ∧ (∀ k, k ∈ map fst (pend c) -> ae_seq x < k) ∧
  (∀ s e, Submitted s e ∈ c_trace c -> ae_seq x < s -> ∃ e1, epochOf c (ae_seq x) = Some e1 ∧ (e ≤ e1)%Z).

Definition fresh (c : Core) (seq : nat) (epoch : Z) : Prop := ∀ e, epochOf c seq = Some e -> (e < epoch)%Z.

Definition pcOk (c : Core) (pc : Pc) : Prop :=
  match pc with
  | AwaitClear seqs => pend c = [] ∧ c_removed c = true ∧ seqs = map ae_seq (entries (c_queue c)) ∧ seqs ≠ []
  | AwaitRemove s _ => s ∈ c_proven c
  | AwaitProbe x rest _ | AwaitPull x rest _ => turn c x ∧ Forall (queued c) rest
  | AwaitSeal x rest _ since => turn c x ∧ Forall (queued c) rest ∧ (since ≤ c_epoch c)%Z ∧ fresh c (ae_seq x) since
  | AwaitPut x frame rest _ => turn c x ∧ Forall (queued c) rest ∧ (ef_epoch (sf_floor frame) ≤ c_epoch c)%Z ∧
                               fresh c (ae_seq x) (ef_epoch (sf_floor frame))
  | AwaitPublish s frame rest _ => is_Some (acc c !! s) ∧ Forall (queued c) rest ∧
                                   (ef_epoch (sf_floor frame) ≤ c_epoch c)%Z ∧ fresh c s (ef_epoch (sf_floor frame))
  | _ => True
  end.

Definition inv (w : World) : Prop := base (core w) ∧ pcOk (core w) (w_pc w).

(** ** Steps of the core *)

Definition withTrace (c : Core) (o : Observed) : Core :=
  mkCore (c_queue c) (c_durable c) (c_epoch c) (c_publications c) (c_proven c) (c_removed c) (c_trace c ++ [o]).
Definition withEvidence (c : Core) (publications : list (nat * Publication)) (proven : list nat) : Core :=
  mkCore (c_queue c) (c_durable c) (c_epoch c) publications proven (c_removed c) (c_trace c).
Definition withQueue (c : Core) (q : Acceptance) : Core :=
  mkCore q (c_durable c) (c_epoch c) (c_publications c) (c_proven c) (c_removed c) (c_trace c).
Definition withStore (c : Core) (q : Acceptance) (d : Durable) : Core :=
  mkCore q d (c_epoch c) (c_publications c) (c_proven c) (c_removed c) (c_trace c).

Definition plain (o : Observed) : bool :=
  match o with Submitted _ _ | Acknowledged _ _ _ _ | Accepted _ => false | _ => true end.

Ltac unpack := unfold settled, kept, turn, queued, fresh, epochOf in *;
  cbn [withTrace withEvidence withQueue withStore c_queue c_durable c_epoch c_publications c_proven c_removed c_trace
       fst snd] in *.

(** The unchanged fields of [base] are found among the hypotheses. *)
Ltac rebase H := destruct H; constructor; unpack; try assumption.

Lemma in_snoc {A} (x y : A) l : x ∈ l ++ [y] -> x ∈ l ∨ x = y.
Proof. rewrite elem_of_app, list_elem_of_singleton. done. Qed.

Lemma base_observe c o : base c -> plain o = true -> permitted (c_trace c) o -> base (withTrace c o).
Proof.
  intros Hb Hplain Ho. rebase Hb.
  - intros s p Hin. destruct (iv_publications0 s p Hin) as (? & ? & ?). split_and!; [done|done|]. set_solver.
  - intros s Hin. destruct (iv_proven0 s Hin). split; [done|]. by apply evidence_app.
  - intros s e [Hin|<-]%in_snoc; [by apply iv_submitted0|done].
  - intros s e f n [Hin|<-]%in_snoc; [by eapply iv_acknowledged0|done].
  - by apply permittedTrace_snoc.
  - intros e [Hin|<-]%in_snoc; [|done]. destruct (iv_accepted0 e Hin) as [?|[?|(seqs & ? & ?)]]; [by left| |].
    + right. left. set_solver.
    + right. right. exists seqs. set_solver.
  - intros k e Hin. destruct (iv_inventory0 k e Hin) as [?|[?|(seqs & ? & ?)]]; [by left| |].
    + right. left. set_solver.
    + right. right. exists seqs. set_solver.
Qed.

Lemma pcOk_observe c o pc : plain o = true -> pcOk c pc -> pcOk (withTrace c o) pc.
Proof.
  intros Hplain. assert (∀ x, turn c x -> turn (withTrace c o) x) as Hturn.
  { intros x (Hq & Hp & Hs). split_and!; [done|done|]. unpack. intros s e [Hin|<-]%in_snoc; [by apply Hs|done]. }
  destruct pc; cbn [pcOk]; try done; intros [Ht H]; (split; [by apply Hturn|exact H]).
Qed.

Lemma base_proven c proven :
  base c -> (∀ s, s ∈ c_proven c -> s ∈ proven) ->
  (∀ s, s ∈ proven -> s ∈ c_proven c ∨ ∃ p, (s, p) ∈ c_publications c ∧ evidence (c_trace c) s) ->
  base (withEvidence c (c_publications c) proven).
Proof.
  intros Hb Hmore Hnew. rebase Hb.
  - intros s Hin. destruct (Hnew s Hin) as [Hold|(p & Hp & He)]; [by apply iv_proven0|].
    by destruct (iv_publications0 s p Hp).
  - intros s e Hin. destruct (iv_submitted0 s e Hin) as (? & ? & Hs). split_and!; [done|done|].
    intros s0 Hlt. destruct (Hs s0 Hlt) as [? Hset]. split; [done|]. intros Hacc.
    destruct (Hset Hacc); [left; by apply Hmore|by right].
Qed.

Lemma pcOk_proven c proven pc :
  (∀ s, s ∈ c_proven c -> s ∈ proven) -> pcOk c pc -> pcOk (withEvidence c (c_publications c) proven) pc.
Proof. intros Hmore. destruct pc; cbn [pcOk]; try done. by apply Hmore. Qed.

(** *** The queue *)

Lemma base_pending c q :
  base c -> q_accepted q = acc c -> q_listed q = true -> q_listed (c_queue c) = true ->
  (q_stopped (c_queue c) = true -> q_stopped q = true) -> next c ≤ q_nextSeq q ->
  StronglySorted lt (map fst (q_pending q)) ->
  (∀ k p, (k, p) ∈ q_pending q -> (k, p) ∈ pend c ∨ (k = next c ∧ ae_seq p.2 = k ∧ k < q_nextSeq q)) ->
  base (withQueue c q).
Proof.
  intros Hb Hacc Hl Hl' Hst Hnext Hsort Hpend.
  assert (∀ k, k < next c -> k ∈ map fst (q_pending q) -> k ∈ map fst (pend c)) as Hold.
  { intros k Hlt ([k' p] & -> & Hin)%list_elem_of_fmap. apply list_elem_of_fmap. exists (k', p).
    split; [done|]. destruct (Hpend k' p Hin) as [|(-> & _)]; [done|]. cbn [fst] in Hlt. lia. }
  rebase Hb; rewrite ?Hacc in *; try assumption.
  - intros k e Hk. destruct (iv_keys0 k e Hk). split; [done|lia].
  - intros k p Hin. destruct (Hpend k p Hin) as [Hk|(-> & Hseq & Hk)].
    + destruct (iv_pending0 k p Hk) as (? & ? & ?). split_and!; [done|lia|done].
    + split_and!; [done|done|]. destruct (acc c !! next c) as [e|] eqn:He; [|done].
      destruct (iv_keys0 _ _ He). lia.
  - intros Hf. by rewrite Hl in Hf.
  - intros _. by apply iv_same0.
  - intros Hr. by apply Hst, iv_stopped0.
  - intros s e Hin. destruct (iv_submitted0 s e Hin) as (? & ? & Hs). split_and!; [lia|done|].
    intros s0 Hlt. destruct (Hs s0 Hlt) as [Hnp Hset]. rewrite ?Hacc. split; [|done].
    intros Hp. apply Hnp, Hold; [lia|done].
  - intros s e f n Hin. destruct (iv_acknowledged0 s e f n Hin) as (? & Hnp & ?). rewrite ?Hacc.
    split_and!; [lia| |done]. intros Hp. apply Hnp, Hold; [lia|done].
Qed.

Lemma queued_below c x : base c -> queued c x -> ae_seq x < next c.
Proof. intros Hb (a & Ha & _). by destruct (iv_keys _ Hb _ _ Ha). Qed.

Lemma pcOk_pending c q pc :
  base c -> q_accepted q = acc c -> (q_stopped (c_queue c) = true -> pend c = [] -> q_pending q = []) ->
  (∀ k, k ∈ map fst (q_pending q) -> k ∈ map fst (pend c) ∨ k = next c) ->
  pcOk c pc -> pcOk (withQueue c q) pc.
Proof.
  intros Hb Hacc Hst Hpend.
  assert (∀ x, queued c x -> queued (withQueue c q) x) as Hq by (intros x; unpack; by rewrite Hacc).
  assert (∀ rest, Forall (queued c) rest -> Forall (queued (withQueue c q)) rest) as Hrest
    by (intros rest Hr; by eapply Forall_impl).
  assert (∀ x, turn c x -> turn (withQueue c q) x) as Hturn.
  { intros x (Hx & Hp & Hs). split_and!; [by apply Hq| |done]. intros k [Hk| ->]%Hpend; [by apply Hp|].
    by apply queued_below. }
  destruct pc; cbn [pcOk]; try done.
  - intros (Hp & Hr & Hs & Hne). cbn [withQueue c_queue c_removed]. split_and!; [|done| |done].
    + apply Hst; [by apply iv_stopped|done].
    + unfold entries. by rewrite Hacc.
  - intros [? ?]. auto.
  - intros [? ?]. auto.
  - intros (? & ? & ? & ?). auto.
  - intros (? & ? & ? & ?). auto.
  - intros (? & ? & ? & ?). cbn [withQueue c_queue]. rewrite Hacc. auto.
Qed.

(** A call admitted, refused or left waiting. *)
Lemma admitCall_cases admissible call input q :
  q_listed q = true ->
  (admitCall admissible call input q).1 = q ∨
  q_stopped q = false ∧ ∃ entry, ae_seq entry = q_nextSeq q ∧
    (admitCall admissible call input q).1 = withPending (q_pending q ++ [(q_nextSeq q, (call, entry))]) (S (q_nextSeq q)) q.
Proof.
  intros Hl. unfold admitCall. destruct (q_closed q); [by left|]. destruct (q_stopped q); [by left|].
  destruct (negb admissible); [by left|]. destruct (_ <? _); [by left|]. destruct (_ <=? _); [by left|].
  right. split; [done|]. eexists. split; [|reflexivity]. done.
Qed.

Lemma withWaiters_inv waiters c pc :
  base c -> pcOk c pc ->
  base (withQueue c (withWaiters waiters (c_queue c))) ∧ pcOk (withQueue c (withWaiters waiters (c_queue c))) pc.
Proof.
  intros Hb Hpc. split; [by destruct Hb; constructor|]. by destruct pc.
Qed.

Lemma admitCall_inv admissible call input c pc :
  base c -> pcOk c pc -> q_listed (c_queue c) = true ->
  base (withQueue c (admitCall admissible call input (c_queue c)).1) ∧
  pcOk (withQueue c (admitCall admissible call input (c_queue c)).1) pc.
Proof.
  intros Hb Hpc Hl.
  destruct (admitCall_cases admissible call input (c_queue c) Hl) as [->|(Hst & entry & Hseq & ->)].
  { destruct c. done. }
  split.
  - apply base_pending; cbn [withPending q_accepted q_listed q_stopped q_nextSeq q_pending]; try done; [apply Nat.le_succ_diag_r| |].
    + rewrite map_app. cbn [map fst]. apply StronglySorted_snoc. split; [by apply iv_ascending|].
      apply Forall_forall. intros k ([k' p] & -> & Hin)%list_elem_of_fmap. cbn [fst].
      by destruct (iv_pending _ Hb k' p Hin) as (_ & ? & _).
    + intros k p [Hin|[= -> ->]]%in_snoc; [by left|]. right. cbn [snd]. split_and!; [done|done|lia].
  - apply pcOk_pending; cbn [withPending q_accepted q_pending]; try done; [by rewrite Hst|].
    intros k. rewrite map_app. cbn [map fst]. intros [?| ->]%in_snoc; [by left|by right].
Qed.

(** *** The inventory *)

Lemma load_lookup (d : Durable) l : (∀ e, e ∈ l -> d !! ae_seq e = Some e) -> ∀ (m : Durable) k,
  foldl (λ accepted entry, <[ae_seq entry := entry]> accepted) m l !! k =
  if bool_decide (k ∈ map ae_seq l) then d !! k else m !! k.
Proof.
  induction l as [|e l IH]; intros Hl m k; cbn [foldl map]; [done|].
  rewrite IH by (intros; apply Hl; by right).
  destruct (bool_decide (k ∈ map ae_seq l)) eqn:Hin.
  - apply bool_decide_eq_true in Hin. by rewrite bool_decide_eq_true_2 by (by right).
  - apply bool_decide_eq_false in Hin. destruct (decide (k = ae_seq e)) as [->|Hne].
    + rewrite lookup_insert_eq, bool_decide_eq_true_2 by (by left). symmetry. apply Hl. by left.
    + rewrite lookup_insert_ne by done. rewrite bool_decide_eq_false_2; [done|]. by rewrite elem_of_cons; intros [].
Qed.

Lemma load_next l : ∀ n, n ≤ foldl (λ next entry, Nat.max next (ae_seq entry + 1)) n l ∧
  ∀ e, e ∈ l -> ae_seq e < foldl (λ next entry, Nat.max next (ae_seq entry + 1)) n l.
Proof.
  induction l as [|x l IH]; intros n; cbn [foldl]; [split; [done|by intros ? ?%elem_of_nil]|].
  destruct (IH (Nat.max n (ae_seq x + 1))) as [Hle Hall]. split; [lia|].
  intros e [->|Hin]%elem_of_cons; [lia|by apply Hall].
Qed.

Lemma unlisted_empty c k : base c -> q_listed (c_queue c) = false -> acc c !! k = None.
Proof. intros Hb Hl. destruct (iv_unlisted _ Hb Hl) as (-> & _). apply lookup_empty. Qed.

Lemma load_inv c pc :
  base c -> pcOk c pc -> q_listed (c_queue c) = false ->
  base (withQueue c (load (map snd (map_to_list (c_durable c))) (c_queue c))) ∧
  pcOk (withQueue c (load (map snd (map_to_list (c_durable c))) (c_queue c))) pc.
Proof.
  intros Hb Hpc Hl. unfold load. destruct (q_closed (c_queue c)); [by destruct c|].
  pose proof (λ k, unlisted_empty c k Hb Hl) as Hnone.
  destruct (iv_unlisted _ Hb Hl) as (Hacc & Hpend & Hnext & Hdur).
  set (l := map snd (map_to_list (c_durable c))).
  assert (∀ e, e ∈ l -> c_durable c !! ae_seq e = Some e) as Hin.
  { intros e ([k e'] & -> & He)%list_elem_of_fmap. apply elem_of_map_to_list in He.
    cbn [snd]. by rewrite (iv_durable _ Hb _ _ He). }
  assert (∀ k, foldl (λ accepted entry, <[ae_seq entry := entry]> accepted) (acc c) l !! k = c_durable c !! k) as Hload.
  { intros k. rewrite (load_lookup (c_durable c)) by done. destruct (bool_decide _) eqn:Hk; [done|].
    apply bool_decide_eq_false in Hk. rewrite Hnone. symmetry. apply eq_None_not_Some. intros [e He].
    apply Hk, list_elem_of_fmap. exists e. split; [by rewrite (iv_durable _ Hb _ _ He)|].
    apply list_elem_of_fmap. exists (k, e). split; [done|]. by apply elem_of_map_to_list. }
  split.
  - destruct (load_next l (next c)) as [_ Hbound].
    assert (∀ s p, (s, p) ∉ c_publications c) as Hnopub.
    { intros s p Hs. destruct (iv_publications _ Hb s p Hs) as [[e He] _]. by rewrite Hnone in He. }
    assert (∀ s, s ∉ c_proven c) as Hnoproven.
    { intros s Hs. destruct (iv_proven _ Hb s Hs) as [[e He] _]. by rewrite Hnone in He. }
    rebase Hb; cbn [q_accepted q_pending q_listed q_nextSeq q_stopped]; try done.
    + intros k e. rewrite Hload. intros He. split; [by apply iv_durable0|].
      rewrite <- (iv_durable0 _ _ He). apply Hbound, list_elem_of_fmap. exists (k, e). split; [done|].
      by apply elem_of_map_to_list.
    + rewrite Hpend. by intros ? ? ?%elem_of_nil.
    + intros _ k. by rewrite Hload.
    + intros s p Hs. by destruct (Hnopub s p).
    + intros s Hs. by destruct (Hnoproven s).
    + intros s e Hs. destruct (iv_submitted0 s e Hs). lia.
    + intros s e f n Hs. destruct (iv_acknowledged0 s e f n Hs). lia.
  - assert (∀ x, ¬ turn c x) as Hno by (intros x ((a & Ha & _) & _); by rewrite Hnone in Ha).
    destruct pc; cbn [pcOk] in *; try done.
    + destruct Hpc as (_ & _ & -> & Hne). exfalso. apply Hne. unfold entries. by rewrite Hacc.
    + by destruct Hpc as [?%Hno _].
    + by destruct Hpc as [?%Hno _].
    + by destruct Hpc as [?%Hno _].
    + by destruct Hpc as [?%Hno _].
    + destruct Hpc as [[a Ha] _]. by rewrite Hnone in Ha.
Qed.

(** *** Reservations that settle *)

Lemma jm_delete_member {V} (k : nat) (m : list (nat * V)) p : p ∈ jm_delete k m -> p ∈ m ∧ p.1 ≠ k.
Proof. unfold jm_delete. rewrite list_elem_of_filter. naive_solver. Qed.

Lemma jm_delete_sorted {V} (k : nat) (m : list (nat * V)) :
  StronglySorted lt (map fst m) -> StronglySorted lt (map fst (jm_delete k m)).
Proof.
  rewrite jm_delete_keys. induction 1 as [|x l Hs IH Hx]; [constructor|].
  rewrite filter_cons. destruct (decide (x ≠ k)); [|done]. constructor; [done|].
  apply Forall_forall. intros y [_ Hy]%list_elem_of_filter. by apply (proj1 (Forall_forall _ _) Hx).
Qed.

Lemma pending_listed c k p : base c -> (k, p) ∈ pend c -> q_listed (c_queue c) = true.
Proof.
  intros Hb Hin. destruct (q_listed (c_queue c)) eqn:Hl; [done|].
  destruct (iv_unlisted _ Hb Hl) as (_ & Hp & _). rewrite Hp in Hin. by apply elem_of_nil in Hin.
Qed.

Lemma kept_more c c' k what :
  (∀ d, c_durable c !! k = Some d -> ∃ d', c_durable c' !! k = Some d' ∧ content d' = content d) ->
  (∀ o, o ∈ c_trace c -> o ∈ c_trace c') -> kept c k what -> kept c' k what.
Proof.
  intros Hd Ht [(d & Hk & <-)|[?|(seqs & ? & ?)]].
  - left. destruct (Hd d Hk) as (d' & ? & ?). by exists d'.
  - right. left. by apply Ht.
  - right. right. exists seqs. split; [by apply Ht|done].
Qed.

Lemma dropped_inv c pc seq :
  base c -> pcOk c pc -> seq ∈ map fst (pend c) ->
  base (withQueue c (withPending (jm_delete seq (pend c)) (next c) (c_queue c))) ∧
  pcOk (withQueue c (withPending (jm_delete seq (pend c)) (next c) (c_queue c))) pc.
Proof.
  intros Hb Hpc ([k p] & -> & Hin)%list_elem_of_fmap. pose proof (pending_listed c k p Hb Hin) as Hl. split.
  - apply base_pending; cbn [withPending q_accepted q_listed q_stopped q_nextSeq q_pending]; try done.
    + by apply jm_delete_sorted, (iv_ascending _ Hb).
    + intros k' p' [? _]%jm_delete_member. by left.
  - apply pcOk_pending; cbn [withPending q_accepted q_pending]; try done.
    + intros _ ->. done.
    + intros k' (p' & -> & [? _]%jm_delete_member)%list_elem_of_fmap. left. apply list_elem_of_fmap. by exists p'.
Qed.

(** The queue after a write that was stored. *)
Definition storedQueue (seq : nat) (entry : AppOutboxEntry) (q : Acceptance) : Acceptance :=
  withPending (jm_delete seq (q_pending q)) (q_nextSeq q) (withAccepted (<[seq := entry]> (q_accepted q)) q).

Lemma stored_inv c pc seq call entry :
  base c -> pcOk c pc -> jm_get seq (pend c) = Some (call, entry) ->
  base (withTrace (withStore c (storedQueue seq entry (c_queue c)) (<[seq := entry]> (c_durable c))) (Accepted entry)) ∧
  pcOk (withTrace (withStore c (storedQueue seq entry (c_queue c)) (<[seq := entry]> (c_durable c))) (Accepted entry)) pc.
Proof.
  intros Hb Hpc Hget%jm_get_elem. pose proof (pending_listed _ _ _ Hb Hget) as Hl.
  destruct (iv_pending _ Hb _ _ Hget) as (Hseq & Hnext & Hnone). cbn [snd] in Hseq.
  assert (c_durable c !! seq = None) as Hnodur.
  { pose proof (iv_same _ Hb Hl seq) as Hs. rewrite Hnone in Hs. by destruct (c_durable c !! seq). }
  assert (∀ k e, acc c !! k = Some e -> <[seq:=entry]> (acc c) !! k = Some e) as Hacc.
  { intros k e Hk. rewrite lookup_insert_ne; [done|]. intros ->. by rewrite Hnone in Hk. }
  assert (∀ k, is_Some (acc c !! k) -> is_Some (<[seq:=entry]> (acc c) !! k)) as Hsome
    by (intros k [e He]; exists e; by apply Hacc).
  assert (∀ k, k ∈ map fst (jm_delete seq (pend c)) -> k ∈ map fst (pend c)) as Hpend
    by (intros k; rewrite jm_delete_keys, list_elem_of_filter; naive_solver).
  assert (seq ∈ map fst (pend c)) as Hinp by (apply list_elem_of_fmap; by exists (seq, (call, entry))).
  assert (∀ k what, kept c k what -> kept (withTrace (withStore c (storedQueue seq entry (c_queue c))
    (<[seq := entry]> (c_durable c))) (Accepted entry)) k what) as Hkept.
  { intros k what. apply kept_more; cbn [withTrace withStore c_durable c_trace]; [|set_solver].
    intros d Hd. exists d. split; [|done]. rewrite lookup_insert_ne; [done|]. intros ->. by rewrite Hnodur in Hd. }
  split.
  - rebase Hb; cbn [storedQueue withPending withAccepted q_accepted q_pending q_listed q_nextSeq q_stopped].
    + intros k e [[<- <-]|[Hne Hk]]%lookup_insert_Some; [done|by apply iv_keys0].
    + intros k p [Hin Hne]%jm_delete_member. destruct (iv_pending0 k p Hin) as (? & ? & ?).
      split_and!; [done|done|]. cbn [fst] in Hne. by rewrite lookup_insert_ne.
    + by apply jm_delete_sorted.
    + intros Hf. by rewrite Hl in Hf.
    + intros _ k. destruct (decide (k = seq)) as [->|Hne]; [by rewrite !lookup_insert_eq|].
      rewrite !lookup_insert_ne by done. by apply iv_same0.
    + intros k e [[<- <-]|[Hne Hk]]%lookup_insert_Some; [done|by apply iv_durable0].
    + intros s p Hin. destruct (iv_publications0 s p Hin) as (? & ? & ?). split_and!; [by apply Hsome|done|set_solver].
    + intros s Hin. destruct (iv_proven0 s Hin). split; [by apply Hsome|by apply evidence_app].
    + intros s e [Hin|]%in_snoc; [|done]. destruct (iv_submitted0 s e Hin) as (? & ? & Hs).
      split_and!; [done|done|]. intros s0 Hlt. destruct (Hs s0 Hlt) as [Hnp Hset]. split; [naive_solver|].
      intros [e0 [[<- _]|[_ Hk]]%lookup_insert_Some]; [by destruct (Hnp Hinp)|]. apply Hset. by exists e0.
    + intros s e f n [Hin|]%in_snoc; [|done]. destruct (iv_acknowledged0 s e f n Hin) as (? & Hnp & Hset).
      split_and!; [done|naive_solver|]. intros [e0 [[<- _]|[_ Hk]]%lookup_insert_Some]; [by destruct (Hnp Hinp)|].
      apply Hset. by exists e0.
    + by apply permittedTrace_snoc.
    + intros e [Hin|[= ->]]%in_snoc; [apply Hkept; by apply iv_accepted0|].
      left. exists entry. rewrite Hseq. by rewrite lookup_insert_eq.
    + intros k e Hk. apply Hkept. by apply iv_inventory0.
  - assert (∀ x, queued c x -> queued (withTrace (withStore c (storedQueue seq entry (c_queue c))
      (<[seq := entry]> (c_durable c))) (Accepted entry)) x) as Hq
      by (intros x (a & Ha & Hca); exists a; split; [by apply Hacc|done]).
    assert (∀ rest, Forall (queued c) rest -> Forall (queued (withTrace (withStore c (storedQueue seq entry (c_queue c))
      (<[seq := entry]> (c_durable c))) (Accepted entry))) rest) as Hrest by (intros rest Hr; by eapply Forall_impl).
    assert (∀ x, turn c x -> turn (withTrace (withStore c (storedQueue seq entry (c_queue c))
      (<[seq := entry]> (c_durable c))) (Accepted entry)) x) as Hturn.
    { intros x (Hx & Hp & Hs). split_and!; [by apply Hq| |].
      - intros k Hk. apply Hp. by apply Hpend.
      - intros s e [Hin|]%in_snoc; [by apply Hs|done]. }
    destruct pc; cbn [pcOk] in *; try done.
    + destruct Hpc as (Hp & _). rewrite Hp in Hinp. by apply elem_of_nil in Hinp.
    + destruct Hpc; auto.
    + destruct Hpc; auto.
    + destruct Hpc as (? & ? & ? & ?). auto.
    + destruct Hpc as (? & ? & ? & ?). auto.
    + destruct Hpc as (? & ? & ? & ?). auto.
Qed.

(** *** The worker's own steps *)

Lemma queued_seq c x : base c -> queued c x -> ae_seq x ∉ map fst (pend c) ∧ ae_seq x < next c.
Proof.
  intros Hb Hx. split; [|by apply queued_below]. destruct Hx as (a & Ha & _).
  intros ([k p] & Hk & Hin)%list_elem_of_fmap. cbn [fst] in Hk. subst k.
  destruct (iv_pending _ Hb _ _ Hin) as (_ & _ & Hnone). by rewrite Ha in Hnone.
Qed.

Lemma base_submit c x epoch :
  base c -> turn c x -> fresh c (ae_seq x) epoch -> (epoch ≤ c_epoch c)%Z ->
  (∀ e, e ∈ entries (c_queue c) -> ae_seq e < ae_seq x ->
     ae_seq e ∈ c_proven c ∨ epochOf c (ae_seq e) = Some epoch) ->
  base (withTrace c (Submitted (ae_seq x) epoch)).
Proof.
  intros Hb (Hx & Hp & Hlater) Hfresh Hepoch Hearlier.
  destruct (queued_seq c x Hb Hx) as [Hnp Hnext].
  assert (permitted (c_trace c) (Submitted (ae_seq x) epoch)) as Hperm.
  { split.
    - intros s Hs. destruct (decide (s ≤ ae_seq x)) as [|Hgt]; [done|].
      destruct (Hlater s epoch Hs) as (e1 & He1 & Hle); [lia|]. specialize (Hfresh e1 He1). lia.
    - intros f n Hin. destruct (iv_acknowledged _ Hb _ _ _ _ Hin) as (_ & _ & Hack).
      destruct Hack as (e1 & He1 & Hle); [destruct Hx as (a & Ha & _); by exists a|].
      specialize (Hfresh e1 He1). lia. }
  assert (∀ k what, kept c k what -> kept (withTrace c (Submitted (ae_seq x) epoch)) k what) as Hkept
    by (intros k what; apply kept_more; cbn [withTrace c_durable c_trace]; [intros d ?; by exists d|set_solver]).
  rebase Hb.
  - intros s p Hin. destruct (iv_publications0 s p Hin) as (? & ? & ?). split_and!; [done|done|set_solver].
  - intros s Hin. destruct (iv_proven0 s Hin). split; [done|by apply evidence_app].
  - intros s e [Hin|[= -> ->]]%in_snoc; [by apply iv_submitted0|]. split_and!; [done|done|].
    intros s0 Hlt. split; [intros Hin; specialize (Hp s0 Hin); lia|].
    intros [e0 He0]. destruct (iv_keys0 _ _ He0) as [<- _].
    destruct (Hearlier e0) as [?|?]; [apply entries_elem; by eexists|done|by left|right; exists epoch; done].
  - intros s e f n [Hin|]%in_snoc; [by eapply iv_acknowledged0|done].
  - by apply permittedTrace_snoc.
  - intros e [Hin|]%in_snoc; [|done]. apply Hkept. by apply iv_accepted0.
  - intros k e Hk. apply Hkept. by apply iv_inventory0.
Qed.

Definition publishedCore (c : Core) (seq : nat) (p : Publication) : Core :=
  withEvidence (withTrace c (Acknowledged seq (pu_epoch p) (pu_floor p) (pu_acknowledged p)))
    (jm_set seq p (c_publications c)) (c_proven c).

Lemma base_publish c seq p :
  base c -> is_Some (acc c !! seq) -> (pu_epoch p ≤ c_epoch c)%Z -> fresh c seq (pu_epoch p) ->
  base (publishedCore c seq p).
Proof.
  intros Hb Hacc Hepoch Hfresh.
  assert (seq ∉ map fst (pend c) ∧ seq < next c) as [Hnp Hnext].
  { destruct Hacc as [a Ha]. destruct (iv_keys _ Hb _ _ Ha) as [<- ?].
    destruct (queued_seq c a Hb) as [? ?]; [by exists a; rewrite Ha|done]. }
  assert (∀ s e, (∃ e1, epochOf c s = Some e1 ∧ (e ≤ e1)%Z) ->
    ∃ e1, pu_epoch <$> jm_get s (jm_set seq p (c_publications c)) = Some e1 ∧ (e ≤ e1)%Z) as Hgrow.
  { intros s e (e1 & He1 & Hle). rewrite jm_get_set. case_decide as Heq; [|by exists e1].
    subst s. exists (pu_epoch p). split; [done|]. specialize (Hfresh e1 He1). lia. }
  assert (∀ k what, kept c k what -> kept (publishedCore c seq p) k what) as Hkept
    by (intros k what; apply kept_more; cbn [publishedCore withEvidence withTrace c_durable c_trace];
        [intros d ?; by exists d|set_solver]).
  unfold publishedCore in *. rebase Hb.
  - intros s q [[-> ->]|Hin]%jm_set_member; [split_and!; [done|done|set_solver]|].
    destruct (iv_publications0 s q Hin) as (? & ? & ?). split_and!; [done|done|set_solver].
  - intros s Hin. destruct (iv_proven0 s Hin). split; [done|by apply evidence_app].
  - intros s e [Hin|]%in_snoc; [|done]. destruct (iv_submitted0 s e Hin) as (? & ? & Hs). split_and!; [done|done|].
    intros s0 Hlt. destruct (Hs s0 Hlt) as [? Hset]. split; [done|]. intros Ha.
    destruct (Hset Ha); [by left|right; by apply Hgrow].
  - intros s e f n [Hin|[= -> -> -> ->]]%in_snoc.
    + destruct (iv_acknowledged0 s e f n Hin) as (? & ? & Hset). split_and!; [done|done|].
      intros Ha. by apply Hgrow, Hset.
    + split_and!; [done|done|]. intros _. exists (pu_epoch p). rewrite jm_get_set, decide_True by done. by split.
  - by apply permittedTrace_snoc.
  - intros e [Hin|]%in_snoc; [|done]. apply Hkept. by apply iv_accepted0.
  - intros k e Hk. apply Hkept. by apply iv_inventory0.
Qed.

(** The durable update of an entry's last attempt. *)
Definition putCore (c : Core) (x : AppOutboxEntry) : Core :=
  withStore c (replace x (c_queue c)) (<[ae_seq x := x]> (c_durable c)).

Lemma queued_put c x y : queued c x -> queued c y -> queued (putCore c x) y.
Proof.
  intros (a & Ha & Hca) (b & Hb & Hcb). unfold queued, putCore, replace, withAccepted.
  cbn [withStore c_queue q_accepted]. destruct (decide (ae_seq y = ae_seq x)) as [Heq|Hne].
  - rewrite Heq, lookup_insert_eq. exists x. split; [done|]. rewrite Heq, Ha in Hb. congruence.
  - rewrite lookup_insert_ne by done. by exists b.
Qed.

Lemma put_some c x k : is_Some (<[ae_seq x := x]> (acc c) !! k) <-> k = ae_seq x ∨ is_Some (acc c !! k).
Proof. rewrite lookup_insert_is_Some. destruct (decide (ae_seq x = k)); naive_solver. Qed.

Lemma base_put c x : base c -> queued c x -> base (putCore c x).
Proof.
  intros Hb Hx. destruct (queued_seq c x Hb Hx) as [Hnp Hnext].
  assert (q_listed (c_queue c) = true) as Hl.
  { destruct (q_listed (c_queue c)) eqn:Hl; [done|]. destruct Hx as (a & Ha & _).
    by rewrite (unlisted_empty c _ Hb Hl) in Ha. }
  assert (is_Some (acc c !! ae_seq x)) as Hin by (destruct Hx as (a & Ha & _); by exists a).
  assert (∀ k, is_Some (<[ae_seq x := x]> (acc c) !! k) <-> is_Some (acc c !! k)) as Hsome.
  { intros k. rewrite put_some. naive_solver. }
  assert (∀ k what, kept c k what -> kept (putCore c x) k what) as Hkept.
  { intros k what. apply kept_more; [|done]. intros d Hd. unfold putCore. cbn [withStore c_durable].
    destruct (decide (k = ae_seq x)) as [->|]; [|by rewrite lookup_insert_ne; [exists d|]].
    rewrite lookup_insert_eq. exists x. split; [done|]. destruct Hx as (a & Ha & Hca).
    pose proof (iv_same _ Hb Hl (ae_seq x)) as Hs. rewrite Ha, Hd in Hs.
    cbn [fmap option_fmap option_map] in Hs. congruence. }
  unfold putCore in *. rebase Hb; unfold replace in *; cbn [withAccepted q_accepted q_pending q_listed q_nextSeq q_stopped] in *; try assumption.
  - intros k e [[<- <-]|[Hne Hk]]%lookup_insert_Some; [done|by apply iv_keys0].
  - intros k p Hp. destruct (iv_pending0 k p Hp) as (? & ? & Hnone). split_and!; [done|done|].
    rewrite lookup_insert_ne; [done|]. intros <-. rewrite Hnone in Hin. by destruct Hin.
  - intros Hf. by rewrite Hl in Hf.
  - intros _ k. destruct (decide (k = ae_seq x)) as [->|Hne]; [by rewrite !lookup_insert_eq|].
    rewrite !lookup_insert_ne by done. by apply iv_same0.
  - intros k e [[<- <-]|[Hne Hk]]%lookup_insert_Some; [done|by apply iv_durable0].
  - intros s p Hp. rewrite Hsome. by apply iv_publications0.
  - intros s Hp. rewrite Hsome. by apply iv_proven0.
  - intros s e Hs. destruct (iv_submitted0 s e Hs) as (? & ? & Hset). split_and!; [done|done|].
    intros s0 Hlt. rewrite Hsome. by apply Hset.
  - intros s e f n Hs. rewrite Hsome. by eapply iv_acknowledged0.
  - intros e He. apply Hkept. by apply iv_accepted0.
  - intros k e He. apply Hkept. by apply iv_inventory0.
Qed.

(** The removal of a proven entry, durable and queued, with its evidence. *)
Definition removedCore (c : Core) (seq : nat) : Core :=
  mkCore (remove seq (c_queue c)) (delete seq (c_durable c)) (c_epoch c) (jm_delete seq (c_publications c))
    (filter (λ s, s ≠ seq) (c_proven c)) (c_removed c) (c_trace c ++ [RemovedDurably seq]).

Lemma proven_listed c seq : base c -> seq ∈ c_proven c -> q_listed (c_queue c) = true.
Proof.
  intros Hb Hin. destruct (q_listed (c_queue c)) eqn:Hl; [done|].
  destruct (iv_proven _ Hb _ Hin) as [[a Ha] _]. by rewrite (unlisted_empty c _ Hb Hl) in Ha.
Qed.

Lemma base_remove c seq : base c -> seq ∈ c_proven c -> base (removedCore c seq).
Proof.
  intros Hb Hproven. pose proof (proven_listed c seq Hb Hproven) as Hl.
  destruct (iv_proven _ Hb seq Hproven) as [_ Hevidence].
  assert (∀ k, is_Some (delete seq (acc c) !! k) -> k ≠ seq ∧ is_Some (acc c !! k)) as Hsome.
  { intros k [e He]. apply lookup_delete_Some in He as [Hne He]. split; [congruence|by exists e]. }
  assert (∀ s e, s ≠ seq -> epochOf c s = Some e -> pu_epoch <$> jm_get s (jm_delete seq (c_publications c)) = Some e)
    as Hpub by (intros s e Hne; by rewrite jm_get_delete, decide_False by done).
  assert (∀ k what, kept c k what -> kept (removedCore c seq) k what) as Hkept.
  { intros k what [(d & Hd & Hc)|[Hr|(seqs & Hs & Hk)]]; unfold kept, removedCore; cbn [c_durable c_trace].
    - destruct (decide (k = seq)) as [->|Hne]; [right; left; set_solver|].
      left. exists d. by rewrite lookup_delete_ne.
    - right. left. set_solver.
    - right. right. exists seqs. set_solver. }
  unfold removedCore in *. rebase Hb; unfold remove in *; cbn [withAccepted q_accepted q_pending q_listed q_nextSeq q_stopped] in *; try assumption.
  - intros k e [_ Hk]%lookup_delete_Some. by apply iv_keys0.
  - intros k p Hp. destruct (iv_pending0 k p Hp) as (? & ? & Hnone). split_and!; [done|done|].
    apply lookup_delete_None. by right.
  - intros Hf. by rewrite Hl in Hf.
  - intros _ k. destruct (decide (k = seq)) as [->|Hne]; [by rewrite !lookup_delete_eq|].
    rewrite !lookup_delete_ne by done. by apply iv_same0.
  - intros k e [_ Hk]%lookup_delete_Some. by apply iv_durable0.
  - intros s p [Hp Hne]%jm_delete_member. cbn [fst] in Hne. destruct (iv_publications0 s p Hp) as ([a Ha] & ? & ?).
    split_and!; [exists a; by rewrite lookup_delete_ne|done|set_solver].
  - intros s [Hne Hs]%list_elem_of_filter. destruct (iv_proven0 s Hs) as [[a Ha] ?].
    split; [exists a; by rewrite lookup_delete_ne|by apply evidence_app].
  - intros s e [Hs|]%in_snoc; [|done]. destruct (iv_submitted0 s e Hs) as (? & ? & Hset). split_and!; [done|done|].
    intros s0 Hlt. destruct (Hset s0 Hlt) as [? Hset0]. split; [done|]. intros [Hne Ha]%Hsome.
    destruct (Hset0 Ha) as [Hp|(e1 & He1 & Hle)]; [left; by apply list_elem_of_filter|].
    right. exists e1. split; [by apply Hpub|done].
  - intros s e f n [Hs|]%in_snoc; [|done]. destruct (iv_acknowledged0 s e f n Hs) as (? & ? & Hset).
    split_and!; [done|done|]. intros [Hne Ha]%Hsome. destruct (Hset Ha) as (e1 & He1 & Hle).
    exists e1. split; [by apply Hpub|done].
  - by apply permittedTrace_snoc.
  - intros e [He|]%in_snoc; [|done]. apply Hkept. by apply iv_accepted0.
  - intros k e He. apply Hkept. by apply iv_inventory0.
Qed.

(** The group's outbox cleared after its owner left. *)
Definition clearedCore (c : Core) (seqs : list nat) : Core :=
  mkCore (clear (c_queue c)) ∅ (c_epoch c) [] [] (c_removed c) (c_trace c ++ [Cleared seqs]).

Lemma base_clear c seqs : base c -> pcOk c (AwaitClear seqs) -> base (clearedCore c seqs).
Proof.
  intros Hb (Hpend & Hremoved & Hseqs & Hne).
  assert (q_listed (c_queue c) = true) as Hl.
  { destruct (q_listed (c_queue c)) eqn:Hl; [done|]. destruct (iv_unlisted _ Hb Hl) as (Ha & _).
    destruct Hne. rewrite Hseqs. unfold entries. by rewrite Ha. }
  assert (∀ k d, c_durable c !! k = Some d -> k ∈ seqs) as Hall.
  { intros k d Hd. pose proof (iv_same _ Hb Hl k) as Hs. rewrite Hd in Hs.
    destruct (acc c !! k) as [a|] eqn:Ha; [|done]. rewrite Hseqs. apply list_elem_of_fmap. exists a.
    destruct (iv_keys _ Hb _ _ Ha). split; [done|]. apply entries_elem. by exists k. }
  assert (∀ k what, kept c k what -> kept (clearedCore c seqs) k what) as Hkept.
  { intros k what [(d & Hd & Hc)|[Hr|(l & Hs & Hk)]]; unfold kept, clearedCore; cbn [c_durable c_trace].
    - right. right. exists seqs. split; [set_solver|by eapply Hall].
    - right. left. set_solver.
    - right. right. exists l. set_solver. }
  unfold clearedCore in *. rebase Hb; unfold clear in *; cbn [withAccepted q_accepted q_pending q_listed q_nextSeq q_stopped] in *; try assumption.
  - intros k e. by rewrite lookup_empty.
  - rewrite Hpend. by intros ? ? ?%elem_of_nil.
  - intros Hf. by rewrite Hl in Hf.
  - intros _ k. by rewrite !lookup_empty.
  - intros k e. by rewrite lookup_empty.
  - by intros ? ? ?%elem_of_nil.
  - by intros ? ?%elem_of_nil.
  - intros s e [Hs|]%in_snoc; [|done]. destruct (iv_submitted0 s e Hs) as (? & ? & Hset). split_and!; [done|done|].
    intros s0 Hlt. destruct (Hset s0 Hlt) as [? _]. split; [done|]. rewrite lookup_empty. by intros [].
  - intros s e f n [Hs|]%in_snoc; [|done]. destruct (iv_acknowledged0 s e f n Hs) as (? & ? & _).
    split_and!; [done|done|]. rewrite lookup_empty. by intros [].
  - by apply permittedTrace_snoc.
  - intros e [He|]%in_snoc; [|done]. apply Hkept. by apply iv_accepted0.
  - intros k e He. apply Hkept. by apply iv_inventory0.
Qed.

(** The floor moved to an epoch no earlier. *)
Definition epochCore (c : Core) (epoch : Z) : Core :=
  mkCore (c_queue c) (c_durable c) epoch (c_publications c) (c_proven c) (c_removed c) (c_trace c).

Lemma epoch_inv c epoch pc :
  (c_epoch c ≤ epoch)%Z -> base c -> pcOk c pc -> base (epochCore c epoch) ∧ pcOk (epochCore c epoch) pc.
Proof.
  intros Hle Hb Hpc. unfold epochCore. split.
  - rebase Hb.
    + intros s p Hp. destruct (iv_publications0 s p Hp) as (? & ? & ?). split_and!; [done|lia|done].
    + intros s e Hs. destruct (iv_submitted0 s e Hs) as (? & ? & ?). split_and!; [done|lia|done].
  - destruct pc; cbn [pcOk c_epoch] in *; try done; destruct Hpc as (? & ? & ? & ?); split_and!; try done; lia.
Qed.

(** The peer was removed from the group. *)
Definition stoppedCore (c : Core) : Core :=
  mkCore (stop (c_queue c)) (c_durable c) (c_epoch c) (c_publications c) (c_proven c) true (c_trace c).

Lemma stopped_inv c pc : base c -> pcOk c pc -> base (stoppedCore c) ∧ pcOk (stoppedCore c) pc.
Proof.
  intros Hb Hpc. unfold stoppedCore. split; [by destruct Hb; constructor|].
  destruct pc; try done. by destruct Hpc as (? & _ & ? & ?).
Qed.

(** ** The turns of a pass *)

Section turns.
Context (deliveredWindowMs : Z) (deliveredLimit : nat).

Abbreviation RESUME := (resume deliveredWindowMs deliveredLimit).
Abbreviation STEP := (step deliveredWindowMs deliveredLimit).
Abbreviation RUN := (run deliveredWindowMs deliveredLimit).

Lemma inv_at w pc : base (core w) -> pcOk (core w) pc -> inv (goto w pc).
Proof. by split. Qed.

Lemma inv_finish w : base (core w) -> inv (finish w).
Proof. by split. Qed.

Lemma fence_below c x :
  base c -> (if match lowestUnresolvedSeq (c_queue c) with Some fence => (fence <=? ae_seq x)%nat | None => false end
             then False else True) ->
  ∀ k, k ∈ map fst (pend c) -> ae_seq x < k.
Proof.
  intros Hb Hfence k Hk. pose proof (iv_ascending _ Hb) as Hs. unfold lowestUnresolvedSeq in Hfence.
  destruct (pend c) as [|[f p] rest]; [by apply elem_of_nil in Hk|]. cbn [head fst map fmap option_fmap option_map] in *.
  destruct (f <=? ae_seq x)%nat eqn:Hf; [done|]. apply Nat.leb_gt in Hf.
  apply elem_of_cons in Hk as [->|Hk]; [done|]. apply StronglySorted_inv in Hs as [_ Hall].
  apply (proj1 (Forall_forall _ _) Hall) in Hk. lia.
Qed.

(** An entry that is neither proven nor behind a reservation gets its turn. *)
Lemma turn_taken c x :
  base c -> queued c x -> (∀ k, k ∈ map fst (pend c) -> ae_seq x < k) -> ae_seq x ∉ c_proven c -> turn c x.
Proof.
  intros Hb Hx Hp Hnot. split_and!; [done|done|]. intros s e Hs Hlt.
  destruct (iv_submitted _ Hb s e Hs) as (_ & _ & Hset). destruct (Hset _ Hlt) as [_ Hcase].
  destruct Hcase as [|?]; [destruct Hx as (a & Ha & _); by exists a|done..].
Qed.

Lemma entryLoop_inv rest : ∀ count w,
  base (core w) -> Forall (queued (core w)) rest -> inv (entryLoop rest count w).
Proof.
  induction rest as [|x rest IH]; intros count w Hb Hrest; cbn [entryLoop]; [by apply inv_at|].
  apply Forall_cons in Hrest as [Hx Hrest]. destruct (w_closed w); [by apply inv_finish|].
  destruct (match lowestUnresolvedSeq (w_queue w) with Some _ => _ | None => _ end) eqn:Hfence; [by apply inv_finish|].
  destruct (count =? 64)%nat; [by apply inv_at|].
  destruct (isProven w (ae_seq x)) eqn:Hproven; [by apply IH|].
  apply bool_decide_eq_false in Hproven.
  apply inv_at; [done|]. split; [|done]. apply turn_taken; [done|done| |done].
  apply fence_below; [done|]. cbn [core c_queue]. by rewrite Hfence.
Qed.

Lemma startEntries_inv w : base (core w) -> inv (startEntries w).
Proof.
  intros Hb. unfold startEntries. destruct (entries (w_queue w)) as [|x rest] eqn:He; [by apply inv_finish|].
  apply entryLoop_inv; [done|]. rewrite <- He. apply Forall_forall. intros e [k Hk]%entries_elem.
  destruct (iv_keys _ Hb k e Hk) as [<- _]. by exists e.
Qed.

Lemma resendLoop_inv w : base (core w) -> inv (resendLoop w).
Proof.
  intros Hb. unfold resendLoop. destruct (w_resend w); [by apply startEntries_inv|].
  destruct (_ || _); [by apply inv_finish|by apply inv_at].
Qed.

Lemma removeProven_inv phase w : base (core w) -> inv (removeProven phase w).
Proof.
  intros Hb. unfold removeProven. destruct (w_proven w) as [|s proven] eqn:Hp.
  - destruct phase; [by apply resendLoop_inv|by apply inv_finish].
  - apply inv_at; [done|]. cbn [pcOk core c_proven]. rewrite Hp. by left.
Qed.

Lemma afterHeal_inv w : base (core w) -> inv (afterHeal w).
Proof. intros Hb. unfold afterHeal. apply removeProven_inv. by destruct (existsb _ _). Qed.

Lemma afterReady_inv w : base (core w) -> inv (afterReady w).
Proof.
  intros Hb. unfold afterReady. destruct (w_closed w); [by apply inv_finish|].
  destruct (w_removed w) eqn:Hr; [|by apply removeProven_inv].
  unfold lowestUnresolvedSeq. destruct (q_pending (w_queue w)) as [|p pending] eqn:Hp; [|by apply inv_finish].
  cbn [head fmap option_fmap option_map]. destruct (map ae_seq _) as [|s seqs] eqn:Hs; [by apply inv_finish|].
  apply inv_at; [done|]. by split_and!.
Qed.

Lemma keepDelivered_core seq w : core (keepDelivered deliveredWindowMs deliveredLimit seq w) = core w.
Proof. unfold keepDelivered. repeat case_match; done. Qed.

Lemma keepDelivered_queue seq w : w_queue (keepDelivered deliveredWindowMs deliveredLimit seq w) = w_queue w.
Proof. unfold keepDelivered. repeat case_match; done. Qed.

Lemma afterRemove_inv seq phase w :
  base (core w) -> seq ∈ w_proven w -> inv (afterRemove deliveredWindowMs deliveredLimit seq phase w).
Proof.
  intros Hb Hp. unfold afterRemove. set (w1 := observe _ _).
  pose proof (keepDelivered_core seq w1) as Hcore. set (w2 := keepDelivered _ _ seq w1) in *.
  set (w3 := setEvidence _ _ _).
  assert (core w3 = removedCore (core w) seq) as H3.
  { unfold w3, setEvidence, setQueue, core at 1. cbn [w_queue w_durable w_floor w_publications w_proven w_removed w_trace].
    unfold core in Hcore. injection Hcore as -> -> -> -> -> -> ->. done. }
  assert (base (core w3)) as Hb3 by (rewrite H3; by apply base_remove).
  destruct (w_closed w3); [by apply inv_finish|by apply removeProven_inv].
Qed.

Lemma epochOf_bound c s e : base c -> epochOf c s = Some e -> (e ≤ c_epoch c)%Z.
Proof.
  intros Hb He. unfold epochOf in He. destruct (jm_get s (c_publications c)) as [p|] eqn:Hget; [|done].
  injection He as <-. apply jm_get_elem in Hget. by destruct (iv_publications _ Hb _ _ Hget) as (_ & ? & _).
Qed.

Lemma afterPull_inv x rest count w :
  base (core w) -> turn (core w) x -> Forall (queued (core w)) rest -> inv (afterPull x rest count w).
Proof.
  intros Hb Hx Hrest. unfold afterPull. destruct (_ || _); [by apply inv_finish|].
  destruct (w_held w); [by apply inv_finish|].
  destruct (bool_decide (_ = _)) eqn:Heq; [by apply entryLoop_inv|]. apply bool_decide_eq_false in Heq.
  apply inv_at; [done|]. split_and!; [done|done|cbn [core c_epoch]; lia|].
  intros e He. change (publicationEpoch w (ae_seq x) = Some e) in He. rewrite He in Heq.
  pose proof (epochOf_bound (core w) (ae_seq x) e Hb He). cbn [core c_epoch] in *.
  assert (e ≠ ef_epoch (w_floor w)) by congruence. lia.
Qed.

Lemma afterProbe_inv x rest count head w :
  base (core w) -> turn (core w) x -> Forall (queued (core w)) rest -> inv (afterProbe x rest count head w).
Proof.
  intros Hb Hx Hrest. unfold afterProbe. set (w1 := observe w (ProbedHead head)).
  assert (base (core w1)) as Hb1 by (by apply (base_observe (core w) (ProbedHead head))).
  assert (pcOk (core w1) (AwaitPull x rest count)) as Hpc
    by (by apply (pcOk_observe (core w) (ProbedHead head) (AwaitPull x rest count))).
  destruct (headPastFloor _ _); [by apply inv_at|]. destruct Hpc. by apply afterPull_inv.
Qed.

Lemma needsEarlier_false w seq epoch :
  needsEarlierPublication w seq epoch = false -> ∀ e, e ∈ entries (w_queue w) -> ae_seq e < seq ->
  ae_seq e ∈ w_proven w ∨ epochOf (core w) (ae_seq e) = Some epoch.
Proof.
  unfold needsEarlierPublication. intros Hf e He Hlt.
  destruct (decide (ae_seq e ∈ w_proven w)) as [|Hp]; [by left|]. right.
  destruct (decide (publicationEpoch w (ae_seq e) = Some epoch)) as [|Hne]; [done|]. exfalso.
  apply not_true_iff_false in Hf. apply Hf, existsb_exists. exists e. split; [by apply list_elem_of_In|].
  unfold isProven. by rewrite bool_decide_eq_true_2, !bool_decide_eq_false_2 by done.
Qed.

Lemma afterSeal_inv x rest count since frame w :
  base (core w) -> pcOk (core w) (AwaitSeal x rest count since) ->
  (since ≤ ef_epoch (sf_floor frame))%Z -> (ef_epoch (sf_floor frame) ≤ ef_epoch (w_floor w))%Z ->
  inv (afterSeal x rest count frame w).
Proof.
  intros Hb (Hx & Hrest & _ & Hfresh) Hsince Hnow. unfold afterSeal.
  destruct (_ || _); [by apply inv_finish|]. destruct (needsEarlierPublication _ _ _); [by apply inv_at|].
  apply inv_at; [done|]. cbn [pcOk]. split_and!; [|done|done|].
  - destruct Hx as ((a & Ha & Hc) & ? & ?). split_and!; [exists a; done|done|done].
  - intros e He. cbn [ae_seq] in He. specialize (Hfresh e He). lia.
Qed.

Lemma afterPut_inv x frame rest count w :
  base (core w) -> pcOk (core w) (AwaitPut x frame rest count) -> inv (afterPut x frame rest count w).
Proof.
  intros Hb (Hx & Hrest & Hepoch & Hfresh). unfold afterPut. set (w1 := setQueue _ _).
  assert (core w1 = putCore (core w) x) as H1 by done.
  pose proof Hx as (Hqx & Hp & Hs).
  assert (base (core w1)) as Hb1 by (rewrite H1; by apply base_put).
  assert (Forall (queued (core w1)) rest) as Hrest1
    by (rewrite H1; eapply Forall_impl; [exact Hrest|intros y Hy; by apply queued_put]).
  assert (turn (core w1) x) as Hx1 by (rewrite H1; split_and!; [by apply queued_put|done|done]).
  destruct (_ || _); [by apply inv_finish|].
  destruct (needsEarlierPublication w1 _ _) eqn:Hearlier; [by apply inv_at|].
  destruct (w_refuses w1); [by apply inv_finish|]. split.
  - apply (base_submit (core w1) x); [done|done|done|done|]. by apply needsEarlier_false.
  - cbn [pcOk goto w_pc]. split_and!; [|done|done|done]. destruct Hx1 as ((a & Ha & _) & _). by exists a.
Qed.

Lemma afterPublish_inv seq frame rest count w :
  base (core w) -> pcOk (core w) (AwaitPublish seq frame rest count) -> inv (afterPublish seq frame rest count w).
Proof.
  intros Hb (Hin & Hrest & Hepoch & Hfresh). unfold afterPublish. destruct (w_closed w); [by apply inv_finish|].
  set (p := mkPublication (ef_epoch (sf_floor frame)) (ef_position (sf_floor frame)) (S (w_acknowledgements w))).
  assert (base (publishedCore (core w) seq p)) as Hb1 by (by apply base_publish).
  destruct (bool_decide _); [by apply inv_at|]. by apply entryLoop_inv.
Qed.

Lemma afterLastProbe_inv head w : base (core w) -> inv (afterLastProbe head w).
Proof.
  intros Hb. unfold afterLastProbe.
  assert (base (core (observe w (ProbedHead head)))) as Hb1 by (by apply (base_observe (core w) (ProbedHead head))).
  set (w1 := observe w (ProbedHead head)) in *. destruct (w_closed w1); [by apply inv_finish|].
  set (w2 := setEvidence _ _ _).
  assert (base (core w2)) as Hb2.
  { apply (base_proven (core w1)); [done| |].
    - intros s. apply (proven_fold_keeps (λ p, headWithin head (pu_floor p.2))).
    - intros s [Hs|(p & Hp & Ht)]%(proven_fold (λ p, headWithin head (pu_floor p.2))); [by left|].
      right. exists p. split; [done|]. destruct (iv_publications _ Hb s p Hp) as (_ & _ & Hack).
      by eapply evidence_new. }
  destruct (headPastFloor _ _); [by apply inv_at|by apply afterHeal_inv].
Qed.

Lemma afterLastPull_inv w : base (core w) -> inv (afterLastPull w).
Proof. intros Hb. unfold afterLastPull. destruct (_ && _); [by apply inv_at|by apply afterHeal_inv]. Qed.

Lemma afterResendSeal_inv frame w : base (core w) -> inv (afterResendSeal frame w).
Proof.
  intros Hb. unfold afterResendSeal. destruct (_ || _); [by apply inv_finish|].
  destruct (w_refuses w); [by apply inv_finish|]. apply inv_at; [|done].
  by apply (base_observe (core w) (Resubmitted (ef_epoch (sf_floor frame)))).
Qed.

(** ** Every step keeps the invariant *)

Lemma resume_inv reply w w' :
  inv w -> RESUME reply w = Some w' -> match reply with Sealed frame => sealedNow w frame = true | _ => True end ->
  inv w'.
Proof.
  intros [Hb Hpc] Hstep Hsealed. unfold resume in Hstep.
  destruct reply, (w_pc w) eqn:Epc; try discriminate Hstep; injection Hstep as <-; try match goal with |- inv (finish _) => by apply inv_finish end.
  - by apply afterReady_inv.
  - split; [|done]. by apply (base_clear (core w) seqs).
  - by apply afterRemove_inv.
  - by apply resendLoop_inv.
  - destruct Hpc. by apply afterPull_inv.
  - by apply afterPut_inv.
  - by apply afterPublish_inv.
  - by apply afterLastPull_inv.
  - by apply afterHeal_inv.
  - destruct Hpc. by apply afterProbe_inv.
  - by apply afterLastProbe_inv.
  - by apply afterResendSeal_inv.
  - unfold sealedNow in Hsealed. rewrite Epc in Hsealed. apply andb_true_iff in Hsealed as [Hs Hn].
    eapply afterSeal_inv; [done|done|by apply Z.leb_le|by apply Z.leb_le].
Qed.

Lemma certify_inv epoch started w : inv w -> inv (observe (certify epoch started w) (Certified epoch started)).
Proof.
  intros [Hb Hpc]. set (o := Certified epoch started).
  set (test := λ p : nat * Publication, bool_decide (pu_epoch p.2 = epoch) && (pu_acknowledged p.2 <=? started)%nat).
  split.
  - apply (base_proven (withTrace (core w) o)); [by apply (base_observe (core w) o)| |].
    + intros s. apply (proven_fold_keeps test).
    + intros s [Hs|(p & Hp & Ht)]%(proven_fold test); [by left|]. right. exists p. split; [done|].
      apply andb_true_iff in Ht as [He%bool_decide_eq_true Hn%Nat.leb_le].
      destruct (iv_publications _ Hb s p Hp) as (_ & _ & Hack). by eapply evidence_new.
  - apply (pcOk_proven (withTrace (core w) o)); [intros s; apply (proven_fold_keeps test)|].
    by apply (pcOk_observe (core w) o).
Qed.

Lemma accept_inv admissible call input w :
  inv w -> inv (setQueue w (accept admissible call input (w_queue w)).1).
Proof.
  intros [Hb Hpc]. unfold accept. destruct (q_listed (w_queue w)) eqn:Hl; cbn [negb orb].
  - destruct (0 <? length (q_waiters (w_queue w)))%nat; cbn [fst].
    + by apply (withWaiters_inv _ (core w)).
    + by apply (admitCall_inv admissible call input (core w)).
  - by apply (withWaiters_inv _ (core w)).
Qed.

(** A closed queue admits nobody, so a waiter that is admitted found the inventory listed. *)
Lemma resumeWaiter_inv admissible w : inv w -> inv (setQueue w (resumeWaiter admissible (w_queue w)).1).
Proof.
  intros [Hb Hpc]. unfold resumeWaiter. destruct (q_waiters (w_queue w)) as [|[call input] rest]; [by split|].
  unfold isReady. destruct (q_listed (w_queue w)) eqn:Hl; cbn [orb].
  - destruct (withWaiters_inv rest (core w) (w_pc w) Hb Hpc) as [Hb1 Hpc1].
    destruct (admitCall_inv admissible call input _ _ Hb1 Hpc1 Hl) as [Hb2 Hpc2].
    destruct (admitCall admissible call input (withWaiters rest (w_queue w))) as [q error] eqn:Ha.
    cbn [withQueue core c_queue] in Hb2, Hpc2. rewrite Ha in Hb2, Hpc2. by split.
  - destruct (q_closed (w_queue w)) eqn:Hc; [|by split]. unfold admitCall. cbn [withWaiters q_closed]. rewrite Hc.
    by apply (withWaiters_inv _ (core w)).
Qed.

Lemma settlePut_inv seq stored w w' : inv w -> STEP (SettlePut seq stored) w = Some w' -> inv w'.
Proof.
  intros [Hb Hpc]. cbn [step]. destruct (jm_get seq (q_pending (w_queue w))) as [[call entry]|] eqn:Hget; [|done].
  intros [= <-]. destruct stored; unfold settlePut; cbn [w_queue observe setDurable]; rewrite Hget; cbn [fst].
  - by apply (stored_inv (core w) (w_pc w) seq call entry).
  - apply (dropped_inv (core w) (w_pc w) seq); [done|done|]. apply jm_get_elem in Hget.
    apply list_elem_of_fmap. by exists (seq, (call, entry)).
Qed.

Lemma closeQueue_inv w : inv w -> inv (setQueue w (close (w_queue w))).
Proof. intros [Hb Hpc]. split; [by destruct Hb; constructor|]. by cbn [w_pc setQueue]; destruct (w_pc w). Qed.

Lemma step_inv e w w' : inv w -> STEP e w = Some w' -> inv w'.
Proof.
  intros Hinv Hstep. pose proof Hinv as [Hb Hpc].
  destruct e as [|admissible call input|admissible|seq stored| | |reply|floor held refuses now|epoch started|anchor| |];
    cbn [step] in Hstep.
  - destruct (q_listed (w_queue w)) eqn:Hl; [done|]. injection Hstep as <-. by apply (load_inv (core w)).
  - injection Hstep as <-. by apply accept_inv.
  - injection Hstep as <-. by apply resumeWaiter_inv.
  - by eapply settlePut_inv.
  - injection Hstep as <-. by apply closeQueue_inv.
  - destruct (w_pc w); try done. destruct (w_closed w); [done|]. injection Hstep as <-. by split.
  - destruct reply.
    + apply resume_inv with Done w; [done| |done]. destruct (w_pc w); try done. by destruct (isReady (w_queue w)).
    + by apply resume_inv with Throw w.
    + by apply resume_inv with (Probed head) w.
    + destruct (sealedNow w frame) eqn:Hs; [|done]. by apply resume_inv with (Sealed frame) w.
  - destruct (_ && _) eqn:Hcond; [|done]. injection Hstep as <-.
    apply andb_true_iff in Hcond as [Hle%Z.leb_le _]. by apply (epoch_inv (core w)).
  - destruct (_ && _); [|done]. injection Hstep as <-. by apply certify_inv.
  - injection Hstep as <-. unfold rejoined. by destruct (_ || _).
  - injection Hstep as <-. by apply (stopped_inv (core w)).
  - injection Hstep as <-. by split.
Qed.

Lemma run_inv events : ∀ w w', inv w -> RUN events w = Some w' -> inv w'.
Proof.
  induction events as [|e events IH]; intros w w' Hinv; cbn [run]; [by intros [= <-]|].
  destruct (STEP e w) as [w1|] eqn:Hstep; [|done]. apply IH. by eapply step_inv.
Qed.
End turns.
End invariant.

Lemma create_inv limit inventory floor :
  (∀ k e, inventory !! k = Some e -> ae_seq e = k) -> inv inventory (createLogDelivery limit inventory floor).
Proof.
  intros Hkeys. split; [|done].
  constructor; cbn [core createLogDelivery createAppOutboxAcceptance c_queue c_durable c_publications c_proven c_trace
    w_queue w_durable w_publications w_proven w_trace q_accepted q_pending q_listed q_nextSeq map]; try done.
  - by intros ? ? ?%elem_of_nil.
  - constructor.
  - by intros ? ? ?%elem_of_nil.
  - by intros ? ?%elem_of_nil.
  - by intros ? ? ?%elem_of_nil.
  - by intros ? ? ? ? ?%elem_of_nil.
  - by intros ? ?%elem_of_nil.
  - intros k e Hk. left. by exists e.
Qed.


(** ** A concrete run: one entry accepted, published, proven by the head and removed *)

Definition demo_floor : EpochFloor := mkEpochFloor 3 (Some "0005"%string) true.

Definition demo_events : list Event :=
  [Load; Call true 0 (mkInput "chat" "msg" []); SettlePut 0 true; StartPass; Environment demo_floor false false 7;
   Resume Done; Resume (Probed (Some "0005"%string)); Resume (Sealed (mkSealed demo_floor [])); Resume Done;
   Resume Done; Resume (Probed (Some "0005"%string)); Resume Done].

Definition demo_run : option World := run 1000 5 demo_events (createLogDelivery 10 ∅ demo_floor).

Definition demo_entry : AppOutboxEntry := mkEntry 0 "chat" "msg" [] None.

Definition demo_before : list Observed :=
  [Accepted demo_entry; ProbedHead (Some "0005"%string); Submitted 0 3; Acknowledged 0 3 (Some "0005"%string) 1;
   ProbedHead (Some "0005"%string)].

