(* ===== verification/Topics.v ===== *)
(** * Topic identifiers

    packages/broadcast/src/topic.ts and packages/rpc/src/topic.ts: every topic a member reads or writes
    is derived from a secret, an epoch, a label and a scope. HKDF, SHA-256 and base64url come from
    libraries and are parameters; a string stands for its UTF-8 bytes, which [isWellFormed] says it has.
    An epoch is an integer: the code refuses the numbers that are not. *)

From S2P Require Import Prelude HubProtocol Codecs LedgerHead CodecsSpec.

Definition NUL : ascii := Ascii.zero.

Definition TOPIC_INFO_PREFIX : string := "kumiai/topic/v1".
Definition SEP : string := String NUL "".
Definition TOPIC_ID_BYTES : nat := 32.
Definition MAX_SAFE_INTEGER : Z := 2 ^ 53 - 1.

Definition INBOX_LABEL : string := "kumiai/inbox/v1".
Definition COMMIT_LABEL : string := "kumiai/commit/v1".
Definition RENDEZVOUS_LABEL : string := "kumiai/rendezvous/v1".
Definition DISCOVERY_PREFIX : string := "kumiai/discovery/v1".
Definition RESERVED_LABEL_PREFIX : string := "kumiai/".

Definition encodeEpoch (epoch : Z) : bytes := setUint 8 true epoch.

(** The three throws of topic derivation. *)
Inductive TopicError :=
  | NulByte (name : string)
  | NotWellFormed (name : string)
  | NotAnEpoch
  | ReservedNamespace.

Definition includesNul (value : string) : bool :=
  existsb (fun c => bool_decide (c = NUL)) (String.list_ascii_of_string value).

Section topics.
Context (hkdf : bytes -> bytes -> bytes -> nat -> bytes) (sha256 : bytes -> bytes)
        (toB64U : bytes -> string) (isWellFormed : string -> bool).

Definition assertComponent (value name : string) : result TopicError unit :=
  if includesNul value then Err (NulByte name)
  else if negb (isWellFormed value) then Err (NotWellFormed name) else Ok tt.

Definition assertEpoch (epoch : Z) : result TopicError unit :=
  if (MAX_SAFE_INTEGER <? epoch)%Z || (epoch <? 0)%Z then Err NotAnEpoch else Ok tt.

(** The [info] input: prefix, label and scope, separated by NUL. *)
Definition topicInfo (label scope : string) : bytes :=
  utf8 (TOPIC_INFO_PREFIX +:+ SEP +:+ label +:+ SEP +:+ scope).

Definition deriveTopicID (secret : bytes) (epoch : Z) (label scope : string) : result TopicError string :=
  _ ← assertEpoch epoch;
  _ ← assertComponent label "label";
  _ ← assertComponent scope "scope";
  Ok (toB64U (hkdf secret (encodeEpoch epoch) (topicInfo label scope) TOPIC_ID_BYTES)).

Definition protocolTopic (secret : bytes) (epoch : Z) (protocol scope : string) : result TopicError string :=
  if String.prefix RESERVED_LABEL_PREFIX protocol then Err ReservedNamespace
  else deriveTopicID secret epoch protocol scope.

Definition inboxTopic (secret : bytes) (epoch : Z) (memberDID : string) : result TopicError string :=
  deriveTopicID secret epoch INBOX_LABEL memberDID.

Definition commitTopic (recoverySecret : bytes) : result TopicError string :=
  deriveTopicID recoverySecret 0 COMMIT_LABEL "".

Definition rendezvousTopic (recoverySecret : bytes) : result TopicError string :=
  deriveTopicID recoverySecret 0 RENDEZVOUS_LABEL "".

Definition discoveryTopic (memberDID : string) : result TopicError string :=
  if negb (isWellFormed memberDID) then Err (NotWellFormed "memberDID")
  else Ok (toB64U (sha256 (utf8 (DISCOVERY_PREFIX +:+ SEP +:+ memberDID)))).

(** ** Lanes *)

(** What a secret topic is for. *)
Inductive TopicLane :=
  | ProtocolLane (epoch : Z) (protocol scope : string)
  | InboxLane (epoch : Z) (memberDID : string)
  | CommitLane
  | RendezvousLane.

Definition laneTopic (secret : bytes) (lane : TopicLane) : result TopicError string :=
  match lane with
  | ProtocolLane epoch protocol scope => protocolTopic secret epoch protocol scope
  | InboxLane epoch memberDID => inboxTopic secret epoch memberDID
  | CommitLane => commitTopic secret
  | RendezvousLane => rendezvousTopic secret
  end.

(** Two inputs of the derivation with one identifier. *)
Definition derivationCollision : Prop :=
  ∃ secret salt info secret' salt' info',
    (secret, salt, info) ≠ (secret', salt', info') ∧
    toB64U (hkdf secret salt info TOPIC_ID_BYTES) = toB64U (hkdf secret' salt' info' TOPIC_ID_BYTES).
End topics.

(** ** Facts *)

Lemma string_app_inv_l p a b : (p +:+ a)%string = (p +:+ b)%string -> a = b.
Proof. induction p as [|c p IH]; [done|]. intros [= H]. by apply IH. Qed.

(** Up to its first NUL a string is what precedes it, so a label without one is read back. *)
Lemma split_at_nul a b x y :
  includesNul a = false -> includesNul b = false ->
  (a +:+ String NUL x)%string = (b +:+ String NUL y)%string -> a = b ∧ x = y.
Proof.
  revert b. induction a as [|c a IH]; intros [|d b].
  - by intros _ _ [= ->].
  - intros _ Hb [= <- _]. by unfold includesNul in Hb; cbn in Hb.
  - intros Ha _ [= -> _]. by unfold includesNul in Ha; cbn in Ha.
  - unfold includesNul. cbn [String.list_ascii_of_string existsb].
    intros [_ Ha]%orb_false_iff [_ Hb]%orb_false_iff [= -> H].
    destruct (IH b Ha Hb H) as [-> ->]. done.
Qed.

Lemma topicInfo_inj label scope label' scope' :
  includesNul label = false -> includesNul label' = false ->
  topicInfo label scope = topicInfo label' scope' -> label = label' ∧ scope = scope'.
Proof.
  intros Hl Hl' H%utf8_inj%string_app_inv_l. unfold SEP in H. cbn in H. injection H as H.
  by apply split_at_nul in H.
Qed.

Lemma encodeEpoch_inj epoch epoch' :
  (0 <= epoch <= MAX_SAFE_INTEGER)%Z -> (0 <= epoch' <= MAX_SAFE_INTEGER)%Z ->
  encodeEpoch epoch = encodeEpoch epoch' -> epoch = epoch'.
Proof.
  unfold MAX_SAFE_INTEGER. intros He He' H%(f_equal le_combine). unfold encodeEpoch, setUint in H.
  rewrite !LittleEndianList.le_combine_split, !Z.mod_small in H by lia. done.
Qed.

(** The arguments a derivation accepts. *)
Definition acceptable isWellFormed (epoch : Z) (label scope : string) : Prop :=
  (0 <= epoch <= MAX_SAFE_INTEGER)%Z ∧ includesNul label = false ∧ includesNul scope = false ∧
  isWellFormed label = true ∧ isWellFormed scope = true.

Section facts.
Context (hkdf : bytes -> bytes -> bytes -> nat -> bytes) (toB64U : bytes -> string)
        (isWellFormed : string -> bool).
Abbreviation DERIVE := (deriveTopicID hkdf toB64U isWellFormed).
Abbreviation LANE := (laneTopic hkdf toB64U isWellFormed).

Lemma deriveTopicID_Ok secret epoch label scope id :
  DERIVE secret epoch label scope = Ok id ->
  acceptable isWellFormed epoch label scope ∧
  id = toB64U (hkdf secret (encodeEpoch epoch) (topicInfo label scope) TOPIC_ID_BYTES).
Proof.
  unfold deriveTopicID, assertEpoch, assertComponent, acceptable.
  destruct (MAX_SAFE_INTEGER <? epoch)%Z eqn:Hmax, (epoch <? 0)%Z eqn:Hneg; try done.
  destruct (includesNul label), (isWellFormed label), (includesNul scope), (isWellFormed scope); try done.
  intros [= <-]. split; [|done]. split_and!; try done; lia.
Qed.

Lemma deriveTopicID_inj secret epoch label scope secret' epoch' label' scope' id :
  DERIVE secret epoch label scope = Ok id -> DERIVE secret' epoch' label' scope' = Ok id ->
  (secret, epoch, label, scope) = (secret', epoch', label', scope') ∨ derivationCollision hkdf toB64U.
Proof.
  intros [(He & Hl & _) ->]%deriveTopicID_Ok [(He' & Hl' & _) Hid]%deriveTopicID_Ok.
  destruct (decide ((secret, encodeEpoch epoch, topicInfo label scope) =
                    (secret', encodeEpoch epoch', topicInfo label' scope'))) as [Heq|Hne].
  - apply pair_eq in Heq as [[-> Hsalt]%pair_eq Hinfo].
    apply encodeEpoch_inj in Hsalt as ->; [|done..]. apply topicInfo_inj in Hinfo as [-> ->]; [|done..].
    by left.
  - right. unfold derivationCollision. eauto 10.
Qed.

(** A lane's topic is a derivation whose label no lane of another kind uses. *)
Definition laneInputs (lane : TopicLane) : Z * string * string :=
  match lane with
  | ProtocolLane epoch protocol scope => (epoch, protocol, scope)
  | InboxLane epoch memberDID => (epoch, INBOX_LABEL, memberDID)
  | CommitLane => (0%Z, COMMIT_LABEL, "")
  | RendezvousLane => (0%Z, RENDEZVOUS_LABEL, "")
  end.

Lemma laneTopic_derived secret lane id :
  LANE secret lane = Ok id ->
  DERIVE secret (laneInputs lane).1.1 (laneInputs lane).1.2 (laneInputs lane).2 = Ok id ∧
  (∀ epoch protocol scope, lane = ProtocolLane epoch protocol scope ->
     String.prefix RESERVED_LABEL_PREFIX protocol = false).
Proof.
  destruct lane; cbn [laneTopic laneInputs fst snd]; unfold protocolTopic, inboxTopic, commitTopic, rendezvousTopic;
    try (intros H; split; [exact H|discriminate]).
  destruct (String.prefix RESERVED_LABEL_PREFIX protocol) eqn:Hp; [done|].
  intros H. split; [done|]. by intros ? ? ? [= -> -> ->].
Qed.

Lemma laneInputs_inj lane lane' :
  (∀ epoch protocol scope, lane = ProtocolLane epoch protocol scope ->
     String.prefix RESERVED_LABEL_PREFIX protocol = false) ->
  (∀ epoch protocol scope, lane' = ProtocolLane epoch protocol scope ->
     String.prefix RESERVED_LABEL_PREFIX protocol = false) ->
  laneInputs lane = laneInputs lane' -> lane = lane'.
Proof.
  destruct lane as [e p s|e d| |], lane' as [e' p' s'|e' d'| |]; cbn [laneInputs]; intros H H';
    try (by intros [= ]); try (by intros [= -> -> ->]); try (by intros [= -> ->]);
    first [specialize (H _ _ _ eq_refl)|clear H]; first [specialize (H' _ _ _ eq_refl)|clear H'];
    intros [=]; subst; discriminate.
Qed.
End facts.

(** C37. A topic names one lane: a protocol's topic at an epoch, a member's inbox, the commit log and the
    recovery rendezvous never share an identifier, and neither do two secrets, epochs, protocols, scopes
    or members, unless two different inputs of the key derivation have one output. So a host protocol
    cannot reach a framework topic, a rotated secret gives fresh topics, and the label cannot be shifted
    into the scope. *)
Theorem topics_separate hkdf toB64U isWellFormed secret secret' lane lane' id :
  laneTopic hkdf toB64U isWellFormed secret lane = Ok id ->
  laneTopic hkdf toB64U isWellFormed secret' lane' = Ok id ->
  (secret = secret' ∧ lane = lane') ∨ derivationCollision hkdf toB64U.
Proof.
  intros [H Hp]%laneTopic_derived [H' Hp']%laneTopic_derived.
  destruct (deriveTopicID_inj _ _ _ _ _ _ _ _ _ _ _ _ H H') as [Heq|]; [left|by right].
  injection Heq as -> He Hl Hs. split; [done|]. apply laneInputs_inj; [done..|].
  destruct (laneInputs lane) as [[??]?], (laneInputs lane') as [[??]?]; cbn in *. by subst.
Qed.

Lemma topics_separate_witness :
  let hkdf (secret salt info : bytes) (n : nat) := secret ++ salt ++ info in
  let id := String.string_of_list_byte (encodeEpoch 3 ++ topicInfo "chat" "room") in
  laneTopic hkdf String.string_of_list_byte (fun _ => true) [] (ProtocolLane 3 "chat" "room") = Ok id ∧
  protocolTopic hkdf String.string_of_list_byte (fun _ => true) [] 3 "kumiai/chat" "" = Err ReservedNamespace ∧
  ((([] : bytes) = [] ∧ ProtocolLane 3 "chat" "room" = ProtocolLane 3 "chat" "room") ∨
   derivationCollision hkdf String.string_of_list_byte).
Proof.
  intros hkdf id. split; [vm_compute; reflexivity|]. split; [vm_compute; reflexivity|].
  apply (topics_separate hkdf String.string_of_list_byte (fun _ => true) [] [] _ _ id); vm_compute; reflexivity.
Defined.
