(* ===== verification/AppLane.v ===== *)
(** * The app lane

    packages/rpc/src/app-lane.ts: the buffer of a segment's retained application frames, the durable read
    position over it, and the workers that hand opened frames to the host. Everything that touches the
    buffer runs under the lane's own mutex, so one such task is one function here; what the code does
    outside the mutex (a push noted, the segment reset, a worker's turn between two awaits) is a function
    of its own, and [laneStep] interleaves them. Every call that can fail or answer (the hub, the cursor
    store, the pending store, a host handler) asks an oracle with the number of calls made so far. The
    pulls of the protocols share nothing, so the concurrent [loadOne]s run one after the other. *)

From S2P Require Import Prelude HubProtocol Codecs LedgerHead Classify Topics.

(** ** Data *)

Inductive Sealed :=
  | SealedBytes (b : bytes)
  | PendingID (id : string)
  | Done.

Record AppFrame := mkAppFrame { af_position : string; af_sealed : Sealed }.

Record AppCursor := mkAppCursor {
  ac_topicID : string;
  ac_position : option string;
  ac_fetched : option string;
}.

Record AppFrameRef := mkRef {
  fr_id : string;
  fr_topicID : string;
  fr_protocol : string;
  fr_segment : Z;
  fr_position : string;
}.

Record PendingAppFrame := mkPending { pf_frame : AppFrameRef; pf_payload : bytes; pf_senderDID : string }.

Inductive StallReason := UnknownProtocol | FutureEpoch.

(** A stall notice without its error, and the notice that ends it. *)
Record AppDelivery := mkDelivery {
  ad_groupID : string;
  ad_protocol : string;
  ad_topicID : string;
  ad_position : string;
  ad_reason : option StallReason;
}.

Inductive Notice := NoticeStalled (event : AppDelivery) | NoticeResumed (event : AppDelivery).

(** protocol.ts: a procedure's [type] and [retain]. *)
Record Procedure := mkProcedure { pd_type : string; pd_retain : option string }.

Inductive Retention := RetainLog | RetainEphemeral.

Definition retentionOf (protocol : list (string * Procedure)) (procedureName : string) : Retention :=
  match jm_get procedureName protocol with
  | Some procedure =>
    if bool_decide (pd_type procedure = "event") && bool_decide (pd_retain procedure = Some "log")
    then RetainLog else RetainEphemeral
  | None => RetainEphemeral
  end.

(** What [crypto.unwrap] settles as; the two errors the lane recognises, and any other. *)
Inductive UnwrapOutcome :=
  | Opened (payload : bytes) (senderDID : string)
  | FrameAhead (frameEpoch : Z)
  | StorageError
  | Unopenable.

(** [JSON.parse] of a payload, as far as the lane reads it: it threw, it gave [null], or a value whose
    [payload.typ] and [payload.prc] are these strings, if they are strings. *)
Inductive Parsed (D : Type) :=
  | NotJSON
  | NullMessage
  | Message (typ prc : option string) (data : option D).
Arguments NotJSON {D}.
Arguments NullMessage {D}.
Arguments Message {D} typ prc data.

Inductive LaneFailure :=
  | FetchFailed
  | NonIncreasing
  | CursorStoreFailed
  | FrameStorageFailed
  | PendingStoreFailed
  | NullPayload
  | TopicRefused (error : TopicError)
  | DurableDisabled
  | NotBuffered
  | FramePending
  | FrameAlreadyDone
  | EarlierBlocks
  | OutOfFuel.

Record Anchor := mkAnchor { an_secret : bytes; an_epoch : Z }.

(** Where a worker's loop is: at no await, behind the mutex for the blocked check, in the host's handler,
    in [complete], or behind the mutex to finish the record. *)
Inductive WorkerPc :=
  | WorkerIdle
  | WorkerBlockedCheck (record : PendingAppFrame)
  | WorkerEmitting (record : PendingAppFrame)
  | WorkerCompleting (record : PendingAppFrame)
  | WorkerFinishing (record : PendingAppFrame).

Record Worker := mkWorker {
  wk_pc : WorkerPc;
  wk_requested : bool;
  wk_retryNow : bool;
  wk_backoff : Z;
  wk_timer : option Z;
}.

Definition wk_running (w : Worker) : bool := match wk_pc w with WorkerIdle => false | _ => true end.

Definition APP_FETCH_LIMIT : nat := 100.

(** ** The buffer *)

(** Which of two observations of one position the buffer keeps. *)
Definition reconcile (durable : bool) (existing incoming : Sealed) : Sealed :=
  if negb durable then match incoming with Done => Done | _ => existing end
  else match existing, incoming with
  | PendingID _, _ => existing
  | _, PendingID _ => incoming
  | Done, _ => incoming
  | SealedBytes _, _ => existing
  end.

(** The scan from the end of the buffer, so over the reversed buffer. *)
Fixpoint takeFromEnd (reversed : list AppFrame) (incoming : AppFrame) (durable : bool) : list AppFrame :=
  match reversed with
  | [] => [incoming]
  | f :: rest =>
    if decide (af_position incoming <ₛ af_position f) then f :: takeFromEnd rest incoming durable
    else if decide (af_position f = af_position incoming)
    then mkAppFrame (af_position f) (reconcile durable (af_sealed f) (af_sealed incoming)) :: rest
    else incoming :: f :: rest
  end.

Definition takeAppFrame (frames : list AppFrame) (incoming : AppFrame) (durable : bool) : list AppFrame :=
  rev (takeFromEnd (rev frames) incoming durable).

Definition isDone (f : AppFrame) : bool := match af_sealed f with Done => true | _ => false end.
Definition isSealed (f : AppFrame) : bool := match af_sealed f with SealedBytes _ => true | _ => false end.

(** The run of done frames at the front, and the rest. *)
Fixpoint splitDone (frames : list AppFrame) : list AppFrame * list AppFrame :=
  match frames with
  | [] => ([], [])
  | f :: rest => if isDone f then let '(passed, others) := splitDone rest in (f :: passed, others) else ([], frames)
  end.

(** The order of [(segment, position)]; positions are strings of digits, on which the collation the code
    asks for is the order of code units. *)
Definition recordOrder (a b : PendingAppFrame) : Prop :=
  (fr_segment (pf_frame a) < fr_segment (pf_frame b))%Z ∨
  fr_segment (pf_frame a) = fr_segment (pf_frame b) ∧ fr_position (pf_frame a) ≤ₛ fr_position (pf_frame b).

#[export] Instance recordOrder_dec a b : Decision (recordOrder a b).
Proof. unfold recordOrder. apply _. Defined.

(** ** The lane *)

(** The handle [H] and its calls; the hub; whether the n-th call of another port succeeds; the text codecs
    and hashes; and the configuration: durable delivery ([crypto.pending]), the cursor store, the
    callbacks. [le_fuel] bounds the pages of one pull. *)
Class LaneEnv (H D : Type) := {
  unwrap : H -> bytes -> bytes -> option AppFrameRef -> H * UnwrapOutcome;
  frameEpoch : bytes -> option Z;
  frameAAD : bytes -> option bytes;
  fetchTopic : nat -> string -> option string -> nat -> option FetchTopicResult;
  succeeds : nat -> bool;
  parseMessage : bytes -> Parsed D;
  emptyData : D;
  fromUTF : string -> bytes;
  toUTF : bytes -> option string;
  sha256 : bytes -> bytes;
  toB64U : bytes -> string;
  hkdf : bytes -> bytes -> bytes -> nat -> bytes;
  isWellFormed : string -> bool;
  normalizeDID : string -> string;
  localDID : string;
  protocols : list (string * list (string * Procedure));
  eventHandlers : gset string;
  groupID : option string;
  durable : bool;
  hasCursorStore : bool;
  hasOnPruned : bool;
  hasOnStalled : bool;
  hasOnResumed : bool;
  le_fuel : nat;
}.

Section lane.
Context {H D : Type} `{E : LaneEnv H D}.

(** The calls the lane makes and the inputs it records, oldest first. *)
Inductive LaneCall :=
  | Retained (topicID : string)
  | Pruned (protocol cursor : string) (oldest : option string)
  | Saved (topicID position : string)
  | Unwrapped (topicID position : string) (sealed : bytes) (outcome : UnwrapOutcome)
  | Emitted (protocol prc : string) (data : D) (senderDID : string) (frame : option AppFrameRef)
  | Completed (frame : AppFrameRef)
  | NotedDone (topicID position : string)
  | DroppedByHost (topicID position : string)
  | Restored (r : PendingAppFrame)
  | Noticed (notice : Notice).

Record Lane := mkLane {
  l_segment : list (string * list AppFrame);
  l_cursors : list (string * AppCursor);
  l_staged : list (string * list (string * AppFrame));
  l_retained : gset string;
  l_pendingRecords : list PendingAppFrame;
  l_reportedPruned : gset (string * string);
  l_blockingFrames : list ((string * string) * AppDelivery);
  l_reportedUnknown : list (string * AppDelivery);
  l_notices : option (list Notice);
  l_workers : list (string * Worker);
  l_disposed : bool;
  l_syncScheduled : bool;
  l_anchor : Anchor;
  l_store : gmap string string;
  l_handle : H;
  l_calls : nat;
  l_trace : list LaneCall;
}.

Definition setSegment (x : list (string * list AppFrame)) (l : Lane) : Lane :=
  mkLane x (l_cursors l) (l_staged l) (l_retained l) (l_pendingRecords l) (l_reportedPruned l)
    (l_blockingFrames l) (l_reportedUnknown l) (l_notices l) (l_workers l) (l_disposed l)
    (l_syncScheduled l) (l_anchor l) (l_store l) (l_handle l) (l_calls l) (l_trace l).
Definition setCursors (x : list (string * AppCursor)) (l : Lane) : Lane :=
  mkLane (l_segment l) x (l_staged l) (l_retained l) (l_pendingRecords l) (l_reportedPruned l)
    (l_blockingFrames l) (l_reportedUnknown l) (l_notices l) (l_workers l) (l_disposed l)
    (l_syncScheduled l) (l_anchor l) (l_store l) (l_handle l) (l_calls l) (l_trace l).
Definition setStaged (x : list (string * list (string * AppFrame))) (l : Lane) : Lane :=
  mkLane (l_segment l) (l_cursors l) x (l_retained l) (l_pendingRecords l) (l_reportedPruned l)
    (l_blockingFrames l) (l_reportedUnknown l) (l_notices l) (l_workers l) (l_disposed l)
    (l_syncScheduled l) (l_anchor l) (l_store l) (l_handle l) (l_calls l) (l_trace l).
Definition setRetained (x : gset string) (l : Lane) : Lane :=
  mkLane (l_segment l) (l_cursors l) (l_staged l) x (l_pendingRecords l) (l_reportedPruned l)
    (l_blockingFrames l) (l_reportedUnknown l) (l_notices l) (l_workers l) (l_disposed l)
    (l_syncScheduled l) (l_anchor l) (l_store l) (l_handle l) (l_calls l) (l_trace l).
Definition setPendingRecords (x : list PendingAppFrame) (l : Lane) : Lane :=
  mkLane (l_segment l) (l_cursors l) (l_staged l) (l_retained l) x (l_reportedPruned l)
    (l_blockingFrames l) (l_reportedUnknown l) (l_notices l) (l_workers l) (l_disposed l)
    (l_syncScheduled l) (l_anchor l) (l_store l) (l_handle l) (l_calls l) (l_trace l).
Definition setReportedPruned (x : gset (string * string)) (l : Lane) : Lane :=
  mkLane (l_segment l) (l_cursors l) (l_staged l) (l_retained l) (l_pendingRecords l) x
    (l_blockingFrames l) (l_reportedUnknown l) (l_notices l) (l_workers l) (l_disposed l)
    (l_syncScheduled l) (l_anchor l) (l_store l) (l_handle l) (l_calls l) (l_trace l).
Definition setBlockingFrames (x : list ((string * string) * AppDelivery)) (l : Lane) : Lane :=
  mkLane (l_segment l) (l_cursors l) (l_staged l) (l_retained l) (l_pendingRecords l)
    (l_reportedPruned l) x (l_reportedUnknown l) (l_notices l) (l_workers l) (l_disposed l)
    (l_syncScheduled l) (l_anchor l) (l_store l) (l_handle l) (l_calls l) (l_trace l).
Definition setReportedUnknown (x : list (string * AppDelivery)) (l : Lane) : Lane :=
  mkLane (l_segment l) (l_cursors l) (l_staged l) (l_retained l) (l_pendingRecords l)
    (l_reportedPruned l) (l_blockingFrames l) x (l_notices l) (l_workers l) (l_disposed l)
    (l_syncScheduled l) (l_anchor l) (l_store l) (l_handle l) (l_calls l) (l_trace l).
Definition setNotices (x : option (list Notice)) (l : Lane) : Lane :=
  mkLane (l_segment l) (l_cursors l) (l_staged l) (l_retained l) (l_pendingRecords l)
    (l_reportedPruned l) (l_blockingFrames l) (l_reportedUnknown l) x (l_workers l) (l_disposed l)
    (l_syncScheduled l) (l_anchor l) (l_store l) (l_handle l) (l_calls l) (l_trace l).
Definition setWorkers (x : list (string * Worker)) (l : Lane) : Lane :=
  mkLane (l_segment l) (l_cursors l) (l_staged l) (l_retained l) (l_pendingRecords l)
    (l_reportedPruned l) (l_blockingFrames l) (l_reportedUnknown l) (l_notices l) x (l_disposed l)
    (l_syncScheduled l) (l_anchor l) (l_store l) (l_handle l) (l_calls l) (l_trace l).
Definition setDisposed (x : bool) (l : Lane) : Lane :=
  mkLane (l_segment l) (l_cursors l) (l_staged l) (l_retained l) (l_pendingRecords l)
    (l_reportedPruned l) (l_blockingFrames l) (l_reportedUnknown l) (l_notices l) (l_workers l) x
    (l_syncScheduled l) (l_anchor l) (l_store l) (l_handle l) (l_calls l) (l_trace l).
Definition setSyncScheduled (x : bool) (l : Lane) : Lane :=
  mkLane (l_segment l) (l_cursors l) (l_staged l) (l_retained l) (l_pendingRecords l)
    (l_reportedPruned l) (l_blockingFrames l) (l_reportedUnknown l) (l_notices l) (l_workers l)
    (l_disposed l) x (l_anchor l) (l_store l) (l_handle l) (l_calls l) (l_trace l).
Definition setAnchor (x : Anchor) (l : Lane) : Lane :=
  mkLane (l_segment l) (l_cursors l) (l_staged l) (l_retained l) (l_pendingRecords l)
    (l_reportedPruned l) (l_blockingFrames l) (l_reportedUnknown l) (l_notices l) (l_workers l)
    (l_disposed l) (l_syncScheduled l) x (l_store l) (l_handle l) (l_calls l) (l_trace l).
Definition setStore (x : gmap string string) (l : Lane) : Lane :=
  mkLane (l_segment l) (l_cursors l) (l_staged l) (l_retained l) (l_pendingRecords l)
    (l_reportedPruned l) (l_blockingFrames l) (l_reportedUnknown l) (l_notices l) (l_workers l)
    (l_disposed l) (l_syncScheduled l) (l_anchor l) x (l_handle l) (l_calls l) (l_trace l).
Definition setHandle (x : H) (l : Lane) : Lane :=
  mkLane (l_segment l) (l_cursors l) (l_staged l) (l_retained l) (l_pendingRecords l)
    (l_reportedPruned l) (l_blockingFrames l) (l_reportedUnknown l) (l_notices l) (l_workers l)
    (l_disposed l) (l_syncScheduled l) (l_anchor l) (l_store l) x (l_calls l) (l_trace l).
Definition setCalls (x : nat) (l : Lane) : Lane :=
  mkLane (l_segment l) (l_cursors l) (l_staged l) (l_retained l) (l_pendingRecords l)
    (l_reportedPruned l) (l_blockingFrames l) (l_reportedUnknown l) (l_notices l) (l_workers l)
    (l_disposed l) (l_syncScheduled l) (l_anchor l) (l_store l) (l_handle l) x (l_trace l).
Definition setTrace (x : list LaneCall) (l : Lane) : Lane :=
  mkLane (l_segment l) (l_cursors l) (l_staged l) (l_retained l) (l_pendingRecords l)
    (l_reportedPruned l) (l_blockingFrames l) (l_reportedUnknown l) (l_notices l) (l_workers l)
    (l_disposed l) (l_syncScheduled l) (l_anchor l) (l_store l) (l_handle l) (l_calls l) x.

Definition createAppLane (anchor : Anchor) (store : gmap string string) (handle : H) : Lane :=
  mkLane [] [] [] ∅ [] ∅ [] [] None [] false false anchor store handle 0 [].

(** *** Effects *)

Definition Op (A : Type) : Type := Lane -> Lane * result LaneFailure A.

#[local] Instance op_ret : MRet Op := fun A a l => (l, Ok a).
#[local] Instance op_bind : MBind Op := fun A B f m l =>
  match m l with
  | (l, Ok a) => f a l
  | (l, Err e) => (l, Err e)
  end.

Definition throw {A} (e : LaneFailure) : Op A := fun l => (l, Err e).
Definition gets {A} (f : Lane -> A) : Op A := fun l => (l, Ok (f l)).
Definition modify (f : Lane -> Lane) : Op unit := fun l => (f l, Ok tt).
(** The failure an operation ended with, as a value. *)
Definition failureOf (m : Op unit) : Op (option LaneFailure) := fun l =>
  match m l with
  | (l, Ok _) => (l, Ok None)
  | (l, Err e) => (l, Ok (Some e))
  end.
Definition orThrow {A} (r : result TopicError A) : Op A :=
  match r with Ok a => mret a | Err e => throw (TopicRefused e) end.

Definition record (call : LaneCall) (l : Lane) : Lane := setTrace (l_trace l ++ [call]) l.

(** The next call of a port: whether it succeeds. *)
Definition callPort : Op bool := fun l => (setCalls (S (l_calls l)) l, Ok (succeeds (l_calls l))).

(** *** Notices *)

Definition hasCallback (n : Notice) : bool :=
  match n with NoticeStalled _ => hasOnStalled | NoticeResumed _ => hasOnResumed end.

Definition showNotice (n : Notice) (l : Lane) : Lane := if l_disposed l then l else record (Noticed n) l.

Definition notifyAppHost (n : Notice) (l : Lane) : Lane :=
  if negb (hasCallback n) then l
  else match l_notices l with
  | None => showNotice n l
  | Some queued => setNotices (Some (queued ++ [n])) l
  end.

(** A task under the lane's mutex: notices raised by it are shown when it ends, however it ends. *)
Definition runAppLane {A} (fn : Op A) : Op A := fun l =>
  let '(l, r) := fn (setNotices (Some []) l) in
  (setNotices None (foldl (fun l n => showNotice n l) l (default [] (l_notices l))), r).

Definition resumeBlocked (topicID position : string) (l : Lane) : Lane :=
  match jm_get (topicID, position) (l_blockingFrames l) with
  | Some event =>
    if l_disposed l then l
    else notifyAppHost (NoticeResumed event)
           (setBlockingFrames (jm_delete (topicID, position) (l_blockingFrames l)) l)
  | None => l
  end.

Definition resumeUnknown (r : PendingAppFrame) (l : Lane) : Lane :=
  match jm_get (fr_id (pf_frame r)) (l_reportedUnknown l) with
  | Some event =>
    if l_disposed l then l
    else notifyAppHost (NoticeResumed event)
           (setReportedUnknown (jm_delete (fr_id (pf_frame r)) (l_reportedUnknown l)) l)
  | None => l
  end.

Definition reportBlocked (protocol topicID position : string) (reason : option StallReason) (l : Lane) : Lane :=
  if l_disposed l || negb hasOnStalled || jm_has (topicID, position) (l_blockingFrames l) then l
  else match groupID with
  | None => l
  | Some group =>
    let event := mkDelivery group protocol topicID position reason in
    notifyAppHost (NoticeStalled event)
      (setBlockingFrames (jm_set (topicID, position) event (l_blockingFrames l)) l)
  end.

Definition reportUnknown (r : PendingAppFrame) (l : Lane) : Lane :=
  let frame := pf_frame r in
  if l_disposed l || negb hasOnStalled || jm_has (fr_protocol frame) protocols
     || jm_has (fr_id frame) (l_reportedUnknown l) then l
  else match groupID with
  | None => l
  | Some group =>
    let event := mkDelivery group (fr_protocol frame) (fr_topicID frame) (fr_position frame) (Some UnknownProtocol) in
    notifyAppHost (NoticeStalled event)
      (setReportedUnknown (jm_set (fr_id frame) event (l_reportedUnknown l)) l)
  end.

(** The callback's own failure is swallowed. *)
Definition reportPrunedWindow (name topicID cursor : string) (oldest : option string) (l : Lane) : Lane :=
  if negb hasOnPruned || bool_decide (groupID = None) then l
  else if bool_decide ((topicID, cursor) ∈ l_reportedPruned l) then l
  else record (Pruned name cursor oldest) (setReportedPruned ({[(topicID, cursor)]} ∪ l_reportedPruned l) l).

(** *** The buffer and its positions *)

Definition framesOf (name : string) (l : Lane) : list AppFrame := default [] (jm_get name (l_segment l)).
Definition setFrames (name : string) (frames : list AppFrame) (l : Lane) : Lane :=
  setSegment (jm_set name frames (l_segment l)) l.
Definition setCursor (name : string) (cursor : AppCursor) (l : Lane) : Lane :=
  setCursors (jm_set name cursor (l_cursors l)) l.

Definition laneFor (name : string) : Op AppCursor :=
  _ ← modify (fun l => match jm_get name (l_segment l) with Some _ => l | None => setFrames name [] l end);
  cursor ← gets (fun l => jm_get name (l_cursors l));
  match cursor with
  | Some cursor => mret cursor
  | None =>
    at_ ← gets l_anchor;
    topicID ← orThrow (protocolTopic hkdf toB64U isWellFormed (an_secret at_) (an_epoch at_) name "");
    stored ← (if hasCursorStore
              then ok ← callPort;
                   if (ok : bool) then gets (fun l => l_store l !! topicID) else throw CursorStoreFailed
              else mret None);
    let cursor := mkAppCursor topicID stored None in
    _ ← modify (setCursor name cursor);
    mret cursor
  end.

(** How a frame served by the hub enters the buffer. *)
Definition pulledFrame (name topicID : string) (records : list PendingAppFrame) (message : StoredMessage) : AppFrame :=
  let position := sm_sequenceID message in
  mkAppFrame position
    match find (fun r => bool_decide (fr_protocol (pf_frame r) = name) && bool_decide (fr_topicID (pf_frame r) = topicID)
                         && bool_decide (fr_position (pf_frame r) = position)) records with
    | Some restored => PendingID (fr_id (pf_frame restored))
    | None =>
      if bool_decide (normalizeDID (sm_senderDID message) = localDID) then Done
      else SealedBytes (sm_payload message)
    end.

Definition bufferPage (name topicID : string) (messages : list StoredMessage) (l : Lane) : Lane :=
  setFrames name
    (foldl (fun frames f => takeAppFrame frames f durable) (framesOf name l)
       (map (pulledFrame name topicID (l_pendingRecords l)) messages)) l.

Definition setFetched (name : string) (after : option string) (l : Lane) : Lane :=
  match jm_get name (l_cursors l) with
  | Some cursor => setCursor name (mkAppCursor (ac_topicID cursor) (ac_position cursor) after) l
  | None => l
  end.

(** The last position of a page, or the cursor it was asked from. *)
Definition pageEnd (after : option string) (messages : list StoredMessage) : option string :=
  match last (map sm_sequenceID messages) with Some position => Some position | None => after end.

Fixpoint loadPages (fuel : nat) (name topicID : string) (after : option string) : Op unit :=
  match fuel with
  | O => throw OutOfFuel
  | S fuel =>
    n ← gets l_calls;
    _ ← modify (setCalls (S n));
    match fetchTopic n topicID after APP_FETCH_LIMIT with
    | None => throw FetchFailed
    | Some result =>
      let messages := fr_messages result in
      if negb (assertForwardPage after (map sm_sequenceID messages)) then throw NonIncreasing
      else
        _ ← modify (fun l => match after with
                             | Some cursor => if fr_gap result then reportPrunedWindow name topicID cursor (fr_oldest result) l else l
                             | None => l
                             end);
        _ ← modify (bufferPage name topicID messages);
        _ ← modify (setFetched name (pageEnd after messages));
        if (length messages <? APP_FETCH_LIMIT)%nat then mret tt
        else loadPages fuel name topicID (pageEnd after messages)
    end
  end.

Definition retainOnce (topicID : string) (l : Lane) : Lane :=
  if bool_decide (topicID ∈ l_retained l) then l
  else record (Retained topicID) (setRetained ({[topicID]} ∪ l_retained l) l).

(** A push on a topic this peer has since left is dropped. *)
Definition mergeStaged (name topicID : string) (l : Lane) : Lane :=
  let pushes := default [] (jm_get name (l_staged l)) in
  setStaged (jm_delete name (l_staged l))
    (setFrames name
       (foldl (fun frames push => if bool_decide (push.1 = topicID) then takeAppFrame frames push.2 durable else frames)
          (framesOf name l) pushes) l).

Definition resumeAfter (cursor : AppCursor) : option string :=
  match ac_fetched cursor with Some position => Some position | None => ac_position cursor end.

Definition loadOne (name : string) : Op unit :=
  cursor ← laneFor name;
  _ ← modify (retainOnce (ac_topicID cursor));
  _ ← modify (mergeStaged name (ac_topicID cursor));
  loadPages le_fuel name (ac_topicID cursor) (resumeAfter cursor).

(** Every pull settles; the first failure is raised. *)
Fixpoint loadAll (names : list string) (failure : option LaneFailure) : Op unit := fun l =>
  match names with
  | [] => match failure with Some e => throw e l | None => (l, Ok tt) end
  | name :: rest =>
    let '(l, r) := loadOne name l in
    loadAll rest (match failure, r with None, Err e => Some e | _, _ => failure end) l
  end.

Definition loadSegment : Op unit := loadAll (map fst protocols) None.

Definition saveCursor (topicID position : string) : Op unit :=
  if negb hasCursorStore then mret tt
  else ok ← callPort;
       if (ok : bool)
       then modify (fun l => record (Saved topicID position) (setStore (<[topicID := position]> (l_store l)) l))
       else throw CursorStoreFailed.

Definition advanceCursor (name : string) : Op unit :=
  cursor ← gets (fun l => jm_get name (l_cursors l));
  match cursor with
  | None => mret tt
  | Some cursor =>
    split ← gets (fun l => splitDone (framesOf name l));
    _ ← modify (setFrames name split.2);
    match last split.1 with
    | None => mret tt
    | Some f =>
      if bool_decide (Some (af_position f) = ac_position cursor) then mret tt
      else
        _ ← modify (setCursor name (mkAppCursor (ac_topicID cursor) (Some (af_position f)) (ac_fetched cursor)));
        saveCursor (ac_topicID cursor) (af_position f)
    end
  end.

Fixpoint advanceAll (names : list string) : Op unit :=
  match names with
  | [] => mret tt
  | name :: rest => _ ← advanceCursor name; advanceAll rest
  end.

(** [segment] iterates its keys in insertion order. *)
Definition segmentNames (l : Lane) : list string := map fst (l_segment l).

(** *** The live lane *)

Definition scheduleSync (l : Lane) : Lane := setSyncScheduled true l.

(** The task a scheduled sync runs; its failure is swallowed. *)
Definition syncTask : Op unit :=
  _ ← modify (setSyncScheduled false);
  _ ← loadSegment;
  names ← gets segmentNames;
  advanceAll names.

(** A log-class push, once its live open settled; [ahead] is whether it was refused as ahead. *)
Definition note (name topicID : string) (message : StoredMessage) (ahead : bool) (l : Lane) : Lane :=
  match sm_logPosition message with
  | None => l
  | Some position =>
    if durable then scheduleSync l
    else
      let sealed := if ahead then SealedBytes (sm_payload message) else Done in
      let pushes := default [] (jm_get name (l_staged l)) in
      let l := if ahead then l else record (NotedDone topicID position) l in
      scheduleSync
        (setStaged (jm_set name (pushes ++ [(topicID, mkAppFrame position sealed)]) (l_staged l)) l)
  end.

(** *** The drain *)

Definition frameID (topicID : string) (sealed : bytes) : string :=
  toB64U (sha256 (setUint 4 false (Codecs.size (fromUTF topicID)) ++ fromUTF topicID ++ sealed)).

(** [encodeAppAAD] may throw inside the [try] of the open. *)
Definition openFrame (topicID position : string) (sealed : bytes) (ref : option AppFrameRef) : Op UnwrapOutcome := fun l =>
  match encodeAppAAD fromUTF toUTF (mkAppAAD topicID LogIntent) with
  | Err _ => (l, Ok Unopenable)
  | Ok expectedAAD =>
    let '(handle, outcome) := unwrap (l_handle l) sealed expectedAAD ref in
    (record (Unwrapped topicID position sealed outcome) (setHandle handle l), Ok outcome)
  end.

(** The cleartext a durable drain asks for before it opens anything. *)
Definition onThisLane (topicID : string) (sealed : bytes) : bool :=
  match decodeAppAAD toUTF (default [] (frameAAD sealed)) with
  | Some decoded => bool_decide (aad_topicID decoded = topicID) &&
                    match aad_intent decoded with LogIntent => true | Ephemeral => false end
  | None => false
  end.

Definition logProcedure (name prc : string) : bool :=
  match jm_get name protocols with
  | Some protocol => match retentionOf protocol prc with RetainLog => true | RetainEphemeral => false end
  | None => false
  end.

(** An opened frame handed to the host, or dropped as the live transport would. A handler's own failure
    is swallowed, so the call is all that is seen of it. *)
Definition handOver (name : string) (payload : bytes) (sender : string) : Op unit :=
  if negb (bool_decide (name ∈ eventHandlers)) then mret tt
  else if bool_decide (normalizeDID sender = localDID) then mret tt
  else match parseMessage payload with
  | NotJSON => mret tt
  | NullMessage => throw NullPayload
  | Message typ prc data =>
    match typ, prc with
    | Some typ, Some prc =>
      if bool_decide (typ = "event") && logProcedure name prc
      then modify (record (Emitted name prc (default emptyData data) (normalizeDID sender) None))
      else mret tt
    | _, _ => mret tt
    end
  end.

(** What the open of one sealed frame leaves of it, and the error it raises after that. *)
Definition drainFrame (name topicID position : string) (sealed : bytes) : Op (Sealed * option LaneFailure) :=
  let dead := _ ← modify (resumeBlocked topicID position); mret (Done, None) in
  if bool_decide (frameEpoch sealed = None) then dead
  else if durable && negb (onThisLane topicID sealed) then dead
  else
    segment ← gets (fun l => an_epoch (l_anchor l));
    let ref := mkRef (frameID topicID sealed) topicID name segment position in
    outcome ← openFrame topicID position sealed (if durable then Some ref else None);
    match outcome with
    | FrameAhead _ =>
      _ ← (if durable then modify (reportBlocked name topicID position (Some FutureEpoch)) else mret tt);
      mret (SealedBytes sealed, None)
    | StorageError =>
      if durable then
        _ ← modify (reportBlocked name topicID position None);
        mret (SealedBytes sealed, Some FrameStorageFailed)
      else dead
    | Unopenable => dead
    | Opened payload sender =>
      if durable then
        _ ← modify (fun l => setPendingRecords (l_pendingRecords l ++ [mkPending ref payload sender]) l);
        mret (PendingID (fr_id ref), None)
      else
        _ ← modify (resumeBlocked topicID position);
        raised ← failureOf (handOver name payload sender);
        mret (Done, raised)
    end.

(** The frames of one protocol in order; [before] is the part of the buffer already walked. *)
Fixpoint drainFrames (name topicID : string) (before todo : list AppFrame) : Op unit :=
  match todo with
  | [] => mret tt
  | f :: rest =>
    match af_sealed f with
    | SealedBytes sealed =>
      answer ← drainFrame name topicID (af_position f) sealed;
      let f := mkAppFrame (af_position f) answer.1 in
      _ ← modify (setFrames name (before ++ f :: rest));
      match answer.2 with
      | Some e => throw e
      | None => drainFrames name topicID (before ++ [f]) rest
      end
    | _ => drainFrames name topicID (before ++ [f]) rest
    end
  end.

Definition drainOne (name : string) : Op unit :=
  cursor ← gets (fun l => jm_get name (l_cursors l));
  frames ← gets (framesOf name);
  match cursor with
  | None => mret tt
  | Some cursor =>
    if bool_decide (frames = []) || (negb (bool_decide (name ∈ eventHandlers)) && negb durable) then mret tt
    else _ ← drainFrames name (ac_topicID cursor) [] frames; advanceCursor name
  end.

Fixpoint drainAll (names : list string) : Op unit :=
  match names with
  | [] => mret tt
  | name :: rest => _ ← drainOne name; drainAll rest
  end.

Definition drain : Op unit :=
  _ ← loadSegment;
  names ← gets segmentNames;
  drainAll names.

(** *** The delivery workers *)

Definition orderedRecords (name : string) (l : Lane) : list PendingAppFrame :=
  merge_sort recordOrder
    (filter (fun r => fr_protocol (pf_frame r) = name) (l_pendingRecords l)).

Definition blockedByEarlierSealed (r : PendingAppFrame) (l : Lane) : bool :=
  match jm_get (fr_protocol (pf_frame r)) (l_cursors l) with
  | Some cursor =>
    bool_decide (ac_topicID cursor = fr_topicID (pf_frame r)) &&
    existsb (fun f => bool_decide (af_position f <ₛ fr_position (pf_frame r)) && isSealed f)
      (framesOf (fr_protocol (pf_frame r)) l)
  | None => false
  end.

Definition setWorker (name : string) (w : Worker) (l : Lane) : Lane :=
  setWorkers (jm_set name w (l_workers l)) l.

Definition newWorker : Worker := mkWorker WorkerIdle false false 1000 None.

Definition scheduleWorker (name : string) (delay : Z) (l : Lane) : Lane :=
  if l_disposed l || negb durable then l
  else
    let w := default newWorker (jm_get name (l_workers l)) in
    setWorker name
      (mkWorker (wk_pc w) true (wk_retryNow w) (wk_backoff w)
         (if wk_running w then wk_timer w else match wk_timer w with Some _ => wk_timer w | None => Some delay end)) l.

Definition withPc (pc : WorkerPc) (w : Worker) : Worker :=
  mkWorker pc (wk_requested w) (wk_retryNow w) (wk_backoff w) (wk_timer w).
Definition withBackoff (backoff : Z) (w : Worker) : Worker :=
  mkWorker (wk_pc w) (wk_requested w) (wk_retryNow w) backoff (wk_timer w).
Definition onWorker (name : string) (f : Worker -> Worker) (l : Lane) : Lane :=
  setWorker name (f (default newWorker (jm_get name (l_workers l)))) l.

(** The loop's [finally]. *)
Definition leaveLoop (failed : bool) (name : string) (l : Lane) : Lane :=
  let w := default newWorker (jm_get name (l_workers l)) in
  if wk_retryNow w
  then scheduleWorker name 0 (setWorker name (mkWorker WorkerIdle (wk_requested w) false (wk_backoff w) (wk_timer w)) l)
  else if failed
  then scheduleWorker name (wk_backoff w)
         (setWorker name (mkWorker WorkerIdle (wk_requested w) false (Z.min (wk_backoff w * 2) 60000) (wk_timer w)) l)
  else
    let l := setWorker name (withPc WorkerIdle w) l in
    if wk_requested w then scheduleWorker name 0 l else l.

(** The head of the loop, up to the blocked check it awaits. *)
Definition nextRecord (name : string) (l : Lane) : Lane :=
  if l_disposed l then leaveLoop false name l
  else match head (orderedRecords name l) with
  | None => leaveLoop false name l
  | Some r =>
    if negb (jm_has (fr_protocol (pf_frame r)) protocols) then leaveLoop false name l
    else onWorker name (withPc (WorkerBlockedCheck r)) l
  end.

(** The timer of a scheduled worker fires. *)
Definition fireTimer (name : string) (l : Lane) : Lane :=
  match jm_get name (l_workers l) with
  | Some w =>
    match wk_timer w with
    | Some _ =>
      if l_disposed l then l
      else nextRecord name (setWorker name (mkWorker (wk_pc w) false (wk_retryNow w) (wk_backoff w) None) l)
    | None => l
    end
  | None => l
  end.

(** The event a record is handed to the host as, when it is one. *)
Definition deliverable (r : PendingAppFrame) : option (string * D) :=
  let name := fr_protocol (pf_frame r) in
  match parseMessage (pf_payload r) with
  | Message (Some typ) (Some prc) data =>
    if negb (bool_decide (normalizeDID (pf_senderDID r) = localDID)) && bool_decide (typ = "event")
       && logProcedure name prc && bool_decide (name ∈ eventHandlers)
    then Some (prc, default emptyData data) else None
  | _ => None
  end.

Fixpoint updateFrame (position : string) (f : AppFrame -> AppFrame) (frames : list AppFrame) : list AppFrame :=
  match frames with
  | [] => []
  | g :: rest => if decide (af_position g = position) then f g :: rest else g :: updateFrame position f rest
  end.

Fixpoint removeRecord (id : string) (records : list PendingAppFrame) : list PendingAppFrame :=
  match records with
  | [] => []
  | r :: rest => if decide (fr_id (pf_frame r) = id) then rest else r :: removeRecord id rest
  end.

(** The task that follows a completed record. *)
Definition finishTask (r : PendingAppFrame) : Op unit :=
  let frame := pf_frame r in
  _ ← modify (fun l => setPendingRecords (removeRecord (fr_id frame) (l_pendingRecords l)) l);
  _ ← modify (resumeBlocked (fr_topicID frame) (fr_position frame));
  _ ← modify (resumeUnknown r);
  cursor ← gets (fun l => jm_get (fr_protocol frame) (l_cursors l));
  frames ← gets (fun l => jm_get (fr_protocol frame) (l_segment l));
  match cursor, frames with
  | Some cursor, Some frames =>
    if bool_decide (ac_topicID cursor = fr_topicID frame) then
      _ ← modify (setFrames (fr_protocol frame)
            (updateFrame (fr_position frame)
               (fun g => match af_sealed g with
                         | PendingID id => if decide (id = fr_id frame) then mkAppFrame (af_position g) Done else g
                         | _ => g
                         end) frames));
      advanceCursor (fr_protocol frame)
    else mret tt
  | _, _ => mret tt
  end.

(** A turn of a worker's loop: the await it is at settled. *)
Definition workerTurn (name : string) (l : Lane) : Lane :=
  match wk_pc (default newWorker (jm_get name (l_workers l))) with
  | WorkerIdle => l
  | WorkerBlockedCheck r =>
    if blockedByEarlierSealed r l || l_disposed l then leaveLoop false name l
    else match deliverable r with
    | Some (prc, data) =>
      onWorker name (withPc (WorkerEmitting r))
        (record (Emitted (fr_protocol (pf_frame r)) prc data (normalizeDID (pf_senderDID r)) (Some (pf_frame r))) l)
    | None => onWorker name (withPc (WorkerCompleting r)) l
    end
  | WorkerEmitting r =>
    let '(l, ok) := callPort l in
    match ok with
    | Ok true =>
      if l_disposed l then nextRecord name (onWorker name (withBackoff 1000) l)
      else onWorker name (withPc (WorkerCompleting r)) l
    | _ => leaveLoop true name l
    end
  | WorkerCompleting r =>
    let '(l, ok) := callPort l in
    match ok with
    | Ok true =>
      let l := record (Completed (pf_frame r)) l in
      if l_disposed l then nextRecord name (onWorker name (withBackoff 1000) l)
      else onWorker name (withPc (WorkerFinishing r)) l
    | _ => leaveLoop true name l
    end
  | WorkerFinishing r =>
    match runAppLane (finishTask r) l with
    | (l, Ok _) => nextRecord name (onWorker name (withBackoff 1000) l)
    | (l, Err _) => leaveLoop true name l
    end
  end.

(** *** The lane's interface *)

Definition pendingNames (l : Lane) : list string :=
  list_fmap _ _ (fun r => fr_protocol (pf_frame r)) (l_pendingRecords l).

(** [deliver]; the workers are started at once, as a lane without its own scheduling does. *)
Definition deliver : Op unit := fun l =>
  let '(l, r) := runAppLane drain l in
  (if durable && negb (l_disposed l)
   then foldl (fun l name => scheduleWorker name 0 l)
          (foldl (fun l r => reportUnknown r l) l (l_pendingRecords l)) (remove_dups (pendingNames l))
   else l, r).

Definition retryDelivery (topicID : option string) (l : Lane) : Lane :=
  if l_disposed l then l
  else
    foldl (fun l name =>
      let skip := match topicID with
        | None => false
        | Some topic =>
          negb (bool_decide (ac_topicID <$> jm_get name (l_cursors l) = Some topic)) &&
          negb (existsb (fun r => bool_decide (fr_protocol (pf_frame r) = name)
                                  && bool_decide (fr_topicID (pf_frame r) = topic)) (l_pendingRecords l))
        end in
      if skip then l
      else
        scheduleWorker name 0
          match jm_get name (l_workers l) with
          | Some w => setWorker name (mkWorker (wk_pc w) (wk_requested w) (wk_running w) 1000 None) l
          | None => l
          end)
      l (remove_dups (map fst (l_workers l) ++ pendingNames l)).

Definition completeRecord (frame : AppFrameRef) : Op unit :=
  ok ← callPort;
  if (ok : bool) then modify (record (Completed frame)) else throw PendingStoreFailed.

Definition dropFrame (topicID position : string) : Op unit := runAppLane (
  if negb durable then throw DurableDisabled
  else
    unknown ← gets (fun l => find (fun r => negb (jm_has (fr_protocol (pf_frame r)) protocols)
                                            && bool_decide (fr_topicID (pf_frame r) = topicID)
                                            && bool_decide (fr_position (pf_frame r) = position)) (l_pendingRecords l));
    match unknown with
    | Some r =>
      _ ← completeRecord (pf_frame r);
      _ ← modify (fun l => setPendingRecords (removeRecord (fr_id (pf_frame r)) (l_pendingRecords l)) l);
      modify (resumeUnknown r)
    | None =>
      entry ← gets (fun l => find (fun entry => bool_decide (ac_topicID (snd entry) = topicID)) (l_cursors l));
      match entry with
      | None => throw NotBuffered
      | Some (name, _) =>
        frames ← gets (framesOf name);
        match find (fun f => bool_decide (af_position f = position)) frames with
        | None => throw NotBuffered
        | Some f =>
          match af_sealed f with
          | PendingID _ => throw FramePending
          | Done => throw FrameAlreadyDone
          | SealedBytes _ =>
            if existsb (fun g => bool_decide (af_position g <ₛ position) && negb (isDone g)) frames
            then throw EarlierBlocks
            else
              _ ← modify (record (DroppedByHost topicID position));
              _ ← modify (setFrames name (updateFrame position (fun g => mkAppFrame (af_position g) Done) frames));
              _ ← modify (resumeBlocked topicID position);
              advanceCursor name
          end
        end
      end
    end).

Definition restore (records : list PendingAppFrame) : Op unit := runAppLane (
  modify (fun l =>
    let l := foldl (fun l r =>
      let l := reportUnknown r l in
      if existsb (fun item => bool_decide (fr_id (pf_frame item) = fr_id (pf_frame r))) (l_pendingRecords l)
      then l else record (Restored r) (setPendingRecords (l_pendingRecords l ++ [r]) l)) l records in
    setPendingRecords (merge_sort recordOrder (l_pendingRecords l)) l)).

Definition dispose (l : Lane) : Lane :=
  setDisposed true
    (setWorkers (map (fun entry => (entry.1, mkWorker (wk_pc entry.2) (wk_requested entry.2) (wk_retryNow entry.2)
                                               (wk_backoff entry.2) None)) (l_workers l)) l).

Definition reset (l : Lane) : Lane :=
  let cleared := map snd (l_blockingFrames l) in
  let l := setBlockingFrames [] l in
  let l := if l_disposed l then l else foldl (fun l event => notifyAppHost (NoticeResumed event) l) l cleared in
  setRetained ∅ (setStaged [] (setCursors [] (setSegment [] l))).

(** *** Interleaving *)

(** What happens to the lane, one task or turn at a time. [MoveAnchor] and [MoveHandle] are the peer's:
    its anchor rotates and its commits move the handle. *)
Inductive LaneInput :=
  | Note (name topicID : string) (message : StoredMessage) (ahead : bool)
  | Sync
  | Deliver
  | FireTimer (name : string)
  | WorkerTurn (name : string)
  | DropFrame (topicID position : string)
  | RetryDelivery (topicID : option string)
  | RestoreRecords (records : list PendingAppFrame)
  | Reset
  | Dispose
  | MoveAnchor (anchor : Anchor)
  | MoveHandle (handle : H).

Definition laneStep (l : Lane) (input : LaneInput) : Lane :=
  match input with
  | Note name topicID message ahead => note name topicID message ahead l
  | Sync => if l_syncScheduled l then fst (runAppLane syncTask l) else l
  | Deliver => fst (deliver l)
  | FireTimer name => fireTimer name l
  | WorkerTurn name => workerTurn name l
  | DropFrame topicID position => fst (dropFrame topicID position l)
  | RetryDelivery topicID => retryDelivery topicID l
  | RestoreRecords records => fst (restore records l)
  | Reset => reset l
  | Dispose => dispose l
  | MoveAnchor anchor => setAnchor anchor l
  | MoveHandle handle => setHandle handle l
  end.

Definition laneRun (l : Lane) (inputs : list LaneInput) : Lane := foldl laneStep l inputs.
End lane.
