(* ===== verification/AppLaneSpec.v ===== *)
(** * The app lane's durable cursor, its buffer and its workers

    Three properties of AppLane.v. The hub is any that serves the contract of HubSpec.v, its log growing
    between calls; the host's handlers, the cursor store and the handle answer as they please. *)

From S2P Require Import Prelude HubProtocol HubSpec Codecs LedgerHead Classify Topics AppLane.

(** ** The buffer *)

Lemma takeAppFrame_snoc frames x g d :
  takeAppFrame (frames ++ [x]) g d =
  if decide (af_position g <ₛ af_position x) then takeAppFrame frames g d ++ [x]
  else if decide (af_position x = af_position g)
  then frames ++ [mkAppFrame (af_position x) (reconcile d (af_sealed x) (af_sealed g))]
  else frames ++ [x; g].
Proof.
  unfold takeAppFrame. rewrite rev_app_distr. cbn [rev app takeFromEnd].
  repeat case_decide; cbn [rev]; rewrite ?rev_involutive, <- ?app_assoc; done.
Qed.

Abbreviation framePositions := (map af_position).

Lemma takeAppFrame_positions frames g d p :
  p ∈ framePositions (takeAppFrame frames g d) <-> p = af_position g ∨ p ∈ framePositions frames.
Proof.
  induction frames as [|x frames IH] using rev_ind.
  - cbn. set_solver.
  - rewrite takeAppFrame_snoc. case_decide; [|case_decide as Heq]; rewrite !map_app; cbn [map af_position];
      rewrite ?elem_of_app; [rewrite IH; set_solver|rewrite <- Heq; set_solver|set_solver].
Qed.

Lemma takeAppFrame_elem frames g d f :
  f ∈ takeAppFrame frames g d ->
  f ∈ frames ∨ f = g ∨
  ∃ x, x ∈ frames ∧ af_position x = af_position g ∧
       f = mkAppFrame (af_position g) (reconcile d (af_sealed x) (af_sealed g)).
Proof.
  induction frames as [|x frames IH] using rev_ind.
  - cbn. set_solver.
  - rewrite takeAppFrame_snoc. case_decide; [|case_decide as Heq].
    + intros [[?|[?|(y & ? & ? & ?)]]%IH|?]%elem_of_app; [set_solver|set_solver| |set_solver].
      right; right. exists y. set_solver.
    + intros [?|Hf%list_elem_of_singleton]%elem_of_app; [set_solver|]. right; right. exists x.
      rewrite <- Heq. set_solver.
    + set_solver.
Qed.

Lemma takeAppFrame_ascending frames g d :
  ascending (framePositions frames) -> ascending (framePositions (takeAppFrame frames g d)).
Proof.
  induction frames as [|x frames IH] using rev_ind; [intros _; repeat constructor|].
  rewrite takeAppFrame_snoc, map_app. intros (Ha & _ & Hlt)%ascending_app.
  case_decide as Hgx; [|case_decide as Heq]; rewrite map_app; cbn [map af_position].
  - apply ascending_snoc; [by apply IH|]. intros y [->|Hy]%takeAppFrame_positions; [done|].
    apply Hlt; [done|set_solver].
  - apply ascending_snoc; [done|]. intros y Hy. apply Hlt; [done|set_solver].
  - assert (af_position x <ₛ af_position g) as Hxg.
    { apply not_slt in Hgx. apply sle_lt_or_eq in Hgx as [|]; [done|congruence]. }
    rewrite (app_assoc _ [_] [_] : map _ frames ++ [af_position x; af_position g] = _).
    apply ascending_snoc.
    + apply ascending_snoc; [done|]. intros y Hy. apply Hlt; [done|set_solver].
    + intros y [Hy| ->%list_elem_of_singleton]%elem_of_app; [|done].
      etrans; [apply (Hlt y (af_position x)); [done|set_solver]|done].
Qed.

Lemma reconcile_one d s s' : reconcile d s s' = s ∨ reconcile d s s' = s'.
Proof. destruct d, s, s'; cbn; auto. Qed.

Lemma splitDone_spec frames :
  frames = (splitDone frames).1 ++ (splitDone frames).2 ∧ ∀ f, f ∈ (splitDone frames).1 -> af_sealed f = Done.
Proof.
  induction frames as [|f frames [IH1 IH2]]; [split; [done|set_solver]|]. cbn [splitDone].
  unfold isDone. destruct (af_sealed f) eqn:Hs; try (split; [done|set_solver]).
  destruct (splitDone frames) as [passed others]. cbn in *. split; [by rewrite <- IH1|].
  intros g [->|Hg]%elem_of_cons; auto.
Qed.

Lemma updateFrame_spec position f frames :
  updateFrame position f frames = frames ∨
  ∃ before g rest, frames = before ++ g :: rest ∧ af_position g = position ∧
    updateFrame position f frames = before ++ f g :: rest.
Proof.
  induction frames as [|g frames IH]; [by left|]. cbn [updateFrame]. case_decide as Hg.
  - right. exists [], g, frames. done.
  - destruct IH as [-> |(before & x & rest & -> & Hx & ->)]; [by left|right].
    exists (g :: before), x, rest. done.
Qed.

Section spec.
Context {H D : Type} `{E : LaneEnv H D}.
Implicit Types (l : Lane (H := H) (D := D)).

(** ** Triples

    [triple P m Q X]: from a lane in [P], [m] ends in [Q] with its value, or throws in [X]. *)

Definition triple {A} (P : Lane -> Prop) (m : Op (H := H) (D := D) A) (Q : A -> Lane -> Prop) (X : Lane -> Prop) : Prop :=
  ∀ l, P l -> match m l with (l', Ok a) => Q a l' | (l', Err _) => X l' end.

Lemma triple_bind {A B} P (m : Op A) Q (f : A -> Op B) R X :
  triple P m Q X -> (∀ a, triple (Q a) (f a) R X) -> triple P (op_bind A B f m) R X.
Proof.
  intros Hm Hf l HP. specialize (Hm l HP). unfold op_bind.
  destruct (m l) as [l' [a|e]]; [by apply Hf|done].
Qed.

Lemma triple_seq {A B} (P Q : Lane -> Prop) (m : Op A) (k : Op B) R X :
  triple P m (fun _ => Q) X -> triple Q k R X -> triple P (op_bind A B (fun _ => k) m) R X.
Proof. intros Hm Hk. eapply triple_bind; [exact Hm|]. by intros a. Qed.

Lemma triple_ret {A} P (a : A) X : triple P (op_ret A a) (fun b l => b = a ∧ P l) X.
Proof. by intros l HP. Qed.

Lemma triple_post {A} P (m : Op A) (Q Q' : A -> Lane -> Prop) X :
  triple P m Q X -> (∀ a l, Q a l -> Q' a l) -> triple P m Q' X.
Proof. intros Hm HQ l HP. specialize (Hm l HP). destruct (m l) as [l' [a|e]]; auto. Qed.

Lemma triple_pre {A} (P P' : Lane -> Prop) (m : Op A) Q X :
  triple P' m Q X -> (∀ l, P l -> P' l) -> triple P m Q X.
Proof. intros Hm HP l Hl. apply Hm. auto. Qed.

Lemma triple_throw {A} (P : Lane -> Prop) e Q X : (∀ l, P l -> X l) -> triple P (throw (A := A) e) Q X.
Proof. intros HX l HP. by apply HX. Qed.

Lemma triple_modify P f (Q : Lane -> Prop) X : (∀ l, P l -> Q (f l)) -> triple P (modify f) (fun _ => Q) X.
Proof. intros HQ l HP. by apply HQ. Qed.

Lemma triple_gets {A} P (f : Lane -> A) X : triple P (gets f) (fun a l => a = f l ∧ P l) X.
Proof. by intros l HP. Qed.

(** ** What the buffer does not depend on *)

(** The fields a buffer's invariant reads are the same; the trace and the count of calls only grow. *)
Record calm l l' : Prop := {
  calm_frames : ∀ name, framesOf name l' = framesOf name l;
  calm_cursors : l_cursors l' = l_cursors l;
  calm_staged : l_staged l' = l_staged l;
  calm_store : l_store l' = l_store l;
  calm_calls : l_calls l ≤ l_calls l';
  calm_trace : l_trace l `prefix_of` l_trace l';
}.

(** The same for the pending records and the workers too. *)
Record quiet l l' : Prop := {
  quiet_calm : calm l l';
  quiet_pending : l_pendingRecords l' = l_pendingRecords l;
  quiet_workers : l_workers l' = l_workers l;
}.

#[local] Instance calm_preorder : PreOrder calm.
Proof.
  split; [split; done|]. intros l1 l2 l3 [] []. split; try congruence; [lia|by etrans].
Qed.

#[local] Instance quiet_preorder : PreOrder quiet.
Proof. split; [split; done|]. intros l1 l2 l3 [] []. split; try congruence. by etrans. Qed.

Lemma quiet_record c l : quiet l (record c l).
Proof. repeat split; try done. by apply prefix_app_r. Qed.

Lemma quiet_showNotice n l : quiet l (showNotice n l).
Proof. unfold showNotice. destruct (l_disposed l); [done|]. apply quiet_record. Qed.

Lemma quiet_notifyAppHost n l : quiet l (notifyAppHost n l).
Proof.
  unfold notifyAppHost. destruct (negb _); [done|]. destruct (l_notices l); [by repeat split|].
  apply quiet_showNotice.
Qed.

Lemma quiet_foldl {A} (f : Lane -> A -> Lane) xs l :
  (∀ l a, quiet l (f l a)) -> quiet l (foldl f l xs).
Proof. intros Hf. revert l. induction xs as [|a xs IH]; intros l; [done|]. etrans; [apply Hf|apply IH]. Qed.

Lemma quiet_resumeBlocked topicID position l : quiet l (resumeBlocked topicID position l).
Proof.
  unfold resumeBlocked. destruct (jm_get _ _); [|done]. destruct (l_disposed l); [done|].
  etrans; [|apply quiet_notifyAppHost]. by repeat split.
Qed.

Lemma quiet_resumeUnknown r l : quiet l (resumeUnknown r l).
Proof.
  unfold resumeUnknown. destruct (jm_get _ _); [|done]. destruct (l_disposed l); [done|].
  etrans; [|apply quiet_notifyAppHost]. by repeat split.
Qed.

Lemma quiet_reportBlocked name topicID position reason l : quiet l (reportBlocked name topicID position reason l).
Proof.
  unfold reportBlocked. destruct (_ || _); [done|]. destruct groupID; [|done].
  etrans; [|apply quiet_notifyAppHost]. by repeat split.
Qed.

Lemma quiet_reportUnknown r l : quiet l (reportUnknown r l).
Proof.
  unfold reportUnknown. destruct (_ || _); [done|]. destruct groupID; [|done].
  etrans; [|apply quiet_notifyAppHost]. by repeat split.
Qed.

Lemma quiet_reportPrunedWindow name topicID cursor oldest l :
  quiet l (reportPrunedWindow name topicID cursor oldest l).
Proof.
  unfold reportPrunedWindow. destruct (_ || _); [done|]. case_bool_decide; [done|].
  etrans; [|apply quiet_record]. by repeat split.
Qed.

Lemma quiet_retainOnce topicID l : quiet l (retainOnce topicID l).
Proof. unfold retainOnce. case_bool_decide; [done|]. etrans; [|apply quiet_record]. by repeat split. Qed.

Lemma quiet_callPort l : quiet l (fst (callPort l)).
Proof. repeat split; try done. cbn. lia. Qed.

Definition stable (P : Lane -> Prop) : Prop := ∀ l l', quiet l l' -> P l -> P l'.

(** A task under the mutex ends as its body does, up to the notices shown. *)
Lemma triple_runAppLane {A} P (m : Op A) Q X :
  stable P -> (∀ a, stable (Q a)) -> stable X -> triple P m Q X -> triple P (runAppLane m) Q X.
Proof.
  intros HP HQ HX Hm l Hl. unfold runAppLane.
  assert (P (setNotices (Some []) l)) as Hl' by (eapply HP; [|done]; by repeat split).
  specialize (Hm _ Hl'). destruct (m (setNotices (Some []) l)) as [l' r].
  assert (∀ ns, quiet l' (setNotices None (foldl (fun l n => showNotice n l) l' ns))) as Hquiet.
  { intros ns. etrans; [apply (quiet_foldl (fun l n => showNotice n l)); intros; apply quiet_showNotice|].
    by repeat split. }
  destruct r; [eapply HQ|eapply HX]; by first [apply Hquiet|apply Hm].
Qed.

(** ** The hub *)

(** The logs the hub holds when the lane makes its n-th call. *)
Context (hub : nat -> string -> TopicLog).

Record hubServes : Prop := {
  hub_wf : ∀ n topicID, tl_wf (hub n topicID);
  hub_grows : ∀ n n' topicID, n ≤ n' -> tl_steps (hub n topicID) (hub n' topicID);
  hub_page : ∀ n topicID after limit result,
    fetchTopic n topicID after limit = Some result -> result = tl_fetch after (Some limit) (hub n topicID);
}.

(** The durable positions the lane starts from. *)
Context (start : gmap string string).

Definition afterStart (topicID position : string) : Prop := ∀ s, start !! topicID = Some s -> s <ₛ position.

(** *** What the lane may be done with *)

(** The record is one the handle opened, or one restored at start. *)
Definition recordSource (trace : list (LaneCall (D := D))) (r : PendingAppFrame) : Prop :=
  Restored r ∈ trace ∨
  ∃ sealed, Unwrapped (fr_topicID (pf_frame r)) (fr_position (pf_frame r)) sealed
              (Opened (pf_payload r) (pf_senderDID r)) ∈ trace.

(** The record was handed to the host, when it is an event of a log-class procedure the host handles. *)
Definition handedOver (trace : list (LaneCall (D := D))) (r : PendingAppFrame) : Prop :=
  ∀ prc data, deliverable r = Some (prc, data) ->
    Emitted (fr_protocol (pf_frame r)) prc data (normalizeDID (pf_senderDID r)) (Some (pf_frame r)) ∈ trace.

(** An opened frame of a lane without pending records, as a record would hold it. *)
Definition openedRecord (name topicID position : string) (payload : bytes) (sender : string) : PendingAppFrame :=
  mkPending (mkRef "" topicID name 0 position) payload sender.

Inductive settled (trace : list (LaneCall (D := D))) (topicID : string) (m : StoredMessage) : Prop :=
  | settled_own : normalizeDID (sm_senderDID m) = localDID -> settled trace topicID m
  | settled_unreadable : frameEpoch (sm_payload m) = None -> settled trace topicID m
  | settled_otherLane : durable = true -> onThisLane topicID (sm_payload m) = false -> settled trace topicID m
  | settled_badTopic e : encodeAppAAD fromUTF toUTF (mkAppAAD topicID LogIntent) = Err e -> settled trace topicID m
  | settled_refused :
      Unwrapped topicID (sm_sequenceID m) (sm_payload m) Unopenable ∈ trace -> settled trace topicID m
  | settled_failedOpen : durable = false ->
      Unwrapped topicID (sm_sequenceID m) (sm_payload m) StorageError ∈ trace -> settled trace topicID m
  | settled_handed name secret epoch payload sender : durable = false ->
      protocolTopic hkdf toB64U isWellFormed secret epoch name "" = Ok topicID ->
      Unwrapped topicID (sm_sequenceID m) (sm_payload m) (Opened payload sender) ∈ trace ->
      (∀ prc data, deliverable (openedRecord name topicID (sm_sequenceID m) payload sender) = Some (prc, data) ->
         Emitted name prc data (normalizeDID sender) None ∈ trace) ->
      settled trace topicID m
  | settled_pushed : durable = false -> NotedDone topicID (sm_sequenceID m) ∈ trace -> settled trace topicID m
  | settled_completed r : durable = true ->
      fr_topicID (pf_frame r) = topicID -> fr_position (pf_frame r) = sm_sequenceID m ->
      recordSource trace r -> handedOver trace r -> Completed (pf_frame r) ∈ trace -> settled trace topicID m
  | settled_dropped : durable = true -> DroppedByHost topicID (sm_sequenceID m) ∈ trace -> settled trace topicID m.

Lemma recordSource_mono t t' r : t `prefix_of` t' -> recordSource t r -> recordSource t' r.
Proof.
  intros Ht [Hr|[sealed Hr]]; [left|right; exists sealed]; by eapply elem_of_prefix.
Qed.

Lemma handedOver_mono t t' r : t `prefix_of` t' -> handedOver t r -> handedOver t' r.
Proof. intros Ht Hr prc data Hd. eapply elem_of_prefix; [by apply Hr|done]. Qed.

Lemma settled_mono t t' topicID m : t `prefix_of` t' -> settled t topicID m -> settled t' topicID m.
Proof.
  intros Ht []; [by apply settled_own|by apply settled_unreadable|by apply settled_otherLane|by eapply settled_badTopic|..].
  - apply settled_refused. by eapply elem_of_prefix.
  - apply settled_failedOpen; [done|]. by eapply elem_of_prefix.
  - eapply settled_handed; [done..| |]; [by eapply elem_of_prefix|].
    intros prc data Hd. eapply elem_of_prefix; [by eauto|done].
  - apply settled_pushed; [done|]. by eapply elem_of_prefix.
  - eapply settled_completed; [done..| | |]; [by eapply recordSource_mono|by eapply handedOver_mono|by eapply elem_of_prefix].
  - apply settled_dropped; [done|]. by eapply elem_of_prefix.
Qed.

(** *** Facts about a growing log *)

Lemma gone_mono L L' m : tl_wf L -> tl_steps L L' -> m ∈ tl_gone L -> m ∈ tl_gone L'.
Proof.
  intros Hwf Hs. pose proof (tl_steps_removed _ _ Hs) as Hr. pose proof (tl_steps_history _ _ Hs) as [suffix Hh].
  unfold tl_gone. rewrite Hh, !elem_of_take. intros (i & Hi & Hlt). exists i. split; [|lia].
  by apply lookup_app_l_Some.
Qed.

(** A frame at or below a position the log already held was already in the log. *)
Lemma history_below L L' m b :
  tl_wf L' -> tl_steps L L' -> b ∈ positions (tl_history L) -> m ∈ tl_history L' ->
  sm_sequenceID m ≤ₛ b -> m ∈ tl_history L.
Proof.
  intros [Ha _ _] Hs Hb Hm Hle. apply tl_steps_history in Hs as [suffix Hh]. rewrite Hh in Ha, Hm.
  apply elem_of_app in Hm as [|Hm]; [done|]. rewrite positions_app in Ha. apply ascending_app in Ha as (_ & _ & Ha).
  exfalso. apply (slt_irrefl b). eapply slt_sle_trans; [|done]. apply Ha; [done|]. apply elem_of_positions. eauto.
Qed.

Lemma position_unique L m m' :
  tl_wf L -> m ∈ tl_history L -> m' ∈ tl_history L -> sm_sequenceID m = sm_sequenceID m' -> m = m'.
Proof.
  intros [Ha _ _] Hm Hm' Heq. apply ascending_NoDup in Ha. unfold positions in Ha.
  apply list_elem_of_lookup in Hm as [i Hi], Hm' as [j Hj].
  assert (i = j) as ->; [|congruence].
  eapply NoDup_lookup; [exact Ha| |]; rewrite list_lookup_fmap; [by rewrite Hi|rewrite Hj; cbn; congruence].
Qed.

(** ** The invariant *)

(** Every frame of the topic's log up to [b] is settled, gone from the hub, or in the buffer. *)
Definition covered (n : nat) (trace : list (LaneCall (D := D))) (topicID : string) (frames : list AppFrame) (b : string) : Prop :=
  (start !! topicID = Some b ∨ b ∈ positions (tl_history (hub n topicID))) ∧
  ∀ m, m ∈ tl_history (hub n topicID) -> afterStart topicID (sm_sequenceID m) -> sm_sequenceID m ≤ₛ b ->
    settled trace topicID m ∨ m ∈ tl_gone (hub n topicID) ∨ sm_sequenceID m ∈ framePositions frames.

(** A buffered frame is a frame of the log, with its bytes while they are sealed, settled once done. *)
Definition frameOk (n : nat) (trace : list (LaneCall (D := D))) (topicID : string) (f : AppFrame) : Prop :=
  ∃ m, m ∈ tl_history (hub n topicID) ∧ sm_sequenceID m = af_position f ∧
    match af_sealed f with
    | SealedBytes b => b = sm_payload m
    | Done => settled trace topicID m
    | PendingID _ => True
    end.

Record laneOk (n : nat) (trace : list (LaneCall (D := D))) (name : string) (cursor : AppCursor) (frames : list AppFrame) : Prop := {
  lane_topic : ∃ secret epoch, protocolTopic hkdf toB64U isWellFormed secret epoch name "" = Ok (ac_topicID cursor);
  lane_position : ∀ p, ac_position cursor = Some p -> covered n trace (ac_topicID cursor) [] p;
  lane_fetched : ∀ b, resumeAfter cursor = Some b -> covered n trace (ac_topicID cursor) frames b;
  lane_ascending : ascending (framePositions frames);
  lane_frames : ∀ f, f ∈ frames -> frameOk n trace (ac_topicID cursor) f;
  lane_pulled : durable = true -> ∀ f, f ∈ frames -> ∃ b, ac_fetched cursor = Some b ∧ af_position f ≤ₛ b;
}.

(** Nothing below a buffered frame is missing from the buffer: the pulls have caught up with it. *)
Definition caughtUp (n : nat) (trace : list (LaneCall (D := D))) (cursor : AppCursor) (frames : list AppFrame) : Prop :=
  ∀ f, f ∈ frames -> covered n trace (ac_topicID cursor) frames (af_position f).

Record Buf l : Prop := {
  buf_store : ∀ topicID c, l_store l !! topicID = Some c -> covered (l_calls l) (l_trace l) topicID [] c;
  buf_lane : ∀ name cursor, jm_get name (l_cursors l) = Some cursor ->
    name ∈ map fst protocols ∧ laneOk (l_calls l) (l_trace l) name cursor (framesOf name l);
  buf_fresh : ∀ name, jm_get name (l_cursors l) = None -> framesOf name l = [];
  buf_staged : ∀ name pushes, jm_get name (l_staged l) = Some pushes ->
    durable = false ∧ ∀ topicID f, (topicID, f) ∈ pushes -> frameOk (l_calls l) (l_trace l) topicID f;
  buf_keys : NoDup (map fst (l_cursors l));
}.

Definition FullAt (name : string) l : Prop :=
  ∀ cursor, jm_get name (l_cursors l) = Some cursor ->
    caughtUp (l_calls l) (l_trace l) cursor (framesOf name l).

Section honest.
Context (Hhub : hubServes).

Lemma covered_mono n n' t t' topicID frames frames' b :
  n ≤ n' -> t `prefix_of` t' ->
  (∀ p, p ∈ framePositions frames -> p ∈ framePositions frames') ->
  covered n t topicID frames b -> covered n' t' topicID frames' b.
Proof.
  intros Hn Ht Hf [Hknown Hc]. pose proof (hub_grows Hhub n n' topicID Hn) as Hs. split.
  - destruct Hknown as [|Hb]; [by left|right]. apply tl_steps_history in Hs as [suffix ->].
    rewrite positions_app. set_solver.
  - intros m Hm Hafter Hle. destruct Hknown as [Hb|Hb].
    + exfalso. apply (slt_irrefl b). eapply slt_sle_trans; [|done]. by apply Hafter.
    + destruct (Hc m) as [?|[?|?]]; [|done..| | |].
      * eapply history_below; [apply (hub_wf Hhub n')|done..].
      * left. by eapply settled_mono.
      * right; left. eapply gone_mono; [apply (hub_wf Hhub)|done..].
      * right; right. by apply Hf.
Qed.

Lemma covered_below n t topicID frames b p :
  p ∈ positions (tl_history (hub n topicID)) -> p ≤ₛ b -> covered n t topicID frames b -> covered n t topicID frames p.
Proof. intros Hp Hle [_ Hc]. split; [by right|]. intros m Hm Ha Hmp. apply Hc; [done..|]. by etrans. Qed.

Lemma frameOk_mono n n' t t' topicID f :
  n ≤ n' -> t `prefix_of` t' -> frameOk n t topicID f -> frameOk n' t' topicID f.
Proof.
  intros Hn Ht (m & Hm & Hp & Hs). exists m. split_and!; [|done|].
  - apply (hub_grows Hhub n n' topicID) in Hn. apply tl_steps_history in Hn as [suffix ->]. set_solver.
  - destruct (af_sealed f); [done..|]. by eapply settled_mono.
Qed.

Lemma frameOk_known n t topicID f : frameOk n t topicID f -> af_position f ∈ positions (tl_history (hub n topicID)).
Proof. intros (m & Hm & <- & _). apply elem_of_positions. eauto. Qed.

Lemma laneOk_mono n n' t t' name cursor frames :
  n ≤ n' -> t `prefix_of` t' -> laneOk n t name cursor frames -> laneOk n' t' name cursor frames.
Proof.
  intros Hn Ht []. split; try done.
  - intros p Hp. eapply covered_mono; [done..| |by eauto]. done.
  - intros p Hp. eapply covered_mono; [done..| |by eauto]. done.
  - intros f Hf. eapply frameOk_mono; eauto.
Qed.

Lemma caughtUp_mono n n' t t' cursor frames :
  n ≤ n' -> t `prefix_of` t' -> caughtUp n t cursor frames -> caughtUp n' t' cursor frames.
Proof. intros Hn Ht Hc f Hf. eapply covered_mono; [done..| |by eauto]. done. Qed.

Lemma Buf_calm l l' : calm l l' -> Buf l -> Buf l'.
Proof.
  intros [Hf Hc Hs Hst Hn Ht] []. split; rewrite ?Hc, ?Hs, ?Hst; [| | | |done].
  - intros topicID c Hc'. eapply covered_mono; [done..| |by eauto]. done.
  - intros name cursor Hname. rewrite Hf. edestruct buf_lane0 as [? ?]; [done|].
    split; [done|]. by eapply laneOk_mono.
  - intros name Hname. rewrite Hf. by apply buf_fresh0.
  - intros name pushes Hname. edestruct buf_staged0 as [? Hp]; [done|]. split; [done|].
    intros topicID f Hin. eapply frameOk_mono; eauto.
Qed.

Lemma FullAt_calm name l l' : calm l l' -> FullAt name l -> FullAt name l'.
Proof.
  intros [Hf Hc Hs Hst Hn Ht] H1 cursor. rewrite Hc, Hf. intros Hcur. eapply caughtUp_mono; [done..|]. by apply H1.
Qed.

(** With durable delivery only pulls fill the buffer, so it is always caught up. *)
Lemma FullAt_durable name l : durable = true -> Buf l -> FullAt name l.
Proof.
  intros Hd [] cursor Hcur f Hf. destruct (buf_lane0 _ _ Hcur) as [_ []].
  destruct (lane_pulled0 Hd f Hf) as (b & Hb & Hle). eapply covered_below; [|done|].
  - eapply frameOk_known. by apply lane_frames0.
  - apply lane_fetched0. unfold resumeAfter. by rewrite Hb.
Qed.

(** *** Changing one protocol's lane *)

Lemma framesOf_setFrames name name' frames l :
  framesOf name' (setFrames name frames l) = if decide (name' = name) then frames else framesOf name' l.
Proof. unfold framesOf, setFrames. cbn. rewrite jm_get_set. by case_decide. Qed.

(** Only [name]'s lane changed, to [cursor] and [frames]. *)
Record touches (name : string) (cursor : AppCursor) (frames : list AppFrame) l l' : Prop := {
  touch_cursors : ∀ name', jm_get name' (l_cursors l') = if decide (name' = name) then Some cursor else jm_get name' (l_cursors l);
  touch_keys : NoDup (map fst (l_cursors l)) -> NoDup (map fst (l_cursors l'));
  touch_frames : ∀ name', framesOf name' l' = if decide (name' = name) then frames else framesOf name' l;
  touch_staged : ∀ name' pushes, jm_get name' (l_staged l') = Some pushes -> jm_get name' (l_staged l) = Some pushes;
  touch_store : l_store l' = l_store l;
  touch_calls : l_calls l ≤ l_calls l';
  touch_trace : l_trace l `prefix_of` l_trace l';
}.

Lemma Buf_touch name cursor frames l l' :
  touches name cursor frames l l' -> Buf l -> name ∈ map fst protocols ->
  laneOk (l_calls l') (l_trace l') name cursor frames -> Buf l'.
Proof.
  intros [Hc Hk Hf Hst Hs Hn Ht] [] Hname Hok. split; [| | | |by auto].
  - rewrite Hs. intros topicID c Hc'. eapply covered_mono; [done..| |by eauto]. done.
  - intros name' cursor'. rewrite Hc, Hf. case_decide as Heq; [intros [= <-]; by subst|].
    intros Hcur. destruct (buf_lane0 _ _ Hcur). split; [done|]. by eapply laneOk_mono.
  - intros name'. rewrite Hc, Hf. case_decide; [done|]. apply buf_fresh0.
  - intros name' pushes Hp%Hst. destruct (buf_staged0 _ _ Hp) as [? Hok']. split; [done|].
    intros topicID f Hin. eapply frameOk_mono; eauto.
Qed.

Lemma FullAt_touch name cursor frames name' l l' :
  touches name cursor frames l l' -> (name' ≠ name -> FullAt name' l) ->
  (name' = name -> caughtUp (l_calls l') (l_trace l') cursor frames) -> FullAt name' l'.
Proof.
  intros [Hc Hk Hf Hst Hs Hn Ht] Hother Hsame cursor'. rewrite Hc, Hf. case_decide as Heq.
  - intros [= <-]. auto.
  - intros Hcur. eapply caughtUp_mono; [done..|]. by apply Hother.
Qed.

Lemma touches_setFrames name cursor frames l :
  jm_get name (l_cursors l) = Some cursor -> touches name cursor frames l (setFrames name frames l).
Proof.
  intros Hcur. split; try done; cbn.
  - intros name'. case_decide; [by subst|done].
  - intros name'. apply framesOf_setFrames.
Qed.

Lemma touches_setCursor name cursor l : touches name cursor (framesOf name l) l (setCursor name cursor l).
Proof.
  split; try done; cbn.
  - intros name'. apply jm_get_set.
  - apply jm_set_NoDup.
  - intros name'. unfold framesOf. cbn. case_decide; by subst.
Qed.

Lemma touches_calm name cursor frames l l' l'' :
  touches name cursor frames l l' -> calm l' l'' -> touches name cursor frames l l''.
Proof.
  intros [Hc Hk Hf Hst Hs Hn Ht] [Hf' Hc' Hst' Hs' Hn' Ht']. split; rewrite ?Hc', ?Hst'; try done.
  - intros. by rewrite Hf'.
  - congruence.
  - lia.
  - by etrans.
Qed.

Lemma calm_touches name cursor frames l l' l'' :
  calm l l' -> touches name cursor frames l' l'' -> touches name cursor frames l l''.
Proof.
  intros [Hf' Hc' Hst' Hs' Hn' Ht'] [Hc Hk Hf Hst Hs Hn Ht].
  split; rewrite <- ?Hc', <- ?Hst'; try done.
  - intros. rewrite Hf. case_decide; [done|]. apply Hf'.
  - congruence.
  - lia.
  - by etrans.
Qed.

Lemma touches_trans name cursor frames cursor' frames' l l' l'' :
  touches name cursor frames l l' -> touches name cursor' frames' l' l'' -> touches name cursor' frames' l l''.
Proof.
  intros [Hc Hk Hf Hst Hs Hn Ht] [Hc' Hk' Hf' Hst' Hs' Hn' Ht']. split.
  - intros. rewrite Hc', Hc. by case_decide.
  - auto.
  - intros. rewrite Hf', Hf. by case_decide.
  - auto.
  - congruence.
  - lia.
  - by etrans.
Qed.

(** ** Filling the buffer *)

Lemma frameOk_reconcile n t topicID f g :
  frameOk n t topicID f -> frameOk n t topicID g -> af_position f = af_position g ->
  frameOk n t topicID (mkAppFrame (af_position g) (reconcile durable (af_sealed f) (af_sealed g))).
Proof.
  intros (m & Hm & Hp & Hs) (m' & Hm' & Hp' & Hs') Heq.
  assert (m = m') as <- by (eapply position_unique; [apply (hub_wf Hhub)|done..|congruence]).
  exists m. split_and!; [done..|]. cbn [af_sealed].
  destruct (reconcile_one durable (af_sealed f) (af_sealed g)) as [-> | ->]; done.
Qed.

Lemma take_frameOk n t topicID frames g f :
  (∀ f, f ∈ frames -> frameOk n t topicID f) -> frameOk n t topicID g ->
  f ∈ takeAppFrame frames g durable -> frameOk n t topicID f.
Proof.
  intros Hf Hg [?|[->|(x & Hx & Heq & ->)]]%takeAppFrame_elem; [by auto|done|].
  apply frameOk_reconcile; auto.
Qed.

(** Frames taken one after another into an ascending buffer. *)
Lemma take_all n t topicID frames gs :
  ascending (framePositions frames) -> (∀ f, f ∈ frames -> frameOk n t topicID f) ->
  (∀ g, g ∈ gs -> frameOk n t topicID g) ->
  let frames' := foldl (fun frames g => takeAppFrame frames g durable) frames gs in
  ascending (framePositions frames') ∧ (∀ f, f ∈ frames' -> frameOk n t topicID f) ∧
  (∀ p, p ∈ framePositions frames' <-> p ∈ framePositions frames ∨ p ∈ framePositions gs).
Proof.
  revert frames. induction gs as [|g gs IH]; intros frames Ha Hf Hg; [split_and!; set_solver|].
  destruct (IH (takeAppFrame frames g durable)) as (IH1 & IH2 & IH3).
  - by apply takeAppFrame_ascending.
  - intros f. apply take_frameOk; set_solver.
  - set_solver.
  - split_and!; [done..|]. intros p. cbn [foldl map]. rewrite IH3, takeAppFrame_positions. set_solver.
Qed.

Lemma pulledFrame_position name topicID records m : af_position (pulledFrame name topicID records m) = sm_sequenceID m.
Proof. done. Qed.

Lemma pulledFrame_ok n t name topicID records m :
  m ∈ tl_history (hub n topicID) -> frameOk n t topicID (pulledFrame name topicID records m).
Proof.
  intros Hm. exists m. split_and!; [done..|]. unfold pulledFrame. cbn [af_sealed].
  destruct (find _ _); [done|]. case_bool_decide; [by apply settled_own|done].
Qed.

Lemma laneOk_take n t name cursor frames gs :
  laneOk n t name cursor frames -> (∀ g, g ∈ gs -> frameOk n t (ac_topicID cursor) g) ->
  (durable = true -> gs = []) ->
  laneOk n t name cursor (foldl (fun frames g => takeAppFrame frames g durable) frames gs).
Proof.
  intros [] Hg Hd. destruct (take_all n t (ac_topicID cursor) frames gs) as (Ha & Hf & Hp); [done..|].
  split; [done..| | | |].
  - intros b Hb. eapply covered_mono; [done..| |by eauto]. intros p Hin. apply Hp. by left.
  - done.
  - done.
  - intros Hdur. rewrite (Hd Hdur). by apply lane_pulled0.
Qed.

Section page.
Context (n : nat) (trace : list (LaneCall (D := D))) (name : string) (cursor : AppCursor) (frames : list AppFrame)
        (records : list PendingAppFrame) (k : nat).
Context (Hok : laneOk n trace name cursor frames).

Let topicID := ac_topicID cursor.
Let after := resumeAfter cursor.
Let messages := fr_messages (tl_fetch after (Some k) (hub n topicID)).
Let frames' := foldl (fun frames g => takeAppFrame frames g durable) frames
                 (map (pulledFrame name topicID records) messages).
Let cursor' := mkAppCursor topicID (ac_position cursor) (pageEnd after messages).

Lemma page_live m : m ∈ messages -> m ∈ tl_live (hub n topicID) ∧ (∀ a, after = Some a -> a <ₛ sm_sequenceID m).
Proof.
  unfold messages. cbn. intros (i & Hi & _)%elem_of_take. apply list_elem_of_lookup_2 in Hi.
  unfold above in Hi. destruct after as [a|].
  - apply list_elem_of_filter in Hi as [??]. split; [done|]. by intros ? [= <-].
  - done.
Qed.

Lemma page_history m : m ∈ messages -> m ∈ tl_history (hub n topicID).
Proof. intros [Hm _]%page_live. rewrite tl_split. set_solver. Qed.

Lemma above_ascending : ascending (positions (above after (tl_live (hub n topicID)))).
Proof.
  destruct (wf_split _ (hub_wf Hhub n topicID)) as (_ & Ha & _).
  destruct after as [a|]; [|done]. rewrite positions_above. by apply ascending_filter.
Qed.

(** A live frame after the cursor and not past the page's end is on the page. *)
Lemma page_complete m :
  m ∈ tl_live (hub n topicID) -> (∀ a, after = Some a -> a <ₛ sm_sequenceID m) ->
  (length messages < k ∨ ∃ e, e ∈ positions messages ∧ sm_sequenceID m ≤ₛ e) -> m ∈ messages.
Proof.
  intros Hm Ha Hend. assert (m ∈ above after (tl_live (hub n topicID))) as Hin.
  { destruct after as [a|]; [|done]. apply list_elem_of_filter. split; [by apply Ha|done]. }
  pose proof above_ascending as Hasc. revert Hin Hasc Hend. unfold messages. cbn [tl_fetch fr_messages page].
  set (all := above after (tl_live (hub n topicID))). intros Hin Hasc Hend.
  rewrite <- (take_drop k all) in Hin, Hasc. apply elem_of_app in Hin as [|Hin]; [done|exfalso].
  rewrite positions_app in Hasc. apply ascending_app in Hasc as (_ & _ & Hlt).
  destruct Hend as [Hlen|(e & He & Hle)].
  - rewrite length_take in Hlen. rewrite drop_ge in Hin by lia. set_solver.
  - apply (slt_irrefl e). eapply slt_sle_trans; [|exact Hle]. apply Hlt; [done|].
    apply elem_of_positions. eauto.
Qed.

Lemma page_frames :
  ascending (framePositions frames') ∧ (∀ f, f ∈ frames' -> frameOk n trace topicID f) ∧
  (∀ p, p ∈ framePositions frames' <-> p ∈ framePositions frames ∨ p ∈ positions messages).
Proof.
  destruct (take_all n trace topicID frames (map (pulledFrame name topicID records) messages)) as (Ha & Hf & Hp).
  - apply Hok.
  - apply Hok.
  - intros g (m & -> & Hm)%list_elem_of_fmap. apply pulledFrame_ok. by apply page_history.
  - split_and!; [done..|]. intros p. etrans; [apply Hp|]. by rewrite map_map.
Qed.

(** What is at or below the page's end, or anything when the page is the last, is accounted for. *)
Lemma page_accounted m :
  m ∈ tl_history (hub n topicID) -> afterStart topicID (sm_sequenceID m) ->
  (length messages < k ∨ ∃ e, pageEnd after messages = Some e ∧ sm_sequenceID m ≤ₛ e) ->
  settled trace topicID m ∨ m ∈ tl_gone (hub n topicID) ∨ sm_sequenceID m ∈ framePositions frames'.
Proof.
  intros Hm Hafter Hend. destruct page_frames as (_ & _ & Hp).
  assert ((∃ a, after = Some a ∧ sm_sequenceID m ≤ₛ a) ∨ ∀ a, after = Some a -> a <ₛ sm_sequenceID m) as [(a & Ha & Hle)|Hgt].
  { destruct after as [a|]; [|by right]. destruct (decide (a <ₛ sm_sequenceID m)) as [|Hn]; [right; by intros ? [= <-]|].
    left. exists a. split; [done|]. by apply not_slt. }
  - destruct (lane_fetched _ _ _ _ _ Hok a Ha) as [_ Hc]. destruct (Hc m Hm Hafter Hle) as [?|[?|?]]; [tauto..|].
    right; right. apply Hp. by left.
  - rewrite tl_split in Hm. apply elem_of_app in Hm as [?|Hlive]; [tauto|].
    right; right. apply Hp. right. apply elem_of_positions. exists m. split; [done|].
    apply page_complete; [done..|]. destruct Hend as [|(e & He & Hle)]; [by left|right].
    unfold pageEnd in He. destruct (last (map sm_sequenceID messages)) as [e'|] eqn:Hl.
    + injection He as ->. exists e. split; [by apply last_positions_elem|done].
    + exfalso. specialize (Hgt e He). apply (slt_irrefl e). by eapply slt_sle_trans.
Qed.

Lemma page_end_known e : pageEnd after messages = Some e ->
  after = Some e ∨ e ∈ positions (tl_history (hub n topicID)).
Proof.
  unfold pageEnd. destruct (last (map sm_sequenceID messages)) as [e'|] eqn:Hl; [|by left].
  intros [= ->]. right. apply last_positions_elem, elem_of_positions in Hl as (m & -> & Hm).
  apply elem_of_positions. exists m. split; [done|]. by apply page_history.
Qed.

Lemma page_resume : resumeAfter cursor' = pageEnd after messages.
Proof.
  unfold resumeAfter at 1, cursor'. cbn [ac_fetched ac_position]. unfold pageEnd.
  destruct (last (map sm_sequenceID messages)); [done|]. unfold after, resumeAfter.
  by destruct (ac_fetched cursor), (ac_position cursor).
Qed.

Lemma page_laneOk : laneOk n trace name cursor' frames'.
Proof.
  destruct page_frames as (Ha & Hf & Hp). split; cbn [ac_topicID ac_position ac_fetched].
  - apply Hok.
  - apply Hok.
  - intros b Hb. assert (pageEnd after messages = Some b) as He.
    { rewrite <- Hb. symmetry. apply page_resume. }
    split.
    + apply page_end_known in He as [He|He]; [|by right]. apply (lane_fetched _ _ _ _ _ Hok b He).
    + intros m Hm Hafter Hle. apply page_accounted; [done..|]. right. eauto.
  - done.
  - done.
  - intros Hd f Hin. change (ac_fetched cursor') with (pageEnd after messages).
    assert (af_position f ∈ framePositions frames') as Hpos by (apply list_elem_of_fmap; eauto).
    apply Hp in Hpos as [Hpos|Hpos].
    + apply list_elem_of_fmap in Hpos as (f0 & Heq & Hf0).
      destruct (lane_pulled _ _ _ _ _ Hok Hd f0 Hf0) as (b & Hb & Hle).
      assert (after = Some b) as Hafter by (unfold after, resumeAfter; by rewrite Hb).
      unfold pageEnd. destruct (last (map sm_sequenceID messages)) as [e|] eqn:Hl.
      * exists e. split; [done|]. rewrite Heq. etrans; [done|]. apply slt_sle.
        apply last_positions_elem, elem_of_positions in Hl as (m & -> & Hm). by apply page_live.
      * exists b. rewrite Heq. done.
    + unfold pageEnd. destruct (last (map sm_sequenceID messages)) as [e|] eqn:Hl.
      * exists e. split; [done|]. eapply ascending_last; [|exact Hl|exact Hpos].
        pose proof above_ascending as Hasc. unfold messages. cbn.
        rewrite <- (take_drop k (above after _)), positions_app in Hasc. by apply ascending_app in Hasc as [? _].
      * apply last_None in Hl. unfold positions in Hpos. rewrite Hl in Hpos. set_solver.
Qed.

(** The last page leaves the buffer caught up. *)
Lemma page_caughtUp : length messages < k -> caughtUp n trace cursor' frames'.
Proof.
  intros Hlen f Hin. destruct page_frames as (_ & Hf & _). split.
  - right. eapply frameOk_known. by apply Hf.
  - intros m Hm Hafter _. apply page_accounted; [done..|]. by left.
Qed.
End page.

(** *** The pulls *)

Definition BF (S : string -> Prop) l : Prop := Buf l ∧ ∀ name, S name -> FullAt name l.

Lemma BF_calm S l l' : calm l l' -> BF S l -> BF S l'.
Proof. intros Hc [Hb Hf]. split; [by eapply Buf_calm|]. intros name Hn. eapply FullAt_calm; eauto. Qed.

Lemma BF_stable S : stable (BF S).
Proof. intros l l' [Hc _ _]. by apply BF_calm. Qed.

Lemma BF_touch (S : string -> Prop) name cursor frames l l' :
  touches name cursor frames l l' -> BF S l -> name ∈ map fst protocols ->
  laneOk (l_calls l') (l_trace l') name cursor frames ->
  (S name -> caughtUp (l_calls l') (l_trace l') cursor frames) -> BF S l'.
Proof.
  intros Ht [Hb Hf] Hname Hok Hfull. split; [by eapply Buf_touch|].
  intros name' HS. eapply FullAt_touch; [done|by auto|]. intros ->. auto.
Qed.

Lemma calm_setCalls n l : l_calls l ≤ n -> calm l (setCalls n l).
Proof. by split. Qed.

(** The state a page leaves: one lane moved by one page. *)
Definition afterPage (name topicID : string) (after : option string) (result : FetchTopicResult) l : Lane :=
  let l := setCalls (S (l_calls l)) l in
  let l := match after with
           | Some cursor => if fr_gap result then reportPrunedWindow name topicID cursor (fr_oldest result) l else l
           | None => l
           end in
  setFetched name (pageEnd after (fr_messages result)) (bufferPage name topicID (fr_messages result) l).

Lemma loadPages_S n name topicID after l :
  loadPages (S n) name topicID after l =
  match fetchTopic (l_calls l) topicID after APP_FETCH_LIMIT with
  | None => (setCalls (S (l_calls l)) l, Err FetchFailed)
  | Some result =>
    if negb (assertForwardPage after (map sm_sequenceID (fr_messages result)))
    then (setCalls (S (l_calls l)) l, Err NonIncreasing)
    else if (length (fr_messages result) <? APP_FETCH_LIMIT)%nat
    then (afterPage name topicID after result l, Ok tt)
    else loadPages n name topicID (pageEnd after (fr_messages result)) (afterPage name topicID after result l)
  end.
Proof.
  cbn [loadPages]. unfold mbind, op_bind, gets, modify, throw. cbn beta iota.
  destruct (fetchTopic _ _ _ _) as [result|]; [|done]. destruct (negb _); [done|]. cbn beta iota.
  by destruct (_ <? _)%nat.
Qed.

Lemma touches_afterPage name topicID after result cursor l :
  jm_get name (l_cursors l) = Some cursor -> ac_topicID cursor = topicID ->
  touches name (mkAppCursor topicID (ac_position cursor) (pageEnd after (fr_messages result)))
    (foldl (fun frames g => takeAppFrame frames g durable) (framesOf name l)
       (map (pulledFrame name topicID (l_pendingRecords l)) (fr_messages result)))
    l (afterPage name topicID after result l).
Proof.
  intros Hcur Htop. unfold afterPage.
  set (l1 := match after with Some _ => _ | None => _ end).
  assert (quiet l l1) as [Hcalm Hpend _].
  { unfold l1. etrans; [|destruct after; [destruct (fr_gap result); [apply quiet_reportPrunedWindow|]|]; reflexivity].
    repeat split; try done. cbn. lia. }
  eapply calm_touches; [exact Hcalm|]. unfold setFetched, bufferPage.
  assert (jm_get name (l_cursors l1) = Some cursor) as Hcur1 by (by rewrite (calm_cursors _ _ Hcalm)).
  cbn [setFrames setSegment l_cursors]. rewrite Hcur1, Hpend, (calm_frames _ _ Hcalm), Htop.
  eapply touches_trans; [by apply touches_setFrames|].
  set (frames := foldl _ _ _).
  replace frames with (framesOf name (setFrames name frames l1)) at 1; [apply touches_setCursor|].
  rewrite framesOf_setFrames. by case_decide.
Qed.

Lemma afterPage_spec S k name topicID after result cursor l :
  BF S l -> ¬ S name -> jm_get name (l_cursors l) = Some cursor -> ac_topicID cursor = topicID -> resumeAfter cursor = after ->
  result = tl_fetch after (Some k) (hub (l_calls l) topicID) ->
  BF S (afterPage name topicID after result l) ∧
  (length (fr_messages result) < k -> FullAt name (afterPage name topicID after result l)) ∧
  ∃ cursor', jm_get name (l_cursors (afterPage name topicID after result l)) = Some cursor' ∧
    ac_topicID cursor' = topicID ∧ resumeAfter cursor' = pageEnd after (fr_messages result).
Proof.
  intros [Hbuf HS] HnS Hcur Htop Hafter Hres.
  pose proof (touches_afterPage name topicID after result cursor l Hcur Htop) as Ht.
  destruct (buf_lane _ Hbuf _ _ Hcur) as [Hname Hok]. subst topicID after.
  pose proof (page_laneOk _ _ _ _ _ (l_pendingRecords l) k Hok) as Hok'. rewrite <- Hres in Hok'.
  eapply laneOk_mono in Hok'; [|apply Ht|apply Ht]. split_and!.
  - eapply BF_touch; [exact Ht|done..].
  - intros Hlen. eapply FullAt_touch; [exact Ht|done|]. intros _.
    eapply caughtUp_mono; [apply Ht|apply Ht|]. rewrite Hres in Hlen |- *. by eapply page_caughtUp.
  - eexists. rewrite (touch_cursors _ _ _ _ _ Ht). rewrite decide_True by done.
    split_and!; [done..|]. rewrite Hres. by apply page_resume.
Qed.

Lemma loadPages_triple S n name topicID after :
  ¬ S name ->
  triple (fun l => BF S l ∧ ∃ cursor, jm_get name (l_cursors l) = Some cursor ∧ ac_topicID cursor = topicID ∧ resumeAfter cursor = after)
    (loadPages n name topicID after) (fun _ l => BF S l ∧ FullAt name l) (BF S).
Proof.
  intros HnS. revert after. induction n as [|n IH]; intros after l (HBF & cursor & Hcur & Htop & Hafter).
  - cbn. done.
  - rewrite loadPages_S.
    assert (BF S (setCalls (1 + l_calls l) l)) as Herr by (eapply BF_calm; [apply calm_setCalls; lia|done]).
    destruct (fetchTopic _ _ _ _) as [result|] eqn:Hfetch; [|done].
    destruct (negb _); [done|]. apply (hub_page Hhub) in Hfetch.
    destruct (afterPage_spec S APP_FETCH_LIMIT name topicID after result cursor l) as (H1 & H2 & H3); [done..|].
    destruct (length (fr_messages result) <? APP_FETCH_LIMIT)%nat eqn:Hlen.
    + split; [done|]. apply H2. by apply Nat.ltb_lt.
    + apply IH. split; [done|]. exact H3.
Qed.

Lemma calm_freshFrames name l :
  calm l (match jm_get name (l_segment l) with Some _ => l | None => setFrames name [] l end).
Proof.
  destruct (jm_get name (l_segment l)) eqn:Hseg; [done|]. split; try done. intros name'.
  rewrite framesOf_setFrames. case_decide; [|done]. subst. unfold framesOf. by rewrite Hseg.
Qed.

(** A cursor read back from the store starts its lane. *)
Lemma BF_newCursor S name secret epoch topicID l :
  BF S l -> ¬ S name -> name ∈ map fst protocols -> jm_get name (l_cursors l) = None ->
  protocolTopic hkdf toB64U isWellFormed secret epoch name "" = Ok topicID ->
  ∀ stored, (∀ c, stored = Some c -> l_store l !! topicID = Some c) ->
  BF S (setCursor name (mkAppCursor topicID stored None) l).
Proof.
  intros HBF HnS Hname Hnone Htopic stored Hstored.
  eapply BF_touch; [apply touches_setCursor|done|done| |done].
  pose proof (buf_fresh _ (proj1 HBF) name Hnone) as Hfresh. cbn. rewrite Hfresh.
  assert (∀ c, stored = Some c -> covered (l_calls l) (l_trace l) topicID [] c) as Hcov
    by (intros c Hc; apply (buf_store _ (proj1 HBF)); auto).
  split; cbn; [by eauto|done|done|constructor|set_solver|set_solver].
Qed.

Lemma laneFor_triple S name : ¬ S name -> name ∈ map fst protocols ->
  triple (BF S) (laneFor name) (fun cursor l => BF S l ∧ jm_get name (l_cursors l) = Some cursor) (BF S).
Proof.
  intros HnS Hname. unfold laneFor. eapply triple_seq.
  { apply (triple_modify _ _ (BF S)). intros l HBF. eapply BF_calm; [apply calm_freshFrames|done]. }
  intros l1 HBF. unfold mbind, op_bind, gets, modify. cbn beta iota.
  destruct (jm_get name (l_cursors l1)) as [cursor|] eqn:Hcur; [done|].
  destruct (protocolTopic _ _ _ _ _ _ _) as [topicID|e] eqn:Htopic; cbn; [|done].
  destruct hasCursorStore; cbn.
  - pose proof (quiet_callPort l1) as [Hcalm' _ _]. cbn in Hcalm'.
    destruct (succeeds (l_calls l1)); cbn; [|by eapply BF_calm].
    split; [|rewrite jm_get_set; by case_decide].
    eapply BF_newCursor; [by eapply BF_calm|done..|exact Htopic|done].
  - split; [|rewrite jm_get_set; by case_decide]. by eapply BF_newCursor.
Qed.

Lemma foldl_pushes topicID pushes frames :
  foldl (fun frames (push : string * AppFrame) => if bool_decide (push.1 = topicID) then takeAppFrame frames push.2 durable else frames)
    frames pushes =
  foldl (fun frames g => takeAppFrame frames g durable) frames
    (map snd (filter (fun push => push.1 = topicID) pushes)).
Proof.
  revert frames. induction pushes as [|[t f] pushes IH]; intros frames; [done|]. cbn [foldl].
  rewrite filter_cons. cbn [fst snd]. case_bool_decide; case_decide; try done; apply IH.
Qed.

Lemma mergeStaged_triple S name cursor :
  ¬ S name ->
  triple (fun l => BF S l ∧ jm_get name (l_cursors l) = Some cursor) (modify (mergeStaged name (ac_topicID cursor)))
    (fun _ l => BF S l ∧ jm_get name (l_cursors l) = Some cursor) (BF S).
Proof.
  intros HnS. apply (triple_modify _ _ (fun l => BF S l ∧ _)). intros l [HBF Hcur]. split; [|done].
  unfold mergeStaged. rewrite foldl_pushes.
  destruct (buf_lane _ (proj1 HBF) _ _ Hcur) as [Hname Hok].
  set (gs := map snd _). set (frames := foldl _ _ gs).
  assert (touches name cursor frames l (setStaged (jm_delete name (l_staged l)) (setFrames name frames l))) as Ht.
  { destruct (touches_setFrames name cursor frames l Hcur). split; try done. cbn.
    intros name' pushes. rewrite jm_get_delete. by case_decide. }
  eapply BF_touch; [exact Ht|done|done| |done].
  eapply laneOk_mono; [apply Ht|apply Ht|]. apply laneOk_take; [done|..]; unfold gs.
  - intros g ([t f] & -> & [Heq Hin]%list_elem_of_filter)%list_elem_of_fmap. cbn in Heq |- *.
    destruct (jm_get name (l_staged l)) as [pushes|] eqn:Hst; cbn in Hin; [|set_solver].
    destruct (buf_staged _ (proj1 HBF) _ _ Hst) as [_ Hp]. subst t. by apply Hp.
  - intros Hd. destruct (jm_get name (l_staged l)) as [pushes|] eqn:Hst; [|done].
    destruct (buf_staged _ (proj1 HBF) _ _ Hst) as [Hd' _]. congruence.
Qed.

Lemma loadOne_triple S name : ¬ S name -> name ∈ map fst protocols ->
  triple (BF S) (loadOne name) (fun _ l => BF S l ∧ FullAt name l) (BF S).
Proof.
  intros HnS Hname. unfold loadOne. eapply triple_bind; [by apply laneFor_triple|]. intros cursor.
  eapply triple_seq.
  { apply (triple_modify _ _ (fun l => BF S l ∧ jm_get name (l_cursors l) = Some cursor)).
    intros l [HBF Hcur]. destruct (quiet_retainOnce (ac_topicID cursor) l) as [Hcalm _ _].
    split; [by eapply BF_calm|]. by rewrite (calm_cursors _ _ Hcalm). }
  eapply triple_seq; [by apply mergeStaged_triple|].
  eapply triple_pre; [by apply loadPages_triple|]. intros l [HBF Hcur]. split; [done|]. eauto.
Qed.

(** Once a pull failed the others still settle, and the failure is raised. *)
Lemma loadAll_fails names e l :
  Buf l -> (∀ name, name ∈ names -> name ∈ map fst protocols) ->
  ∃ l', loadAll names (Some e) l = (l', Err e) ∧ Buf l'.
Proof.
  revert l. induction names as [|name names IH]; intros l Hbuf Hnames; [by eexists|]. cbn [loadAll].
  pose proof (loadOne_triple (fun _ => False) name id ltac:(set_solver) l) as Hone.
  destruct (loadOne name l) as [l' r]. apply IH; [|set_solver].
  assert (BF (fun _ => False) l) as HBF by done. specialize (Hone HBF). destruct r; apply Hone.
Qed.

Lemma loadAll_triple names S :
  NoDup names -> (∀ name, name ∈ names -> ¬ S name ∧ name ∈ map fst protocols) ->
  triple (BF S) (loadAll names None) (fun _ l => BF (fun name => S name ∨ name ∈ names) l) Buf.
Proof.
  intros Hnd. revert S. induction Hnd as [|name names Hnot Hnd IH]; intros S Hnames l HBF.
  - cbn. split; [apply HBF|]. intros n [Hn|Hn]; [by apply HBF|set_solver].
  - cbn [loadAll]. destruct (Hnames name ltac:(set_solver)) as [HnS Hin].
    pose proof (loadOne_triple S name HnS Hin l HBF) as Hone. destruct (loadOne name l) as [l' [a|e]].
    + destruct Hone as [HBF' Hfull].
      assert (BF (fun n => S n ∨ n = name) l') as HBF2.
      { split; [apply HBF'|]. intros n [Hn| ->]; [by apply HBF'|done]. }
      eapply (triple_post _ _ _ _ _ (IH (fun n => S n ∨ n = name) _)); [|exact HBF2].
      intros _ l2 [? HF]. split; [done|]. intros n Hn. apply HF. set_solver.
    + destruct (loadAll_fails names e l') as (l2 & -> & Hl2); [apply Hone| |done].
      intros n Hn. apply Hnames. set_solver.
  Unshelve.
  intros n Hn. split; [|apply Hnames; set_solver]. intros [Hs| ->]; [|done].
  revert Hs. apply Hnames. set_solver.
Qed.

(** Every protocol's lane is in order and caught up. *)
Definition J l : Prop := Buf l ∧ ∀ name, FullAt name l.

Context (Hprotocols : NoDup (map fst protocols)).

Lemma loadSegment_triple : triple Buf loadSegment (fun _ => J) Buf.
Proof.
  intros l Hbuf. pose proof (loadAll_triple (map fst protocols) (fun _ => False) Hprotocols) as Hload.
  specialize (Hload ltac:(naive_solver) l). unfold loadSegment.
  destruct (loadAll _ None l) as [l' [a|e]].
  - destruct Hload as [Hb Hf]; [done|]. split; [done|]. intros name cursor Hcur.
    apply Hf; [right|done]. by eapply buf_lane.
  - by apply Hload.
Qed.

Lemma J_calm l l' : calm l l' -> J l -> J l'.
Proof. intros Hc [Hb Hf]. split; [by eapply Buf_calm|]. intros name. eapply FullAt_calm; eauto. Qed.

Lemma J_stable : stable J.
Proof. intros l l' [Hc _ _]. by apply J_calm. Qed.

Lemma Buf_stable : stable Buf.
Proof. intros l l' [Hc _ _]. by apply Buf_calm. Qed.

Lemma J_touch name cursor frames l l' :
  touches name cursor frames l l' -> J l -> name ∈ map fst protocols ->
  laneOk (l_calls l') (l_trace l') name cursor frames ->
  caughtUp (l_calls l') (l_trace l') cursor frames -> J l'.
Proof.
  intros Ht [Hb Hf] Hname Hok Hfull. split; [by eapply Buf_touch|].
  intros name'. eapply FullAt_touch; [done|by intros|]. by intros ->.
Qed.

(** ** The cursor *)

(** Below a done prefix nothing is left to read, so the cursor may stand at its end and the prefix go. *)
Section advance.
Context (n : nat) (trace : list (LaneCall (D := D))) (name : string) (cursor : AppCursor) (passed others : list AppFrame).
Context (Hok : laneOk n trace name cursor (passed ++ others)) (Hfull : caughtUp n trace cursor (passed ++ others)).
Context (Hdone : ∀ f, f ∈ passed -> af_sealed f = Done).

Lemma passed_settled m : m ∈ tl_history (hub n (ac_topicID cursor)) ->
  sm_sequenceID m ∈ framePositions passed -> settled trace (ac_topicID cursor) m.
Proof.
  intros Hm (f & Hp & Hf)%list_elem_of_fmap.
  destruct (lane_frames _ _ _ _ _ Hok f) as (m' & Hm' & Hp' & Hs); [set_solver|].
  rewrite (Hdone f Hf) in Hs. replace m with m'; [done|].
  eapply position_unique; [apply (hub_wf Hhub)|done..|congruence].
Qed.

Lemma covered_others b : covered n trace (ac_topicID cursor) (passed ++ others) b ->
  covered n trace (ac_topicID cursor) others b.
Proof.
  intros [Hk Hc]. split; [done|]. intros m Hm Hafter Hle.
  destruct (Hc m Hm Hafter Hle) as [?|[?|Hin]]; [tauto..|].
  rewrite map_app in Hin. apply elem_of_app in Hin as [Hin|Hin]; [|tauto].
  left. by apply passed_settled.
Qed.

Lemma advance_caughtUp cursor' : ac_topicID cursor' = ac_topicID cursor -> caughtUp n trace cursor' others.
Proof. intros Ht f Hf. rewrite Ht. apply covered_others, Hfull. set_solver. Qed.

Lemma advance_passed f : last passed = Some f -> covered n trace (ac_topicID cursor) [] (af_position f).
Proof.
  intros Hlast. assert (f ∈ passed) as Hf by by apply last_Some_elem_of.
  destruct (Hfull f) as [Hk Hc]; [set_solver|]. split; [done|]. intros m Hm Hafter Hle.
  destruct (Hc m Hm Hafter Hle) as [?|[?|Hin]]; [tauto..|]. left. apply passed_settled; [done|].
  rewrite map_app in Hin. apply elem_of_app in Hin as [Hin|Hin]; [done|exfalso].
  pose proof (lane_ascending _ _ _ _ _ Hok) as Ha. rewrite map_app in Ha.
  apply ascending_app in Ha as (_ & _ & Hlt). apply (slt_irrefl (af_position f)).
  eapply slt_sle_trans; [|done]. apply Hlt; [|done]. apply list_elem_of_fmap. eauto.
Qed.

Lemma advance_laneOk position :
  position = ac_position cursor ∨ (∃ f, last passed = Some f ∧ position = Some (af_position f)) ->
  laneOk n trace name (mkAppCursor (ac_topicID cursor) position (ac_fetched cursor)) others.
Proof.
  intros Hpos.
  assert (∀ p, position = Some p -> covered n trace (ac_topicID cursor) [] p) as Hcov.
  { intros p ->. destruct Hpos as [Hpos|(f & Hl & [= ->])]; [by apply (lane_position _ _ _ _ _ Hok)|].
    by apply advance_passed. }
  split; cbn [ac_topicID ac_position ac_fetched].
  - apply Hok.
  - done.
  - intros b. unfold resumeAfter. cbn. destruct (ac_fetched cursor) as [b'|] eqn:Hf.
    + intros [= ->]. apply covered_others, (lane_fetched _ _ _ _ _ Hok). unfold resumeAfter. by rewrite Hf.
    + intros Hb. eapply covered_mono; [done..| |by apply Hcov]. set_solver.
  - pose proof (lane_ascending _ _ _ _ _ Hok) as Ha. rewrite map_app in Ha. by apply ascending_app in Ha as (_ & ? & _).
  - intros f Hf. apply (lane_frames _ _ _ _ _ Hok). set_solver.
  - intros Hd f Hf. apply (lane_pulled _ _ _ _ _ Hok Hd). set_solver.
Qed.
End advance.

Lemma saveCursor_triple name cursor position :
  triple (fun l => J l ∧ jm_get name (l_cursors l) = Some cursor ∧ ac_position cursor = Some position)
    (saveCursor (ac_topicID cursor) position) (fun _ => J) J.
Proof.
  intros l (HJ & Hcur & Hpos). unfold saveCursor. destruct hasCursorStore; [|done]. cbn [negb].
  unfold mbind, op_bind, callPort, modify. pose proof (quiet_callPort l) as [Hcalm _ _]. cbn in Hcalm.
  destruct (succeeds (l_calls l)); cbn; [|by eapply J_calm].
  destruct HJ as [Hb Hf]. split.
  - split; cbn.
    + intros topicID c [[<- <-]|[_ Hc]]%lookup_insert_Some.
      * destruct (buf_lane _ Hb _ _ Hcur) as [_ Hok]. eapply covered_mono; [| | |by apply (lane_position _ _ _ _ _ Hok)]; 
          [lia|by apply prefix_app_r|done].
      * eapply covered_mono; [| | |by apply (buf_store _ Hb)]; [lia|by apply prefix_app_r|done].
    + intros name' cursor' Hcur'. destruct (buf_lane _ Hb _ _ Hcur') as [Hname Hok]. split; [done|].
      eapply laneOk_mono; [| |exact Hok]; [lia|by apply prefix_app_r].
    + apply Hb.
    + intros name' pushes Hp. destruct (buf_staged _ Hb _ _ Hp) as [Hd Hok]. split; [done|].
      intros topicID f Hin. eapply frameOk_mono; [| |by apply Hok]; [lia|by apply prefix_app_r].
    + apply Hb.
  - intros name' cursor' Hcur'. cbn in Hcur' |- *. eapply caughtUp_mono; [| |by apply Hf];
      [cbn; lia|cbn; by apply prefix_app_r].
Qed.

Lemma advanceCursor_triple name : triple J (advanceCursor name) (fun _ => J) J.
Proof.
  intros l HJ. unfold advanceCursor, mbind, op_bind, gets, modify. cbn beta iota.
  destruct (jm_get name (l_cursors l)) as [cursor|] eqn:Hcur; [|done]. cbn beta iota.
  destruct (splitDone_spec (framesOf name l)) as [Hsplit Hdone].
  destruct (splitDone (framesOf name l)) as [passed others]. cbn [fst snd] in *.
  destruct HJ as [Hb Hf]. destruct (buf_lane _ Hb _ _ Hcur) as [Hname Hok].
  pose proof (Hf name cursor Hcur) as Hfull. rewrite Hsplit in Hok, Hfull.
  pose proof (touches_setFrames name cursor others l Hcur) as Ht1.
  destruct (last passed) as [f|] eqn:Hlast.
  - case_bool_decide as Heq.
    + eapply J_touch; [exact Ht1|done|done| |].
      * destruct cursor as [topicID position fetched]. eapply (advance_laneOk _ _ _ (mkAppCursor topicID position fetched)); eauto.
      * by eapply advance_caughtUp.
    + apply (saveCursor_triple name (mkAppCursor (ac_topicID cursor) (Some (af_position f)) (ac_fetched cursor))).
      split_and!; [|cbn; rewrite jm_get_set; by case_decide|done].
      eapply J_touch; [|by split|done| |].
      * eapply touches_trans; [exact Ht1|]. apply touches_setCursor.
      * rewrite framesOf_setFrames, decide_True by done. eapply advance_laneOk; eauto.
      * rewrite framesOf_setFrames, decide_True by done. by eapply advance_caughtUp.
  - eapply J_touch; [exact Ht1|done|done| |].
    + destruct cursor as [topicID position fetched]. eapply (advance_laneOk _ _ _ (mkAppCursor topicID position fetched)); eauto.
    + by eapply advance_caughtUp.
Qed.

Lemma advanceAll_triple names : triple J (advanceAll names) (fun _ => J) J.
Proof.
  induction names as [|name names IH]; [by intros l|]. cbn [advanceAll].
  eapply triple_seq; [apply advanceCursor_triple|exact IH].
Qed.

(** ** The drain *)

Lemma calm_record c l : calm l (record c l).
Proof. apply quiet_record. Qed.

Lemma handOver_spec name topicID position payload sender l :
  calm l (handOver name payload sender l).1 ∧
  ∀ prc data, deliverable (openedRecord name topicID position payload sender) = Some (prc, data) ->
    Emitted name prc data (normalizeDID sender) None ∈ l_trace (handOver name payload sender l).1.
Proof.
  unfold handOver, deliverable. cbn [pf_frame pf_payload pf_senderDID fr_protocol openedRecord].
  case_bool_decide as Hh; cbn [negb].
  2: { split; [done|]. intros prc data. destruct (parseMessage payload) as [| |[typ|] [p|] d]; try done.
       rewrite andb_false_r. done. }
  case_bool_decide as Hl; cbn [negb andb].
  { split; [done|]. intros prc data. by destruct (parseMessage payload) as [| |[typ|] [p|] d]. }
  destruct (parseMessage payload) as [| |[typ|] [p|] d]; try by split.
  rewrite andb_true_r. destruct (_ && logProcedure name p); [|by split].
  split; [apply calm_record|]. intros prc data [= <- <-]. cbn. set_solver.
Qed.

(** What one frame's turn leaves: the buffer as it was, and an answer the log accounts for. *)
Lemma drainFrame_spec name topicID secret epoch position sealed l :
  protocolTopic hkdf toB64U isWellFormed secret epoch name "" = Ok topicID ->
  ∃ l' answer, drainFrame name topicID position sealed l = (l', Ok answer) ∧ calm l l' ∧
    match answer.1 with
    | SealedBytes b => b = sealed
    | PendingID _ => True
    | Done => ∀ m, sm_sequenceID m = position -> sm_payload m = sealed -> settled (l_trace l') topicID m
    end.
Proof.
  intros Htopic. unfold drainFrame, mbind, op_bind, gets, modify, mret, op_ret.
  pose proof (λ l, quiet_calm _ _ (quiet_resumeBlocked topicID position l)) as Hresume.
  case_bool_decide as Hepoch.
  { eexists _, _. split; [done|]. split; [apply Hresume|]. intros m Hp Hs. apply settled_unreadable. by rewrite Hs. }
  destruct (durable && negb (onThisLane topicID sealed)) eqn:Hlane.
  { apply andb_true_iff in Hlane as [Hd Hlane%negb_true_iff].
    eexists _, _. split; [done|]. split; [apply Hresume|]. intros m Hp Hs. apply settled_otherLane; [done|]. by rewrite Hs. }
  cbn beta iota. unfold openFrame. destruct (encodeAppAAD fromUTF toUTF _) as [aad|e] eqn:Haad.
  2: { eexists _, _. split; [done|]. split; [apply Hresume|]. intros m Hp Hs. by eapply settled_badTopic. }
  destruct (unwrap _ _ _ _) as [handle outcome]. cbn beta iota.
  set (l1 := record _ _). assert (calm l l1) as Hl1 by (etrans; [|apply calm_record]; by split).
  assert (Unwrapped topicID position sealed outcome ∈ l_trace l1) as Hunw by (cbn; set_solver).
  clearbody l1. destruct outcome as [payload sender|ahead| |].
  - destruct durable eqn:Hd.
    { eexists _, _. split; [done|]. split; [|done]. etrans; [exact Hl1|by split]. }
    unfold failureOf. cbn beta iota. pose proof (Hresume l1) as Hl2.
    destruct (handOver_spec name topicID position payload sender (resumeBlocked topicID position l1)) as [Hl3 Hemit].
    destruct (handOver name payload sender (resumeBlocked topicID position l1)) as [l3 r]. cbn [fst] in *.
    exists l3, (Done, match r with Ok _ => None | Err e => Some e end). split; [by destruct r|].
    split; [by etrans; [exact Hl1|etrans]|]. intros m Hp Hs. subst. eapply settled_handed; [done|exact Htopic| |exact Hemit].
    eapply elem_of_prefix; [exact Hunw|]. etrans; [apply Hl2|apply Hl3].
  - destruct durable; eexists _, _; (split; [done|]); (split; [|done]); [|done].
    etrans; [exact Hl1|]. apply quiet_calm, quiet_reportBlocked.
  - destruct durable eqn:Hd; eexists _, _; (split; [done|]).
    { split; [|done]. etrans; [exact Hl1|]. apply quiet_calm, quiet_reportBlocked. }
    split; [by etrans|]. intros m Hp Hs. subst. apply settled_failedOpen; [done|].
    eapply elem_of_prefix; [exact Hunw|]. apply Hresume.
  - eexists _, _. split; [done|]. split; [by etrans|]. intros m Hp Hs. subst. apply settled_refused.
    eapply elem_of_prefix; [exact Hunw|]. apply Hresume.
Qed.

(** Rewriting the state of one buffered frame. *)
Lemma J_setFrame name cursor before position sealed sealed' rest l l' :
  J l -> jm_get name (l_cursors l) = Some cursor ->
  framesOf name l = before ++ mkAppFrame position sealed :: rest -> calm l l' ->
  frameOk (l_calls l') (l_trace l') (ac_topicID cursor) (mkAppFrame position sealed') ->
  J (setFrames name (before ++ mkAppFrame position sealed' :: rest) l').
Proof.
  intros HJ Hcur Hframes Hcalm Hok'. apply (J_calm _ _ Hcalm) in HJ as [Hb Hf].
  rewrite <- (calm_cursors _ _ Hcalm) in Hcur. rewrite <- (calm_frames _ _ Hcalm) in Hframes.
  destruct (buf_lane _ Hb _ _ Hcur) as [Hname Hok]. pose proof (Hf _ _ Hcur) as Hfull. rewrite Hframes in Hok, Hfull.
  set (frames := before ++ mkAppFrame position sealed :: rest) in *.
  set (frames' := before ++ mkAppFrame position sealed' :: rest).
  assert (framePositions frames' = framePositions frames) as Hpos by (unfold frames, frames'; by rewrite !map_app).
  assert (∀ f, f ∈ frames' -> f = mkAppFrame position sealed' ∨ f ∈ frames) as Hin.
  { intros f Hfin. unfold frames. unfold frames' in Hfin. set_solver. }
  assert (∀ f, f ∈ frames' -> ∃ g, g ∈ frames ∧ af_position f = af_position g) as Hsame.
  { intros f Hfin. assert (af_position f ∈ framePositions frames') as Hp by (apply list_elem_of_fmap; eauto).
    rewrite Hpos in Hp. apply list_elem_of_fmap in Hp as (g & ? & ?). eauto. }
  eapply J_touch; [by apply touches_setFrames|by split|done| |].
  - destruct Hok as [H1 H2 H3 H4 H5 H6]. split; [done..| | | |].
    + intros b Hb'. eapply covered_mono; [done..| |by apply H3]. by rewrite Hpos.
    + by rewrite Hpos.
    + intros f [->|?]%Hin; [done|]. by apply H5.
    + intros Hd f (g & Hg & ->)%Hsame. by apply H6.
  - intros f (g & Hg & ->)%Hsame. eapply covered_mono; [done..| |by apply Hfull]. by rewrite Hpos.
Qed.

Lemma drainFrames_triple name cursor todo : ∀ before,
  triple (fun l => J l ∧ jm_get name (l_cursors l) = Some cursor ∧ framesOf name l = before ++ todo)
    (drainFrames name (ac_topicID cursor) before todo) (fun _ => J) J.
Proof.
  induction todo as [|[position sealed] rest IH]; intros before l (HJ & Hcur & Hframes); [done|].
  cbn [drainFrames af_sealed af_position].
  assert (∀ l', J l' -> jm_get name (l_cursors l') = Some cursor ->
            framesOf name l' = before ++ mkAppFrame position sealed :: rest ->
            match drainFrames name (ac_topicID cursor) (before ++ [mkAppFrame position sealed]) rest l' with
            | (l2, Ok _) | (l2, Err _) => J l2 end) as Hskip.
  { intros l' HJ' Hcur' Hframes'. apply IH. split_and!; [done..|]. by rewrite <- app_assoc. }
  destruct sealed as [b|id|]; [|by apply Hskip..]. clear Hskip.
  destruct (buf_lane _ (proj1 HJ) _ _ Hcur) as [Hname Hok].
  destruct (lane_topic _ _ _ _ _ Hok) as (secret & epoch & Htopic).
  destruct (drainFrame_spec name _ secret epoch position b l Htopic) as (l' & answer & Heq & Hcalm & Hanswer).
  unfold mbind, op_bind, modify. rewrite Heq. cbn beta iota. destruct answer as [sealed' error]. cbn [fst snd] in *.
  assert (J (setFrames name (before ++ mkAppFrame position sealed' :: rest) l')) as HJ'.
  { eapply J_setFrame; [done..|].
    destruct (lane_frames _ _ _ _ _ Hok (mkAppFrame position (SealedBytes b))) as (m & Hm & Hp & Hs);
      [rewrite Hframes; set_solver|]. cbn in Hp, Hs.
    exists m. split_and!; [|done|].
    - pose proof (hub_grows Hhub _ _ (ac_topicID cursor) (calm_calls _ _ Hcalm)) as Hgrow.
      apply tl_steps_history in Hgrow as [suffix ->]. set_solver.
    - cbn [af_sealed]. destruct sealed'; [by rewrite Hanswer|done|]. by apply Hanswer. }
  destruct error; [done|]. apply IH. split_and!; [done| |].
  - cbn. by rewrite (calm_cursors _ _ Hcalm).
  - rewrite framesOf_setFrames, decide_True by done. by rewrite <- app_assoc.
Qed.

Lemma drainOne_triple name : triple J (drainOne name) (fun _ => J) J.
Proof.
  intros l HJ. unfold drainOne, mbind, op_bind, gets. cbn beta iota.
  destruct (jm_get name (l_cursors l)) as [cursor|] eqn:Hcur; [|done].
  destruct (_ || _); [done|].
  pose proof (drainFrames_triple name cursor (framesOf name l) [] l) as Hd.
  destruct (drainFrames _ _ _ _ l) as [l' [a|e]]; [|by apply Hd].
  apply advanceCursor_triple. by apply Hd.
Qed.

Lemma drain_triple : triple Buf drain (fun _ => J) Buf.
Proof.
  assert (∀ names, triple J (drainAll names) (fun _ => J) J) as Hall.
  { induction names as [|name names IH]; [by intros l|]. cbn [drainAll].
    eapply triple_seq; [apply drainOne_triple|exact IH]. }
  intros l Hbuf. unfold drain, mbind, op_bind, gets. pose proof (loadSegment_triple l Hbuf) as Hload.
  destruct (loadSegment l) as [l1 [a|e]]; [|done]. cbn beta iota. specialize (Hall (segmentNames l1) l1 Hload).
  destruct (drainAll _ l1) as [l2 [b|e]]; [done|]. apply Hall.
Qed.

Lemma syncTask_triple : triple Buf syncTask (fun _ => J) Buf.
Proof.
  unfold syncTask. eapply (triple_seq _ Buf).
  { apply triple_modify. intros l. by apply Buf_calm. }
  intros l Hbuf. unfold mbind, op_bind, gets. pose proof (loadSegment_triple l Hbuf) as Hload.
  destruct (loadSegment l) as [l1 [a|e]]; [|done]. cbn beta iota.
  pose proof (advanceAll_triple (segmentNames l1) l1 Hload) as Hadv.
  destruct (advanceAll _ l1) as [l2 [b|e]]; [done|]. apply Hadv.
Qed.

(** ** Records and operators *)

(** Marking a frame of the buffer done, in a lane whose trace settles it. *)
Lemma J_updateFrame name cursor position f l l' :
  J l -> jm_get name (l_cursors l) = Some cursor -> calm l l' ->
  (∀ g, af_position g = position -> f g = g ∨ f g = mkAppFrame position Done) ->
  (∀ m, sm_sequenceID m = position -> settled (l_trace l') (ac_topicID cursor) m) ->
  J (setFrames name (updateFrame position f (framesOf name l)) l').
Proof.
  intros HJ Hcur Hcalm Hf Hset. destruct (buf_lane _ (proj1 HJ) _ _ Hcur) as [Hname Hok].
  destruct (updateFrame_spec position f (framesOf name l)) as [-> |(before & g & rest & Hframes & Hg & ->)].
  { eapply J_calm; [|exact HJ]. etrans; [exact Hcalm|]. split; try done. intros name'.
    rewrite framesOf_setFrames. case_decide; [subst|done]. by rewrite (calm_frames _ _ Hcalm). }
  destruct (lane_frames _ _ _ _ _ Hok g) as (m & Hm & Hp & Hs); [rewrite Hframes; set_solver|].
  assert (m ∈ tl_history (hub (l_calls l') (ac_topicID cursor))) as Hm'.
  { pose proof (hub_grows Hhub _ _ (ac_topicID cursor) (calm_calls _ _ Hcalm)) as Hgrow.
    apply tl_steps_history in Hgrow as [suffix ->]. set_solver. }
  destruct g as [p sealed]. cbn in *. subst p.
  destruct (Hf (mkAppFrame position sealed) eq_refl) as [-> | ->].
  - eapply (J_setFrame _ _ before position sealed sealed); [done..|].
    exists m. split_and!; [done..|]. cbn. destruct sealed; [done..|]. by apply Hset.
  - eapply (J_setFrame _ _ before position sealed Done); [done..|].
    exists m. split_and!; [done..|]. by apply Hset.
Qed.

Lemma finishTask_triple r :
  durable = true ->
  triple (fun l => J l ∧ recordSource (l_trace l) r ∧ handedOver (l_trace l) r ∧ Completed (pf_frame r) ∈ l_trace l)
    (finishTask r) (fun _ => J) J.
Proof.
  intros Hd l (HJ & Hsrc & Hhand & Hcomp). unfold finishTask, mbind, op_bind, gets, modify. cbn beta iota.
  set (l1 := resumeUnknown r _).
  assert (calm l l1) as Hcalm.
  { unfold l1. etrans; [|apply quiet_calm, quiet_resumeUnknown]. etrans; [|apply quiet_calm, quiet_resumeBlocked]. by split. }
  clearbody l1. pose proof (J_calm _ _ Hcalm HJ) as HJ1.
  destruct (jm_get (fr_protocol (pf_frame r)) (l_cursors l1)) as [cursor|] eqn:Hcur; [|done].
  destruct (jm_get (fr_protocol (pf_frame r)) (l_segment l1)) as [frames|] eqn:Hseg; [|done].
  case_bool_decide as Htop; [|done]. cbn beta iota.
  assert (framesOf (fr_protocol (pf_frame r)) l1 = frames) as <- by (unfold framesOf; by rewrite Hseg).
  apply advanceCursor_triple. eapply J_updateFrame; [exact HJ1|exact Hcur|reflexivity| |].
  - intros g Hg. destruct (af_sealed g); auto. case_decide; [right; by rewrite Hg|auto].
  - intros m Hm. eapply settled_completed; [done|by symmetry|done|..].
    + eapply recordSource_mono; [apply Hcalm|done].
    + eapply handedOver_mono; [apply Hcalm|done].
    + eapply elem_of_prefix; [exact Hcomp|apply Hcalm].
Qed.

Lemma dropFrame_triple topicID position : triple J (dropFrame topicID position) (fun _ => J) J.
Proof.
  unfold dropFrame. apply triple_runAppLane; [apply J_stable|intros _; apply J_stable|apply J_stable|].
  destruct durable eqn:Hd; cbn [negb]; [|by apply triple_throw].
  eapply triple_bind; [apply triple_gets|]. intros unknown l [-> HJ].
  destruct (find _ (l_pendingRecords l)) as [r|].
  - unfold completeRecord, mbind, op_bind, modify, callPort. pose proof (quiet_callPort l) as [Hcalm _ _]. cbn in Hcalm.
    destruct (succeeds (l_calls l)); cbn beta iota; [|by eapply J_calm].
    eapply J_calm; [apply quiet_calm, quiet_resumeUnknown|].
    eapply J_calm; [|exact HJ]. etrans; [exact Hcalm|]. etrans; [apply (calm_record (Completed (pf_frame r)))|]. by split.
  - unfold mbind, op_bind, gets, modify, throw. cbn beta iota.
    destruct (find _ (l_cursors l)) as [[name cursor]|] eqn:Hfind; [|done]. cbn beta iota.
    apply find_some in Hfind as [Hin Htop%bool_decide_eq_true]. cbn in Htop.
    assert (jm_get name (l_cursors l) = Some cursor) as Hcur.
    { apply jm_get_Some; [apply HJ|]. by apply list_elem_of_In. }
    destruct (find _ (framesOf name l)) as [f|]; [|done]. destruct (af_sealed f); [|done..].
    destruct (existsb _ _); [done|]. cbn beta iota. apply advanceCursor_triple.
    eapply J_calm; [apply quiet_calm, quiet_resumeBlocked|].
    eapply J_updateFrame; [exact HJ|exact Hcur|apply calm_record| |].
    + intros g Hg. right. by rewrite Hg.
    + intros m Hm. apply settled_dropped; [done|]. rewrite Htop, Hm. cbn. set_solver.
Qed.

(** ** Records and workers *)

Definition pcOk (trace : list (LaneCall (D := D))) (pc : WorkerPc) : Prop :=
  match pc with
  | WorkerIdle => True
  | WorkerBlockedCheck r => recordSource trace r
  | WorkerEmitting r | WorkerCompleting r => recordSource trace r ∧ handedOver trace r
  | WorkerFinishing r => recordSource trace r ∧ handedOver trace r ∧ Completed (pf_frame r) ∈ trace
  end.

Record W l : Prop := {
  w_pending : ∀ r, r ∈ l_pendingRecords l -> recordSource (l_trace l) r;
  w_pc : ∀ name w, jm_get name (l_workers l) = Some w -> pcOk (l_trace l) (wk_pc w);
  w_durable : durable = false -> l_workers l = [];
}.

(** The workers are the same, the trace grows, and a new record is one the trace accounts for. *)
Record wcalm l l' : Prop := {
  wcalm_trace : l_trace l `prefix_of` l_trace l';
  wcalm_workers : l_workers l' = l_workers l;
  wcalm_pending : ∀ r, r ∈ l_pendingRecords l' -> r ∈ l_pendingRecords l ∨ recordSource (l_trace l') r;
}.

#[local] Instance wcalm_preorder : PreOrder wcalm.
Proof.
  split; [by split; auto|]. intros l1 l2 l3 [T1 W1 P1] [T2 W2 P2]. split; [by etrans|congruence|].
  intros r [Hr|Hr]%P2; [|by right]. apply P1 in Hr as [|Hr]; [by left|right]. by eapply recordSource_mono.
Qed.

Lemma wcalm_quiet l l' : quiet l l' -> wcalm l l'.
Proof. intros [Hc Hp Hw]. split; [apply Hc|done|]. intros r. rewrite Hp. auto. Qed.

Lemma pcOk_mono t t' pc : t `prefix_of` t' -> pcOk t pc -> pcOk t' pc.
Proof.
  intros Ht. destruct pc; cbn; [done|by apply recordSource_mono|..].
  1,2: intros [??]; split; [by eapply recordSource_mono|by eapply handedOver_mono].
  intros (? & ? & ?). split_and!; [by eapply recordSource_mono|by eapply handedOver_mono|by eapply elem_of_prefix].
Qed.

Lemma W_wcalm l l' : wcalm l l' -> W l -> W l'.
Proof.
  intros [Ht Hw Hp] []. split.
  - intros r [Hr|]%Hp; [|done]. eapply recordSource_mono; eauto.
  - intros name w. rewrite Hw. intros Hn. eapply pcOk_mono; eauto.
  - by rewrite Hw.
Qed.

Definition respects {A} (m : Op (H := H) (D := D) A) : Prop := ∀ l, wcalm l (m l).1.

Lemma respects_bind {A B} (m : Op A) (f : A -> Op B) :
  respects m -> (∀ a, respects (f a)) -> respects (op_bind A B f m).
Proof.
  intros Hm Hf l. specialize (Hm l). unfold op_bind. destruct (m l) as [l' [a|e]]; [|done].
  etrans; [exact Hm|apply Hf].
Qed.

Lemma respects_ret {A} (a : A) : respects (op_ret A a).
Proof. by intros l. Qed.
Lemma respects_throw {A} e : respects (throw (A := A) e).
Proof. by intros l. Qed.
Lemma respects_gets {A} (f : Lane -> A) : respects (gets f).
Proof. by intros l. Qed.
Lemma respects_modify f : (∀ l, wcalm l (f l)) -> respects (modify f).
Proof. by intros Hf l. Qed.
Lemma respects_callPort : respects callPort.
Proof. intros l. apply wcalm_quiet, quiet_callPort. Qed.

Lemma respects_runAppLane {A} (m : Op A) : respects m -> respects (runAppLane m).
Proof.
  intros Hm l. unfold runAppLane. specialize (Hm (setNotices (Some []) l)).
  destruct (m _) as [l' r]. cbn [fst] in *. etrans; [|etrans; [exact Hm|]]; [by apply wcalm_quiet; repeat split|].
  apply wcalm_quiet. etrans; [apply (quiet_foldl (fun l n => showNotice n l)); intros; apply quiet_showNotice|].
  by repeat split.
Qed.

#[local] Hint Extern 1 (respects _) =>
  first [apply respects_ret|apply respects_throw|apply respects_gets|apply respects_callPort] : lane.

Ltac same_records := apply wcalm_quiet; repeat split; done.

Lemma respects_laneFor name : respects (laneFor name).
Proof.
  apply respects_bind.
  { apply respects_modify. intros l. destruct (jm_get name (l_segment l)); [done|]. by split; auto. }
  intros _. apply respects_bind; [auto with lane|]. intros [cursor|]; [auto with lane|].
  apply respects_bind; [auto with lane|]. intros a. apply respects_bind.
  { unfold orThrow. destruct (protocolTopic _ _ _ _ _ _ _); auto with lane. }
  intros topicID. apply respects_bind.
  { destruct hasCursorStore; [|auto with lane]. apply respects_bind; [auto with lane|]. intros []; auto with lane. }
  intros stored. apply respects_bind; [|auto with lane]. apply respects_modify. intros l. by split; auto.
Qed.

Lemma wcalm_setFetched name after l : wcalm l (setFetched name after l).
Proof. unfold setFetched. destruct (jm_get _ _); [|done]. by split; auto. Qed.

Lemma wcalm_afterPage name topicID after result l : wcalm l (afterPage name topicID after result l).
Proof.
  unfold afterPage. etrans; [apply (wcalm_quiet l (setCalls (S (l_calls l)) l)); repeat split; try done; cbn; lia|].
  generalize (setCalls (S (l_calls l)) l) as l1. intros l1.
  etrans; [|apply wcalm_setFetched].
  assert (∀ l2, wcalm l2 (bufferPage name topicID (fr_messages result) l2)) as Hpage by (intros l2; by split; auto).
  destruct after as [c|]; [destruct (fr_gap result)|]; try apply Hpage.
  etrans; [apply wcalm_quiet, quiet_reportPrunedWindow|apply Hpage].
Qed.

Lemma respects_loadPages n name topicID after : respects (loadPages n name topicID after).
Proof.
  revert after. induction n as [|n IH]; intros after l; [done|]. rewrite loadPages_S.
  assert (wcalm l (setCalls (1 + l_calls l) l)) as Herr by (apply wcalm_quiet; repeat split; try done; cbn; lia).
  destruct (fetchTopic _ _ _ _) as [result|]; [|done]. destruct (negb _); [done|].
  destruct (_ <? _)%nat; [apply wcalm_afterPage|]. etrans; [apply wcalm_afterPage|apply IH].
Qed.

Lemma respects_loadOne name : respects (loadOne name).
Proof.
  apply respects_bind; [apply respects_laneFor|]. intros cursor. apply respects_bind.
  { apply respects_modify. intros l. apply wcalm_quiet, quiet_retainOnce. }
  intros _. apply respects_bind; [|intros _; apply respects_loadPages].
  apply respects_modify. intros l. by split; auto.
Qed.

Lemma respects_loadAll names failure : respects (loadAll names failure).
Proof.
  revert failure. induction names as [|name names IH]; intros failure l; [by destruct failure|]. cbn [loadAll].
  pose proof (respects_loadOne name l) as Hone. destruct (loadOne name l) as [l' r].
  etrans; [exact Hone|apply IH].
Qed.

Lemma respects_advanceCursor name : respects (advanceCursor name).
Proof.
  apply respects_bind; [auto with lane|]. intros [cursor|]; [|auto with lane].
  apply respects_bind; [auto with lane|]. intros [passed others]. apply respects_bind.
  { apply respects_modify. intros l. by split; auto. }
  intros _. cbn [fst]. destruct (last passed) as [f|]; [|auto with lane].
  case_bool_decide; [auto with lane|]. apply respects_bind.
  { apply respects_modify. intros l. by split; auto. }
  intros _. unfold saveCursor. destruct hasCursorStore; [|auto with lane].
  apply respects_bind; [auto with lane|]. intros []; [|auto with lane]. apply respects_modify.
  intros l. etrans; [|apply wcalm_quiet, quiet_record]. by split; auto.
Qed.

Lemma respects_names (f : string -> Op unit) names (all : list string -> Op unit) :
  (∀ name, respects (f name)) -> all [] = op_ret unit tt ->
  (∀ name names, all (name :: names) = op_bind unit unit (fun _ => all names) (f name)) -> respects (all names).
Proof.
  intros Hf Hnil Hcons. induction names as [|name names IH]; [rewrite Hnil; auto with lane|].
  rewrite Hcons. by apply respects_bind.
Qed.

Lemma respects_drainFrame name topicID position sealed : respects (drainFrame name topicID position sealed).
Proof.
  assert (∀ l, wcalm l (resumeBlocked topicID position l)) as Hresume
    by (intros l; apply wcalm_quiet, quiet_resumeBlocked).
  assert (∀ r, respects (op_bind unit (Sealed * option LaneFailure)%type (fun _ => op_ret _ r) (modify (resumeBlocked topicID position)))) as Hdead.
  { intros r. apply respects_bind; [by apply respects_modify|auto with lane]. }
  intros l. unfold drainFrame. case_bool_decide; [apply Hdead|]. destruct (durable && _); [apply Hdead|].
  unfold mbind, op_bind at 1, gets. cbn beta iota. unfold op_bind at 1, openFrame.
  destruct (encodeAppAAD _ _ _) as [aad|e]; [|apply Hdead].
  destruct (unwrap _ _ _ _) as [handle outcome]. cbn beta iota.
  set (l1 := record _ _). assert (wcalm l l1) as Hl1.
  { apply wcalm_quiet. etrans; [|apply quiet_record]. by repeat split. }
  assert (Unwrapped topicID position sealed outcome ∈ l_trace l1) as Hunw by (cbn; set_solver).
  clearbody l1. etrans; [exact Hl1|]. destruct outcome as [payload sender|ahead| |].
  - destruct durable.
    + split; [done..|]. cbn. intros r [Hr|Hr]%elem_of_app; [by left|right].
      apply list_elem_of_singleton in Hr as ->. right. eauto.
    + apply respects_bind; [by apply respects_modify|]. intros _. apply respects_bind; [|auto with lane].
      intros l2. destruct (handOver_spec name topicID position payload sender l2) as [Hcalm _].
      unfold failureOf. assert (quiet l2 (handOver name payload sender l2).1) as Hq.
      { split; [done|..]; unfold handOver; repeat case_match; done. }
      destruct (handOver name payload sender l2) as [l3 []]; by apply wcalm_quiet.
  - apply respects_bind; [|auto with lane]. destruct durable; [|auto with lane]. apply respects_modify.
    intros l2. apply wcalm_quiet, quiet_reportBlocked.
  - destruct durable; [|apply Hdead]. apply respects_bind; [|auto with lane]. apply respects_modify.
    intros l2. apply wcalm_quiet, quiet_reportBlocked.
  - apply Hdead.
Qed.

Lemma respects_drainFrames name topicID todo : ∀ before, respects (drainFrames name topicID before todo).
Proof.
  induction todo as [|f rest IH]; intros before; [apply respects_ret|]. cbn [drainFrames].
  destruct (af_sealed f); [|apply IH..]. apply respects_bind; [apply respects_drainFrame|]. intros [sealed' e].
  apply respects_bind; [apply respects_modify; intros l; by split; auto|]. intros _. cbn.
  destruct e; [apply respects_throw|apply IH].
Qed.

Lemma respects_drainOne name : respects (drainOne name).
Proof.
  apply respects_bind; [auto with lane|]. intros cursor. apply respects_bind; [auto with lane|]. intros frames.
  destruct cursor; [|auto with lane]. destruct (_ || _); [auto with lane|].
  apply respects_bind; [apply respects_drainFrames|]. intros _. apply respects_advanceCursor.
Qed.

Lemma respects_drain : respects drain.
Proof.
  apply respects_bind; [apply respects_loadAll|]. intros _. apply respects_bind; [auto with lane|]. intros names.
  by apply (respects_names drainOne); [apply respects_drainOne|..].
Qed.

Lemma respects_syncTask : respects syncTask.
Proof.
  apply respects_bind; [apply respects_modify; intros l; by split; auto|]. intros _.
  apply respects_bind; [apply respects_loadAll|]. intros _. apply respects_bind; [auto with lane|]. intros names.
  by apply (respects_names advanceCursor); [apply respects_advanceCursor|..].
Qed.

Lemma removeRecord_sub id records r : r ∈ removeRecord id records -> r ∈ records.
Proof.
  induction records as [|x records IH]; [done|]. cbn [removeRecord]. case_decide; [set_solver|].
  intros [->|?]%elem_of_cons; set_solver.
Qed.

Lemma respects_removeRecord id : respects (modify (fun l => setPendingRecords (removeRecord id (l_pendingRecords l)) l)).
Proof. apply respects_modify. intros l. split; [done..|]. intros r Hr%removeRecord_sub. by left. Qed.

Lemma respects_finishTask r : respects (finishTask r).
Proof.
  apply respects_bind; [apply respects_removeRecord|]. intros _.
  apply respects_bind; [apply respects_modify; intros l; apply wcalm_quiet, quiet_resumeBlocked|]. intros _.
  apply respects_bind; [apply respects_modify; intros l; apply wcalm_quiet, quiet_resumeUnknown|]. intros _.
  apply respects_bind; [auto with lane|]. intros [cursor|]; (apply respects_bind; [auto with lane|]);
    intros [frames|]; auto with lane.
  case_bool_decide; [|auto with lane]. apply respects_bind; [|intros _; apply respects_advanceCursor].
  apply respects_modify. intros l. by split; auto.
Qed.

Lemma respects_dropFrame topicID position : respects (dropFrame topicID position).
Proof.
  apply respects_runAppLane. destruct durable; cbn [negb]; [|auto with lane].
  apply respects_bind; [auto with lane|]. intros [r|].
  - apply respects_bind.
    { apply respects_bind; [auto with lane|]. intros []; [|auto with lane]. apply respects_modify.
      intros l. apply wcalm_quiet, quiet_record. }
    intros _. apply respects_bind; [apply respects_removeRecord|]. intros _.
    apply respects_modify. intros l. apply wcalm_quiet, quiet_resumeUnknown.
  - apply respects_bind; [auto with lane|]. intros [[name cursor]|]; [|auto with lane].
    apply respects_bind; [auto with lane|]. intros frames. destruct (find _ frames) as [f|]; [|auto with lane].
    destruct (af_sealed f); auto with lane. destruct (existsb _ _); [auto with lane|].
    apply respects_bind; [apply respects_modify; intros l; apply wcalm_quiet, quiet_record|]. intros _.
    apply respects_bind; [apply respects_modify; intros l; by split; auto|]. intros _.
    apply respects_bind; [apply respects_modify; intros l; apply wcalm_quiet, quiet_resumeBlocked|]. intros _.
    apply respects_advanceCursor.
Qed.

(** *** The workers' turns *)

Lemma W_setWorker name w l : durable = true -> pcOk (l_trace l) (wk_pc w) -> W l -> W (setWorker name w l).
Proof.
  intros Hd Hpc []. split; [done| |congruence]. cbn. intros name' w'. rewrite jm_get_set.
  case_decide; [by intros [= <-]|by apply w_pc0].
Qed.

Lemma W_pc name l : W l -> pcOk (l_trace l) (wk_pc (default newWorker (jm_get name (l_workers l)))).
Proof. intros HW. destruct (jm_get name (l_workers l)) as [w|] eqn:Hw; [|done]. by eapply w_pc. Qed.

Definition Inv l : Prop := Buf l ∧ W l.

Lemma Inv_setWorker name w l : durable = true -> pcOk (l_trace l) (wk_pc w) -> Inv l -> Inv (setWorker name w l).
Proof. intros Hd Hpc [Hb HW]. split; [|by apply W_setWorker]. eapply Buf_calm; [|done]. by split. Qed.

Lemma Inv_quiet l l' : quiet l l' -> Inv l -> Inv l'.
Proof. intros Hq [Hb HW]. split; [by eapply Buf_stable|]. eapply W_wcalm; [by apply wcalm_quiet|done]. Qed.

Lemma Inv_scheduleWorker name delay l : Inv l -> Inv (scheduleWorker name delay l).
Proof.
  intros HI. unfold scheduleWorker. destruct durable eqn:Hd; [|by rewrite orb_true_r].
  destruct (l_disposed l); [done|]. cbn [orb negb]. apply Inv_setWorker; [done|apply (W_pc _ _ (proj2 HI))|done].
Qed.

Lemma Inv_leaveLoop failed name l : durable = true -> Inv l -> Inv (leaveLoop failed name l).
Proof.
  intros Hd HI. unfold leaveLoop. destruct (wk_retryNow _).
  { by apply Inv_scheduleWorker, Inv_setWorker. }
  destruct failed; [by apply Inv_scheduleWorker, Inv_setWorker|].
  destruct (wk_requested _); [apply Inv_scheduleWorker|]; by apply Inv_setWorker.
Qed.

Lemma Inv_onWorker name f l :
  durable = true -> pcOk (l_trace l) (wk_pc (f (default newWorker (jm_get name (l_workers l))))) ->
  Inv l -> Inv (onWorker name f l).
Proof. intros. by apply Inv_setWorker. Qed.

Lemma orderedRecords_elem name r l : r ∈ orderedRecords name l -> r ∈ l_pendingRecords l.
Proof. unfold orderedRecords. rewrite merge_sort_Permutation. by intros [_ ?]%list_elem_of_filter. Qed.

Lemma Inv_nextRecord name l : durable = true -> Inv l -> Inv (nextRecord name l).
Proof.
  intros Hd HI. unfold nextRecord. destruct (l_disposed l); [by apply Inv_leaveLoop|].
  destruct (head (orderedRecords name l)) as [r|] eqn:Hr; [|by apply Inv_leaveLoop].
  destruct (negb _); [by apply Inv_leaveLoop|]. apply Inv_onWorker; [done| |done]. cbn.
  apply (w_pending _ (proj2 HI)). eapply orderedRecords_elem. apply head_Some_elem_of. exact Hr.
Qed.

Lemma J_durable l : durable = true -> Buf l -> J l.
Proof. intros Hd Hb. split; [done|]. intros name. by apply FullAt_durable. Qed.

Lemma Inv_emitted r prc data l :
  deliverable r = Some (prc, data) ->
  handedOver (l_trace (record (Emitted (fr_protocol (pf_frame r)) prc data (normalizeDID (pf_senderDID r)) (Some (pf_frame r))) l)) r.
Proof. intros Hd prc' data' Hd'. rewrite Hd in Hd'. injection Hd' as <- <-. cbn. set_solver. Qed.

Lemma Inv_workerTurn name l : Inv l -> Inv (workerTurn name l).
Proof.
  intros HI. unfold workerTurn. pose proof (W_pc name l (proj2 HI)) as Hpc.
  destruct durable eqn:Hd; [|by rewrite (w_durable _ (proj2 HI) Hd)].
  destruct (jm_get name (l_workers l)) as [w|] eqn:Hw; [|done]. cbn [default] in *. unfold id in *.
  destruct (wk_pc w) as [|r|r|r|r] eqn:Hwpc; [done|..]; cbn in Hpc.
  - destruct (_ || _); [by apply Inv_leaveLoop|].
    destruct (deliverable r) as [[prc data]|] eqn:Hdel.
    + apply Inv_onWorker; [done| |by eapply Inv_quiet; [apply quiet_record|]]. cbn [wk_pc withPc pcOk].
      split; [|by apply Inv_emitted]. eapply recordSource_mono; [|exact Hpc]. by apply prefix_app_r.
    + apply Inv_onWorker; [done| |done]. cbn. split; [done|]. intros prc data. congruence.
  - pose proof (quiet_callPort l) as Hq. unfold callPort in *. cbn [fst] in Hq.
    set (l1 := setCalls _ _) in *. assert (Inv l1) as HI1 by by eapply Inv_quiet.
    destruct (succeeds (l_calls l)); [|by apply Inv_leaveLoop].
    destruct (l_disposed l1).
    + apply Inv_nextRecord; [done|]. apply Inv_onWorker; [done|apply W_pc, HI1|done].
    + apply Inv_onWorker; [done|exact Hpc|done].
  - pose proof (quiet_callPort l) as Hq. unfold callPort in *. cbn [fst] in Hq.
    set (l1 := setCalls _ _) in *. assert (Inv l1) as HI1 by by eapply Inv_quiet.
    destruct (succeeds (l_calls l)); [|by apply Inv_leaveLoop].
    assert (Inv (record (Completed (pf_frame r)) l1)) as HI2 by (eapply Inv_quiet; [apply quiet_record|done]).
    destruct (l_disposed _).
    + apply Inv_nextRecord; [done|]. apply Inv_onWorker; [done|apply W_pc, HI2|done].
    + apply Inv_onWorker; [done| |done]. cbn [wk_pc withPc pcOk]. destruct Hpc as [Hsrc Hhand].
      assert (l_trace l `prefix_of` l_trace (record (Completed (pf_frame r)) l1)) as Ht by by apply prefix_app_r.
      split_and!; [by eapply recordSource_mono|by eapply handedOver_mono|]. cbn. set_solver.
  - assert (stable (fun l => J l ∧ recordSource (l_trace l) r ∧ handedOver (l_trace l) r ∧ Completed (pf_frame r) ∈ l_trace l)) as Hst.
    { intros l1 l2 Hq (HJ & H1 & H2 & H3). pose proof (calm_trace _ _ (quiet_calm _ _ Hq)) as Ht.
      split_and!; [by eapply J_stable|by eapply recordSource_mono|by eapply handedOver_mono|by eapply elem_of_prefix]. }
    pose proof (triple_runAppLane _ (finishTask r) (fun _ => J) J Hst (fun _ => J_stable) J_stable
      (finishTask_triple r Hd) l (conj (J_durable l Hd (proj1 HI)) Hpc)) as Hrun.
    pose proof (respects_runAppLane (finishTask r) (respects_finishTask r) l) as Hresp.
    destruct (runAppLane (finishTask r) l) as [l1 res]. cbn [fst] in Hresp.
    assert (Inv l1) as HI1 by (destruct res; (split; [apply Hrun|by eapply W_wcalm; [|apply HI]])).
    destruct res; [|by apply Inv_leaveLoop].
    apply Inv_nextRecord; [done|]. apply Inv_onWorker; [done|apply W_pc, HI1|done].
Qed.

(** ** Runs *)

(** What a live push says of the log is true: it carries a frame of the topic at its position. *)
Definition honestInput l (input : LaneInput (H := H)) : Prop :=
  match input with
  | Note name topicID message ahead =>
    durable = false -> ∀ position, sm_logPosition message = Some position ->
    ∃ m, m ∈ tl_history (hub (l_calls l) topicID) ∧ sm_sequenceID m = position ∧ sm_payload m = sm_payload message
  | _ => True
  end.

Fixpoint honestRun l (inputs : list LaneInput) : Prop :=
  match inputs with
  | [] => True
  | input :: rest => honestInput l input ∧ honestRun (laneStep l input) rest
  end.

Lemma Inv_note name topicID message ahead l :
  honestInput l (Note name topicID message ahead) -> Inv l -> Inv (note name topicID message ahead l).
Proof.
  intros Hhonest HI. cbn in Hhonest. unfold note. destruct (sm_logPosition message) as [position|]; [|done].
  destruct durable eqn:Hd; [eapply Inv_quiet; [|exact HI]; by repeat split|].
  destruct (Hhonest eq_refl position eq_refl) as (m & Hm & Hp & Hs).
  set (l1 := if ahead then l else record (NotedDone topicID position) l).
  assert (quiet l l1) as Hq by (unfold l1; destruct ahead; [done|apply quiet_record]).
  apply (Inv_quiet _ _ Hq) in HI as [Hb HW].
  assert (frameOk (l_calls l1) (l_trace l1) topicID (mkAppFrame position (if ahead then SealedBytes (sm_payload message) else Done))) as Hok.
  { assert (l_calls l1 = l_calls l) as Hcalls by (unfold l1; by destruct ahead).
    exists m. rewrite Hcalls. split_and!; [done..|]. cbn.
    destruct ahead; [by rewrite Hs|]. apply settled_pushed; [done|]. rewrite Hp. unfold l1. cbn. set_solver. }
  split; [|eapply W_wcalm; [|exact HW]; by split; auto]. destruct Hb. split; cbn; try done.
  intros name' pushes. rewrite jm_get_set. case_decide; [|apply buf_staged0]. subst name'. intros [= <-].
  split; [done|]. intros topicID' f [Hin|Hin]%elem_of_app.
  - assert (l_staged l1 = l_staged l) as Hst by (unfold l1; by destruct ahead). rewrite <- Hst in Hin.
    destruct (jm_get name (l_staged l1)) as [old|] eqn:Hold; [|by apply elem_of_nil in Hin]. by eapply buf_staged0.
  - apply list_elem_of_singleton in Hin as [= -> ->]. done.
Qed.

Lemma Inv_foldl {A} (f : Lane -> A -> Lane) xs l : (∀ l a, Inv l -> Inv (f l a)) -> Inv l -> Inv (foldl f l xs).
Proof. intros Hf. revert l. induction xs as [|x xs IH]; intros l HI; [done|]. apply IH. by apply Hf. Qed.

Lemma Inv_of_triple {A} (m : Op A) l :
  triple Buf m (fun _ => Buf) Buf -> respects m -> Inv l -> Inv (m l).1.
Proof.
  intros Hm Hr [Hb HW]. specialize (Hm l Hb). specialize (Hr l).
  destruct (m l) as [l' []]; (split; [exact Hm|by eapply W_wcalm]).
Qed.

Lemma triple_task {A} (m : Op A) : triple Buf m (fun _ => J) Buf -> triple Buf (runAppLane m) (fun _ => Buf) Buf.
Proof.
  intros Hm. apply triple_runAppLane; [apply Buf_stable|intros _; apply Buf_stable|apply Buf_stable|].
  eapply triple_post; [exact Hm|]. by intros _ l [? _].
Qed.

Lemma Inv_deliver l : Inv l -> Inv (deliver l).1.
Proof.
  intros HI. apply (Inv_of_triple (runAppLane drain)) in HI;
    [|apply triple_task, drain_triple|apply respects_runAppLane, respects_drain].
  unfold deliver. destruct (runAppLane drain l) as [l' r]. cbn [fst] in *. destruct (durable && _); [|done].
  apply Inv_foldl; [intros; by apply Inv_scheduleWorker|]. eapply Inv_quiet; [|exact HI].
  apply quiet_foldl. intros. apply quiet_reportUnknown.
Qed.

Lemma Inv_dropFrame topicID position l : Inv l -> Inv (dropFrame topicID position l).1.
Proof.
  intros HI. destruct durable eqn:Hd.
  - pose proof (dropFrame_triple topicID position l (J_durable l Hd (proj1 HI))) as Hdrop.
    pose proof (respects_dropFrame topicID position l) as Hr.
    destruct (dropFrame topicID position l) as [l' []]; (split; [apply Hdrop|by eapply W_wcalm; [|apply HI]]).
  - apply Inv_of_triple; [|apply respects_dropFrame|done]. unfold dropFrame. rewrite Hd.
    apply triple_runAppLane; [apply Buf_stable|intros _; apply Buf_stable|apply Buf_stable|]. by apply triple_throw.
Qed.

Lemma Inv_retryDelivery topicID l : Inv l -> Inv (retryDelivery topicID l).
Proof.
  intros HI. unfold retryDelivery. destruct (l_disposed l); [done|]. apply Inv_foldl; [|done]. clear l HI.
  intros l name HI. destruct (match topicID with Some _ => _ | None => _ end); [done|]. apply Inv_scheduleWorker.
  destruct (jm_get name (l_workers l)) as [w|] eqn:Hw; [|done]. apply Inv_setWorker; [|exact (w_pc _ (proj2 HI) name w Hw)|done].
  destruct durable eqn:Hd; [done|]. by rewrite (w_durable _ (proj2 HI) Hd) in Hw.
Qed.

Lemma Inv_restoreOne r l : Inv l ->
  Inv (let l := reportUnknown r l in
       if existsb (fun item => bool_decide (fr_id (pf_frame item) = fr_id (pf_frame r))) (l_pendingRecords l)
       then l else record (Restored r) (setPendingRecords (l_pendingRecords l ++ [r]) l)).
Proof.
  intros HI. assert (Inv (reportUnknown r l)) as [Hb HW] by (eapply Inv_quiet; [apply quiet_reportUnknown|done]).
  cbn beta zeta. destruct (existsb _ _); [done|]. split.
  - eapply Buf_calm; [|exact Hb]. etrans; [|apply calm_record]. by split.
  - eapply W_wcalm; [|exact HW]. split; [by apply prefix_app_r|done|]. cbn.
    intros r' [?|Hr']%elem_of_app; [by left|right]. apply list_elem_of_singleton in Hr' as ->. left. cbn. set_solver.
Qed.

Lemma Inv_restore records l : Inv l -> Inv (restore records l).1.
Proof.
  intros HI. unfold restore, runAppLane, modify. cbn [fst].
  set (l0 := setNotices (Some []) l). assert (Inv l0) as HI0 by (eapply Inv_quiet; [|exact HI]; by repeat split).
  set (l1 := foldl _ l0 records). assert (Inv l1) as HI1.
  { apply Inv_foldl; [|done]. intros l2 r HI2. by apply Inv_restoreOne. }
  clearbody l1. set (l2 := setPendingRecords _ l1). assert (Inv l2) as HI2.
  { destruct HI1 as [Hb HW]. split; [eapply Buf_calm; [|exact Hb]; by split|]. eapply W_wcalm; [|exact HW].
    split; [done..|]. unfold l2. cbn. intros r. rewrite merge_sort_Permutation. by left. }
  eapply Inv_quiet; [|exact HI2].
  etrans; [apply (quiet_foldl (fun l n => showNotice n l)); intros; apply quiet_showNotice|]. by repeat split.
Qed.

Lemma jm_get_map {V V'} (f : V -> V') name (m : list (string * V)) :
  jm_get name (map (fun entry => (entry.1, f entry.2)) m) = f <$> jm_get name m.
Proof. induction m as [|[k v] m IH]; [done|]. cbn. by case_decide. Qed.

Lemma Inv_dispose l : Inv l -> Inv (dispose l).
Proof.
  intros [Hb HW]. split; [eapply Buf_calm; [|exact Hb]; by split|]. destruct HW. split; [done| |].
  - cbn. intros name w Hw.
    rewrite (jm_get_map (fun w => mkWorker (wk_pc w) (wk_requested w) (wk_retryNow w) (wk_backoff w) None)) in Hw.
    destruct (jm_get name (l_workers l)) as [w'|] eqn:Hw'; [|done]. injection Hw as <-. cbn. eauto.
  - cbn. intros Hd. by rewrite (w_durable0 Hd).
Qed.

Lemma Inv_reset l : Inv l -> Inv (reset l).
Proof.
  intros HI. unfold reset. set (l1 := setBlockingFrames [] l).
  assert (quiet l l1) as Hq1 by by repeat split.
  set (l2 := if l_disposed l1 then l1 else _).
  assert (quiet l1 l2) as Hq2.
  { unfold l2. destruct (l_disposed l1); [done|]. apply (quiet_foldl (fun l event => notifyAppHost (NoticeResumed event) l)).
    intros. apply quiet_notifyAppHost. }
  clearbody l1 l2. apply (Inv_quiet _ _ Hq1), (Inv_quiet _ _ Hq2) in HI as [Hb HW]. split.
  - destruct Hb. split; cbn; [done|done|done|done|constructor].
  - eapply W_wcalm; [|exact HW]. by split; auto.
Qed.

Lemma Inv_laneStep l input : honestInput l input -> Inv l -> Inv (laneStep l input).
Proof.
  intros Hhonest HI. destruct input; cbn [laneStep].
  - by apply Inv_note.
  - destruct (l_syncScheduled l); [|done].
    apply Inv_of_triple; [apply triple_task, syncTask_triple|apply respects_runAppLane, respects_syncTask|done].
  - by apply Inv_deliver.
  - unfold fireTimer. destruct (jm_get name (l_workers l)) as [w|] eqn:Hw; [|done].
    destruct (wk_timer w); [|done]. destruct (l_disposed l); [done|].
    destruct durable eqn:Hd; [|by rewrite (w_durable _ (proj2 HI) Hd) in Hw].
    apply Inv_nextRecord; [done|]. apply Inv_setWorker; [done|exact (w_pc _ (proj2 HI) name w Hw)|done].
  - by apply Inv_workerTurn.
  - by apply Inv_dropFrame.
  - by apply Inv_retryDelivery.
  - by apply Inv_restore.
  - by apply Inv_reset.
  - by apply Inv_dispose.
  - eapply Inv_quiet; [|exact HI]. by repeat split.
  - eapply Inv_quiet; [|exact HI]. by repeat split.
Qed.

Lemma Inv_laneRun inputs l : honestRun l inputs -> Inv l -> Inv (laneRun l inputs).
Proof.
  revert l. induction inputs as [|input inputs IH]; intros l; [done|]. intros [Hi Hrest] HI.
  apply IH; [done|]. by apply Inv_laneStep.
Qed.

Lemma Inv_create anchor handle : Inv (createAppLane anchor start handle).
Proof.
  split.
  - split; cbn; [|done|done|done|constructor]. intros topicID c Hc. split; [by left|].
    intros m _ Ha Hle. exfalso. apply (slt_irrefl c). eapply slt_sle_trans; [by apply Ha|done].
  - split; cbn; [set_solver|done|done].
Qed.
End honest.
End spec.


(** ** A lane to try the theorems on *)

Module Demo.
Definition frameAt (position sender : string) (payload : bytes) : StoredMessage :=
  mkStoredMessage position sender "T" payload (Some position).

Definition first : StoredMessage := frameAt "1" "bob" [Byte.x01].
Definition log : TopicLog :=
  mkTopicLog [first; frameAt "2" "me" [Byte.x01]; frameAt "3" "bob" [Byte.x02]] 0.

(** One protocol, no durable delivery; the handle opens what starts with 1 and is behind the rest. *)
#[export] Instance env : LaneEnv unit nat := {|
  unwrap h sealed aad ref :=
    (h, if bool_decide (sealed = [Byte.x01]) then Opened sealed "bob" else FrameAhead 9);
  frameEpoch _ := Some 1%Z;
  frameAAD _ := None;
  fetchTopic n topicID after limit := Some (tl_fetch after (Some limit) log);
  succeeds _ := true;
  parseMessage _ := Message (Some "event") (Some "say") (Some 7);
  emptyData := 0;
  fromUTF s := utf8 s;
  toUTF b := Some (String.string_of_list_byte b);
  sha256 b := b;
  toB64U _ := "T";
  hkdf secret salt info n := [];
  isWellFormed _ := true;
  normalizeDID did := did;
  localDID := "me";
  protocols := [("chat", [("say", mkProcedure "event" (Some "log"))])];
  eventHandlers := {["chat"]};
  groupID := Some "G";
  durable := false;
  hasCursorStore := true;
  hasOnPruned := true;
  hasOnStalled := true;
  hasOnResumed := true;
  le_fuel := 2;
|}.

Lemma log_wf : tl_wf log.
Proof.
  split; [|cbn; lia|].
  - repeat constructor.
  - intros m Hm. cbn in Hm. repeat (apply elem_of_cons in Hm as [->|Hm]; [done|]). by apply elem_of_nil in Hm.
Qed.

Lemma serves : hubServes (E := env) (fun _ _ => log).
Proof. split; [intros; apply log_wf|done|]. by intros n topicID after limit result [= <-]. Qed.

Definition start : Lane := createAppLane (H := unit) (D := nat) (mkAnchor [] 0) ∅ tt.
End Demo.
Import Demo.


(** Without durable delivery a push noted after the drain has passed it is buffered again, and the cursor
    follows it back: the store then holds an earlier position than it did. *)
Lemma late_push_moves_cursor_back :
  l_store (laneRun Demo.start [Deliver]) !! "T" = Some "2" ∧
  l_store (laneRun Demo.start [Deliver; Note "chat" "T" Demo.first false; Sync]) !! "T" = Some "1".
Proof. split; vm_compute; reflexivity. Qed.
