(* ===== verification/AppLaneLive.v ===== *)
(** * The app lane makes progress

    A pull over a log of bounded length ends and fails only for a cause outside the lane; a started
    worker hands every pending record of its protocol to the host, in log order, and goes idle; the
    buffer does not depend on the order frames arrive in. *)

From S2P Require Import Prelude HubProtocol HubSpec Codecs LedgerHead Classify Topics AppLane AppLaneSpec.

Section live.
Context {H D : Type} `{E : LaneEnv H D}.
Implicit Types (l : Lane (H := H) (D := D)).

#[local] Existing Instances calm_preorder quiet_preorder.

(** ** Pulls end *)

(** What can make a task of the lane fail: a port that failed, a topic that cannot be derived, a failed
    save of an opened frame, a payload that is the JSON [null]. *)
Definition outsideCause (e : LaneFailure) : Prop :=
  match e with
  | FetchFailed => ∃ n topicID after, fetchTopic n topicID after APP_FETCH_LIMIT = None
  | CursorStoreFailed => ∃ n, succeeds n = false
  | TopicRefused error => ∃ name secret epoch, protocolTopic hkdf toB64U isWellFormed secret epoch name "" = Err error
  | FrameStorageFailed => durable = true
  | NullPayload => durable = false ∧ ∃ payload, parseMessage payload = NullMessage
  | _ => False
  end.

Definition failsOutside {A} (m : Op (H := H) (D := D) A) : Prop :=
  ∀ l e, (m l).2 = Err e -> outsideCause e.

Lemma fo_bind {A B} (m : Op A) (f : A -> Op B) :
  failsOutside m -> (∀ a, failsOutside (f a)) -> failsOutside (op_bind A B f m).
Proof.
  intros Hm Hf l e. unfold op_bind. specialize (Hm l). destruct (m l) as [l' [a|e']]; [apply Hf|].
  intros [= <-]. by apply Hm.
Qed.

Lemma fo_ret {A} (a : A) : failsOutside (op_ret A a).
Proof. by intros l e. Qed.
Lemma fo_gets {A} (f : Lane -> A) : failsOutside (gets f).
Proof. by intros l e. Qed.
Lemma fo_modify f : failsOutside (modify f).
Proof. by intros l e. Qed.
Lemma fo_throw {A} e : outsideCause e -> failsOutside (throw (A := A) e).
Proof. by intros He l e' [= <-]. Qed.

#[local] Hint Extern 1 (failsOutside _) =>
  first [apply fo_ret|apply fo_gets|apply fo_modify] : lane.

(** A call of a port that answers no. *)
Lemma fo_port {A} (m : Op A) : failsOutside m ->
  failsOutside (op_bind bool A (fun ok : bool => if ok then m else throw CursorStoreFailed) callPort).
Proof.
  intros Hm l e. unfold op_bind, callPort. destruct (succeeds (l_calls l)) eqn:Hs; [apply Hm|].
  intros [= <-]. by exists (l_calls l).
Qed.

Lemma fo_laneFor name : failsOutside (laneFor name).
Proof.
  apply fo_bind; [auto with lane|]. intros _. apply fo_bind; [auto with lane|]. intros [cursor|]; [auto with lane|].
  apply fo_bind; [auto with lane|]. intros a. apply fo_bind.
  { intros l e. unfold orThrow. destruct (protocolTopic _ _ _ _ _ _ _) eqn:Ht; [done|]. intros [= <-]. cbn. eauto. }
  intros topicID. apply fo_bind; [|intros stored; apply fo_bind; auto with lane].
  destruct hasCursorStore; [|auto with lane]. apply fo_port. auto with lane.
Qed.

Lemma fo_advanceCursor name : failsOutside (advanceCursor name).
Proof.
  apply fo_bind; [auto with lane|]. intros [cursor|]; [|auto with lane].
  apply fo_bind; [auto with lane|]. intros [passed others]. apply fo_bind; [auto with lane|]. intros _.
  destruct (last _); [|auto with lane]. case_bool_decide; [auto with lane|].
  apply fo_bind; [auto with lane|]. intros _. unfold saveCursor. destruct hasCursorStore; [|auto with lane].
  apply fo_port. auto with lane.
Qed.

Lemma fo_advanceAll names : failsOutside (advanceAll names).
Proof.
  induction names as [|name names IH]; [apply fo_ret|]. apply fo_bind; [apply fo_advanceCursor|]. by intros _.
Qed.

Section hub.
Context (hub : nat -> string -> TopicLog) (Hhub : hubServes hub) (N : nat)
        (HN : ∀ n topicID, length (tl_history (hub n topicID)) < N).

(** How much of a log a cursor is past. *)
Definition past (after : option string) (ms : list StoredMessage) : nat :=
  match after with None => 0 | Some a => length (filter (fun m => sm_sequenceID m ≤ₛ a) ms) end.

Lemma past_bound after ms : past after ms ≤ length ms.
Proof. destruct after; cbn; [apply length_filter|lia]. Qed.

Lemma past_mono after ms ms' : ms `prefix_of` ms' -> past after ms ≤ past after ms'.
Proof. intros [suffix ->]. destruct after; cbn; [|lia]. rewrite filter_app, length_app. lia. Qed.

Lemma live_page_forward after k L :
  tl_wf L -> assertForwardPage after (positions (take k (above after (tl_live L)))) = true.
Proof.
  intros (_ & Hlive & _)%wf_split. apply assertForwardPage_spec.
  assert (ascending (option_list after ++ positions (above after (tl_live L)))) as Ha.
  { destruct after as [a|]; [|done]. apply ascending_cons.
    - rewrite positions_above. by apply ascending_filter.
    - intros y (m & -> & [? _]%list_elem_of_filter)%elem_of_positions. done. }
  rewrite <- (take_drop k (above after _)), positions_app, app_assoc in Ha. by apply ascending_app in Ha as [? _].
Qed.

(** A page moves the cursor past every frame it holds. *)
Lemma page_progress after k L :
  tl_wf L -> let ms := take k (above after (tl_live L)) in
  past after (tl_history L) + length ms ≤ past (pageEnd after ms) (tl_history L).
Proof.
  intros Hwf ms. pose proof (live_page_forward after k L Hwf) as Hforward. apply assertForwardPage_spec in Hforward. fold ms in Hforward.
  destruct (decide (ms = [])) as [->|Hne]; [unfold pageEnd; cbn; lia|].
  assert (∃ e, last (map sm_sequenceID ms) = Some e) as [e He].
  { destruct (last (map sm_sequenceID ms)) eqn:Hl; [by eexists|]. apply last_None, map_eq_nil in Hl. done. }
  unfold pageEnd. rewrite He.
  apply ascending_app in Hforward as (_ & Hms & Hgt).
  assert (∀ m, m ∈ ms -> m ∈ tl_history L) as Hin.
  { intros m (i & Hi & _)%elem_of_take. apply list_elem_of_lookup_2 in Hi. rewrite tl_split.
    unfold above in Hi. destruct after; [apply list_elem_of_filter in Hi as [_ Hi]|]; set_solver. }
  assert (∀ m, m ∈ ms -> sm_sequenceID m ≤ₛ e) as Hle.
  { intros m Hm. eapply ascending_last; [exact Hms|exact He|]. apply elem_of_positions. eauto. }
  assert (NoDup (tl_history L)) as Hnd.
  { destruct Hwf as [Ha _ _]. apply ascending_NoDup in Ha. by apply NoDup_fmap_1 in Ha. }
  assert (NoDup ms) as Hndms by (apply ascending_NoDup in Hms; by apply NoDup_fmap_1 in Hms).
  cbn [past]. destruct after as [a|]; cbn [past].
  - rewrite <- length_app. apply submseteq_length, NoDup_submseteq.
    + apply NoDup_app. split; [by apply NoDup_filter|]. split; [|done].
      intros m [Hma _]%list_elem_of_filter Hm. apply (slt_irrefl a). eapply slt_sle_trans; [|exact Hma].
      apply Hgt; [cbn; set_solver|]. apply elem_of_positions. eauto.
    + intros m [[Hma Hm]%list_elem_of_filter|Hm]%elem_of_app; apply list_elem_of_filter.
      * split; [|done]. etrans; [exact Hma|]. apply slt_sle, Hgt; [cbn; set_solver|by apply last_positions_elem].
      * split; [by apply Hle|by apply Hin].
  - apply submseteq_length, NoDup_submseteq; [done|]. intros m Hm. apply list_elem_of_filter.
    split; [by apply Hle|by apply Hin].
Qed.

Lemma calls_afterPage name topicID after result l : l_calls (afterPage name topicID after result l) = S (l_calls l).
Proof.
  unfold afterPage, setFetched, bufferPage. set (l1 := match after with Some _ => _ | None => _ end).
  assert (l_calls l1 = S (l_calls l)) as Hl1.
  { unfold l1. destruct after; [|done]. destruct (fr_gap result); [|done].
    unfold reportPrunedWindow. destruct (_ || _); [done|]. by case_bool_decide. }
  by destruct (jm_get _ _).
Qed.

Lemma fo_loadPages fuel name topicID after l e :
  N ≤ past after (tl_history (hub (l_calls l) topicID)) + APP_FETCH_LIMIT * fuel ->
  (loadPages fuel name topicID after l).2 = Err e -> outsideCause e.
Proof.
  revert after l. induction fuel as [|fuel IH]; intros after l Hfuel.
  - pose proof (past_bound after (tl_history (hub (l_calls l) topicID))). specialize (HN (l_calls l) topicID). lia.
  - rewrite loadPages_S. destruct (fetchTopic _ _ _ _) as [result|] eqn:Hfetch.
    2: { intros [= <-]. cbn. eauto. }
    apply (hub_page _ Hhub) in Hfetch as Hres. subst result. cbn [tl_fetch fr_messages page] in *.
    pose proof (hub_wf _ Hhub (l_calls l) topicID) as Hwf.
    pose proof (live_page_forward after APP_FETCH_LIMIT _ Hwf) as Hforward. unfold positions in Hforward.
    rewrite Hforward. cbn [negb].
    pose proof (page_progress after APP_FETCH_LIMIT _ Hwf) as Hprogress. cbn zeta in Hprogress.
    set (ms := take APP_FETCH_LIMIT (above after (tl_live (hub (l_calls l) topicID)))) in *.
    destruct (Nat.ltb_spec (length ms) APP_FETCH_LIMIT) as [|Hlen]; [done|]. apply IH. rewrite calls_afterPage.
    assert (past (pageEnd after ms) (tl_history (hub (l_calls l) topicID)) ≤
            past (pageEnd after ms) (tl_history (hub (S (l_calls l)) topicID))) as Hgrow.
    { apply past_mono, tl_steps_history. apply (hub_grows _ Hhub). lia. }
    lia.
Qed.

Context (Hfuel : N ≤ APP_FETCH_LIMIT * le_fuel).

Lemma fo_loadAll names failure :
  (∀ e, failure = Some e -> outsideCause e) -> failsOutside (loadAll names failure).
Proof.
  revert failure. induction names as [|name names IH]; intros failure Hf l e.
  { cbn. destruct failure; [intros [= <-]; by apply Hf|done]. }
  cbn [loadAll]. destruct (loadOne name l) as [l' r] eqn:Hone. apply IH. intros e' He'.
  destruct failure as [e0|]; [injection He' as <-; by apply Hf|]. destruct r as [|e1]; [done|]. injection He' as ->.
  assert (failsOutside (loadOne name)) as Hfo; [|by apply (Hfo l); rewrite Hone].
  unfold loadOne. apply fo_bind; [apply fo_laneFor|]. intros cursor. apply fo_bind; [auto with lane|]. intros _.
  apply fo_bind; [auto with lane|]. intros _ l1 e1. apply fo_loadPages. lia.
Qed.

Lemma fo_handOver name payload sender :
  durable = false -> failsOutside (handOver name payload sender).
Proof.
  intros Hd l e. unfold handOver. destruct (negb _); [done|]. case_bool_decide; [done|].
  destruct (parseMessage payload) as [| |[typ|] [p|] d] eqn:Hp; try done.
  - intros [= <-]. split; [done|]. eauto.
  - by destruct (_ && _).
Qed.

Lemma fo_drainFrame name topicID position sealed l l' r :
  drainFrame name topicID position sealed l = (l', r) ->
  ∃ answer, r = Ok answer ∧ ∀ e, answer.2 = Some e -> outsideCause e.
Proof.
  unfold drainFrame, mbind, op_bind, gets, modify, mret, op_ret. cbn beta iota.
  case_bool_decide; [intros [= _ <-]; by eexists|]. destruct (durable && _); [intros [= _ <-]; by eexists|].
  destruct (openFrame _ _ _ _ l) as [l1 [[payload sender|ahead| |]|e]] eqn:Hopen.
  - destruct durable eqn:Hd; [intros [= _ <-]; by eexists|]. unfold failureOf.
    pose proof (fo_handOver name payload sender Hd (resumeBlocked topicID position l1)) as Hhand.
    destruct (handOver _ _ _ _) as [l2 [a|e]]; intros [= _ <-]; eexists; (split; [done|]); [done|].
    intros e' [= <-]. by apply Hhand.
  - destruct durable; intros [= _ <-]; by eexists.
  - destruct durable eqn:Hd; intros [= _ <-]; eexists; (split; [done|]); [|done]. by intros e [= <-].
  - intros [= _ <-]; by eexists.
  - exfalso. revert Hopen. unfold openFrame. destruct (encodeAppAAD _ _ _); [|done]. by destruct (unwrap _ _ _ _).
Qed.

Lemma fo_drainFrames name topicID todo : ∀ before, failsOutside (drainFrames name topicID before todo).
Proof.
  induction todo as [|f rest IH]; intros before; [apply fo_ret|]. cbn [drainFrames].
  destruct (af_sealed f) as [sealed|id|]; [|apply IH..]. intros l e. unfold mbind, op_bind, modify.
  destruct (drainFrame name topicID (af_position f) sealed l) as [l' r] eqn:Hd.
  apply fo_drainFrame in Hd as ([sealed' error] & -> & He). cbn [fst snd] in *.
  destruct error as [e'|]; [intros [= <-]; by apply He|apply IH].
Qed.

Lemma fo_drain : failsOutside drain.
Proof.
  assert (∀ names, failsOutside (drainAll names)) as Hall.
  { induction names as [|name names IH]; [apply fo_ret|]. cbn [drainAll]. apply fo_bind; [|by intros _].
    apply fo_bind; [auto with lane|]. intros cursor. apply fo_bind; [auto with lane|]. intros frames.
    destruct cursor; [|auto with lane]. destruct (_ || _); [auto with lane|].
    apply fo_bind; [apply fo_drainFrames|]. intros _. apply fo_advanceCursor. }
  apply fo_bind; [by apply fo_loadAll|]. intros _. apply fo_bind; [auto with lane|]. intros names. apply Hall.
Qed.

Lemma fo_syncTask : failsOutside syncTask.
Proof.
  apply fo_bind; [auto with lane|]. intros _. apply fo_bind; [by apply fo_loadAll|]. intros _.
  apply fo_bind; [auto with lane|]. intros names. apply fo_advanceAll.
Qed.

Lemma fo_runAppLane {A} (m : Op A) : failsOutside m -> failsOutside (runAppLane m).
Proof.
  intros Hm l e. unfold runAppLane. specialize (Hm (setNotices (Some []) l) e). by destruct (m _).
Qed.
End hub.

(** ** Workers finish *)

(** The records completed so far, in order. *)
Definition completions (trace : list (LaneCall (D := D))) : list AppFrameRef :=
  omap (fun call => match call with Completed frame => Some frame | _ => None end) trace.

Lemma completions_snoc trace call :
  (∀ frame, call ≠ Completed frame) -> completions (trace ++ [call]) = completions trace.
Proof.
  intros Hcall. unfold completions. rewrite omap_app. destruct call; cbn; rewrite ?app_nil_r; try done.
  by destruct (Hcall frame).
Qed.

(** No record was completed, and the lane is as alive as it was. *)
Record silent l l' : Prop := {
  silent_completions : completions (l_trace l') = completions (l_trace l);
  silent_trace : l_trace l `prefix_of` l_trace l';
  silent_disposed : l_disposed l' = l_disposed l;
  silent_workers : l_workers l' = l_workers l;
}.

#[local] Instance silent_preorder : PreOrder silent.
Proof. split; [by split|]. intros l1 l2 l3 [] []. split; try congruence. by etrans. Qed.

Lemma silent_record call l : (∀ frame, call ≠ Completed frame) -> silent l (record call l).
Proof. intros Hcall. split; try done; cbn; [by apply completions_snoc|by apply prefix_app_r]. Qed.

Lemma silent_notices ns l : silent l (foldl (fun l n => showNotice n l) l ns).
Proof.
  revert l. induction ns as [|n ns IH]; intros l; [done|]. etrans; [|apply IH].
  unfold showNotice. destruct (l_disposed l); [done|]. by apply silent_record.
Qed.

Lemma silent_notifyAppHost n l : silent l (notifyAppHost n l).
Proof.
  unfold notifyAppHost. destruct (negb _); [done|]. destruct (l_notices l); [by split|]. apply (silent_notices [n]).
Qed.

Lemma silent_resumeBlocked topicID position l : silent l (resumeBlocked topicID position l).
Proof.
  unfold resumeBlocked. destruct (jm_get _ _); [|done]. destruct (l_disposed l); [done|].
  etrans; [|apply silent_notifyAppHost]. by split.
Qed.

Lemma silent_resumeUnknown r l : silent l (resumeUnknown r l).
Proof.
  unfold resumeUnknown. destruct (jm_get _ _); [|done]. destruct (l_disposed l); [done|].
  etrans; [|apply silent_notifyAppHost]. by split.
Qed.

(** One protocol's buffer loses frames or has them marked done, and its topic stays. *)
Record unblocks (name : string) l l' : Prop := {
  unblocks_frames : ∀ f, f ∈ framesOf name l' -> isSealed f = true -> f ∈ framesOf name l;
  unblocks_topic : ac_topicID <$> jm_get name (l_cursors l') = ac_topicID <$> jm_get name (l_cursors l);
}.

#[local] Instance unblocks_preorder name : PreOrder (unblocks name).
Proof. split; [by split|]. intros l1 l2 l3 [] []. split; [by auto|congruence]. Qed.

Lemma unblocks_blocked name r l l' :
  unblocks name l l' -> fr_protocol (pf_frame r) = name ->
  blockedByEarlierSealed r l = false -> blockedByEarlierSealed r l' = false.
Proof.
  intros [Hf Ht] Hr. unfold blockedByEarlierSealed. rewrite Hr.
  destruct (jm_get name (l_cursors l')) as [c'|], (jm_get name (l_cursors l)) as [c|]; try done.
  cbn in Ht. injection Ht as Ht. rewrite Ht. case_bool_decide; [|done]. cbn [andb].
  intros Hb. apply not_true_is_false. intros (f & Hin & Hlt)%existsb_exists.
  apply andb_true_iff in Hlt as [Hlt Hs]. apply list_elem_of_In in Hin.
  assert (existsb (fun f => bool_decide (af_position f <ₛ fr_position (pf_frame r)) && isSealed f) (framesOf name l) = true);
    [|congruence].
  apply existsb_exists. exists f. split; [apply list_elem_of_In; by apply Hf|]. by rewrite Hlt, Hs.
Qed.

Lemma unblocks_same name l l' : (framesOf name l' = framesOf name l) -> l_cursors l' = l_cursors l -> unblocks name l l'.
Proof. intros Hf Hc. split; [by rewrite Hf|by rewrite Hc]. Qed.

Lemma unblocks_calm name l l' : calm l l' -> unblocks name l l'.
Proof. intros [Hf Hc _ _ _ _]. by apply unblocks_same. Qed.

Section worker.
Context (name : string) (Hdurable : durable = true) (Hname : jm_has name protocols = true)
        (Hsucceeds : ∀ n, succeeds n = true).

Lemma advanceCursor_effect l :
  ∃ l', advanceCursor name l = (l', Ok tt) ∧ silent l l' ∧ unblocks name l l' ∧
        l_pendingRecords l' = l_pendingRecords l.
Proof.
  unfold advanceCursor, mbind, op_bind, gets, modify. cbn beta iota.
  destruct (jm_get name (l_cursors l)) as [cursor|] eqn:Hcur; [|by eexists].
  destruct (splitDone_spec (framesOf name l)) as [Hsplit _].
  destruct (splitDone (framesOf name l)) as [passed others]. cbn [fst snd] in *.
  set (l1 := setFrames name others l).
  assert (silent l l1) as Hs1 by by split.
  assert (unblocks name l l1) as Hu1.
  { split; [|done]. intros f. unfold l1. rewrite framesOf_setFrames, decide_True by done. rewrite Hsplit. set_solver. }
  destruct (last passed) as [f|]; [|by exists l1].
  case_bool_decide; [by exists l1|].
  set (cursor' := mkAppCursor _ _ _). set (l2 := setCursor name cursor' l1).
  assert (silent l l2) as Hs2 by (etrans; [exact Hs1|by split]).
  assert (unblocks name l l2) as Hu2.
  { split; [apply Hu1|]. cbn. rewrite jm_get_set, decide_True by done. by rewrite Hcur. }
  unfold saveCursor. destruct hasCursorStore; cbn [negb]; [|by exists l2].
  unfold mbind, op_bind, callPort, modify. rewrite Hsucceeds. cbn beta iota. eexists. split; [done|]. split_and!; [| |done].
  - etrans; [exact Hs2|]. etrans; [|by apply silent_record]. by split.
  - etrans; [exact Hu2|]. by apply unblocks_same.
Qed.

(** Finishing a record removes it and nothing else of the queue. *)
Lemma finishTask_effect r l :
  fr_protocol (pf_frame r) = name ->
  ∃ l', runAppLane (finishTask r) l = (l', Ok tt) ∧ silent l l' ∧ unblocks name l l' ∧
        l_pendingRecords l' = removeRecord (fr_id (pf_frame r)) (l_pendingRecords l).
Proof.
  intros Hr. unfold runAppLane.
  assert (∃ l', finishTask r (setNotices (Some []) l) = (l', Ok tt) ∧ silent l l' ∧ unblocks name l l' ∧
          l_pendingRecords l' = removeRecord (fr_id (pf_frame r)) (l_pendingRecords l)) as (l' & -> & Hs & Hu & Hp).
  { unfold finishTask, mbind, op_bind, gets, modify. cbn beta iota. rewrite Hr.
    set (l0 := setPendingRecords _ _). set (l1 := resumeUnknown r _).
    assert (silent l l1) as Hs1.
    { unfold l1. etrans; [|apply silent_resumeUnknown]. etrans; [|apply silent_resumeBlocked]. by split. }
    assert (quiet l0 l1) as [Hc1 Hp1 _].
    { unfold l1. etrans; [|apply quiet_resumeUnknown]. apply quiet_resumeBlocked. }
    assert (unblocks name l l1) as Hu1 by (etrans; [|by apply unblocks_calm]; by apply unblocks_same).
    assert (l_pendingRecords l1 = removeRecord (fr_id (pf_frame r)) (l_pendingRecords l)) as Hpend by done.
    clearbody l1. destruct (jm_get name (l_cursors l1)) as [cursor|]; [|by exists l1].
    destruct (jm_get name (l_segment l1)) as [frames|] eqn:Hseg; [|by exists l1].
    case_bool_decide; [|by exists l1]. cbn beta iota.
    set (l2 := setFrames name _ l1).
    destruct (advanceCursor_effect l2) as (l' & Hadv & Hs2 & Hu2 & Hp2).
    exists l'. split; [done|]. split_and!.
    - etrans; [exact Hs1|]. etrans; [|exact Hs2]. by split.
    - etrans; [exact Hu1|]. etrans; [|exact Hu2]. split; [|done]. intros f. unfold l2.
      rewrite framesOf_setFrames, decide_True by done. unfold framesOf at 1. rewrite Hseg. cbn [default].
      intros Hf Hsealed. destruct (updateFrame_spec (fr_position (pf_frame r))
        (fun g => match af_sealed g with
                  | PendingID id => if decide (id = fr_id (pf_frame r)) then mkAppFrame (af_position g) Done else g
                  | _ => g end) frames) as [Heq|(before & g & rest & -> & _ & Heq)]; rewrite Heq in Hf; [done|].
      apply elem_of_app in Hf as [Hf|[->|Hf]%elem_of_cons]; [unfold id; set_solver| |unfold id; set_solver].
      assert (isSealed g = true -> g ∈ before ++ g :: rest) as Hg by set_solver.
      unfold isSealed in *. destruct (af_sealed g) eqn:Hgs; [unfold id; set_solver| |unfold id; set_solver].
      case_decide; cbn in Hsealed; [done|]. by rewrite Hgs in Hsealed.
    - by rewrite Hp2. }
  eexists. split; [done|]. set (ns := default [] _). pose proof (silent_notices ns l') as Hns.
  pose proof (quiet_foldl (fun l n => showNotice n l) ns l' (fun l n => quiet_showNotice n l)) as [Hc2 Hp2 _].
  split_and!.
  - etrans; [exact Hs|]. etrans; [exact Hns|]. by split.
  - etrans; [exact Hu|]. etrans; [by apply unblocks_calm|]. by apply unblocks_same.
  - cbn. by rewrite Hp2.
Qed.

(** One record to an identity and to a place, none of them behind a sealed frame. *)
Record queueOk l : Prop := {
  queue_nodup : NoDup (l_pendingRecords l);
  queue_ids : ∀ r r', r ∈ l_pendingRecords l -> r' ∈ l_pendingRecords l ->
    fr_id (pf_frame r) = fr_id (pf_frame r') -> r = r';
  queue_places : ∀ r r', r ∈ orderedRecords name l -> r' ∈ orderedRecords name l ->
    recordOrder r r' -> recordOrder r' r -> r = r';
  queue_unblocked : ∀ r, r ∈ orderedRecords name l -> blockedByEarlierSealed r l = false;
}.

Lemma removeRecord_filter id records :
  NoDup records -> (∀ r r', r ∈ records -> r' ∈ records -> fr_id (pf_frame r) = fr_id (pf_frame r') -> r = r') ->
  removeRecord id records = filter (fun r => fr_id (pf_frame r) ≠ id) records.
Proof.
  induction 1 as [|r records Hr Hnd IH]; intros Hids; [done|]. cbn [removeRecord]. case_decide as Hid.
  - rewrite filter_cons_False by naive_solver. rewrite filter_all; [done|].
    intros x Hx Hxid. apply Hr. rewrite (Hids r x); [done|set_solver|set_solver|congruence].
  - rewrite filter_cons_True by done. rewrite IH; [done|]. intros. apply Hids; set_solver.
Qed.

#[local] Instance recordOrder_trans : Transitive recordOrder.
Proof.
  intros a b c [H1|[H1 H1']] [H2|[H2 H2']]; unfold recordOrder; [left; lia..|].
  right. split; [lia|]. by etrans.
Qed.

#[local] Instance recordOrder_total : Total recordOrder.
Proof.
  intros a b. unfold recordOrder.
  destruct (Z.lt_trichotomy (fr_segment (pf_frame a)) (fr_segment (pf_frame b))) as [|[|]]; [by left; left| |by right; left].
  destruct (decide (fr_position (pf_frame a) ≤ₛ fr_position (pf_frame b))) as [|Hn]; [by left; right|].
  right; right. split; [by symmetry|]. apply slt_sle, slt_alt. exact Hn.
Qed.

Lemma orderedRecords_sorted l : StronglySorted recordOrder (orderedRecords name l).
Proof. apply Sorted_StronglySorted; [apply _|]. apply Sorted_merge_sort, _. Qed.

(** Taking the first record out of the queue leaves the others in their order. *)
Lemma orderedRecords_tail l l' r rest :
  queueOk l -> orderedRecords name l = r :: rest ->
  l_pendingRecords l' = removeRecord (fr_id (pf_frame r)) (l_pendingRecords l) ->
  orderedRecords name l' = rest.
Proof.
  intros [Hnd Hids Hplaces _] Hord Hpend.
  assert (∀ x, x ∈ orderedRecords name l -> x ∈ l_pendingRecords l ∧ fr_protocol (pf_frame x) = name) as Hin.
  { intros x. unfold orderedRecords. rewrite merge_sort_Permutation. intros [? ?]%list_elem_of_filter. done. }
  assert (orderedRecords name l' ≡ₚ rest) as Hperm.
  { unfold orderedRecords. rewrite merge_sort_Permutation, Hpend, removeRecord_filter by done.
    apply (Permutation_cons_inv (a := r)). rewrite <- Hord. unfold orderedRecords.
    rewrite merge_sort_Permutation, filter_comm.
    set (mine := filter (fun r => fr_protocol (pf_frame r) = name) (l_pendingRecords l)).
    assert (r ∈ l_pendingRecords l ∧ fr_protocol (pf_frame r) = name) as [Hr Hrn] by (apply Hin; rewrite Hord; set_solver).
    assert (NoDup mine) as Hndm by by apply NoDup_filter.
    assert (r ∈ mine) as Hrm by by apply list_elem_of_filter.
    apply NoDup_Permutation; [|done|].
    - apply NoDup_cons. split; [|by apply NoDup_filter]. by intros [? _]%list_elem_of_filter.
    - intros x. rewrite elem_of_cons, list_elem_of_filter. split; [intros [->|[_ ?]]; done|].
      intros Hx. destruct (decide (fr_id (pf_frame x) = fr_id (pf_frame r))) as [Heq|]; [left|by right].
      apply Hids; [|done|done]. by apply list_elem_of_filter in Hx as [_ ?]. }
  pose proof (orderedRecords_sorted l) as Hsorted. rewrite Hord in Hsorted.
  apply StronglySorted_inv in Hsorted as [Hsorted _].
  eapply StronglySorted_unique_strong; [|apply orderedRecords_sorted|exact Hsorted|exact Hperm].
  intros x y Hx Hy. rewrite Hperm in Hx. apply Hplaces; rewrite Hord; set_solver.
Qed.

Lemma queueOk_after l l' r rest :
  queueOk l -> orderedRecords name l = r :: rest -> unblocks name l l' ->
  l_pendingRecords l' = removeRecord (fr_id (pf_frame r)) (l_pendingRecords l) -> queueOk l'.
Proof.
  intros Hq Hord Hu Hpend. pose proof (orderedRecords_tail l l' r rest Hq Hord Hpend) as Htail.
  destruct Hq as [Hnd Hids Hplaces Hun]. rewrite removeRecord_filter in Hpend by done. split.
  - rewrite Hpend. by apply NoDup_filter.
  - rewrite Hpend. intros x y [_ Hx]%list_elem_of_filter [_ Hy]%list_elem_of_filter. by apply Hids.
  - rewrite Htail. intros x y Hx Hy. apply Hplaces; rewrite Hord; set_solver.
  - rewrite Htail. intros x Hx. eapply unblocks_blocked; [exact Hu| |apply Hun; rewrite Hord; set_solver].
    assert (x ∈ orderedRecords name l) as Hx' by (rewrite Hord; set_solver). revert Hx'.
    unfold orderedRecords. rewrite merge_sort_Permutation. by intros [? _]%list_elem_of_filter.
Qed.

(** A turn of the worker that leaves queue and buffer as they were. *)
Record ongoing l l' (pc : WorkerPc) : Prop := {
  on_pending : l_pendingRecords l' = l_pendingRecords l;
  on_unblocks : unblocks name l l';
  on_disposed : l_disposed l' = l_disposed l;
  on_worker : ∃ w, jm_get name (l_workers l') = Some w ∧ wk_pc w = pc;
}.

Lemma ongoing_trans l1 l2 l3 pc pc' : ongoing l1 l2 pc -> ongoing l2 l3 pc' -> ongoing l1 l3 pc'.
Proof. intros [P1 U1 D1 _] [P2 U2 D2 W2]. split; [congruence|by etrans|congruence|done]. Qed.

Lemma ongoing_setPc pc l l' :
  l_pendingRecords l' = l_pendingRecords l -> (∀ n, framesOf n l' = framesOf n l) -> l_cursors l' = l_cursors l ->
  l_disposed l' = l_disposed l -> ongoing l (onWorker name (withPc pc) l') pc.
Proof.
  intros Hp Hf Hc Hd. split; [done| |done|].
  - apply unblocks_same; [exact (Hf name)|done].
  - cbn. rewrite jm_get_set, decide_True by done. by eexists.
Qed.

Lemma leaveLoop_idle l : (∃ w, jm_get name (l_workers (leaveLoop false name l)) = Some w ∧ wk_pc w = WorkerIdle) ∧
  l_trace (leaveLoop false name l) = l_trace l ∧ l_pendingRecords (leaveLoop false name l) = l_pendingRecords l.
Proof.
  unfold leaveLoop, scheduleWorker. rewrite Hdurable, orb_false_r.
  set (w := default newWorker _).
  destruct (wk_retryNow w); [|destruct (wk_requested w)]; cbn;
    destruct (l_disposed l); cbn; (split; [|done]); rewrite ?jm_get_set, ?decide_True by done; cbn; by eexists.
Qed.

(** From the head of a record's turn to the record completed and gone: handed over, then completed. *)
Lemma record_turns r rest l w :
  queueOk l -> orderedRecords name l = r :: rest -> l_disposed l = false -> jm_get name (l_workers l) = Some w ->
  ∃ k l', k ≤ 4 ∧ Nat.iter k (workerTurn name) (nextRecord name l) = nextRecord name l' ∧
    l_pendingRecords l' = removeRecord (fr_id (pf_frame r)) (l_pendingRecords l) ∧
    unblocks name l l' ∧ l_disposed l' = false ∧ (∃ w', jm_get name (l_workers l') = Some w') ∧
    l_trace l `prefix_of` l_trace l' ∧ handedOver (l_trace l') r ∧
    completions (l_trace l') = completions (l_trace l) ++ [pf_frame r].
Proof.
  intros Hq Hord Hd Hw.
  assert (fr_protocol (pf_frame r) = name) as Hr.
  { assert (r ∈ orderedRecords name l) as Hin by (rewrite Hord; set_solver). revert Hin.
    unfold orderedRecords. rewrite merge_sort_Permutation. by intros [? _]%list_elem_of_filter. }
  assert (nextRecord name l = onWorker name (withPc (WorkerBlockedCheck r)) l) as Hnext.
  { unfold nextRecord. rewrite Hd, Hord. cbn [head]. by rewrite Hr, Hname. }
  set (l1 := onWorker name (withPc (WorkerBlockedCheck r)) l) in *.
  assert (ongoing l l1 (WorkerBlockedCheck r)) as Ho1 by by apply ongoing_setPc.
  (* to the await of [complete] *)
  assert (∃ k l2, k ≤ 2 ∧ Nat.iter k (workerTurn name) l1 = l2 ∧ ongoing l l2 (WorkerCompleting r) ∧
    l_trace l `prefix_of` l_trace l2 ∧ handedOver (l_trace l2) r ∧
    completions (l_trace l2) = completions (l_trace l)) as (k & l2 & Hk & Hiter & Ho2 & Ht2 & Hh2 & Hc2).
  { assert (workerTurn name l1 = match deliverable r with
      | Some (prc, data) => onWorker name (withPc (WorkerEmitting r))
          (record (Emitted (fr_protocol (pf_frame r)) prc data (normalizeDID (pf_senderDID r)) (Some (pf_frame r))) l1)
      | None => onWorker name (withPc (WorkerCompleting r)) l1 end) as Hturn.
    { destruct (on_worker _ _ _ Ho1) as (w1 & Hw1 & Hpc1). unfold workerTurn. rewrite Hw1. cbn [default]. unfold id. rewrite Hpc1.
      rewrite (on_disposed _ _ _ Ho1), Hd, orb_false_r.
      rewrite (unblocks_blocked name r l l1); [done|apply Ho1|done|]. apply Hq. rewrite Hord. set_solver. }
    destruct (deliverable r) as [[prc data]|] eqn:Hdel.
    - set (l2 := onWorker _ _ _) in Hturn.
      assert (ongoing l l2 (WorkerEmitting r)) as Ho2 by by apply ongoing_setPc.
      assert (workerTurn name l2 = onWorker name (withPc (WorkerCompleting r)) (setCalls (S (l_calls l2)) l2)) as Hturn2.
      { destruct (on_worker _ _ _ Ho2) as (w2 & Hw2 & Hpc2). unfold workerTurn. rewrite Hw2. cbn [default]. unfold id. rewrite Hpc2.
        unfold callPort. rewrite Hsucceeds. pose proof (on_disposed _ _ _ Ho2) as Hd2. rewrite Hd in Hd2.
        cbn [l_disposed setCalls]. by rewrite Hd2. }
      exists 2, (workerTurn name (workerTurn name l1)). split; [done|]. split; [done|]. rewrite Hturn, Hturn2. split_and!.
      + eapply ongoing_trans; [exact Ho2|]. by apply ongoing_setPc.
      + by apply prefix_app_r.
      + intros prc' data' Hdel'. rewrite Hdel in Hdel'. injection Hdel' as <- <-. cbn. set_solver.
      + cbn. by apply completions_snoc.
    - exists 1, (workerTurn name l1). split; [lia|]. split; [done|]. rewrite Hturn. split_and!; [|done| |done].
      + eapply ongoing_trans; [exact Ho1|]. by apply ongoing_setPc.
      + intros prc data. congruence. }
  (* [complete] settles *)
  set (l3 := onWorker name (withPc (WorkerFinishing r)) (record (Completed (pf_frame r)) (setCalls (S (l_calls l2)) l2))).
  assert (workerTurn name l2 = l3) as Hturn3.
  { destruct (on_worker _ _ _ Ho2) as (w2 & Hw2 & Hpc2). unfold workerTurn. rewrite Hw2. cbn [default]. unfold id. rewrite Hpc2.
    unfold callPort. rewrite Hsucceeds. pose proof (on_disposed _ _ _ Ho2) as Hd2. rewrite Hd in Hd2.
    cbn [l_disposed setCalls record setTrace]. by rewrite Hd2. }
  assert (ongoing l l3 (WorkerFinishing r)) as Ho3 by (eapply ongoing_trans; [exact Ho2|by apply ongoing_setPc]).
  destruct (finishTask_effect r l3 Hr) as (l4 & Hfin & Hs4 & Hu4 & Hp4).
  assert (workerTurn name l3 = nextRecord name (onWorker name (withBackoff 1000) l4)) as Hturn4.
  { destruct (on_worker _ _ _ Ho3) as (w3 & Hw3 & Hpc3). unfold workerTurn. rewrite Hw3. cbn [default]. unfold id. rewrite Hpc3.
    by rewrite Hfin. }
  exists (S (S k)), (onWorker name (withBackoff 1000) l4). split; [lia|].
  assert (l_trace l `prefix_of` l_trace l3) as Ht3 by (etrans; [exact Ht2|by eexists]). split_and!.
  - cbn [Nat.iter nat_rect]. rewrite Hnext. unfold Nat.iter in Hiter. rewrite Hiter, Hturn3. exact Hturn4.
  - cbn. rewrite Hp4. by rewrite (on_pending _ _ _ Ho3).
  - etrans; [apply Ho3|]. etrans; [exact Hu4|]. by apply unblocks_same.
  - cbn. rewrite (silent_disposed _ _ Hs4), (on_disposed _ _ _ Ho3). done.
  - cbn. rewrite jm_get_set, decide_True by done. by eexists.
  - cbn. etrans; [exact Ht3|apply Hs4].
  - cbn. eapply handedOver_mono; [apply Hs4|]. eapply handedOver_mono; [|exact Hh2]. by eexists.
  - change (completions (l_trace l4) = completions (l_trace l) ++ [pf_frame r]).
    rewrite (silent_completions _ _ Hs4), <- Hc2.
    change (completions (l_trace l2 ++ [Completed (pf_frame r)]) = completions (l_trace l2) ++ [pf_frame r]).
    unfold completions. by rewrite omap_app.
Qed.

Lemma worker_drains_from n : ∀ l w,
  length (orderedRecords name l) = n -> queueOk l -> l_disposed l = false -> jm_get name (l_workers l) = Some w ->
  ∃ k, k ≤ 4 * n ∧ let l' := Nat.iter k (workerTurn name) (nextRecord name l) in
    orderedRecords name l' = [] ∧ (∃ w', jm_get name (l_workers l') = Some w' ∧ wk_pc w' = WorkerIdle) ∧
    completions (l_trace l') = completions (l_trace l) ++ map pf_frame (orderedRecords name l) ∧
    l_trace l `prefix_of` l_trace l' ∧ ∀ r, r ∈ orderedRecords name l -> handedOver (l_trace l') r.
Proof.
  induction n as [|n IH]; intros l w Hn Hq Hd Hw.
  - apply length_zero_iff_nil in Hn. exists 0. split; [done|]. cbn [Nat.iter nat_rect].
    destruct (leaveLoop_idle l) as (Hidle & Ht & Hp).
    unfold nextRecord. rewrite Hd, Hn. cbn [head]. unfold orderedRecords in *. rewrite Hp, Ht, app_nil_r.
    split_and!; [done..|]. set_solver.
  - destruct (orderedRecords name l) as [|r rest] eqn:Hord; [done|]. injection Hn as Hn.
    destruct (record_turns r rest l w Hq Hord Hd Hw) as (k & l' & Hk & Hiter & Hp & Hu & Hd' & (w' & Hw') & Ht & Hh & Hc).
    pose proof (orderedRecords_tail l l' r rest Hq Hord Hp) as Htail.
    destruct (IH l' w') as (k' & Hk' & H1 & H2 & H3 & H4 & H5); [by rewrite Htail|by eapply queueOk_after|done..|].
    exists (k' + k). split; [lia|]. rewrite Nat.iter_add, Hiter. cbn zeta. split_and!; [done..| | |].
    + rewrite H3, Hc, Htail, <- app_assoc. done.
    + by etrans.
    + intros x [->|Hx]%elem_of_cons; [by eapply handedOver_mono|]. apply H5. by rewrite Htail.
Qed.
End worker.
End live.


(** ** Arrival order *)

(** What the buffer holds at a position. *)
Fixpoint sealedAt (p : string) (frames : list AppFrame) : option Sealed :=
  match frames with
  | [] => None
  | f :: rest => if decide (af_position f = p) then Some (af_sealed f) else sealedAt p rest
  end.

Lemma sealedAt_snoc p frames x :
  sealedAt p (frames ++ [x]) =
  match sealedAt p frames with
  | Some s => Some s
  | None => if decide (af_position x = p) then Some (af_sealed x) else None
  end.
Proof.
  induction frames as [|f frames IH]; [done|]. cbn [app sealedAt].
  destruct (decide (af_position f = p)); [done|exact IH].
Qed.

Lemma sealedAt_None p frames : sealedAt p frames = None <-> p ∉ framePositions frames.
Proof.
  induction frames as [|f frames IH]; cbn; [set_solver|]. rewrite not_elem_of_cons. case_decide; naive_solver.
Qed.

Lemma sealedAt_take p frames g d :
  ascending (framePositions frames) ->
  sealedAt p (takeAppFrame frames g d) =
  if decide (p = af_position g)
  then Some (match sealedAt p frames with Some s => reconcile d s (af_sealed g) | None => af_sealed g end)
  else sealedAt p frames.
Proof.
  induction frames as [|x frames IH] using rev_ind; intros Ha.
  { cbn. repeat case_decide; congruence. }
  rewrite map_app in Ha. apply ascending_app in Ha as (Ha & _ & Hlt). cbn [map] in Hlt.
  assert (sealedAt (af_position x) frames = None) as Hx.
  { apply sealedAt_None. intros Hin. apply (slt_irrefl (af_position x)). apply Hlt; set_solver. }
  rewrite takeAppFrame_snoc, sealedAt_snoc. destruct (decide (af_position g <ₛ af_position x)) as [Hgx|Hgx].
  - rewrite sealedAt_snoc, IH by done. destruct (decide (p = af_position g)) as [->|]; [|done].
    destruct (sealedAt (af_position g) frames); [done|]. rewrite decide_False; [done|].
    intros Heq. rewrite Heq in Hgx. by apply slt_irrefl in Hgx.
  - destruct (decide (af_position x = af_position g)) as [Heq|Hne].
    + rewrite sealedAt_snoc. cbn [af_position af_sealed]. destruct (decide (p = af_position g)) as [->|Hp].
      * rewrite <- Heq, Hx, !decide_True by done. done.
      * destruct (sealedAt p frames); [done|]. rewrite !decide_False by congruence. done.
    + assert (sealedAt (af_position g) frames = None) as Hg.
      { apply sealedAt_None. intros Hin. apply Hgx. apply Hlt; [exact Hin|set_solver]. }
      rewrite (app_assoc _ [x] [g] : frames ++ [x; g] = _), !sealedAt_snoc.
      destruct (decide (p = af_position g)) as [->|Hp].
      * rewrite Hg, decide_False, decide_True by done. done.
      * destruct (sealedAt p frames); [done|]. case_decide; [done|]. by rewrite decide_False by congruence.
Qed.

Lemma sealedAt_ext fs gs :
  ascending (framePositions fs) -> ascending (framePositions gs) -> (∀ p, sealedAt p fs = sealedAt p gs) -> fs = gs.
Proof.
  revert gs. induction fs as [|x fs IH]; intros [|y gs] Hf Hg Heq; [done|..].
  - specialize (Heq (af_position y)). cbn in Heq. by rewrite decide_True in Heq.
  - specialize (Heq (af_position x)). cbn in Heq. by rewrite decide_True in Heq.
  - apply ascending_cons_inv in Hf as [Hf Hxf], Hg as [Hg Hyg].
    assert (∀ p z zs, sealedAt p (z :: zs) ≠ None -> (∀ q, q ∈ framePositions zs -> af_position z <ₛ q) ->
              af_position z ≤ₛ p) as Hmin.
    { intros p z zs Hne Hz. destruct (decide (p ∈ framePositions (z :: zs))) as [Hin|Hn].
      - cbn in Hin. apply elem_of_cons in Hin as [->|Hin]; [done|]. by apply slt_sle, Hz.
      - by apply sealedAt_None in Hn. }
    assert (af_position x = af_position y) as Hpos.
    { apply sle_antisym.
      - apply (Hmin _ x fs); [|done]. rewrite Heq. cbn. by rewrite decide_True.
      - apply (Hmin _ y gs); [|done]. rewrite <- Heq. cbn. by rewrite decide_True. }
    assert (af_sealed x = af_sealed y) as Hsealed.
    { specialize (Heq (af_position x)). cbn in Heq. rewrite !decide_True in Heq by done. congruence. }
    f_equal; [destruct x, y; cbn in *; congruence|]. apply IH; [done..|]. intros p.
    specialize (Heq p). cbn in Heq. rewrite Hpos in Heq. case_decide as Hp; [|done].
    rewrite (proj2 (sealedAt_None p fs)), (proj2 (sealedAt_None p gs)); [done|..]; intros Hin; subst p.
    + apply (slt_irrefl (af_position y)). by apply Hyg.
    + apply (slt_irrefl (af_position y)). rewrite <- Hpos at 1. by apply Hxf.
Qed.

(** Two arrivals at one position say the same: one ciphertext, one record; and only durable delivery has
    records. *)
Definition consistent (d : bool) (fs : list AppFrame) : Prop :=
  (∀ f g, f ∈ fs -> g ∈ fs -> af_position f = af_position g ->
     match af_sealed f, af_sealed g with
     | SealedBytes a, SealedBytes b => a = b
     | PendingID a, PendingID b => a = b
     | _, _ => True
     end) ∧
  (d = false -> ∀ f id, f ∈ fs -> af_sealed f ≠ PendingID id).

(** How much an observation outweighs the others: done wins without durable delivery, and loses with it. *)
Definition weight (d : bool) (s : Sealed) : nat :=
  match s with SealedBytes _ => 1 | PendingID _ => 2 | Done => if d then 0 else 2 end.

Definition joinSealed (d : bool) (o : option Sealed) (s : Sealed) : option Sealed :=
  Some (match o with Some s0 => reconcile d s0 s | None => s end).

Lemma sealedAt_arrivals d fs : ∀ frames p,
  ascending (framePositions frames) ->
  sealedAt p (foldl (fun frames f => takeAppFrame frames f d) frames fs) =
  foldl (joinSealed d) (sealedAt p frames) (map af_sealed (filter (fun f => af_position f = p) fs)).
Proof.
  induction fs as [|f fs IH]; intros frames p Ha; [done|]. cbn [foldl].
  rewrite IH by by apply takeAppFrame_ascending. rewrite sealedAt_take by done. rewrite filter_cons.
  destruct (decide (p = af_position f)) as [->|Hp]; [by rewrite decide_True|]. by rewrite decide_False by congruence.
Qed.

Lemma foldl_ascending d fs : ∀ frames,
  ascending (framePositions frames) -> ascending (framePositions (foldl (fun frames f => takeAppFrame frames f d) frames fs)).
Proof. induction fs as [|f fs IH]; intros frames Ha; [done|]. apply IH. by apply takeAppFrame_ascending. Qed.

Lemma join_heaviest d ss : ∀ s0, (d = false -> ∀ id, PendingID id ∉ s0 :: ss) ->
  ∃ s, foldl (joinSealed d) (Some s0) ss = Some s ∧ s ∈ s0 :: ss ∧ ∀ x, x ∈ s0 :: ss -> weight d x ≤ weight d s.
Proof.
  induction ss as [|s1 ss IH]; intros s0 Hp.
  { exists s0. split; [done|]. split; [set_solver|]. by intros x ->%list_elem_of_singleton. }
  cbn [foldl joinSealed].
  assert (weight d s0 ≤ weight d (reconcile d s0 s1) ∧ weight d s1 ≤ weight d (reconcile d s0 s1)) as [H0 H1].
  { destruct d, s0, s1; cbn; try lia; exfalso;
      match type of Hp with context [PendingID ?i :: _] => apply (Hp eq_refl i); set_solver end. }
  destruct (IH (reconcile d s0 s1)) as (s & Heq & Hin & Hmax).
  { intros Hd id. specialize (Hp Hd id). destruct (reconcile_one d s0 s1) as [-> | ->]; set_solver. }
  exists s. split; [done|]. split.
  - destruct (reconcile_one d s0 s1) as [Hr|Hr]; rewrite Hr in Hin; set_solver.
  - intros x [->|[->|Hx]%elem_of_cons]%elem_of_cons.
    + etrans; [exact H0|]. apply Hmax. set_solver.
    + etrans; [exact H1|]. apply Hmax. set_solver.
    + apply Hmax. set_solver.
Qed.

Lemma join_permutation d ss ss' :
  ss ≡ₚ ss' -> (d = false -> ∀ id, PendingID id ∉ ss) ->
  (∀ x y, x ∈ ss -> y ∈ ss -> weight d x = weight d y -> x = y) ->
  foldl (joinSealed d) None ss = foldl (joinSealed d) None ss'.
Proof.
  intros Hperm Hp Huniq. destruct ss as [|s0 ss], ss' as [|s0' ss'].
  - done.
  - by apply Permutation_nil_cons in Hperm.
  - symmetry in Hperm. by apply Permutation_nil_cons in Hperm.
  - change (foldl (joinSealed d) (Some s0) ss = foldl (joinSealed d) (Some s0') ss').
    destruct (join_heaviest d ss s0 Hp) as (s & -> & Hin & Hmax).
    destruct (join_heaviest d ss' s0') as (s' & -> & Hin' & Hmax').
    { intros Hd id. rewrite <- Hperm. by apply Hp. }
    f_equal. apply Huniq; [done|by rewrite Hperm|]. apply Nat.le_antisymm.
    + apply Hmax'. by rewrite <- Hperm.
    + apply Hmax. by rewrite Hperm.
Qed.

(** The order in which frames arrive does not matter. Frames taken into the buffer in any order, from
    pulls and pushes interleaved and repeated, leave the same buffer, in log order with one entry to a
    position, as long as two arrivals at one position agree on the ciphertext and the record. *)
Theorem arrival_order_irrelevant d fs gs :
  fs ≡ₚ gs -> consistent d fs ->
  let buffer := foldl (fun frames f => takeAppFrame frames f d) [] in
  buffer fs = buffer gs ∧ ascending (framePositions (buffer fs)) ∧
  (∀ p, p ∈ framePositions (buffer fs) <-> p ∈ framePositions fs) ∧
  ∀ f, f ∈ buffer fs -> ∀ g, g ∈ fs -> af_position g = af_position f -> weight d (af_sealed g) ≤ weight d (af_sealed f).
Proof.
  intros Hperm [Hcons Hpend] buffer.
  assert (ascending (framePositions [])) as Hnil by constructor.
  assert (∀ fs, ascending (framePositions (buffer fs))) as Hasc by (intros; by apply foldl_ascending).
  assert (∀ p fs, sealedAt p (buffer fs) =
    foldl (joinSealed d) None (map af_sealed (filter (fun f => af_position f = p) fs))) as Hat
    by (intros p fs'; by apply sealedAt_arrivals).
  assert (d = false -> ∀ id p, PendingID id ∉ map af_sealed (filter (fun f => af_position f = p) fs)) as Hnop.
  { intros Hd id p (f & Hs & [_ Hf]%list_elem_of_filter)%list_elem_of_fmap. by eapply Hpend. }
  split_and!; [|apply Hasc|..].
  - apply sealedAt_ext; [apply Hasc..|]. intros p. rewrite !Hat. apply join_permutation.
    + by rewrite Hperm.
    + intros Hd id. by apply Hnop.
    + intros x y (f & -> & [Hfp Hf]%list_elem_of_filter)%list_elem_of_fmap (g & -> & [Hgp Hg]%list_elem_of_filter)%list_elem_of_fmap Hw.
      assert (af_position f = af_position g) as Heq by congruence.
      specialize (Hcons f g Hf Hg Heq). unfold weight in Hw.
      destruct (af_sealed f) eqn:Hsf, (af_sealed g) eqn:Hsg; destruct d; try congruence; try lia;
        exfalso; first [exact (Hpend eq_refl f _ Hf Hsf)|exact (Hpend eq_refl g _ Hg Hsg)].
  - intros p. destruct (sealedAt p (buffer fs)) as [s|] eqn:Hs.
    + split; intros _.
      * rewrite Hat in Hs. destruct (filter (fun f => af_position f = p) fs) as [|f rest] eqn:Hf; [done|].
        assert (f ∈ filter (fun f => af_position f = p) fs) as [Hfp Hin]%list_elem_of_filter by (rewrite Hf; set_solver).
        apply list_elem_of_fmap. by exists f.
      * destruct (decide (p ∈ framePositions (buffer fs))) as [|Hn]; [done|].
        apply sealedAt_None in Hn. congruence.
    + apply sealedAt_None in Hs as Hn. split; [done|]. intros (f & Hp & Hin)%list_elem_of_fmap. exfalso.
      rewrite Hat in Hs. assert (f ∈ filter (fun f => af_position f = p) fs) as Hf by by apply list_elem_of_filter.
      destruct (filter _ fs) as [|g rest]; [by apply elem_of_nil in Hf|]. cbn [map foldl joinSealed] in Hs.
      clear -Hs. revert Hs. generalize (af_sealed g). induction (map af_sealed rest) as [|s ss IH]; [done|].
      intros s0. cbn [foldl joinSealed]. apply IH.
  - intros f Hf g Hg Hpos.
    assert (sealedAt (af_position f) (buffer fs) = Some (af_sealed f)) as Hs.
    { pose proof (Hasc fs) as Ha. clear -Hf Ha. induction (buffer fs) as [|x xs IH]; [by apply elem_of_nil in Hf|].
      cbn in Ha |- *. apply ascending_cons_inv in Ha as [Ha Hx]. apply elem_of_cons in Hf as [->|Hf]; [by rewrite decide_True|].
      rewrite decide_False; [by apply IH|]. intros Heq. apply (slt_irrefl (af_position x)).
      apply Hx. rewrite Heq. apply list_elem_of_fmap. by exists f. }
    rewrite Hat in Hs. assert (g ∈ filter (fun x => af_position x = af_position f) fs) as Hgf by by apply list_elem_of_filter.
    destruct (filter _ fs) as [|h rest] eqn:Hfil; [by apply elem_of_nil in Hgf|].
    change (foldl (joinSealed d) (Some (af_sealed h)) (map af_sealed rest) = Some (af_sealed f)) in Hs.
    destruct (join_heaviest d (map af_sealed rest) (af_sealed h)) as (s & Heq & _ & Hmax).
    { intros Hd id. specialize (Hnop Hd id (af_position f)). by rewrite Hfil in Hnop. }
    rewrite Heq in Hs. injection Hs as <-. apply Hmax. change (af_sealed g ∈ map af_sealed (h :: rest)).
    apply list_elem_of_fmap. by exists g.
Qed.

(** ** The worker's theorem and the examples *)

Lemma laneRun_turns {H D} `{E : LaneEnv H D} name k (l : Lane) :
  laneRun l (repeat (WorkerTurn name) k) = Nat.iter k (workerTurn name) l.
Proof.
  unfold laneRun. revert l. induction k as [|k IH]; intros l; [done|]. cbn [repeat foldl laneStep].
  rewrite IH, <- Nat.iter_succ_r. done.
Qed.


Module LiveDemo.
(** Durable delivery: the handle opens everything; the second drain finds the records of both frames. *)
Definition log : TopicLog :=
  mkTopicLog [Demo.frameAt "1" "bob" [Byte.x01]; Demo.frameAt "2" "bob" [Byte.x02]] 0.

#[export] Instance env : LaneEnv unit nat := {|
  unwrap h sealed aad ref := (h, Opened sealed "bob");
  frameEpoch _ := Some 1%Z;
  frameAAD _ := Some ([Byte.x01; Byte.x01] ++ utf8 "T");
  fetchTopic n topicID after limit := Some (tl_fetch after (Some limit) log);
  succeeds _ := true;
  parseMessage payload := Message (Some "event") (Some "say") (Some (length payload));
  emptyData := 0;
  fromUTF s := utf8 s;
  toUTF b := Some (String.string_of_list_byte b);
  sha256 b := b;
  toB64U b := match last b with Some Byte.x01 => "a" | Some Byte.x02 => "b" | _ => "T" end;
  hkdf secret salt info n := [];
  isWellFormed _ := true;
  normalizeDID did := did;
  localDID := "me";
  protocols := [("chat", [("say", mkProcedure "event" (Some "log"))])];
  eventHandlers := {["chat"]};
  groupID := Some "G";
  durable := true;
  hasCursorStore := true;
  hasOnPruned := true;
  hasOnStalled := true;
  hasOnResumed := true;
  le_fuel := 2;
|}.

(** The same lane when every payload is the JSON [null] and nothing is kept pending. *)
Definition nullEnv : LaneEnv unit nat := {|
  unwrap h sealed aad ref := (h, Opened sealed "bob");
  frameEpoch _ := Some 1%Z;
  frameAAD _ := None;
  fetchTopic n topicID after limit := Some (tl_fetch after (Some limit) log);
  succeeds _ := true;
  parseMessage _ := NullMessage;
  emptyData := 0;
  fromUTF s := utf8 s;
  toUTF b := Some (String.string_of_list_byte b);
  sha256 b := b;
  toB64U _ := "T";
  hkdf secret salt info n := [];
  isWellFormed _ := true;
  normalizeDID did := did;
  localDID := "me";
  protocols := [("chat", [("say", mkProcedure "event" (Some "log"))])];
  eventHandlers := {["chat"]};
  groupID := Some "G";
  durable := false;
  hasCursorStore := true;
  hasOnPruned := true;
  hasOnStalled := true;
  hasOnResumed := true;
  le_fuel := 2;
|}.

Definition start : Lane := createAppLane (H := unit) (D := nat) (mkAnchor [] 0) ∅ tt.
Definition drained : Lane (H := unit) (D := nat) := laneRun start [Deliver].

Definition recordAt (id position : string) (payload : bytes) : PendingAppFrame :=
  mkPending (mkRef id "T" "chat" 0 position) payload "bob".
Definition records : list PendingAppFrame := [recordAt "a" "1" [Byte.x01]; recordAt "b" "2" [Byte.x02]].

Lemma drained_queue : queueOk "chat" drained.
Proof.
  assert (l_pendingRecords drained = records) as Hp by (vm_compute; reflexivity).
  assert (orderedRecords "chat" drained = records) as Ho by (vm_compute; reflexivity).
  assert (∀ r, r ∈ records -> r = recordAt "a" "1" [Byte.x01] ∨ r = recordAt "b" "2" [Byte.x02]) as Hr.
  { intros r [->|[->|Hr%elem_of_nil]%elem_of_cons]%elem_of_cons; auto. done. }
  split; rewrite ?Hp, ?Ho.
  - unfold records. repeat constructor; [|by intros ?%elem_of_nil]. intros Hin%list_elem_of_singleton. discriminate.
  - by intros r r' [-> | ->]%Hr [-> | ->]%Hr.
  - intros r r' [-> | ->]%Hr [-> | ->]%Hr; try done; intros [Hlt|[_ Hle]] [Hlt'|[_ Hle']]; vm_compute in *; discriminate.
  - intros r [-> | ->]%Hr; vm_compute; reflexivity.
Qed.
End LiveDemo.



Lemma arrival_order_irrelevant_witness :
  let done := mkAppFrame "2" Done in
  let sealed := mkAppFrame "2" (SealedBytes [Byte.x01]) in
  let fs := [done; mkAppFrame "1" Done; sealed] in
  let gs := [sealed; done; mkAppFrame "1" Done] in
  let buffer := foldl (fun frames f => takeAppFrame frames f true) [] in
  buffer fs = [mkAppFrame "1" Done; sealed] ∧
  (buffer fs = buffer gs ∧ ascending (framePositions (buffer fs)) ∧
   (∀ p, p ∈ framePositions (buffer fs) <-> p ∈ framePositions fs) ∧
   ∀ f, f ∈ buffer fs -> ∀ g, g ∈ fs -> af_position g = af_position f -> weight true (af_sealed g) ≤ weight true (af_sealed f)).
Proof.
  intros done sealed fs gs buffer. split; [vm_compute; reflexivity|].
  apply (arrival_order_irrelevant true fs gs).
  - symmetry. exact (Permutation_cons_append [done; mkAppFrame "1" Done] sealed).
  - split; [|discriminate]. intros f g Hf Hg _.
    repeat (apply elem_of_cons in Hf as [->|Hf]; [repeat (apply elem_of_cons in Hg as [->|Hg]; [reflexivity || exact I|]); by apply elem_of_nil in Hg|]).
    by apply elem_of_nil in Hf.
Defined.
