(* ===== verification/HubMux.v ===== *)
(** * The hub mux: one drain, many readers

    packages/rpc/src/hub-mux.ts: every frame the hub pushes to a peer comes through one [receive]
    channel. The mux hands each to the listeners of its topic and to the open mailbox sinks, acknowledges
    it upstream when all of them have released it, and keeps the subscriptions the topics need.

    The mux is a machine. An [Event] is a call made by the host or by a listener, the next thing one of
    the mux's own awaits is answered with, or [Continue]; [step] is what the code does synchronously in
    response, and its [Effect]s are the calls it makes out. A listener runs inside the mux's loop and may
    call the mux back, so the two loops that call listeners are not one step: the loop in progress is in
    the state ([turn], [handing]), [Continue] takes it to its next iteration, and the events between two
    [Continue]s are what the listener just called does. *)

From S2P Require Import Prelude HubProtocol Codecs.

(** ** Subscriptions *)

(** [HubSubscribeOptions] of hub-tunnel/src/transport.ts. *)
Record HubSubscribeOptions := mkOptions { retention : option Z }.

(** [ready] is a promise; it settles when the attempt it names is over. *)
Inductive TopicSubscription :=
  | asking (ready : nat)
  | held
  | refused (error : Thrown) (permanent : bool) (options : option HubSubscribeOptions).

(** Where an [attemptSubscribe] is suspended: on the hub, on a backoff still in [sleeping], or on one
    that has been woken. *)
Inductive Await := OnHub | OnSleep | OnWake.

Record Attempt := mkAttempt {
  at_topicID : string;
  at_options : option HubSubscribeOptions;
  at_attempt : nat;
  at_await : Await;
}.

Record Subs := mkSubs {
  refcount : gmap string nat;
  subscriptions : list (string * TopicSubscription);
  attempts : gmap nat Attempt;
}.

(** An [Error] of another copy of hub-protocol has the class's name, so both tests of the code are one:
    [HubError c _] is an error of that class or of that name. *)
Definition isPermanentSubscribeFailure (error : Thrown) : bool :=
  match error with
  | HubError RetentionExceededError _ | HubError AuthorizationDeniedError _ => true
  | _ => false
  end.

Definition DEFAULT_SUBSCRIBE_RETRY_DELAYS_MS : list Z := [100; 500; 2000; 10000]%Z.
Definition DEFAULT_ACK_TTL_MS : Z := 60000.

(** ** Deliveries *)

(** A listener and a sink are objects: a number is the object's identity. The drain's own claim is a
    fresh symbol per frame. *)
Inductive Holder :=
  | HListener (listener : nat)
  | HSink (sink : nat)
  | HDrain (claim : nat).

#[export] Instance Holder_eq_dec : EqDecision Holder.
Proof. solve_decision. Defined.

#[export] Instance Holder_countable : Countable Holder.
Proof.
  refine (inj_countable' (fun h => match h with HListener l => inl l | HSink k => inr (inl k) | HDrain c => inr (inr c) end)
    (fun x => match x with inl l => HListener l | inr (inl k) => HSink k | inr (inr c) => HDrain c end) _).
  by intros [].
Defined.

(** The entries are objects the loops keep references to; [pa_id] is the object's identity. *)
Record PendingAck := mkPendingAck {
  pa_id : nat;
  holders : gset Holder;
  position : string;
  claimedAt : Z;
  unmatched : option StoredMessage;
}.

(** A sink's topic, the queue, waiting [next] and [closed] flag its closures share. *)
Record Sink := mkSink {
  sink_topicID : option string;
  queue : list StoredMessage;
  resolveNext : option nat;
  closed : bool;
}.

Record Registration := mkRegistration { rg_topicID : string; rg_listener : nat; removed : bool }.

(** The drain's loop over [matchedListeners], with those still to call. *)
Record Turn := mkTurn {
  tn_message : StoredMessage;
  tn_entry : nat;
  matchedListeners : list nat;
  tn_todo : list nat;
}.

(** [onInbound]'s loop over its [handoffs]: the listener, and the frames still to hand to it. *)
Record Handing := mkHanding { hg_listener : nat; hg_todo : list (string * nat * StoredMessage) }.

Record Mux := mkMux {
  subs : Subs;
  listeners : gmap string (list nat);
  registrations : gmap nat Registration;
  sinkObjects : gmap nat Sink;
  sinks : list nat;
  pending : list (string * PendingAck);
  fetches : gmap nat (FetchTopicParams * nat);
  handing : list Handing;
  turn : option Turn;
  draining : bool;
  disposed : bool;
  publishSuspended : bool;
  fresh : nat;
}.

Definition createHubMux : Mux :=
  mkMux (mkSubs ∅ [] ∅) ∅ ∅ ∅ [] [] ∅ [] None true false false 0.

Definition set_subs (s : Subs) (m : Mux) : Mux :=
  mkMux s (listeners m) (registrations m) (sinkObjects m) (sinks m) (pending m) (fetches m)
    (handing m) (turn m) (draining m) (disposed m) (publishSuspended m) (fresh m).
Definition set_listeners (ls : gmap string (list nat)) (rs : gmap nat Registration) (m : Mux) : Mux :=
  mkMux (subs m) ls rs (sinkObjects m) (sinks m) (pending m) (fetches m)
    (handing m) (turn m) (draining m) (disposed m) (publishSuspended m) (fresh m).
Definition set_sinks (objects : gmap nat Sink) (ks : list nat) (m : Mux) : Mux :=
  mkMux (subs m) (listeners m) (registrations m) objects ks (pending m) (fetches m)
    (handing m) (turn m) (draining m) (disposed m) (publishSuspended m) (fresh m).
Definition set_pending (p : list (string * PendingAck)) (m : Mux) : Mux :=
  mkMux (subs m) (listeners m) (registrations m) (sinkObjects m) (sinks m) p (fetches m)
    (handing m) (turn m) (draining m) (disposed m) (publishSuspended m) (fresh m).
Definition set_fetches (fs : gmap nat (FetchTopicParams * nat)) (m : Mux) : Mux :=
  mkMux (subs m) (listeners m) (registrations m) (sinkObjects m) (sinks m) (pending m) fs
    (handing m) (turn m) (draining m) (disposed m) (publishSuspended m) (fresh m).
Definition set_loops (h : list Handing) (t : option Turn) (m : Mux) : Mux :=
  mkMux (subs m) (listeners m) (registrations m) (sinkObjects m) (sinks m) (pending m) (fetches m)
    h t (draining m) (disposed m) (publishSuspended m) (fresh m).
Definition set_flags (drains dispose suspended : bool) (m : Mux) : Mux :=
  mkMux (subs m) (listeners m) (registrations m) (sinkObjects m) (sinks m) (pending m) (fetches m)
    (handing m) (turn m) drains dispose suspended (fresh m).
Definition next_fresh (m : Mux) : Mux :=
  mkMux (subs m) (listeners m) (registrations m) (sinkObjects m) (sinks m) (pending m) (fetches m)
    (handing m) (turn m) (draining m) (disposed m) (publishSuspended m) (S (fresh m)).

(** ** What the mux does *)

(** What a publish or a fetch rejects with. *)
Inductive MuxError :=
  | HubRefused (error : Thrown)
  | PeerDisposedError (message : string)
  | FrameRefused (error : CodecError).

#[export] Instance MuxError_eq_dec : EqDecision MuxError.
Proof. solve_decision. Defined.

Inductive Effect :=
  | HubSubscribe (attempt : nat) (params : SubscribeParams)
  | Slept (attempt : nat) (ms : Z)
  | SubscribeFailed (topicID : string) (error : Thrown) (permanent : bool)
  | HubAck (position : string)
  | Deliver (listener : nat) (message : StoredMessage)
  | Pushed (sink : nat) (message : StoredMessage)
  | Resolved (call : nat) (message : option StoredMessage)
  | ReceiveEnded (error : option Thrown)
  | HubPublish (params : PublishParams)
  | HubFetchTopic (params : FetchTopicParams)
  | Rejected (error : MuxError)
  | ReceiveReturned.

Abbreviation Act := (act_of Mux Effect).

Inductive Event :=
  (* calls of the host and of the listeners *)
  | RetainTopic (topicID : string) (options : option HubSubscribeOptions)
  | RearmTopic (topicID : string)
  | RearmRefusedTopics
  | OnInbound (topicID : string) (listener : nat) (options : option HubSubscribeOptions) (now : Z)
  | Unlisten (registration : nat)
  | AckListener (sequenceID : string) (listener : nat)
  | BusPublish (topicID : string) (payload : bytes)
  | MailboxPublish (params : PublishParams)
  | MailboxSubscribe (topicID : string)
  | MailboxUnsubscribe (topicID : string)
  | MailboxReceive (topicID : option string)
  | SinkNext (sink : nat)
  | SinkReturn (sink : nat)
  | SinkAck (sink : nat) (sequenceID : string)
  | Publish (params : PublishParams)
  | FetchTopic (params : FetchTopicParams)
  | SuspendPublishing
  | Dispose
  (* the loop over listeners goes on *)
  | Continue
  (* answers to the mux's awaits *)
  | Subscribed (attempt : nat)
  | SubscribeRejected (attempt : nat) (error : Thrown)
  | TimerFired (attempt : nat)
  | SleepEnded (attempt : nat)
  | FetchReady (fetch : nat)
  | Received (message : StoredMessage) (now : Z)
  | DrainEnded (error : option Thrown).

(** What has happened, oldest first. *)
Abbreviation Trace := (list (Event * list Effect)).

Section mux.
Context (localDID : string) (retryDelaysMs : list Z) (ackTTLMs : Z).

(** ** Subscribing *)

Definition set_subscription (t : string) (s : TopicSubscription) : Act := fun m =>
  (set_subs (mkSubs (refcount (subs m)) (jm_set t s (subscriptions (subs m))) (attempts (subs m))) m, []).

Definition set_refcount (t : string) (n : option nat) : Act := fun m =>
  (set_subs (mkSubs (partial_alter (fun _ => n) t (refcount (subs m))) (subscriptions (subs m))
    (attempts (subs m))) m, []).

Definition set_attempt (a : nat) (x : option Attempt) : Act := fun m =>
  (set_subs (mkSubs (refcount (subs m)) (subscriptions (subs m))
    (partial_alter (fun _ => x) a (attempts (subs m)))) m, []).

(** The call of [hub.subscribe] an attempt starts with. *)
Definition ask (a : nat) (t : string) (options : option HubSubscribeOptions) (n : nat) : Act :=
  set_attempt a (Some (mkAttempt t options n OnHub)) ▷
  emit (HubSubscribe a (mkSubscribe localDID t (o ← options; retention o))).

Definition startSubscribe (t : string) (options : option HubSubscribeOptions) : Act := fun m =>
  let a := fresh m in
  (set_subscription t (asking a) ▷ ask a t options 0) (next_fresh m).

(** [await hub.subscribe] resolved. *)
Definition subscribed (a : nat) (x : Attempt) : Act := fun m =>
  ((if disposed m then skip else set_subscription (at_topicID x) held) ▷ set_attempt a None) m.

(** The [catch] of [attemptSubscribe]. *)
Definition subscribeRejected (a : nat) (x : Attempt) (error : Thrown) : Act := fun m =>
  (if disposed m then set_attempt a None
   else
     let permanent := isPermanentSubscribeFailure error in
     let latch :=
       set_subscription (at_topicID x) (refused error permanent (at_options x)) ▷
       emit (SubscribeFailed (at_topicID x) error permanent) ▷ set_attempt a None in
     if permanent then latch
     else match retryDelaysMs !! at_attempt x with
     | None => latch
     | Some delay =>
       set_attempt a (Some (mkAttempt (at_topicID x) (at_options x) (at_attempt x) OnSleep)) ▷
       emit (Slept a delay)
     end) m.

Definition wake (x : Attempt) : Attempt :=
  match at_await x with
  | OnSleep => mkAttempt (at_topicID x) (at_options x) (at_attempt x) OnWake
  | _ => x
  end.

(** [await sleep(delay)] resolved. *)
Definition sleepEnded (a : nat) (x : Attempt) : Act := fun m =>
  (if disposed m then set_attempt a None
   else ask a (at_topicID x) (at_options x) (S (at_attempt x))) m.

(** Whether a retain asks the hub again. *)
Definition reasks (options : option HubSubscribeOptions) (state : TopicSubscription) : bool :=
  match state with
  | refused _ permanent before =>
    negb (permanent &&
      match o ← options; retention o with
      | None => true
      | Some r => bool_decide (Some r = (o ← before; retention o))
      end)
  | _ => false
  end.

Definition retain (t : string) (options : option HubSubscribeOptions) : Act := fun m =>
  (set_refcount t (Some (S (default 0 (refcount (subs m) !! t)))) ▷
   match jm_get t (subscriptions (subs m)) with
   | None => startSubscribe t options
   | Some state => if reasks options state then startSubscribe t options else skip
   end) m.

Definition rearmTopic (t : string) : Act := fun m =>
  if disposed m then skip m
  else match jm_get t (subscriptions (subs m)) with
  | Some (refused _ _ options) =>
    let m1 := set_subs (mkSubs (refcount (subs m)) (jm_delete t (subscriptions (subs m))) (attempts (subs m))) m in
    if (0 <? default 0 (refcount (subs m) !! t))%nat then startSubscribe t options m1 else skip m1
  | _ => skip m
  end.

Definition isRefused (s : TopicSubscription) : bool :=
  match s with refused _ _ _ => true | _ => false end.

Definition rearmRefusedTopics : Act := fun m =>
  if disposed m then skip m
  else each rearmTopic (map fst (filter (fun ts => isRefused ts.2 = true) (subscriptions (subs m)))) m.

Definition assertSubscribable (t : string) (m : Mux) : result MuxError unit :=
  match jm_get t (subscriptions (subs m)) with
  | Some (refused error _ _) => Err (HubRefused error)
  | _ => Ok tt
  end.

Definition release (t : string) : Act := fun m =>
  match default 0 (refcount (subs m) !! t) with
  | 0 => skip m
  | S next => set_refcount t (if decide (next = 0) then None else Some next) m
  end.

(** ** Claims *)

Definition ackUpstream (p : string) : Act := emit (HubAck p).

Definition with_holders (h : gset Holder) (e : PendingAck) : PendingAck :=
  mkPendingAck (pa_id e) h (position e) (claimedAt e) (unmatched e).
Definition with_unmatched (u : option StoredMessage) (e : PendingAck) : PendingAck :=
  mkPendingAck (pa_id e) (holders e) (position e) (claimedAt e) u.

(** A write to an entry the loop holds a reference to. An entry no longer in [pending] is written to as
    well, which nothing can see. *)
Definition alter_entry (i : nat) (f : PendingAck -> PendingAck) : Act := fun m =>
  (set_pending (map (fun se => if decide (pa_id se.2 = i) then (se.1, f se.2) else se) (pending m)) m, []).

Definition releaseClaim (sequenceID : string) (holder : Holder) : Act := fun m =>
  match jm_get sequenceID (pending m) with
  | None => skip m
  | Some e =>
    let h := holders e ∖ {[holder]} in
    if decide (h = ∅)
    then ackUpstream (position e) (set_pending (jm_delete sequenceID (pending m)) m)
    else skip (set_pending (jm_set sequenceID (with_holders h e) (pending m)) m)
  end.

Fixpoint sweep (cutoff : Z) (p : list (string * PendingAck)) : list (string * PendingAck) :=
  match p with
  | [] => []
  | se :: p' => if (cutoff <? claimedAt se.2)%Z then p else sweep cutoff p'
  end.

Definition sweepPending (now : Z) : Act := fun m =>
  (set_pending (sweep (now - ackTTLMs) (pending m)) m, []).

(** [entry.holders.delete(sink)], and the entry gone when that was the last. *)
Definition abandonEntry (k : nat) (se : string * PendingAck) : option (string * PendingAck) :=
  if decide (HSink k ∈ holders se.2) then
    let h := holders se.2 ∖ {[HSink k]} in
    if decide (h = ∅) then None else Some (se.1, with_holders h se.2)
  else Some se.

(** ** Sinks *)

Definition set_sink (k : nat) (s : Sink) : Act := fun m =>
  (set_sinks (<[k := s]> (sinkObjects m)) (sinks m) m, []).

Definition push (message : StoredMessage) (k : nat) : Act := fun m =>
  (emit (Pushed k message) ▷
   match sinkObjects m !! k with
   | None => skip
   | Some s =>
     if closed s then skip
     else match resolveNext s with
     | Some call =>
       set_sink k (mkSink (sink_topicID s) (queue s) None (closed s)) ▷ emit (Resolved call (Some message))
     | None => set_sink k (mkSink (sink_topicID s) (queue s ++ [message]) None (closed s))
     end
   end) m.

Definition close (k : nat) : Act := fun m =>
  match sinkObjects m !! k with
  | None => skip m
  | Some s =>
    (set_sink k (mkSink (sink_topicID s) (queue s) None true) ▷
     match resolveNext s with Some call => emit (Resolved call None) | None => skip end) m
  end.

Definition forget_sink (k : nat) : Act := fun m =>
  (set_sinks (sinkObjects m) (filter (fun k' => k' ≠ k) (sinks m)) m, []).

Definition abandonSink (k : nat) : Act :=
  close k ▷ forget_sink k ▷ (fun m => (set_pending (omap (abandonEntry k) (pending m)) m, [])).

(** [iter.next]; the call's promise is a number. *)
Definition sinkNext (k : nat) : Act := fun m =>
  let call := fresh m in
  match sinkObjects m !! k with
  | None => skip m
  | Some s =>
    match queue s with
    | message :: rest =>
      (set_sink k (mkSink (sink_topicID s) rest (resolveNext s) (closed s)) ▷
       emit (Resolved call (Some message))) (next_fresh m)
    | [] =>
      if closed s then emit (Resolved call None) (next_fresh m)
      else set_sink k (mkSink (sink_topicID s) [] (Some call) (closed s)) (next_fresh m)
    end
  end.

Definition mailboxReceive (t : option string) : Act := fun m =>
  (set_sinks (<[fresh m := mkSink t [] None false]> (sinkObjects m)) (sinks m ++ [fresh m]) (next_fresh m), []).

(** ** Listening *)

Definition listenersOf (t : string) (m : Mux) : list nat := default [] (listeners m !! t).

Definition addListener (t : string) (l : nat) : Act := fun m =>
  let set := listenersOf t m in
  (set_listeners (<[t := if decide (l ∈ set) then set else set ++ [l]]> (listeners m))
     (<[fresh m := mkRegistration t l false]> (registrations m)) (next_fresh m), []).

(** An entry [onInbound] hands to its listener: the topic's unmatched ones. *)
Definition isHandoff (t : string) (se : string * PendingAck) : bool :=
  match unmatched se.2 with Some message => bool_decide (sm_topicID message = t) | None => false end.

Definition handoffs (t : string) (p : list (string * PendingAck)) : list (string * nat * StoredMessage) :=
  omap (fun se => message ← unmatched se.2;
    if isHandoff t se then Some (se.1, pa_id se.2, message) else None) p.

Definition claim (t : string) (l : nat) (se : string * PendingAck) : string * PendingAck :=
  if isHandoff t se then (se.1, with_unmatched None (with_holders {[HListener l]} se.2)) else se.

(** The whole backlog is claimed before any callback runs. *)
Definition claimBacklog (t : string) (l : nat) : Act := fun m =>
  (set_loops (mkHanding l (handoffs t (pending m)) :: handing m) (turn m)
     (set_pending (map (claim t l) (pending m)) m), []).

Definition onInbound (t : string) (l : nat) (options : option HubSubscribeOptions) (now : Z) : Act :=
  addListener t l ▷ retain t options ▷ sweepPending now ▷ claimBacklog t l.

(** The function [onInbound] returns. *)
Definition unlisten (r : nat) : Act := fun m =>
  match registrations m !! r with
  | Some (mkRegistration t l false) =>
    let set := filter (fun l' => l' ≠ l) (listenersOf t m) in
    ((fun m => (set_listeners (match listeners m !! t with
        | None => listeners m
        | Some _ => if decide (set = []) then delete t (listeners m) else <[t := set]> (listeners m)
        end) (<[r := mkRegistration t l true]> (registrations m)) m, [])) ▷ release t) m
  | _ => skip m
  end.

(** ** The loops over listeners *)

(** An iteration of [onInbound]'s loop, the listener's call left to the events that follow. *)
Definition handNext (g : Handing) (rest : list Handing) : Act := fun m =>
  match hg_todo g with
  | [] => (set_loops rest (turn m) m, [])
  | (sequenceID, i, message) :: todo =>
    let m1 := set_loops (mkHanding (hg_listener g) todo :: rest) (turn m) m in
    if disposed m || negb (bool_decide (pa_id <$> jm_get sequenceID (pending m) = Some i))
    then skip m1
    else emit (Deliver (hg_listener g) message) m1
  end.

(** The sinks a frame goes to, matched after the listeners have run. *)
Definition matchedSinks (message : StoredMessage) (m : Mux) : list nat :=
  filter (fun k => match (s ← sinkObjects m !! k; sink_topicID s) with
    | None => true | Some t => bool_decide (t = sm_topicID message) end = true) (sinks m).

(** The end of the drain's iteration. *)
Definition finishTurn (tn : Turn) : Act := fun m =>
  let message := tn_message tn in
  let ks := matchedSinks message m in
  (alter_entry (tn_entry tn) (fun e => with_holders (holders e ∪ list_to_set (map HSink ks)) e) ▷
   (if decide (matchedListeners tn ≠ [] ∨ ks ≠ [])
    then releaseClaim (sm_sequenceID message) (HDrain (tn_entry tn))
    else alter_entry (tn_entry tn) (with_unmatched (Some message))) ▷
   each (push message) ks ▷
   (fun m => (set_loops (handing m) None m, []))) m.

Definition turnNext (tn : Turn) : Act := fun m =>
  match tn_todo tn with
  | [] => finishTurn tn m
  | l :: todo =>
    emit (Deliver l (tn_message tn))
      (set_loops (handing m) (Some (mkTurn (tn_message tn) (tn_entry tn) (matchedListeners tn) todo)) m)
  end.

Definition continue (m : Mux) : option (Mux * list Effect) :=
  match handing m, turn m with
  | g :: rest, _ => Some (handNext g rest m)
  | [], Some tn => Some (turnNext tn m)
  | [], None => None
  end.

(** ** The drain *)

Definition received (message : StoredMessage) (now : Z) : Act := fun m =>
  if disposed m then (set_flags false (disposed m) (publishSuspended m) m, [])
  else
    (sweepPending now ▷ (fun m =>
      let matched := listenersOf (sm_topicID message) m in
      let i := fresh m in
      let entry := mkPendingAck i (list_to_set (HDrain i :: map HListener matched))
        (sm_sequenceID message) now None in
      let p := jm_set (sm_sequenceID message) entry (jm_delete (sm_sequenceID message) (pending m)) in
      (set_loops (handing m) (Some (mkTurn message i matched matched)) (set_pending p (next_fresh m)), []))) m.

Definition reportEnded (error : option Thrown) : Act := fun m =>
  if disposed m then skip m else emit (ReceiveEnded error) m.

Definition drainEnded (error : option Thrown) : Act := fun m =>
  ((fun m => (set_flags false (disposed m) (publishSuspended m) m, [])) ▷ reportEnded error) m.

(** ** Publishing and fetching *)

(** The guards of the three publish routes. *)
Definition guarded (t : string) (payload : bytes) (call : Act) : Act := fun m =>
  if publishSuspended m then emit (Rejected (PeerDisposedError "mux: publish after dispose")) m
  else match assertSubscribable t m with
  | Err e => emit (Rejected e) m
  | Ok _ =>
    match assertFrameFits payload with
    | Err e => emit (Rejected (FrameRefused e)) m
    | Ok _ => call m
    end
  end.

Definition busPublish (t : string) (payload : bytes) : Act :=
  guarded t payload (emit (HubPublish (mkPublish localDID t payload None None None))).

Definition mailboxPublish (params : PublishParams) : Act :=
  guarded (pp_topicID params) (pp_payload params) (emit (HubPublish params)).

(** The caller's parameters carry no sender; the mux stamps its own. *)
Definition publish (params : PublishParams) : Act :=
  guarded (pp_topicID params) (pp_payload params)
    (emit (HubPublish (mkPublish localDID (pp_topicID params) (pp_payload params)
       (pp_expectedHead params) (pp_publishID params) (pp_retain params)))).

Definition fetchNow (params : FetchTopicParams) : Act := fun m =>
  match assertSubscribable (ft_topicID params) m with
  | Err e => emit (Rejected e) m
  | Ok _ => emit (HubFetchTopic (mkFetchTopic localDID (ft_topicID params) (ft_after params) (ft_limit params))) m
  end.

Definition fetchTopic (params : FetchTopicParams) : Act := fun m =>
  match jm_get (ft_topicID params) (subscriptions (subs m)) with
  | Some (asking ready) => (set_fetches (<[fresh m := (params, ready)]> (fetches m)) (next_fresh m), [])
  | _ => fetchNow params m
  end.

(** ** Teardown *)

Definition suspendPublishing : Act := fun m => (set_flags (draining m) (disposed m) true m, []).

Definition closeSink (k : nat) : Act := close k ▷ forget_sink k.

Definition dispose : Act := fun m =>
  if disposed m then skip m
  else
    ((fun m => (set_flags (draining m) true true m, [])) ▷
     (fun m => (set_subs (mkSubs (refcount (subs m)) (subscriptions (subs m)) (wake <$> attempts (subs m))) m, [])) ▷
     (fun m => (set_pending [] m, [])) ▷
     (fun m => each closeSink (sinks m) m) ▷
     (fun m => (set_subs (mkSubs ∅ (subscriptions (subs m)) (attempts (subs m))) m, [])) ▷
     (fun m => (set_listeners ∅ (registrations m) m, [])) ▷
     emit ReceiveReturned) m.

(** ** The machine *)

(** No loop over listeners is in progress: the mux is at its awaits. *)
Definition at_rest (m : Mux) : bool :=
  match handing m, turn m with [], None => true | _, _ => false end.

(** An answer to the await an attempt is at. A hub may throw from within the call, so its answers may
    come inside a turn; a timer or a promise cannot. *)
Definition answered (a : nat) (w : Await) (f : nat -> Attempt -> Act) (m : Mux) : option (Mux * list Effect) :=
  match attempts (subs m) !! a with
  | Some x =>
    match at_await x, w with
    | OnHub, OnHub | OnSleep, OnSleep | OnWake, OnWake => Some (f a x m)
    | _, _ => None
    end
  | None => None
  end.

Definition fetchReady (f : nat) (m : Mux) : option (Mux * list Effect) :=
  match fetches m !! f with
  | Some (params, ready) =>
    match attempts (subs m) !! ready with
    | None => Some (fetchNow params (set_fetches (delete f (fetches m)) m))
    | Some _ => None
    end
  | None => None
  end.

Definition step (e : Event) (m : Mux) : option (Mux * list Effect) :=
  let whenRested (r : option (Mux * list Effect)) := if at_rest m then r else None in
  match e with
  | RetainTopic t options => Some (retain t options m)
  | RearmTopic t => Some (rearmTopic t m)
  | RearmRefusedTopics => Some (rearmRefusedTopics m)
  | OnInbound t l options now => Some (onInbound t l options now m)
  | Unlisten r => Some (unlisten r m)
  | AckListener sequenceID l => Some (releaseClaim sequenceID (HListener l) m)
  | BusPublish t payload => Some (busPublish t payload m)
  | MailboxPublish params => Some (mailboxPublish params m)
  | MailboxSubscribe t => Some (retain t None m)
  | MailboxUnsubscribe t => Some (release t m)
  | MailboxReceive t => Some (mailboxReceive t m)
  | SinkNext k => Some (sinkNext k m)
  | SinkReturn k => Some (abandonSink k m)
  | SinkAck k sequenceID => Some (releaseClaim sequenceID (HSink k) m)
  | Publish params => Some (publish params m)
  | FetchTopic params => Some (fetchTopic params m)
  | SuspendPublishing => Some (suspendPublishing m)
  | Dispose => Some (dispose m)
  | Continue => continue m
  | Subscribed a => whenRested (answered a OnHub subscribed m)
  | SubscribeRejected a error => answered a OnHub (fun a x => subscribeRejected a x error) m
  | TimerFired a => whenRested (answered a OnSleep (fun a x => set_attempt a (Some (wake x))) m)
  | SleepEnded a => whenRested (answered a OnWake sleepEnded m)
  | FetchReady f => whenRested (fetchReady f m)
  | Received message now => whenRested (if draining m then Some (received message now m) else None)
  | DrainEnded error => whenRested (if draining m then Some (drainEnded error m) else None)
  end.

End mux.

(** ** Runs *)

Abbreviation trace localDID retryDelaysMs ackTTLMs :=
  (mtrace (step localDID retryDelaysMs ackTTLMs) createHubMux).
Abbreviation run localDID retryDelaysMs ackTTLMs := (mrun (step localDID retryDelaysMs ackTTLMs)).
