(* ===== verification/HubMuxSubs.v ===== *)
(** * The subscriptions of the hub mux

    What a topic's subscription state says: one attempt at a time asks for it, an attempt asks a bounded
    number of times and then settles, and a refusal stands until it is asked about again. *)

From S2P Require Import Prelude HubProtocol Codecs HubMux.

(** ** Acts that leave the subscriptions alone *)

(** The number of calls of [hub.subscribe] an attempt made. *)
Definition is_ask (a : nat) (e : Effect) : bool :=
  match e with HubSubscribe a' _ => bool_decide (a' = a) | _ => false end.

Definition asks (a : nat) (out : list Effect) : nat := length (filter (fun e => is_ask a e = true) out).

Definition effects (tr : Trace) : list Effect := flat_map snd tr.

Lemma effects_app tr1 tr2 : effects (tr1 ++ tr2) = effects tr1 ++ effects tr2.
Proof. apply flat_map_app. Qed.

Lemma asks_app a out1 out2 : asks a (out1 ++ out2) = asks a out1 + asks a out2.
Proof. unfold asks. by rewrite filter_app, length_app. Qed.

Definition asks_nothing (e : Effect) : Prop := ∀ a p, e ≠ HubSubscribe a p.

Lemma asks_nothing_zero a out : Forall asks_nothing out -> asks a out = 0.
Proof.
  intros H. unfold asks. rewrite filter_none; [done|]. intros e He.
  rewrite Forall_forall in H. destruct e; try done. by destruct (H _ He attempt params).
Qed.

(** Neither asks for a subscription nor reports one refused. *)
Definition silent (e : Effect) : Prop :=
  match e with HubSubscribe _ _ | SubscribeFailed _ _ _ => False | _ => True end.

Lemma silent_asks_nothing out : Forall silent out -> Forall asks_nothing out.
Proof. intros H. eapply Forall_impl; [exact H|]. by intros [] He a p [=]. Qed.

(** An act that touches no subscription: the fields the invariant reads are as before. *)
Record quiet (act : Act) : Prop := {
  quiet_subs m : subs (act m).1 = subs m;
  quiet_disposed m : disposed (act m).1 = disposed m;
  quiet_fresh m : fresh m <= fresh (act m).1;
  quiet_asks m : Forall silent (act m).2;
}.

Lemma quiet_skip : quiet skip.
Proof. by split. Qed.

Lemma quiet_emit e : silent e -> quiet (emit e).
Proof. split; intros; cbn; try done. by apply Forall_singleton. Qed.

Lemma quiet_then act1 act2 : quiet act1 -> quiet act2 -> quiet (act1 ▷ act2).
Proof.
  intros H1 H2. unfold andThen. split; intros m;
    destruct (act1 m) as [m1 out1] eqn:E1, (act2 m1) as [m2 out2] eqn:E2; cbn.
  - generalize (quiet_subs _ H1 m), (quiet_subs _ H2 m1). rewrite E1, E2. cbn. congruence.
  - generalize (quiet_disposed _ H1 m), (quiet_disposed _ H2 m1). rewrite E1, E2. cbn. congruence.
  - generalize (quiet_fresh _ H1 m), (quiet_fresh _ H2 m1). rewrite E1, E2. cbn. lia.
  - generalize (quiet_asks _ H1 m), (quiet_asks _ H2 m1). rewrite E1, E2. cbn. by apply Forall_app_2.
Qed.

Lemma quiet_each {A} (f : A -> Act) l : (∀ x, quiet (f x)) -> quiet (each f l).
Proof. intros Hf. induction l as [|x l IH]; [apply quiet_skip|]. by apply quiet_then. Qed.

(** An act that chooses by the state between quiet acts. *)
Lemma quiet_at (act : Act) : (∀ m, ∃ act', quiet act' ∧ act m = act' m) -> quiet act.
Proof.
  intros H. split; intros m; destruct (H m) as (act' & Hq & ->); by apply Hq.
Qed.

(** A write to another field. *)
Lemma quiet_write (f : Mux -> Mux) :
  (∀ m, subs (f m) = subs m ∧ disposed (f m) = disposed m ∧ fresh m <= fresh (f m)) -> quiet (fun m => (f m, [])).
Proof. intros H. by split; intros; cbn; try apply H. Qed.

Ltac quiet :=
  repeat first
    [ apply quiet_skip | apply quiet_then | apply quiet_each; intros
    | apply quiet_emit; done
    | apply quiet_write; intros; cbn; repeat split; lia ].

Section subs.
Context (localDID : string) (retryDelaysMs : list Z) (ackTTLMs : Z).

#[local] Abbreviation step := (step localDID retryDelaysMs ackTTLMs).
#[local] Abbreviation trace := (trace localDID retryDelaysMs ackTTLMs).

Lemma quiet_releaseClaim sequenceID h : quiet (releaseClaim sequenceID h).
Proof.
  apply quiet_at. intros m. unfold releaseClaim. destruct (jm_get _ _) as [e|]; [|exists skip; split; [quiet|done]].
  cbn zeta. case_decide.
  - exists ((fun m => (set_pending (jm_delete sequenceID (pending m)) m, [])) ▷ ackUpstream (position e)).
    split; [unfold ackUpstream; quiet|done].
  - exists (fun m => (set_pending (jm_set sequenceID (with_holders (holders e ∖ {[h]}) e) (pending m)) m, [])).
    split; [quiet|done].
Qed.

Lemma quiet_set_sink k s : quiet (set_sink k s).
Proof. unfold set_sink. quiet. Qed.

Lemma quiet_forget_sink k : quiet (forget_sink k).
Proof. unfold forget_sink. quiet. Qed.

Lemma quiet_sweepPending now : quiet (sweepPending ackTTLMs now).
Proof. unfold sweepPending. quiet. Qed.

Lemma quiet_alter_entry i f : quiet (alter_entry i f).
Proof. unfold alter_entry. quiet. Qed.

Lemma quiet_close k : quiet (close k).
Proof.
  apply quiet_at. intros m. unfold close. destruct (sinkObjects m !! k) as [s|]; [|exists skip; split; [quiet|done]].
  eexists. split; [|reflexivity]. apply quiet_then; [apply quiet_set_sink|]. case_match; quiet.
Qed.

Lemma quiet_push message k : quiet (push message k).
Proof.
  apply quiet_at. intros m. unfold push. eexists. split; [|reflexivity]. apply quiet_then; [quiet|].
  repeat case_match; repeat first [apply quiet_set_sink | quiet; done | apply quiet_then].
Qed.

Lemma quiet_closeSink k : quiet (closeSink k).
Proof. unfold closeSink. apply quiet_then; [apply quiet_close|apply quiet_forget_sink]. Qed.

Lemma quiet_abandonSink k : quiet (abandonSink k).
Proof.
  unfold abandonSink. repeat apply quiet_then; [apply quiet_close|apply quiet_forget_sink|quiet].
Qed.

(** The rest change one field, or choose by the state what to emit. *)
Ltac quiet_split :=
  split; intros; repeat case_match; cbn; try done; try lia;
  repeat (apply Forall_cons_2; [done|]); try done.

Lemma quiet_sinkNext k : quiet (sinkNext k).
Proof. unfold sinkNext, andThen, set_sink, emit. quiet_split. Qed.

Lemma quiet_mailboxReceive t : quiet (mailboxReceive t).
Proof. unfold mailboxReceive. quiet. Qed.

Lemma quiet_addListener t l : quiet (addListener t l).
Proof. unfold addListener. quiet. Qed.

Lemma quiet_claimBacklog t l : quiet (claimBacklog t l).
Proof. unfold claimBacklog. quiet. Qed.

Lemma quiet_guarded t payload e : silent e -> quiet (guarded t payload (emit e)).
Proof.
  intros He. unfold guarded, emit. split; intros; repeat case_match; cbn; try done;
    by apply Forall_singleton.
Qed.

Lemma quiet_fetchNow params : quiet (fetchNow localDID params).
Proof. unfold fetchNow, emit. quiet_split. Qed.

Lemma quiet_fetchTopic params : quiet (fetchTopic localDID params).
Proof.
  apply quiet_at. intros m. unfold fetchTopic. destruct (jm_get _ _) as [[ready| |]|];
    try (exists (fetchNow localDID params); split; [apply quiet_fetchNow|done]).
  exists (fun m => (set_fetches (<[fresh m:=(params, ready)]> (fetches m)) (next_fresh m), [])).
  split; [quiet|done].
Qed.

Lemma quiet_handNext g rest : quiet (handNext g rest).
Proof. unfold handNext, skip, emit. quiet_split. Qed.

Lemma quiet_finishTurn tn : quiet (finishTurn tn).
Proof.
  apply quiet_at. intros m. unfold finishTurn. eexists. split; [|reflexivity].
  repeat apply quiet_then; [apply quiet_alter_entry| |apply quiet_each; intros; apply quiet_push|quiet].
  case_decide; [apply quiet_releaseClaim|apply quiet_alter_entry].
Qed.

Lemma quiet_turnNext tn : quiet (turnNext tn).
Proof.
  apply quiet_at. intros m. unfold turnNext. destruct (tn_todo tn) as [|l todo].
  - exists (finishTurn tn). split; [apply quiet_finishTurn|done].
  - exists ((fun m => (set_loops (handing m) (Some (mkTurn (tn_message tn) (tn_entry tn) (matchedListeners tn) todo)) m, [])) ▷
      emit (Deliver l (tn_message tn))). split; [quiet|done].
Qed.

Lemma quiet_received message now : quiet (received ackTTLMs message now).
Proof. unfold received, andThen, sweepPending. quiet_split. Qed.

Lemma quiet_drainEnded error : quiet (drainEnded error).
Proof.
  unfold drainEnded. apply quiet_then; [quiet|]. unfold reportEnded, skip, emit. quiet_split.
Qed.

(** ** The invariant

    [n a] counts the calls of [hub.subscribe] attempt [a] has made so far. *)

Record SubInv (n : nat -> nat) (m : Mux) : Prop := {
  live_asking a x : attempts (subs m) !! a = Some x ->
    jm_get (at_topicID x) (subscriptions (subs m)) = Some (asking a);
  live_fresh a x : attempts (subs m) !! a = Some x -> a < fresh m;
  asking_live a t : disposed m = false -> jm_get t (subscriptions (subs m)) = Some (asking a) ->
    ∃ x, attempts (subs m) !! a = Some x ∧ at_topicID x = t;
  live_count a x : attempts (subs m) !! a = Some x -> n a = S (at_attempt x);
  live_attempt a x : attempts (subs m) !! a = Some x -> at_attempt x <= length retryDelaysMs;
  live_backoff a x : attempts (subs m) !! a = Some x -> at_await x ≠ OnHub ->
    at_attempt x < length retryDelaysMs;
  count_bound a : n a <= S (length retryDelaysMs);
  count_fresh a : fresh m <= a -> n a = 0;
}.

(** An act keeps the invariant, its own calls counted in. *)
Definition Sound (act : Act) (m : Mux) : Prop :=
  ∀ n, SubInv n m -> SubInv (fun a => n a + asks a (act m).2) (act m).1.

Lemma SubInv_ext n n' m : (∀ a, n a = n' a) -> SubInv n m -> SubInv n' m.
Proof. intros Hn []. split; intros; rewrite <- ?Hn; eauto. Qed.

Lemma sound_quiet act m : quiet act -> Sound act m.
Proof.
  intros Hq n [].
  assert (Hz : ∀ a, n a + asks a (act m).2 = n a)
    by (intros a; rewrite asks_nothing_zero by apply silent_asks_nothing, Hq; lia).
  split; intros *; rewrite ?Hz, ?(quiet_subs _ Hq), ?(quiet_disposed _ Hq); eauto.
  - intros Ha%live_fresh0. generalize (quiet_fresh _ Hq m). lia.
  - intros Ha. apply count_fresh0. generalize (quiet_fresh _ Hq m). lia.
Qed.

Lemma sound_then act1 act2 m : Sound act1 m -> Sound act2 (act1 m).1 -> Sound (act1 ▷ act2) m.
Proof.
  intros H1 H2 n Hn. unfold andThen. apply H1, H2 in Hn.
  destruct (act1 m) as [m1 out1], (act2 m1) as [m2 out2] eqn:E. cbn [fst snd] in *. rewrite E in Hn. cbn [fst snd] in *.
  eapply SubInv_ext; [|exact Hn]. intros a. cbv beta. rewrite asks_app. lia.
Qed.

Lemma sound_each {A} (f : A -> Act) l m : (∀ x m, Sound (f x) m) -> Sound (each f l) m.
Proof.
  intros Hf. revert m. induction l as [|x l IH]; intros m; cbn; [apply sound_quiet, quiet_skip|].
  by apply sound_then.
Qed.

Lemma asks_one a b p : asks a [HubSubscribe b p] = if decide (b = a) then 1 else 0.
Proof. unfold asks, is_ask. rewrite filter_cons. cbn. by destruct (decide (b = a)), (bool_decide_reflect (b = a)). Qed.

Lemma startSubscribe_eq t options m :
  startSubscribe localDID t options m =
  (set_subs (mkSubs (refcount (subs m)) (jm_set t (asking (fresh m)) (subscriptions (subs m)))
     (<[fresh m := mkAttempt t options 0 OnHub]> (attempts (subs m)))) (next_fresh m),
   [HubSubscribe (fresh m) (mkSubscribe localDID t (o ← options; retention o))]).
Proof. done. Qed.

Lemma sound_startSubscribe t options m :
  (∀ a, jm_get t (subscriptions (subs m)) ≠ Some (asking a)) -> Sound (startSubscribe localDID t options) m.
Proof.
  intros Ht n []. rewrite startSubscribe_eq. split; cbn [fst snd subs set_subs attempts subscriptions disposed fresh next_fresh].
  - intros a x [[<- <-]|[Hne Ha]]%lookup_insert_Some; rewrite jm_get_set; [by rewrite decide_True|].
    rewrite decide_False; [by apply live_asking0|]. intros <-. by eapply Ht, live_asking0.
  - intros a x [[<- <-]|[Hne Ha]]%lookup_insert_Some; [lia|]. apply live_fresh0 in Ha. lia.
  - intros a t' Hd. rewrite jm_get_set. case_decide as Htt; intros Hg; simplify_eq.
    + eexists. by rewrite lookup_insert_eq.
    + destruct (asking_live0 a t' Hd Hg) as (x & Ha & Hx). exists x. split; [|done].
      rewrite lookup_insert_ne; [done|]. apply live_fresh0 in Ha. lia.
  - intros a x [[<- <-]|[Hne Ha]]%lookup_insert_Some; rewrite asks_one.
    + rewrite decide_True by done. by rewrite count_fresh0.
    + rewrite decide_False by done. rewrite (live_count0 _ _ Ha). lia.
  - intros a x [[<- <-]|[Hne Ha]]%lookup_insert_Some; [cbn; lia|by eapply live_attempt0].
  - intros a x [[<- <-]|[Hne Ha]]%lookup_insert_Some; [done|by eapply live_backoff0].
  - intros a. rewrite asks_one. case_decide; [subst; rewrite count_fresh0 by lia; lia|].
    specialize (count_bound0 a). lia.
  - intros a Ha. rewrite asks_one, decide_False by lia. rewrite count_fresh0 by lia. lia.
Qed.

(** The end of an attempt: its topic held, refused, or left as it was by a mux that is disposed. *)
Lemma SubInv_end n m a x s :
  SubInv n m -> attempts (subs m) !! a = Some x -> (∀ a', s ≠ asking a') ->
  SubInv n (set_subs (mkSubs (refcount (subs m)) (jm_set (at_topicID x) s (subscriptions (subs m)))
    (delete a (attempts (subs m)))) m).
Proof.
  intros [] Hx Hs. split; cbn [subs set_subs attempts subscriptions disposed fresh].
  - intros b y [Hne Hb]%lookup_delete_Some. rewrite jm_get_set, decide_False; [by apply live_asking0|].
    intros He. generalize (live_asking0 _ _ Hb), (live_asking0 _ _ Hx). rewrite He. congruence.
  - intros b y [_ Hb]%lookup_delete_Some. by eapply live_fresh0.
  - intros b t Hd. rewrite jm_get_set. case_decide as Ht; intros Hg; [simplify_eq; by destruct (Hs b)|].
    destruct (asking_live0 b t Hd Hg) as (y & Hb & Hy). exists y. split; [|done].
    rewrite lookup_delete_ne; [done|]. intros ->. simplify_eq.
  - intros b y [_ Hb]%lookup_delete_Some. by apply live_count0.
  - intros b y [_ Hb]%lookup_delete_Some. by eapply live_attempt0.
  - intros b y [_ Hb]%lookup_delete_Some. by eapply live_backoff0.
  - done.
  - done.
Qed.

Lemma SubInv_end_disposed n m a :
  SubInv n m -> disposed m = true ->
  SubInv n (set_subs (mkSubs (refcount (subs m)) (subscriptions (subs m)) (delete a (attempts (subs m)))) m).
Proof.
  intros [] Hd. split; cbn [subs set_subs attempts subscriptions disposed fresh]; try done;
    intros b y; try (intros [_ Hb]%lookup_delete_Some; eauto; fail). congruence.
Qed.

(** An attempt that goes on, to a later await of the same ask or to its next one. *)
Lemma SubInv_goes_on n m a x y d :
  SubInv n m -> attempts (subs m) !! a = Some x -> at_topicID y = at_topicID x ->
  at_attempt y = at_attempt x + d -> at_attempt y <= length retryDelaysMs ->
  (at_await y ≠ OnHub -> at_attempt y < length retryDelaysMs) ->
  SubInv (fun b => n b + if decide (a = b) then d else 0)
    (set_subs (mkSubs (refcount (subs m)) (subscriptions (subs m)) (<[a := y]> (attempts (subs m)))) m).
Proof.
  intros [] Hx Ht Hd Hle Hb. split; cbn [subs set_subs attempts subscriptions disposed fresh].
  - intros b z [[<- <-]|[Hne Hz]]%lookup_insert_Some; [rewrite Ht|]; by apply live_asking0.
  - intros b z [[<- <-]|[Hne Hz]]%lookup_insert_Some; by eapply live_fresh0.
  - intros b t Hnd Hg. destruct (asking_live0 b t Hnd Hg) as (z & Hz & Hzt).
    destruct (decide (a = b)) as [->|]; [exists y|exists z].
    + rewrite lookup_insert_eq. simplify_eq. done.
    + by rewrite lookup_insert_ne.
  - intros b z [[<- <-]|[Hne Hz]]%lookup_insert_Some.
    + rewrite decide_True by done. rewrite (live_count0 _ _ Hx). lia.
    + rewrite decide_False by done. rewrite (live_count0 _ _ Hz). lia.
  - intros b z [[<- <-]|[Hne Hz]]%lookup_insert_Some; [done|by eapply live_attempt0].
  - intros b z [[<- <-]|[Hne Hz]]%lookup_insert_Some; [done|by eapply live_backoff0].
  - intros b. case_decide; [subst|specialize (count_bound0 b); lia].
    rewrite (live_count0 _ _ Hx). lia.
  - intros b Hfb. rewrite count_fresh0 by done. rewrite decide_False; [done|].
    apply live_fresh0 in Hx. lia.
Qed.

Lemma SubInv_no_asks n m out : Forall asks_nothing out -> SubInv n m -> SubInv (fun a => n a + asks a out) m.
Proof. intros Ho. apply SubInv_ext. intros a. rewrite asks_nothing_zero by done. lia. Qed.

Lemma sound_subscribed a x m : attempts (subs m) !! a = Some x -> Sound (subscribed a x) m.
Proof.
  intros Hx n Hn. unfold subscribed. destruct (disposed m) eqn:Hd; apply SubInv_no_asks; try by constructor.
  - by apply SubInv_end_disposed.
  - by apply (SubInv_end n m a x held).
Qed.

Lemma sound_latch a x m error permanent :
  attempts (subs m) !! a = Some x ->
  Sound (set_subscription (at_topicID x) (refused error permanent (at_options x)) ▷
    emit (SubscribeFailed (at_topicID x) error permanent) ▷ set_attempt a None) m.
Proof.
  intros Hx n Hn. apply SubInv_no_asks; [by repeat constructor|].
  by apply (SubInv_end n m a x (refused error permanent (at_options x))).
Qed.

Lemma sound_subscribeRejected a x error m :
  attempts (subs m) !! a = Some x -> Sound (subscribeRejected retryDelaysMs a x error) m.
Proof.
  intros Hx n Hn. unfold subscribeRejected. destruct (disposed m) eqn:Hd.
  - apply SubInv_no_asks; [by constructor|]. by apply SubInv_end_disposed.
  - cbn zeta. destruct (isPermanentSubscribeFailure error); [by apply sound_latch|].
    destruct (retryDelaysMs !! at_attempt x) as [delay|] eqn:Hdelay; [|by apply sound_latch].
    apply SubInv_no_asks; [by repeat constructor|].
    eapply SubInv_ext; [|eapply (SubInv_goes_on n m a x _ 0 Hn Hx); try done; cbn;
      try (apply lookup_lt_Some in Hdelay; lia)].
    intros b. cbv beta. case_decide; lia.
Qed.

Lemma wake_kept x :
  at_topicID (wake x) = at_topicID x ∧ at_attempt (wake x) = at_attempt x ∧
  (at_await (wake x) ≠ OnHub -> at_await x ≠ OnHub).
Proof. destruct x as [? ? ? []]; cbn; naive_solver. Qed.

Lemma sound_timer a x m :
  attempts (subs m) !! a = Some x -> Sound (set_attempt a (Some (wake x))) m.
Proof.
  intros Hx n Hn. apply SubInv_no_asks; [by constructor|]. destruct (wake_kept x) as (Ht & Ha & Hw).
  eapply SubInv_ext; [|eapply (SubInv_goes_on n m a x (wake x) 0 Hn Hx); rewrite ?Ha; try done; try lia].
  - intros b. cbv beta. case_decide; lia.
  - by eapply (live_attempt _ _ Hn).
  - intros Ho%Hw. by eapply (live_backoff _ _ Hn).
Qed.

Lemma sound_sleepEnded a x m :
  attempts (subs m) !! a = Some x -> at_await x = OnWake -> Sound (sleepEnded localDID a x) m.
Proof.
  intros Hx Hw n Hn. unfold sleepEnded. destruct (disposed m) eqn:Hd.
  - apply SubInv_no_asks; [by constructor|]. by apply SubInv_end_disposed.
  - generalize (live_backoff _ _ Hn _ _ Hx). rewrite Hw. intros Hlt.
    eapply SubInv_ext; [|eapply (SubInv_goes_on n m a x (mkAttempt (at_topicID x) (at_options x) (S (at_attempt x)) OnHub) 1 Hn Hx);
      cbn; [done|lia|by apply Hlt|done]].
    intros b. cbv beta. cbn [snd ask andThen set_attempt emit app]. by rewrite asks_one.
Qed.

(** Counts of listeners say nothing about subscriptions. *)
Lemma sound_set_refcount t c m : Sound (set_refcount t c) m.
Proof.
  intros n []. apply SubInv_no_asks; [by constructor|]. by split.
Qed.

Lemma sound_release t m : Sound (release t) m.
Proof.
  intros n Hn. unfold release. case_match; [by apply sound_quiet; [apply quiet_skip|]|].
  by apply sound_set_refcount.
Qed.

Lemma sound_retain t options m : Sound (retain localDID t options) m.
Proof.
  intros n Hn. unfold retain. apply sound_then; [apply sound_set_refcount| |done].
  destruct (jm_get t _) as [s|] eqn:E; [|by apply sound_startSubscribe; cbn; intros; rewrite E].
  destruct (reasks options s) eqn:Er; [|apply sound_quiet, quiet_skip].
  apply sound_startSubscribe; cbn; intros a; rewrite E. by destruct s.
Qed.

Lemma sound_rearmTopic t m : Sound (rearmTopic localDID t) m.
Proof.
  intros n Hn. unfold rearmTopic. destruct (disposed m) eqn:Hd; [by apply sound_quiet; [apply quiet_skip|]|].
  destruct (jm_get t _) as [[| |error permanent options]|] eqn:E; try (apply sound_quiet; [apply quiet_skip|done]).
  cbn zeta.
  set (m1 := set_subs (mkSubs (refcount (subs m)) (jm_delete t (subscriptions (subs m))) (attempts (subs m))) m).
  assert (Hn1 : SubInv n m1).
  { destruct Hn. split; cbn; try done.
    - intros a x Ha. rewrite jm_get_delete, decide_False; [by apply live_asking0|].
      intros He. apply live_asking0 in Ha. congruence.
    - intros a t' _. rewrite jm_get_delete. case_decide; [done|]. by apply asking_live0. }
  case_match; [|by apply sound_quiet; [apply quiet_skip|]].
  apply sound_startSubscribe; [|done]. intros a. cbn. rewrite jm_get_delete. by case_decide.
Qed.

Lemma sound_rearmRefusedTopics m : Sound (rearmRefusedTopics localDID) m.
Proof.
  intros n Hn. unfold rearmRefusedTopics. destruct (disposed m); [by apply sound_quiet; [apply quiet_skip|]|].
  apply sound_each; [|done]. intros t m'. apply sound_rearmTopic.
Qed.

(** Ending every sleep: attempts keep their topics and their counts. *)
Lemma SubInv_wake n m :
  SubInv n m ->
  SubInv n (set_subs (mkSubs (refcount (subs m)) (subscriptions (subs m)) (wake <$> attempts (subs m))) m).
Proof.
  intros []. split; cbn [subs set_subs attempts subscriptions disposed fresh]; try done.
  all: try (intros a y (x & <- & Ha)%lookup_fmap_Some; destruct (wake_kept x) as (Ht & Hn & Ho); rewrite ?Ht, ?Hn; eauto).
  intros a t Hd Hg. destruct (asking_live0 a t Hd Hg) as (x & Ha & Hx). exists (wake x).
  rewrite lookup_fmap, Ha. destruct (wake_kept x) as [-> _]. done.
Qed.

Lemma sound_dispose m : Sound dispose m.
Proof.
  intros n Hn. unfold dispose. destruct (disposed m) eqn:Hd; [by apply sound_quiet; [apply quiet_skip|]|].
  repeat apply sound_then; try exact Hn; try (by apply sound_quiet; quiet).
  - intros k Hk. apply SubInv_no_asks; [by constructor|]. destruct Hk; by split.
  - intros k Hk. apply SubInv_no_asks; [by constructor|]. by apply SubInv_wake.
  - intros k Hk. apply sound_each; [|done]. intros. apply sound_quiet, quiet_closeSink.
  - intros k Hk. apply SubInv_no_asks; [by constructor|]. destruct Hk; by split.
Qed.

Lemma sound_unlisten r m : Sound (unlisten r) m.
Proof.
  intros n Hn. unfold unlisten. destruct (registrations m !! r) as [[t l []]|];
    try exact (sound_quiet skip m quiet_skip n Hn).
  cbn zeta. apply sound_then; [|apply sound_release|done]. apply sound_quiet. quiet.
Qed.

Lemma sound_onInbound t l options now m : Sound (onInbound localDID ackTTLMs t l options now) m.
Proof.
  unfold onInbound. apply sound_then; [apply sound_then; [apply sound_then|]|];
    [apply sound_quiet, quiet_addListener|apply sound_retain|apply sound_quiet, quiet_sweepPending
    |apply sound_quiet, quiet_claimBacklog].
Qed.

(** ** Every step keeps it *)

Lemma quiet_continue m m' out : continue m = Some (m', out) -> ∃ act, quiet act ∧ (m', out) = act m.
Proof.
  unfold continue. destruct (handing m) as [|g rest]; [destruct (turn m) as [tn|]; [|done]|]; intros [= <-].
  - exists (turnNext tn). split; [apply quiet_turnNext|done].
  - exists (handNext g rest). split; [apply quiet_handNext|done].
Qed.

Lemma answered_inv a w f m r :
  answered a w f m = Some r -> ∃ x, attempts (subs m) !! a = Some x ∧ at_await x = w ∧ f a x m = r.
Proof.
  unfold answered. destruct (attempts (subs m) !! a) as [x|]; [|done]. intros H. exists x.
  destruct (at_await x), w; naive_solver.
Qed.

Lemma whenRested_inv {A} m (o : option A) r : (if at_rest m then o else None) = Some r -> at_rest m = true ∧ o = Some r.
Proof. by destruct (at_rest m). Qed.

(** The step of an event as an act, told apart by what it does to the subscriptions. *)
Inductive SubAct (e : Event) (m : Mux) : Act -> Prop :=
  | sa_quiet act : quiet act -> SubAct e m act
  | sa_retain t options : SubAct e m (retain localDID t options)
  | sa_rearm t : e = RearmTopic t -> SubAct e m (rearmTopic localDID t)
  | sa_rearm_all : e = RearmRefusedTopics -> SubAct e m (rearmRefusedTopics localDID)
  | sa_inbound t l options now : SubAct e m (onInbound localDID ackTTLMs t l options now)
  | sa_unlisten r : SubAct e m (unlisten r)
  | sa_release t : SubAct e m (release t)
  | sa_dispose : SubAct e m dispose
  | sa_subscribed a x : attempts (subs m) !! a = Some x -> SubAct e m (subscribed a x)
  | sa_rejected a x error : attempts (subs m) !! a = Some x ->
      SubAct e m (subscribeRejected retryDelaysMs a x error)
  | sa_timer a x : attempts (subs m) !! a = Some x -> SubAct e m (set_attempt a (Some (wake x)))
  | sa_ended a x : attempts (subs m) !! a = Some x -> at_await x = OnWake -> SubAct e m (sleepEnded localDID a x).

Lemma quiet_fetchReady f m r : fetchReady localDID f m = Some r -> ∃ act, quiet act ∧ r = act m.
Proof.
  unfold fetchReady. destruct (fetches m !! f) as [[params ready]|]; [|done].
  destruct (attempts (subs m) !! ready); [done|]. intros [= <-].
  exists ((fun m => (set_fetches (delete f (fetches m)) m, [])) ▷ fetchNow localDID params).
  split; [|unfold andThen; by destruct (fetchNow _ _ _)]. apply quiet_then; [quiet|apply quiet_fetchNow].
Qed.

Lemma step_SubAct e m r : step e m = Some r -> ∃ act, SubAct e m act ∧ r = act m.
Proof.
  intros Hs.
  destruct e; cbv beta iota zeta delta [HubMux.step] in Hs; try apply whenRested_inv in Hs as [_ Hs];
    try (apply (inj Some) in Hs; eexists; split; [|symmetry; exact Hs]; try by constructor);
    try (apply answered_inv in Hs as (x & Hx & Hw & Hs); eexists; split; [|symmetry; exact Hs]; by constructor);
    try (apply sa_quiet; first [apply quiet_releaseClaim|apply quiet_mailboxReceive|apply quiet_sinkNext
      |apply quiet_abandonSink|apply quiet_fetchTopic|unfold suspendPublishing; quiet; done
      |apply quiet_guarded; done]).
  - destruct r. apply quiet_continue in Hs as (act & Hq & ->). exists act. split; [by apply sa_quiet|done].
  - apply quiet_fetchReady in Hs as (act & Hq & ->). exists act. split; [by apply sa_quiet|done].
  - destruct (draining m); [|done]. apply (inj Some) in Hs. eexists. split; [|symmetry; exact Hs].
    apply sa_quiet, quiet_received.
  - destruct (draining m); [|done]. apply (inj Some) in Hs. eexists. split; [|symmetry; exact Hs].
    apply sa_quiet, quiet_drainEnded.
Qed.

Lemma step_sound e m m' out n :
  step e m = Some (m', out) -> SubInv n m -> SubInv (fun a => n a + asks a out) m'.
Proof.
  intros (act & Ha & Hr)%step_SubAct Hn. assert (Sound act m) as Hact; [|generalize (Hact n Hn); by rewrite <- Hr].
  destruct Ha.
  - by apply sound_quiet.
  - apply sound_retain.
  - apply sound_rearmTopic.
  - apply sound_rearmRefusedTopics.
  - apply sound_onInbound.
  - apply sound_unlisten.
  - apply sound_release.
  - apply sound_dispose.
  - by apply sound_subscribed.
  - by apply sound_subscribeRejected.
  - by apply sound_timer.
  - by apply sound_sleepEnded.
Qed.

Lemma trace_inv tr m : trace tr m -> SubInv (fun a => asks a (effects tr)) m.
Proof.
  induction 1 as [|tr m e m' out Htr IH Hs].
  - split; cbn; try done. unfold asks. cbn. lia.
  - eapply SubInv_ext; [|eapply (step_sound _ _ _ _ _ Hs IH)].
    intros a. cbv beta. rewrite effects_app, asks_app. cbn [effects flat_map snd]. by rewrite app_nil_r.
Qed.

(** ** An ask settles

    [answer n] is what the hub answers the attempt's request number [n] with: [None] when it accepts. *)

Definition next_event (answer : nat -> option Thrown) (a : nat) (x : Attempt) : Event :=
  match at_await x with
  | OnHub => match answer (at_attempt x) with None => Subscribed a | Some error => SubscribeRejected a error end
  | OnSleep => TimerFired a
  | OnWake => SleepEnded a
  end.

Fixpoint settle (answer : nat -> option Thrown) (a : nat) (fuel : nat) (m : Mux) : Mux :=
  match fuel, attempts (subs m) !! a with
  | S fuel', Some x =>
    match step (next_event answer a x) m with
    | Some (m', _) => settle answer a fuel' m'
    | None => m
    end
  | _, _ => m
  end.

(** The state the answers lead to: the first acceptance, the first permanent refusal or, the schedule
    run out, the last failure. *)
Fixpoint verdict (answer : nat -> option Thrown) (options : option HubSubscribeOptions) (n : nat)
    (delays : list Z) : TopicSubscription :=
  match answer n with
  | None => held
  | Some error =>
    if isPermanentSubscribeFailure error then refused error true options
    else match delays with
    | [] => refused error false options
    | _ :: delays' => verdict answer options (S n) delays'
    end
  end.

Definition next_request (x : Attempt) : nat :=
  match at_await x with OnHub => at_attempt x | _ => S (at_attempt x) end.

(** The steps left to an attempt at worst. *)
Definition steps_left (x : Attempt) : nat :=
  let rest := 3 * (length retryDelaysMs - at_attempt x) in
  match at_await x with OnHub => S rest | OnSleep => rest | OnWake => rest - 1 end.

Lemma settle_gone answer a fuel m : attempts (subs m) !! a = None -> settle answer a fuel m = m.
Proof. intros Ha. destruct fuel; [done|]. cbn. by rewrite Ha. Qed.

Lemma at_rest_set_subs s m : at_rest (set_subs s m) = at_rest m.
Proof. done. Qed.

(** What the next event does to the attempt. *)
Lemma next_event_step answer a x m n :
  SubInv n m -> at_rest m = true -> disposed m = false -> attempts (subs m) !! a = Some x ->
  let delays := drop (next_request x) retryDelaysMs in
  ∃ m' out, step (next_event answer a x) m = Some (m', out) ∧ at_rest m' = true ∧ disposed m' = false ∧
    ((attempts (subs m') !! a = None ∧
      jm_get (at_topicID x) (subscriptions (subs m')) = Some (verdict answer (at_options x) (next_request x) delays)) ∨
     ∃ y, attempts (subs m') !! a = Some y ∧ at_topicID y = at_topicID x ∧ at_options y = at_options x ∧
       steps_left y < steps_left x ∧
       verdict answer (at_options x) (next_request x) delays =
       verdict answer (at_options y) (next_request y) (drop (next_request y) retryDelaysMs)).
Proof.
  intros Hn Hr Hd Hx delays.
  generalize (live_attempt _ _ Hn _ _ Hx), (live_backoff _ _ Hn _ _ Hx). intros Hle Hlt.
  unfold next_event, steps_left, next_request in *. subst delays.
  destruct (at_await x) eqn:Hw; [destruct (answer (at_attempt x)) as [error|] eqn:Ha|..];
    cbv beta iota zeta delta [HubMux.step]; rewrite ?Hr; unfold answered; rewrite Hx, Hw.
  - unfold subscribeRejected. rewrite Hd.
    destruct (retryDelaysMs !! at_attempt x) as [delay|] eqn:Hdelay.
    + rewrite (drop_S _ _ _ Hdelay). cbn [verdict]. rewrite Ha.
      destruct (isPermanentSubscribeFailure error); do 2 eexists; (split; [reflexivity|]); (split; [done|]); (split; [done|]); cbn.
      * left. rewrite lookup_partial_alter_eq, jm_get_set, decide_True by done. done.
      * right. eexists. rewrite lookup_partial_alter_eq. split; [done|]. cbn.
        apply lookup_lt_Some in Hdelay. repeat split; lia.
    + apply lookup_ge_None in Hdelay. rewrite drop_ge by done. cbn [verdict]. rewrite Ha.
      destruct (isPermanentSubscribeFailure error); do 2 eexists; (split; [reflexivity|]); (split; [done|]); (split; [done|]); cbn;
        left; rewrite lookup_partial_alter_eq, jm_get_set, decide_True by done; done.
  - unfold subscribed. rewrite Hd. do 2 eexists; split; [reflexivity|]. split; [done|]. split; [done|].
    left. cbn. rewrite lookup_partial_alter_eq, jm_get_set, decide_True by done. split; [done|].
    by destruct (drop _ _); cbn; rewrite Ha.
  - do 2 eexists; split; [reflexivity|]. split; [done|]. split; [done|]. right.
    exists (wake x). cbn. rewrite lookup_partial_alter_eq. unfold wake. rewrite Hw. cbn.
    specialize (Hlt ltac:(done)). repeat split; lia.
  - unfold sleepEnded. rewrite Hd. do 2 eexists; split; [reflexivity|]. split; [done|]. split; [done|]. right.
    eexists. cbn. rewrite lookup_partial_alter_eq. split; [done|]. cbn.
    specialize (Hlt ltac:(done)). repeat split; lia.
Qed.

Lemma settle_verdict answer a fuel : ∀ n m x,
  SubInv n m -> at_rest m = true -> disposed m = false -> attempts (subs m) !! a = Some x ->
  steps_left x < fuel ->
  attempts (subs (settle answer a fuel m)) !! a = None ∧
  jm_get (at_topicID x) (subscriptions (subs (settle answer a fuel m))) =
    Some (verdict answer (at_options x) (next_request x) (drop (next_request x) retryDelaysMs)).
Proof.
  induction fuel as [|fuel IH]; [lia|]. intros n m x Hn Hr Hd Hx Hf. cbn [settle]. rewrite Hx.
  destruct (next_event_step answer a x m n Hn Hr Hd Hx) as (m' & out & Hs & Hr' & Hd' & [[Ha Hg]|(y & Hy & Ht & Ho & Hless & Hv)]);
    rewrite Hs.
  - by rewrite settle_gone.
  - rewrite Hv, <- Ht. eapply IH; [by eapply step_sound|done..|lia].
Qed.

(** ** A refusal is latched *)

Section latch.
Context (t : string) (error : Thrown) (permanent : bool) (options : option HubSubscribeOptions).

Definition latched (m : Mux) : Prop :=
  jm_get t (subscriptions (subs m)) = Some (refused error permanent options).

(** No call of [hub.subscribe] for the topic. *)
Definition unasked (out : list Effect) : Prop := ∀ a p, HubSubscribe a p ∈ out -> sp_topicID p ≠ t.

Definition Latches (act : Act) (m : Mux) : Prop := latched m -> unasked (act m).2 -> latched (act m).1.

Lemma latches_quiet act m : quiet act -> Latches act m.
Proof. intros Hq Hl _. unfold latched. by rewrite (quiet_subs _ Hq). Qed.

Lemma latches_then act1 act2 m : Latches act1 m -> Latches act2 (act1 m).1 -> Latches (act1 ▷ act2) m.
Proof.
  unfold Latches, andThen. destruct (act1 m) as [m1 out1]. cbn [fst snd].
  destruct (act2 m1) as [m2 out2]. cbn [fst snd]. intros H1 H2 Hl Hu.
  apply H2; [apply H1; [done|]|]; intros a p Hp; apply (Hu a p), elem_of_app; auto.
Qed.

Lemma latches_each {A} (f : A -> Act) l m : (∀ x m, Latches (f x) m) -> Latches (each f l) m.
Proof.
  intros Hf. revert m. induction l as [|x l IH]; intros m; cbn; [apply latches_quiet, quiet_skip|].
  by apply latches_then.
Qed.

(** A write to a subscription other than the topic's, or to no subscription. *)
Lemma latches_same act m :
  (latched m -> jm_get t (subscriptions (subs (act m).1)) = jm_get t (subscriptions (subs m))) -> Latches act m.
Proof. intros H Hl _. unfold latched. by rewrite H. Qed.

Lemma latches_startSubscribe t' o m : Latches (startSubscribe localDID t' o) m.
Proof.
  intros Hl Hu. rewrite startSubscribe_eq in *. unfold latched. cbn in *. rewrite jm_get_set.
  case_decide as Ht; [|done]. destruct (Hu (fresh m) (mkSubscribe localDID t' (o ← o; retention o))); set_solver.
Qed.

Lemma latches_retain t' o m : Latches (retain localDID t' o) m.
Proof.
  unfold retain. apply latches_then; [by apply latches_same|].
  repeat case_match; first [apply latches_startSubscribe|apply latches_quiet, quiet_skip].
Qed.

Lemma latches_rearmTopic t' m : t' ≠ t -> Latches (rearmTopic localDID t') m.
Proof.
  intros Ht Hl. unfold rearmTopic. destruct (disposed m); [done|].
  destruct (jm_get t' _) as [[| |e' p' o']|]; try done.
  cbn zeta. case_match; [apply latches_startSubscribe|intros _];
    unfold latched; cbn; by rewrite jm_get_delete, decide_False.
Qed.

Lemma latches_release t' m : Latches (release t') m.
Proof. apply latches_same. intros _. unfold release. by case_match. Qed.

Lemma latches_onInbound t' l o now m : Latches (onInbound localDID ackTTLMs t' l o now) m.
Proof.
  unfold onInbound. apply latches_then; [apply latches_then; [apply latches_then|]|];
    [apply latches_quiet, quiet_addListener|apply latches_retain|apply latches_quiet, quiet_sweepPending
    |apply latches_quiet, quiet_claimBacklog].
Qed.

Lemma latches_unlisten r m : Latches (unlisten r) m.
Proof.
  intros Hl. unfold unlisten. destruct (registrations m !! r) as [[t' l []]|]; [done| |done].
  cbn zeta. apply latches_then; [by apply latches_same|apply latches_release|done].
Qed.

Lemma latches_dispose m : Latches dispose m.
Proof.
  intros Hl. unfold dispose. destruct (disposed m); [done|].
  repeat apply latches_then; try done; try (by apply latches_same).
  intros Hl'. apply latches_each; [|done]. intros. apply latches_quiet, quiet_closeSink.
Qed.

(** An attempt that is alive is for a topic that is [asking], so not for this one. *)
Lemma latches_other n a x m act :
  SubInv n m -> attempts (subs m) !! a = Some x ->
  (at_topicID x ≠ t -> jm_get t (subscriptions (subs (act m).1)) = jm_get t (subscriptions (subs m))) -> Latches act m.
Proof.
  intros Hn Hx H. apply latches_same. intros Hl. apply H. intros <-.
  generalize (live_asking _ _ Hn _ _ Hx). unfold latched in Hl. congruence.
Qed.

(** Nothing but a refusal reports one, and it latches what it reports. *)
Definition reports_nothing (e : Effect) : Prop := match e with SubscribeFailed _ _ _ => False | _ => True end.

Definition Unreported (act : Act) : Prop := ∀ m, Forall reports_nothing (act m).2.

Lemma unreported_quiet act : quiet act -> Unreported act.
Proof. intros Hq m. eapply Forall_impl; [apply Hq|]. by intros []. Qed.

Lemma unreported_then act1 act2 : Unreported act1 -> Unreported act2 -> Unreported (act1 ▷ act2).
Proof.
  intros H1 H2 m. unfold andThen. specialize (H1 m). destruct (act1 m) as [m1 out1].
  specialize (H2 m1). destruct (act2 m1) as [m2 out2]. by apply Forall_app_2.
Qed.

Lemma unreported_each {A} (f : A -> Act) l : (∀ x, Unreported (f x)) -> Unreported (each f l).
Proof. intros Hf. induction l as [|x l IH]; [by intros m; constructor|]. by apply unreported_then. Qed.

Lemma unreported_startSubscribe t' o : Unreported (startSubscribe localDID t' o).
Proof. intros m. by repeat constructor. Qed.

Lemma unreported_retain t' o : Unreported (retain localDID t' o).
Proof.
  intros m. unfold retain. apply unreported_then; [by intros m'; constructor|].
  repeat case_match; first [apply unreported_startSubscribe|apply unreported_quiet, quiet_skip].
Qed.

Lemma unreported_rearmTopic t' : Unreported (rearmTopic localDID t').
Proof. intros m. unfold rearmTopic. repeat case_match; try exact (Forall_nil_2 _); apply unreported_startSubscribe. Qed.

Lemma unreported_release t' : Unreported (release t').
Proof. intros m. unfold release. case_match; exact (Forall_nil_2 _). Qed.

Lemma unreported_dispose : Unreported dispose.
Proof.
  intros m. unfold dispose. case_match; [exact (Forall_nil_2 _)|].
  repeat apply unreported_then; try (intros m'; by repeat constructor).
  intros m'. apply unreported_each. intros. apply unreported_quiet, quiet_closeSink.
Qed.

Lemma SubAct_reports e m act error' permanent' :
  SubAct e m act -> SubscribeFailed t error' permanent' ∈ (act m).2 ->
  ∃ o, jm_get t (subscriptions (subs (act m).1)) = Some (refused error' permanent' o).
Proof.
  intros Ha. assert (Unreported act ∨ ∃ a x error, act = subscribeRejected retryDelaysMs a x error) as [Hu|(a & x & e' & ->)].
  { destruct Ha; try (right; by eauto); left.
    - by apply unreported_quiet.
    - apply unreported_retain.
    - apply unreported_rearmTopic.
    - intros m'. unfold rearmRefusedTopics. case_match; [exact (Forall_nil_2 _)|]. apply unreported_each, unreported_rearmTopic.
    - unfold onInbound. apply unreported_then; [apply unreported_then; [apply unreported_then|]|];
        first [apply unreported_retain|intros m'; constructor].
    - intros m'. unfold unlisten. repeat case_match; try exact (Forall_nil_2 _);
      (apply unreported_then; [intros m''; constructor|apply unreported_release]).
    - apply unreported_release.
    - apply unreported_dispose.
    - intros m'. unfold subscribed. case_match; by repeat constructor.
    - intros m'. constructor.
    - intros m'. unfold sleepEnded. case_match; by repeat constructor. }
  - intros Hin. specialize (Hu m). rewrite Forall_forall in Hu. by apply Hu in Hin.
  - unfold subscribeRejected. repeat case_match; cbn; rewrite ?elem_of_cons, ?elem_of_nil;
      intros Hin; destruct_or?; simplify_eq; eexists; rewrite jm_get_set; by rewrite decide_True.
Qed.

Definition rearms (e : Event) : Prop := e = RearmTopic t ∨ e = RearmRefusedTopics.

Lemma step_latches n e m m' out :
  step e m = Some (m', out) -> SubInv n m -> ¬ rearms e -> latched m -> unasked out -> latched m'.
Proof.
  intros (act & Ha & Hr)%step_SubAct Hn He.
  assert (Latches act m) as Hact; [|generalize Hact; unfold Latches; by rewrite <- Hr].
  destruct Ha.
  - by apply latches_quiet.
  - apply latches_retain.
  - apply latches_rearmTopic. intros ->. by destruct He; left.
  - by destruct He; right.
  - apply latches_onInbound.
  - apply latches_unlisten.
  - apply latches_release.
  - apply latches_dispose.
  - eapply latches_other; [done..|]. intros Ht. unfold subscribed.
    case_match; cbn; by rewrite ?jm_get_set, ?decide_False.
  - eapply latches_other; [done..|]. intros Ht. unfold subscribeRejected.
    repeat case_match; cbn; by rewrite ?jm_get_set, ?decide_False.
  - by apply latches_same.
  - eapply latches_other; [done..|]. intros Ht. unfold sleepEnded. by case_match.
Qed.

Lemma trace_latches tr1 tr2 m1 m :
  trace tr1 m1 -> latched m1 -> trace (tr1 ++ tr2) m ->
  (∀ e out, (e, out) ∈ tr2 -> ¬ rearms e ∧ unasked out) -> latched m.
Proof.
  intros H1 Hl. revert m. induction tr2 as [|[e out] tr2 IH] using rev_ind; intros m Htr H2.
  - rewrite app_nil_r in Htr. by rewrite <- (mtrace_det _ _ _ H1 Htr).
  - rewrite app_assoc in Htr. apply mtrace_snoc_inv in Htr as (m0 & Htr & Hs).
    destruct (H2 e out) as [He Hu]; [set_solver|].
    eapply (step_latches _ _ _ _ _ Hs (trace_inv _ _ Htr) He); [|done]. apply IH; [done..|]. set_solver.
Qed.
End latch.

(** C30. Once the mux has reported a topic's subscription refused, then, whatever happens afterwards, as
    long as the topic is not rearmed and the hub is not asked for it again, every publish on it by any of
    the three routes and every fetch of it rejects with the hub's own error, reaching the hub with
    nothing; a mux whose publishing was suspended rejects the publishes for that reason first. *)
Theorem refusal_latched tr1 e out tr2 m t error permanent :
  trace (tr1 ++ (e, out) :: tr2) m ->
  SubscribeFailed t error permanent ∈ out ->
  (∀ e' out', (e', out') ∈ tr2 -> ¬ rearms t e' ∧ unasked t out') ->
  let no := if publishSuspended m then PeerDisposedError "mux: publish after dispose" else HubRefused error in
  (∀ payload, busPublish localDID t payload m = (m, [Rejected no])) ∧
  (∀ p, pp_topicID p = t -> mailboxPublish p m = (m, [Rejected no]) ∧ publish localDID p m = (m, [Rejected no])) ∧
  (∀ p, ft_topicID p = t -> fetchTopic localDID p m = (m, [Rejected (HubRefused error)])).
Proof.
  intros Htr Hfail Hafter. rewrite cons_middle, app_assoc in Htr.
  destruct (mtrace_prefix _ _ _ Htr) as [m1 Htr1].
  assert (∃ o, latched t error permanent o m1) as [o Hl1].
  { apply mtrace_snoc_inv in Htr1 as (m0 & _ & (act & Ha & Hr)%step_SubAct).
    generalize (SubAct_reports t _ _ _ error permanent Ha). rewrite <- Hr. intros Hgo. by apply Hgo. }
  generalize (trace_latches _ _ _ _ _ _ _ _ Htr1 Hl1 Htr Hafter). unfold latched. intros Hl.
  unfold mailboxPublish, publish, busPublish, fetchTopic, fetchNow, guarded, assertSubscribable.
  repeat split; intros; subst; rewrite Hl; by destruct (publishSuspended m).
Qed.

(** C27. In any run of the mux: an attempt asks the hub at most once more than the schedule has delays; two
    attempts never ask for one topic at once; and an attempt still asking, in a mux that is not disposed,
    settles: whatever the hub answers its remaining requests, a bounded number of steps ends it with the
    topic held at the first acceptance, or refused at the first permanent refusal, or refused for the
    last failure once the schedule is spent. *)
Theorem ask_settles tr m :
  trace tr m ->
  (∀ a, asks a (effects tr) <= S (length retryDelaysMs)) ∧
  (∀ a b x y, attempts (subs m) !! a = Some x -> attempts (subs m) !! b = Some y ->
    at_topicID x = at_topicID y -> a = b) ∧
  (∀ a x answer, attempts (subs m) !! a = Some x -> disposed m = false -> at_rest m = true ->
    let m' := settle answer a (3 * S (length retryDelaysMs)) m in
    attempts (subs m') !! a = None ∧
    jm_get (at_topicID x) (subscriptions (subs m')) =
      Some (verdict answer (at_options x) (next_request x) (drop (next_request x) retryDelaysMs))).
Proof.
  intros Hinv%trace_inv. split; [apply (count_bound _ _ Hinv)|]. split.
  - intros a b x y Ha Hb Ht. apply (live_asking _ _ Hinv) in Ha, Hb. congruence.
  - intros a x answer Hx Hd Hr. eapply settle_verdict; [done..|]. unfold steps_left. case_match; lia.
Qed.
End subs.

(** ** A run of it *)

Module Refused.
Definition delays : list Z := [100]%Z.
Definition tooLong : Thrown := HubError RetentionExceededError "retention".
Definition events : list Event :=
  [RetainTopic "t" (Some (mkOptions (Some 9000%Z))); SubscribeRejected 0 (OtherError "offline");
   TimerFired 0; SleepEnded 0; SubscribeRejected 0 tooLong;
   RetainTopic "t" None; BusPublish "t" []].
Definition final : Mux * Trace := default (createHubMux, []) (run "did:a" delays 60000 events createHubMux).

Lemma refused_trace : trace "did:a" delays 60000 final.2 final.1.
Proof.
  apply (mrun_init events). vm_compute. reflexivity.
Qed.

Lemma refused_split : final.2 = take 4 final.2 ++
  (SubscribeRejected 0 tooLong, [SubscribeFailed "t" tooLong true]) :: drop 5 final.2.
Proof. vm_compute. reflexivity. Qed.

Lemma nothing_asked : Forall (fun eo => ¬ rearms "t" eo.1 ∧ unasked "t" eo.2) (drop 5 final.2).
Proof.
  assert (drop 5 final.2 = [(RetainTopic "t" None, []); (BusPublish "t" [], [Rejected (HubRefused tooLong)])]) as ->
    by (vm_compute; reflexivity).
  repeat constructor; try (by intros [|]); intros a p; set_solver.
Qed.
End Refused.

Lemma refusal_latched_witness :
  busPublish "did:a" "t" [] Refused.final.1 = (Refused.final.1, [Rejected (HubRefused Refused.tooLong)]).
Proof.
  refine (proj1 (refusal_latched "did:a" Refused.delays 60000 (take 4 Refused.final.2)
    (SubscribeRejected 0 Refused.tooLong) [SubscribeFailed "t" Refused.tooLong true] (drop 5 Refused.final.2)
    Refused.final.1 "t" Refused.tooLong true _ _ _) []).
  - rewrite <- Refused.refused_split. exact Refused.refused_trace.
  - constructor.
  - intros e out. apply (proj1 (Forall_forall (fun eo => ¬ rearms "t" eo.1 ∧ unasked "t" eo.2) (drop 5 Refused.final.2))
      Refused.nothing_asked (e, out)).
Defined.

Lemma ask_settles_witness :
  let '(m, tr) := default (createHubMux, []) (run "did:a" Refused.delays 60000 (take 2 Refused.events) createHubMux) in
  jm_get "t" (subscriptions (subs (settle "did:a" Refused.delays 60000 (fun _ => None) 0 6 m))) = Some held.
Proof.
  refine (proj2 (proj2 (proj2 (ask_settles "did:a" Refused.delays 60000
    (default (createHubMux, []) (run "did:a" Refused.delays 60000 (take 2 Refused.events) createHubMux)).2 _ _)) 0
    (mkAttempt "t" (Some (mkOptions (Some 9000%Z))) 0 OnSleep) (fun _ => None) _ _ _)).
  - apply (mrun_init (take 2 Refused.events)). vm_compute. reflexivity.
  - vm_compute; reflexivity.
  - reflexivity.
  - reflexivity.
Defined.
