(* ===== verification/HubMuxClaims.v ===== *)
(** * The claims of the hub mux

    How the acts of the mux treat the pending claims, whatever the readers of a frame do: which leave them
    alone, and that the others pay for every acknowledgement with a claim and keep the claims they leave in
    their order. *)

From S2P Require Import Prelude HubProtocol Codecs HubMux HubMuxSubs.

Abbreviation Entry := (string * PendingAck)%type.

(** Effects that hand no frame to anyone and acknowledge none. *)
Definition mute (e : Effect) : Prop :=
  match e with HubAck _ | Deliver _ _ | Pushed _ _ => False | _ => True end.

Lemma mute_no_ack s out : Forall mute out -> HubAck s ∉ out.
Proof. intros H Hin. rewrite Forall_forall in H. by apply H in Hin. Qed.

(** ** Acts that leave the claims alone *)

(** An act that leaves the claims and the loops alone. *)
Record still (act : Act) : Prop := {
  still_claims m : (pending (act m).1, handing (act m).1, turn (act m).1, disposed (act m).1) =
    (pending m, handing m, turn m, disposed m);
  still_fresh m : fresh m <= fresh (act m).1;
  still_mute m : Forall mute (act m).2;
}.

Lemma still_skip : still skip.
Proof. by split. Qed.

Lemma still_emit e : mute e -> still (emit e).
Proof. split; intros; cbn; try done. by apply Forall_singleton. Qed.

Lemma still_then act1 act2 : still act1 -> still act2 -> still (act1 ▷ act2).
Proof.
  intros H1 H2. unfold andThen. split; intros m;
    destruct (act1 m) as [m1 out1] eqn:E1, (act2 m1) as [m2 out2] eqn:E2; cbn.
  - generalize (still_claims _ H1 m), (still_claims _ H2 m1). rewrite E1, E2. cbn. congruence.
  - generalize (still_fresh _ H1 m), (still_fresh _ H2 m1). rewrite E1, E2. cbn. lia.
  - generalize (still_mute _ H1 m), (still_mute _ H2 m1). rewrite E1, E2. cbn. by apply Forall_app_2.
Qed.

Lemma still_each {A} (f : A -> Act) l : (∀ x, still (f x)) -> still (each f l).
Proof. intros Hf. induction l as [|x l IH]; [apply still_skip|]. by apply still_then. Qed.

Lemma still_at (act : Act) : (∀ m, ∃ act', still act' ∧ act m = act' m) -> still act.
Proof. intros H. split; intros m; destruct (H m) as (act' & Hs & ->); by apply Hs. Qed.

Lemma still_write (f : Mux -> Mux) :
  (∀ m, (pending (f m), handing (f m), turn (f m), disposed (f m)) = (pending m, handing m, turn m, disposed m) ∧
    fresh m <= fresh (f m)) -> still (fun m => (f m, [])).
Proof. intros H. by split; intros; cbn; try apply H. Qed.

Ltac still :=
  repeat first
    [ apply still_skip | apply still_then | apply still_each; intros
    | apply still_emit; done
    | apply still_write; intros; cbn; repeat split; lia ].

(** By the state, one of several acts. *)
Ltac still_by_cases :=
  apply still_at; intros ?; repeat case_match; eexists; (split; [|reflexivity]); still.

Section claims.
Context (localDID : string) (retryDelaysMs : list Z) (ackTTLMs : Z).

Lemma still_set_subscription t s : still (set_subscription t s).
Proof. unfold set_subscription. still. Qed.

Lemma still_set_refcount t c : still (set_refcount t c).
Proof. unfold set_refcount. still. Qed.

Lemma still_set_attempt a x : still (set_attempt a x).
Proof. unfold set_attempt. still. Qed.

Lemma still_ask a t o n : still (ask localDID a t o n).
Proof. unfold ask. apply still_then; [apply still_set_attempt|still]. Qed.

Lemma still_startSubscribe t o : still (startSubscribe localDID t o).
Proof.
  apply still_at. intros m. exists ((fun m => (next_fresh m, [])) ▷ set_subscription t (asking (fresh m)) ▷ ask localDID (fresh m) t o 0).
  split; [|done]. apply still_then; [apply still_then; [still|apply still_set_subscription]|apply still_ask].
Qed.

Lemma still_retain t o : still (retain localDID t o).
Proof.
  apply still_at. intros m. unfold retain. eexists. split; [|reflexivity]. apply still_then; [apply still_set_refcount|].
  repeat case_match; first [apply still_startSubscribe|apply still_skip].
Qed.

Lemma still_rearmTopic t : still (rearmTopic localDID t).
Proof.
  apply still_at. intros m. unfold rearmTopic.
  destruct (disposed m); [exists skip; by split; [still|]|].
  destruct (jm_get t _) as [[| |e p o]|]; try (exists skip; by split; [still|]).
  pose (drop := (fun m => (set_subs (mkSubs (refcount (subs m)) (jm_delete t (subscriptions (subs m))) (attempts (subs m))) m, [])) : Act).
  case_match; [exists (drop ▷ startSubscribe localDID t o)|exists drop]; (split; [|done]).
  - apply still_then; [unfold drop; still|apply still_startSubscribe].
  - unfold drop. still.
Qed.

Lemma still_rearmRefusedTopics : still (rearmRefusedTopics localDID).
Proof.
  apply still_at. intros m. unfold rearmRefusedTopics. destruct (disposed m); [exists skip; by split; [still|]|].
  eexists. split; [|reflexivity]. apply still_each. intros. apply still_rearmTopic.
Qed.

Lemma still_release t : still (release t).
Proof.
  apply still_at. intros m. unfold release.
  case_match; eexists; (split; [|reflexivity]); [apply still_skip|apply still_set_refcount].
Qed.

Lemma still_unlisten r : still (unlisten r).
Proof.
  apply still_at. intros m. unfold unlisten. destruct (registrations m !! r) as [[t l []]|];
    eexists; (split; [|reflexivity]); try apply still_skip. apply still_then; [still|apply still_release].
Qed.

Lemma still_addListener t l : still (addListener t l).
Proof. unfold addListener. still. Qed.

Lemma still_set_sink k s : still (set_sink k s).
Proof. unfold set_sink. still. Qed.

Lemma still_close k : still (close k).
Proof.
  apply still_at. intros m. unfold close. destruct (sinkObjects m !! k); [|exists skip; by split; [still|]].
  eexists. split; [|reflexivity]. apply still_then; [apply still_set_sink|]. case_match; still.
Qed.

Lemma still_forget_sink k : still (forget_sink k).
Proof. unfold forget_sink. still. Qed.

Lemma still_sinkNext k : still (sinkNext k).
Proof.
  apply still_at. intros m. unfold sinkNext. cbn zeta.
  destruct (sinkObjects m !! k) as [s|]; [|exists skip; by split; [still|]].
  pose (bump := (fun m => (next_fresh m, [])) : Act). assert (still bump) by (unfold bump; still).
  destruct (queue s) as [|message rest]; [destruct (closed s)|].
  - exists (bump ▷ emit (Resolved (fresh m) None)). split; [apply still_then; [done|still]|done].
  - eexists (bump ▷ set_sink k _). split; [apply still_then; [done|apply still_set_sink]|done].
  - eexists (bump ▷ (set_sink k _ ▷ emit (Resolved (fresh m) (Some message)))).
    split; [repeat apply still_then; [done|apply still_set_sink|still]|done].
Qed.

Lemma still_mailboxReceive t : still (mailboxReceive t).
Proof. unfold mailboxReceive. still. Qed.

Lemma still_guarded t payload e : mute e -> still (guarded t payload (emit e)).
Proof. intros He. unfold guarded. still_by_cases. Qed.

Lemma still_fetchNow params : still (fetchNow localDID params).
Proof. unfold fetchNow. still_by_cases. Qed.

Lemma still_fetchTopic params : still (fetchTopic localDID params).
Proof.
  apply still_at. intros m. unfold fetchTopic. destruct (jm_get _ _) as [[ready| |]|];
    try (exists (fetchNow localDID params); split; [apply still_fetchNow|done]).
  exists (fun m => (set_fetches (<[fresh m:=(params, ready)]> (fetches m)) (next_fresh m), [])).
  split; [still|done].
Qed.

Lemma still_fetchReady f m r : fetchReady localDID f m = Some r -> ∃ act, still act ∧ r = act m.
Proof.
  unfold fetchReady. destruct (fetches m !! f) as [[params ready]|]; [|done].
  destruct (attempts (subs m) !! ready); [done|]. intros [= <-].
  exists ((fun m => (set_fetches (delete f (fetches m)) m, [])) ▷ fetchNow localDID params).
  split; [|unfold andThen; by destruct (fetchNow _ _ _)]. apply still_then; [still|apply still_fetchNow].
Qed.

Lemma still_subscribed a x : still (subscribed a x).
Proof.
  apply still_at. intros m. unfold subscribed. eexists. split; [|reflexivity].
  apply still_then; [case_match; [still|apply still_set_subscription]|apply still_set_attempt].
Qed.

Lemma still_subscribeRejected a x e : still (subscribeRejected retryDelaysMs a x e).
Proof.
  apply still_at. intros m. unfold subscribeRejected. eexists. split; [|reflexivity].
  repeat case_match; repeat apply still_then;
    first [apply still_set_attempt|apply still_set_subscription|still].
Qed.

Lemma still_sleepEnded a x : still (sleepEnded localDID a x).
Proof.
  apply still_at. intros m. unfold sleepEnded. eexists. split; [|reflexivity].
  case_match; [apply still_set_attempt|apply still_ask].
Qed.

Lemma still_drainEnded error : still (drainEnded error).
Proof. unfold drainEnded. apply still_then; [still|]. unfold reportEnded. still_by_cases. Qed.

Lemma still_closeSink k : still (closeSink k).
Proof. unfold closeSink. apply still_then; [apply still_close|apply still_forget_sink]. Qed.

(** ** Acts on the claims *)

(** Replacing the entries' values under their keys. *)
Lemma map_keys (f : Entry -> Entry) p : (∀ se, (f se).1 = se.1) -> map fst (map f p) = map fst p.
Proof. intros Hf. rewrite map_map. by apply map_ext. Qed.

Lemma sweep_sublist cutoff p : sublist (sweep cutoff p) p.
Proof. induction p as [|se p IH]; [done|]. cbn. case_match; [done|]. by apply sublist_cons. Qed.

Lemma claim_key t l se : (claim t l se).1 = se.1.
Proof. unfold claim. by case_match. Qed.

Lemma claim_id t l se : pa_id (claim t l se).2 = pa_id se.2.
Proof. unfold claim. by case_match. Qed.

Lemma alter_elem i f (p : list Entry) se' :
  se' ∈ map (fun se : Entry => if decide (pa_id se.2 = i) then (se.1, f se.2) else se) p ->
  (∃ se, se ∈ p ∧ pa_id se.2 = i ∧ se' = (se.1, f se.2)) ∨ (se' ∈ p ∧ pa_id se'.2 ≠ i).
Proof. intros (se & -> & Hse)%list_elem_of_fmap. case_decide; [left|right]; eauto. Qed.

(** What [dispose] does once it has raised the flags and dropped the claims. *)
Definition teardown : Act :=
  (fun m => (set_subs (mkSubs (refcount (subs m)) (subscriptions (subs m)) (wake <$> attempts (subs m))) m, [])) ▷
  (fun m => each closeSink (sinks m) m) ▷
  (fun m => (set_subs (mkSubs ∅ (subscriptions (subs m)) (attempts (subs m))) m, [])) ▷
  (fun m => (set_listeners ∅ (registrations m) m, [])) ▷ emit ReceiveReturned.

Lemma dispose_eq m :
  dispose m = if disposed m then (m, []) else teardown (set_flags (draining m) true true (set_pending [] m)).
Proof. unfold dispose. destruct (disposed m); [done|]. unfold teardown, andThen, emit. by destruct (each _ _ _). Qed.

Lemma still_teardown : still teardown.
Proof.
  unfold teardown. repeat apply still_then; try (still; done).
  apply still_at. intros m. exists (each closeSink (sinks m)). split; [|done]. apply still_each, still_closeSink.
Qed.

(** ** Claims pay for acknowledgements *)

Definition is_ack (s : string) (e : Effect) : bool :=
  match e with HubAck p => bool_decide (p = s) | _ => false end.

Definition acks (s : string) (out : list Effect) : nat := length (filter (fun e => is_ack s e = true) out).

Definition arrives (s : string) (e : Event) : bool :=
  match e with Received message _ => bool_decide (sm_sequenceID message = s) | _ => false end.

Definition arrivals (s : string) (tr : Trace) : nat := length (filter (fun eo => arrives s eo.1 = true) tr).

(** Whether the frame is claimed. *)
Definition claimed (s : string) (m : Mux) : nat := if jm_has s (pending m) then 1 else 0.

Lemma acks_app s out1 out2 : acks s (out1 ++ out2) = acks s out1 + acks s out2.
Proof. unfold acks. by rewrite filter_app, length_app. Qed.

Lemma acks_none s out : HubAck s ∉ out -> acks s out = 0.
Proof.
  intros H. unfold acks. rewrite filter_none; [done|]. intros e He Hack.
  destruct e; try done. cbn in Hack. apply bool_decide_eq_true in Hack as ->. done.
Qed.

Lemma claimed_le s m m' :
  (∀ k, k ∈ map fst (pending m') -> k ∈ map fst (pending m)) -> claimed s m' <= claimed s m.
Proof.
  intros H. unfold claimed. destruct (jm_has s (pending m')) eqn:E; [|lia].
  by apply jm_has_elem, H, jm_has_elem in E as ->.
Qed.

(** What an entry keeps for life: its key, its position and the time it was claimed at. *)
Definition brief (se : Entry) : string * (string * Z) := (se.1, (position se.2, claimedAt se.2)).

Definition briefs (m : Mux) : list (string * (string * Z)) := map brief (pending m).

Definition tidy (bs : list (string * (string * Z))) : Prop :=
  NoDup (map fst bs) ∧ ∀ b, b ∈ bs -> b.2.1 = b.1.

Lemma tidy_sublist bs bs' : sublist bs bs' -> tidy bs' -> tidy bs.
Proof.
  intros Hs [Hnd Hp]. split; [eapply sublist_NoDup; [exact Hnd|by apply fmap_sublist]|].
  intros b Hb. apply Hp. by eapply elem_of_sublist.
Qed.

Lemma briefs_keys m : map fst (briefs m) = map fst (pending m).
Proof. unfold briefs. by rewrite map_map. Qed.

(** An act pays for its acknowledgements with claims, and keeps the order of those it leaves. *)
Definition frugal (act : Act) : Prop := ∀ m, tidy (briefs m) ->
  sublist (briefs (act m).1) (briefs m) ∧ ∀ s, acks s (act m).2 + claimed s (act m).1 <= claimed s m.

Lemma frugal_then act1 act2 : frugal act1 -> frugal act2 -> frugal (act1 ▷ act2).
Proof.
  intros H1 H2 m Hm. unfold andThen. destruct (H1 m Hm) as [Hm1 Hs1]. destruct (act1 m) as [m1 out1].
  destruct (H2 m1 (tidy_sublist _ _ Hm1 Hm)) as [Hm2 Hs2]. destruct (act2 m1) as [m2 out2].
  split; [by etrans|]. intros s. specialize (Hs1 s). specialize (Hs2 s). cbn [fst snd] in *. rewrite acks_app. lia.
Qed.

Lemma frugal_each {A} (f : A -> Act) l : (∀ x, frugal (f x)) -> frugal (each f l).
Proof. intros Hf. induction l as [|x l IH]; [intros m Hm; split; [done|]; intros s; cbn; lia|]. by apply frugal_then. Qed.

Lemma frugal_at (act : Act) : (∀ m, ∃ act', frugal act' ∧ act m = act' m) -> frugal act.
Proof. intros H m. destruct (H m) as (act' & Hf & ->). apply Hf. Qed.

(** Acknowledging nothing and claiming nothing new. *)
Lemma frugal_keys (act : Act) :
  (∀ m, (∀ s, HubAck s ∉ (act m).2) ∧ sublist (briefs (act m).1) (briefs m)) -> frugal act.
Proof.
  intros H m Hm. destruct (H m) as [Ha Hk]. split; [done|].
  intros s. rewrite acks_none by done. apply claimed_le. intros k. rewrite <- !briefs_keys. intros Hin.
  eapply elem_of_sublist; [exact Hin|]. by apply fmap_sublist.
Qed.

Lemma frugal_write (f : Mux -> Mux) : (∀ m, sublist (briefs (f m)) (briefs m)) -> frugal (fun m => (f m, [])).
Proof. intros Hf. apply frugal_keys. intros m. split; [by intros s ?%elem_of_nil|apply Hf]. Qed.

Lemma frugal_still act : still act -> frugal act.
Proof.
  intros Hs. apply frugal_keys. intros m. split; [intros s; apply mute_no_ack, Hs|].
  unfold briefs. generalize (still_claims _ Hs m). by intros [= -> _ _ _].
Qed.

Lemma briefs_map f (p : list Entry) : (∀ se, brief (f se) = brief se) -> map brief (map f p) = map brief p.
Proof. intros Hf. rewrite map_map. by apply map_ext. Qed.

Lemma frugal_alter_entry i f :
  (∀ e, position (f e) = position e ∧ claimedAt (f e) = claimedAt e) -> frugal (alter_entry i f).
Proof.
  intros Hf. apply frugal_write. intros m. unfold briefs. cbn. rewrite briefs_map; [done|].
  intros [s e]. case_decide; [|done]. unfold brief. cbn. by destruct (Hf e) as [-> ->].
Qed.

(** Replacing a present entry's holders. *)
Lemma briefs_jm_set s e h (p : list Entry) :
  NoDup (map fst p) -> jm_get s p = Some e -> map brief (jm_set s (with_holders h e) p) = map brief p.
Proof.
  intros Hnd He. unfold jm_set, jm_has. rewrite He, map_map. apply map_ext_in. intros [s' e'] Hin.
  case_decide as Hk; [|done]. cbn in Hk. subst s'.
  apply list_elem_of_In, (jm_get_Some _ _ _ Hnd) in Hin. assert (e' = e) as -> by congruence. done.
Qed.

Lemma frugal_releaseClaim s h : frugal (releaseClaim s h).
Proof.
  intros m [Hnd Hp]. rewrite briefs_keys in Hnd. unfold releaseClaim.
  destruct (jm_get s (pending m)) as [e|] eqn:E; [|split; [done|]; intros s'; cbn; lia].
  assert (position e = s) as Hpos.
  { apply (Hp (brief (s, e))). by apply list_elem_of_fmap_2, jm_get_elem. }
  case_decide; cbn [ackUpstream emit skip fst snd]; (split; [|intros s']).
  - apply fmap_sublist, sublist_filter.
  - unfold claimed, jm_has. cbn [pending set_pending]. rewrite jm_get_delete, Hpos.
    destruct (decide (s' = s)) as [->|Hne].
    + rewrite E. unfold acks. rewrite filter_cons_True by by apply bool_decide_eq_true. done.
    + rewrite acks_none; [lia|]. by intros [= ->]%list_elem_of_singleton.
  - unfold briefs. cbn. by rewrite briefs_jm_set.
  - rewrite acks_none by by apply not_elem_of_nil. apply claimed_le. intros k. cbn [pending set_pending].
    rewrite jm_set_keys_present; [done|]. apply jm_has_elem. unfold jm_has. by rewrite E.
Qed.

Lemma frugal_loops (f : Mux -> Mux) :
  (∀ m, pending (f m) = pending m) -> frugal (fun m => (f m, [])).
Proof. intros Hf. apply frugal_write. intros m. unfold briefs. by rewrite Hf. Qed.

Lemma frugal_push message k : frugal (push message k).
Proof.
  apply frugal_at. intros m. unfold push. eexists. split; [|reflexivity]. apply frugal_then.
  - apply frugal_keys. intros m'. split; [by intros s [=]%list_elem_of_singleton|done].
  - apply frugal_still. repeat case_match; repeat apply still_then; first [apply still_set_sink|still].
Qed.

Lemma frugal_finishTurn tn : frugal (finishTurn tn).
Proof.
  apply frugal_at. intros m. unfold finishTurn. eexists. split; [|reflexivity].
  apply frugal_then; [apply frugal_then; [apply frugal_then|]|].
  - by apply frugal_alter_entry.
  - case_decide; [apply frugal_releaseClaim|by apply frugal_alter_entry].
  - apply frugal_each. intros. apply frugal_push.
  - by apply frugal_loops.
Qed.

Lemma frugal_onInbound t l o now : frugal (onInbound localDID ackTTLMs t l o now).
Proof.
  unfold onInbound. apply frugal_then; [apply frugal_then; [apply frugal_then|]|];
    [apply frugal_still, still_addListener|apply frugal_still, still_retain|apply frugal_write..]; intros m.
  - apply fmap_sublist, sweep_sublist.
  - unfold briefs. cbn. rewrite briefs_map; [done|]. intros se. unfold claim. by case_match.
Qed.

Lemma frugal_dispose : frugal dispose.
Proof.
  apply frugal_at. intros m. destruct (disposed m) eqn:Hd.
  - exists skip. rewrite dispose_eq, Hd. split; [apply frugal_still; still|done].
  - exists ((fun m => (set_flags (draining m) true true (set_pending [] m), [])) ▷ teardown).
    rewrite dispose_eq, Hd. split; [|unfold andThen; by destruct (teardown _)].
    apply frugal_then; [|apply frugal_still, still_teardown].
    apply frugal_write. intros m'. apply sublist_nil_l.
Qed.

Lemma frugal_abandonSink k : frugal (abandonSink k).
Proof.
  unfold abandonSink. apply frugal_then.
  - apply frugal_still, still_then; [apply still_close|apply still_forget_sink].
  - apply frugal_write. intros m. unfold briefs. cbn. generalize (pending m). intros p.
    induction p as [|se p IH]; [done|]. cbn. destruct (abandonEntry k se) as [se'|] eqn:E; cbn.
    + assert (brief se' = brief se) as -> by (revert E; unfold abandonEntry; repeat case_decide; by intros [= <-]).
      by apply sublist_skip.
    + by apply sublist_cons.
Qed.

(** An arrival claims one frame, in the last place, with the time it was read at. *)
Lemma received_briefs now message m :
  ∃ bs, sublist bs (briefs m) ∧ (∀ b, b ∈ bs -> b.1 ≠ sm_sequenceID message ∨ disposed m = true) ∧
    briefs (received ackTTLMs message now m).1 =
    bs ++ if disposed m then [] else [(sm_sequenceID message, (sm_sequenceID message, now))].
Proof.
  unfold received. destruct (disposed m) eqn:Hd.
  - exists (briefs m). rewrite app_nil_r. auto.
  - set (p := jm_delete (sm_sequenceID message) (sweep (now - ackTTLMs) (pending m))).
    exists (map brief p). split; [|split].
    + apply fmap_sublist. etrans; [apply sublist_filter|apply sweep_sublist].
    + intros b (se & -> & [Hne _]%list_elem_of_filter)%list_elem_of_fmap. by left.
    + unfold andThen, sweepPending, briefs. cbn [fst snd pending set_loops set_pending next_fresh].
      fold p. rewrite jm_set_fresh; [by rewrite map_app|]. unfold p. rewrite jm_delete_keys.
      intros [Hne _]%list_elem_of_filter. done.
Qed.

Lemma received_acks now message m s : HubAck s ∉ (received ackTTLMs message now m).2.
Proof. unfold received. case_match; by intros ?%elem_of_nil. Qed.

Lemma claimed_briefs s m : claimed s m = if decide (s ∈ map fst (briefs m)) then 1 else 0.
Proof.
  unfold claimed. rewrite briefs_keys. destruct (jm_has s (pending m)) eqn:E.
  - apply jm_has_elem in E. by rewrite decide_True.
  - rewrite decide_False; [done|]. intros Hin%jm_has_elem. congruence.
Qed.

Lemma received_pays now message m s :
  claimed s (received ackTTLMs message now m).1 <= claimed s m + if decide (sm_sequenceID message = s) then 1 else 0.
Proof.
  destruct (received_briefs now message m) as (bs & Hs & _ & Hb). rewrite !claimed_briefs, Hb, map_app.
  case_decide as Hin; [|lia]. apply elem_of_app in Hin as [Hin|Hin].
  - rewrite (decide_True (P := s ∈ map fst (briefs m))); [lia|].
    eapply elem_of_sublist; [exact Hin|by apply fmap_sublist].
  - destruct (disposed m); [by apply elem_of_nil in Hin|]. apply list_elem_of_singleton in Hin as ->.
    rewrite (decide_True (P := sm_sequenceID message = _)) by done. lia.
Qed.

End claims.
