(* ===== verification/HubMuxAcks.v ===== *)
(** * Acknowledging through the hub mux

    When the mux acknowledges a frame upstream: only once everyone it was handed to since it last arrived
    has released it, and at most once per arrival. A ledger of what a frame's readers were given and gave
    back is computed from the trace alone, and the theorem compares the acknowledgements with it. *)

From S2P Require Import Prelude HubProtocol Codecs HubMux HubMuxSubs HubMuxClaims.

(** ** The ledger *)

(** Since the frame last arrived: whom it was handed to, who acknowledged it, and which sinks closed. *)
Record Receipt := mkReceipt {
  given : gset Holder;
  acked : gset Holder;
  gone : gset Holder;
}.

Definition nothing : Receipt := mkReceipt ∅ ∅ ∅.

Definition noted (s : string) (r : Receipt) (e : Event) : Receipt :=
  match e with
  | Received message _ => if decide (sm_sequenceID message = s) then nothing else r
  | AckListener s' l =>
    if decide (s' = s) then mkReceipt (given r) ({[HListener l]} ∪ acked r) (gone r) else r
  | SinkAck k s' => if decide (s' = s) then mkReceipt (given r) ({[HSink k]} ∪ acked r) (gone r) else r
  | SinkReturn k => mkReceipt (given r) (acked r) ({[HSink k]} ∪ gone r)
  | _ => r
  end.

Definition handed (s : string) (r : Receipt) (e : Effect) : Receipt :=
  match e with
  | Deliver l message =>
    if decide (sm_sequenceID message = s) then mkReceipt ({[HListener l]} ∪ given r) (acked r) (gone r) else r
  | Pushed k message =>
    if decide (sm_sequenceID message = s) then mkReceipt ({[HSink k]} ∪ given r) (acked r) (gone r) else r
  | _ => r
  end.

Definition receipt_step (s : string) (r : Receipt) (eo : Event * list Effect) : Receipt :=
  foldl (handed s) (noted s r eo.1) eo.2.

Definition receipt (s : string) (tr : Trace) : Receipt := foldl (receipt_step s) nothing tr.

(** Everyone it was handed to acknowledged it or closed, and someone did acknowledge it. *)
Definition earned (r : Receipt) : Prop := given r ⊆ acked r ∪ gone r ∧ acked r ≠ ∅.

Lemma handed_mute s out r : Forall mute out -> foldl (handed s) r out = r.
Proof. revert r. induction out as [|e out IH]; [done|]. intros r [He Hout]%Forall_cons. cbn. rewrite IH by done. by destruct e. Qed.

(** A drain's claim is never given anything. *)
Definition no_drain (r : Receipt) : Prop := ∀ i, HDrain i ∉ given r.

Lemma no_drain_handed s out r : no_drain r -> no_drain (foldl (handed s) r out).
Proof.
  revert r. induction out as [|e out IH]; [done|]. intros r Hr. cbn. apply IH.
  destruct e; cbn; try done; case_decide; try done; intros i; specialize (Hr i); set_solver.
Qed.

Lemma no_drain_noted s e r : no_drain r -> no_drain (noted s r e).
Proof. intros Hr. destruct e; cbn; try done; by case_decide. Qed.

(** ** The invariant *)

(** What a frame's entry owes its ledger. *)
Record entry_ok (r : Receipt) (se : Entry) : Prop := {
  eo_held : holders se.2 ≠ ∅;
  eo_position : position se.2 = se.1;
  eo_covers : given r ⊆ acked r ∪ gone r ∪ holders se.2;
  eo_unmatched message : unmatched se.2 = Some message ->
    sm_sequenceID message = se.1 ∧ holders se.2 = {[HDrain (pa_id se.2)]};
}.

(** What the drain's loop knows of its frame's entry, if it is still there. *)
Record turn_ok (L : string -> Receipt) (tn : Turn) (se : Entry) : Prop := {
  to_entry : pa_id se.2 = tn_entry tn <-> se.1 = sm_sequenceID (tn_message tn);
  to_drain : se.1 = sm_sequenceID (tn_message tn) ->
    HDrain (tn_entry tn) ∈ holders se.2 ∧ unmatched se.2 = None ∧
    (∀ l, l ∈ matchedListeners tn -> HListener l ∈ acked (L se.1) ∪ holders se.2) ∧
    holders se.2 ⊆ {[HDrain (tn_entry tn)]} ∪ list_to_set (map HListener (matchedListeners tn));
}.

(** What a handoff knows of an entry it claimed. *)
Definition handoff_ok (L : string -> Receipt) (l : nat) (h : string * nat * StoredMessage) (se : Entry) : Prop :=
  se.1 = h.1.1 -> pa_id se.2 = h.1.2 -> unmatched se.2 = None ∧ HListener l ∈ acked (L se.1) ∪ holders se.2.

Record AckInv (L : string -> Receipt) (m : Mux) : Prop := {
  ai_nodup : NoDup (map fst (pending m));
  ai_entries se : se ∈ pending m -> entry_ok (L se.1) se ∧ pa_id se.2 < fresh m;
  ai_turn tn se : turn m = Some tn -> se ∈ pending m -> turn_ok L tn se;
  ai_todo tn l : turn m = Some tn -> l ∈ tn_todo tn -> l ∈ matchedListeners tn;
  ai_handing g h : g ∈ handing m -> h ∈ hg_todo g ->
    sm_sequenceID h.2 = h.1.1 ∧ ∀ se, se ∈ pending m -> handoff_ok L (hg_listener g) h se;
  ai_drains s : no_drain (L s);
  ai_disposed : disposed m = true -> pending m = [];
}.

(** New entries for old ones of the same key and identity, that owe no more. *)
Lemma AckInv_pending L m p :
  AckInv L m -> NoDup (map fst p) ->
  (∀ se', se' ∈ p -> ∃ se, se ∈ pending m ∧ se'.1 = se.1 ∧ pa_id se'.2 = pa_id se.2 ∧ entry_ok (L se'.1) se' ∧
    (∀ tn, turn m = Some tn -> turn_ok L tn se -> turn_ok L tn se') ∧
    (∀ g h, g ∈ handing m -> handoff_ok L (hg_listener g) h se -> handoff_ok L (hg_listener g) h se')) ->
  (disposed m = true -> p = []) -> AckInv L (set_pending p m).
Proof.
  intros [] Hnd Hp Hd. split; cbn; try done.
  - intros se' (se & Hse & Hk & Hi & Hok & _)%Hp. split; [done|]. rewrite Hi. by apply ai_entries0.
  - intros tn se' Ht (se & Hse & _ & _ & _ & Hto & _)%Hp. eauto.
  - intros g h Hg Hh. destruct (ai_handing0 g h Hg Hh) as [? Hok]. split; [done|].
    intros se' (se & Hse & _ & _ & _ & _ & Hho)%Hp. eauto.
Qed.

(** Fewer entries, each as it was: sweeping and clearing. *)
Lemma AckInv_fewer L m p : AckInv L m -> sublist p (pending m) -> AckInv L (set_pending p m).
Proof.
  intros Hi Hp. apply AckInv_pending; [done|..].
  - eapply sublist_NoDup; [exact (ai_nodup _ _ Hi)|]. by apply fmap_sublist.
  - intros se Hse. assert (se ∈ pending m) as Hin by (by eapply elem_of_sublist).
    exists se. split; [done|]. split; [done|]. split; [done|]. split; [by apply (ai_entries _ _ Hi)|]. done.
  - intros Hd. rewrite (ai_disposed _ _ Hi) in Hp by done. by apply sublist_nil_r in Hp.
Qed.

(** More acknowledged, more gone. *)
Lemma AckInv_more L L' m :
  (∀ s, given (L' s) = given (L s) ∧ acked (L s) ⊆ acked (L' s) ∧ gone (L s) ⊆ gone (L' s)) ->
  AckInv L m -> AckInv L' m.
Proof.
  intros HL []. split; try done.
  - intros se Hse. destruct (ai_entries0 se Hse) as [[] ?]. destruct (HL se.1) as (Hg & Ha & Hd).
    split; [|done]. split; try done. rewrite Hg. set_solver.
  - intros tn se Ht Hse. destruct (ai_turn0 tn se Ht Hse) as [Hid Hto]. destruct (HL se.1) as (_ & Ha & _).
    split; [done|]. intros Hs. destruct (Hto Hs) as (? & ? & Hm & ?). repeat split; try done.
    intros l Hl. specialize (Hm l Hl). set_solver.
  - intros g h Hg Hh. destruct (ai_handing0 g h Hg Hh) as [? Hok]. split; [done|].
    intros se Hse H1 H2. destruct (Hok se Hse H1 H2) as [? Hin]. destruct (HL se.1) as (_ & Ha & _).
    split; [done|]. set_solver.
  - intros s i. destruct (HL s) as [-> _]. apply ai_drains0.
Qed.

(** An entry that a reader has left, and what it still owes. *)
Record withdrawn (h : Holder) (se se' : Entry) : Prop := {
  wd_key : se'.1 = se.1;
  wd_id : pa_id se'.2 = pa_id se.2;
  wd_position : position se'.2 = position se.2;
  wd_unmatched : unmatched se'.2 = unmatched se.2;
  wd_holders : holders se'.2 = holders se.2 ∖ {[h]};
  wd_held : holders se'.2 ≠ ∅;
}.

Lemma withdrawn_ok L h se se' m :
  AckInv L m -> se ∈ pending m -> withdrawn h se se' -> (∀ i, h ≠ HDrain i) ->
  h ∈ acked (L se.1) ∪ gone (L se.1) -> (∀ l, h = HListener l -> h ∈ acked (L se.1)) ->
  ∃ se, se ∈ pending m ∧ se'.1 = se.1 ∧ pa_id se'.2 = pa_id se.2 ∧ entry_ok (L se'.1) se' ∧
    (∀ tn, turn m = Some tn -> turn_ok L tn se -> turn_ok L tn se') ∧
    (∀ g h, g ∈ handing m -> handoff_ok L (hg_listener g) h se -> handoff_ok L (hg_listener g) h se').
Proof.
  intros Hi Hse [Hk Hid Hpos Hu Hh Hne] Hdrain Hin Hl. exists se. split; [done|]. split; [done|]. split; [done|].
  destruct (ai_entries _ _ Hi se Hse) as [[_ Hp Hc Hun] _]. split; [|split].
  - split; [done| | |]; rewrite ?Hpos, ?Hk, ?Hu, ?Hid, ?Hh; [done| |].
    + intros h' Hh'. specialize (Hc h' Hh'). destruct (decide (h' = h)) as [->|]; set_solver.
    + intros message Hm. destruct (Hun message Hm) as [? ->]. split; [done|]. specialize (Hdrain (pa_id se.2)). set_solver.
  - intros tn _ [He Ho]. split; rewrite ?Hid, ?Hk, ?Hu, ?Hh; [done|]. intros Hs.
    destruct (Ho Hs) as (Hd & Hnone & Hm & Hsub). split; [specialize (Hdrain (tn_entry tn)); set_solver|].
    split; [done|]. split; [|set_solver]. intros l Hlm. specialize (Hm l Hlm).
    destruct (decide (HListener l = h)) as [<-|]; [specialize (Hl l eq_refl)|]; set_solver.
  - intros g h' _ Hho. unfold handoff_ok. rewrite Hk, Hid, Hu, Hh. intros H1 H2. destruct (Hho H1 H2) as [? Hm].
    split; [done|]. destruct (decide (HListener (hg_listener g) = h)) as [<-|];
      [specialize (Hl _ eq_refl)|]; set_solver.
Qed.

(** ** Acts the ledger does not see *)

Record unseen (act : Act) : Prop := {
  unseen_inv L m : AckInv L m -> AckInv L (act m).1;
  unseen_mute m : Forall mute (act m).2;
  unseen_disposed m : disposed m = true -> disposed (act m).1 = true;
}.

Lemma unseen_then act1 act2 : unseen act1 -> unseen act2 -> unseen (act1 ▷ act2).
Proof.
  intros H1 H2. split; intros; unfold andThen;
    (destruct (act1 m) as [m1 out1] eqn:E1, (act2 m1) as [m2 out2] eqn:E2; cbn).
  - generalize (unseen_inv _ H2 L m1), (unseen_inv _ H1 L m). rewrite E1, E2. cbn. auto.
  - generalize (unseen_mute _ H1 m), (unseen_mute _ H2 m1). rewrite E1, E2. cbn. by apply Forall_app_2.
  - generalize (unseen_disposed _ H1 m), (unseen_disposed _ H2 m1). rewrite E1, E2. cbn. auto.
Qed.

Lemma unseen_at (act : Act) : (∀ m, ∃ act', unseen act' ∧ act m = act' m) -> unseen act.
Proof. intros H. split; intros; destruct (H m) as (act' & Hu & ->); by apply Hu. Qed.

Lemma AckInv_same L m m' :
  (pending m', handing m', turn m', disposed m') = (pending m, handing m, turn m, disposed m) ->
  fresh m <= fresh m' -> AckInv L m -> AckInv L m'.
Proof.
  intros [= Hp Hh Ht Hd] Hf []. split; rewrite ?Hp, ?Hh, ?Ht, ?Hd; eauto.
  intros se Hse. destruct (ai_entries0 se Hse). split; [done|lia].
Qed.

Lemma unseen_still act : still act -> unseen act.
Proof.
  intros Hs. split; [|apply Hs|].
  - intros L m. apply AckInv_same; apply Hs.
  - intros m. generalize (still_claims _ Hs m). by intros [= _ _ _ ->].
Qed.

Section acks.
Context (localDID : string) (retryDelaysMs : list Z) (ackTTLMs : Z).

#[local] Abbreviation step := (step localDID retryDelaysMs ackTTLMs).
#[local] Abbreviation trace := (trace localDID retryDelaysMs ackTTLMs).

(** ** Acts on the claims *)

Lemma unseen_sweepPending now : unseen (sweepPending ackTTLMs now).
Proof. split; [|constructor|done]. intros L m Hi. apply AckInv_fewer; [done|]. apply sweep_sublist. Qed.

Lemma abandonEntry_Some k se se' :
  abandonEntry k se = Some se' -> holders se.2 ≠ ∅ -> withdrawn (HSink k) se se'.
Proof. unfold abandonEntry. repeat case_decide; intros [= <-] Hne; split; cbn; try done. set_solver. Qed.

Lemma abandon_keys k p : sublist (map fst (omap (abandonEntry k) p)) (map fst p).
Proof.
  induction p as [|se p IH]; [done|]. cbn. destruct (abandonEntry k se) as [se'|] eqn:E.
  - assert (se'.1 = se.1) as Hk by (revert E; unfold abandonEntry; repeat case_decide; by intros [= <-]).
    cbn. rewrite Hk. by apply sublist_skip.
  - by apply sublist_cons.
Qed.

Lemma abandon_inv L m k :
  AckInv L m -> (∀ s, HSink k ∈ gone (L s)) -> AckInv L (set_pending (omap (abandonEntry k) (pending m)) m).
Proof.
  intros Hi Hgone. apply AckInv_pending; [done|..].
  - eapply sublist_NoDup; [exact (ai_nodup _ _ Hi)|]. apply abandon_keys.
  - intros se' (se & Hse & E)%list_elem_of_omap.
    apply (withdrawn_ok L (HSink k) se); [done..| |done| |done].
    + eapply abandonEntry_Some; [done|]. by apply (ai_entries _ _ Hi).
    + specialize (Hgone se.1). set_solver.
  - intros Hd. by rewrite (ai_disposed _ _ Hi).
Qed.

(** [releaseClaim] of a holder that has given the frame back. *)
Lemma releaseClaim_inv L m s h :
  AckInv L m -> (∀ i, h ≠ HDrain i) -> h ∈ acked (L s) ->
  AckInv L (releaseClaim s h m).1 ∧
  (∀ p, HubAck p ∈ (releaseClaim s h m).2 -> p = s ∧ earned (L s)) ∧
  (∀ s', foldl (handed s') (L s') (releaseClaim s h m).2 = L s').
Proof.
  intros Hi Hdrain Hacked. unfold releaseClaim.
  destruct (jm_get s (pending m)) as [e|] eqn:E; [|split; [done|]; split; [by intros p ?%elem_of_nil|done]].
  apply (jm_get_Some _ _ _ (ai_nodup _ _ Hi)) in E as Hin.
  destruct (ai_entries _ _ Hi _ Hin) as [[Hne Hp Hc _] _]. cbn in *.
  case_decide as Hd; cbn.
  - split; [|split; [|done]].
    + apply AckInv_fewer; [done|]. unfold jm_delete. apply sublist_filter.
    + intros p [= ->]%list_elem_of_singleton. split; [done|]. split; [|set_solver].
      intros h' Hh'. specialize (Hc h' Hh'). destruct (decide (h' = h)) as [->|]; set_solver.
  - split; [|split; [by intros p ?%elem_of_nil|done]]. apply AckInv_pending; [done|..].
    + apply jm_set_NoDup, Hi.
    + intros se' Hse'. apply jm_set_elem in Hse' as [->|[Hin' Hk]].
      * apply (withdrawn_ok L h (s, e)); [exact Hi|exact Hin|by split|exact Hdrain|cbn; set_solver|by intros l _].
      * exists se'. repeat (split; [done|]). split; [by apply (ai_entries _ _ Hi)|done].
    + intros Hdis. rewrite (ai_disposed _ _ Hi Hdis) in Hin. by apply elem_of_nil in Hin.
Qed.

(** *** The backlog *)

Lemma isHandoff_Some t se :
  isHandoff t se = true <-> ∃ message, unmatched se.2 = Some message ∧ sm_topicID message = t.
Proof.
  unfold isHandoff. destruct (unmatched se.2) as [message|]; [|naive_solver].
  rewrite bool_decide_eq_true. naive_solver.
Qed.

Lemma handoffs_elem t p h :
  h ∈ handoffs t p <-> ∃ se message, se ∈ p ∧ unmatched se.2 = Some message ∧ sm_topicID message = t ∧
    h = (se.1, pa_id se.2, message).
Proof.
  unfold handoffs. rewrite list_elem_of_omap. split.
  - intros (se & Hse & E). destruct (unmatched se.2) as [message|] eqn:Hu; [|done]. cbn in E.
    destruct (isHandoff t se) eqn:Hh; [|done]. injection E as <-. apply isHandoff_Some in Hh as (message' & ? & ?).
    exists se, message. naive_solver.
  - intros (se & message & Hse & Hu & Ht & ->). exists se. split; [done|]. rewrite Hu. cbn.
    assert (isHandoff t se = true) as -> by (apply isHandoff_Some; eauto). done.
Qed.

Lemma claimed_inv L m t l : AckInv L m -> AckInv L (set_pending (map (claim t l) (pending m)) m).
Proof.
  intros Hi. apply AckInv_pending; [done|..].
  - rewrite map_keys by apply claim_key. apply Hi.
  - intros se' (se & -> & Hse)%list_elem_of_fmap. exists se. split; [done|].
    rewrite claim_key, claim_id. split; [done|]. split; [done|].
    destruct (ai_entries _ _ Hi se Hse) as [[Hne Hp Hc Hu] _]. unfold claim.
    destruct (isHandoff t se) eqn:Hh; [|split; [by split|done]].
    apply isHandoff_Some in Hh as (message & Hm & _). destruct (Hu message Hm) as [_ Hd].
    split; [split; cbn; try done|split].
    + intros h Hin. specialize (Hc h Hin). rewrite Hd in Hc. generalize (ai_drains _ _ Hi se.1 (pa_id se.2)). set_solver.
    + intros tn _ [He Ho]. split; [done|]. intros (_ & Hnone & _)%Ho. congruence.
    + intros g h _ Hho H1 H2. destruct (Hho H1 H2) as [Hnone _]. congruence.
  - intros Hd. by rewrite (ai_disposed _ _ Hi Hd).
Qed.

Lemma unseen_claimBacklog t l : unseen (claimBacklog t l).
Proof.
  split; [|constructor|done]. intros L m Hi. generalize (claimed_inv L m t l Hi). intros [].
  split; cbn in *; try done.
  intros g h [->|Hg]%elem_of_cons Hh; [|by apply ai_handing0].
  apply handoffs_elem in Hh as (se & message & Hse & Hu & Ht & ->). cbn.
  destruct (ai_entries _ _ Hi se Hse) as [[_ _ _ Hun] _]. destruct (Hun message Hu) as [Hs _].
  split; [done|]. intros se' (se0 & -> & Hse0)%list_elem_of_fmap. unfold handoff_ok. rewrite claim_key, claim_id. cbn.
  intros Hk _. assert (se0 = se) as ->.
  { destruct se0 as [s0 e0], se as [s e]. cbn in Hk. subst s0. f_equal.
    apply (jm_get_Some _ _ _ (ai_nodup _ _ Hi)) in Hse, Hse0. congruence. }
  unfold claim. assert (isHandoff t se = true) as -> by (apply isHandoff_Some; eauto). cbn. set_solver.
Qed.

Lemma unseen_onInbound t l o now : unseen (onInbound localDID ackTTLMs t l o now).
Proof.
  unfold onInbound. apply unseen_then; [apply unseen_then; [apply unseen_then|]|].
  - apply unseen_still, still_addListener.
  - apply unseen_still, still_retain.
  - apply unseen_sweepPending.
  - apply unseen_claimBacklog.
Qed.

Lemma unseen_dispose : unseen dispose.
Proof.
  apply unseen_at. intros m. destruct (disposed m) eqn:Hd.
  - exists skip. rewrite dispose_eq, Hd. split; [apply unseen_still; still|done].
  - exists ((fun m => (set_flags (draining m) true true (set_pending [] m), [])) ▷ teardown).
    rewrite dispose_eq, Hd. split; [|unfold andThen; by destruct (teardown _)].
    apply unseen_then; [|apply unseen_still, still_teardown].
    split; [|constructor|done]. intros L m' Hi.
    generalize (AckInv_fewer L m' [] Hi (sublist_nil_l _)). by intros [].
Qed.

(** ** Acts the ledger sees *)

(** The ledger with one more reader given a frame. *)
Definition give (s : string) (h : Holder) (L : string -> Receipt) : string -> Receipt := fun s' =>
  if decide (s = s') then mkReceipt ({[h]} ∪ given (L s')) (acked (L s')) (gone (L s')) else L s'.

Lemma AckInv_given L m s h :
  AckInv L m -> (∀ i, h ≠ HDrain i) ->
  (∀ se, se ∈ pending m -> se.1 = s -> h ∈ acked (L s) ∪ gone (L s) ∪ holders se.2) -> AckInv (give s h L) m.
Proof.
  intros [] Hdrain Hcov. assert (Ha : ∀ s', acked (give s h L s') = acked (L s')) by (intros; unfold give; by case_decide).
  split; try done.
  - intros se Hse. destruct (ai_entries0 se Hse) as [[Hne Hp Hc Hu] Hf]. split; [|done]. split; try done.
    unfold give. case_decide as Hs; [|done]. cbn. specialize (Hcov se Hse (eq_sym Hs)). subst s. set_solver.
  - intros tn se Ht Hse. destruct (ai_turn0 tn se Ht Hse) as [He Ho]. split; [done|]. rewrite Ha. done.
  - intros g h' Hg Hh. destruct (ai_handing0 g h' Hg Hh) as [Hs Hok]. split; [done|].
    intros se Hse. unfold handoff_ok. rewrite Ha. by apply Hok.
  - intros s' i. unfold give. case_decide; [|apply ai_drains0]. cbn.
    specialize (Hdrain i). specialize (ai_drains0 s' i). set_solver.
Qed.

(** What is left of the loops: the same readers, fewer of them. *)
Lemma AckInv_loops L m hs tn :
  AckInv L m ->
  (∀ g h, g ∈ hs -> h ∈ hg_todo g -> ∃ g', g' ∈ handing m ∧ hg_listener g' = hg_listener g ∧ h ∈ hg_todo g') ->
  (∀ t, tn = Some t -> ∃ t', turn m = Some t' ∧ tn_message t' = tn_message t ∧ tn_entry t' = tn_entry t ∧
    matchedListeners t' = matchedListeners t ∧ ∀ l, l ∈ tn_todo t -> l ∈ tn_todo t') ->
  AckInv L (set_loops hs tn m).
Proof.
  intros [] Hh Ht. split; cbn; try done.
  - intros t se Hs Hse. destruct (Ht t Hs) as (t' & Ht' & Hm & He & Hl & _).
    destruct (ai_turn0 t' se Ht' Hse). split; rewrite <- ?He, <- ?Hm, <- ?Hl; done.
  - intros t l Hs Hin. destruct (Ht t Hs) as (t' & Ht' & _ & _ & <- & Htodo). eauto.
  - intros g h Hg Hin. destruct (Hh g h Hg Hin) as (g' & Hg' & <- & Hin'). eauto.
Qed.

(** A step's outcome: the invariant for the ledger with the step's effects, and its acknowledgements earned. *)
Record seen (L : string -> Receipt) (r : Mux * list Effect) : Prop := {
  sn_inv : AckInv (fun s => foldl (handed s) (L s) r.2) r.1;
  sn_earned s : HubAck s ∈ r.2 -> earned (foldl (handed s) (L s) r.2);
}.

Lemma AckInv_ext L L' m : (∀ s, L s = L' s) -> AckInv L m -> AckInv L' m.
Proof. intros HL. apply AckInv_more. intros s. by rewrite (HL s). Qed.

Lemma seen_unseen L act m : unseen act -> AckInv L m -> seen L (act m).
Proof.
  intros Hu Hi. split.
  - eapply AckInv_ext; [|by apply (unseen_inv _ Hu), Hi]. intros s. by rewrite handed_mute by apply Hu.
  - intros s Hin. by apply mute_no_ack in Hin; [|apply Hu].
Qed.

Lemma seen_handNext L m g rest : AckInv L m -> handing m = g :: rest -> seen L (handNext g rest m).
Proof.
  intros Hi Hh. unfold handNext.
  assert (∀ todo, (∀ h, h ∈ todo -> h ∈ hg_todo g) ->
    AckInv L (set_loops (mkHanding (hg_listener g) todo :: rest) (turn m) m)) as Hloops.
  { intros todo Htodo. apply AckInv_loops; [done| |intros t Ht; by exists t].
    intros g' h [->|Hg']%elem_of_cons Hin; rewrite Hh; [exists g; set_solver|exists g'; set_solver]. }
  destruct (hg_todo g) as [|[[s i] message] todo] eqn:Htodo.
  - split; [|set_solver]. cbn. apply AckInv_loops; [done| |intros t Ht; by exists t].
    intros g' h Hg' Hin. rewrite Hh. exists g'. set_solver.
  - cbn zeta. specialize (Hloops todo ltac:(set_solver)).
    destruct (disposed m || negb (bool_decide (pa_id <$> jm_get s (pending m) = Some i))) eqn:Hskip.
    { split; [done|set_solver]. }
    apply orb_false_iff in Hskip as [_ Hid%negb_false_iff%bool_decide_eq_true].
    split; [|intros s' [=]%list_elem_of_singleton].
    apply (AckInv_given _ _ _ (HListener (hg_listener g)) Hloops); [done|]. cbn.
    destruct (ai_handing _ _ Hi g (s, i, message)) as [Hs Hok];
      [rewrite ?Hh, ?Htodo; apply elem_of_cons; by left..|]. cbn in Hs.
    intros se Hse Hk. destruct (jm_get s (pending m)) as [e|] eqn:E; [|done].
    apply (jm_get_Some _ _ _ (ai_nodup _ _ Hi)) in E as Hin. cbn in Hid.
    assert (se = (s, e)) as ->.
    { destruct se as [s' e']. cbn in Hk. rewrite Hs in Hk. subst s'. f_equal.
      apply (jm_get_Some _ _ _ (ai_nodup _ _ Hi)) in Hse. congruence. }
    destruct (Hok _ Hin eq_refl) as [_ Hc]; [cbn; congruence|]. cbn in *. rewrite Hs. set_solver.
Qed.

Lemma seen_deliver L m tn l todo :
  AckInv L m -> turn m = Some tn -> tn_todo tn = l :: todo ->
  seen L (emit (Deliver l (tn_message tn))
    (set_loops (handing m) (Some (mkTurn (tn_message tn) (tn_entry tn) (matchedListeners tn) todo)) m)).
Proof.
  intros Hi Ht Htodo. split; [|intros s [=]%list_elem_of_singleton].
  assert (l ∈ matchedListeners tn) as Hl by (eapply ai_todo; [done..|]; rewrite Htodo; apply elem_of_cons; by left).
  apply (AckInv_given _ _ _ (HListener l)); [|done|].
  - apply AckInv_loops; [done|intros g h Hg Hh; by exists g|]. intros t [= <-]. exists tn.
    rewrite Htodo. repeat split; try done. intros l'. set_solver.
  - cbn. intros se Hse Hs. destruct (ai_turn _ _ Hi tn se Ht Hse) as [_ Ho].
    destruct (Ho Hs) as (_ & _ & Hm & _). specialize (Hm l Hl). rewrite Hs in Hm. set_solver.
Qed.

(** *** The end of the drain's turn *)

(** Pushing to the sinks leaves the claims alone and gives the frame to them. *)
Lemma pushes_claims message ks m :
  let r := each (push message) ks m in
  (pending r.1, handing r.1, turn r.1, disposed r.1) = (pending m, handing m, turn m, disposed m) ∧
  fresh m <= fresh r.1 ∧
  (∀ s, HubAck s ∉ r.2) ∧
  (∀ s L, foldl (handed s) (L s) r.2 = foldl (fun L k => give (sm_sequenceID message) (HSink k) L) L ks s).
Proof.
  revert m. induction ks as [|k ks IH]; intros m; cbn [each foldl]; [by repeat split; try done; intros s ?%elem_of_nil|].
  assert (∃ rest, still rest ∧ push message k m = (emit (Pushed k message) ▷ rest) m) as (rest & Hrest & Hpush).
  { unfold push. eexists. split; [|reflexivity]. repeat case_match; repeat apply still_then;
      first [apply still_set_sink|still]. }
  unfold andThen in *. rewrite Hpush. cbn [emit].
  generalize (still_claims _ Hrest m), (still_fresh _ Hrest m), (still_mute _ Hrest m).
  destruct (rest m) as [m1 out1]. cbn [fst snd app]. intros Hc Hf Hmute.
  specialize (IH m1). destruct (each (push message) ks m1) as [m2 out2]. cbn [fst snd] in *.
  destruct IH as (-> & Hf2 & Hno & Hfold). rewrite Hc. split; [done|]. split; [lia|]. split.
  - intros s [[=]|[Hin|Hin]%elem_of_app]%elem_of_cons; [by destruct (mute_no_ack _ _ Hmute Hin)|by destruct (Hno _ Hin)].
  - intros s L. cbn [foldl]. rewrite foldl_app, (handed_mute s out1) by done.
    apply (Hfold s (give (sm_sequenceID message) (HSink k) L)).
Qed.

(** Giving a frame to sinks that hold it. *)
Lemma AckInv_gives L m s ks :
  AckInv L m -> (∀ se, se ∈ pending m -> se.1 = s -> list_to_set (map HSink ks) ⊆ holders se.2) ->
  AckInv (foldl (fun L k => give s (HSink k) L) L ks) m.
Proof.
  revert L. induction ks as [|k ks IH]; intros L Hi Hks; [done|]. cbn in *. apply IH; [|set_solver].
  apply AckInv_given; [done..|]. intros se Hse Hs. specialize (Hks se Hse Hs). set_solver.
Qed.

(** The pending claims when the loops over listeners are over. *)
Lemma AckInv_settled L m tn p :
  AckInv L m -> turn m = Some tn -> NoDup (map fst p) ->
  (∀ se', se' ∈ p -> (se' ∈ pending m ∧ se'.1 ≠ sm_sequenceID (tn_message tn)) ∨
    ∃ se, se ∈ pending m ∧ se'.1 = se.1 ∧ pa_id se'.2 = pa_id se.2 ∧ entry_ok (L se'.1) se') ->
  (disposed m = true -> p = []) -> AckInv L (set_pending p (set_loops [] None m)).
Proof.
  intros Hi Ht Hnd Hp Hd. apply AckInv_pending; [|done| |done].
  - apply AckInv_loops; [done| |done]. intros g h ?%elem_of_nil. done.
  - intros se' [[Hse Hk]|(se & Hse & Hk & Hid & Hok)]%Hp; [exists se'|exists se]; (split; [done|]);
      (split; [done|]); (split; [done|]); (split; [first [done|by apply (ai_entries _ _ Hi)]|]); split;
      try done; intros g h ?%elem_of_nil; done.
Qed.

Definition claims_act (tn : Turn) (ks : list nat) : Act :=
  alter_entry (tn_entry tn) (fun e => with_holders (holders e ∪ list_to_set (map HSink ks)) e) ▷
  (if decide (matchedListeners tn ≠ [] ∨ ks ≠ [])
   then releaseClaim (sm_sequenceID (tn_message tn)) (HDrain (tn_entry tn))
   else alter_entry (tn_entry tn) (with_unmatched (Some (tn_message tn)))).

(** The frame's entry, if the turn still has one, as the listeners left it. *)
Lemma turn_entry L m tn se :
  AckInv L m -> turn m = Some tn -> se ∈ pending m -> pa_id se.2 = tn_entry tn ->
  ∃ e, se = (sm_sequenceID (tn_message tn), e) ∧ entry_ok (L (sm_sequenceID (tn_message tn))) se ∧
    HDrain (tn_entry tn) ∈ holders e ∧ unmatched e = None ∧
    (∀ l, l ∈ matchedListeners tn -> HListener l ∈ acked (L (sm_sequenceID (tn_message tn))) ∪ holders e) ∧
    holders e ⊆ {[HDrain (tn_entry tn)]} ∪ list_to_set (map HListener (matchedListeners tn)).
Proof.
  intros Hi Ht Hse Hid. destruct (ai_turn _ _ Hi tn se Ht Hse) as [He Ho]. apply He in Hid as Hs.
  destruct (Ho Hs) as (? & ? & Hm & ?). destruct (ai_entries _ _ Hi se Hse) as [Hok _].
  destruct se as [s e]. cbn in Hs. subst s. exists e. done.
Qed.

(** Its holders once the sinks are added and the drain has let go. *)
Lemma turn_holders L m tn e ks :
  AckInv L m -> turn m = Some tn -> (sm_sequenceID (tn_message tn), e) ∈ pending m ->
  pa_id e = tn_entry tn -> matchedListeners tn ≠ [] ∨ ks ≠ [] ->
  let h := (holders e ∪ list_to_set (map HSink ks)) ∖ {[HDrain (tn_entry tn)]} in
  position e = sm_sequenceID (tn_message tn) ∧
  list_to_set (map HSink ks) ⊆ h ∧
  (h = ∅ -> ks = [] ∧ earned (L (sm_sequenceID (tn_message tn)))) ∧
  (h ≠ ∅ -> entry_ok (L (sm_sequenceID (tn_message tn)))
    (sm_sequenceID (tn_message tn), with_holders h (with_holders (holders e ∪ list_to_set (map HSink ks)) e))).
Proof.
  intros Hi Ht Hse Hid Hsome h.
  destruct (turn_entry _ _ _ _ Hi Ht Hse Hid) as (e' & [= <-] & [_ Hpos Hc _] & Hdr & Hun & Hm & Hsub). cbn in *.
  generalize (ai_drains _ _ Hi (sm_sequenceID (tn_message tn)) (tn_entry tn)).
  generalize dependent (L (sm_sequenceID (tn_message tn))). intros r Hc Hm Hno.
  assert (Hks : list_to_set (map HSink ks) ⊆ h) by (unfold h; intros x Hx; set_unfold; naive_solver).
  split; [done|]. split; [done|]. split.
  - intros Hempty. assert (ks = []) as ->.
    { destruct ks as [|k ks]; [done|]. cbn in Hks. set_solver. }
    split; [done|]. unfold h in Hempty. cbn in Hempty. split.
    + intros x Hx. specialize (Hc x Hx). destruct (decide (x = HDrain (tn_entry tn))) as [->|]; set_solver.
    + destruct (matchedListeners tn) as [|l ls]; [by destruct Hsome|].
      specialize (Hm l ltac:(set_solver)). set_solver.
  - intros Hne. split; cbn; [done|done| |by rewrite Hun].
    intros x Hx. specialize (Hc x Hx). unfold h.
    destruct (decide (x = HDrain (tn_entry tn))) as [->|]; set_solver.
Qed.

(** The claims after the turn: the frame's entry altered, the others as they were. *)
Lemma altered_entries L m tn f :
  AckInv L m -> turn m = Some tn ->
  let p := map (fun se : Entry => if decide (pa_id se.2 = tn_entry tn) then (se.1, f se.2) else se) (pending m) in
  NoDup (map fst p) ∧ (disposed m = true -> p = []) ∧
  (∀ se, se ∈ p ->
    (∃ e, (sm_sequenceID (tn_message tn), e) ∈ pending m ∧ pa_id e = tn_entry tn ∧
      se = (sm_sequenceID (tn_message tn), f e)) ∨
    (se ∈ pending m ∧ se.1 ≠ sm_sequenceID (tn_message tn))).
Proof.
  intros Hi Ht p. split; [|split].
  - unfold p. rewrite map_keys; [apply Hi|]. intros se. by case_decide.
  - intros Hd. unfold p. by rewrite (ai_disposed _ _ Hi Hd).
  - intros se [(se0 & Hse & Hid & ->)|[Hse Hid]]%alter_elem; [left|right].
    + destruct (turn_entry _ _ _ _ Hi Ht Hse Hid) as (e & -> & _). by exists e.
    + split; [done|]. intros Hs. by apply Hid, (to_entry _ _ _ (ai_turn _ _ Hi tn _ Ht Hse)).
Qed.

Definition settled (L : string -> Receipt) (m : Mux) (tn : Turn) (ks : list nat) (r : Mux * list Effect) : Prop :=
  ∃ p, r.1 = set_pending p m ∧ AckInv L (set_pending p (set_loops [] None m)) ∧
    (∀ se, se ∈ p -> se.1 = sm_sequenceID (tn_message tn) -> list_to_set (map HSink ks) ⊆ holders se.2) ∧
    (∀ s, HubAck s ∈ r.2 -> ks = [] ∧ earned (L s)) ∧ (∀ s L', foldl (handed s) (L' s) r.2 = L' s).

Lemma release_turn L m tn ks :
  AckInv L m -> turn m = Some tn -> matchedListeners tn ≠ [] ∨ ks ≠ [] -> settled L m tn ks (claims_act tn ks m).
Proof.
  intros Hi Ht Hsome. unfold settled, claims_act, andThen, alter_entry. cbn [fst snd].
  rewrite decide_True by done. unfold releaseClaim. cbn [pending set_pending].
  destruct (altered_entries L m tn (fun e => with_holders (holders e ∪ list_to_set (map HSink ks)) e) Hi Ht)
    as (Hnd & Hdis & Hp).
  set (p1 := map _ (pending m)) in *. destruct (jm_get _ p1) as [e1|] eqn:E.
  - apply (jm_get_Some _ _ _ Hnd), Hp in E as [(e & Hse & Hid & [= ->])|[_ Hk]]; [|done].
    destruct (turn_holders _ _ _ _ ks Hi Ht Hse Hid Hsome) as (Hpos & Hks & Hempty & Hok). cbn [holders with_holders] in *.
    assert (¬ disposed m = true) by (intros Hd; rewrite (ai_disposed _ _ Hi Hd) in Hse; by apply elem_of_nil in Hse).
    case_decide as Hd; eexists; (split; [reflexivity|]); (split; [|split; [|split; [|done]]]); cbn.
    + apply (AckInv_settled L m tn); [done..| | |done].
      * rewrite jm_delete_keys. by apply NoDup_filter.
      * intros se [Hne [(e' & _ & _ & ->)|?]%Hp]%list_elem_of_filter; [done|by left].
    + intros se [Hne _]%list_elem_of_filter. done.
    + intros s [= ->]%list_elem_of_singleton. rewrite Hpos. by apply Hempty.
    + apply (AckInv_settled L m tn); [done..|by apply jm_set_NoDup| |done].
      intros se [->|[[(e' & _ & _ & ->)|?]%Hp Hne]]%jm_set_elem; [right|done|by left].
      eexists. split; [exact Hse|]. split; [done|]. split; [done|]. by apply Hok.
    + intros se [->|[_ Hne]]%jm_set_elem; [|done]. done.
    + by intros s ?%elem_of_nil.
  - exists p1. apply jm_get_None in E. assert (∀ se, se ∈ p1 -> se.1 ≠ sm_sequenceID (tn_message tn)) as Hne.
    { intros se Hin Hk. apply E. rewrite <- Hk. by apply list_elem_of_fmap_2. }
    split; [done|]. split; [|split; [|split; [by intros s ?%elem_of_nil|done]]].
    + apply (AckInv_settled L m tn); [done..| |done]. intros se Hin. left. generalize (Hne se Hin).
      apply Hp in Hin as [(e & _ & _ & ->)|?]; done.
    + intros se Hin. by apply Hne in Hin.
Qed.

Lemma unmatched_turn L m tn :
  AckInv L m -> turn m = Some tn -> matchedListeners tn = [] -> settled L m tn [] (claims_act tn [] m).
Proof.
  intros Hi Ht Hnone. unfold settled, claims_act, andThen, alter_entry. cbn [fst snd pending set_pending].
  rewrite decide_False by (rewrite Hnone; by intros [|]). cbn [pending set_pending]. rewrite map_map.
  pose (f := fun e => with_unmatched (Some (tn_message tn)) (with_holders (holders e ∪ ∅) e)).
  destruct (altered_entries L m tn f Hi Ht) as (Hnd & Hdis & Hp).
  eexists. split; [reflexivity|]. split; [|split; [set_solver|split; [by intros s ?%elem_of_nil|done]]].
  erewrite map_ext; [apply (AckInv_settled L m tn); [done..|exact Hnd| |exact Hdis]|].
  - intros se [(e & Hse & Hid & ->)|?]%Hp; [right|by left].
    eexists. split; [exact Hse|]. split; [done|]. split; [done|].
    destruct (turn_entry _ _ _ _ Hi Ht Hse Hid) as (e' & [= <-] & [Hne Hpos Hc _] & Hdr & Hun & _ & Hsub).
    rewrite Hnone in Hsub. cbn in *.
    assert (holders e ∪ ∅ = {[HDrain (tn_entry tn)]}) as Hh by set_solver.
    split; cbn; rewrite ?Hh; [set_solver|done|set_solver|].
    intros message [= <-]. split; [done|]. by rewrite Hid.
  - intros [s e]. cbn. by repeat case_decide.
Qed.

Lemma seen_finishTurn L m tn :
  AckInv L m -> handing m = [] -> turn m = Some tn -> seen L (finishTurn tn m).
Proof.
  intros Hi Hh Ht. unfold finishTurn. set (ks := matchedSinks (tn_message tn) m).
  assert (settled L m tn ks (claims_act tn ks m)) as (p & Hr & Hinv & Hks & Hack & Hfold).
  { destruct (decide (matchedListeners tn ≠ [] ∨ ks ≠ [])) as [Hsome|Hnone]; [by apply release_turn|].
    assert (ks = []) as -> by (destruct ks; naive_solver). apply unmatched_turn; [done..|].
    destruct (matchedListeners tn); naive_solver. }
  fold (claims_act tn ks). unfold andThen at 1 2. destruct (claims_act tn ks m) as [m1 out1]. cbn [fst snd] in *. subst m1.
  destruct (pushes_claims (tn_message tn) ks (set_pending p m)) as ([= Hp2 Hh2 Ht2 Hd2] & Hf2 & Hno & Hgive).
  destruct (each (push (tn_message tn)) ks (set_pending p m)) as [m2 out2]. cbn [fst snd] in *.
  assert (∀ s, foldl (handed s) (L s) ((out1 ++ out2) ++ []) =
    foldl (fun L k => give (sm_sequenceID (tn_message tn)) (HSink k) L) L ks s) as Hall.
  { intros s. by rewrite app_nil_r, foldl_app, Hfold, Hgive. }
  split; cbn [fst snd].
  - eapply AckInv_ext; [intros s; symmetry; apply Hall|].
    eapply (AckInv_same _ (set_pending p (set_loops [] None m))); [cbn; by rewrite Hp2, Hh2, Hd2, Hh|done|].
    by apply AckInv_gives.
  - intros s. rewrite app_nil_r. intros [[-> He]%Hack|Hin]%elem_of_app; [|by apply Hno in Hin].
    rewrite <- (app_nil_r (out1 ++ out2)), Hall. done.
Qed.

(** *** A frame arrives *)

(** The ledger with a frame's page turned. *)
Definition turned (s : string) (L : string -> Receipt) : string -> Receipt := fun s' =>
  if decide (s = s') then nothing else L s'.

Lemma seen_received L m message now :
  AckInv L m -> at_rest m = true -> seen (turned (sm_sequenceID message) L) (received ackTTLMs message now m).
Proof.
  intros Hi Hr. assert (handing m = [] ∧ turn m = None) as [Hh Ht].
  { unfold at_rest in Hr. by destruct (handing m), (turn m). }
  split; [|unfold received, andThen, sweepPending; case_match; cbn; by intros s ?%elem_of_nil].
  unfold received. destruct (disposed m) eqn:Hd; cbn.
  { destruct Hi. assert (Hp := ai_disposed0 Hd). split; cbn; rewrite ?Hp, ?Hh, ?Ht; try done.
    - apply NoDup_nil_2.
    - intros se ?%elem_of_nil. done.
    - intros g h ?%elem_of_nil. done.
    - intros s. unfold turned. case_decide; [intros i; cbn; set_solver|done]. }
  destruct (AckInv_fewer L m (sweep (now - ackTTLMs) (pending m)) Hi) as [Hnd Hen _ _ _ Hdr _].
  { apply sweep_sublist. }
  cbn in Hnd, Hen. set (p := sweep (now - ackTTLMs) (pending m)) in *.
  set (s0 := sm_sequenceID message). set (entry := mkPendingAck _ _ _ _ _).
  assert (∀ se, se ∈ jm_set s0 entry (jm_delete s0 p) -> se = (s0, entry) ∨ se ∈ p ∧ se.1 ≠ s0) as Hin.
  { intros se [?|[[_ Hse]%list_elem_of_filter Hne]]%jm_set_elem; auto. }
  assert (Hnd' : NoDup (map fst (jm_set s0 entry (jm_delete s0 p)))).
  { apply jm_set_NoDup. rewrite jm_delete_keys. by apply NoDup_filter. }
  split; cbn; [done|..].
  - intros se [->|[Hse Hne]]%Hin; unfold turned; cbn.
    + rewrite decide_True by done. split; [split; cbn|cbn; lia]; [set_solver|done|set_solver|done].
    + rewrite decide_False by congruence. destruct (Hen se Hse). split; [done|lia].
  - intros tn se [= <-] [->|[Hse Hne]]%Hin; split; cbn.
    + done.
    + intros _. split; [set_solver|]. split; [done|]. split; [|done].
      intros l Hl. unfold turned. rewrite decide_True by done. cbn. apply elem_of_union. right.
      apply elem_of_union. right. apply elem_of_list_to_set, list_elem_of_fmap. by exists l.
    + split; [|done]. intros Hid. destruct (Hen se Hse). lia.
    + intros Hs. by destruct Hne.
  - by intros tn l [= <-].
  - intros g h Hg. rewrite Hh in Hg. by apply elem_of_nil in Hg.
  - intros s. unfold turned. case_decide; [intros i; cbn; set_solver|apply Hdr].
  - congruence.
Qed.

(** *** Every step *)

(** What a step does to the claims and the loops. *)
Inductive ClaimAct (m : Mux) : Event -> (Mux * list Effect) -> Prop :=
  | ca_unseen e act : unseen act -> frugal act -> (∀ s r, noted s r e = r) -> ClaimAct m e (act m)
  | ca_ack s l : ClaimAct m (AckListener s l) (releaseClaim s (HListener l) m)
  | ca_sink_ack k s : ClaimAct m (SinkAck k s) (releaseClaim s (HSink k) m)
  | ca_abandon k : ClaimAct m (SinkReturn k) (abandonSink k m)
  | ca_hand g rest : handing m = g :: rest -> ClaimAct m Continue (handNext g rest m)
  | ca_deliver tn l todo : handing m = [] -> turn m = Some tn -> tn_todo tn = l :: todo ->
      ClaimAct m Continue (emit (Deliver l (tn_message tn))
        (set_loops (handing m) (Some (mkTurn (tn_message tn) (tn_entry tn) (matchedListeners tn) todo)) m))
  | ca_finish tn : handing m = [] -> turn m = Some tn -> ClaimAct m Continue (finishTurn tn m)
  | ca_received message now : at_rest m = true -> ClaimAct m (Received message now) (received ackTTLMs message now m).

Lemma ca_still m e act : still act -> (∀ s r, noted s r e = r) -> ClaimAct m e (act m).
Proof. intros Hs He. apply ca_unseen; [by apply unseen_still|by apply frugal_still|done]. Qed.

Lemma continue_ClaimAct m r : continue m = Some r -> ClaimAct m Continue r.
Proof.
  unfold continue. destruct (handing m) as [|g rest] eqn:Hh; [destruct (turn m) as [tn|] eqn:Ht; [|done]|];
    intros [= <-]; [|by apply ca_hand].
  unfold turnNext. destruct (tn_todo tn) as [|l todo] eqn:Htodo; [by apply ca_finish|by apply ca_deliver].
Qed.

Lemma step_ClaimAct e m r : step e m = Some r -> ClaimAct m e r.
Proof.
  intros Hs.
  destruct e; cbv beta iota zeta delta [HubMux.step] in Hs; try apply whenRested_inv in Hs as [Hrest Hs];
    try (apply answered_inv in Hs as (x & Hx & Hw & <-));
    try (apply (inj Some) in Hs as <-);
    try (constructor; fail);
    try (apply ca_still; [|done]; first [apply still_retain|apply still_rearmTopic
      |apply still_rearmRefusedTopics|apply still_unlisten|apply still_release|apply still_mailboxReceive
      |apply still_sinkNext|apply still_fetchTopic|apply still_subscribeRejected|apply still_sleepEnded
      |apply still_subscribed|apply still_set_attempt|unfold suspendPublishing; still; done
      |apply still_guarded; done]; fail).
  - apply ca_unseen; [apply unseen_onInbound|apply frugal_onInbound|done].
  - apply ca_unseen; [apply unseen_dispose|apply frugal_dispose|done].
  - by apply continue_ClaimAct.
  - change (fetchReady localDID fetch m = Some r) in Hs.
    apply still_fetchReady in Hs as (act & Ha & ->). by apply ca_still.
  - destruct (draining m); [|done]. apply (inj Some) in Hs as <-. by apply ca_received.
  - destruct (draining m); [|done]. apply (inj Some) in Hs as <-.
    apply ca_still; [apply still_drainEnded|done].
Qed.

Lemma seen_abandonSink L m k :
  AckInv L m -> (∀ s, HSink k ∈ gone (L s)) -> seen L (abandonSink k m).
Proof.
  intros Hi Hgone. unfold abandonSink.
  assert (still (close k ▷ forget_sink k)) as Hstill by (apply still_then; [apply still_close|apply still_forget_sink]).
  generalize (unseen_inv _ (unseen_still _ Hstill) L m Hi), (still_mute _ Hstill m).
  generalize (close k ▷ forget_sink k). intros act Hinv Hmute. unfold andThen. destruct (act m) as [m1 out1].
  cbn [fst snd] in *. rewrite app_nil_r. split; cbn [fst snd].
  - eapply AckInv_ext; [|by apply abandon_inv]. intros s. by rewrite handed_mute.
  - intros s Hin. by destruct (mute_no_ack _ _ Hmute Hin).
Qed.

Lemma ClaimAct_seen L m e r :
  AckInv L m -> ClaimAct m e r -> seen (fun s => noted s (L s) e) r.
Proof.
  intros Hi Ha. destruct Ha as [e act Hu _ He|s l|k s|k|g rest Hh|tn l todo Hh Ht Htodo|tn Hh Ht|message now Hr].
  - apply seen_unseen; [done|]. eapply AckInv_ext; [|done]. intros s. by rewrite He.
  - destruct (releaseClaim_inv (fun s' => noted s' (L s') (AckListener s l)) m s (HListener l)) as (H1 & H2 & H3);
      [|done|cbn; rewrite decide_True by done; set_solver|].
    { eapply AckInv_more; [|done]. intros s'. cbn. case_decide; set_solver. }
    split; [eapply AckInv_ext; [|exact H1]; intros; by rewrite H3|]. intros p Hp. rewrite H3. by destruct (H2 p Hp) as [-> ?].
  - destruct (releaseClaim_inv (fun s' => noted s' (L s') (SinkAck k s)) m s (HSink k)) as (H1 & H2 & H3);
      [|done|cbn; rewrite decide_True by done; set_solver|].
    { eapply AckInv_more; [|done]. intros s'. cbn. case_decide; set_solver. }
    split; [eapply AckInv_ext; [|exact H1]; intros; by rewrite H3|]. intros p Hp. rewrite H3. by destruct (H2 p Hp) as [-> ?].
  - apply seen_abandonSink; [|cbn; set_solver]. eapply AckInv_more; [|done]. intros s. cbn. set_solver.
  - by apply seen_handNext.
  - by apply seen_deliver.
  - by apply seen_finishTurn.
  - by apply (seen_received L).
Qed.

Lemma receipt_snoc s tr e out : receipt s (tr ++ [(e, out)]) = foldl (handed s) (noted s (receipt s tr) e) out.
Proof. unfold receipt. by rewrite foldl_app. Qed.

Lemma trace_claims tr m : trace tr m -> AckInv (fun s => receipt s tr) m.
Proof.
  induction 1 as [|tr m e m' out Htr IH Hs%step_ClaimAct].
  - split; cbn; try done; [apply NoDup_nil_2|..]; intros *; rewrite ?elem_of_nil; try done.
  - destruct (ClaimAct_seen _ _ _ _ IH Hs) as [Hinv _]. eapply AckInv_ext; [|exact Hinv].
    intros s. by rewrite receipt_snoc.
Qed.

(** A disposed mux stays disposed. *)
Lemma releaseClaim_disposed s h m : disposed (releaseClaim s h m).1 = disposed m.
Proof. unfold releaseClaim. destruct (jm_get s (pending m)); [|done]. by case_decide. Qed.

Lemma claims_act_disposed tn ks m : disposed (claims_act tn ks m).1 = disposed m.
Proof.
  unfold claims_act, andThen, alter_entry. cbn [fst snd]. case_decide; [|done].
  match goal with |- context [releaseClaim ?s ?h ?m0] =>
    generalize (releaseClaim_disposed s h m0); by destruct (releaseClaim s h m0) end.
Qed.

Lemma finishTurn_disposed tn m : disposed (finishTurn tn m).1 = disposed m.
Proof.
  unfold finishTurn. set (ks := matchedSinks _ m). fold (claims_act tn ks). unfold andThen at 1 2.
  generalize (claims_act_disposed tn ks m). destruct (claims_act tn ks m) as [m1 out1]. cbn [fst]. intros <-.
  destruct (pushes_claims (tn_message tn) ks m1) as ([= _ _ _ Hd] & _).
  by destruct (each (push (tn_message tn)) ks m1) as [m2 out2].
Qed.

Lemma abandonSink_disposed k m : disposed (abandonSink k m).1 = disposed m.
Proof.
  unfold abandonSink.
  generalize (still_claims _ (still_then _ _ (still_close k) (still_forget_sink k)) m).
  generalize (close k ▷ forget_sink k). intros act. unfold andThen. destruct (act m) as [m1 out1]. by intros [= _ _ _ <-].
Qed.

Lemma ClaimAct_disposed m e r : ClaimAct m e r -> disposed m = true -> disposed r.1 = true.
Proof.
  intros Ha Hd. destruct Ha; cbn; try done.
  - by apply unseen_disposed.
  - by rewrite releaseClaim_disposed.
  - by rewrite releaseClaim_disposed.
  - by rewrite abandonSink_disposed.
  - unfold handNext. repeat case_match; done.
  - by rewrite finishTurn_disposed.
  - unfold received. by rewrite Hd.
Qed.

Lemma disposed_forever tr m out : trace tr m -> (Dispose, out) ∈ tr -> disposed m = true.
Proof.
  induction 1 as [|tr m e m' out' Htr IH Hs]; [by intros ?%elem_of_nil|].
  intros [Hin|[= <- _]%list_elem_of_singleton]%elem_of_app.
  - apply step_ClaimAct in Hs. by apply (ClaimAct_disposed _ _ _ Hs), IH.
  - cbv beta iota zeta delta [HubMux.step] in Hs. apply (inj Some) in Hs. rewrite dispose_eq in Hs.
    destruct (disposed m) eqn:Hd; [by injection Hs as <- _|].
    generalize (still_claims _ still_teardown (set_flags (draining m) true true (set_pending [] m))).
    rewrite Hs. by intros [= _ _ _ ->].
Qed.

Lemma ClaimAct_frugal m e r :
  ClaimAct m e r -> (∃ act, frugal act ∧ r = act m) ∨ ∃ message now, e = Received message now ∧ r = received ackTTLMs message now m.
Proof.
  intros Ha. destruct Ha; try (left; eexists; split; [|reflexivity]; first [done|apply frugal_releaseClaim
    |apply frugal_abandonSink|apply frugal_finishTurn]; fail); [left..|right; eauto].
  - exists (handNext g rest). split; [|done]. apply frugal_keys. intros m'. unfold handNext.
    repeat case_match; cbn; (split; [first [by intros s' ?%elem_of_nil|by intros s' [=]%list_elem_of_singleton]|done]).
  - eexists ((fun m => (set_loops _ _ m, [])) ▷ emit (Deliver l (tn_message tn))). split; [|reflexivity].
    apply frugal_then; [by apply frugal_loops|]. apply frugal_keys. intros m'.
    split; [by intros s' [=]%list_elem_of_singleton|done].
Qed.

Lemma ClaimAct_pays m e r s :
  ClaimAct m e r -> tidy (briefs m) -> acks s r.2 + claimed s r.1 <= claimed s m + if arrives s e then 1 else 0.
Proof.
  intros [(act & Hf & ->)|(message & now & -> & ->)]%ClaimAct_frugal Hm.
  - destruct (Hf m Hm) as [_ Hle]. specialize (Hle s). case_match; lia.
  - rewrite acks_none by apply received_acks. generalize (received_pays ackTTLMs now message m s).
    cbn [arrives]. by rewrite <- decide_bool_decide.
Qed.

Lemma acks_some s out : HubAck s ∈ out -> 1 <= acks s out.
Proof.
  intros (out1 & out2 & ->)%list_elem_of_split. rewrite acks_app.
  assert (1 <= acks s (HubAck s :: out2)); [|lia].
  unfold acks. rewrite filter_cons_True by by apply bool_decide_eq_true. cbn [length]. lia.
Qed.

Lemma ack_not_arrival m e r s : ClaimAct m e r -> HubAck s ∈ r.2 -> arrives s e = false.
Proof.
  intros Ha Hin. destruct Ha; try done.
  - by destruct (mute_no_ack _ _ (unseen_mute _ H m) Hin).
  - unfold received in Hin. case_match; by apply elem_of_nil in Hin.
Qed.

Lemma AckInv_tidy L m : AckInv L m -> tidy (briefs m).
Proof.
  intros Hi. split; [rewrite briefs_keys; apply Hi|].
  intros b (se & -> & Hse)%list_elem_of_fmap. by destruct (ai_entries _ _ Hi se Hse) as [[] _].
Qed.

Lemma trace_pays tr m s : trace tr m -> acks s (effects tr) + claimed s m <= arrivals s tr.
Proof.
  induction 1 as [|tr m e m' out Htr IH Hs%step_ClaimAct]; [done|].
  generalize (AckInv_tidy _ _ (trace_claims _ _ Htr)). intros Hm. generalize (ClaimAct_pays _ _ _ s Hs Hm). cbn [fst snd]. rewrite effects_app, acks_app.
  unfold arrivals in *. rewrite filter_app, length_app, filter_cons. cbn [effects flat_map fst snd].
  rewrite app_nil_r. destruct (arrives s e); [rewrite decide_True by done|rewrite decide_False by done]; cbn; lia.
Qed.

(** C8. Every acknowledgement the mux sends upstream is earned, whatever the order of deliveries,
    acknowledgements, registrations, closings and redeliveries: since the frame last arrived, everyone it
    was handed to (each listener called with it, at its arrival or from the backlog, and each sink it was
    pushed to) has acknowledged it or, a sink, has closed, and at least one has acknowledged it. So an
    expired claim, an abandoned sink and an unread frame acknowledge nothing; nor does a mux that has been
    disposed. And a frame is acknowledged at most as often as it arrived. *)
Theorem acks_earned tr e m out :
  trace (tr ++ [(e, out)]) m ->
  (∀ s, HubAck s ∈ out -> earned (receipt s (tr ++ [(e, out)])) ∧ ∀ out', (Dispose, out') ∉ tr) ∧
  (∀ s, acks s (effects (tr ++ [(e, out)])) <= arrivals s (tr ++ [(e, out)])).
Proof.
  intros Htr'. split; [|intros s; generalize (trace_pays _ _ s Htr'); lia].
  intros s Hin. apply mtrace_snoc_inv in Htr' as (m0 & Htr & Hs%step_ClaimAct).
  assert (AckInv (fun s => receipt s tr) m0) as Hi by by apply trace_claims. split.
  - rewrite receipt_snoc. by apply (ClaimAct_seen _ _ _ _ Hi Hs).
  - intros out' Hdis%(disposed_forever _ _ _ Htr). assert (Hp := ai_disposed _ _ Hi Hdis).
    generalize (AckInv_tidy _ _ Hi). intros Hm.
    generalize (ClaimAct_pays _ _ _ s Hs Hm), (acks_some s out Hin).
    rewrite (ack_not_arrival _ _ _ _ Hs Hin). unfold claimed. rewrite Hp. cbn [fst snd jm_has jm_get]. lia.
Qed.
End acks.

(** ** A run of it *)

(** A frame to two listeners, one acknowledging at once; another that arrives before its listener. *)
Module Drained.
Definition frame (s t : string) : StoredMessage := mkStoredMessage s "did:b" t [] None.
Definition events : list Event :=
  [OnInbound "t" 0 None 0%Z; Continue; OnInbound "t" 1 None 0%Z; Continue;
   Received (frame "p1" "t") 10%Z; Continue; AckListener "p1" 0; Continue; Continue;
   Received (frame "p2" "u") 20%Z; Continue;
   OnInbound "u" 2 None 30%Z; Continue; Continue; AckListener "p2" 2; AckListener "p1" 1].
Definition final : Mux * Trace := default (createHubMux, []) (run "did:a" [100]%Z 60000 events createHubMux).

Lemma drained_trace : trace "did:a" [100]%Z 60000 final.2 final.1.
Proof.
  apply (mrun_init events). vm_compute. reflexivity.
Qed.

Lemma drained_split : final.2 = take 15 final.2 ++ [(AckListener "p1" 1, [HubAck "p1"])].
Proof. vm_compute. reflexivity. Qed.
End Drained.

Lemma acks_earned_witness :
  earned (receipt "p1" (take 15 Drained.final.2 ++ [(AckListener "p1" 1, [HubAck "p1"])])).
Proof.
  refine (proj1 (proj1 (acks_earned "did:a" [100]%Z 60000 (take 15 Drained.final.2) (AckListener "p1" 1)
    Drained.final.1 [HubAck "p1"] _) "p1" _)).
  - rewrite <- Drained.drained_split. exact Drained.drained_trace.
  - by apply elem_of_cons; left.
Defined.
