(* ===== verification/HubMuxBacklog.v ===== *)
(** * The backlog of the hub mux

    Frames that arrive before anyone listens: they are kept while they are young and handed, in the order
    they arrived, to the first listener of their topic. The sweep that drops the old ones stops at the
    first young one, which finds them all as long as the clock does not run backwards. *)

From S2P Require Import Prelude HubProtocol Codecs HubMux HubMuxSubs HubMuxClaims HubMuxAcks.

(** The clock's readings. *)
Definition reading (e : Event) : option Z :=
  match e with Received _ now | OnInbound _ _ _ now => Some now | _ => None end.

Definition readings (tr : Trace) : list Z := omap (fun eo => reading eo.1) tr.

(** When the pending claims were made, in their order. *)
Definition ages (m : Mux) : list Z := map (fun se => claimedAt se.2) (pending m).

Lemma ages_briefs m : ages m = map (fun b => b.2.2) (briefs m).
Proof. unfold ages, briefs. by rewrite map_map. Qed.

(** On claims in the order of their times, the early break misses nothing. *)
Lemma sweep_filter cutoff (p : list Entry) :
  StronglySorted Z.le (map (fun se : Entry => claimedAt se.2) p) ->
  sweep cutoff p = filter (fun se => (cutoff < claimedAt se.2)%Z) p.
Proof.
  induction p as [|se p IH]; [done|]. cbn [map sweep]. intros [Hp Hse]%StronglySorted_inv.
  destruct (Z.ltb_spec cutoff (claimedAt se.2)) as [Hlt|Hge].
  - rewrite filter_cons_True, filter_all; [done| |done].
    intros se' Hin. apply list_elem_of_In, (in_map (fun se : Entry => claimedAt se.2)), list_elem_of_In in Hin.
    rewrite Forall_forall in Hse. apply Hse in Hin. lia.
  - rewrite filter_cons_False by lia. by apply IH.
Qed.

(** The frame an entry keeps for the topic's first listener. *)
Definition waiting (t : string) (se : Entry) : option StoredMessage :=
  match unmatched se.2 with
  | Some message => if decide (sm_topicID message = t) then Some message else None
  | None => None
  end.

(** The entry once a listener has it. *)
Definition taken (l : nat) (se : Entry) : Entry :=
  (se.1, mkPendingAck (pa_id se.2) {[HListener l]} (position se.2) (claimedAt se.2) None).

Lemma handoffs_waiting t (p : list Entry) : map snd (handoffs t p) = omap (waiting t) p.
Proof.
  induction p as [|[s e] p IH]; [done|]. unfold handoffs, waiting, isHandoff in *. cbn in *.
  destruct (unmatched e) as [message|]; [|done]. cbn. rewrite <- decide_bool_decide.
  destruct (decide (sm_topicID message = t)); cbn; by rewrite IH.
Qed.

Lemma claim_taken t l se : claim t l se = match waiting t se with Some _ => taken l se | None => se end.
Proof.
  unfold claim, waiting, isHandoff. destruct (unmatched se.2) as [message|]; [|done].
  rewrite <- decide_bool_decide. by case_decide.
Qed.

Section backlog.
Context (localDID : string) (retryDelaysMs : list Z) (ackTTLMs : Z).

#[local] Abbreviation step := (step localDID retryDelaysMs ackTTLMs).
#[local] Abbreviation run := (run localDID retryDelaysMs ackTTLMs).
#[local] Abbreviation trace := (trace localDID retryDelaysMs ackTTLMs).

Lemma trace_ages tr m :
  trace tr m -> StronglySorted Z.le (readings tr) ->
  StronglySorted Z.le (ages m) ∧ ∀ a, a ∈ ages m -> a ∈ readings tr.
Proof.
  induction 1 as [|tr m e m' out Htr IH Hs]; [split; [constructor|by intros a ?%elem_of_nil]|].
  unfold readings. rewrite omap_app. intros Hall.
  assert (StronglySorted Z.le (readings tr)) as Hsorted
    by (eapply StronglySorted_sublist, Hall; by apply sublist_inserts_r).
  destruct (IH Hsorted) as [Hages Hin].
  assert (Htidy := AckInv_tidy _ _ (trace_claims _ _ _ _ _ Htr)).
  apply step_ClaimAct, ClaimAct_frugal in Hs as [(act & Hf & Hr)|(message & now & -> & Hr)].
  - assert (sublist (ages m') (ages m)) as Hsub.
    { rewrite !ages_briefs. apply fmap_sublist. destruct (Hf m Htidy) as [Hb _]. by rewrite <- Hr in Hb. }
    split; [by eapply StronglySorted_sublist|].
    intros a Ha. apply elem_of_app. left. apply Hin. by eapply elem_of_sublist.
  - destruct (received_briefs ackTTLMs now message m) as (bs & Hsub & _ & Hb). rewrite <- Hr in Hb. cbn [fst] in Hb.
    apply (fmap_sublist (fun b : string * (string * Z) => b.2.2)) in Hsub. rewrite <- ages_briefs in Hsub.
    rewrite ages_briefs, Hb, map_app. cbn [omap list_omap reading] in *. split.
    + apply StronglySorted_snoc in Hall as [_ Hall].
      destruct (disposed m); cbn; [rewrite app_nil_r; by eapply StronglySorted_sublist|].
      apply StronglySorted_snoc. split; [by eapply StronglySorted_sublist|].
      apply Forall_forall. intros a Ha. rewrite Forall_forall in Hall. apply Hall, Hin. by eapply elem_of_sublist.
    + intros a [Ha|Ha]%elem_of_app; apply elem_of_app; [left|right].
      * apply Hin. by eapply elem_of_sublist.
      * destruct (disposed m); [by apply elem_of_nil in Ha|done].
Qed.

Lemma run_step e es m m1 out r :
  step e m = Some (m1, out) -> run es m1 = Some r -> run (e :: es) m = Some (r.1, (e, out) :: r.2).
Proof. intros He Hes. cbn [mrun]. by rewrite He, Hes. Qed.

(** The loop of [onInbound] over entries that are still there calls the listener with each. *)
Lemma run_handing l todo : ∀ m,
  handing m = [mkHanding l todo] -> disposed m = false ->
  (∀ h, h ∈ todo -> pa_id <$> jm_get h.1.1 (pending m) = Some h.1.2) ->
  run (replicate (S (length todo)) Continue) m =
  Some (set_loops [] (turn m) m, map (fun h => (Continue, [Deliver l h.2])) todo ++ [(Continue, [])]).
Proof.
  induction todo as [|[[s i] message] todo IH]; intros m Hh Hd Hin.
  - cbn. unfold continue. by rewrite Hh.
  - specialize (Hin (s, i, message)) as Hhead. cbn in Hhead.
    eapply (run_step _ _ _ (set_loops [mkHanding l todo] (turn m) m) [Deliver l message]
      (_, map (fun h => (Continue, [Deliver l h.2])) todo ++ [(Continue, [])])); [|apply IH; [done..|]].
    + cbn [HubMux.step]. unfold continue. rewrite Hh. unfold handNext. cbn [hg_todo hg_listener].
      rewrite Hd, bool_decide_eq_true_2; [done|]. apply Hhead, elem_of_cons. by left.
    + intros h Hh'. apply Hin, elem_of_cons. by right.
Qed.

(** The state [onInbound] leaves for its loop. *)
Lemma onInbound_claims t l o now m :
  let r := onInbound localDID ackTTLMs t l o now m in
  let p := sweep (now - ackTTLMs) (pending m) in
  Forall mute r.2 ∧ pending r.1 = map (claim t l) p ∧ handing r.1 = mkHanding l (handoffs t p) :: handing m ∧
  turn r.1 = turn m ∧ disposed r.1 = disposed m.
Proof.
  pose (act := addListener t l ▷ retain localDID t o).
  assert (still act) as Hact by (apply still_then; [apply still_addListener|apply still_retain]).
  unfold onInbound. fold act. unfold andThen, sweepPending, claimBacklog.
  generalize (still_claims _ Hact m), (still_mute _ Hact m). destruct (act m) as [m1 out1].
  cbn. intros [= Hp Hh Ht Hd] Hmute. rewrite !app_nil_r, Hp, Hh, Ht, Hd. done.
Qed.

(** C31. When the clock does not run backwards, a call of [onInbound] on a mux at rest drops exactly the
    pending claims that are older than the acknowledgement window, of whatever topic, and hands every
    younger frame of its topic that arrived unmatched to the new listener, in the order they arrived, each
    once, acknowledging none; the listener then holds each of them alone, and no other claim has changed. *)
Theorem backlog_handed tr m t l o now :
  trace tr m -> StronglySorted Z.le (readings tr ++ [now]) -> at_rest m = true -> disposed m = false ->
  let young := filter (fun se : Entry => (now - ackTTLMs < claimedAt se.2)%Z) (pending m) in
  let messages := omap (waiting t) young in
  ∃ m' out,
    run (OnInbound t l o now :: replicate (S (length messages)) Continue) m =
    Some (m', (OnInbound t l o now, out) ::
      map (fun message => (Continue, [Deliver l message])) messages ++ [(Continue, [])]) ∧
    Forall mute out ∧ at_rest m' = true ∧
    pending m' = map (fun se => match waiting t se with Some _ => taken l se | None => se end) young.
Proof.
  intros Htr Hclock Hrest Hd young messages.
  apply StronglySorted_snoc in Hclock as [Hclock _].
  assert (sweep (now - ackTTLMs) (pending m) = young) as Hyoung.
  { apply sweep_filter. by destruct (trace_ages _ _ Htr Hclock). }
  destruct (onInbound_claims t l o now m) as (Hmute & Hp & Hh & Ht & Hd'). rewrite Hyoung in *.
  assert (handing m = [] ∧ turn m = None) as [Hh0 Ht0].
  { unfold at_rest in Hrest. by destruct (handing m), (turn m). }
  destruct (onInbound localDID ackTTLMs t l o now m) as [m1 out] eqn:E. cbn [fst snd] in *.
  exists (set_loops [] None m1), out.
  split; [|split; [done|]; split; [done|]; cbn; rewrite Hp; apply map_ext; intros; apply claim_taken].
  unfold messages. rewrite <- handoffs_waiting, length_map, map_map. rewrite Ht0 in Ht. rewrite <- Ht.
  eapply (run_step _ _ _ m1 out (_, _)); [by rewrite <- E|]. apply run_handing.
  - by rewrite Hh, Hh0.
  - congruence.
  - intros h (se & message & Hse & _ & _ & ->)%handoffs_elem. cbn [fst snd]. rewrite Hp.
    assert (NoDup (map fst (map (claim t l) young))) as Hnd.
    { rewrite map_keys by apply claim_key. eapply sublist_NoDup; [|apply fmap_sublist, sublist_filter].
      apply (trace_claims _ _ _ _ _ Htr). }
    rewrite ((proj2 (jm_get_Some _ (claim t l se).2 _ Hnd)) ); cbn; [by rewrite claim_id|].
    apply list_elem_of_fmap. exists se. split; [|done]. unfold claim. by destruct (isHandoff t se), se.
Qed.
End backlog.

(** ** A run of it *)

(** Two frames of a topic and one of another arrive unmatched, the first too long ago. *)
Module Waiting.
Definition frame (s t : string) : StoredMessage := mkStoredMessage s "did:b" t [] None.
Definition events : list Event :=
  [Received (frame "p1" "t") 10%Z; Continue; Received (frame "p2" "u") 61000%Z; Continue;
   Received (frame "p3" "t") 61500%Z; Continue].
Definition final : Mux * Trace := default (createHubMux, []) (run "did:a" [100]%Z 60000 events createHubMux).

Lemma waiting_trace : trace "did:a" [100]%Z 60000 final.2 final.1.
Proof. apply (mrun_init events). vm_compute. reflexivity. Qed.

Lemma final_messages :
  omap (waiting "t") (filter (fun se : Entry => (62000 - 60000 < claimedAt se.2)%Z) (pending final.1)) =
  [frame "p3" "t"].
Proof. vm_compute. reflexivity. Qed.

Lemma final_ready :
  StronglySorted Z.le (readings final.2 ++ [62000%Z]) ∧ at_rest final.1 = true ∧ disposed final.1 = false.
Proof.
  split; [|split; vm_compute; reflexivity].
  assert (readings final.2 = [10; 61000; 61500]%Z) as -> by (vm_compute; reflexivity).
  repeat constructor; lia.
Qed.
End Waiting.

Lemma backlog_handed_witness :
  ∃ m' out,
    run "did:a" [100]%Z 60000 [OnInbound "t" 7 None 62000%Z; Continue; Continue] Waiting.final.1 =
    Some (m', [(OnInbound "t" 7 None 62000%Z, out); (Continue, [Deliver 7 (Waiting.frame "p3" "t")]); (Continue, [])]).
Proof.
  destruct Waiting.final_ready as (Hclock & Hrest & Hd).
  destruct (backlog_handed "did:a" [100]%Z 60000 Waiting.final.2 Waiting.final.1 "t" 7 None 62000%Z
    Waiting.waiting_trace Hclock Hrest Hd) as (m' & out & Hr & _).
  rewrite Waiting.final_messages in Hr. exists m', out. exact Hr.
Defined.
