(* ===== verification/Receive.v ===== *)
(** * The receive channel

    The [hub/v1/receive] handler of packages/hub-server/src/handlers.ts: one long-lived channel that
    serves a device the frames queued for it and then the ones published while it is connected. Four
    things run in it between its awaits: the drain of the backlog, the chain of writes, the loop that reads
    acks, and the registry's callback with a live frame. So a channel is a machine: an event is a callback
    or what one of its awaits is answered with, [receiveStep] what the code does until its next await, and
    a [ReceiveEffect] a call it makes out.

    The registry and the wake dispatcher belong to the hub and are shared with every other handler. *)

From S2P Require Import HubProtocol RateLimit ClientRegistry Wake Handlers Prelude.

(** ** Frames and options *)

Record ReceiveFrame := mkReceiveFrame {
  rf_sequenceID : string;
  rf_senderDID : string;
  rf_topicID : string;
  rf_payload : string;
  rf_logPosition : option string;
}.

(** The defaults resolved, [receiveWindow] at least 1. The ack timeout is a timer's and appears as the
    event of its firing. *)
Record ReceiveOptions := mkReceiveOptions {
  receiveBufferLimit : nat;
  receiveWindow : nat;
  receiveWindowBytes : Z;
  receiveAuthCacheTTL : Z;
}.

Definition DEFAULT_RECEIVE_AUTH_CACHE_TTL : Z := 5000.

(** [None]: absent or not finite. *)
Definition resolveReceiveAuthCacheTTL (value : option Z) : Z :=
  match value with
  | Some v => if (v <? 0)%Z then DEFAULT_RECEIVE_AUTH_CACHE_TTL else v
  | None => DEFAULT_RECEIVE_AUTH_CACHE_TTL
  end.

Definition receiveOptions (bufferLimit window : option nat) (windowBytes ttl : option Z) : ReceiveOptions :=
  mkReceiveOptions (default 256 bufferLimit) (Nat.max 1 (default 256 window))
    (default (512 * 1024)%Z windowBytes) (resolveReceiveAuthCacheTTL ttl).

(** ** The state of a channel *)

(** The await a link of [writeChain] is at. *)
Inductive Stage :=
  | AskingHook
  | GateAnswered (allow : bool)
  | WaitingRoom
  | RoomGiven
  | AwaitingWriter
  | Writing.

Record WriteTask := mkWriteTask { wt_frame : ReceiveFrame; wt_stage : Stage }.

(** The await the handler is at: the store's page, the writes of a page, the writes of a flushed batch. *)
Inductive DrainPc :=
  | Fetching (cursor : option string)
  | PageQueued (cursor : option string) (hasMore : bool)
  | FlushQueued
  | Returned
  | Threw (error : Thrown).

Inductive AckLoop := AckReading | AckStoring | AckStopped.

Record Channel := mkChannel {
  live : bool;
  liveBuffer : list ReceiveFrame;
  lastServed : string;
  pendingWrites : nat;
  tornDown : bool;
  writeChain : list ReceiveFrame;
  writing : option WriteTask;
  inFlight : list (string * Z);
  inFlightBytes : Z;
  authCache : gmap string (bool * Z);
  ackLoop : AckLoop;
  drainPc : DrainPc;
  receiveToken : nat;
  registry : Registry;
}.

Inductive ReceiveEffect :=
  | AuthorizeDeliver (request : AuthorizeRequest)
  | WriteFrame (frame : ReceiveFrame)
  | StoreFetch (params : FetchParams)
  | StoreAck (sequenceIDs : list string)
  | AckFailed
  | ArmAckTimeout
  | CancelReader
  | AbortWriter
  | ResolveDone.

Inductive ReceiveEvent :=
  (* callbacks *)
  | OnLive (message : StoredMessage)
  | Aborted
  | EvictedHere
  | AckTimeout
  (* the writes *)
  | WriteStarts (now : Z)
  | HookAnswered (decision : result string AuthorizeDecision) (now : Z)
  | GateResumes
  | RoomResumes
  | WriterReady (ok : bool)
  | Written (ok : bool)
  (* the acks: the reader is done or throws, or reads a value that may carry an ack *)
  | AckEnds
  | AckRead (ack : option (list string))
  | AckStored (ok : bool)
  (* the drain *)
  | Fetched (page : result Thrown FetchResult)
  | ChainSettled
  (* calls of other handlers *)
  | OtherRegistry (op : RegistryOp).

(** ** Acts *)

Abbreviation ChannelAct := (act_of Channel ReceiveEffect).
Abbreviation ReceiveTrace := (list (ReceiveEvent * list ReceiveEffect)).

Definition set_drain (l : bool) (buffer : list ReceiveFrame) (pc : DrainPc) (c : Channel) : Channel :=
  mkChannel l buffer (lastServed c) (pendingWrites c) (tornDown c) (writeChain c) (writing c) (inFlight c)
    (inFlightBytes c) (authCache c) (ackLoop c) pc (receiveToken c) (registry c).
Definition set_writes (served : string) (n : nat) (chain : list ReceiveFrame) (task : option WriteTask)
    (c : Channel) : Channel :=
  mkChannel (live c) (liveBuffer c) served n (tornDown c) chain task (inFlight c)
    (inFlightBytes c) (authCache c) (ackLoop c) (drainPc c) (receiveToken c) (registry c).
Definition set_window (m : list (string * Z)) (bytes : Z) (c : Channel) : Channel :=
  mkChannel (live c) (liveBuffer c) (lastServed c) (pendingWrites c) (tornDown c) (writeChain c) (writing c) m
    bytes (authCache c) (ackLoop c) (drainPc c) (receiveToken c) (registry c).
Definition set_authCache (m : gmap string (bool * Z)) (c : Channel) : Channel :=
  mkChannel (live c) (liveBuffer c) (lastServed c) (pendingWrites c) (tornDown c) (writeChain c) (writing c)
    (inFlight c) (inFlightBytes c) m (ackLoop c) (drainPc c) (receiveToken c) (registry c).
Definition set_ackLoop (a : AckLoop) (c : Channel) : Channel :=
  mkChannel (live c) (liveBuffer c) (lastServed c) (pendingWrites c) (tornDown c) (writeChain c) (writing c)
    (inFlight c) (inFlightBytes c) (authCache c) a (drainPc c) (receiveToken c) (registry c).
Definition set_down (down : bool) (r : Registry) (c : Channel) : Channel :=
  mkChannel (live c) (liveBuffer c) (lastServed c) (pendingWrites c) down (writeChain c) (writing c)
    (inFlight c) (inFlightBytes c) (authCache c) (ackLoop c) (drainPc c) (receiveToken c) r.

Definition set_stage (f : ReceiveFrame) (s : Stage) (c : Channel) : Channel :=
  set_writes (lastServed c) (pendingWrites c) (writeChain c) (Some (mkWriteTask f s)) c.

Section channel.
Context (toB64 : bytes -> string) (options : ReceiveOptions) (clientDID : string).

Definition toReceiveFrame (message : StoredMessage) : ReceiveFrame :=
  mkReceiveFrame (sm_sequenceID message) (sm_senderDID message) (sm_topicID message)
    (toB64 (sm_payload message)) (sm_logPosition message).

(** *** The ack window *)

Definition frameBytes (f : ReceiveFrame) : Z :=
  Z.of_nat (String.length (rf_payload f) + String.length (rf_senderDID f) + String.length (rf_topicID f) + 256).

Definition hasRoom (bytes : Z) (c : Channel) : bool :=
  (length (inFlight c) =? 0)%nat ||
  ((length (inFlight c) <? receiveWindow options)%nat && (inFlightBytes c + bytes <=? receiveWindowBytes options)%Z).

Definition releaseAll : ChannelAct := fun c => (set_window [] 0 c, []).

(** [onWindowChange], when the write under way has set it. *)
Definition notifyWindow : ChannelAct := fun c =>
  match writing c with
  | Some (mkWriteTask f WaitingRoom) =>
    if tornDown c || hasRoom (frameBytes f) c then (set_stage f RoomGiven c, []) else emit ArmAckTimeout c
  | _ => skip c
  end.

Definition waitForRoom (f : ReceiveFrame) : ChannelAct := fun c =>
  if tornDown c || hasRoom (frameBytes f) c then (set_stage f RoomGiven c, [])
  else emit ArmAckTimeout (set_stage f WaitingRoom c).

(** The loop that deletes up to and with the frame acked last. *)
Fixpoint releaseThrough (last : string) (m : list (string * Z)) (bytes : Z) : list (string * Z) * Z :=
  match m with
  | [] => ([], bytes)
  | (id, b) :: m' => if decide (id = last) then (m', bytes - b)%Z else releaseThrough last m' (bytes - b)%Z
  end.

Definition release (sequenceIDs : list string) : ChannelAct := fun c =>
  match last (filter (fun id => id ∈ sequenceIDs) (map fst (inFlight c))) with
  | None => skip c
  | Some final =>
    let '(m, bytes) := releaseThrough final (inFlight c) (inFlightBytes c) in
    notifyWindow (set_window m bytes c)
  end.

(** *** Teardown *)

Definition releaseBinding : ChannelAct := fun c =>
  (set_down (tornDown c)
     (unregisterIfIdle clientDID (releaseReceiveWriter clientDID (receiveToken c) (registry c))) c, []).

Definition markDown : ChannelAct := fun c => (set_down true (registry c) c, []).

Definition finish : ChannelAct := fun c =>
  if tornDown c then skip c
  else (markDown ▷ notifyWindow ▷ releaseBinding ▷ emit CancelReader ▷ emit AbortWriter ▷ emit ResolveDone) c.

(** *** Writing *)

Definition pushWrite (f : ReceiveFrame) : ChannelAct := fun c =>
  if tornDown c then skip c
  else
    let n := S (pendingWrites c) in
    if (receiveBufferLimit options <? n)%nat
    then finish (set_writes (lastServed c) n (writeChain c) (writing c) c)
    else (set_writes (lastServed c) n (writeChain c ++ [f]) (writing c) c, []).

(** The [finally] of a link of the chain. *)
Definition endWrite : ChannelAct := fun c =>
  (set_writes (lastServed c) (pred (pendingWrites c)) (writeChain c) None c, []).

(** A throw in it. *)
Definition failWrite : ChannelAct := finish ▷ endWrite.

(** The two joined by a NUL. *)
Definition gateKey (topicID : string) : string := clientDID +:+ String Ascii.zero "" +:+ topicID.

(** The next link of the chain, up to the gate's answer. One begun after teardown returns before its
    [try], so it is not counted out of [pending]. *)
Definition startWrite (f : ReceiveFrame) (now : Z) : ChannelAct := fun c =>
  if tornDown c then (set_writes (lastServed c) (pendingWrites c) (writeChain c) None c, [])
  else
    let ask := emit (AuthorizeDeliver (AuthReceiveDeliver clientDID (rf_topicID f))) (set_stage f AskingHook c) in
    match authCache c !! gateKey (rf_topicID f) with
    | Some (allow, expiresAt) => if (now <? expiresAt)%Z then (set_stage f (GateAnswered allow) c, []) else ask
    | None => ask
    end.

Definition writeStarts (now : Z) (c : Channel) : option (Channel * list ReceiveEffect) :=
  match writing c, writeChain c with
  | None, f :: chain => Some (startWrite f now (set_writes (lastServed c) (pendingWrites c) chain None c))
  | _, _ => None
  end.

(** The hook's decision, stored and answered by [gate]. *)
Definition hookAnswered (f : ReceiveFrame) (decision : result string AuthorizeDecision) (now : Z) : ChannelAct := fun c =>
  match decision with
  | Err _ => failWrite c
  | Ok d =>
    let allow := (normalizeAuthorizeDecision d).1 in
    let cache := if (0 <? receiveAuthCacheTTL options)%Z
      then <[gateKey (rf_topicID f) := (allow, now + receiveAuthCacheTTL options)%Z]> (authCache c) else authCache c in
    (set_stage f (GateAnswered allow) (set_authCache cache c), [])
  end.

Definition gateResumes (f : ReceiveFrame) (allow : bool) : ChannelAct :=
  if allow then waitForRoom f else endWrite.

Definition roomResumes (f : ReceiveFrame) : ChannelAct := fun c =>
  if tornDown c then endWrite c else (set_stage f AwaitingWriter c, []).

Definition writerReady (f : ReceiveFrame) (ok : bool) : ChannelAct := fun c =>
  if ok
  then emit (WriteFrame f) (set_stage f Writing
    (set_window (jm_set (rf_sequenceID f) (frameBytes f) (inFlight c)) (inFlightBytes c + frameBytes f)%Z c))
  else failWrite c.

Definition written (f : ReceiveFrame) (ok : bool) : ChannelAct := fun c =>
  if ok
  then endWrite (set_writes (if decide (lastServed c <ₛ rf_sequenceID f) then rf_sequenceID f else lastServed c)
    (pendingWrites c) (writeChain c) (writing c) c)
  else failWrite c.

(** *** Live frames *)

Definition onLive (message : StoredMessage) : ChannelAct := fun c =>
  let f := toReceiveFrame message in
  if live c then pushWrite f c
  else if (receiveBufferLimit options <=? length (liveBuffer c))%nat then finish c
  else (set_drain (live c) (liveBuffer c ++ [f]) (drainPc c) c, []).

(** *** The drain *)

Definition fetchPage (cursor : option string) : ChannelAct := fun c =>
  emit (StoreFetch (mkFetch clientDID cursor (Some 50) None)) (set_drain (live c) (liveBuffer c) (Fetching cursor) c).

Definition flushLoop : ChannelAct := fun c =>
  if tornDown c then (set_drain (live c) (liveBuffer c) Returned c, [])
  else match liveBuffer c with
  | [] => (set_drain true [] Returned c, [])
  | batch =>
    each pushWrite (filter (fun f => lastServed c <ₛ rf_sequenceID f) batch) (set_drain (live c) [] FlushQueued c)
  end.

(** The [catch] around the drain: torn down again, and the handler rejects instead of returning [done]. *)
Definition drainThrows (error : Thrown) : ChannelAct :=
  markDown ▷ notifyWindow ▷ releaseBinding ▷ emit CancelReader ▷ emit AbortWriter ▷
  (fun c => (set_drain (live c) (liveBuffer c) (Threw error) c, [])).

Definition fetched (page : result Thrown FetchResult) : ChannelAct := fun c =>
  match page with
  | Err error => drainThrows error c
  | Ok r =>
    each pushWrite (map toReceiveFrame (fe_messages r))
      (set_drain (live c) (liveBuffer c) (PageQueued (fe_cursor r) (fe_hasMore r)) c)
  end.

Definition pageWritten (cursor : option string) (hasMore : bool) : ChannelAct := fun c =>
  if hasMore
  then if tornDown c then (set_drain (live c) (liveBuffer c) Returned c, []) else fetchPage cursor c
  else flushLoop c.

(** [await writeChain]: nothing is queued or under way. *)
Definition chainSettled (c : Channel) : option (Channel * list ReceiveEffect) :=
  match writing c, writeChain c, drainPc c with
  | None, [], PageQueued cursor hasMore => Some (pageWritten cursor hasMore c)
  | None, [], FlushQueued => Some (flushLoop c)
  | _, _, _ => None
  end.

(** *** Acks *)

Definition ackRead (ack : option (list string)) : ChannelAct :=
  match ack with
  | None => skip
  | Some ids => release ids ▷ (fun c => (set_ackLoop AckStoring c, [])) ▷ emit (StoreAck ids)
  end.

Definition ackStored (ok : bool) : ChannelAct :=
  (fun c => (set_ackLoop AckReading c, [])) ▷ (if ok then skip else emit AckFailed).

(** ** The machine *)

Definition atStage (s : Stage) (f : ReceiveFrame -> ChannelAct) (c : Channel) : option (Channel * list ReceiveEffect) :=
  match writing c with
  | Some (mkWriteTask frame s') =>
    match s, s' with
    | AskingHook, AskingHook | WaitingRoom, WaitingRoom | RoomGiven, RoomGiven | AwaitingWriter, AwaitingWriter
    | Writing, Writing => Some (f frame c)
    | _, _ => None
    end
  | None => None
  end.

Definition whenReading (r : Channel * list ReceiveEffect) (c : Channel) : option (Channel * list ReceiveEffect) :=
  match ackLoop c with AckReading => Some r | _ => None end.

Definition receiveStep (e : ReceiveEvent) (c : Channel) : option (Channel * list ReceiveEffect) :=
  match e with
  | OnLive message => Some (onLive message c)
  | Aborted => Some (finish c)
  | EvictedHere => Some (finish c)
  | AckTimeout => atStage WaitingRoom (fun _ => releaseAll ▷ notifyWindow) c
  | WriteStarts now => writeStarts now c
  | HookAnswered decision now => atStage AskingHook (fun f => hookAnswered f decision now) c
  | GateResumes =>
    match writing c with
    | Some (mkWriteTask f (GateAnswered allow)) => Some (gateResumes f allow c)
    | _ => None
    end
  | RoomResumes => atStage RoomGiven roomResumes c
  | WriterReady ok => atStage AwaitingWriter (fun f => writerReady f ok) c
  | Written ok => atStage Writing (fun f => written f ok) c
  | AckEnds => whenReading (set_ackLoop AckStopped c, []) c
  | AckRead ack => whenReading (ackRead ack c) c
  | AckStored ok => match ackLoop c with AckStoring => Some (ackStored ok c) | _ => None end
  | Fetched page => match drainPc c with Fetching _ => Some (fetched page c) | _ => None end
  | ChainSettled => chainSettled c
  | OtherRegistry op => Some (set_down (tornDown c) (regExec op (registry c)) c, [])
  end.

(** The channel once it is bound, its first fetch asked for unless it was aborted before it began. *)
Definition openChannel (token : nat) (after : option string) (aborted : bool) (r : Registry) : Channel * list ReceiveEffect :=
  let c := mkChannel false [] "" 0 false [] None [] 0 ∅ AckReading (Fetching after) token r in
  if aborted then (finish ▷ (fun c => (set_drain false [] Returned c, []))) c else fetchPage after c.
End channel.

(** ** The handler up to its first wait

    [channel] is the number the registry knows the channel's two callbacks by; the answer carries the
    callback that ends the channel it replaces. *)
Section connect.
Context {St : Type} `{HubStore.HubStore St}.
Context (authorize : AuthorizeRequest -> result string AuthorizeDecision) (config : HubConfig).
Context (options : ReceiveOptions).

Definition handleReceive (iss : option string) (channel : nat) (after : option string) (aborted : bool) :
    Handler (S := St) (Channel * list ReceiveEffect * option nat) := fun st =>
  match getClientDID iss st with
  | (st, Err e) => (st, Err e)
  | (st, Ok clientDID) =>
    match authorized authorize (HUB_ERROR_CODES AuthorizationDeniedError) "Not authorized to receive"
            (AuthReceive clientDID) st with
    | (st, Err e) => (st, Err e)
    | (st, Ok _) =>
      let r := (register clientDID (hs_registry st)).1 in
      let '(r, token, evicted) := bindReceiveWriter clientDID channel channel r in
      let dispatcher := if hc_wake config then online clientDID (hs_dispatcher st) else hs_dispatcher st in
      let '(c, out) := openChannel options clientDID token after aborted r in
      (mkHubState (hs_store st) (registry c) (hs_didLimiter st) (hs_topicLimiter st) (hs_fetchWindows st)
         (hs_targetWindows st) dispatcher (hs_registrations st) (hs_events st),
       Ok (c, out, evicted))
    end
  end.
End connect.

(** ** Runs of a channel, from its opening *)

Abbreviation channel_trace toB64 options clientDID token after aborted r :=
  (mtrace (receiveStep toB64 options clientDID) (openChannel options clientDID token after aborted r).1).
