(* ===== verification/ReceiveWindow.v ===== *)
(** * The ack window of a receive channel

    How much a channel has in flight and queued. What is in flight is computed from the trace alone: the
    frames written, less those an ack or the timeout released. *)

From S2P Require Import HubProtocol RateLimit ClientRegistry Wake Handlers Prelude Receive.

(** ** What is in flight *)

(** An ack of a frame is one of every frame written before it: what is left starts after the last frame
    acked. *)
Fixpoint unacked (ids : list string) (m : list (string * Z)) : list (string * Z) :=
  match m with
  | [] => []
  | kv :: m' => if existsb (fun kv' => bool_decide (kv'.1 ∈ ids)) m then unacked ids m' else m
  end.

Definition released (m : list (string * Z)) (e : ReceiveEvent) : list (string * Z) :=
  match e with
  | AckRead (Some ids) => unacked ids m
  | AckTimeout => []
  | _ => m
  end.

(** The frame's fields and 256 for the envelope. *)
Definition weight (f : ReceiveFrame) : Z :=
  Z.of_nat (String.length (rf_payload f) + String.length (rf_senderDID f) + String.length (rf_topicID f)) + 256.

Definition frames_written (out : list ReceiveEffect) : list ReceiveFrame :=
  omap (fun e => match e with WriteFrame f => Some f | _ => None end) out.

Definition counted (m : list (string * Z)) (eo : ReceiveEvent * list ReceiveEffect) : list (string * Z) :=
  foldl (fun m f => jm_set (rf_sequenceID f) (weight f) m) (released m eo.1) (frames_written eo.2).

Definition in_flight (tr : ReceiveTrace) : list (string * Z) := foldl counted [] tr.

Definition total (m : list (string * Z)) : Z := foldr Z.add 0%Z (map snd m).

(** Frames queued for the socket or on their way to it. *)
Definition queued (c : Channel) : list ReceiveFrame :=
  match writing c with Some t => wt_frame t :: writeChain c | None => writeChain c end.

Lemma weight_frameBytes f : frameBytes f = weight f.
Proof. unfold frameBytes, weight. lia. Qed.

Lemma weight_nonneg f : (0 <= weight f)%Z.
Proof. unfold weight. lia. Qed.

(** ** The release loop *)

Lemma unacked_none ids m : filter (fun id => id ∈ ids) (map fst m) = [] -> unacked ids m = m.
Proof.
  intros Hf. destruct m as [|kv m]; [done|]. cbn [unacked]. destruct (existsb _ _) eqn:He; [|done].
  apply existsb_exists in He as (kv' & Hin%list_elem_of_In & Hk%bool_decide_eq_true).
  assert (kv'.1 ∈ filter (fun id => id ∈ ids) (map fst (kv :: m))) as Hf'
    by (apply list_elem_of_filter; split; [done|by apply list_elem_of_fmap_2]).
  rewrite Hf in Hf'. by apply elem_of_nil in Hf'.
Qed.

Lemma unacked_some ids kv m :
  filter (fun id => id ∈ ids) (map fst (kv :: m)) ≠ [] -> unacked ids (kv :: m) = unacked ids m.
Proof.
  intros Hf. cbn [unacked]. destruct (existsb _ _) eqn:He; [done|]. destruct Hf.
  apply not_true_iff_false in He. destruct (filter _ _) as [|x l] eqn:Hx; [done|].
  assert (x ∈ filter (fun id => id ∈ ids) (map fst (kv :: m))) as [Hid (kv' & -> & Hin)%list_elem_of_fmap]%list_elem_of_filter
    by (rewrite Hx; left).
  destruct He. apply existsb_exists. exists kv'. split; [by apply list_elem_of_In|by apply bool_decide_eq_true].
Qed.

Lemma unacked_suffix ids m : ∃ m0, m = m0 ++ unacked ids m.
Proof.
  induction m as [|kv m [m0 IH]]; [by exists []|]. cbn [unacked].
  destruct (existsb _ _); [|by exists []]. exists (kv :: m0). cbn. by f_equal.
Qed.

Lemma total_app m1 m2 : total (m1 ++ m2) = (total m1 + total m2)%Z.
Proof. unfold total. induction m1 as [|kv m1 IH]; [done|]. cbn in *. lia. Qed.

Lemma total_nonneg m : Forall (fun kv => 0 <= kv.2)%Z m -> (0 <= total m)%Z.
Proof. unfold total. induction 1; cbn in *; lia. Qed.

Lemma releaseThrough_unacked ids final m bytes :
  NoDup (map fst m) -> last (filter (fun id => id ∈ ids) (map fst m)) = Some final ->
  releaseThrough final m bytes = (unacked ids m, bytes - (total m - total (unacked ids m)))%Z.
Proof.
  revert bytes. induction m as [|[id b] m IH]; intros bytes; [done|]. cbn [map].
  intros [Hid Hnd]%NoDup_cons Hl. rewrite unacked_some by (intros Hn; cbn [map] in Hn; by rewrite Hn in Hl).
  change (total ((id, b) :: m)) with (b + total m)%Z. cbn [releaseThrough].
  destruct (filter (fun id => id ∈ ids) (map fst m)) as [|x l] eqn:Hf.
  - rewrite (unacked_none ids m Hf). cbn in Hid. rewrite filter_cons, Hf in Hl. case_decide; [|done].
    injection Hl as <-. rewrite decide_True by done. f_equal. lia.
  - assert (final ∈ map fst m) as Hfin.
    { rewrite filter_cons, Hf in Hl. assert (last (x :: l) = Some final) as Hl' by by case_decide.
      apply last_Some_elem_of in Hl'. rewrite <- Hf in Hl'. by apply list_elem_of_filter in Hl' as [_ ?]. }
    rewrite decide_False by (intros ->; done). rewrite (IH (bytes - b)%Z); [f_equal; lia|done|].
    rewrite filter_cons, Hf in Hl. by case_decide.
Qed.

(** A frame written again keeps its place in the window. *)
Lemma jm_set_cases k v (m : list (string * Z)) :
  NoDup (map fst m) ->
  (k ∉ map fst m ∧ jm_set k v m = m ++ [(k, v)]) ∨
  (∃ m1 v0 m2, m = m1 ++ (k, v0) :: m2 ∧ jm_set k v m = m1 ++ (k, v) :: m2).
Proof.
  intros Hnd. destruct (decide (k ∈ map fst m)) as [Hk|Hk]; [right|left; split; [done|by apply jm_set_fresh]].
  unfold jm_set. rewrite (proj2 (jm_has_elem _ _) Hk). apply list_elem_of_fmap in Hk as ([k' v0] & Hkk & Hin).
  cbn in Hkk. subst k'. apply list_elem_of_split in Hin as (m1 & m2 & ->). exists m1, v0, m2. split; [done|].
  rewrite map_app in Hnd. cbn in Hnd. apply NoDup_app in Hnd as (_ & Hd & [Hn _]%NoDup_cons).
  rewrite map_app. cbn. rewrite decide_True by done.
  assert (∀ l : list (string * Z), k ∉ map fst l -> map (fun kv => if decide (kv.1 = k) then (k, v) else kv) l = l) as Hid.
  { induction l as [|kv l IH]; [done|]. cbn. intros Hl. apply not_elem_of_cons in Hl as [Hne Hl].
    rewrite decide_False by congruence. by rewrite IH. }
  rewrite !Hid; [done|done|]. intros Hk1. apply (Hd _ Hk1). by left.
Qed.

Lemma jm_set_total k v (m : list (string * Z)) :
  NoDup (map fst m) -> Forall (fun kv => 0 <= kv.2)%Z m -> (0 <= v)%Z ->
  (total (jm_set k v m) <= total m + v)%Z ∧ length (jm_set k v m) <= S (length m) ∧
  Forall (fun kv => 0 <= kv.2)%Z (jm_set k v m).
Proof.
  intros Hnd Hn Hv. destruct (jm_set_cases k v m Hnd) as [[Hk ->]|(m1 & v0 & m2 & -> & ->)];
    rewrite !total_app, !length_app.
  - change (total [(k, v)]) with (v + 0)%Z. cbn. split_and!; [lia..|]. apply Forall_app. by repeat constructor.
  - apply Forall_app in Hn as [Hn1 [Hv0 Hn2]%Forall_cons]. cbn in Hv0. split_and!.
    + change (total ((k, v) :: m2)) with (v + total m2)%Z.
      change (total ((k, v0) :: m2)) with (v0 + total m2)%Z. lia.
    + cbn. lia.
    + apply Forall_app. split; [done|]. by constructor.
Qed.

Section window.
Context (toB64 : bytes -> string) (options : ReceiveOptions) (clientDID : string).
Context (Hwindow : 1 <= receiveWindow options).

Record window_ok (c : Channel) : Prop := {
  wo_frames : length (inFlight c) <= receiveWindow options;
  wo_bytes : (inFlightBytes c <= receiveWindowBytes options)%Z ∨ length (inFlight c) <= 1;
  wo_total : (total (inFlight c) <= inFlightBytes c)%Z;
  wo_keys : NoDup (map fst (inFlight c));
  wo_nonneg : Forall (fun kv => 0 <= kv.2)%Z (inFlight c);
  wo_given f : writing c = Some (mkWriteTask f RoomGiven) ->
    tornDown c = true ∨ hasRoom options (frameBytes f) c = true;
  wo_room f : writing c = Some (mkWriteTask f AwaitingWriter) -> hasRoom options (frameBytes f) c = true;
  wo_queued : length (queued c) <= receiveBufferLimit options;
  wo_pending : tornDown c = false -> pendingWrites c = length (queued c);
  wo_buffer : length (liveBuffer c) <= receiveBufferLimit options;
}.

(** What an act did that leaves the window's account as it is. *)
Record calm (c : Channel) (r : Channel * list ReceiveEffect) : Prop := {
  ca_flight : inFlight r.1 = inFlight c;
  ca_written : frames_written r.2 = [];
  ca_ok : window_ok c -> window_ok r.1;
}.

Lemma andThen_eq (a b : ChannelAct) c : (a ▷ b) c = ((b (a c).1).1, (a c).2 ++ (b (a c).1).2).
Proof. unfold andThen. destruct (a c) as [c1 out1]. cbn. by destruct (b c1). Qed.

Lemma calm_seq (a b : ChannelAct) c : calm c (a c) -> calm (a c).1 (b (a c).1) -> calm c ((a ▷ b) c).
Proof.
  intros [Hf Hw Hok] [Hf' Hw' Hok'].
  rewrite andThen_eq. split; cbn [fst snd]; [congruence| |auto].
  unfold frames_written in *. by rewrite omap_app, Hw, Hw'.
Qed.

Lemma calm_then (a b : ChannelAct) c : calm c (a c) -> (∀ c, calm c (b c)) -> calm c ((a ▷ b) c).
Proof. intros Ha Hb. by apply calm_seq. Qed.

Lemma calm_emit e c : frames_written [e] = [] -> calm c (emit e c).
Proof. by split. Qed.

Lemma calm_skip c : calm c (c, []).
Proof. by split. Qed.

Lemma calm_each {A} (f : A -> ChannelAct) l : (∀ x c, calm c (f x c)) -> ∀ c, calm c (each f l c).
Proof.
  intros Hf. induction l as [|x l IH]; [apply calm_skip|]. intros c. cbn [each].
  apply calm_then; [apply Hf|exact IH].
Qed.

(** Writing to the state what does not touch the account, and going on. *)
Lemma calm_set c c1 r :
  inFlight c1 = inFlight c -> (window_ok c -> window_ok c1) -> calm c1 r -> calm c r.
Proof. intros Hf Hok [Hf' Hw' Hok']. split; [congruence|done|auto]. Qed.

(** The same account and the same write under way: only the queue may have changed. *)
Lemma window_ok_like c c' :
  window_ok c -> inFlight c' = inFlight c -> inFlightBytes c' = inFlightBytes c ->
  (tornDown c = true -> tornDown c' = true) ->
  (∀ f, writing c' = Some (mkWriteTask f RoomGiven) -> writing c = Some (mkWriteTask f RoomGiven) ∨
     tornDown c' = true ∨ hasRoom options (frameBytes f) c = true) ->
  (∀ f, writing c' = Some (mkWriteTask f AwaitingWriter) -> writing c = Some (mkWriteTask f AwaitingWriter) ∨
     hasRoom options (frameBytes f) c = true) ->
  length (queued c') <= receiveBufferLimit options ->
  (tornDown c' = false -> pendingWrites c' = length (queued c')) ->
  length (liveBuffer c') <= receiveBufferLimit options -> window_ok c'.
Proof.
  intros [] Hf Hb Hd Hg Hr Hq Hp Hl.
  assert (∀ n, hasRoom options n c' = hasRoom options n c) as Hroom by (intros; unfold hasRoom; by rewrite Hf, Hb).
  split; rewrite ?Hf, ?Hb; try done; intros f Hw; rewrite Hroom.
  - destruct (Hg f Hw) as [Hw'|]; [|done]. destruct (wo_given0 f Hw') as [Ht|Ht]; auto.
  - destruct (Hr f Hw) as [Hw'|]; [auto|done].
Qed.

Ltac like H :=
  apply (window_ok_like _ _ H); cbn; try done; try (intros; congruence); try apply H; auto.

Lemma calm_down r d c : (tornDown c = true -> d = true) -> calm c (set_down d r c, []).
Proof.
  intros Hd. apply (calm_set _ (set_down d r c)); [done| |apply calm_skip]. intros H. like H.
  intros Hd'. apply (wo_pending _ H). destruct (tornDown c); [|done]. rewrite Hd in Hd'; done.
Qed.

(** The write under way moves on to a stage that needs no room, or has it. *)
Lemma calm_stage f s t c :
  writing c = Some t ->
  (s = RoomGiven -> tornDown c = true ∨ hasRoom options (frameBytes f) c = true) ->
  (s = AwaitingWriter -> hasRoom options (frameBytes f) c = true) -> calm c (set_stage f s c, []).
Proof.
  intros Hw Hg Hr. apply (calm_set _ (set_stage f s c)); [done| |apply calm_skip]. intros H.
  pose proof (wo_queued _ H) as Hq. pose proof (wo_pending _ H) as Hp. unfold queued in Hq, Hp. rewrite Hw in Hq, Hp.
  like H; intros f' [= -> ->]; auto.
Qed.

Lemma calm_notify c : calm c (notifyWindow options c).
Proof.
  unfold notifyWindow. destruct (writing c) as [[f []]|] eqn:Hw; try apply calm_skip.
  destruct (tornDown c || hasRoom options (frameBytes f) c) eqn:Hr; [|by apply calm_emit].
  apply orb_true_iff in Hr. by eapply calm_stage.
Qed.

Lemma calm_finish c : calm c (finish options clientDID c).
Proof.
  unfold finish. destruct (tornDown c) eqn:Hd; [apply calm_skip|].
  repeat apply calm_then; intros; [by apply calm_down|apply calm_notify|by apply calm_down| | |]; by apply calm_emit.
Qed.

Lemma calm_end c : is_Some (writing c) -> calm c (endWrite c).
Proof.
  intros [t Hw]. apply (calm_set _ (endWrite c).1); [done| |apply calm_skip]. intros H.
  pose proof (wo_queued _ H) as Hq. pose proof (wo_pending _ H) as Hp. unfold queued in Hq, Hp.
  rewrite Hw in Hq, Hp. cbn in Hq, Hp. like H; [lia|]. intros Hd. by rewrite (Hp Hd).
Qed.
Lemma finish_writing c : is_Some (writing c) -> is_Some (writing (finish options clientDID c).1).
Proof.
  intros [t Hw]. unfold finish. destruct (tornDown c); [by exists t|]. rewrite !andThen_eq. cbn.
  unfold notifyWindow. cbn. rewrite Hw. destruct t as [f []]; cbn; try (rewrite Hw); eauto.
Qed.

Lemma calm_fail c : is_Some (writing c) -> calm c (failWrite options clientDID c).
Proof. intros Hw. apply calm_seq; [apply calm_finish|]. by apply calm_end, finish_writing. Qed.

(** The overflowing push is counted before it tears the channel down. *)
Lemma calm_overflow n c :
  tornDown c = false -> calm c (finish options clientDID (set_writes (lastServed c) n (writeChain c) (writing c) c)).
Proof.
  intros Hd. destruct (calm_finish c) as [Hf Hw Hok]. unfold finish in *. cbn. rewrite Hd in Hf, Hw, Hok |- *.
  rewrite !andThen_eq in Hf, Hw, Hok |- *. unfold notifyWindow in *. cbn in *.
  destruct (writing c) as [[f []]|] eqn:Hwr; (split; cbn; [done..|]); intros H; apply Hok in H; clear Hok Hf Hw; cbn in H.
  all: pose proof (wo_queued _ H) as Hq; unfold queued in Hq; cbn in Hq; rewrite ?Hwr in Hq; cbn in Hq.
  all: like H; try (intros f' [= ->]); auto; try by apply H.
Qed.

Lemma calm_push f c : calm c (pushWrite options clientDID f c).
Proof.
  unfold pushWrite. destruct (tornDown c) eqn:Hd; [apply calm_skip|].
  destruct (Nat.ltb_spec (receiveBufferLimit options) (S (pendingWrites c))) as [Hlt|Hge]; [by apply calm_overflow|].
  apply (calm_set _ (set_writes (lastServed c) (S (pendingWrites c)) (writeChain c ++ [f]) (writing c) c));
    [done| |apply calm_skip]. intros H. pose proof (wo_pending _ H Hd) as Hp.
  assert (length (queued (set_writes (lastServed c) (S (pendingWrites c)) (writeChain c ++ [f]) (writing c) c))
    = S (pendingWrites c)) as Hq.
  { rewrite Hp. unfold queued. cbn. destruct (writing c); cbn; rewrite length_app; cbn; lia. }
  rewrite <- Hq in Hge. like H.
Qed.
Lemma calm_starts now c r : writeStarts clientDID now c = Some r -> calm c r.
Proof.
  unfold writeStarts. destruct (writing c) eqn:Hw; [done|]. destruct (writeChain c) as [|f chain] eqn:Hc; [done|].
  intros [= <-]. set (c1 := set_writes (lastServed c) (pendingWrites c) chain None c).
  assert (window_ok c -> length (queued c) = S (length chain)) as Hlen by (unfold queued; by rewrite Hw, Hc).
  assert (∀ s r, s ≠ RoomGiven -> s ≠ AwaitingWriter -> calm (set_stage f s c1) r -> calm c r) as Hgo.
  { intros s r Hg Ha. apply calm_set; [done|]. intros H. pose proof (Hlen H) as Hq.
    pose proof (wo_queued _ H). pose proof (wo_pending _ H) as Hp. rewrite Hq in *. like H. }
  unfold startWrite. change (tornDown c1) with (tornDown c). change (authCache c1) with (authCache c).
  destruct (tornDown c) eqn:Hd.
  - eapply (calm_set _ c1), calm_skip; [done|]. intros H. pose proof (Hlen H) as Hq.
    pose proof (wo_queued _ H). like H. unfold queued. cbn. lia.
  - destruct (authCache c !! gateKey clientDID (rf_topicID f)) as [[allow expiresAt]|];
      [destruct (now <? expiresAt)%Z|]; (eapply Hgo; [| |first [apply calm_skip|by apply calm_emit]]); done.
Qed.

Lemma calm_hook f d now c t :
  writing c = Some t -> calm c (hookAnswered options clientDID f d now c).
Proof.
  intros Hw. unfold hookAnswered. destruct d as [d|]; [|by apply calm_fail]. cbn zeta.
  match goal with |- calm _ (set_stage _ ?s (set_authCache ?m _), _) =>
    apply (calm_set _ (set_authCache m c)); [done| |by eapply calm_stage] end.
  intros H. like H.
Qed.

Lemma calm_gate f allow c t : writing c = Some t -> calm c (gateResumes options f allow c).
Proof.
  intros Hw. unfold gateResumes. destruct allow; [|by apply calm_end]. unfold waitForRoom.
  destruct (tornDown c || hasRoom options (frameBytes f) c) eqn:Hr.
  - apply orb_true_iff in Hr. by eapply calm_stage.
  - apply (calm_set _ (set_stage f WaitingRoom c)); [done| |by apply calm_emit].
    by apply (calm_stage f WaitingRoom t).
Qed.

Lemma calm_room f c : writing c = Some (mkWriteTask f RoomGiven) -> window_ok c -> calm c (roomResumes f c).
Proof.
  intros Hw H. unfold roomResumes. destruct (tornDown c) eqn:Hd; [by apply calm_end|].
  eapply calm_stage; [done..|]. intros _. by destruct (wo_given _ H f Hw) as [?|?]; [congruence|].
Qed.

Lemma calm_written f ok c t : writing c = Some t -> calm c (written options clientDID f ok c).
Proof.
  intros Hw. unfold written. destruct ok; [|by apply calm_fail].
  match goal with |- calm _ (endWrite ?c1) => apply (calm_set _ c1); [done| |by apply calm_end] end.
  intros H. like H.
Qed.

(** Moving the drain on, with a live buffer no longer than it was. *)
Lemma calm_drain l buffer pc c r :
  length buffer <= length (liveBuffer c) ∨ length buffer <= receiveBufferLimit options ->
  calm (set_drain l buffer pc c) r -> calm c r.
Proof.
  intros Hb. apply calm_set; [done|]. intros H. pose proof (wo_buffer _ H).
  like H. lia.
Qed.

Lemma calm_onLive message c : calm c (onLive toB64 options clientDID message c).
Proof.
  unfold onLive. destruct (live c); [apply calm_push|].
  destruct (Nat.leb_spec (receiveBufferLimit options) (length (liveBuffer c))); [apply calm_finish|].
  eapply calm_drain, calm_skip. right. rewrite length_app. cbn [length]. lia.
Qed.

Lemma calm_flushLoop c : calm c (flushLoop options clientDID c).
Proof.
  unfold flushLoop. destruct (tornDown c); [by eapply calm_drain, calm_skip; left|].
  destruct (liveBuffer c) as [|f l].
  - apply (calm_drain true [] Returned), calm_skip. left. cbn. lia.
  - apply (calm_drain (live c) [] FlushQueued); [left; cbn; lia|]. apply calm_each. intros. apply calm_push.
Qed.

Lemma calm_drainThrows e c : calm c (drainThrows options clientDID e c).
Proof.
  unfold drainThrows. repeat apply calm_then; intros;
    [by apply calm_down|apply calm_notify|by apply calm_down|by apply calm_emit..|].
  by eapply calm_drain, calm_skip; left.
Qed.

Lemma calm_fetched page c : calm c (fetched toB64 options clientDID page c).
Proof.
  unfold fetched. destruct page as [r|e]; [|apply calm_drainThrows].
  eapply calm_drain, calm_each; [by left|]. intros. apply calm_push.
Qed.

Lemma calm_fetchPage cursor c : calm c (fetchPage clientDID cursor c).
Proof.
  apply (calm_drain (live c) (liveBuffer c) (Fetching cursor)); [by left|]. by apply calm_emit.
Qed.

Lemma calm_settled c r : chainSettled options clientDID c = Some r -> calm c r.
Proof.
  unfold chainSettled. destruct (writing c); [done|]. destruct (writeChain c); [|done].
  destruct (drainPc c) as [|cursor hasMore| | |]; try done; intros [= <-]; [|apply calm_flushLoop].
  unfold pageWritten. destruct hasMore; [|apply calm_flushLoop].
  destruct (tornDown c); [|apply calm_fetchPage]. by eapply calm_drain, calm_skip; left.
Qed.
Lemma window_ok_shrink m0 m b c :
  window_ok c -> inFlight c = m0 ++ m -> (b <= inFlightBytes c)%Z -> (total m <= b)%Z -> window_ok (set_window m b c).
Proof.
  intros [] Hm Hb Ht. assert (length m <= length (inFlight c)) by (rewrite Hm, length_app; lia).
  assert (∀ n, hasRoom options n c = true -> hasRoom options n (set_window m b c) = true) as Hroom.
  { intros n. unfold hasRoom. cbn [inFlight inFlightBytes set_window]. rewrite !orb_true_iff, !andb_true_iff, !Nat.eqb_eq, !Nat.ltb_lt, !Z.leb_le. lia. }
  split; cbn; try done.
  - lia.
  - destruct wo_bytes0; [left|right]; lia.
  - rewrite Hm, map_app in wo_keys0. by apply NoDup_app in wo_keys0 as (_ & _ & ?).
  - rewrite Hm in wo_nonneg0. by apply Forall_app in wo_nonneg0 as [_ ?].
  - intros f Hw. destruct (wo_given0 f Hw); auto.
  - auto.
Qed.

(** What the account becomes when a step releases or writes. *)
Definition accounted (m : list (string * Z)) (c : Channel) (r : Channel * list ReceiveEffect) : Prop :=
  window_ok c -> window_ok r.1 ∧ inFlight r.1 = foldl (fun m f => jm_set (rf_sequenceID f) (weight f) m) m (frames_written r.2).

Lemma accounted_calm c r : calm c r -> accounted (inFlight c) c r.
Proof. intros [Hf Hw Hok] H. rewrite Hw. cbn. auto. Qed.

Lemma accounted_release ids c : accounted (unacked ids (inFlight c)) c (release options ids c).
Proof.
  intros H. pose proof (wo_total _ H). pose proof (wo_nonneg _ H) as Hn. unfold release.
  destruct (last _) as [final|] eqn:Hl.
  - rewrite (releaseThrough_unacked ids) by (apply H || done). cbv beta iota.
    destruct (unacked_suffix ids (inFlight c)) as [m0 Hm].
    assert (total (inFlight c) = total m0 + total (unacked ids (inFlight c)))%Z as Ht by (rewrite Hm at 1; apply total_app).
    assert (0 <= total m0)%Z.
    { rewrite Hm in Hn. apply Forall_app in Hn as [Hn _]. by apply total_nonneg. }
    match goal with |- context [notifyWindow _ ?c1] => set (c1' := c1); destruct (calm_notify c1') as [Hf Hw Hok] end.
    rewrite Hw, Hf. split; [|done]. apply Hok. by eapply window_ok_shrink; [done..|lia|lia].
  - cbn. split; [done|]. symmetry. apply unacked_none. by apply last_None.
Qed.

Lemma accounted_timeout c : accounted [] c ((releaseAll ▷ notifyWindow options) c).
Proof.
  intros H. rewrite andThen_eq. cbn [releaseAll fst snd app].
  destruct (calm_notify (set_window [] 0 c)) as [Hf Hw Hok]. rewrite Hw, Hf. split; [|done]. apply Hok.
  pose proof (wo_total _ H). eapply (window_ok_shrink (inFlight c)); [done| | |done]; [by rewrite app_nil_r|].
  pose proof (total_nonneg _ (wo_nonneg _ H)). lia.
Qed.
Lemma accounted_writer f ok c :
  writing c = Some (mkWriteTask f AwaitingWriter) -> accounted (inFlight c) c (writerReady options clientDID f ok c).
Proof.
  intros Hw. unfold writerReady. destruct ok; [|by apply accounted_calm, calm_fail]. intros H.
  rewrite weight_frameBytes. cbn [frames_written emit snd omap list_omap foldl fst]. split; [|done].
  destruct (jm_set_total (rf_sequenceID f) (weight f) (inFlight c)) as (Ht & Hl & Hn);
    [apply H|apply H|apply weight_nonneg|].
  pose proof (wo_room _ H f Hw) as Hroom. pose proof (wo_queued _ H) as Hq. pose proof (wo_pending _ H) as Hp.
  unfold queued in Hq, Hp. rewrite Hw in Hq, Hp. pose proof (wo_total _ H).
  unfold hasRoom in Hroom.
  rewrite weight_frameBytes, orb_true_iff, andb_true_iff, Nat.eqb_eq, Nat.ltb_lt, Z.leb_le in Hroom.
  split; cbn [inFlight inFlightBytes set_stage set_writes set_window writing]; try done.
  - lia.
  - destruct Hroom as [Hz|[_ Hb]]; [right; lia|by left].
  - lia.
  - apply jm_set_NoDup, H.
  - apply H.
Qed.

Lemma step_accounted e c c' out :
  receiveStep toB64 options clientDID e c = Some (c', out) -> accounted (released (inFlight c) e) c (c', out).
Proof.
  intros Hs. destruct e; cbv beta iota zeta delta [receiveStep atStage whenReading] in Hs; cbn [released].
  all: try (apply (inj Some) in Hs; rewrite <- Hs).
  - apply accounted_calm, calm_onLive.
  - apply accounted_calm, calm_finish.
  - apply accounted_calm, calm_finish.
  - destruct (writing c) as [[f []]|]; try done. apply (inj Some) in Hs. rewrite <- Hs. apply accounted_timeout.
  - by eapply accounted_calm, calm_starts.
  - destruct (writing c) as [[f []]|] eqn:Hw; try done. apply (inj Some) in Hs. rewrite <- Hs.
    by eapply accounted_calm, calm_hook.
  - destruct (writing c) as [[f []]|] eqn:Hw; try done. apply (inj Some) in Hs. rewrite <- Hs.
    by eapply accounted_calm, calm_gate.
  - destruct (writing c) as [[f []]|] eqn:Hw; try done. apply (inj Some) in Hs. rewrite <- Hs.
    intros H. by apply accounted_calm; [apply calm_room|].
  - destruct (writing c) as [[f []]|] eqn:Hw; try done. apply (inj Some) in Hs. rewrite <- Hs.
    by apply accounted_writer.
  - destruct (writing c) as [[f []]|] eqn:Hw; try done. apply (inj Some) in Hs. rewrite <- Hs.
    by eapply accounted_calm, calm_written.
  - destruct (ackLoop c); try done. apply (inj Some) in Hs. rewrite <- Hs.
    eapply accounted_calm, (calm_set _ (set_ackLoop AckStopped c)), calm_skip; [done|]. intros H. like H.
  - destruct (ackLoop c); try done. apply (inj Some) in Hs. rewrite <- Hs. destruct ack as [ids|].
    + unfold ackRead. rewrite !andThen_eq. intros [Hok Hf]%(accounted_release ids). cbn [fst snd emit].
      unfold frames_written in *. rewrite !omap_app. cbn. rewrite !app_nil_r. split; [|done]. like Hok.
    + apply accounted_calm, calm_skip.
  - destruct (ackLoop c); try done. apply (inj Some) in Hs. rewrite <- Hs.
    apply accounted_calm. unfold ackStored. apply calm_then.
    + eapply (calm_set _ (set_ackLoop AckReading c)), calm_skip; [done|]. intros H. like H.
    + intros c1. destruct ok; [apply calm_skip|by apply calm_emit].
  - destruct (drainPc c); try done. apply (inj Some) in Hs. rewrite <- Hs. apply accounted_calm, calm_fetched.
  - by apply accounted_calm, calm_settled.
  - by apply accounted_calm, calm_down.
Qed.

Lemma open_window_ok token after aborted r : window_ok (openChannel options clientDID token after aborted r).1.
Proof.
  unfold openChannel. set (c := mkChannel _ _ _ _ _ _ _ _ _ _ _ _ _ _).
  assert (window_ok c) as H by (split; cbn; try done; try lia; by constructor).
  destruct aborted; [|by apply (ca_ok c), H; apply calm_fetchPage].
  apply (ca_ok c); [|done]. apply calm_then; [apply calm_finish|]. intros c1.
  eapply calm_drain, calm_skip. right. cbn. lia.
Qed.

Lemma trace_window_ok token after aborted r tr c :
  channel_trace toB64 options clientDID token after aborted r tr c -> window_ok c ∧ inFlight c = in_flight tr.
Proof.
  induction 1 as [|tr c e c' out Htr [Hok Hf] Hs].
  - split; [apply open_window_ok|]. unfold openChannel. destruct aborted; [|done].
    by destruct (calm_finish (mkChannel false [] "" 0 false [] None [] 0 ∅ AckReading (Fetching after) token r)).
  - destruct (step_accounted _ _ _ _ Hs Hok) as [Hok' Hf']. split; [done|]. cbn [fst snd] in Hf'.
    unfold in_flight. rewrite foldl_app. cbn. unfold counted at 1. cbn [fst snd]. rewrite Hf'. unfold in_flight in Hf.
    by rewrite Hf.
Qed.
End window.

(** ** Properties *)

(** C33. In any run of a channel, whatever the client acks and whenever: the frames in flight are at most
    the window, their bytes fit the byte window unless it is a single frame too large for it, and neither
    the frames queued for the socket nor those buffered during the drain ever pass the buffer limit. *)
Theorem window_respected toB64 bufferLimit window windowBytes ttl clientDID token after aborted r tr c :
  channel_trace toB64 (receiveOptions bufferLimit window windowBytes ttl) clientDID token after aborted r tr c ->
  length (in_flight tr) <= Nat.max 1 (default 256 window) ∧
  ((total (in_flight tr) <= default (512 * 1024) windowBytes)%Z ∨ length (in_flight tr) <= 1) ∧
  length (queued c) <= default 256 bufferLimit ∧ length (liveBuffer c) <= default 256 bufferLimit.
Proof.
  intros [H <-]%trace_window_ok; [|apply Nat.le_max_l]. destruct H as [Hl Hb Ht _ _ _ _ Hq _ Hbuf]. cbn in *.
  split_and!; [done| |done|done]. destruct Hb; [left; lia|by right].
Qed.

(** ** Runs of it *)

Module Windowed.
Definition message (id : string) : StoredMessage := mkStoredMessage id "did:b" "t" [] None.
Definition opened (window : nat) := receiveOptions None (Some window) None None.

(** A frame through the gate and out. *)
Definition sent (now : Z) : list ReceiveEvent :=
  [WriteStarts now; HookAnswered (Ok (Plain true)) now; GateResumes; RoomResumes; WriterReady true; Written true].
Definition sent_cached (now : Z) : list ReceiveEvent :=
  [WriteStarts now; GateResumes; RoomResumes; WriterReady true; Written true].

Definition registered : Registry := regRun [RegRegister "did:a"; RegBind "did:a" 0 0] emptyRegistry.
Definition after_run (window : nat) (es : list ReceiveEvent) : option (Channel * ReceiveTrace) :=
  mrun (receiveStep (fun _ => "") (opened window) "did:a") es
    (openChannel (opened window) "did:a" 0 None false registered).1.

(** Three frames through a window of two: the third waits for the ack of the first. *)
Definition paced : list ReceiveEvent :=
  [Fetched (Ok (mkFetchResult [message "1"; message "2"; message "3"] (Some "3") false))] ++
  sent 0 ++ sent_cached 1 ++ [WriteStarts 2; GateResumes].

Definition run_paced : Channel * ReceiveTrace :=
  default ((openChannel (opened 2) "did:a" 0 None false registered).1, []) (after_run 2 paced).

Lemma paced_trace :
  channel_trace (fun _ => "") (opened 2) "did:a" 0 None false registered run_paced.2 run_paced.1.
Proof. apply (mrun_init paced). vm_compute. reflexivity. Qed.

Lemma paced_waits :
  map fst (in_flight run_paced.2) = ["1"; "2"] ∧
  (fst <$> (receiveStep (fun _ => "") (opened 2) "did:a" RoomResumes run_paced.1)) = None ∧
  (writing ∘ fst <$> (receiveStep (fun _ => "") (opened 2) "did:a" (AckRead (Some ["1"])) run_paced.1)) =
    Some (Some (mkWriteTask (toReceiveFrame (fun _ => "") (message "3")) RoomGiven)).
Proof. by vm_compute. Qed.

(** A frame the last page served and whose push comes only after the switch to live is written a second
    time; its bytes are added again, and stay counted when the frame leaves the window. *)
Definition pushed_late : list ReceiveEvent :=
  [Fetched (Ok (mkFetchResult [message "1"] (Some "1") false))] ++ sent 0 ++
  [ChainSettled; OnLive (message "1")] ++ sent_cached 1 ++ [AckRead (Some ["1"])].

Lemma overcounts :
  (fun r => (length (in_flight r.2), inFlight r.1, inFlightBytes r.1,
             map rf_sequenceID (frames_written (concat (map snd r.2))))) <$>
    after_run 2 pushed_late = Some (0, [], 262%Z, ["1"; "1"]).
Proof. by vm_compute. Qed.
End Windowed.

Lemma window_respected_witness :
  length (in_flight Windowed.run_paced.2) <= Nat.max 1 (default 256 (Some 2)) ∧
  map fst (in_flight Windowed.run_paced.2) = ["1"; "2"].
Proof.
  split; [|apply Windowed.paced_waits].
  apply (window_respected (fun _ => "") None (Some 2) None None "did:a" 0 None false Windowed.registered
    Windowed.run_paced.2 Windowed.run_paced.1). exact Windowed.paced_trace.
Defined.
