(* ===== verification/ReceiveGate.v ===== *)
(** * Delivery is authorized

    Every frame a receive channel writes passed the hub's hook for its topic: the hook's latest answer for
    the topic allows it, and was given for this very write or is younger than the cache keeps an answer.
    What the hook was asked and said is read off the trace. *)

From S2P Require Import HubProtocol RateLimit ClientRegistry Wake Handlers Prelude Receive ReceiveWindow.

(** ** What the hook said *)

Record Answer := mkAnswer { an_allow : bool; an_at : Z; an_turn : nat }.

(** The writes begun so far, when the last began, the topic last asked for, and the latest answers. *)
Record GateLog := mkGateLog {
  turn : nat;
  begun : Z;
  asked : string;
  answers : gmap string Answer;
}.

Definition log_event (g : GateLog) (e : ReceiveEvent) : GateLog :=
  match e with
  | WriteStarts now => mkGateLog (S (turn g)) now (asked g) (answers g)
  | HookAnswered (Ok (Plain allow | Detailed allow _)) now =>
    mkGateLog (turn g) (begun g) (asked g) (<[asked g := mkAnswer allow now (turn g)]> (answers g))
  | _ => g
  end.

Definition log_effect (g : GateLog) (e : ReceiveEffect) : GateLog :=
  match e with
  | AuthorizeDeliver (AuthReceiveDeliver _ topic) => mkGateLog (turn g) (begun g) topic (answers g)
  | _ => g
  end.

Definition logged (g : GateLog) (eo : ReceiveEvent * list ReceiveEffect) : GateLog :=
  foldl log_effect (log_event g eo.1) eo.2.

Definition gate_log (tr : ReceiveTrace) : GateLog := foldl logged (mkGateLog 0 0 "" ∅) tr.

(** The answer that holds for a write of the topic begun last. *)
Definition answer_holds (ttl : Z) (g : GateLog) (topic : string) (allow : bool) : Prop :=
  ∃ a, answers g !! topic = Some a ∧ an_allow a = allow ∧
    (an_turn a = turn g ∨ (0 < ttl ∧ begun g < an_at a + ttl)%Z).

(** Neither a question nor a write. *)
Definition unasked (out : list ReceiveEffect) : Prop :=
  Forall (fun e => match e with AuthorizeDeliver _ | WriteFrame _ => False | _ => True end) out.

Lemma unasked_log g out : unasked out -> foldl log_effect g out = g.
Proof. induction 1 as [|e out He Hout IH]; [done|]. cbn. by destruct e. Qed.

Lemma unasked_written out : unasked out -> frames_written out = [].
Proof. induction 1 as [|e out He Hout IH]; [done|]. by destruct e. Qed.

Lemma unasked_app out1 out2 : unasked out1 -> unasked out2 -> unasked (out1 ++ out2).
Proof. intros. by apply Forall_app. Qed.

Section gate.
Context (toB64 : bytes -> string) (options : ReceiveOptions) (clientDID : string).
Abbreviation ttl := (receiveAuthCacheTTL options).

(** The cache is the latest answers, each with its expiry. *)
Record gate_ok (g : GateLog) (c : Channel) : Prop := {
  go_cache topic allow expiresAt :
    authCache c !! gateKey clientDID topic = Some (allow, expiresAt) ->
    (0 < ttl)%Z ∧ ∃ a, answers g !! topic = Some a ∧ an_allow a = allow ∧ expiresAt = (an_at a + ttl)%Z;
  go_stage f s : writing c = Some (mkWriteTask f s) ->
    match s with
    | AskingHook => asked g = rf_topicID f
    | GateAnswered allow => answer_holds ttl g (rf_topicID f) allow
    | WaitingRoom | RoomGiven | AwaitingWriter => answer_holds ttl g (rf_topicID f) true
    | Writing => True
    end;
}.

Instance gateKey_inj : Inj (=) (=) (gateKey clientDID).
Proof.
  intros t1 t2. unfold gateKey. induction clientDID as [|a d IH]; [by intros [=]|]. intros [= H]. by apply IH.
Qed.

(** What an act did that neither asks nor changes what the cache and the write under way know. *)
Record aside (c : Channel) (r : Channel * list ReceiveEffect) : Prop := {
  as_cache : authCache r.1 = authCache c;
  as_stage f s : writing r.1 = Some (mkWriteTask f s) -> ∃ s', writing c = Some (mkWriteTask f s') ∧
    match s' with
    | WaitingRoom | RoomGiven | AwaitingWriter => s = s' ∨ s = RoomGiven ∨ s = AwaitingWriter
    | _ => s = s'
    end;
  as_out : unasked r.2;
}.

Lemma aside_refl c : aside c (c, []).
Proof. split; [done| |constructor]. intros f s Hw. exists s. split; [done|]. destruct s; auto. Qed.

Lemma aside_seq (a b : ChannelAct) c : aside c (a c) -> aside (a c).1 (b (a c).1) -> aside c ((a ▷ b) c).
Proof.
  intros [Hc Hs Ho] [Hc' Hs' Ho']. rewrite andThen_eq. split; cbn [fst snd]; [congruence| |by apply unasked_app].
  intros f s (s' & Hw' & Hm')%Hs'. destruct (Hs f s' Hw') as (s0 & Hw & Hm). exists s0. split; [done|].
  destruct s0; simplify_eq/=; auto. all: destruct Hm as [->|[->| ->]]; tauto.
Qed.

Lemma aside_then (a b : ChannelAct) c : aside c (a c) -> (∀ c, aside c (b c)) -> aside c ((a ▷ b) c).
Proof. intros Ha Hb. by apply aside_seq. Qed.

Lemma aside_each {A} (f : A -> ChannelAct) l : (∀ x c, aside c (f x c)) -> ∀ c, aside c (each f l c).
Proof.
  intros Hf. induction l as [|x l IH]; [apply aside_refl|]. intros c. cbn [each].
  apply aside_then; [apply Hf|exact IH].
Qed.

Lemma aside_set c c1 r : authCache c1 = authCache c -> writing c1 = writing c -> aside c1 r -> aside c r.
Proof. intros Hc Hw [Hc' Hs Ho]. split; [congruence| |done]. intros f s. rewrite <- Hw. apply Hs. Qed.

Lemma aside_emit e c : unasked [e] -> aside c (emit e c).
Proof. intros He. destruct (aside_refl c) as [H1 H2 H3]. by split. Qed.

Lemma gate_ok_aside g c r : gate_ok g c -> aside c r -> gate_ok (foldl log_effect g r.2) r.1.
Proof.
  intros [Hc Hs] [Hc' Hs' Ho]. rewrite unasked_log by done. split; [by rewrite Hc'|].
  intros f s (s' & Hw & Hm)%Hs'. specialize (Hs f s' Hw). destruct s'; simplify_eq; try done.
  all: by destruct Hm as [->|[->| ->]].
Qed.
Lemma aside_down r d c : aside c (set_down d r c, []).
Proof. by eapply (aside_set c (set_down d r c)), aside_refl. Qed.

(** The write under way ends, or moves on past the gate. *)
Lemma aside_write f s t chain served n c :
  writing c = Some t -> wt_frame t = f ->
  match wt_stage t with WaitingRoom | RoomGiven | AwaitingWriter => s = RoomGiven ∨ s = AwaitingWriter | _ => False end ->
  aside c (set_writes served n chain (Some (mkWriteTask f s)) c, []).
Proof.
  intros Hw <- Hs. split; [done| |constructor]. intros f' s' [= <- <-]. exists (wt_stage t). destruct t as [f s0].
  split; [done|]. cbn in *. destruct s0; tauto.
Qed.

Lemma aside_notify c : aside c (notifyWindow options c).
Proof.
  unfold notifyWindow. destruct (writing c) as [[f []]|] eqn:Hw; try apply aside_refl.
  destruct (_ || _); [|by apply aside_emit; repeat constructor]. eapply aside_write; [done..|]. by left.
Qed.

Lemma aside_finish c : aside c (finish options clientDID c).
Proof.
  unfold finish. destruct (tornDown c); [apply aside_refl|].
  repeat apply aside_then; intros; [apply aside_down|apply aside_notify|apply aside_down| | |];
    apply aside_emit; repeat constructor.
Qed.

Lemma aside_end c : aside c (endWrite c).
Proof. split; [done|done|constructor]. Qed.

Lemma aside_fail c : aside c (failWrite options clientDID c).
Proof. apply aside_then; [apply aside_finish|apply aside_end]. Qed.

Lemma aside_push f c : aside c (pushWrite options clientDID f c).
Proof.
  unfold pushWrite. destruct (tornDown c); [apply aside_refl|].
  destruct (_ <? _)%nat; (eapply (aside_set c (set_writes _ _ _ (writing c) c)); [done..|]);
    [apply aside_finish|apply aside_refl].
Qed.

Lemma aside_drain l buffer pc c r : aside (set_drain l buffer pc c) r -> aside c r.
Proof. by apply aside_set. Qed.

Lemma aside_onLive message c : aside c (onLive toB64 options clientDID message c).
Proof.
  unfold onLive. destruct (live c); [apply aside_push|].
  destruct (_ <=? _)%nat; [apply aside_finish|]. eapply aside_drain, aside_refl.
Qed.

Lemma aside_flushLoop c : aside c (flushLoop options clientDID c).
Proof.
  unfold flushLoop. destruct (tornDown c); [eapply aside_drain, aside_refl|].
  destruct (liveBuffer c) as [|f l]; [eapply aside_drain, aside_refl|].
  apply (aside_drain (live c) [] FlushQueued), aside_each. intros. apply aside_push.
Qed.

Lemma aside_fetched page c : aside c (fetched toB64 options clientDID page c).
Proof.
  unfold fetched. destruct page as [r|e].
  - eapply aside_drain, aside_each. intros. apply aside_push.
  - unfold drainThrows. repeat apply aside_then; intros;
      [apply aside_down|apply aside_notify|apply aside_down|apply aside_emit; repeat constructor..|].
    eapply aside_drain, aside_refl.
Qed.

Lemma aside_fetchPage cursor c : aside c (fetchPage clientDID cursor c).
Proof.
  apply (aside_drain (live c) (liveBuffer c) (Fetching cursor)), aside_emit. repeat constructor.
Qed.

Lemma aside_settled c r : chainSettled options clientDID c = Some r -> aside c r.
Proof.
  unfold chainSettled. destruct (writing c); [done|]. destruct (writeChain c); [|done].
  destruct (drainPc c) as [|cursor hasMore| | |]; try done; intros [= <-]; [|apply aside_flushLoop].
  unfold pageWritten. destruct hasMore; [|apply aside_flushLoop].
  destruct (tornDown c); [eapply aside_drain, aside_refl|apply aside_fetchPage].
Qed.

Lemma aside_written f ok c : aside c (written options clientDID f ok c).
Proof. unfold written. destruct ok; [|apply aside_fail]. by eapply aside_set, aside_end. Qed.

Lemma aside_release ids c : aside c (release options ids c).
Proof.
  unfold release. destruct (last _); [|apply aside_refl]. destruct (releaseThrough _ _ _) as [m bytes].
  by apply (aside_set c (set_window m bytes c)), aside_notify.
Qed.

Lemma aside_room f c : writing c = Some (mkWriteTask f RoomGiven) -> aside c (roomResumes f c).
Proof.
  intros Hw. unfold roomResumes. destruct (tornDown c); [apply aside_end|].
  eapply aside_write; [done..|]. by right.
Qed.

Lemma aside_acks a c r : aside (set_ackLoop a c) r -> aside c r.
Proof. by apply aside_set. Qed.

(** ** The steps that ask, answer and write *)

Lemma starts_gate_ok g now c r :
  gate_ok g c -> writeStarts clientDID now c = Some r -> gate_ok (logged g (WriteStarts now, r.2)) r.1.
Proof.
  intros [Hc Hs]. unfold writeStarts. destruct (writing c) eqn:Hw; [done|].
  destruct (writeChain c) as [|f chain]; [done|]. intros [= <-]. unfold startWrite, logged. cbn.
  destruct (tornDown c); [by split|].
  destruct (authCache c !! gateKey clientDID (rf_topicID f)) as [[allow expiresAt]|] eqn:Hk.
  - destruct (Hc _ _ _ Hk) as (Httl & a & Ha & Hal & ->). destruct (Z.ltb_spec now (an_at a + ttl)) as [Hlt|Hge].
    + split; [done|]. intros f' s [= <- <-]. exists a. split_and!; [done..|]. by right.
    + split; [done|]. by intros f' s [= <- <-].
  - split; [done|]. by intros f' s [= <- <-].
Qed.

Lemma hook_gate_ok g f d now c :
  gate_ok g c -> writing c = Some (mkWriteTask f AskingHook) ->
  let r := hookAnswered options clientDID f d now c in gate_ok (logged g (HookAnswered d now, r.2)) r.1.
Proof.
  intros H Hw. pose proof (go_stage _ _ H _ _ Hw) as Hasked. cbn in Hasked. unfold logged, hookAnswered. cbn [fst].
  destruct d as [d|e]; [|by eapply gate_ok_aside, aside_fail].
  assert (∃ allow, (normalizeAuthorizeDecision d).1 = allow ∧ log_event g (HookAnswered (Ok d) now) =
    mkGateLog (turn g) (begun g) (asked g) (<[asked g := mkAnswer allow now (turn g)]> (answers g))) as (allow & Hal & ->)
    by (destruct d as [allow|allow reason]; by exists allow).
  rewrite Hal, Hasked. cbn. split; cbn.
  - intros t al ex. destruct (Z.ltb_spec 0 ttl) as [Httl|Httl].
    + intros [[<-%(inj (gateKey clientDID)) [= <- <-]]|[Hne Hk]]%lookup_insert_Some.
      * split; [done|]. eexists. by split; [apply lookup_insert_eq|].
      * destruct (go_cache _ _ H _ _ _ Hk) as (_ & a & Ha & Hal' & Hex). split; [done|]. exists a.
        split; [|done]. etrans; [apply lookup_insert_ne; congruence|done].
    + intros Hk. destruct (go_cache _ _ H _ _ _ Hk) as [? _]. lia.
  - intros f' s [= <- <-]. eexists. split; [apply lookup_insert_eq|]. split; [done|]. by left.
Qed.

Lemma gate_stage_ok g f s c out :
  gate_ok g c -> foldl log_effect g out = g ->
  match s with
  | WaitingRoom | RoomGiven | AwaitingWriter => answer_holds ttl g (rf_topicID f) true
  | Writing => True
  | _ => False
  end -> gate_ok (foldl log_effect g out) (set_stage f s c).
Proof.
  intros [Hc Hs] -> Hh. split; [done|]. intros f' s' [= <- <-]. by destruct s.
Qed.

Lemma gateResumes_ok g f allow c :
  gate_ok g c -> writing c = Some (mkWriteTask f (GateAnswered allow)) ->
  let r := gateResumes options f allow c in gate_ok (foldl log_effect g r.2) r.1.
Proof.
  intros H Hw. pose proof (go_stage _ _ H _ _ Hw) as Hh. cbn in Hh. unfold gateResumes.
  destruct allow; [|by eapply gate_ok_aside, aside_end]. unfold waitForRoom.
  destruct (_ || _); by apply gate_stage_ok.
Qed.

Lemma writerReady_ok g f ok c :
  gate_ok g c -> let r := writerReady options clientDID f ok c in gate_ok (foldl log_effect g r.2) r.1.
Proof.
  intros H. unfold writerReady. destruct ok; [|by eapply gate_ok_aside, aside_fail].
  apply gate_stage_ok; [|done|done]. destruct H as [Hc Hs]. by split.
Qed.

(** Every other step is aside. *)
Lemma step_cases e c r :
  receiveStep toB64 options clientDID e c = Some r ->
  (aside c r ∧ ∀ g, log_event g e = g) ∨
  (∃ now, e = WriteStarts now ∧ writeStarts clientDID now c = Some r) ∨
  (∃ f, (∃ d now, writing c = Some (mkWriteTask f AskingHook) ∧ e = HookAnswered d now ∧
           r = hookAnswered options clientDID f d now c) ∨
        (∃ allow, writing c = Some (mkWriteTask f (GateAnswered allow)) ∧ e = GateResumes ∧ r = gateResumes options f allow c) ∨
        (∃ ok, writing c = Some (mkWriteTask f AwaitingWriter) ∧ e = WriterReady ok ∧ r = writerReady options clientDID f ok c)).
Proof.
  intros Hs. destruct e; cbv beta iota zeta delta [receiveStep atStage whenReading] in Hs.
  all: try (apply (inj Some) in Hs; subst r).
  all: try (destruct (writing c) as [[f []]|] eqn:Hw; try done; apply (inj Some) in Hs; subst r).
  all: try (destruct (ackLoop c); try done; apply (inj Some) in Hs; subst r).
  all: try (destruct (drainPc c); try done; apply (inj Some) in Hs; subst r).
  5: right; left; by exists now.
  5: right; right; exists f; left; by exists decision, now.
  5: right; right; exists f; right; left; by exists allow.
  6: right; right; exists f; right; right; by exists ok.
  all: left; split; [|done].
  - apply aside_onLive.
  - apply aside_finish.
  - apply aside_finish.
  - apply aside_then; [|apply aside_notify]. by eapply (aside_set c (set_window [] 0 c)), aside_refl.
  - by apply aside_room.
  - apply aside_written.
  - eapply aside_acks, aside_refl.
  - unfold ackRead. destruct ack as [ids|]; [|apply aside_refl].
    apply aside_then; [apply aside_then; [apply aside_release|intros; eapply aside_acks, aside_refl]|].
    intros. apply aside_emit. repeat constructor.
  - unfold ackStored. apply aside_then; [eapply aside_acks, aside_refl|].
    intros. destruct ok; [apply aside_refl|]. apply aside_emit. repeat constructor.
  - apply aside_fetched.
  - by apply aside_settled.
  - apply aside_down.
Qed.

Lemma step_gate_ok g e c r :
  gate_ok g c -> receiveStep toB64 options clientDID e c = Some r -> gate_ok (logged g (e, r.2)) r.1.
Proof.
  intros H [[Ha Hg]|[(now & -> & Hs)|(f & [(d & now & Hw & -> & ->)|[(allow & Hw & -> & ->)|(ok & Hw & -> & ->)]])]]%step_cases.
  - unfold logged. cbn [fst snd]. rewrite Hg. by eapply gate_ok_aside.
  - by apply (starts_gate_ok g now c).
  - by apply hook_gate_ok.
  - by apply gateResumes_ok.
  - by apply writerReady_ok.
Qed.

(** A frame is written when its turn has come all the way to the writer. *)
Lemma step_writes e c r f :
  receiveStep toB64 options clientDID e c = Some r -> WriteFrame f ∈ r.2 -> writing c = Some (mkWriteTask f AwaitingWriter).
Proof.
  assert (∀ out, unasked out -> WriteFrame f ∉ out) as Hun.
  { unfold unasked. intros out Ho Hf. rewrite Forall_forall in Ho. by apply Ho in Hf. }
  intros [[Ha _]|[(now & -> & Hs)|(f' & [(d & now & Hw & -> & ->)|[(allow & Hw & -> & ->)|(ok & Hw & -> & ->)]])]]%step_cases Hf.
  - by apply as_out, Hun in Ha.
  - unfold writeStarts in Hs. destruct (writing c); [done|]. destruct (writeChain c) as [|f' chain]; [done|].
    injection Hs as <-. unfold startWrite in Hf. repeat case_match; cbn in Hf; set_solver.
  - unfold hookAnswered in Hf. destruct d; [by apply elem_of_nil in Hf|]. destruct (Hun _ (as_out _ _ (aside_fail c)) Hf).
  - unfold gateResumes, waitForRoom in Hf. repeat case_match; cbn in Hf; set_solver.
  - unfold writerReady in Hf. destruct ok; [|destruct (Hun _ (as_out _ _ (aside_fail c)) Hf)].
    cbn in Hf. apply list_elem_of_singleton in Hf as [= ->]. done.
Qed.

Lemma open_gate_ok token after aborted r :
  gate_ok (mkGateLog 0 0 "" ∅) (openChannel options clientDID token after aborted r).1.
Proof.
  unfold openChannel. set (c := mkChannel _ _ _ _ _ _ _ _ _ _ _ _ _ _).
  assert (gate_ok (mkGateLog 0 0 "" ∅) c) as H by (by split).
  destruct aborted; [|by split].
  pose proof (aside_then (finish options clientDID) (fun c => (set_drain false [] Returned c, [])) c
    (aside_finish c) (fun c1 => aside_drain _ _ _ c1 _ (aside_refl _))) as Ha.
  pose proof (gate_ok_aside _ _ _ H Ha) as H'. by rewrite unasked_log in H' by apply Ha.
Qed.

Lemma trace_gate_ok token after aborted r tr c :
  channel_trace toB64 options clientDID token after aborted r tr c -> gate_ok (gate_log tr) c.
Proof.
  induction 1 as [|tr c e c' out Htr IH Hs]; [apply open_gate_ok|].
  unfold gate_log. rewrite foldl_app. by apply (step_gate_ok _ _ _ _ IH Hs).
Qed.
End gate.

(** ** Properties *)

(** C9. A channel writes a frame only when the hub's hook allows its topic to this device: when the writer
    is handed a frame, the hook's latest answer for its topic is yes, and it was given for this very write
    or, when answers are cached, less than the cache's time before the write began. *)
Theorem delivery_authorized toB64 bufferLimit window windowBytes ttl clientDID token after aborted r tr1 e out tr2 c f :
  channel_trace toB64 (receiveOptions bufferLimit window windowBytes ttl) clientDID token after aborted r
    (tr1 ++ (e, out) :: tr2) c ->
  WriteFrame f ∈ out ->
  answer_holds (resolveReceiveAuthCacheTTL ttl) (gate_log tr1) (rf_topicID f) true.
Proof.
  rewrite cons_middle, app_assoc. intros [c2 (c1 & Htr & Hs)%mtrace_snoc_inv]%mtrace_prefix Hf.
  apply (step_writes _ _ _ _ _ _ _ Hs) in Hf. by apply (go_stage _ _ _ _ (trace_gate_ok _ _ _ _ _ _ _ _ _ Htr) _ _ Hf).
Qed.

Lemma delivery_authorized_witness :
  answers (gate_log (take 10 Windowed.run_paced.2)) !! "t" = Some (mkAnswer true 0 1) ∧
  turn (gate_log (take 10 Windowed.run_paced.2)) = 2 ∧
  answer_holds 5000 (gate_log (take 10 Windowed.run_paced.2)) "t" true.
Proof.
  split; [by vm_compute|]. split; [by vm_compute|].
  apply (delivery_authorized (fun _ => "") None (Some 2) None None "did:a" 0 None false Windowed.registered
    (take 10 Windowed.run_paced.2) (WriterReady true)
    [WriteFrame (toReceiveFrame (fun _ => "") (Windowed.message "2"))] (drop 11 Windowed.run_paced.2)
    Windowed.run_paced.1 (toReceiveFrame (fun _ => "") (Windowed.message "2"))); [|by left].
  assert (take 10 Windowed.run_paced.2 ++ (WriterReady true,
    [WriteFrame (toReceiveFrame (fun _ => "") (Windowed.message "2"))]) :: drop 11 Windowed.run_paced.2 =
    Windowed.run_paced.2) as -> by (by vm_compute).
  exact Windowed.paced_trace.
Defined.
