(* ===== verification/ReceiveWorld.v ===== *)
(** * A connected device misses nothing

    A receive channel against the hub around it: the device's queue in the store, which grows with every
    publish to it and loses frames as acks, trims and purges drop them, and the pushes the publishes make,
    which reach the channel in the order the store numbered the frames. Once the channel is live, every
    frame of the queue past the position the device asked for is on its way or went out, or its topic was
    denied. *)

From S2P Require Import HubProtocol HubSpec MemoryStore MemoryStoreFacts MemoryStoreSpec RateLimit ClientRegistry Wake Handlers Prelude Receive ReceiveWindow ReceiveGate.

(** ** The hub around a channel *)

(** [numbered]: the highest position handed out. [unpushed]: the frames whose publish has not called the
    registry yet. [inTransit]: a page the store has read and the channel not yet seen. [handled]: the
    frames written and the ones denied. *)
Record World := mkWorld {
  queue : list StoredMessage;
  numbered : string;
  unpushed : list StoredMessage;
  inTransit : option FetchResult;
  channel : Channel;
  handled : list string;
}.

(** What [store.fetch] answers a request without acks. *)
Definition page_of (after : option string) (q : list StoredMessage) : FetchResult :=
  let available := match after with Some a => filter (fun m => a <ₛ sm_sequenceID m) q | None => q end in
  let messages := take 50 available in
  mkFetchResult messages (sm_sequenceID <$> last messages) (50 <? length available)%nat.

Definition frame_ids (l : list ReceiveFrame) : list string := map rf_sequenceID l.

(** What a step settles of a frame. *)
Definition denied (c : Channel) (e : ReceiveEvent) : list string :=
  match e, writing c with
  | GateResumes, Some (mkWriteTask f (GateAnswered false)) => [rf_sequenceID f]
  | _, _ => []
  end.

(** An event the hub around the channel does not cause, and what it leaves. *)
Definition inner (e : ReceiveEvent) : Prop :=
  match e with OnLive _ | Fetched (Ok _) => False | _ => True end.

Lemma empty_sle x : "" ≤ₛ x.
Proof. by destruct x. Qed.

(** The frames a fetch from a cursor chooses from. *)
Lemma past_cursor P (cursor : option string) q :
  ascending (positions q) -> default "" cursor = P ->
  let l := match cursor with Some c => filter (fun m => c <ₛ sm_sequenceID m) q | None => q end in
  ascending (positions l) ∧ (∀ x, x ∈ positions l -> P ≤ₛ x) ∧
  (∀ x, x ∈ positions q -> P <ₛ x -> x ∈ positions l) ∧ (∀ x, x ∈ positions l -> x ∈ positions q).
Proof.
  intros Hq <-. destruct cursor as [c|]; cbn; [|split_and!; auto using empty_sle].
  assert (positions (filter (fun m => c <ₛ sm_sequenceID m) q) = filter (fun x => c <ₛ x) (positions q)) as ->.
  { unfold positions. clear Hq. induction q as [|m q IH]; [done|]. cbn [map]. rewrite !filter_cons.
    case_decide; cbn [map]; by rewrite IH. }
  split_and!; [by apply ascending_filter|..]; intros x.
  - intros [Hx _]%list_elem_of_filter. by apply slt_sle.
  - intros Hx Hc. by apply list_elem_of_filter.
  - by intros [_ ?]%list_elem_of_filter.
Qed.

Section world.
Context (toB64 : bytes -> string) (options : ReceiveOptions) (clientDID : string).
Abbreviation receiveStep := (receiveStep toB64 options clientDID).

(** The registry still knows the channel as the device's. *)
Definition bound (c : Channel) : Prop := (getClient clientDID (registry c) ≫= ce_token) = Some (receiveToken c).

Inductive hub_step : World -> World -> Prop :=
  | hub_stored m q hi u p c h :
    hi <ₛ sm_sequenceID m ->
    hub_step (mkWorld q hi u p c h) (mkWorld (q ++ [m]) (sm_sequenceID m) (u ++ [m]) p c h)
  | hub_dropped q q' hi u p c h :
    sublist q' q -> hub_step (mkWorld q hi u p c h) (mkWorld q' hi u p c h)
  | hub_push m q hi u p c h c' out :
    receiveStep (OnLive m) c = Some (c', out) -> bound c ->
    hub_step (mkWorld q hi (m :: u) p c h) (mkWorld q hi u p c' h)
  | hub_push_nobody m q hi u p c h :
    ¬ bound c -> hub_step (mkWorld q hi (m :: u) p c h) (mkWorld q hi u p c h)
  | hub_read q hi u c h cursor :
    drainPc c = Fetching cursor ->
    hub_step (mkWorld q hi u None c h) (mkWorld q hi u (Some (page_of cursor q)) c h)
  | hub_page q hi u pg c h c' out :
    receiveStep (Fetched (Ok pg)) c = Some (c', out) ->
    hub_step (mkWorld q hi u (Some pg) c h) (mkWorld q hi u None c' h)
  | hub_inner e q hi u p c h c' out :
    receiveStep e c = Some (c', out) -> inner e ->
    hub_step (mkWorld q hi u p c h)
      (mkWorld q hi u p c' (denied c e ++ frame_ids (frames_written out) ++ h)).

(** The channel opens on a queue in the order of its positions, bound to the device, with the pushes of
    earlier publishes still to come. *)
Record opens (token : nat) (after : option string) (aborted : bool) (w : World) : Prop := {
  op_queue : ascending (positions (queue w));
  op_unpushed : ascending (positions (unpushed w));
  op_numbered m : m ∈ queue w ∨ m ∈ unpushed w -> sm_sequenceID m ≤ₛ numbered w;
  op_transit : inTransit w = None;
  op_handled : handled w = [];
  op_channel : ∃ r, token < nextSymbol r ∧
    channel w = (openChannel options clientDID token after aborted r).1;
}.

Definition hub_run (token : nat) (after : option string) (aborted : bool) (w : World) : Prop :=
  ∃ w0, opens token after aborted w0 ∧ rtc hub_step w0 w.
(** ** What the steps of a write do

    Between the drain's own steps: the channel is torn down, or it only settles what it had queued. *)

Record settles (c : Channel) (e : ReceiveEvent) (r : Channel * list ReceiveEffect) : Prop := {
  se_live : live r.1 = live c;
  se_buffer : liveBuffer r.1 = liveBuffer c;
  se_drain : drainPc r.1 = drainPc c;
  se_token : receiveToken r.1 = receiveToken c;
  se_down : tornDown r.1 = tornDown c;
  se_next : nextSymbol (registry c) <= nextSymbol (registry r.1);
  se_bound : receiveToken c < nextSymbol (registry c) -> bound r.1 -> bound c;
  se_served : lastServed r.1 = lastServed c ∨ lastServed r.1 ∈ frame_ids (queued c);
  se_queued : frame_ids (queued r.1) ⊆ frame_ids (queued c);
  se_settled x : x ∈ frame_ids (queued c) -> x ∈ frame_ids (queued r.1) ∨
    x ∈ denied c e ∨ (∃ f, writing c = Some (mkWriteTask f Writing) ∧ x = rf_sequenceID f);
  se_writing f : writing r.1 = Some (mkWriteTask f Writing) ->
    writing c = Some (mkWriteTask f Writing) ∨ f ∈ frames_written r.2;
}.

Definition ends_or_settles (c : Channel) (e : ReceiveEvent) (r : Channel * list ReceiveEffect) : Prop :=
  tornDown r.1 = true ∨ settles c e r.

Lemma finish_down c : tornDown (finish options clientDID c).1 = true.
Proof.
  unfold finish. destruct (tornDown c) eqn:Hd; [done|]. rewrite !andThen_eq. cbn.
  unfold notifyWindow. cbn. by destruct (writing c) as [[f []]|].
Qed.

Lemma fail_down c : tornDown (failWrite options clientDID c).1 = true.
Proof. unfold failWrite. rewrite andThen_eq. cbn. apply finish_down. Qed.

Lemma throws_down e c : tornDown (drainThrows options clientDID e c).1 = true.
Proof.
  unfold drainThrows. rewrite !andThen_eq. cbn. unfold notifyWindow. cbn. by destruct (writing c) as [[f []]|].
Qed.

(** The write under way changes stage, short of [Writing]. *)
Lemma settles_stage f s t c e out :
  writing c = Some t -> wt_frame t = f -> s ≠ Writing ->
  settles c e (set_stage f s c, out).
Proof.
  intros Hw <- Hs. destruct t as [f s0]. split; cbn; try done; [by left|..].
  - unfold queued. cbn. by rewrite Hw.
  - unfold queued. cbn. rewrite Hw. cbn. tauto.
  - intros f' [= _ ->]. done.
Qed.

Lemma settles_same c c' e out :
  live c' = live c -> liveBuffer c' = liveBuffer c -> drainPc c' = drainPc c -> receiveToken c' = receiveToken c ->
  tornDown c' = tornDown c -> registry c' = registry c -> lastServed c' = lastServed c -> writing c' = writing c ->
  writeChain c' = writeChain c -> settles c e (c', out).
Proof.
  intros Hl Hb Hp Ht Hd Hr Hs Hw Hc. assert (queued c' = queued c) as Hq by (unfold queued; by rewrite Hw, Hc).
  split; cbn; rewrite ?Hq, ?Hr; try done; auto.
  - unfold bound. by rewrite Hr, Ht.
  - intros f. rewrite Hw. by left.
Qed.

Lemma settles_notify c e :
  settles c e (notifyWindow options c).
Proof.
  unfold notifyWindow. destruct (writing c) as [[f []]|] eqn:Hw; try by apply settles_same.
  destruct (_ || _); [|by apply settles_same]. by eapply settles_stage.
Qed.

(** The write under way ends. *)
Lemma settles_end c e served n t :
  writing c = Some t -> served = lastServed c ∨ served = rf_sequenceID (wt_frame t) ->
  rf_sequenceID (wt_frame t) ∈ denied c e ∨ wt_stage t = Writing ->
  settles c e (set_writes served n (writeChain c) None c, []).
Proof.
  intros Hw Hs Hd. destruct t as [f s]. cbn in *.
  split; cbn; unfold queued; cbn; rewrite ?Hw; try done.
  - destruct Hs as [-> | ->]; [by left|right; by left].
  - intros x Hx. by right.
  - cbn. intros x [->|Hx]%elem_of_cons; [right|by left]. destruct Hd as [Hd| ->]; [by left|right]. by exists f.
Qed.

(** Calls of other handlers may take the device's binding away, never give it back. *)
Lemma settles_registry c op : settles c (OtherRegistry op) (set_down (tornDown c) (regExec op (registry c)) c, []).
Proof.
  split; cbn; try done; try (by left).
  - apply regExec_next.
  - unfold bound, getClient. cbn. intros Hlt (e' & He' & Ht)%bind_Some.
    destruct (regExec_token _ _ _ _ _ He' Ht) as [Heq|(e & -> & Ht')]; [lia|done].
Qed.

Lemma settles_window m bytes c e r : settles (set_window m bytes c) e r -> settles c e r.
Proof. intros []. by split. Qed.
Lemma settles_acks a c e r : settles (set_ackLoop a c) e r -> settles c e r.
Proof. intros []. by split. Qed.
Lemma settles_cache m c e r : settles (set_authCache m c) e r -> settles c e r.
Proof. intros []. by split. Qed.

Lemma settles_release ids c e : settles c e (release options ids c).
Proof.
  unfold release. destruct (last _); [|by apply settles_same]. destruct (releaseThrough _ _ _) as [m bytes].
  eapply settles_window, settles_notify.
Qed.

Lemma settles_out c e c1 out1 out2 : settles c e (c1, out1) -> settles c e (c1, out1 ++ out2).
Proof.
  intros []. split; try done. intros f Hf. destruct (se_writing0 f Hf) as [|Hin]; [by left|right].
  cbn in *. unfold frames_written in *. rewrite omap_app. set_solver.
Qed.

Lemma starts_settles now c r : writeStarts clientDID now c = Some r -> ends_or_settles c (WriteStarts now) r.
Proof.
  unfold writeStarts. destruct (writing c) eqn:Hw; [done|]. destruct (writeChain c) as [|f chain] eqn:Hc; [done|].
  intros [= <-]. set (c1 := set_writes (lastServed c) (pendingWrites c) chain None c).
  assert (∀ s out, s ≠ Writing -> settles c (WriteStarts now) (set_stage f s c1, out)) as Hgo.
  { intros s out Hs. split; cbn; unfold queued; cbn; rewrite ?Hw, ?Hc; try done; auto. intros f' [= _ ->]. done. }
  unfold startWrite. change (tornDown c1) with (tornDown c). destruct (tornDown c) eqn:Hd; [by left|right].
  repeat case_match; by apply Hgo.
Qed.

Lemma settles_write f m bytes c e out :
  writing c = Some (mkWriteTask f AwaitingWriter) -> f ∈ frames_written out ->
  settles c e (set_stage f Writing (set_window m bytes c), out).
Proof.
  intros Hw Hf. split; cbn; unfold queued; cbn; rewrite ?Hw; try done; auto.
  intros f' [= <-]. by right.
Qed.

(** Every inner event but the drain's own. *)
Lemma inner_settles e c r :
  receiveStep e c = Some r -> inner e -> e ≠ ChainSettled -> ends_or_settles c e r.
Proof.
  intros Hs Hin Hne. destruct e; try done; cbv beta iota zeta delta [Receive.receiveStep atStage whenReading] in Hs.
  all: try (apply (inj Some) in Hs; subst r).
  all: try (destruct (writing c) as [[f []]|] eqn:Hw; try done; apply (inj Some) in Hs; subst r).
  all: try (destruct (ackLoop c); try done; apply (inj Some) in Hs; subst r).
  all: try (destruct (drainPc c); try done; apply (inj Some) in Hs; subst r).
  - left. apply finish_down.
  - left. apply finish_down.
  - right. rewrite andThen_eq. cbn [releaseAll fst snd app]. rewrite <- surjective_pairing.
    eapply settles_window, settles_notify.
  - by apply starts_settles.
  - unfold hookAnswered. destruct decision; [right|left; apply fail_down].
    eapply settles_cache. by eapply settles_stage.
  - unfold gateResumes. destruct allow; right.
    + unfold waitForRoom. destruct (_ || _); by eapply settles_stage.
    + eapply settles_end; [done|by left|]. left. cbn. rewrite Hw. by left.
  - unfold roomResumes. destruct (tornDown c) eqn:Hd; [by left|right]. by eapply settles_stage.
  - unfold writerReady. destruct ok; [right|left; apply fail_down].
    eapply settles_write; [done|by left].
  - unfold written. destruct ok; [right|left; apply fail_down].
    eapply (settles_end c _ _ (pred (pendingWrites c))); [done| |by right]. case_decide; [by right|by left].
  - right. by apply settles_same.
  - right. destruct ack as [ids|]; [|by apply settles_same]. unfold ackRead. rewrite !andThen_eq. cbn.
    pose proof (settles_release ids c (AckRead (Some ids))) as Hr.
    destruct (release options ids c) as [c1 out1]. rewrite app_nil_r.
    apply settles_out. by destruct Hr; split.
  - right. unfold ackStored. rewrite andThen_eq. destruct ok; by apply settles_same.
  - destruct page; [done|]. left. apply throws_down.
  - right. apply settles_registry.
Qed.
(** ** The invariant *)

Section course.
Context (after : option string).
Abbreviation a := (default "" after).

(** Frames the channel has still to hear of, or holds back until its drain is over. *)
Definition due (w : World) : list string := frame_ids (liveBuffer (channel w)) ++ positions (unpushed w).

Definition covered (w : World) (x : string) : Prop := x ∈ handled w ∨ x ∈ frame_ids (queued (channel w)).

(** Where a frame the channel took up, or the last one it wrote, may be. *)
Definition placed (P : string) (w : World) (x : string) : Prop :=
  x ≤ₛ P ∨ (x ≤ₛ numbered w ∧ ∀ y, y ∈ due w -> x <ₛ y).

Definition rest (P : string) (w : World) : Prop :=
  ∀ x, x ∈ positions (queue w) -> P <ₛ x -> x ∈ due w ∨ covered w x.

(** A page read past [P] that the channel has not yet seen. *)
Record page_ok (P : string) (pg : FetchResult) (w : World) : Prop := {
  pk_from : P ≤ₛ default P (fe_cursor pg);
  pk_known : default P (fe_cursor pg) = P ∨ default P (fe_cursor pg) ≤ₛ numbered w;
  pk_upto y : y ∈ positions (fe_messages pg) -> y ≤ₛ default P (fe_cursor pg);
  pk_all x : x ∈ positions (queue w) -> P <ₛ x -> x ≤ₛ default P (fe_cursor pg) -> x ∈ positions (fe_messages pg);
  pk_more : fe_hasMore pg = true -> is_Some (fe_cursor pg);
  pk_last : fe_hasMore pg = false ->
    ∀ x, x ∈ positions (queue w) -> P <ₛ x -> x ∈ positions (fe_messages pg) ∨ x ∈ due w;
}.

(** [P] is how far the pages reach: past it only what was stored after the last page was read. *)
Record on_course (P : string) (w : World) : Prop := {
  oc_from : a ≤ₛ P;
  oc_known : P = a ∨ P ≤ₛ numbered w;
  oc_due : ascending (due w);
  oc_due_known y : y ∈ due w -> y ≤ₛ numbered w;
  oc_covered x : x ∈ positions (queue w) -> a <ₛ x -> x ≤ₛ P -> covered w x;
  oc_served : placed P w (lastServed (channel w));
  oc_queued x : x ∈ frame_ids (queued (channel w)) -> placed P w x;
  oc_writing f : writing (channel w) = Some (mkWriteTask f Writing) -> rf_sequenceID f ∈ handled w;
  oc_token : receiveToken (channel w) < nextSymbol (registry (channel w));
  oc_transit : inTransit w ≠ None -> ∃ cursor, drainPc (channel w) = Fetching cursor;
  oc_live : live (channel w) = true -> drainPc (channel w) = Returned;
  oc_phase : match drainPc (channel w) with
    | Fetching cursor => default "" cursor = P ∧ ∀ pg, inTransit w = Some pg -> page_ok P pg w
    | PageQueued cursor hasMore => if hasMore then cursor = Some P else rest P w
    | FlushQueued => rest P w
    | Returned => live (channel w) = true ∧ liveBuffer (channel w) = [] ∧ rest P w
    | Threw _ => False
    end;
}.

Definition frame_of (w : World) (c : Channel) (h : list string) : World :=
  mkWorld (queue w) (numbered w) (unpushed w) (inTransit w) c h.

Lemma on_course_settles P w e r :
  on_course P w -> settles (channel w) e r ->
  on_course P (frame_of w r.1 (denied (channel w) e ++ frame_ids (frames_written r.2) ++ handled w)).
Proof.
  intros [] []. set (w' := frame_of _ _ _).
  assert (due w' = due w) as Hdue by (unfold due; cbn; by rewrite se_buffer0).
  assert (∀ x, covered w x -> covered w' x) as Hcov.
  { unfold covered. cbn. intros x [Hx|Hx]; [left; set_solver|].
    destruct (se_settled0 x Hx) as [?|[?|(f & Hf & ->)]]; [by right|left; set_solver|].
    left. pose proof (oc_writing0 f Hf). set_solver. }
  assert (rest P w -> rest P w') as Hrest.
  { intros Hr x Hx HP. rewrite Hdue. destruct (Hr x Hx HP) as [?|?]; [by left|right; auto]. }
  assert (∀ x, placed P w x -> placed P w' x) as Hplaced by (unfold placed; by rewrite Hdue).
  split; rewrite ?Hdue; cbn [channel queue numbered handled inTransit w' frame_of];
    rewrite ?se_live0, ?se_drain0, ?se_token0; try done.
  - eauto.
  - apply Hplaced. destruct se_served0 as [-> |Hs]; auto.
  - intros x Hx. apply Hplaced, oc_queued0. auto.
  - intros f [Hf|Hf]%se_writing0; [apply oc_writing0 in Hf; set_solver|].
    apply elem_of_app. right. apply elem_of_app. left. by apply list_elem_of_fmap_2.
  - lia.
  - destruct (drainPc (channel w)) as [cursor|cursor []| | |]; try done; auto.
    + destruct oc_phase0 as [HP Hpg]. split; [done|]. intros pg [H1 H2 H3 H4 H5 H6]%Hpg.
      split; try done. by rewrite Hdue.
    + destruct oc_phase0 as (Hl & Hb & Hr). split; [done|]. rewrite se_buffer0. auto.
Qed.
(** *** What happens around the channel *)

Lemma on_course_stored P w m :
  on_course P w -> numbered w <ₛ sm_sequenceID m ->
  on_course P (mkWorld (queue w ++ [m]) (sm_sequenceID m) (unpushed w ++ [m]) (inTransit w) (channel w) (handled w)).
Proof.
  intros [] Hm. set (w' := mkWorld _ _ _ _ _ _).
  assert (due w' = due w ++ [sm_sequenceID m]) as Hdue by (unfold due; cbn; unfold positions; by rewrite map_app, app_assoc).
  assert (∀ x, x ∈ positions (queue w') -> x ∈ positions (queue w) ∨ x = sm_sequenceID m) as Hq
    by (unfold positions; cbn; intros x; rewrite map_app; set_solver).
  assert (rest P w -> rest P w') as Hrest.
  { intros Hr x [Hx| ->]%Hq HP; rewrite Hdue; [|left; set_solver]. destruct (Hr x Hx HP); [left; set_solver|by right]. }
  assert (∀ x, x ≤ₛ numbered w -> x <ₛ sm_sequenceID m) as Hlt by (intros x Hx; by eapply sle_slt_trans).
  assert (∀ x, placed P w x -> placed P w' x) as Hplaced.
  { unfold placed. rewrite Hdue. cbn [numbered w']. intros x [Hx|[Hn Hx]]; [by left|right].
    split; [by apply slt_sle, Hlt|]. intros y [Hy| ->%list_elem_of_singleton]%elem_of_app; auto. }
  split; rewrite ?Hdue; cbn [channel handled inTransit w' numbered]; try done.
  - destruct oc_known0; [by left|right]. by apply slt_sle, Hlt.
  - apply ascending_snoc; [done|]. rewrite ?Forall_forall. auto.
  - intros y [Hy| ->%list_elem_of_singleton]%elem_of_app; [by apply slt_sle, Hlt, oc_due_known0|apply sle_refl].
  - intros x [Hx| ->]%Hq Ha HP; [by apply oc_covered0|].
    destruct oc_known0 as [->|HPn]; [by apply slt_alt in Ha|]. apply Hlt, slt_alt in HPn. done.
  - auto.
  - auto.
  - destruct (drainPc (channel w)) as [cursor|cursor []| | |]; try done; auto.
    + destruct oc_phase0 as [HP Hpg]. split; [done|]. intros pg [H1 H2 H3 H4 H5 H6]%Hpg. split; try done.
      * destruct H2; [by left|right]. by apply slt_sle, Hlt.
      * intros x [Hx| ->]%Hq HPx Hle; [by apply H4|].
        destruct H2 as [HPn|HPn]; [rewrite HPn in Hle; by apply slt_alt in HPx|]. apply Hlt, slt_alt in HPn. done.
      * intros Hm' x [Hx| ->]%Hq HPx; rewrite Hdue; [|right; set_solver].
        destruct (H6 Hm' x Hx HPx); [by left|right; set_solver].
    + destruct oc_phase0 as (Hl & Hb & Hr). auto.
Qed.
Lemma on_course_dropped P w q :
  on_course P w -> sublist q (queue w) ->
  on_course P (mkWorld q (numbered w) (unpushed w) (inTransit w) (channel w) (handled w)).
Proof.
  intros [] Hq%(fmap_sublist sm_sequenceID). set (w' := mkWorld _ _ _ _ _ _).
  assert (∀ x, x ∈ positions q -> x ∈ positions (queue w)) as Hin by (intros x Hx; by eapply elem_of_sublist).
  assert (rest P w -> rest P w') as Hrest by (intros Hr x Hx; apply Hr, Hin, Hx).
  split; cbn [channel queue numbered handled inTransit w']; try done.
  - intros x Hx. apply oc_covered0; auto.
  - destruct (drainPc (channel w)) as [cursor|cursor []| | |]; try done; auto.
    + destruct oc_phase0 as [HP Hpg]. split; [done|]. intros pg [H1 H2 H3 H4 H5 H6]%Hpg.
      split; try done; [intros x Hx; apply H4; auto|intros Hm x Hx; apply H6; auto].
    + naive_solver.
Qed.

(** A page of the queue as it stands is a page past its cursor. *)
Lemma page_of_ok P w cursor :
  ascending (positions (queue w)) -> (∀ m, m ∈ queue w -> sm_sequenceID m ≤ₛ numbered w) ->
  default "" cursor = P -> page_ok P (page_of cursor (queue w)) w.
Proof.
  intros Hq Hn HP. set (l := match cursor with Some c => filter (fun m => c <ₛ sm_sequenceID m) (queue w) | None => queue w end).
  destruct (past_cursor P cursor (queue w) Hq HP) as (Hasc & Hpast & Hall & Hin). fold l in Hasc, Hpast, Hall, Hin.
  assert (fe_cursor (page_of cursor (queue w)) = last (take 50 (positions l))) as Hcur.
  { cbn [page_of fe_cursor]. fold l. unfold positions. by rewrite <- fmap_last, firstn_map. }
  assert (positions (fe_messages (page_of cursor (queue w))) = take 50 (positions l)) as Hmsg
    by (cbn [page_of fe_messages]; fold l; unfold positions; by rewrite firstn_map).
  assert (positions l = take 50 (positions l) ++ drop 50 (positions l)) as Hsplit by by rewrite take_drop.
  assert (fe_hasMore (page_of cursor (queue w)) = (50 <? length (positions l))%nat) as Hmore
    by (cbn [page_of fe_hasMore]; fold l; unfold positions; by rewrite length_map).
  split; rewrite ?Hcur, ?Hmsg, ?Hmore; destruct (last (take 50 (positions l))) as [c|] eqn:Hlast; cbn [from_option id]; auto with kumiai.
  - apply Hpast. rewrite Hsplit. apply elem_of_app. left. by apply last_Some_elem_of.
  - right. apply last_Some_elem_of in Hlast. assert (c ∈ positions l) as (m & -> & Hm)%Hin%list_elem_of_fmap
      by (rewrite Hsplit; set_solver). by apply Hn.
  - intros y Hy. rewrite Hsplit in Hasc. apply ascending_app in Hasc as (Hasc & _). by eapply ascending_last.
  - apply last_None in Hlast. rewrite Hlast. by intros y ?%elem_of_nil.
  - intros x Hx HPx Hc. specialize (Hall x Hx HPx). rewrite Hsplit in Hall, Hasc.
    apply elem_of_app in Hall as [|Hd]; [done|]. apply ascending_app in Hasc as (_ & _ & Hlt).
    apply last_Some_elem_of in Hlast. by apply (Hlt c x), slt_alt in Hd.
  - intros x _ HPx Hle. by apply slt_alt in HPx.
  - apply last_None in Hlast. destruct (positions l); [|done]. done.
  - intros Hm x Hx HPx. left. apply Nat.ltb_ge in Hm. rewrite firstn_all2 by done. auto.
  - intros Hm x Hx HPx. left. apply Nat.ltb_ge in Hm. rewrite firstn_all2 by done. auto.
Qed.

Lemma on_course_read P w cursor :
  on_course P w -> ascending (positions (queue w)) -> (∀ m, m ∈ queue w -> sm_sequenceID m ≤ₛ numbered w) ->
  drainPc (channel w) = Fetching cursor ->
  on_course P (mkWorld (queue w) (numbered w) (unpushed w) (Some (page_of cursor (queue w))) (channel w) (handled w)).
Proof.
  intros [] Hq Hn Hpc. split; cbn [channel queue numbered handled inTransit]; try done; [by exists cursor|].
  rewrite Hpc in oc_phase0 |- *. destruct oc_phase0 as [HP _]. split; [done|]. intros pg [= <-].
  destruct (page_of_ok P w cursor Hq Hn HP). by split.
Qed.
(** *** The drain and the live frames *)

Lemma push_cases f c :
  tornDown (pushWrite options clientDID f c).1 = true ∨
  ∃ n, pushWrite options clientDID f c = (set_writes (lastServed c) n (writeChain c ++ [f]) (writing c) c, []).
Proof.
  unfold pushWrite. destruct (tornDown c) eqn:Hd; [by left|].
  destruct (_ <? _)%nat; [left; apply finish_down|right; eauto].
Qed.

Lemma each_push_down l c : tornDown c = true -> tornDown (each (pushWrite options clientDID) l c).1 = true.
Proof.
  revert c. induction l as [|f l IH]; [done|]. intros c Hd. cbn [each]. rewrite andThen_eq. apply IH.
  unfold pushWrite. by rewrite Hd.
Qed.

Lemma each_push_cases l c :
  tornDown (each (pushWrite options clientDID) l c).1 = true ∨
  ∃ n, each (pushWrite options clientDID) l c = (set_writes (lastServed c) n (writeChain c ++ l) (writing c) c, []).
Proof.
  revert c. induction l as [|f l IH]; intros c.
  - right. exists (pendingWrites c). rewrite app_nil_r. by destruct c.
  - cbn [each]. rewrite andThen_eq. destruct (push_cases f c) as [Hd|[n ->]]; [left; by apply each_push_down|].
    cbn [fst snd]. destruct (IH (set_writes (lastServed c) n (writeChain c ++ [f]) (writing c) c)) as [Hd|[n' Heq]];
      [by left|right].
    exists n'. rewrite Heq. cbn. by rewrite <- app_assoc.
Qed.

Lemma queued_push n l c :
  frame_ids (queued (set_writes (lastServed c) n (writeChain c ++ l) (writing c) c)) = frame_ids (queued c) ++ frame_ids l.
Proof.
  unfold queued, frame_ids. cbn. destruct (writing c); cbn; by rewrite map_app.
Qed.

Lemma frame_ids_of ms : frame_ids (map (toReceiveFrame toB64) ms) = positions ms.
Proof. unfold frame_ids, positions. by rewrite map_map. Qed.

Lemma on_course_page P w cursor pg :
  on_course P w -> drainPc (channel w) = Fetching cursor -> inTransit w = Some pg ->
  let r := fetched toB64 options clientDID (Ok pg) (channel w) in
  tornDown r.1 = true ∨ ∃ P', on_course P' (mkWorld (queue w) (numbered w) (unpushed w) None r.1 (handled w)).
Proof.
  intros [] Hpc Hpg r. rewrite Hpc in oc_phase0. destruct oc_phase0 as [HP Hok].
  destruct (Hok pg Hpg) as [Hfrom Hknown Hupto Hall Hmore Hlast]. subst r. cbn [fetched].
  set (c1 := set_drain _ _ _ _). destruct (each_push_cases (map (toReceiveFrame toB64) (fe_messages pg)) c1) as [Hd|[n ->]];
    [by left|right]. exists (default P (fe_cursor pg)). cbn [fst]. set (w' := mkWorld _ _ _ _ _ _).
  set (P' := default P (fe_cursor pg)) in *.
  assert (frame_ids (queued (channel w')) = frame_ids (queued (channel w)) ++ positions (fe_messages pg)) as Hqueued
    by (unfold w'; cbn [channel]; rewrite queued_push, frame_ids_of; done).
  assert (due w' = due w) as Hdue by done.
  assert (∀ x, covered w x -> covered w' x) as Hcov.
  { unfold covered. rewrite Hqueued. intros x [?|?]; [by left|right; set_solver]. }
  assert (∀ x, x ∈ positions (fe_messages pg) -> covered w' x) as Hpage
    by (intros x Hx; right; rewrite Hqueued; set_solver).
  assert (∀ x, placed P w x -> placed P' w' x) as Hplaced.
  { unfold placed. rewrite Hdue. intros x [Hx|Hx]; [left; by etrans|by right]. }
  split; rewrite ?Hdue; cbn [channel queue numbered handled inTransit w']; try done; auto.
  - by etrans.
  - destruct Hknown as [-> |]; auto.
  - intros x Hx Ha Hx'. destruct (decide (P <ₛ x)) as [HPx|HPx%not_slt]; auto.
  - intros x. change (x ∈ frame_ids (queued (channel w')) -> placed P' w' x). rewrite Hqueued. intros [Hx|Hx]%elem_of_app; [auto|left; auto].
  - intros Hl. apply oc_live0 in Hl. cbn in Hl. congruence.
  - cbn. destruct (fe_hasMore pg).
    + destruct (Hmore eq_refl) as [p Hp]. unfold P'. by rewrite Hp.
    + intros x Hx HPx. rewrite Hdue. destruct (Hlast eq_refl x Hx) as [?|?]; auto. by eapply sle_slt_trans.
Qed.

(** The position a live push moves past is the first one due. *)
Lemma on_course_push P w m u :
  on_course P w -> unpushed w = m :: u ->
  let r := onLive toB64 options clientDID m (channel w) in
  tornDown r.1 = true ∨ on_course P (mkWorld (queue w) (numbered w) u (inTransit w) r.1 (handled w)).
Proof.
  intros Hc Hu r. subst r. unfold onLive. destruct (live (channel w)) eqn:Hl.
  - destruct (push_cases (toReceiveFrame toB64 m) (channel w)) as [Hd|[n ->]]; [by left|right].
    destruct Hc as [oc_from0 oc_known0 oc_due0 oc_due_known0 oc_covered0 oc_served0 oc_queued0 oc_writing0 oc_token0 oc_transit0 oc_live0 oc_phase0].
    pose proof (oc_live0 Hl) as Hpc. rewrite Hpc in oc_phase0. destruct oc_phase0 as (_ & Hb & Hrest).
    cbn [fst]. set (w' := mkWorld _ _ _ _ _ _).
    assert (due w = sm_sequenceID m :: due w') as Hdue by (unfold due; cbn; by rewrite Hb, Hu).
    rewrite Hdue in oc_due0. apply ascending_cons_inv in oc_due0 as [Hasc Hfirst].
    assert (frame_ids (queued (channel w')) = frame_ids (queued (channel w)) ++ [sm_sequenceID m]) as Hqueued
      by (unfold w'; cbn [channel]; by rewrite queued_push).
    assert (∀ x, covered w x -> covered w' x) as Hcov.
    { unfold covered. rewrite Hqueued. intros x [?|?]; [by left|right; set_solver]. }
    assert (∀ x, placed P w x -> placed P w' x) as Hplaced.
    { unfold placed. rewrite Hdue. intros x [?|[? ?]]; [by left|right]. split; [done|]. set_solver. }
    split; cbn [channel queue numbered handled inTransit w']; try done; auto.
    + intros y Hy. apply oc_due_known0. rewrite Hdue. by right.
    + intros x. change (x ∈ frame_ids (queued (channel w')) -> placed P w' x). rewrite Hqueued. intros [Hx| ->%list_elem_of_singleton]%elem_of_app; [auto|].
      right. split; [|done]. apply oc_due_known0. rewrite Hdue. by left.
    + cbn. rewrite Hpc. split_and!; [done..|]. intros x Hx HPx. destruct (Hrest x Hx HPx) as [Hx'|Hx']; [|by right; apply Hcov].
      rewrite Hdue in Hx'. apply elem_of_cons in Hx' as [-> |]; [|by left]. right. right. rewrite Hqueued. set_solver.
  - destruct (_ <=? _)%nat; [left; apply finish_down|right]. destruct Hc. cbn [fst]. set (w' := mkWorld _ _ _ _ _ _).
    assert (due w' = due w) as Hdue.
    { unfold due. cbn. rewrite Hu. unfold frame_ids. rewrite map_app, <- app_assoc. done. }
    assert (∀ x, placed P w x -> placed P w' x) as Hplaced by (unfold placed; by rewrite Hdue).
    assert (rest P w -> rest P w') as Hrest by (unfold rest; by rewrite Hdue).
    split; rewrite ?Hdue; cbn [channel queue numbered handled inTransit w']; try done; auto.
    cbn. destruct (drainPc (channel w)) as [cursor|cursor []| | |]; try done; auto.
    + destruct oc_phase0 as [HP Hpg]. split; [done|]. intros pg [H1 H2 H3 H4 H5 H6]%Hpg. split; try done. by rewrite Hdue.
    + destruct oc_phase0 as [? _]. congruence.
Qed.
Lemma queued_nil c : writing c = None -> writeChain c = [] -> queued c = [].
Proof. unfold queued. by intros -> ->. Qed.

Lemma on_course_drain P w l buffer pc :
  on_course P w -> (buffer = liveBuffer (channel w) ∨ buffer = []) ->
  (l = true -> pc = Returned) -> inTransit w = None ->
  let w' := frame_of w (set_drain l buffer pc (channel w)) (handled w) in
  match pc with
  | Fetching cursor => default "" cursor = P
  | PageQueued cursor hasMore => if hasMore then cursor = Some P else rest P w'
  | FlushQueued => rest P w'
  | Returned => l = true ∧ buffer = [] ∧ rest P w'
  | Threw _ => False
  end -> on_course P w'.
Proof.
  intros [] Hb Hl Ht w' Hpc.
  assert (∀ y, y ∈ due w' -> y ∈ due w) as Hdue.
  { unfold due. cbn. destruct Hb as [-> | ->]; [done|]. intros y Hy. by apply elem_of_app; right. }
  assert (∀ x, placed P w x -> placed P w' x) as Hplaced.
  { intros x [Hx|[Hn Hx]]; [by left|right]. auto. }
  split; cbn [channel queue numbered handled inTransit w' frame_of]; try done; auto.
  - unfold due. cbn. destruct Hb as [-> | ->]; [done|]. unfold due in oc_due0. apply ascending_app in oc_due0.
    by destruct oc_due0 as (_ & ? & _).
  - cbn. destruct pc; try done. split; [done|]. intros pg Hpg. congruence.
Qed.

Lemma on_course_flush P w :
  on_course P w -> writing (channel w) = None -> writeChain (channel w) = [] -> inTransit w = None -> rest P w ->
  let r := flushLoop options clientDID (channel w) in
  tornDown r.1 = true ∨ on_course P (frame_of w r.1 (handled w)).
Proof.
  intros Hc Hw Hch Ht Hrest. unfold flushLoop. destruct (tornDown (channel w)) eqn:Hd; [by left|].
  destruct (liveBuffer (channel w)) as [|f l] eqn:Hb; cbn zeta.
  - right. apply (on_course_drain P w true [] Returned); auto. split_and!; [done..|].
    intros x Hx HPx. destruct (Hrest x Hx HPx) as [Hx'|Hx']; [left|by right].
    unfold due in *. by rewrite Hb in Hx'.
  - set (c1 := set_drain _ _ _ _). set (batch := filter _ _).
    destruct (each_push_cases batch c1) as [Hd'|[n ->]]; [by left|right]. cbn [fst].
    pose proof (queued_nil _ Hw Hch) as Hnil. unfold frame_of in *.
    set (w' := mkWorld _ _ _ _ _ _). destruct Hc.
    assert (due w = frame_ids (f :: l) ++ due w') as Hdue by (unfold due; cbn [channel w']; rewrite Hb; done).
    assert (frame_ids (queued (channel w')) = frame_ids batch) as Hqueued.
    { unfold w'. cbn [channel]. rewrite queued_push. change (queued c1) with (queued (channel w)). by rewrite Hnil. }
    rewrite Hdue in oc_due0. apply ascending_app in oc_due0 as (_ & Hasc & Hbefore).
    assert (∀ x, placed P w x -> placed P w' x) as Hplaced.
    { unfold placed. rewrite Hdue. intros x [?|[? ?]]; [by left|right]. split; [done|]. set_solver. }
    assert (∀ x, covered w x -> covered w' x) as Hcov.
    { unfold covered. rewrite Hnil. intros x [?|?%elem_of_nil]; [by left|done]. }
    assert (∀ x, x ∈ frame_ids batch <-> x ∈ frame_ids (f :: l) ∧ lastServed (channel w) <ₛ x) as Hbatch.
    { intros x. unfold frame_ids, batch. rewrite !list_elem_of_fmap. setoid_rewrite list_elem_of_filter. naive_solver. }
    split; cbn [channel queue numbered handled inTransit w']; try done; auto.
    + intros y Hy. apply oc_due_known0. rewrite Hdue. set_solver.
    + intros x. change (x ∈ frame_ids (queued (channel w')) -> placed P w' x). rewrite Hqueued.
      intros [Hx _]%Hbatch. right. split; [|intros y; by apply Hbefore]. apply oc_due_known0. rewrite Hdue. set_solver.
    + intros Hl. cbn in Hl. apply oc_live0 in Hl. rewrite Hl in oc_phase0. destruct oc_phase0 as (_ & ? & _). congruence.
    + cbn. intros x Hx HPx. destruct (Hrest x Hx HPx) as [Hx'|Hx']; [|by right; apply Hcov].
      rewrite Hdue in Hx'. apply elem_of_app in Hx' as [Hx'|Hx']; [|by left].
      right. right. rewrite Hqueued. apply Hbatch. split; [done|]. destruct oc_served0 as [Hs|[_ Hs]].
      * by eapply sle_slt_trans.
      * apply Hs. rewrite Hdue. set_solver.
Qed.

Lemma on_course_settled P w r :
  on_course P w -> chainSettled options clientDID (channel w) = Some r ->
  tornDown r.1 = true ∨ on_course P (frame_of w r.1 (handled w)).
Proof.
  intros Hc Hs. assert (inTransit w = None ∨ ∃ cursor, drainPc (channel w) = Fetching cursor) as Ht.
  { destruct (inTransit w) eqn:Ht; [right|by left]. apply (oc_transit _ _ Hc). congruence. }
  pose proof (oc_phase _ _ Hc) as Hphase. unfold chainSettled in Hs.
  destruct (writing (channel w)) eqn:Hw; [done|]. destruct (writeChain (channel w)) eqn:Hch; [|done].
  destruct (drainPc (channel w)) as [|cursor hasMore| | |] eqn:Hpc; try done; injection Hs as <-;
    (destruct Ht as [Ht|[? ?]]; [|done]).
  - unfold pageWritten. destruct hasMore; [|by apply on_course_flush].
    destruct (tornDown (channel w)) eqn:Hd; [by left|right]. subst cursor.
    apply (on_course_drain P w (live (channel w)) _ (Fetching (Some P)) Hc); auto.
    intros Hl. apply (oc_live _ _ Hc) in Hl. congruence.
  - by apply on_course_flush.
Qed.

(** ** The invariant holds in every run *)

Record world_ok (w : World) : Prop := {
  wk_queue : ascending (positions (queue w));
  wk_numbered m : m ∈ queue w -> sm_sequenceID m ≤ₛ numbered w;
  wk_token : tornDown (channel w) = false -> receiveToken (channel w) < nextSymbol (registry (channel w));
  wk_course : tornDown (channel w) = false -> bound (channel w) -> ∃ P, on_course P w;
}.
Lemma opens_ok token aborted w : opens token after aborted w -> world_ok w.
Proof.
  intros [Hq Hu Hn Ht Hh (r & Hr & Hc)]. split; [done|auto|..]; rewrite Hc; unfold openChannel;
    (destruct aborted; [rewrite andThen_eq; cbn [fst tornDown set_drain]; by rewrite finish_down|]); [done|].
  intros _ _. exists a.
  assert (due w = positions (unpushed w)) as Hdue by (unfold due; by rewrite Hc).
  split; rewrite ?Hdue, ?Hc, ?Ht; cbn; try done; [by left|..].
  - intros y (m & -> & Hm)%list_elem_of_fmap. auto.
  - intros x Hx Ha Hle. by apply slt_alt in Ha.
  - left. apply empty_sle.
  - intros x Hx. by apply elem_of_nil in Hx.
Qed.

(** The drain's own steps leave the binding alone, unless they tear the channel down. *)
Definition keeps_binding (c c' : Channel) : Prop :=
  tornDown c' = true ∨ (tornDown c' = tornDown c ∧ registry c' = registry c ∧ receiveToken c' = receiveToken c).

Lemma keeps_binding_back c c' : keeps_binding c c' -> tornDown c' = false -> bound c' -> tornDown c = false ∧ bound c.
Proof. unfold bound. intros [Hd|(<- & -> & ->)] Hd'; [congruence|done]. Qed.

Lemma each_push_binding l c : keeps_binding c (each (pushWrite options clientDID) l c).1.
Proof. destruct (each_push_cases l c) as [?|[n ->]]; [by left|by right]. Qed.

Lemma fetched_binding pg c : keeps_binding c (fetched toB64 options clientDID (Ok pg) c).1.
Proof. cbn [fetched]. apply (each_push_binding _ (set_drain _ _ _ c)). Qed.

Lemma settled_binding c r : chainSettled options clientDID c = Some r -> keeps_binding c r.1.
Proof.
  intros Hs. assert (keeps_binding c (flushLoop options clientDID c).1) as Hf.
  { unfold flushLoop. destruct (tornDown c) eqn:Hd; [by left|]. destruct (liveBuffer c); [by right|].
    apply (each_push_binding _ (set_drain _ _ _ c)). }
  unfold chainSettled in Hs. destruct (writing c); [done|]. destruct (writeChain c); [|done].
  destruct (drainPc c) as [|cursor [] | | |]; try done; injection Hs as <-; try exact Hf.
  unfold pageWritten. destruct (tornDown c) eqn:Hd; [by left|by right].
Qed.

Lemma onLive_binding m c : keeps_binding c (onLive toB64 options clientDID m c).1.
Proof.
  unfold onLive. destruct (live c).
  - destruct (push_cases (toReceiveFrame toB64 m) c) as [?|[n ->]]; [by left|by right].
  - destruct (_ <=? _)%nat; [left; apply finish_down|by right].
Qed.

Lemma keeps_token c c' : keeps_binding c c' -> tornDown c' = false ->
  (tornDown c = false -> receiveToken c < nextSymbol (registry c)) -> receiveToken c' < nextSymbol (registry c').
Proof. intros [Hd|(<- & -> & ->)] Hd'; [congruence|auto]. Qed.

Lemma drain_or_not e : e = ChainSettled ∨ e ≠ ChainSettled.
Proof. destruct e; auto. Qed.

Lemma inner_world_ok e q hi u p c h c' out :
  receiveStep e c = Some (c', out) -> inner e -> world_ok (mkWorld q hi u p c h) ->
  world_ok (mkWorld q hi u p c' (denied c e ++ frame_ids (frames_written out) ++ h)).
Proof.
  intros Hs Hin [Hq Hn Htk Hc]. cbn in *. destruct (drain_or_not e) as [->|Hne].
  - pose proof (settled_binding _ _ Hs) as Hk. split; cbn; [done..| |].
    + intros Hd. by apply (keeps_token c).
    + intros Hd Hb. destruct (keeps_binding_back _ _ Hk Hd Hb) as [Hdc Hbc]. destruct (Hc Hdc Hbc) as [P HP]. exists P.
      destruct (on_course_settled P _ _ HP Hs) as [Hd'|Hp]; cbn in *; [congruence|].
      pose proof (unasked_written _ (as_out _ _ (aside_settled _ _ _ _ Hs))) as Hw. cbn [snd] in Hw. by rewrite Hw.
  - destruct (inner_settles _ _ _ Hs Hin Hne) as [Hd'|Hse]; [by split; cbn; try done; cbn in Hd'; congruence|].
    pose proof (se_down _ _ _ Hse) as Hdown. split; cbn; [done..| |].
    + intros Hd. pose proof (se_token _ _ _ Hse). pose proof (se_next _ _ _ Hse). cbn in *.
      rewrite Hdown in Hd. specialize (Htk Hd). lia.
    + intros Hd Hb. cbn in Hdown. rewrite Hdown in Hd.
      destruct (Hc Hd) as [P HP]; [by apply (se_bound _ _ _ Hse); [apply Htk|]|].
      exists P. exact (on_course_settles P _ e _ HP Hse).
Qed.

Lemma step_world_ok w w' : hub_step w w' -> world_ok w -> world_ok w'.
Proof.
  intros Hs [Hq Hn Htk Hc]. destruct Hs as [m q hi u p c h Hm|q q' hi u p c h Hsub|m q hi u p c h c' out Hs Hb|
    m q hi u p c h Hb|q hi u c h cursor Hpc|q hi u pg c h c' out Hs|e q hi u p c h c' out Hs Hin]; cbn in *.
  - split; cbn; [| |done|].
    + unfold positions. rewrite map_app. apply ascending_snoc; [done|]. intros y (m' & -> & Hm')%list_elem_of_fmap.
      by eapply sle_slt_trans, Hm; apply Hn.
    + intros m' [Hm'|Hm']%elem_of_app; [apply Hn in Hm'; eapply sle_trans, slt_sle, Hm; done|].
      apply list_elem_of_singleton in Hm' as ->. apply sle_refl.
    + intros Hd Hb. destruct (Hc Hd Hb) as [P HP]. exists P. by apply (on_course_stored P _ m HP).
  - split; cbn; [| |done|].
    + by eapply StronglySorted_sublist, Hq; apply fmap_sublist.
    + intros m Hm. apply Hn. by eapply elem_of_sublist.
    + intros Hd Hb. destruct (Hc Hd Hb) as [P HP]. exists P. by apply (on_course_dropped P _ q' HP).
  - apply (inj Some) in Hs. pose proof (onLive_binding m c) as Hk. rewrite Hs in Hk.
    split; cbn; [done..| |].
    + intros Hd. by apply (keeps_token c).
    + intros Hd Hb'. destruct (keeps_binding_back _ _ Hk Hd Hb') as [Hdc _]. destruct (Hc Hdc Hb) as [P HP]. exists P.
      destruct (on_course_push P _ m u HP eq_refl) as [Hd'|Hp]; cbn in *; rewrite Hs in *; cbn in *; [congruence|done].
  - by split.
  - split; cbn; [done..|]. intros Hd Hb. destruct (Hc Hd Hb) as [P HP]. exists P. by apply (on_course_read P _ cursor HP).
  - assert (∃ cursor, drainPc c = Fetching cursor ∧ fetched toB64 options clientDID (Ok pg) c = (c', out)) as (cursor & Hpc & Hr).
    { cbn in Hs. destruct (drainPc c); try done. apply (inj Some) in Hs. eauto. }
    pose proof (fetched_binding pg c) as Hk. rewrite Hr in Hk. split; cbn; [done..| |].
    + intros Hd. by apply (keeps_token c).
    + intros Hd Hb. destruct (keeps_binding_back _ _ Hk Hd Hb) as [Hdc Hbc]. destruct (Hc Hdc Hbc) as [P HP].
      destruct (on_course_page P _ cursor pg HP Hpc eq_refl) as [Hd'|Hp]; cbn [channel] in *; rewrite Hr in *;
        [cbn in Hd'; congruence|exact Hp].
  - by apply inner_world_ok.
Qed.
Lemma run_ok token aborted w : hub_run token after aborted w -> world_ok w.
Proof.
  intros (w0 & Hw0%opens_ok & Hr). induction Hr as [|w0 w1 w Hs Hr IH]; [done|]. by apply IH, (step_world_ok w0).
Qed.
End course.
End world.

(** The in-memory store's fetch reads such a page of the device's queue. *)
Lemma messagesOf_known s a did l :
  store_rel s a -> l ⊆ pending s did ->
  (∀ n, messagesOf s (take n l) = take n (messagesOf s l)) ∧ length (messagesOf s l) = length l ∧
  (∀ c, messagesOf s (filter (fun k => c <ₛ k) l) = filter (fun m => c <ₛ sm_sequenceID m) (messagesOf s l)).
Proof.
  intros Hs. induction l as [|k l IH]; intros Hl.
  - split_and!; [by intros []|done|done].
  - destruct IH as (Htake & Hlen & Hfilter); [set_solver|].
    pose proof (messagesOf_positions s a did [k] Hs ltac:(set_solver)) as Hk.
    assert (∀ l', messagesOf s (k :: l') = messagesOf s [k] ++ messagesOf s l') as Hcons
      by (intros l'; unfold messagesOf; by rewrite <- omap_app).
    destruct (messagesOf s [k]) as [|m [|]]; try done. injection Hk as Hk.
    rewrite !Hcons. cbn [app length]. split_and!.
    + intros [|n]; [done|]. cbn [take]. by rewrite Hcons, Htake.
    + by rewrite Hlen.
    + intros c. rewrite !filter_cons, Hk. case_decide; [by rewrite Hcons, Hfilter|done].
Qed.

Lemma memory_store_page cfg s did after :
  reachable cfg s ->
  let q := messagesOf s (pending s did) in
  fetch (mkFetch did after (Some 50) None) s = (s, page_of after q) ∧ ascending (positions q).
Proof.
  intros (a & _ & Hs)%reachable_rel q. pose proof (pending_ascending s a did Hs) as Hasc.
  split; [|unfold q; by rewrite (messagesOf_positions s a did)].
  destruct (messagesOf_known s a did (pending s did) Hs) as (Htake & Hlen & Hfilter); [done|].
  rewrite (fetch_unacked s a) by done. unfold available, page_of. cbn [fp_after fp_recipientDID fp_limit default from_option id].
  set (l := match after with Some c => filter (fun k => c <ₛ k) (pending s did) | None => pending s did end).
  assert (l ⊆ pending s did) as Hl by (unfold l; destruct after; [by intros k [_ ?]%list_elem_of_filter|done]).
  assert (match after with Some c => filter (fun m => c <ₛ sm_sequenceID m) q | None => q end = messagesOf s l) as ->
    by (unfold l, q; destruct after; [by rewrite Hfilter|done]).
  destruct (messagesOf_known s a did l Hs Hl) as (-> & -> & _). do 2 f_equal.
  rewrite <- fmap_last. rewrite <- (messagesOf_positions s a did l Hs Hl) at 1. unfold positions. by rewrite firstn_map.
Qed.

(** ** Properties *)


(** ** A run of it *)

(** Inner events in a row. *)
Fixpoint inner_run toB64 options clientDID (es : list ReceiveEvent) (ch : Channel * list string) : option (Channel * list string) :=
  match es with
  | [] => Some ch
  | e :: es' =>
    match Receive.receiveStep toB64 options clientDID e ch.1 with
    | Some (c', out) => inner_run toB64 options clientDID es' (c', denied ch.1 e ++ frame_ids (frames_written out) ++ ch.2)
    | None => None
    end
  end.

Lemma inner_run_steps toB64 options clientDID es : ∀ q hi u p ch ch',
  inner_run toB64 options clientDID es ch = Some ch' -> Forall inner es ->
  rtc (hub_step toB64 options clientDID) (mkWorld q hi u p ch.1 ch.2) (mkWorld q hi u p ch'.1 ch'.2).
Proof.
  induction es as [|e es IH]; intros q hi u p ch ch' Hr Hes; cbn [inner_run] in Hr.
  - by injection Hr as <-.
  - apply Forall_cons in Hes as [He Hes]. destruct (Receive.receiveStep _ _ _ e ch.1) as [[c' out]|] eqn:Hs; [|done].
    eapply rtc_l; [by apply hub_inner|]. exact (IH q hi u p (c', _) ch' Hr Hes).
Qed.

(** The second frame is published between the read of the page and its arrival. *)
Module Connected.
Import Windowed.
Abbreviation step := (hub_step (fun _ => "") (opened 2) "did:a").

Definition c0 : Channel := (openChannel (opened 2) "did:a" 0 None false registered).1.
Definition c1 : Channel := (fetched (fun _ => "") (opened 2) "did:a" (Ok (page_of None [message "1"])) c0).1.
Definition c2 : Channel := (onLive (fun _ => "") (opened 2) "did:a" (message "2") c1).1.
Definition last_events : list ReceiveEvent := sent 0 ++ [ChainSettled] ++ sent_cached 1 ++ [ChainSettled].
Definition final : Channel * list string :=
  default (c2, []) (inner_run (fun _ => "") (opened 2) "did:a" last_events (c2, [])).
Definition w : World := mkWorld [message "1"; message "2"] "2" [] None final.1 final.2.

Lemma run : hub_run (fun _ => "") (opened 2) "did:a" 0 None false w.
Proof.
  exists (mkWorld [message "1"] "1" [] None c0 []). split.
  { split; [repeat constructor|constructor| |done|done|].
    - by intros m [->%list_elem_of_singleton|?%elem_of_nil].
    - exists registered. split; [|done]. vm_compute. lia. }
  eapply rtc_l; [by eapply (hub_read _ _ _ _ _ _ _ _ None)|].
  eapply rtc_l; [by apply (hub_stored _ _ _ (message "2"))|].
  eapply rtc_l; [by eapply (hub_page _ _ _ _ _ _ _ _ _ c1 [])|].
  eapply rtc_l; [by eapply (hub_push _ _ _ _ _ _ _ _ _ _ c2 [])|].
  unfold w. apply (inner_run_steps _ _ _ last_events _ _ _ _ (c2, []) final); [by vm_compute|].
  repeat constructor.
Qed.
End Connected.

