(* ===== verification/Tunnel.v ===== *)
(** * The hub tunnel

    packages/hub-tunnel: a duplex stream between two peers over the hub. A transport publishes its frames
    to one topic and reads the other's from another, in one session; frame.ts is what travels, transport.ts
    the two ends. Like the hub mux it waits between its acts, so it is a machine: a step is what the code
    does until its next await, an effect a call it makes to the hub, to its streams or to its host.

    A host's callbacks ([onEvent], [onSessionEnd]) are taken not to throw. *)

From S2P Require Import HubProtocol Json ControllerLog GroupFold Prelude.

(** ** errors.ts *)

Inductive TunnelError :=
  | FrameDecodeError (message : string)
  | EnvelopeDecodeError (message : string)
  | DecryptError
  | DuplicateFrameError
  | ExpiredFrameError
  | EncryptError
  | BackpressureError
  | HubReconnectingError
  | SessionNotEstablishedError
  | TimeoutInterruption
  | AbortInterruption
  | OtherError (message : string).

(** ** frame.ts *)

Definition HUB_FRAME_VERSION : Z := 1.

Inductive HubFrame :=
  | MessageFrame (sessionID : string) (seq : Z) (correlationID : option string) (body : json)
  | SessionEnd (sessionID : string) (seq : Z) (correlationID : option string) (reason : option string).

Definition frame_session (f : HubFrame) : string :=
  match f with MessageFrame s _ _ _ | SessionEnd s _ _ _ => s end.

(** JSON schema: an object whose members all are among the properties and hold their schemas, and which
    has the required ones. *)
Definition onlyKeys (allowed : list string) (fields : list (string * json)) : bool :=
  forallb (fun kv => bool_decide (kv.1 ∈ allowed)) fields.

Definition stringField (key : string) (v : json) : option string :=
  match get key v with Some (JStr s) => Some s | _ => None end.

(** An optional string: the inner [None] when absent, the outer when it is no string. *)
Definition optionalString (key : string) (v : json) : option (option string) :=
  match get key v with None => Some None | Some (JStr s) => Some (Some s) | Some _ => None end.

Definition integerField (key : string) (v : json) : option Z :=
  match get key v with Some (JNum (Int n)) => Some n | _ => None end.

Definition enkakuMessageSchema (v : json) : bool :=
  match v with
  | JObj fields =>
    onlyKeys ["header"; "payload"; "signature"; "data"] fields &&
    match get "header" v with Some (JObj _) => true | _ => false end &&
    match get "payload" v with
    | Some (JObj _ as payload) => bool_decide (is_Some (stringField "typ" payload))
    | _ => false
    end &&
    bool_decide (is_Some (optionalString "signature" v)) && bool_decide (is_Some (optionalString "data" v))
  | _ => false
  end.

(** The two alternatives differ in [kind], so at most one holds. *)
Definition messageFrameSchema (v : json) : option HubFrame :=
  match v with
  | JObj fields =>
    if negb (onlyKeys ["v"; "sessionID"; "seq"; "correlationID"; "kind"; "body"] fields) then None
    else
      match integerField "v" v, stringField "sessionID" v, integerField "seq" v, stringField "kind" v,
            optionalString "correlationID" v, get "body" v with
      | Some version, Some sessionID, Some seq, Some kind, Some correlationID, Some body =>
        if decide (version = HUB_FRAME_VERSION ∧ kind = "message") then
          if enkakuMessageSchema body then Some (MessageFrame sessionID seq correlationID body) else None
        else None
      | _, _, _, _, _, _ => None
      end
  | _ => None
  end.

Definition sessionEndFrameSchema (v : json) : option HubFrame :=
  match v with
  | JObj fields =>
    if negb (onlyKeys ["v"; "sessionID"; "seq"; "correlationID"; "kind"; "reason"] fields) then None
    else
      match integerField "v" v, stringField "sessionID" v, integerField "seq" v, stringField "kind" v,
            optionalString "correlationID" v, optionalString "reason" v with
      | Some version, Some sessionID, Some seq, Some kind, Some correlationID, Some reason =>
        if decide (version = HUB_FRAME_VERSION ∧ kind = "session-end")
        then Some (SessionEnd sessionID seq correlationID reason) else None
      | _, _, _, _, _, _ => None
      end
  | _ => None
  end.

Definition validateHubFrame (v : json) : option HubFrame :=
  match messageFrameSchema v with Some f => Some f | None => sessionEndFrameSchema v end.

(** The object a frame is, in the order its members are written; an absent one is not written. *)
Definition optionalMember (key : string) (value : option string) : list (string * json) :=
  match value with Some s => [(key, JStr s)] | None => [] end.

Definition frameObject (f : HubFrame) : json :=
  match f with
  | MessageFrame sessionID seq correlationID body =>
    JObj ([("v", JNum (Int HUB_FRAME_VERSION)); ("sessionID", JStr sessionID); ("kind", JStr "message");
           ("seq", JNum (Int seq))] ++ optionalMember "correlationID" correlationID ++ [("body", body)])
  | SessionEnd sessionID seq correlationID reason =>
    JObj ([("v", JNum (Int HUB_FRAME_VERSION)); ("sessionID", JStr sessionID); ("kind", JStr "session-end");
           ("seq", JNum (Int seq))] ++ optionalMember "correlationID" correlationID ++ optionalMember "reason" reason)
  end.

(** *** envelope.ts *)

Definition TUNNEL_ENVELOPE_VERSION : Z := 1.

Record TunnelEnvelope := mkTunnelEnvelope { te_groupID : string; te_ciphertext : string }.

Definition envelopeObject (e : TunnelEnvelope) : json :=
  JObj [("v", JNum (Int TUNNEL_ENVELOPE_VERSION)); ("groupID", JStr (te_groupID e));
        ("ciphertext", JStr (te_ciphertext e))].

Definition validateTunnelEnvelope (v : json) : option TunnelEnvelope :=
  match v with
  | JObj fields =>
    if negb (onlyKeys ["v"; "groupID"; "ciphertext"] fields) then None
    else
      match integerField "v" v, stringField "groupID" v, stringField "ciphertext" v with
      | Some version, Some groupID, Some ciphertext =>
        if decide (version = TUNNEL_ENVELOPE_VERSION) then Some (mkTunnelEnvelope groupID ciphertext) else None
      | _, _, _ => None
      end
  | _ => None
  end.

(** [TextEncoder], the fatal [TextDecoder], [JSON.stringify] and [JSON.parse]. *)
Section codec.
Context (encodeText : string -> bytes) (decodeText : bytes -> option string).
Context (stringifyJSON : json -> string) (parseJSON : string -> option json).

Definition encodeFrame (frame : HubFrame) : bytes := encodeText (stringifyJSON (frameObject frame)).

Definition decodeFrame (bytes : bytes) : result TunnelError HubFrame :=
  match decodeText bytes with
  | None => Err (FrameDecodeError "Frame bytes are not valid UTF-8")
  | Some text =>
    match parseJSON text with
    | None => Err (FrameDecodeError "Frame is not valid JSON")
    | Some parsed =>
      match validateHubFrame parsed with
      | Some frame => Ok frame
      | None => Err (FrameDecodeError "Frame failed schema validation")
      end
    end
  end.

Definition encodeEnvelope (envelope : TunnelEnvelope) : bytes :=
  encodeText (stringifyJSON (envelopeObject envelope)).

Definition decodeEnvelope (bytes : bytes) : result TunnelError TunnelEnvelope :=
  match decodeText bytes with
  | None => Err (EnvelopeDecodeError "Envelope bytes are not valid UTF-8")
  | Some text =>
    match parseJSON text with
    | None => Err (EnvelopeDecodeError "Envelope is not valid JSON")
    | Some parsed =>
      match validateTunnelEnvelope parsed with
      | Some envelope => Ok envelope
      | None => Err (EnvelopeDecodeError "Envelope failed schema validation")
      end
    end
  end.
End codec.

(** ** transport.ts *)

Inductive FrameDroppedReason := DropTopicMismatch | DropSessionMismatch | DropStaleSessionEnd | DropDedup.

(** The readable stream: what its reader finds of it. *)
Inductive StreamState := Open | Closed | Errored (error : TunnelError).

(** The await a call of [write] is at. *)
Inductive WriteStage := AwaitSubscribed | Publishing.

Record Tunnel := mkTunnel {
  lockedSessionID : option string;
  outboundSeq : Z;
  expectedSeq : Z;
  subscribed : bool;
  torndown : bool;
  lastActivity : Z;
  idleTimer : option Z;
  reconnectTimer : bool;
  statusListener : bool;
  abortListener : bool;
  unsubscribeDue : bool;
  pumping : bool;
  readable : StreamState;
  queued : nat;
  pendingReads : nat;
  writable : bool;
  writing : option (json * WriteStage);
}.

Inductive TunnelEffect :=
  | HubSubscribe (topicID : string)
  | HubReceive (topicID : string)
  | HubPublish (topicID : string) (frame : HubFrame)
  | HubUnsubscribe (topicID : string)
  | IteratorReturn
  | AckUpstream (sequenceID : string)
  | Enqueue (body : json)
  | Dropped (reason : FrameDroppedReason)
  | OnSessionEnd
  | WriteResolves
  | WriteRejects (error : TunnelError).

(** What the subscription's [next] gives. *)
Inductive NextResult := NextValue (message : StoredMessage) | NextDone | NextThrows (error : TunnelError).

Inductive HubStatus := Reconnecting | Connected | Disconnected.

Inductive TunnelEvent :=
  (* the hub *)
  | SubscribeSettled
  | UnsubscribeRuns
  | Next (result : NextResult) (now : Z)
  | StatusChanged (status : HubStatus)
  (* the streams' other ends *)
  | Reads
  | CancelsReadable
  | Writes (value : json)
  | WriteResumes
  | Published (error : option TunnelError) (now : Z)
  | ClosesWritable
  | AbortsWritable
  (* timers, the signal, disposal *)
  | IdleFires (now : Z)
  | ReconnectFires
  | SignalAborts
  | Disposed.

Abbreviation TunnelAct := (act_of Tunnel TunnelEffect).
Abbreviation TunnelTrace := (list (TunnelEvent * list TunnelEffect)).

Definition set_session (s : option string) (expected : Z) (now : Z) (t : Tunnel) : Tunnel :=
  mkTunnel s (outboundSeq t) expected (subscribed t) (torndown t) now (idleTimer t) (reconnectTimer t)
    (statusListener t) (abortListener t) (unsubscribeDue t) (pumping t) (readable t) (queued t) (pendingReads t)
    (writable t) (writing t).
Definition set_outbound (n : Z) (now : Z) (open : bool) (w : option (json * WriteStage)) (t : Tunnel) : Tunnel :=
  mkTunnel (lockedSessionID t) n (expectedSeq t) (subscribed t) (torndown t) now (idleTimer t) (reconnectTimer t)
    (statusListener t) (abortListener t) (unsubscribeDue t) (pumping t) (readable t) (queued t) (pendingReads t)
    open w.
Definition set_timers (idle : option Z) (reconnect : bool) (t : Tunnel) : Tunnel :=
  mkTunnel (lockedSessionID t) (outboundSeq t) (expectedSeq t) (subscribed t) (torndown t) (lastActivity t) idle
    reconnect (statusListener t) (abortListener t) (unsubscribeDue t) (pumping t) (readable t) (queued t)
    (pendingReads t) (writable t) (writing t).
Definition set_readable (s : StreamState) (n reads : nat) (t : Tunnel) : Tunnel :=
  mkTunnel (lockedSessionID t) (outboundSeq t) (expectedSeq t) (subscribed t) (torndown t) (lastActivity t)
    (idleTimer t) (reconnectTimer t) (statusListener t) (abortListener t) (unsubscribeDue t) (pumping t) s n
    reads (writable t) (writing t).
Definition set_hub (sub due pump : bool) (t : Tunnel) : Tunnel :=
  mkTunnel (lockedSessionID t) (outboundSeq t) (expectedSeq t) sub (torndown t) (lastActivity t)
    (idleTimer t) (reconnectTimer t) (statusListener t) (abortListener t) due pump (readable t)
    (queued t) (pendingReads t) (writable t) (writing t).

Definition stopPump : TunnelAct := fun t => (set_hub (subscribed t) (unsubscribeDue t) false t, []).

(** [controller.close] and [controller.error] do nothing to a stream that is no longer open; an error
    drops what is queued, a close settles the waiting reads. *)
Definition closeReadable : TunnelAct := fun t =>
  match readable t with Open => (set_readable Closed (queued t) 0 t, []) | _ => skip t end.

Definition errorReadable (error : TunnelError) : TunnelAct := fun t =>
  match readable t with Open => (set_readable (Errored error) 0 0 t, []) | _ => skip t end.

(** A waiting read takes the chunk, else it is queued. *)
Definition enqueue (body : json) : TunnelAct := fun t =>
  match pendingReads t with
  | S n => emit (Enqueue body) (set_readable (readable t) (queued t) n t)
  | O => emit (Enqueue body) (set_readable (readable t) (S (queued t)) O t)
  end.

Section transport.
Context (decode : bytes -> result TunnelError HubFrame).
Context (receiveTopicID sendTopicID : string) (inboxCapacity : nat) (idleTimeoutMs : option Z) (reconnectTimeoutMs : bool).

Definition sendSessionEnd : TunnelAct := fun t =>
  match lockedSessionID t with
  | None => skip t
  | Some s => emit (HubPublish sendTopicID (SessionEnd s (outboundSeq t) None None)) t
  end.

(** The unsubscribe waits for the subscribe to settle. *)
Definition releaseResources : TunnelAct := fun t =>
  if torndown t then skip t
  else emit IteratorReturn
    (mkTunnel (lockedSessionID t) (outboundSeq t) (expectedSeq t) (subscribed t) true (lastActivity t) None false
       false false true (pumping t) (readable t) (queued t) (pendingReads t) (writable t) (writing t)).

Definition teardown (error : option TunnelError) : TunnelAct := fun t =>
  if torndown t then skip t
  else (releaseResources ▷ sendSessionEnd ▷ (match error with Some e => errorReadable e | None => skip end)) t.

(** The timer runs when the quiet since [lastActivity] fills the timeout. *)
Definition scheduleIdleTimer (now : Z) : TunnelAct := fun t =>
  match idleTimeoutMs with
  | Some timeout =>
    if torndown t then skip t
    else (set_timers (Some (now + Z.max (timeout - (now - lastActivity t)) 0)%Z) (reconnectTimer t) t, [])
  | None => skip t
  end.

Definition idleFires (now : Z) : TunnelAct := fun t =>
  let t1 := set_timers None (reconnectTimer t) t in
  if torndown t1 then skip t1
  else match idleTimeoutMs with
  | Some timeout =>
    if (timeout <=? now - lastActivity t1)%Z then teardown (Some TimeoutInterruption) t1 else scheduleIdleTimer now t1
  | None => skip t1
  end.

Definition markActivity (now : Z) : TunnelAct := fun t =>
  (set_session (lockedSessionID t) (expectedSeq t) now t, []).

(** *** The pump *)

(** A frame of this session. *)
Definition sessionFrame (message : StoredMessage) (frame : HubFrame) (now : Z) : TunnelAct := fun t =>
  match frame with
  | SessionEnd _ _ _ _ =>
    (emit (AckUpstream (sm_sequenceID message)) ▷ closeReadable ▷ releaseResources ▷ emit OnSessionEnd ▷ stopPump) t
  | MessageFrame _ seq _ body =>
    if (seq <? expectedSeq t)%Z
    then (emit (Dropped DropDedup) ▷ emit (AckUpstream (sm_sequenceID message))) t
    else if (inboxCapacity <=? queued t)%nat then (teardown (Some BackpressureError) ▷ stopPump) t
    else ((fun t => (set_session (lockedSessionID t) (seq + 1) (lastActivity t) t, [])) ▷ markActivity now ▷
          enqueue body ▷ emit (AckUpstream (sm_sequenceID message))) t
  end.

Definition handleMessage (message : StoredMessage) (now : Z) : TunnelAct := fun t =>
  let ack := emit (AckUpstream (sm_sequenceID message)) in
  if decide (sm_topicID message = receiveTopicID) then
    match decode (sm_payload message) with
    | Err (FrameDecodeError _) => ack t
    | Err error => (teardown (Some error) ▷ stopPump) t
    | Ok frame =>
      match lockedSessionID t with
      | None =>
        sessionFrame message frame now (set_session (Some (frame_session frame)) (expectedSeq t) (lastActivity t) t)
      | Some s =>
        if decide (frame_session frame = s) then sessionFrame message frame now t
        else (emit (Dropped (match frame with SessionEnd _ _ _ _ => DropStaleSessionEnd
                                            | MessageFrame _ _ _ _ => DropSessionMismatch end)) ▷ ack) t
      end
    end
  else (emit (Dropped DropTopicMismatch) ▷ ack) t.

Definition next (result : NextResult) (now : Z) : TunnelAct := fun t =>
  match result with
  | NextThrows error =>
    if torndown t then stopPump t else (releaseResources ▷ errorReadable error ▷ stopPump) t
  | NextDone => if torndown t then stopPump t else (releaseResources ▷ closeReadable ▷ stopPump) t
  | NextValue message => if torndown t then stopPump t else handleMessage message now t
  end.

(** *** The writable side *)

(** A write that throws errors the stream, which then takes no other. *)
Definition rejectWrite (error : TunnelError) : TunnelAct := fun t =>
  emit (WriteRejects error) (set_outbound (outboundSeq t) (lastActivity t) false None t).

Definition TORN_DOWN : TunnelError := OtherError "Hub tunnel transport torn down".

Definition writes (value : json) : TunnelAct := fun t =>
  if torndown t then rejectWrite TORN_DOWN t
  else match lockedSessionID t with
  | None => rejectWrite SessionNotEstablishedError t
  | Some _ => (set_outbound (outboundSeq t) (lastActivity t) (writable t) (Some (value, AwaitSubscribed)) t, [])
  end.

Definition writeResumes (value : json) : TunnelAct := fun t =>
  if torndown t then rejectWrite TORN_DOWN t
  else match lockedSessionID t with
  | Some s =>
    emit (HubPublish sendTopicID (MessageFrame s (outboundSeq t) None value))
      (set_outbound (outboundSeq t + 1) (lastActivity t) (writable t) (Some (value, Publishing)) t)
  | None => skip t
  end.

Definition published (error : option TunnelError) (now : Z) : TunnelAct := fun t =>
  match error with
  | Some e => rejectWrite e t
  | None => emit WriteResolves (set_outbound (outboundSeq t) now (writable t) None t)
  end.

(** *** The hub's status *)

Definition statusChanged (status : HubStatus) : TunnelAct := fun t =>
  if torndown t then skip t
  else match status with
  | Reconnecting | Disconnected => (set_timers (idleTimer t) true t, [])
  | Connected => (set_timers (idleTimer t) false t, [])
  end.

Definition reconnectFires : TunnelAct := fun t =>
  let t1 := set_timers (idleTimer t) false t in
  if torndown t1 then skip t1 else teardown (Some HubReconnectingError) t1.

(** ** The machine *)

Definition tunnelStep (e : TunnelEvent) (t : Tunnel) : option (Tunnel * list TunnelEffect) :=
  match e with
  | SubscribeSettled => if subscribed t then None else Some (set_hub true (unsubscribeDue t) (pumping t) t, [])
  | UnsubscribeRuns =>
    if subscribed t && unsubscribeDue t
    then Some (emit (HubUnsubscribe receiveTopicID) (set_hub true false (pumping t) t)) else None
  | Next result now => if pumping t then Some (next result now t) else None
  | StatusChanged status => if statusListener t then Some (statusChanged status t) else None
  | Reads =>
    Some (match readable t, queued t with
          | _, S n => set_readable (readable t) n (pendingReads t) t
          | Open, O => set_readable Open O (S (pendingReads t)) t
          | _, O => t
          end, [])
  | CancelsReadable =>
    match readable t with
    | Open => Some (teardown None (set_readable Closed 0 0 t))
    | _ => None
    end
  | Writes value =>
    match writing t with None => if writable t then Some (writes value t) else None | Some _ => None end
  | WriteResumes =>
    match writing t with
    | Some (value, AwaitSubscribed) => if subscribed t then Some (writeResumes value t) else None
    | _ => None
    end
  | Published error now =>
    match writing t with Some (_, Publishing) => Some (published error now t) | _ => None end
  | ClosesWritable | AbortsWritable =>
    match writing t with
    | None =>
      if writable t then Some (teardown None (set_outbound (outboundSeq t) (lastActivity t) false None t)) else None
    | Some _ => None
    end
  | IdleFires now =>
    match idleTimer t with
    | Some deadline => if (deadline <=? now)%Z then Some (idleFires now t) else None
    | None => None
    end
  | ReconnectFires => if reconnectTimer t then Some (reconnectFires t) else None
  | SignalAborts => if abortListener t then Some (teardown (Some AbortInterruption) t) else None
  | Disposed => Some (teardown None t)
  end.

(** [sessionID]: [None] for [{ auto: true }]. [signal]: none, or whether it is aborted already. *)
Definition createHubTunnelTransport (sessionID : option string) (signal : option bool) (events : bool) (now : Z) :
    Tunnel * list TunnelEffect :=
  let t := mkTunnel sessionID 0 0 false false now None false false false false false Open 0 0 true None in
  let start :=
    if bool_decide (signal = Some true) then teardown (Some AbortInterruption)
    else scheduleIdleTimer now ▷ (fun t => (set_hub (subscribed t) (unsubscribeDue t) true t, [])) in
  let arm : TunnelAct := fun t =>
    (mkTunnel (lockedSessionID t) (outboundSeq t) (expectedSeq t) (subscribed t) (torndown t) (lastActivity t)
       (idleTimer t) (reconnectTimer t) (negb (torndown t) && reconnectTimeoutMs && events)
       (bool_decide (signal = Some false)) (unsubscribeDue t) (pumping t) (readable t) (queued t)
       (pendingReads t) (writable t) (writing t), []) in
  (emit (HubSubscribe receiveTopicID) ▷ emit (HubReceive receiveTopicID) ▷ start ▷ arm) t.
End transport.

Abbreviation tunnel_trace decode receive send capacity idle reconnect sessionID signal events now :=
  (mtrace (tunnelStep decode receive send capacity idle)
     (createHubTunnelTransport receive send idle reconnect sessionID signal events now).1).
