(* ===== verification/TunnelSpec.v ===== *)
(** * A tunnel's stream

    What a hub-tunnel transport promises: its frames survive the wire; what it does to the hub follows one
    order from its opening to its release; and what the far end reads is what this end wrote, from the
    start and in order, whatever the hub redelivers. *)

From S2P Require Import HubProtocol Json ControllerLog GroupFold Prelude Tunnel.

(** ** The codec *)

Lemma get_object key fields : get key (JObj fields) = jm_get key fields.
Proof. done. Qed.

Lemma frameObject_valid f :
  (∀ s n c body, f = MessageFrame s n c body -> enkakuMessageSchema body = true) -> validateHubFrame (frameObject f) = Some f.
Proof.
  intros Hb. destruct f as [s n c body|s n c reason].
  - pose proof (Hb _ _ _ _ eq_refl) as Hbody. unfold validateHubFrame, messageFrameSchema.
    set (schema := enkakuMessageSchema) in *. clearbody schema. clear Hb. destruct c as [c|]; vm_compute; by rewrite Hbody.
  - by destruct c as [c|], reason as [r|].
Qed.

Lemma envelopeObject_valid e : validateTunnelEnvelope (envelopeObject e) = Some e.
Proof. by destruct e. Qed.

(** The two formats cannot be mistaken for one another. *)
Lemma envelope_no_frame e : validateHubFrame (envelopeObject e) = None.
Proof. by destruct e. Qed.

Lemma frame_no_envelope f : validateTunnelEnvelope (frameObject f) = None.
Proof. by destruct f as [s n [c|] b|s n [c|] [r|]]. Qed.

(** ** The order of a tunnel's calls *)

(** What the calls so far were. *)
Record Audit := mkAudit {
  settledOnce : bool;
  returned : bool;
  ended : bool;
  unsubscribedOnce : bool;
  notified : bool;
}.

Definition fresh_audit : Audit := mkAudit false false false false false.

(** Whether a call may be made after them. *)
Definition allowed (a : Audit) (e : TunnelEffect) : bool :=
  match e with
  | HubSubscribe _ | HubReceive _ => false
  | HubPublish _ (MessageFrame _ _ _ _) => settledOnce a && negb (returned a)
  | HubPublish _ (SessionEnd _ _ _ _) => returned a && negb (ended a) && negb (notified a)
  | HubUnsubscribe _ => settledOnce a && returned a && negb (unsubscribedOnce a)
  | IteratorReturn => negb (returned a)
  | AckUpstream _ | Enqueue _ => negb (returned a)
  | OnSessionEnd => returned a && negb (ended a) && negb (notified a)
  | Dropped _ => negb (returned a)
  | WriteResolves | WriteRejects _ => true
  end.

Definition audited (a : Audit) (e : TunnelEffect) : Audit :=
  match e with
  | HubPublish _ (SessionEnd _ _ _ _) => mkAudit (settledOnce a) (returned a) true (unsubscribedOnce a) (notified a)
  | HubUnsubscribe _ => mkAudit (settledOnce a) (returned a) (ended a) true (notified a)
  | IteratorReturn => mkAudit (settledOnce a) true (ended a) (unsubscribedOnce a) (notified a)
  | OnSessionEnd => mkAudit (settledOnce a) (returned a) (ended a) (unsubscribedOnce a) true
  | _ => a
  end.

Definition audit_event (a : Audit) (e : TunnelEvent) : Audit :=
  match e with
  | SubscribeSettled => mkAudit true (returned a) (ended a) (unsubscribedOnce a) (notified a)
  | _ => a
  end.

Fixpoint audit_effects (a : Audit) (out : list TunnelEffect) : option Audit :=
  match out with
  | [] => Some a
  | e :: out' => if allowed a e then audit_effects (audited a e) out' else None
  end.

Definition audit_step (a : option Audit) (eo : TunnelEvent * list TunnelEffect) : option Audit :=
  match a with Some a => audit_effects (audit_event a eo.1) eo.2 | None => None end.

(** [None] when a call was out of order. *)
Definition audit (a : Audit) (tr : TunnelTrace) : option Audit := foldl audit_step (Some a) tr.

Lemma audit_app a out1 out2 : audit_effects a (out1 ++ out2) = audit_effects a out1 ≫= fun a1 => audit_effects a1 out2.
Proof. revert a. induction out1 as [|e out1 IH]; intros a; [done|]. cbn. by destruct (allowed a e). Qed.

Section audit.
Context (decode : bytes -> result TunnelError HubFrame).
Context (receiveTopicID sendTopicID : string) (inboxCapacity : nat) (idleTimeoutMs : option Z).
Abbreviation step := (tunnelStep decode receiveTopicID sendTopicID inboxCapacity idleTimeoutMs).

Record audit_ok (a : Audit) (t : Tunnel) : Prop := {
  ao_settled : settledOnce a = subscribed t;
  ao_returned : returned a = torndown t;
  ao_ended : ended a = true \/ notified a = true -> returned a = true;
  ao_due : unsubscribedOnce a = torndown t && negb (unsubscribeDue t);
  ao_not_due : torndown t = false -> unsubscribeDue t = false;
  ao_released : torndown t = true ->
    idleTimer t = None ∧ reconnectTimer t = false ∧ statusListener t = false ∧ abortListener t = false;
  ao_writing v : writing t = Some (v, Publishing) -> subscribed t = true;
}.

(** What an act did keeps to the order. *)
Definition orderly (a : Audit) (r : Tunnel * list TunnelEffect) : Prop :=
  ∃ a', audit_effects a r.2 = Some a' ∧ audit_ok a' r.1.

Lemma orderly_pair a t out : orderly a (t, out) <-> ∃ a', audit_effects a out = Some a' ∧ audit_ok a' t.
Proof. done. Qed.

Lemma orderly_then a (act1 act2 : TunnelAct) t :
  orderly a (act1 t) -> (∀ a1 t1, audit_ok a1 t1 -> orderly a1 (act2 t1)) -> orderly a ((act1 ▷ act2) t).
Proof.
  unfold orderly, andThen. destruct (act1 t) as [t1 out1]. cbn. intros (a1 & H1 & Hok) H2.
  destruct (H2 a1 t1 Hok) as (a2 & H2' & Hok2). destruct (act2 t1) as [t2 out2]. cbn in *.
  exists a2. by rewrite audit_app, H1.
Qed.

(** Writing to fields the order does not depend on. *)
Lemma audit_ok_like a t t' :
  audit_ok a t -> subscribed t' = subscribed t -> torndown t' = torndown t -> unsubscribeDue t' = unsubscribeDue t ->
  (torndown t = true -> idleTimer t' = None ∧ reconnectTimer t' = false ∧ statusListener t' = false ∧ abortListener t' = false) ->
  (∀ v, writing t' = Some (v, Publishing) -> writing t = Some (v, Publishing) ∨ subscribed t = true) -> audit_ok a t'.
Proof.
  intros [] Hs Ht Hd Hr Hw. split; rewrite ?Hs, ?Ht, ?Hd; try done. intros v Hv. destruct (Hw v Hv); eauto.
Qed.

Lemma orderly_set a t t' :
  audit_ok a t -> subscribed t' = subscribed t -> torndown t' = torndown t -> unsubscribeDue t' = unsubscribeDue t ->
  (torndown t = true -> idleTimer t' = None ∧ reconnectTimer t' = false ∧ statusListener t' = false ∧ abortListener t' = false) ->
  (∀ v, writing t' = Some (v, Publishing) -> writing t = Some (v, Publishing) ∨ subscribed t = true) -> orderly a (t', []).
Proof. intros. exists a. split; [done|]. by eapply audit_ok_like. Qed.

Ltac same H := cbn; try exact (ao_released _ _ H); auto.
Ltac fields H := apply (orderly_set _ _ _ H); same H.

Lemma orderly_teardown a t error : audit_ok a t -> orderly a (teardown sendTopicID error t).
Proof.
  intros [Hs Hr He Hd Hn Hrel Hw]. unfold teardown, releaseResources. destruct (torndown t) eqn:Ht.
  - exists a. split; [done|]. by split; cbn; rewrite ?Ht.
  - destruct a as [sa ra ea ua na]. cbn in *. subst ra. destruct ea; [by specialize (He (or_introl eq_refl))|].
    destruct na; [by specialize (He (or_intror eq_refl))|]. subst ua.
    specialize (Hn eq_refl).
    unfold orderly, andThen, sendSessionEnd, emit. rewrite Ht. cbn.
    destruct (lockedSessionID t); cbn; unfold errorReadable, skip;
      (destruct error; cbn; [destruct (readable t); cbn|]); (eexists; split; [reflexivity|]); split; cbn; auto; intros [|]; done.
Qed.
(** A call that moves nothing in the order. *)
Lemma orderly_emit a e t : audit_ok a t -> allowed a e = true -> audited a e = a -> orderly a (emit e t).
Proof. intros H Ha He. exists a. cbn. by rewrite Ha, He. Qed.

Lemma orderly_skip a t : audit_ok a t -> orderly a (t, []).
Proof. by exists a. Qed.

Lemma allowed_open a t e :
  audit_ok a t -> torndown t = false ->
  match e with AckUpstream _ | Enqueue _ | Dropped _ => True | _ => False end -> allowed a e = true.
Proof. intros [] Ht He. destruct e; try done; cbn; by rewrite ao_returned0, Ht. Qed.

Lemma orderly_stop a t : audit_ok a t -> orderly a (stopPump t).
Proof. intros H. unfold stopPump. fields H. Qed.

Lemma orderly_drop_ack a t reason id :
  audit_ok a t -> torndown t = false -> orderly a ((emit (Dropped reason) ▷ emit (AckUpstream id)) t).
Proof.
  intros H Ht. pose proof (ao_returned _ _ H) as Hr. exists a. split; [|done]. cbn. by rewrite Hr, Ht.
Qed.

(** The far end's end of the session: no end of ours follows. *)
Lemma orderly_ended a t id :
  audit_ok a t -> torndown t = false ->
  orderly a ((emit (AckUpstream id) ▷ closeReadable ▷ releaseResources ▷ emit OnSessionEnd ▷ stopPump) t).
Proof.
  intros [Hs Hr He Hd Hn Hrel Hw] Ht. rewrite Ht in *. destruct a as [sa ra ea ua na]. cbn in *. subst ra ua.
  destruct ea; [by specialize (He (or_introl eq_refl))|].
  destruct na; [by specialize (He (or_intror eq_refl))|]. specialize (Hn eq_refl).
  unfold orderly, andThen, closeReadable, releaseResources, emit, stopPump. destruct (readable t); cbn; rewrite ?Ht; cbn;
    rewrite ?Ht; (eexists; split; [reflexivity|]); split; cbn; auto; intros [|]; done.
Qed.

Lemma orderly_release a t error :
  audit_ok a t -> torndown t = false ->
  orderly a ((releaseResources ▷ (match error with Some e => errorReadable e | None => closeReadable end) ▷ stopPump) t).
Proof.
  intros [Hs Hr He Hd Hn Hrel Hw] Ht. rewrite Ht in *. destruct a as [sa ra ea ua na]. cbn in *. subst ra ua.
  unfold orderly, andThen, closeReadable, errorReadable, releaseResources, emit, stopPump. rewrite Ht. cbn.
  destruct error; cbn; destruct (readable t); cbn; (eexists; split; [reflexivity|]); split; cbn; auto.
Qed.

Lemma orderly_enqueue a t seq now body id :
  audit_ok a t -> torndown t = false ->
  orderly a (((fun t => (set_session (lockedSessionID t) (seq + 1) (lastActivity t) t, [])) ▷ markActivity now ▷
          enqueue body ▷ emit (AckUpstream id)) t).
Proof.
  intros H Ht. pose proof (ao_returned _ _ H) as Hr. unfold orderly, andThen, markActivity, enqueue, emit. cbn.
  destruct (pendingReads t); cbn; rewrite Hr, Ht; cbn; (exists a; split; [done|]);
    (apply (audit_ok_like _ _ _ H); same H).
Qed.

Lemma orderly_sessionFrame a t message frame now :
  audit_ok a t -> torndown t = false -> orderly a (sessionFrame sendTopicID inboxCapacity message frame now t).
Proof.
  intros H Ht. unfold sessionFrame. destruct frame as [s seq c body|s seq c reason]; [|by apply orderly_ended].
  destruct (_ <? _)%Z; [by apply orderly_drop_ack|].
  destruct (_ <=? _)%nat; [|by apply orderly_enqueue].
  apply orderly_then; [by apply orderly_teardown|]. intros. by apply orderly_stop.
Qed.

Lemma orderly_message a t message now :
  audit_ok a t -> torndown t = false -> orderly a (handleMessage decode receiveTopicID sendTopicID inboxCapacity message now t).
Proof.
  intros H Ht. unfold handleMessage.
  assert (orderly a (emit (AckUpstream (sm_sequenceID message)) t)) as Hack
    by (apply orderly_emit; [done| |done]; by apply (allowed_open a t)).
  assert (∀ e, orderly a ((teardown sendTopicID e ▷ stopPump) t)) as Hdown
    by (intros e; apply orderly_then; [by apply orderly_teardown|]; intros; by apply orderly_stop).
  case_decide; [|by apply orderly_drop_ack].
  destruct (decode _) as [frame|[]]; try done; try apply Hdown.
  destruct (lockedSessionID t).
  - case_decide; [by apply orderly_sessionFrame|by apply orderly_drop_ack].
  - apply orderly_sessionFrame; [|done]. apply (audit_ok_like _ _ _ H); same H.
Qed.

Lemma orderly_next a t result now :
  audit_ok a t -> orderly a (next decode receiveTopicID sendTopicID inboxCapacity result now t).
Proof.
  intros H. unfold next. destruct result as [message| |error]; (destruct (torndown t) eqn:Ht; [by apply orderly_stop|]).
  - by apply orderly_message.
  - by apply (orderly_release a t None).
  - by apply (orderly_release a t (Some error)).
Qed.

Lemma orderly_reject a t error : audit_ok a t -> orderly a (rejectWrite error t).
Proof.
  intros H. exists a. split; [done|]. apply (audit_ok_like _ _ _ H); same H. done.
Qed.

Lemma orderly_writes a t value : audit_ok a t -> orderly a (writes value t).
Proof.
  intros H. unfold writes. destruct (torndown t) eqn:Ht; [by apply orderly_reject|].
  destruct (lockedSessionID t); [|by apply orderly_reject].
  apply (orderly_set _ _ _ H); cbn; try done; intros; congruence.
Qed.

Lemma orderly_resumes a t value : audit_ok a t -> subscribed t = true -> orderly a (writeResumes sendTopicID value t).
Proof.
  intros H Hs. unfold writeResumes. destruct (torndown t) eqn:Ht; [by apply orderly_reject|].
  destruct (lockedSessionID t); [|by apply orderly_skip].
  exists a. cbn. rewrite (ao_settled _ _ H), (ao_returned _ _ H), Hs, Ht. split; [done|].
  apply (audit_ok_like _ _ _ H); cbn; auto. congruence.
Qed.

Lemma orderly_timer a t now :
  audit_ok a t -> orderly a (idleFires sendTopicID idleTimeoutMs now t).
Proof.
  intros H. unfold idleFires. set (t1 := set_timers None (reconnectTimer t) t).
  assert (audit_ok a t1) as H1.
  { apply (audit_ok_like _ _ _ H); cbn; auto. intros Ht. by destruct (ao_released _ _ H Ht) as (_ & ?). }
  destruct (torndown t1) eqn:Ht; [by apply orderly_skip|]. destruct idleTimeoutMs as [timeout|] eqn:Hidle; [|by apply orderly_skip].
  destruct (_ <=? _)%Z; [by apply orderly_teardown|]. unfold scheduleIdleTimer. rewrite Ht.
  apply (orderly_set _ _ _ H1); cbn; auto. intros. cbn in Ht. congruence.
Qed.

(** *** The machine *)

Lemma step_orderly a t e t' out :
  audit_ok a t -> step e t = Some (t', out) -> ∃ a', audit_step (Some a) (e, out) = Some a' ∧ audit_ok a' t'.
Proof.
  intros H Hs.
  assert (∀ r, audit_event a e = a -> r = (t', out) -> orderly a r -> ∃ a', audit_step (Some a) (e, out) = Some a' ∧ audit_ok a' t') as Hgo.
  { intros r He -> (a' & Ha & Hok). exists a'. cbn [audit_step fst snd]. by rewrite He. }
  destruct e; cbv beta iota zeta delta [tunnelStep] in Hs.
  - destruct (subscribed t) eqn:Hsub; [done|]. injection Hs as <- <-. eexists. split; [done|]. destruct H. cbn.
    by split; cbn; auto.
  - destruct (subscribed t) eqn:Hsub; [|done]. destruct (unsubscribeDue t) eqn:Hdue; [|done]. injection Hs as <- <-.
    destruct H as [Hst Hr He Hd Hn Hrel Hw]. rewrite Hdue in *.
    destruct (torndown t) eqn:Ht; [|by specialize (Hn eq_refl)]. cbn in *. rewrite Hst, Hsub, Hr, Hd. cbn.
    eexists. split; [done|]. by split; cbn; rewrite ?Ht; auto.
  - destruct (pumping t); [|done]. eapply Hgo; [done|by apply (inj Some)|]. by apply orderly_next.
  - destruct (statusListener t) eqn:Hl; [|done]. eapply Hgo; [done|by apply (inj Some)|]. unfold statusChanged.
    destruct (torndown t) eqn:Ht; [by apply orderly_skip|]. destruct status; apply (orderly_set _ _ _ H); cbn; auto; congruence.
  - eapply Hgo; [done|by apply (inj Some)|]. destruct (readable t), (queued t); fields H.
  - destruct (readable t) eqn:Hr; try done. eapply Hgo; [done|by apply (inj Some)|].
    apply orderly_teardown. apply (audit_ok_like _ _ _ H); same H.
  - destruct (writing t) eqn:Hw; [done|]. destruct (writable t); [|done]. eapply Hgo; [done|by apply (inj Some)|].
    by apply orderly_writes.
  - destruct (writing t) as [[v []]|] eqn:Hw; try done. destruct (subscribed t) eqn:Hsub; [|done].
    eapply Hgo; [done|by apply (inj Some)|]. by apply orderly_resumes.
  - destruct (writing t) as [[v []]|] eqn:Hw; try done. eapply Hgo; [done|by apply (inj Some)|].
    unfold published. destruct error; [by apply orderly_reject|].
    exists a. split; [done|]. apply (audit_ok_like _ _ _ H); same H. done.
  - destruct (writing t) eqn:Hw; [done|]. destruct (writable t); [|done]. eapply Hgo; [done|by apply (inj Some)|].
    apply orderly_teardown. apply (audit_ok_like _ _ _ H); same H. done.
  - destruct (writing t) eqn:Hw; [done|]. destruct (writable t); [|done]. eapply Hgo; [done|by apply (inj Some)|].
    apply orderly_teardown. apply (audit_ok_like _ _ _ H); same H. done.
  - destruct (idleTimer t) as [deadline|]; [|done]. destruct (_ <=? _)%Z; [|done].
    eapply Hgo; [done|by apply (inj Some)|]. by apply orderly_timer.
  - destruct (reconnectTimer t) eqn:Hr; [|done]. eapply Hgo; [done|by apply (inj Some)|]. unfold reconnectFires.
    assert (audit_ok a (set_timers (idleTimer t) false t)) as H1.
    { apply (audit_ok_like _ _ _ H); cbn; auto. intros Ht. destruct (ao_released _ _ H Ht) as (? & ? & ?). done. }
    destruct (torndown _); [by apply orderly_skip|by apply orderly_teardown].
  - destruct (abortListener t); [|done]. eapply Hgo; [done|by apply (inj Some)|]. by apply orderly_teardown.
  - eapply Hgo; [done|by apply (inj Some)|]. by apply orderly_teardown.
Qed.
End audit.

(** ** What is sent and what arrives *)

Definition published_message (e : TunnelEffect) : option (Z * json) :=
  match e with HubPublish _ (MessageFrame _ seq _ body) => Some (seq, body) | _ => None end.
Definition enqueued (e : TunnelEffect) : option json := match e with Enqueue body => Some body | _ => None end.

Definition effects (tr : TunnelTrace) : list TunnelEffect := concat (map snd tr).

(** The frames a transport published, what its reader was given, what its writer was handed. *)
Definition sent (tr : TunnelTrace) : list (Z * json) := omap published_message (effects tr).
Definition delivered (tr : TunnelTrace) : list json := omap enqueued (effects tr).
Definition written (tr : TunnelTrace) : list json :=
  omap (fun eo : TunnelEvent * list TunnelEffect => match eo.1 with Writes value => Some value | _ => None end) tr.

(** The message frames of a session that reach the transport. *)
Definition arrival (decode : bytes -> result TunnelError HubFrame) (receiveTopicID s : string) (e : TunnelEvent) :
    option (Z * json) :=
  match e with
  | Next (NextValue message) _ =>
    if decide (sm_topicID message = receiveTopicID) then
      match decode (sm_payload message) with
      | Ok (MessageFrame s' seq _ body) => if decide (s' = s) then Some (seq, body) else None
      | _ => None
      end
    else None
  | _ => None
  end.

Definition arrivals decode receiveTopicID s (tr : TunnelTrace) : list (Z * json) :=
  omap (fun eo : TunnelEvent * list TunnelEffect => arrival decode receiveTopicID s eo.1) tr.

(** They come from a log of frames, each first after its predecessor; any may come again at any time. *)
Definition redelivers (log arrived : list (Z * json)) : Prop :=
  ∀ before x after, arrived = before ++ x :: after ->
    x ∈ log ∧ ((0 < x.1)%Z -> ∃ y, y ∈ before ∧ y.1 = (x.1 - 1)%Z).

Lemma effects_snoc tr e out : effects (tr ++ [(e, out)]) = effects tr ++ out.
Proof. unfold effects. rewrite map_app, concat_app. cbn. by rewrite app_nil_r. Qed.

Lemma sent_snoc tr e out : sent (tr ++ [(e, out)]) = sent tr ++ omap published_message out.
Proof. unfold sent. by rewrite effects_snoc, omap_app. Qed.

Lemma delivered_snoc tr e out : delivered (tr ++ [(e, out)]) = delivered tr ++ omap enqueued out.
Proof. unfold delivered. by rewrite effects_snoc, omap_app. Qed.

(** What the dedup lets through, and where it then stands. *)
Fixpoint accept (expected : Z) (l : list (Z * json)) : list json * Z :=
  match l with
  | [] => ([], expected)
  | (n, body) :: l' =>
    if (n <? expected)%Z then accept expected l'
    else let '(bodies, e) := accept (n + 1) l' in (body :: bodies, e)
  end.

Lemma accept_snoc expected l n body :
  accept expected (l ++ [(n, body)]) =
  let '(bodies, e) := accept expected l in
  if (n <? e)%Z then (bodies, e) else (bodies ++ [body], (n + 1)%Z).
Proof.
  revert expected. induction l as [|[m b] l IH]; intros expected; cbn; [by destruct (n <? expected)%Z|].
  destruct (m <? expected)%Z; [apply IH|]. rewrite IH. destruct (accept (m + 1) l) as [bodies e]. by destruct (n <? e)%Z.
Qed.

(** Frames numbered from 0. *)
Definition numbered_log (log : list (Z * json)) : Prop := ∀ i x, log !! i = Some x -> x.1 = Z.of_nat i.

Lemma accept_redelivered log arrived :
  numbered_log log -> redelivers log arrived ->
  ∃ k, k <= length log ∧ accept 0 arrived = (map snd (take k log), Z.of_nat k) ∧ (∀ y, y ∈ arrived -> (y.1 < Z.of_nat k)%Z).
Proof.
  intros Hlog. induction arrived as [|[n body] arrived IH] using rev_ind; intros Hr.
  - exists 0. split; [lia|]. split; [done|]. by intros y ?%elem_of_nil.
  - destruct IH as (k & Hk & Ha & Hlt).
    { intros before x after Heq. apply (Hr before x (after ++ [(n, body)])). by rewrite Heq, <- app_assoc. }
    destruct (Hr arrived (n, body) []) as [Hin Hpred]; [done|]. cbn in Hpred.
    apply list_elem_of_lookup in Hin as [i Hi]. pose proof (Hlog i _ Hi) as Hn. cbn in Hn. subst n.
    assert (i <= k)%nat as Hik.
    { destruct (decide (i = 0)%nat) as [->|Hne]; [lia|]. destruct Hpred as (y & Hy & Hy'); [lia|].
      specialize (Hlt y Hy). lia. }
    rewrite accept_snoc, Ha. destruct (Z.ltb_spec (Z.of_nat i) (Z.of_nat k)) as [Hlt'|Hge].
    + exists k. split; [done|]. split; [done|]. intros y [Hy| ->%list_elem_of_singleton]%elem_of_app; [auto|done].
    + assert (i = k) as -> by lia. exists (S k). apply lookup_lt_Some in Hi as Hlen. split; [lia|].
      split; [|intros y [Hy| ->%list_elem_of_singleton]%elem_of_app; [apply Hlt in Hy; lia|cbn; lia]].
      rewrite (take_S_r _ _ _ Hi), map_app. cbn. f_equal. lia.
Qed.

Section stream.
Context (decode : bytes -> result TunnelError HubFrame).
Context (receiveTopicID sendTopicID : string) (inboxCapacity : nat) (idleTimeoutMs : option Z).
Abbreviation step := (tunnelStep decode receiveTopicID sendTopicID inboxCapacity idleTimeoutMs).
Abbreviation arrival := (arrival decode receiveTopicID).
Abbreviation arrivals := (arrivals decode receiveTopicID).

(** What an act did that neither sends nor delivers. *)
Record aloof (t : Tunnel) (r : Tunnel * list TunnelEffect) : Prop := {
  al_sent : omap published_message r.2 = [];
  al_delivered : omap enqueued r.2 = [];
  al_outbound : outboundSeq r.1 = outboundSeq t;
  al_writing : writing r.1 = writing t;
  al_locked : lockedSessionID r.1 = lockedSessionID t;
  al_expected : expectedSeq r.1 = expectedSeq t;
  al_down : torndown t = true -> torndown r.1 = true;
}.

Lemma aloof_then (act1 act2 : TunnelAct) t : aloof t (act1 t) -> (∀ t1, aloof t1 (act2 t1)) -> aloof t ((act1 ▷ act2) t).
Proof.
  unfold andThen. intros [] H2. destruct (act1 t) as [t1 out1]. destruct (H2 t1) as []. destruct (act2 t1) as [t2 out2].
  cbn in *. split; cbn; rewrite ?omap_app; try congruence; [by rewrite al_sent0, al_sent1|by rewrite al_delivered0, al_delivered1|auto].
Qed.

Lemma aloof_skip t : aloof t (t, []).
Proof. by split. Qed.

Lemma aloof_emit e t : published_message e = None -> enqueued e = None -> aloof t (emit e t).
Proof. intros Hp He. split; cbn; rewrite ?Hp, ?He; done. Qed.

Lemma aloof_release t : aloof t (releaseResources t).
Proof. unfold releaseResources. destruct (torndown t) eqn:Ht; [by split|by split]. Qed.

Lemma aloof_close t : aloof t (closeReadable t).
Proof. unfold closeReadable. by destruct (readable t). Qed.

Lemma aloof_error e t : aloof t (errorReadable e t).
Proof. unfold errorReadable. by destruct (readable t). Qed.

Lemma aloof_end t : aloof t (sendSessionEnd sendTopicID t).
Proof. unfold sendSessionEnd. destruct (lockedSessionID t) eqn:Hl; [by apply aloof_emit|by split]. Qed.

Lemma aloof_stop t : aloof t (stopPump t).
Proof. by split. Qed.

Hint Resolve aloof_skip aloof_release aloof_close aloof_error aloof_end aloof_stop : tunnel.
Ltac aloof := repeat (apply aloof_then; intros); auto with tunnel; try (by apply aloof_emit).

Lemma aloof_teardown error t : aloof t (teardown sendTopicID error t).
Proof. unfold teardown. destruct (torndown t); [apply aloof_skip|]. aloof. destruct error; auto with tunnel. Qed.

Lemma teardown_down error t : torndown (teardown sendTopicID error t).1 = true.
Proof.
  unfold teardown, releaseResources. destruct (torndown t) eqn:Ht; [done|]. unfold andThen, emit, sendSessionEnd. rewrite Ht. cbn.
  destruct (lockedSessionID t); cbn; destruct error; unfold errorReadable; cbn; by destruct (readable t).
Qed.

Lemma teardown_stop_down error t : torndown ((teardown sendTopicID error ▷ stopPump) t).1 = true.
Proof.
  unfold andThen. pose proof (teardown_down error t) as Hd. destruct (teardown sendTopicID error t) as [t1 out1]. done.
Qed.

(** A step delivers at most the frame that arrived, and then moves past it. *)
Definition delivers (t : Tunnel) (arrived : option (Z * json)) (r : Tunnel * list TunnelEffect) : Prop :=
  match arrived with
  | Some (seq, body) =>
    ((seq < expectedSeq t)%Z ∧ aloof t r) ∨ (torndown r.1 = true ∧ aloof t r) ∨
    ((expectedSeq t <= seq)%Z ∧ omap published_message r.2 = [] ∧ omap enqueued r.2 = [body] ∧
     outboundSeq r.1 = outboundSeq t ∧ writing r.1 = writing t ∧ lockedSessionID r.1 = lockedSessionID t ∧
     expectedSeq r.1 = (seq + 1)%Z ∧ torndown r.1 = torndown t)
  | None => aloof t r
  end.

Lemma aloof_teardown_stop error t : aloof t ((teardown sendTopicID error ▷ stopPump) t).
Proof. apply aloof_then; [apply aloof_teardown|apply aloof_stop]. Qed.

Lemma sessionFrame_delivers message frame now t :
  delivers t (match frame with MessageFrame _ seq _ body => Some (seq, body) | _ => None end)
    (sessionFrame sendTopicID inboxCapacity message frame now t).
Proof.
  unfold sessionFrame. destruct frame as [s seq c body|s seq c reason]; cbn [delivers]; [|aloof].
  destruct (Z.ltb_spec seq (expectedSeq t)) as [Hlt|Hge].
  - left. split; [done|]. aloof.
  - right. destruct (_ <=? _)%nat.
    + left. split; [apply teardown_stop_down|apply aloof_teardown_stop].
    + right. unfold andThen, markActivity, enqueue, emit. cbn. destruct (pendingReads t); cbn; done.
Qed.

(** A session locks to the first frame that decodes. *)
Lemma handleMessage_delivers message now t :
  let e := Next (NextValue message) now in
  let r := handleMessage decode receiveTopicID sendTopicID inboxCapacity message now t in
  (∃ s, (lockedSessionID t = Some s ∨ lockedSessionID t = None) ∧ lockedSessionID r.1 = Some s ∧
     delivers (set_session (Some s) (expectedSeq t) (lastActivity t) t) (arrival s e) r) ∨
  (lockedSessionID t = None ∧ aloof t r ∧ ∀ s, arrival s e = None).
Proof.
  intros e r. subst r. unfold handleMessage.
  assert (∀ act : TunnelAct, aloof t (act t) -> (∀ s, arrival s e = None) ->
    (∃ s, (lockedSessionID t = Some s ∨ lockedSessionID t = None) ∧ lockedSessionID (act t).1 = Some s ∧
       delivers (set_session (Some s) (expectedSeq t) (lastActivity t) t) (arrival s e) (act t)) ∨
    (lockedSessionID t = None ∧ aloof t (act t) ∧ ∀ s, arrival s e = None)) as Hnone.
  { intros act Hal Harr. destruct (lockedSessionID t) as [s|] eqn:Hl; [left|by right].
    exists s. split; [by left|]. split; [by rewrite (al_locked _ _ Hal)|]. rewrite Harr. destruct Hal. split; cbn; first [congruence|auto]. }
  unfold e in *. cbn [TunnelSpec.arrival] in *.
  destruct (decide (sm_topicID message = receiveTopicID)); [|apply (Hnone _); [aloof|done]].
  destruct (decode (sm_payload message)) as [frame|[]];
    try (apply (Hnone _); [first [apply aloof_teardown_stop|by apply aloof_emit]|done]).
  assert (∀ s act, lockedSessionID t = Some s ∨ lockedSessionID t = None -> frame_session frame = s ->
    act = sessionFrame sendTopicID inboxCapacity message frame now (set_session (Some s) (expectedSeq t) (lastActivity t) t) ->
    lockedSessionID act.1 = Some s ∧
    delivers (set_session (Some s) (expectedSeq t) (lastActivity t) t)
      (match frame with MessageFrame s' seq _ body => if decide (s' = s) then Some (seq, body) else None | _ => None end) act) as Hs.
  { intros s act Hl Hf ->. pose proof (sessionFrame_delivers message frame now (set_session (Some s) (expectedSeq t) (lastActivity t) t)) as Hd.
    destruct frame as [s' seq c body|s' seq c reason]; cbn in Hf; subst s'.
    - rewrite decide_True by done. split; [|exact Hd]. destruct Hd as [[_ Ha]|[[_ Ha]|(_ & _ & _ & _ & _ & -> & _)]]; [exact (al_locked _ _ Ha)..|done].
    - split; [exact (al_locked _ _ Hd)|exact Hd]. }
  destruct (lockedSessionID t) as [s|] eqn:Hl.
  - destruct (decide (frame_session frame = s)) as [Hf|Hf].
    + left. exists s. split; [by left|]. apply Hs; [by left|done|]. f_equal. destruct t. cbn in Hl. by subst.
    + left. exists s. split; [by left|]. match goal with |- lockedSessionID (?act t).1 = _ ∧ _ => set (a := act) end.
      assert (aloof t (a t)) as Ha by (unfold a; aloof). split; [by rewrite (al_locked _ _ Ha)|].
      destruct frame as [s' seq c body|s' seq c reason]; cbn in Hf; [rewrite decide_False by done|];
        (destruct Ha; split; cbn; first [congruence|auto]).
  - left. exists (frame_session frame). split; [by right|]. by apply Hs; [right|..].
Qed.
(** A message is acknowledged once, or the transport is torn down and it is not. *)
Lemma handleMessage_acks message now t :
  torndown t = false ->
  let r := handleMessage decode receiveTopicID sendTopicID inboxCapacity message now t in
  let acks := omap (fun e => match e with AckUpstream s => Some s | _ => None end) r.2 in
  acks = [sm_sequenceID message] ∨ (torndown r.1 = true ∧ acks = []).
Proof.
  intros Ht r. subst r.
  assert (∀ error t, omap (fun e => match e with AckUpstream s => Some s | _ => None end)
    ((teardown sendTopicID error ▷ stopPump) t).2 = []) as Hdown.
  { intros error t1. unfold teardown, releaseResources, andThen, emit, sendSessionEnd, stopPump.
    destruct (torndown t1) eqn:Ht1; [done|]. cbn.
    destruct (lockedSessionID t1); cbn; destruct error; unfold errorReadable; cbn; by destruct (readable t1). }
  assert (∀ frame t1, torndown t1 = false ->
    let r := sessionFrame sendTopicID inboxCapacity message frame now t1 in
    let acks := omap (fun e => match e with AckUpstream s => Some s | _ => None end) r.2 in
    acks = [sm_sequenceID message] ∨ (torndown r.1 = true ∧ acks = [])) as Hframe.
  { intros frame t1 Ht1. unfold sessionFrame. destruct frame as [s seq c body|s seq c reason].
    - destruct (_ <? _)%Z; [by left|]. destruct (_ <=? _)%nat; [right; split; [apply teardown_stop_down|apply Hdown]|left].
      unfold andThen, markActivity, enqueue, emit. cbn. by destruct (pendingReads t1).
    - left. unfold andThen, closeReadable, releaseResources, emit, stopPump. cbn.
      destruct (readable t1); cbn; by rewrite Ht1. }
  unfold handleMessage. case_decide; [|by left].
  destruct (decode _) as [frame|[]]; try (right; split; [apply teardown_stop_down|apply Hdown]); [|by left].
  destruct (lockedSessionID t); [case_decide; [by apply Hframe|by left]|by apply Hframe].
Qed.

(** *** The receiving side *)

Definition received (tr : TunnelTrace) (t : Tunnel) : Prop :=
  match lockedSessionID t with
  | Some s => ∃ l1 l2, arrivals s tr = l1 ++ l2 ∧ accept 0 l1 = (delivered tr, expectedSeq t) ∧ (torndown t = false -> l2 = [])
  | None => delivered tr = [] ∧ expectedSeq t = 0%Z ∧ (torndown t = false -> ∀ s, arrivals s tr = [])
  end.

Lemma arrivals_snoc s tr e out :
  arrivals s (tr ++ [(e, out)]) = arrivals s tr ++ match arrival s e with Some x => [x] | None => [] end.
Proof. unfold TunnelSpec.arrivals. rewrite omap_app. cbn. by destruct (arrival s e). Qed.

Lemma received_aloof tr t e r :
  received tr t -> aloof t r -> (∀ s, arrival s e = None) ∨ torndown r.1 = true ->
  received (tr ++ [(e, r.2)]) r.1.
Proof.
  intros Hr [] Hna. unfold received in *. rewrite al_locked0, al_expected0, delivered_snoc, al_delivered0, app_nil_r.
  assert (torndown r.1 = false -> torndown t = false) as Hdown.
  { intros Hd. destruct (torndown t); [|done]. by rewrite al_down0 in Hd. }
  destruct (lockedSessionID t) as [s|].
  - destruct Hr as (l1 & l2 & Harr & Hacc & Hl2). eexists l1, _. rewrite arrivals_snoc, Harr, <- app_assoc.
    split; [done|]. split; [done|]. intros Hd. destruct Hna as [Hna|]; [|congruence]. by rewrite Hna, Hl2, app_nil_r; auto.
  - destruct Hr as (Hd & He & Ha). split; [done|]. split; [done|]. intros Hd' s. destruct Hna as [Hna|]; [|congruence].
    rewrite arrivals_snoc, Hna, Ha; auto.
Qed.

Lemma received_delivers tr t e r s :
  received tr t -> torndown t = false -> lockedSessionID t = Some s ∨ lockedSessionID t = None ->
  lockedSessionID r.1 = Some s -> delivers (set_session (Some s) (expectedSeq t) (lastActivity t) t) (arrival s e) r ->
  received (tr ++ [(e, r.2)]) r.1.
Proof.
  intros Hr Ht Hl Hl' Hd.
  assert (accept 0 (arrivals s tr) = (delivered tr, expectedSeq t)) as Hacc.
  { unfold received in Hr. destruct Hl as [Hl|Hl]; rewrite Hl in Hr.
    - destruct Hr as (l1 & l2 & -> & Hacc & Hl2). by rewrite Hl2, app_nil_r.
    - destruct Hr as (-> & -> & Ha). by rewrite Ha. }
  unfold received. rewrite Hl', delivered_snoc, arrivals_snoc.
  destruct (arrival s e) as [[seq body]|]; cbn [delivers] in Hd.
  - destruct Hd as [[Hlt Ha]|[[Hdown Ha]|(Hge & _ & -> & _ & _ & _ & -> & _)]].
    + exists (arrivals s tr ++ [(seq, body)]), []. split; [by rewrite app_nil_r|]. split; [|done].
      rewrite (al_delivered _ _ Ha), (al_expected _ _ Ha), accept_snoc, Hacc, app_nil_r. cbn in Hlt.
      by rewrite (proj2 (Z.ltb_lt _ _) Hlt).
    + exists (arrivals s tr), [(seq, body)]. split; [done|]. split; [|congruence].
      by rewrite (al_delivered _ _ Ha), (al_expected _ _ Ha), Hacc, app_nil_r.
    + exists (arrivals s tr ++ [(seq, body)]), []. split; [by rewrite app_nil_r|]. split; [|done].
      cbn in Hge. by rewrite accept_snoc, Hacc, (proj2 (Z.ltb_ge _ _) Hge).
  - exists (arrivals s tr), []. split; [done|]. split; [|done].
    by rewrite (al_delivered _ _ Hd), (al_expected _ _ Hd), Hacc, app_nil_r.
Qed.

(** *** The sending side *)

Definition waiting (t : Tunnel) : list json :=
  match writing t with Some (v, AwaitSubscribed) => [v] | _ => [] end.

Record sends (tr : TunnelTrace) (t : Tunnel) : Prop := {
  sd_next : outboundSeq t = Z.of_nat (length (sent tr));
  sd_numbered : numbered_log (sent tr);
  sd_written : sublist (map snd (sent tr) ++ waiting t) (written tr);
}.

Lemma sends_quiet tr t e r :
  sends tr t -> omap published_message r.2 = [] -> outboundSeq r.1 = outboundSeq t ->
  writing r.1 = writing t ∨ waiting r.1 = [] -> sends (tr ++ [(e, r.2)]) r.1.
Proof.
  intros [Hn Hlog Hw] Hp Ho Hwr. split; rewrite ?sent_snoc, ?Hp, ?app_nil_r; [congruence|done|].
  assert (sublist (map snd (sent tr) ++ waiting r.1) (written tr)) as Hs.
  { destruct Hwr as [Hwr|Hwr]; [unfold waiting; by rewrite Hwr|]. rewrite Hwr, app_nil_r. etrans; [|done].
    by apply sublist_inserts_r. }
  unfold written. rewrite omap_app. by apply sublist_inserts_r.
Qed.

Lemma sends_aloof tr t e r : sends tr t -> aloof t r -> sends (tr ++ [(e, r.2)]) r.1.
Proof. intros H []. apply (sends_quiet tr t); auto. Qed.

Lemma sends_writes tr t value :
  writing t = None -> sends tr t -> let r := writes value t in sends (tr ++ [(Writes value, r.2)]) r.1.
Proof.
  intros Hw H. assert (∀ e, sends (tr ++ [(Writes value, (rejectWrite e t).2)]) (rejectWrite e t).1) as Hrej
    by (intros e; apply (sends_quiet tr t); auto; by right).
  unfold writes. destruct (torndown t); [apply Hrej|]. destruct (lockedSessionID t); [|apply Hrej].
  destruct H as [Hn Hlog Hsub]. split; rewrite ?sent_snoc; cbn; rewrite ?app_nil_r; [done..|].
  unfold waiting in *. rewrite Hw, app_nil_r in Hsub. unfold written. rewrite omap_app. cbn. by apply sublist_app.
Qed.

Lemma sends_resumes tr t value :
  writing t = Some (value, AwaitSubscribed) -> sends tr t ->
  let r := writeResumes sendTopicID value t in sends (tr ++ [(WriteResumes, r.2)]) r.1.
Proof.
  intros Hw H. unfold writeResumes. destruct (torndown t); [apply (sends_quiet tr t); auto; by right|].
  destruct (lockedSessionID t); [|apply (sends_quiet tr t); auto].
  destruct H as [Hn Hlog Hsub]. cbn zeta. split; rewrite ?sent_snoc; cbn.
  - rewrite length_app, Hn. cbn. lia.
  - intros i x [Hx|[Hlen [Hz <-]%list_lookup_singleton_Some]]%lookup_app_Some; [by apply Hlog|]. cbn. lia.
  - unfold waiting in Hsub. rewrite Hw in Hsub. unfold written. rewrite map_app, omap_app. cbn. rewrite !app_nil_r. done.
Qed.
(** *** Both, in any run *)

Lemma step_streams tr t e t' out :
  sends tr t -> received tr t -> step e t = Some (t', out) ->
  sends (tr ++ [(e, out)]) t' ∧ received (tr ++ [(e, out)]) t'.
Proof.
  intros Hsend Hrecv Hs.
  assert (∀ r, r = (t', out) -> aloof t r -> (∀ s, arrival s e = None) ∨ torndown r.1 = true ->
    sends (tr ++ [(e, out)]) t' ∧ received (tr ++ [(e, out)]) t') as Haloof.
  { intros r -> Ha Hna. split; [by apply (sends_aloof tr t e (t', out))|by apply (received_aloof tr t e (t', out))]. }
  assert (∀ r, r = (t', out) -> (∀ s, arrival s e = None) -> omap enqueued r.2 = [] -> lockedSessionID r.1 = lockedSessionID t ->
    expectedSeq r.1 = expectedSeq t -> torndown r.1 = torndown t -> received (tr ++ [(e, out)]) t') as Hkeep.
  { intros r -> Harr Hen Hl He Hd. unfold received in *. cbn in *. rewrite Hl, He, Hd, delivered_snoc, Hen, app_nil_r.
    destruct (lockedSessionID t).
    - destruct Hrecv as (l1 & l2 & Ha & ?). exists l1, l2. by rewrite arrivals_snoc, Harr, app_nil_r.
    - destruct Hrecv as (? & ? & Ha). split_and!; [done..|]. intros Ht s. by rewrite arrivals_snoc, Harr, app_nil_r, Ha. }
  destruct e; cbv beta iota zeta delta [tunnelStep] in Hs.
  - destruct (subscribed t); [done|]. eapply Haloof; [by apply (inj Some)|by split|by left].
  - destruct (_ && _); [|done]. eapply Haloof; [by apply (inj Some)|by split|by left].
  - destruct (pumping t); [|done]. apply (inj Some) in Hs. unfold next in Hs. destruct result as [message| |error].
    + destruct (torndown t) eqn:Ht; [eapply Haloof; [exact Hs|apply aloof_stop|by right]|].
      pose proof (handleMessage_delivers message now t) as Hm. rewrite Hs in Hm.
      destruct Hm as [(s & Hl & Hl' & Hd)|(Hl & Ha & Hna)].
      * split; [|by apply (received_delivers tr t _ (t', out) s)].
        destruct (arrival s (Next (NextValue message) now)) as [[seq body]|]; cbn in Hd.
        -- destruct Hd as [[_ []]|[[_ []]|(_ & Hp & _ & Ho & Hw & _)]];
             by apply (sends_quiet tr t _ (t', out)); auto.
        -- destruct Hd as []. by apply (sends_quiet tr t _ (t', out)); auto.
      * apply (Haloof (t', out)); [done|exact Ha|by left].
    + destruct (torndown t); (eapply Haloof; [exact Hs| |by left]); [apply aloof_stop|aloof].
    + destruct (torndown t); (eapply Haloof; [exact Hs| |by left]); [apply aloof_stop|aloof].
  - destruct (statusListener t); [|done]. eapply Haloof; [by apply (inj Some)| |by left].
    unfold statusChanged. destruct (torndown t) eqn:Ht; [apply aloof_skip|]. destruct status; split; cbn; congruence.
  - eapply Haloof; [by apply (inj Some)| |by left]. by destruct (readable t), (queued t).
  - destruct (readable t); try done. eapply Haloof; [by apply (inj Some)| |by left].
    destruct (aloof_teardown None (set_readable Closed 0 0 t)). by split.
  - destruct (writing t) eqn:Hw; [done|]. destruct (writable t); [|done]. apply (inj Some) in Hs. split.
    + pose proof (sends_writes tr t value Hw Hsend) as Hk. by rewrite Hs in Hk.
    + apply (Hkeep (writes value t)); [done..| | | |]; unfold writes, rejectWrite;
        destruct (torndown t) eqn:Ht; try done; by destruct (lockedSessionID t) eqn:Hl.
  - destruct (writing t) as [[v []]|] eqn:Hw; try done. destruct (subscribed t); [|done]. apply (inj Some) in Hs. split.
    + pose proof (sends_resumes tr t v Hw Hsend) as Hk. by rewrite Hs in Hk.
    + apply (Hkeep (writeResumes sendTopicID v t)); [done..| | | |]; unfold writeResumes, rejectWrite;
        destruct (torndown t) eqn:Ht; try done; by destruct (lockedSessionID t) eqn:Hl.
  - destruct (writing t) as [[v []]|] eqn:Hw; try done. apply (inj Some) in Hs. unfold published in Hs. split.
    + destruct error; injection Hs as <- <-; (eapply (sends_quiet tr t _ (_, _)); [done..|by right]).
    + destruct error; by eapply Hkeep.
  - destruct (writing t) eqn:Hw; [done|]. destruct (writable t); [|done]. eapply Haloof; [by apply (inj Some)| |by left].
    destruct (aloof_teardown None (set_outbound (outboundSeq t) (lastActivity t) false None t)). split; try done. by rewrite Hw.
  - destruct (writing t) eqn:Hw; [done|]. destruct (writable t); [|done]. eapply Haloof; [by apply (inj Some)| |by left].
    destruct (aloof_teardown None (set_outbound (outboundSeq t) (lastActivity t) false None t)). split; try done. by rewrite Hw.
  - destruct (idleTimer t); [|done]. destruct (_ <=? _)%Z; [|done]. eapply Haloof; [by apply (inj Some)| |by left].
    unfold idleFires. cbn zeta. set (t1 := set_timers None (reconnectTimer t) t).
    assert (∀ r, aloof t1 r -> aloof t r) as Hfrom by (intros r []; by split).
    apply Hfrom. destruct (torndown t1) eqn:Ht; [apply aloof_skip|]. destruct idleTimeoutMs; [|apply aloof_skip].
    destruct (_ <=? _)%Z; [apply aloof_teardown|]. unfold scheduleIdleTimer. rewrite Ht. by split.
  - destruct (reconnectTimer t); [|done]. eapply Haloof; [by apply (inj Some)| |by left].
    unfold reconnectFires. cbn zeta. set (t1 := set_timers (idleTimer t) false t).
    assert (∀ r, aloof t1 r -> aloof t r) as Hfrom by (intros r []; by split).
    apply Hfrom. destruct (torndown t1); [apply aloof_skip|apply aloof_teardown].
  - destruct (abortListener t); [|done]. eapply Haloof; [by apply (inj Some)|apply aloof_teardown|by left].
  - eapply Haloof; [by apply (inj Some)|apply aloof_teardown|by left].
Qed.
End stream.

(** ** Opening *)

Section opening.
Context (decode : bytes -> result TunnelError HubFrame).
Context (receiveTopicID sendTopicID : string) (inboxCapacity : nat) (idleTimeoutMs : option Z) (reconnect : bool).
Context (sessionID : option string) (signal : option bool) (events : bool) (now : Z).
Abbreviation opened := (createHubTunnelTransport receiveTopicID sendTopicID idleTimeoutMs reconnect sessionID signal events now).

Lemma opened_streams : sends [] opened.1 ∧ received decode receiveTopicID [] opened.1.
Proof.
  unfold createHubTunnelTransport, scheduleIdleTimer. case_bool_decide.
  - unfold teardown, andThen, sendSessionEnd, releaseResources. cbn. destruct sessionID; cbn;
      (split; [split; [done|by intros [|]|constructor]|]); [by exists [], []|done].
  - unfold andThen. cbn. destruct idleTimeoutMs; cbn; (split; [split; [done|by intros [|]|constructor]|]);
      unfold received; cbn; (destruct sessionID; [by exists [], []|done]).
Qed.

Lemma opened_audit :
  ∃ rest a, opened.2 = HubSubscribe receiveTopicID :: HubReceive receiveTopicID :: rest ∧
    audit_effects fresh_audit rest = Some a ∧ audit_ok a opened.1.
Proof.
  unfold createHubTunnelTransport, scheduleIdleTimer. case_bool_decide as Hs.
  - unfold teardown, andThen, sendSessionEnd, releaseResources. cbn. destruct sessionID; cbn;
      (eexists _, _; split; [done|]; split; [done|]); (split; cbn; rewrite ?Hs; auto; first [done|by intros [|]]).
  - unfold andThen. cbn. exists [], fresh_audit. destruct idleTimeoutMs; cbn; (split; [done|]; split; [done|]);
      (split; cbn; auto; first [done|by intros [|]]).
Qed.

Lemma trace_streams tr t :
  mtrace (tunnelStep decode receiveTopicID sendTopicID inboxCapacity idleTimeoutMs) opened.1 tr t ->
  sends tr t ∧ received decode receiveTopicID tr t.
Proof.
  induction 1 as [|tr t e t' out Htr [Hs Hr] Hstep]; [apply opened_streams|]. by eapply step_streams.
Qed.

Lemma trace_audit a tr t :
  audit_ok a opened.1 -> mtrace (tunnelStep decode receiveTopicID sendTopicID inboxCapacity idleTimeoutMs) opened.1 tr t ->
  ∃ a', audit a tr = Some a' ∧ audit_ok a' t.
Proof.
  intros Ha. induction 1 as [|tr t e t' out Htr (a' & Hau & Hok) Hstep]; [by exists a|].
  destruct (step_orderly _ _ _ _ _ _ _ _ _ _ Hok Hstep) as (a2 & Hau2 & Hok2). exists a2. split; [|done].
  unfold audit in *. by rewrite foldl_app, Hau.
Qed.
End opening.

(** ** Properties *)

(** C16. What one end's writer wrote the other end's reader reads, from the first chunk, in order and
    once each. When the message frames of a session that reach a transport are the far end's, each first
    after its predecessor and any of them again at any time, the chunks its reader is given are a prefix of
    the ones the far end published, which are chunks its writer was handed, in that order. *)
Theorem tunnel_stream_faithful
    decodeA receiveA sendA capacityA idleA reconnectA sessionA signalA eventsA nowA trA tA
    decodeB receiveB sendB capacityB idleB reconnectB sessionB signalB eventsB nowB trB tB s :
  tunnel_trace decodeA receiveA sendA capacityA idleA reconnectA sessionA signalA eventsA nowA trA tA ->
  tunnel_trace decodeB receiveB sendB capacityB idleB reconnectB sessionB signalB eventsB nowB trB tB ->
  lockedSessionID tB = Some s -> redelivers (sent trA) (arrivals decodeB receiveB s trB) ->
  delivered trB `prefix_of` map snd (sent trA) ∧ sublist (map snd (sent trA)) (written trA).
Proof.
  intros [HA _]%trace_streams [_ HB]%trace_streams Hl Hr. unfold received in HB. rewrite Hl in HB.
  destruct HB as (l1 & l2 & Harr & Hacc & _). rewrite Harr in Hr. split.
  - destruct (accept_redelivered (sent trA) l1) as (k & _ & Hk & _); [apply HA| |].
    { intros before x after ->. apply (Hr before x (after ++ l2)). by rewrite <- app_assoc. }
    rewrite Hacc in Hk. injection Hk as -> _. exists (map snd (drop k (sent trA))). by rewrite <- map_app, take_drop.
  - etrans; [|apply (sd_written _ _ HA)]. by apply sublist_inserts_r.
Qed.


(** Frames and envelopes survive the wire, and neither is taken for the other: decoding what a frame
    or an envelope encodes to gives it back, with every optional member as it was, and the other format's
    decoder refuses it. *)
Lemma tunnel_codec encodeText decodeText stringifyJSON parseJSON f e :
  (∀ s n c body, f = MessageFrame s n c body -> enkakuMessageSchema body = true) ->
  (∀ v, v = frameObject f ∨ v = envelopeObject e ->
     decodeText (encodeText (stringifyJSON v)) = Some (stringifyJSON v) ∧ parseJSON (stringifyJSON v) = Some v) ->
  decodeFrame decodeText parseJSON (encodeFrame encodeText stringifyJSON f) = Ok f ∧
  decodeEnvelope decodeText parseJSON (encodeEnvelope encodeText stringifyJSON e) = Ok e ∧
  (∃ m, decodeFrame decodeText parseJSON (encodeEnvelope encodeText stringifyJSON e) = Err (FrameDecodeError m)) ∧
  (∃ m, decodeEnvelope decodeText parseJSON (encodeFrame encodeText stringifyJSON f) = Err (EnvelopeDecodeError m)).
Proof.
  intros Hb Hj. destruct (Hj _ (or_introl eq_refl)) as [Hd Hp]. destruct (Hj _ (or_intror eq_refl)) as [Hd' Hp'].
  unfold decodeFrame, decodeEnvelope, encodeFrame, encodeEnvelope. rewrite Hd, Hp, Hd', Hp', envelopeObject_valid, envelope_no_frame, frame_no_envelope.
  rewrite frameObject_valid by exact Hb. split_and!; eauto.
Qed.

(** ** Two ends *)

Module Talk.
Definition chunk (n : Z) : json := JNum (Int n).

(** A payload of [n] bytes is the frame [n - 1] of the session. *)
Definition decode (payload : bytes) : result TunnelError HubFrame :=
  match payload with
  | [] => Err (FrameDecodeError "empty")
  | _ => Ok (MessageFrame "s" (Z.of_nat (length payload) - 1) None (chunk (Z.of_nat (length payload))))
  end.

Definition frame_bytes (n : nat) : StoredMessage := mkStoredMessage "id" "did:a" "b" (replicate n Byte.x00) None.

Definition startA : Tunnel := (createHubTunnelTransport "a" "b" (Some 5000%Z) false (Some "s") (Some false) false 0).1.
Definition eventsA : list TunnelEvent :=
  [SubscribeSettled; Writes (chunk 1); WriteResumes; Published None 1; Writes (chunk 2); WriteResumes;
   Published None 2; SignalAborts; UnsubscribeRuns].
Definition runA : Tunnel * TunnelTrace :=
  default (startA, []) (mrun (tunnelStep decode "a" "b" 10 (Some 5000%Z)) eventsA startA).

Definition startB : Tunnel := (createHubTunnelTransport "b" "a" None false None None false 0).1.
Definition eventsB : list TunnelEvent :=
  [Next (NextValue (frame_bytes 1)) 0; Next (NextValue (frame_bytes 1)) 1; Next (NextValue (frame_bytes 2)) 2; Reads].
Definition runB : Tunnel * TunnelTrace :=
  default (startB, []) (mrun (tunnelStep decode "b" "a" 10 None) eventsB startB).

Lemma talk_trace_A : tunnel_trace decode "a" "b" 10 (Some 5000%Z) false (Some "s") (Some false) false 0 runA.2 runA.1.
Proof. apply (mrun_init eventsA). vm_compute. reflexivity. Qed.
Lemma talk_trace_B : tunnel_trace decode "b" "a" 10 None false None None false 0 runB.2 runB.1.
Proof. apply (mrun_init eventsB). vm_compute. reflexivity. Qed.

Lemma talk_redelivers : redelivers (sent runA.2) (arrivals decode "b" "s" runB.2).
Proof.
  assert (sent runA.2 = [(0, chunk 1); (1, chunk 2)]%Z) as -> by (by vm_compute).
  assert (arrivals decode "b" "s" runB.2 = [(0, chunk 1); (0, chunk 1); (1, chunk 2)]%Z) as -> by (by vm_compute).
  intros before x after Heq. destruct before as [|x1 [|x2 [|x3 before]]]; injection Heq; intros; subst; cbn.
  - split; [by left|lia].
  - split; [by left|lia].
  - split; [by right; left|]. intros _. exists (0, chunk 1)%Z. split; [by left|done].
  - by destruct before.
Qed.
End Talk.

Lemma tunnel_stream_faithful_witness :
  delivered Talk.runB.2 = [Talk.chunk 1; Talk.chunk 2] ∧
  delivered Talk.runB.2 `prefix_of` map snd (sent Talk.runA.2) ∧
  sublist (map snd (sent Talk.runA.2)) (written Talk.runA.2).
Proof.
  split; [by vm_compute|].
  refine (tunnel_stream_faithful Talk.decode "a" "b" 10 (Some 5000%Z) false (Some "s") (Some false) false 0 Talk.runA.2 Talk.runA.1
    Talk.decode "b" "a" 10 None false None None false 0 Talk.runB.2 Talk.runB.1 "s"
    Talk.talk_trace_A Talk.talk_trace_B _ Talk.talk_redelivers).
  by vm_compute.
Defined.


Lemma tunnel_codec_witness :
  let f := SessionEnd "s" 3 None (Some "done") in
  let e := mkTunnelEnvelope "group" "abcd" in
  let stringify v := if has "ciphertext" v then "e" else "f" in
  let parse text := if decide (text = "e") then Some (envelopeObject e) else Some (frameObject f) in
  let decodeText b := if decide (b = [Byte.x65]) then Some "e" else Some "f" in
  let encodeText text := if decide (text = "e") then [Byte.x65] else [] in
  decodeFrame decodeText parse (encodeFrame encodeText stringify f) = Ok f ∧
  decodeEnvelope decodeText parse (encodeEnvelope encodeText stringify e) = Ok e.
Proof.
  intros f e stringify parse decodeText encodeText.
  destruct (tunnel_codec encodeText decodeText stringify parse f e) as (H1 & H2 & _); [done| |done].
  intros v [-> | ->]; by vm_compute.
Defined.
