(* ===== verification/SealedTunnel.v ===== *)
(** * The encrypting hub of a tunnel

    encrypted-transport.ts of packages/hub-tunnel: the hub a tunnel transport is given so that what it
    publishes is sealed and what it reads is opened, and sequence.ts. The wrapper too waits between its acts
    (for the cipher, the hub and its own closing), so it is a machine. A transport reads one message at a
    time, so at most one [next] is under way. *)

From S2P Require Import HubProtocol Json ControllerLog GroupFold Prelude SeqID Tunnel.

(** ** sequence.ts *)

Definition isDigit (c : ascii) : bool :=
  let n := Ascii.nat_of_ascii c in (48 <=? n)%nat && (n <=? 57)%nat.

(** [/^\d+$/] *)
Definition allDigits (s : string) : bool :=
  negb (bool_decide (s = "")) && forallb isDigit (String.list_ascii_of_string s).

(** [BigInt] of decimal digits. *)
Fixpoint decimalFrom (acc : N) (s : string) : N :=
  match s with
  | EmptyString => acc
  | String c s' => decimalFrom (10 * acc + (Ascii.N_of_ascii c - 48)) s'
  end.

Definition precedesSequenceID (a b : string) : bool :=
  if negb (String.length a =? String.length b)%nat && allDigits a && allDigits b
  then (decimalFrom 0 a <? decimalFrom 0 b)%N
  else bool_decide (a <ₛ b).

(** ** encrypted-transport.ts *)

Inductive SealedDrop := DropEnvelopeDecode | DropGroupMismatch | DropDuplicate | DropExpired | DropDecrypt.

(** The await of [next]. *)
Inductive NextPc := NotReading | AwaitInner | Decrypting (message : StoredMessage).

Inductive CloseStage := NotClosing | Draining | ClosedDown.

(** A publish under way: its topic, and whether its payload is being sealed or published. *)
Inductive PublishStage := Sealing | AwaitHub.

Record Sealed := mkSealed {
  anchor : option string;
  ackedOnDecrypt : gset string;
  nextPc : NextPc;
  closeStage : CloseStage;
  publishes : gmap nat (string * PublishStage);
  nextPublish : nat;
}.

Inductive SealedEffect :=
  (* calls of the inner hub and the cipher *)
  | InnerNext
  | InnerReturn
  | InnerAck (sequenceID : string)
  | InnerPublish (topicID : string) (envelope : TunnelEnvelope)
  | Encrypt (call : nat) (payload : bytes)
  | Decrypt (ciphertext : bytes)
  | ArmDrainTimeout
  (* answers to the transport *)
  | NextAnswers (message : option StoredMessage)
  | NextFails (error : TunnelError)
  | PublishAnswers (call : nat) (result : result TunnelError string)
  | AbortSession (error : TunnelError)
  (* notices *)
  | FrameDropped (reason : SealedDrop)
  | DecryptDrainTimeout.

Inductive SealedEvent :=
  | PublishCalled (topicID : string) (payload : bytes)
  | Encrypted (call : nat) (result : result TunnelError bytes)
  | InnerPublished (call : nat) (result : result TunnelError string)
  | NextCalled
  | InnerAnswers (result : NextResult)
  | Decrypted (result : result TunnelError bytes)
  | AckCalled (sequenceID : string)
  | ReturnCalled
  | DrainSettles
  | DrainExpires.

Abbreviation SealedAct := (act_of Sealed SealedEffect).
Abbreviation SealedTrace := (list (SealedEvent * list SealedEffect)).

Definition set_reading (s : option string) (acked : gset string) (pc : NextPc) (w : Sealed) : Sealed :=
  mkSealed s acked pc (closeStage w) (publishes w) (nextPublish w).
Definition set_close (acked : gset string) (c : CloseStage) (w : Sealed) : Sealed :=
  mkSealed (anchor w) acked (nextPc w) c (publishes w) (nextPublish w).
Definition set_publishes (s : option string) (m : gmap nat (string * PublishStage)) (n : nat) (w : Sealed) : Sealed :=
  mkSealed s (ackedOnDecrypt w) (nextPc w) (closeStage w) m n.

Definition isClosing (w : Sealed) : bool := match closeStage w with NotClosing => false | _ => true end.

Section sealed.
Context (toB64 : bytes -> string) (fromB64 : string -> option bytes).
Context (decodeEnvelope : bytes -> result TunnelError TunnelEnvelope).
Context (groupID : string) (hasAck : bool).

(** The earliest sequence ID the session is known by. *)
Definition remember (sequenceID : string) (known : option string) : option string :=
  match known with
  | None => Some sequenceID
  | Some a => if precedesSequenceID sequenceID a then Some sequenceID else known
  end.

Definition ackHandled (sequenceID : string) (decrypted : bool) : SealedAct := fun w =>
  if decide (sequenceID ∈ ackedOnDecrypt w)
  then (set_reading (anchor w) (ackedOnDecrypt w ∖ {[sequenceID]}) (nextPc w) w, [])
  else if negb hasAck then skip w
  else emit (InnerAck sequenceID)
    (set_reading (anchor w) (if decrypted then {[sequenceID]} ∪ ackedOnDecrypt w else ackedOnDecrypt w) (nextPc w) w).

(** *** publish *)

Definition publishCalled (topicID : string) (payload : bytes) : SealedAct := fun w =>
  emit (Encrypt (nextPublish w) payload)
    (set_publishes (anchor w) (<[nextPublish w := (topicID, Sealing)]> (publishes w)) (S (nextPublish w)) w).

Definition encrypted (call : nat) (topicID : string) (result : result TunnelError bytes) : SealedAct := fun w =>
  match result with
  | Err _ =>
    (emit (AbortSession EncryptError) ▷ emit (PublishAnswers call (Err EncryptError)))
      (set_publishes (anchor w) (delete call (publishes w)) (nextPublish w) w)
  | Ok ciphertext =>
    emit (InnerPublish topicID (mkTunnelEnvelope groupID (toB64 ciphertext)))
      (set_publishes (anchor w) (<[call := (topicID, AwaitHub)]> (publishes w)) (nextPublish w) w)
  end.

Definition innerPublished (call : nat) (result : result TunnelError string) : SealedAct := fun w =>
  emit (PublishAnswers call result)
    (set_publishes (match result with Ok sequenceID => remember sequenceID (anchor w) | Err _ => anchor w end)
       (delete call (publishes w)) (nextPublish w) w).

(** *** next *)

Definition answer (r : SealedEffect) : SealedAct := fun w =>
  emit r (set_reading (anchor w) (ackedOnDecrypt w) NotReading w).

(** The top of the loop. *)
Definition readOn : SealedAct := fun w =>
  if isClosing w then answer (NextAnswers None) w
  else emit InnerNext (set_reading (anchor w) (ackedOnDecrypt w) AwaitInner w).

Definition dropFrame (reason : SealedDrop) (message : StoredMessage) : SealedAct :=
  emit (FrameDropped reason) ▷ ackHandled (sm_sequenceID message) false ▷ readOn.

Definition innerAnswers (result : NextResult) : SealedAct := fun w =>
  match result with
  | NextThrows error => answer (NextFails error) w
  | NextDone => answer (NextAnswers None) w
  | NextValue message =>
    if isClosing w then answer (NextAnswers None) w
    else match decodeEnvelope (sm_payload message) with
    | Err (EnvelopeDecodeError _) => dropFrame DropEnvelopeDecode message w
    | Err error => answer (NextFails error) w
    | Ok envelope =>
      if decide (te_groupID envelope = groupID) then
        let w1 := set_reading (anchor w) (ackedOnDecrypt w) (Decrypting message) w in
        match fromB64 (te_ciphertext envelope) with
        | Some ciphertext => emit (Decrypt ciphertext) w1
        | None => dropFrame DropDecrypt message w1
        end
      else dropFrame DropGroupMismatch message w
    end
  end.

(** An expired frame sequenced after the anchor was owed to this session. *)
Definition failExpired (sequenceID : string) : SealedAct := fun w =>
  match anchor w with
  | Some a => if precedesSequenceID a sequenceID then emit (AbortSession ExpiredFrameError) w else skip w
  | None => skip w
  end.

Definition opened (message : StoredMessage) (plaintext : bytes) : SealedAct := fun w =>
  let id := sm_sequenceID message in
  if isClosing w
  then answer (NextAnswers None) (set_reading (anchor w) (ackedOnDecrypt w ∖ {[id]}) (nextPc w) w)
  else answer (NextAnswers (Some (mkStoredMessage id (sm_senderDID message) (sm_topicID message) plaintext (sm_logPosition message))))
    (set_reading (remember id (anchor w)) (ackedOnDecrypt w) (nextPc w) w).

Definition decrypted (message : StoredMessage) (result : result TunnelError bytes) : SealedAct :=
  match result with
  | Ok plaintext => ackHandled (sm_sequenceID message) true ▷ opened message plaintext
  | Err DuplicateFrameError => dropFrame DropDuplicate message
  | Err ExpiredFrameError =>
    emit (FrameDropped DropExpired) ▷ ackHandled (sm_sequenceID message) false ▷ failExpired (sm_sequenceID message) ▷ readOn
  | Err _ => dropFrame DropDecrypt message
  end.

(** *** return *)

Definition closeInner : SealedAct := fun w => emit InnerReturn (set_close ∅ ClosedDown w).

Definition returnCalled : SealedAct := fun w =>
  if isClosing w then skip w
  else match nextPc w with
  | Decrypting _ => emit ArmDrainTimeout (set_close (ackedOnDecrypt w) Draining w)
  | _ => closeInner w
  end.

(** ** The machine *)

Definition sealedStep (e : SealedEvent) (w : Sealed) : option (Sealed * list SealedEffect) :=
  match e with
  | PublishCalled topicID payload => Some (publishCalled topicID payload w)
  | Encrypted call result =>
    match publishes w !! call with Some (topicID, Sealing) => Some (encrypted call topicID result w) | _ => None end
  | InnerPublished call result =>
    match publishes w !! call with Some (_, AwaitHub) => Some (innerPublished call result w) | _ => None end
  | NextCalled => match nextPc w with NotReading => Some (readOn w) | _ => None end
  | InnerAnswers result => match nextPc w with AwaitInner => Some (innerAnswers result w) | _ => None end
  | Decrypted result => match nextPc w with Decrypting message => Some (decrypted message result w) | _ => None end
  | AckCalled sequenceID => if hasAck then Some (ackHandled sequenceID false w) else None
  | ReturnCalled => Some (returnCalled w)
  | DrainSettles =>
    match closeStage w, nextPc w with
    | Draining, Decrypting _ => None
    | Draining, _ => Some (closeInner w)
    | _, _ => None
    end
  | DrainExpires => match closeStage w with Draining => Some ((emit DecryptDrainTimeout ▷ closeInner) w) | _ => None end
  end.

Definition wrapHub : Sealed := mkSealed None ∅ NotReading NotClosing ∅ 0.
End sealed.

Abbreviation sealed_trace toB64 fromB64 decode groupID hasAck :=
  (mtrace (sealedStep toB64 fromB64 decode groupID hasAck) wrapHub).
