(* ===== verification/SealedTunnelSpec.v ===== *)
(** * What the encrypting hub acknowledges, and when it fails the session

    The wrapper stands between the hub's redelivery and the transport's acknowledgement: every frame it
    takes from the hub is acknowledged there once, whether it opened or not. A frame that can never be
    opened fails the session exactly when it was sequenced within it. *)

From S2P Require Import HubProtocol Json ControllerLog GroupFold Prelude SeqID Tunnel SealedTunnel.

(** ** How a transport drives it *)

(** [owed]: the message answered last, not yet acknowledged. [down]: the transport released the stream. *)
Record Drive := mkDrive { owed : option string; down : bool }.

Definition answered (d : Drive) (e : SealedEffect) : Drive :=
  match e with NextAnswers (Some m) => mkDrive (Some (sm_sequenceID m)) (down d) | _ => d end.

(** [None]: not as a transport calls it. It acknowledges every message it was answered before it reads on,
    and none after the release: [handleMessage_acks] and [audit_ok] of TunnelSpec.v. *)
Definition driven (d : option Drive) (eo : SealedEvent * list SealedEffect) : option Drive :=
  match d with
  | None => None
  | Some d =>
    match eo.1 with
    | NextCalled => if decide (owed d = None) then Some (foldl answered d eo.2) else None
    | AckCalled s => if decide (owed d = Some s ∧ down d = false) then Some (mkDrive None false) else None
    | ReturnCalled => Some (mkDrive None true)
    | _ => Some (foldl answered d eo.2)
    end
  end.

Definition drive (tr : SealedTrace) : option Drive := foldl driven (Some (mkDrive None false)) tr.

(** The frames taken from the hub before the release, and the ones acknowledged there, in their order. *)
Definition acked_upstream (tr : SealedTrace) : list string :=
  omap (fun e => match e with InnerAck s => Some s | _ => None end) (concat (map snd tr)).

Definition taken1 (r : list string * bool) (e : SealedEvent) : list string * bool :=
  match e with
  | ReturnCalled => (r.1, true)
  | InnerAnswers (NextValue m) => if r.2 then r else (r.1 ++ [sm_sequenceID m], r.2)
  | _ => r
  end.

Definition taken (tr : SealedTrace) : list string * bool := foldl taken1 ([], false) (map fst tr).

(** The frame being opened. *)
Definition opening (w : Sealed) : list string :=
  match nextPc w with Decrypting m => [sm_sequenceID m] | _ => [] end.

Definition acks_of (out : list SealedEffect) : list string :=
  omap (fun e => match e with InnerAck s => Some s | _ => None end) out.

Lemma acked_snoc tr e out : acked_upstream (tr ++ [(e, out)]) = acked_upstream tr ++ acks_of out.
Proof. unfold acked_upstream, acks_of. rewrite map_app, concat_app, omap_app. cbn. by rewrite app_nil_r. Qed.

Section sealed.
Context (toB64 : bytes -> string) (fromB64 : string -> option bytes).
Context (decodeText : bytes -> option string) (parseJSON : string -> option json) (groupID : string).
Abbreviation decode := (decodeEnvelope decodeText parseJSON).
Abbreviation step := (sealedStep toB64 fromB64 decode groupID true).

Record in_step (d : Drive) (w : Sealed) : Prop := {
  is_down : down d = isClosing w;
  is_acked : ackedOnDecrypt w = match owed d with Some s => {[s]} | None => ∅ end;
  is_reading : nextPc w ≠ NotReading -> owed d = None;
  is_released : down d = true -> owed d = None;
}.

(** What a step acknowledges: what was being opened and what it took, less what it goes on opening. *)
Definition settles (before : list string) (d : Drive) (r : Sealed * list SealedEffect) : Prop :=
  before = acks_of r.2 ++ opening r.1 ∧ in_step (foldl answered d r.2) r.1.

Lemma andThen_seq (a b : SealedAct) w : (a ▷ b) w = ((b (a w).1).1, (a w).2 ++ (b (a w).1).2).
Proof. unfold andThen. destruct (a w) as [w1 out1]. cbn. by destruct (b w1). Qed.

Lemma decode_errors b e : decode b = Err e -> ∃ m, e = EnvelopeDecodeError m.
Proof. unfold decodeEnvelope. destruct (decodeText b); [destruct (parseJSON _); [destruct (validateTunnelEnvelope _)|]|]; intros [= <-]; eauto. Qed.

Lemma in_step_reading d w s acked pc :
  in_step d w -> owed d = None -> acked = ∅ -> in_step d (set_reading s acked pc w).
Proof. intros [Hd Ha Hr Hrel] Ho ->. split; [exact Hd|by rewrite Ho|done|done]. Qed.

Lemma in_step_none d w : in_step d w -> owed d = None -> ackedOnDecrypt w = ∅.
Proof. intros [_ Ha _ _] Ho. by rewrite Ha, Ho. Qed.

(** The top of the loop, with every answer acknowledged. *)
Lemma readOn_settles d w :
  in_step d w -> owed d = None ->
  acks_of (readOn w).2 = [] ∧ foldl answered d (readOn w).2 = d ∧ opening (readOn w).1 = [] ∧ in_step d (readOn w).1.
Proof.
  intros H Ho. unfold readOn. destruct (isClosing w); (split; [done|]; split; [done|]; split; [done|]);
    (apply in_step_reading; [done..|by apply (in_step_none d)]).
Qed.

Lemma ack_fresh id d w decrypted :
  in_step d w -> owed d = None ->
  ackHandled true id decrypted w =
    (set_reading (anchor w) (if decrypted then {[id]} else ∅) (nextPc w) w, [InnerAck id]).
Proof.
  intros [_ Ha _ _] Ho. rewrite Ho in Ha. unfold ackHandled. rewrite decide_False by (rewrite Ha; set_solver). cbn.
  unfold emit. rewrite Ha. destruct decrypted; [|done]. by rewrite union_empty_r_L.
Qed.

Lemma dropFrame_settles reason m d w :
  in_step d w -> owed d = None -> settles [sm_sequenceID m] d (dropFrame true reason m w).
Proof.
  intros H Ho. unfold dropFrame. rewrite !andThen_seq. cbn [emit fst snd app]. rewrite (ack_fresh _ d) by done. cbn [fst snd app].
  set (w1 := set_reading _ _ _ _).
  assert (in_step d w1) as H1 by by apply in_step_reading.
  destruct (readOn_settles d w1 H1 Ho) as (Hacks & Hf & Hop & Hin).
  unfold settles. cbn. unfold acks_of in *. cbn. by rewrite Hacks, Hop, Hf.
Qed.

Lemma expired_settles m d w :
  in_step d w -> owed d = None -> settles [sm_sequenceID m] d (decrypted true m (Err ExpiredFrameError) w).
Proof.
  intros H Ho. cbn [decrypted]. rewrite !andThen_seq. cbn [emit fst snd app]. rewrite (ack_fresh _ d) by done. cbn [fst snd app].
  set (w1 := set_reading _ _ _ _).
  assert (in_step d w1) as H1 by by apply in_step_reading.
  assert (∃ out, failExpired (sm_sequenceID m) w1 = (w1, out) ∧ acks_of out = [] ∧ foldl answered d out = d) as (out & -> & Hacks' & Hf').
  { unfold failExpired. destruct (anchor w1) as [a|]; [destruct (precedesSequenceID _ _)|]; eexists; split; done. }
  cbn [fst snd]. destruct (readOn_settles d w1 H1 Ho) as (Hacks & Hf & Hop & Hin).
  unfold settles. cbn. unfold acks_of in *. rewrite !omap_app, !foldl_app. cbn. rewrite Hacks', Hf', Hacks, Hf, Hop. done.
Qed.

Lemma opened_settles m plaintext d w :
  in_step d w -> owed d = None -> settles [sm_sequenceID m] d (decrypted true m (Ok plaintext) w).
Proof.
  intros H Ho. cbn [decrypted]. rewrite andThen_seq, (ack_fresh _ d) by done. cbn [fst snd]. unfold opened.
  set (w1 := set_reading _ _ _ _). assert (isClosing w1 = isClosing w) as -> by done. unfold settles.
  destruct (isClosing w) eqn:Hc; (split; [reflexivity|]); cbn.
  - destruct H as [Hd Ha Hr Hrel]. split; [exact Hd|cbn; rewrite Ho; set_solver|done|done].
  - destruct H as [Hd Ha Hr Hrel]. rewrite Hc in Hd. split; cbn; try done; [|congruence]. unfold isClosing in *. cbn. by rewrite Hc.
Qed.

Lemma answer_settles e d w :
  in_step d w -> owed d = None -> answered d e = d -> acks_of [e] = [] -> settles [] d (answer e w).
Proof.
  intros H Ho He Hacks. unfold answer, emit, settles. cbn [fst snd foldl]. rewrite Hacks, He. split; [done|].
  apply in_step_reading; [done..|]. by apply (in_step_none d).
Qed.

Lemma innerAnswers_settles result d w :
  in_step d w -> owed d = None -> nextPc w = AwaitInner ->
  settles (match result with NextValue m => if isClosing w then [] else [sm_sequenceID m] | _ => [] end) d
    (innerAnswers fromB64 decode groupID true result w).
Proof.
  intros H Ho Hpc. unfold innerAnswers. destruct result as [m| |error]; [|by apply answer_settles..].
  destruct (isClosing w) eqn:Hc; [by apply answer_settles|].
  destruct (decode (sm_payload m)) as [envelope|error] eqn:Hdec.
  - case_decide; [|by apply dropFrame_settles]. destruct (fromB64 _).
    + split; [done|]. apply in_step_reading; [done..|]. by apply (in_step_none d).
    + apply dropFrame_settles; [|done]. apply in_step_reading; [done..|]. by apply (in_step_none d).
  - apply decode_errors in Hdec as [msg ->]. by apply dropFrame_settles.
Qed.

Lemma decrypted_settles m result d w :
  in_step d w -> owed d = None -> settles [sm_sequenceID m] d (decrypted true m result w).
Proof.
  intros H Ho. destruct result as [plaintext|error]; [by apply opened_settles|].
  destruct error; first [by apply expired_settles|by apply dropFrame_settles].
Qed.

(** What touches neither the reading nor the closing. *)
Lemma settles_other d w w' out :
  in_step d w -> acks_of out = [] -> foldl answered d out = d -> ackedOnDecrypt w' = ackedOnDecrypt w ->
  nextPc w' = nextPc w -> isClosing w' = isClosing w -> settles (opening w) d (w', out).
Proof.
  intros [Hd Ha Hr Hrel] Hacks Hf Hac Hpc Hc. unfold settles, opening. cbn [fst snd]. rewrite Hacks, Hf, Hpc. split; [done|].
  split; rewrite ?Hac, ?Hpc, ?Hc; done.
Qed.

Lemma closing_none d w : in_step d w -> isClosing w = true -> owed d = None.
Proof. intros [Hd _ _ Hrel] Hc. apply Hrel. by rewrite Hd. Qed.

Lemma close_settles d w out :
  in_step d w -> isClosing w = true -> acks_of out = [] -> foldl answered d out = d ->
  settles (opening w) d (set_close ∅ ClosedDown w, out).
Proof.
  intros H Hc Hacks Hf. pose proof (closing_none _ _ H Hc) as Ho. unfold settles. cbn [fst snd]. rewrite Hacks, Hf.
  split; [done|]. destruct H as [Hd Ha Hr Hrel]. split; cbn; [by rewrite Hd|by rewrite Ho|done|done].
Qed.

(** *** Any run *)

Lemma taken_snoc tr e out : taken (tr ++ [(e, out)]) = taken1 (taken tr) e.
Proof. unfold taken. by rewrite map_app, foldl_app. Qed.

Lemma step_settles tr d w e w' out d' :
  taken tr = (acked_upstream tr ++ opening w, down d) -> in_step d w ->
  step e w = Some (w', out) -> driven (Some d) (e, out) = Some d' ->
  taken (tr ++ [(e, out)]) = (acked_upstream (tr ++ [(e, out)]) ++ opening w', down d') ∧ in_step d' w'.
Proof.
  intros Ht H Hs Hd'. rewrite taken_snoc, acked_snoc, Ht.
  assert (∀ before r, r = (w', out) -> settles (opening w ++ before) d r -> Some (foldl answered d out) = Some d' ->
    down d' = down d -> taken1 (acked_upstream tr ++ opening w, down d) e = ((acked_upstream tr ++ opening w) ++ before, down d) ->
    taken1 (acked_upstream tr ++ opening w, down d) e = ((acked_upstream tr ++ acks_of out) ++ opening w', down d') ∧ in_step d' w') as Hgo.
  { intros before r -> [Hb Hin] [= <-] Hdown ->. cbn [fst snd] in *. split; [|done]. rewrite Hdown. f_equal. rewrite <- !app_assoc. by f_equal. }
  assert (∀ l, down (foldl answered d l) = down d) as Hdown.
  { intros l. generalize d. induction l as [|x l IH]; intros d0; [done|]. cbn. rewrite IH. destruct x; try done. by destruct message. }
  destruct e as [t p|call r|call r| |r|r|s| | |]; cbv beta iota zeta delta [sealedStep] in Hs; cbn [driven fst snd] in Hd'.
  - eapply (Hgo []); [by apply (inj Some)| |exact Hd'|by injection Hd' as <-|by rewrite app_nil_r].
    rewrite app_nil_r. by apply settles_other.
  - destruct (publishes w !! call) as [[t []]|]; try done.
    eapply (Hgo []); [by apply (inj Some)| |exact Hd'|by injection Hd' as <-|by rewrite app_nil_r].
    rewrite app_nil_r. destruct r; by apply settles_other.
  - destruct (publishes w !! call) as [[t []]|]; try done.
    eapply (Hgo []); [by apply (inj Some)| |exact Hd'|by injection Hd' as <-|by rewrite app_nil_r].
    rewrite app_nil_r. by apply settles_other.
  - destruct (decide (owed d = None)) as [Ho|]; [|done]. destruct (nextPc w) eqn:Hpc; try done. apply (inj Some) in Hs.
    eapply (Hgo []); [exact Hs| |done|by injection Hd' as <-|by rewrite app_nil_r].
    destruct (readOn_settles d w H Ho) as (Hacks & Hf & Hop & Hin). unfold opening. rewrite Hpc. split; [by rewrite Hacks, Hop|by rewrite Hf].
  - destruct (nextPc w) eqn:Hpc; try done. apply (inj Some) in Hs.
    assert (owed d = None) as Ho by (apply (is_reading _ _ H); by rewrite Hpc).
    pose proof (innerAnswers_settles r d w H Ho Hpc) as Hset.
    eapply (Hgo _ (innerAnswers fromB64 decode groupID true r w)); [exact Hs| |done|by injection Hd' as <-|].
    + unfold opening. rewrite Hpc. exact Hset.
    + cbn. rewrite (is_down _ _ H). destruct r; [destruct (isClosing w)|..]; cbn; by rewrite ?app_nil_r.
  - destruct (nextPc w) as [| |m] eqn:Hpc; try done. apply (inj Some) in Hs.
    assert (owed d = None) as Ho by (apply (is_reading _ _ H); by rewrite Hpc).
    eapply (Hgo [] (decrypted true m r w)); [exact Hs| |done|by injection Hd' as <-|by rewrite app_nil_r].
    unfold opening. rewrite Hpc. by apply decrypted_settles.
  - destruct (decide (owed d = Some s ∧ down d = false)) as [[Ho Hdn]|]; [|done]. injection Hd' as <-.
    destruct H as [Hd Ha Hr Hrel]. rewrite Ho in Ha. unfold ackHandled in Hs.
    rewrite decide_True in Hs by (rewrite Ha; set_solver). injection Hs as <- <-. rewrite app_nil_r.
    assert (nextPc w = NotReading) as Hpc.
    { destruct (nextPc w) eqn:Hpc; [done|..]; (assert (owed d = None) by by apply Hr); congruence. }
    cbn. rewrite Hdn. split; [done|]. split; cbn; [by rewrite <- Hdn|rewrite Ha; set_solver|done|done].
  - injection Hd' as <-. cbn [taken1 fst down]. unfold returnCalled in Hs. destruct (isClosing w) eqn:Hc.
    + injection Hs as <- <-. rewrite app_nil_r. split; [done|]. pose proof (closing_none _ _ H Hc) as Ho.
      pose proof (in_step_none _ _ H Ho) as Ha. by split; cbn.
    + destruct (nextPc w) eqn:Hpc; injection Hs as <- <-; cbn; rewrite ?app_nil_r; unfold opening; cbn; rewrite Hpc;
        (split; [done|]); split; cbn; try done.
      apply (in_step_none d); [done|]. apply (is_reading _ _ H). by rewrite Hpc.
  - destruct (closeStage w) eqn:Hc; try done. assert (isClosing w = true) as Hcl by (unfold isClosing; by rewrite Hc).
    assert (closeInner w = (w', out)) as Hr by (destruct (nextPc w); [by apply (inj Some)..|done]).
    eapply (Hgo []); [exact Hr| |exact Hd'|by injection Hd' as <-|by rewrite app_nil_r].
    rewrite app_nil_r. by apply close_settles.
  - destruct (closeStage w) eqn:Hc; try done. assert (isClosing w = true) as Hcl by (unfold isClosing; by rewrite Hc).
    eapply (Hgo []); [by apply (inj Some)| |exact Hd'|by injection Hd' as <-|by rewrite app_nil_r].
    rewrite app_nil_r. by apply close_settles.
Qed.

Lemma trace_settles tr w d :
  sealed_trace toB64 fromB64 decode groupID true tr w -> drive tr = Some d ->
  taken tr = (acked_upstream tr ++ opening w, down d) ∧ in_step d w.
Proof.
  intros Htr. revert d. induction Htr as [|tr w e w' out Htr IH Hs]; intros d Hd.
  - injection Hd as <-. split; [done|]. by split.
  - unfold drive in Hd. rewrite foldl_app in Hd. cbn [foldl] in Hd. fold (drive tr) in Hd.
    destruct (drive tr) as [d0|] eqn:Hd0; [|done]. destruct (IH d0 eq_refl) as [Ht Hin]. by eapply step_settles.
Qed.
End sealed.

(** ** The order of sequence IDs *)

Definition value (s : string) : N := decimalFrom 0 s.

Definition digits (s : string) : Prop := Forall (fun c => isDigit c = true) (String.list_ascii_of_string s).

Lemma allDigits_digits s : allDigits s = true -> digits s.
Proof. unfold allDigits, digits. intros [_ H]%andb_true_iff. apply Forall_forall. by rewrite forallb_forall in H; setoid_rewrite list_elem_of_In. Qed.

Lemma isDigit_bounds c : isDigit c = true -> (48 <= Ascii.N_of_ascii c <= 57)%N.
Proof.
  unfold isDigit, Ascii.nat_of_ascii. intros [H1 H2]%andb_true_iff. apply Nat.leb_le in H1, H2. lia.
Qed.

Lemma decimal_split acc s : decimalFrom acc s = (acc * 10 ^ N.of_nat (String.length s) + decimalFrom 0 s)%N.
Proof.
  revert acc. induction s as [|c s IH]; intros acc; [cbn; lia|]. cbn [decimalFrom String.length].
  rewrite IH, (IH (10 * 0 + _)%N), Nat2N.inj_succ, N.pow_succ_r'. lia.
Qed.

Lemma decimal_bound s : digits s -> (decimalFrom 0 s < 10 ^ N.of_nat (String.length s))%N.
Proof.
  unfold digits. induction s as [|c s IH]; [cbn; lia|]. cbn [String.list_ascii_of_string]. intros [Hc Hs]%Forall_cons.
  cbn [decimalFrom String.length]. rewrite decimal_split, Nat2N.inj_succ, N.pow_succ_r'. apply isDigit_bounds in Hc.
  specialize (IH Hs). nia.
Qed.

(** At one width strings of digits compare as their values do. *)
Lemma compare_value a b :
  String.length a = String.length b -> digits a -> digits b -> String.compare a b = (value a ?= value b)%N.
Proof.
  unfold digits, value. revert b. induction a as [|c a IH]; intros [|c' b]; try done. cbn [String.length String.list_ascii_of_string].
  intros [= Hlen] [Hc Ha]%Forall_cons [Hc' Hb]%Forall_cons. cbn [decimalFrom String.compare].
  rewrite (decimal_split _ a), (decimal_split _ b), Hlen.
  pose proof (decimal_bound a Ha) as Hba. pose proof (decimal_bound b Hb) as Hbb. rewrite Hlen in Hba.
  apply isDigit_bounds in Hc, Hc'. unfold Ascii.compare.
  set (w := (10 ^ N.of_nat (String.length b))%N) in *.
  destruct (N.compare_spec (Ascii.N_of_ascii c) (Ascii.N_of_ascii c')) as [Heq|Hlt|Hgt].
  - rewrite Heq, IH by done. symmetry. set (k := ((10 * 0 + (Ascii.N_of_ascii c' - 48)) * w)%N).
    destruct (N.compare_spec (decimalFrom 0 a) (decimalFrom 0 b)); [apply N.compare_eq_iff|apply N.compare_lt_iff|apply N.compare_gt_iff]; lia.
  - symmetry. apply N.compare_lt_iff. nia.
  - symmetry. apply N.compare_gt_iff. nia.
Qed.

Lemma precedes_value a b :
  allDigits a = true -> allDigits b = true -> precedesSequenceID a b = true <-> (value a < value b)%N.
Proof.
  intros Ha Hb. unfold precedesSequenceID. rewrite Ha, Hb, !andb_true_r.
  destruct (Nat.eqb_spec (String.length a) (String.length b)) as [Hl|]; cbn.
  - rewrite bool_decide_eq_true. unfold slt, String.ltb. rewrite compare_value by (by try apply allDigits_digits).
    rewrite <- N.compare_lt_iff. by destruct (value a ?= value b)%N.
  - unfold value. apply N.ltb_lt.
Qed.

(** ** The session a frame was owed to *)

(** The sequence IDs a session is known by: of what it published and of what it was delivered. *)
Definition known1 (l : list string) (eo : SealedEvent * list SealedEffect) : list string :=
  (match eo.1 with InnerPublished _ (Ok s) => [s] | _ => [] end) ++
  omap (fun e => match e with NextAnswers (Some m) => Some (sm_sequenceID m) | _ => None end) eo.2 ++ l.

Definition known (tr : SealedTrace) : list string := foldl known1 [] tr.

Section anchor.
Context (toB64 : bytes -> string) (fromB64 : string -> option bytes).
Context (decode : bytes -> result TunnelError TunnelEnvelope) (groupID : string) (hasAck : bool).
Abbreviation step := (sealedStep toB64 fromB64 decode groupID hasAck).

(** The anchor is the lowest of them. *)
Definition anchored (l : list string) (a : option string) : Prop :=
  match a with
  | None => l = []
  | Some a => a ∈ l ∧ ∀ s, s ∈ l -> (value a <= value s)%N
  end.

Lemma anchored_remember l a s :
  Forall (fun s => allDigits s = true) (s :: l) -> anchored l a -> anchored (s :: l) (remember s a).
Proof.
  intros [Hs Hl]%Forall_cons Ha. destruct a as [a|]; cbn in *.
  - destruct Ha as [Hin Hmin]. assert (allDigits a = true) as Had by (rewrite Forall_forall in Hl; by apply Hl).
    destruct (precedesSequenceID s a) eqn:Hp.
    + apply precedes_value in Hp; [|done..]. cbn. split; [by left|]. intros x [->|Hx]%elem_of_cons; [lia|].
      specialize (Hmin x Hx). lia.
    + assert (¬ (value s < value a)%N) as Hn by (rewrite <- precedes_value by done; by rewrite Hp).
      cbn. split; [by right|]. intros x [->|Hx]%elem_of_cons; [lia|auto].
  - subst l. cbn. split; [by left|]. by intros x ->%list_elem_of_singleton.
Qed.

(** An act that answers no message and leaves the anchor. *)
Definition plain (w : Sealed) (r : Sealed * list SealedEffect) : Prop :=
  anchor r.1 = anchor w ∧ omap (fun e => match e with NextAnswers (Some m) => Some (sm_sequenceID m) | _ => None end) r.2 = [].

Lemma plain_then (a b : SealedAct) w : plain w (a w) -> (∀ w1, plain w1 (b w1)) -> plain w ((a ▷ b) w).
Proof.
  intros [Ha Ho] Hb. rewrite andThen_seq. destruct (Hb (a w).1) as [Ha' Ho']. split; cbn [fst snd]; [congruence|].
  by rewrite omap_app, Ho, Ho'.
Qed.

Lemma plain_ack id decrypted w : plain w (ackHandled hasAck id decrypted w).
Proof. unfold ackHandled. case_decide; [done|]. by destruct hasAck. Qed.

Lemma plain_readOn w : plain w (readOn w).
Proof. unfold readOn. by destruct (isClosing w). Qed.

Lemma plain_drop reason m w : plain w (dropFrame hasAck reason m w).
Proof. apply plain_then; [apply plain_then; [done|apply plain_ack]|apply plain_readOn]. Qed.

Lemma plain_expired id w : plain w (failExpired id w).
Proof. unfold failExpired. destruct (anchor w) eqn:Ha; [destruct (precedesSequenceID _ _)|]; by split. Qed.

Lemma plain_decrypted m e w : plain w (decrypted hasAck m (Err e) w).
Proof.
  destruct e; try apply plain_drop. cbn [decrypted].
  repeat (apply plain_then; [|intros; first [apply plain_ack|apply plain_expired|apply plain_readOn]]). done.
Qed.

Lemma plain_inner r w : plain w (innerAnswers fromB64 decode groupID hasAck r w).
Proof.
  unfold innerAnswers. destruct r as [m| |]; [|done..]. destruct (isClosing w); [done|].
  destruct (decode _) as [envelope|[]]; try done; try apply plain_drop.
  case_decide; [|apply plain_drop]. destruct (fromB64 _); [done|].
  destruct (plain_drop DropDecrypt m (set_reading (anchor w) (ackedOnDecrypt w) (Decrypting m) w)). by split.
Qed.

Lemma step_anchored l w e w' out :
  Forall (fun s => allDigits s = true) (known1 l (e, out)) -> anchored l (anchor w) -> step e w = Some (w', out) ->
  anchored (known1 l (e, out)) (anchor w').
Proof.
  intros Hd Ha Hs.
  assert (∀ r, r = (w', out) -> plain w r -> match e with InnerPublished _ (Ok s) => False | _ => True end ->
    anchored (known1 l (e, out)) (anchor w')) as Hplain.
  { intros r -> [Ha' Ho] He. unfold known1. cbn [fst snd] in *. rewrite Ho, Ha'. destruct e as [| |c []| | | | | | |]; done. }
  destruct e as [t p|c r|c r| |r|r|s| | |]; cbv beta iota zeta delta [sealedStep] in Hs.
  - by eapply Hplain; [apply (inj Some)|..].
  - destruct (publishes w !! c) as [[t []]|]; try done. eapply Hplain; [by apply (inj Some)| |done]. by destruct r.
  - destruct (publishes w !! c) as [[t []]|]; try done. injection Hs as <- <-. unfold known1 in *. cbn in *.
    destruct r; [by apply anchored_remember|done].
  - destruct (nextPc w); try done. eapply Hplain; [by apply (inj Some)|apply plain_readOn|done].
  - destruct (nextPc w); try done. eapply Hplain; [by apply (inj Some)|apply plain_inner|done].
  - destruct (nextPc w) as [| |m]; try done. destruct r as [plaintext|error];
      [|eapply Hplain; [by apply (inj Some)|apply plain_decrypted|done]].
    apply (inj Some) in Hs. cbn [decrypted] in Hs. rewrite andThen_seq in Hs. unfold opened in Hs.
    destruct (plain_ack (sm_sequenceID m) true w) as [Hack Hno].
    destruct (ackHandled hasAck (sm_sequenceID m) true w) as [w1 out1]. cbn [fst snd] in *.
    destruct (isClosing w1); injection Hs as <- <-; unfold known1 in *; cbn [fst snd] in *;
      rewrite omap_app, Hno in *; cbn in *; rewrite Hack; [done|by apply anchored_remember].
  - destruct hasAck eqn:Hk; [|done]. eapply Hplain; [by apply (inj Some)| |done]. pose proof (plain_ack s false w) as Hp. by rewrite Hk in Hp.
  - eapply Hplain; [by apply (inj Some)| |done]. unfold returnCalled. destruct (isClosing w); [done|]. by destruct (nextPc w).
  - destruct (closeStage w); try done. eapply Hplain; [|by apply (plain_then closeInner (fun w => (w, [])))|done].
    rewrite andThen_seq. destruct (nextPc w); by apply (inj Some).
  - destruct (closeStage w); try done. by eapply Hplain; [apply (inj Some)|..].
Qed.

Lemma known_mono tr1 tr2 s : s ∈ known tr1 -> s ∈ known (tr1 ++ tr2).
Proof.
  unfold known. rewrite foldl_app. generalize (foldl known1 [] tr1). induction tr2 as [|eo tr2 IH]; intros l Hs; [done|].
  cbn. apply IH. unfold known1. set_solver.
Qed.

Lemma trace_anchored tr w :
  sealed_trace toB64 fromB64 decode groupID hasAck tr w -> Forall (fun s => allDigits s = true) (known tr) ->
  anchored (known tr) (anchor w).
Proof.
  induction 1 as [|tr w e w' out Htr IH Hs]; intros Hd; [done|].
  assert (known (tr ++ [(e, out)]) = known1 (known tr) (e, out)) as Hk by (unfold known; by rewrite foldl_app).
  rewrite Hk in *. eapply step_anchored; [done| |done]. apply IH.
  rewrite Forall_forall in Hd |- *. intros x Hx. apply Hd. unfold known1. set_solver.
Qed.
End anchor.

(** ** Properties *)

(** C28. Every frame the wrapper takes from the hub it acknowledges there once, in the order they came:
    what it cannot decode, what is another group's, what is a duplicate, expired or does not open, and what
    opens, at the moment its key is spent. The transport's own acknowledgement of an opened frame adds
    nothing. Only the frame being opened is still unacknowledged. *)
Theorem sealed_acks_once toB64 fromB64 decodeText parseJSON groupID tr w d :
  sealed_trace toB64 fromB64 (decodeEnvelope decodeText parseJSON) groupID true tr w -> drive tr = Some d ->
  (taken tr).1 = acked_upstream tr ++ opening w.
Proof. intros Htr Hd. by destruct (trace_settles _ _ _ _ _ _ _ _ Htr Hd) as [-> _]. Qed.

(** C29. A frame that can never be opened fails the session exactly when it is owed to it: when the hub
    numbered it after some frame the session published or was delivered. One numbered before all of them
    is an earlier session's, and is only dropped. Sequence IDs are decimal, of one width or not. *)
Theorem expired_fails_session toB64 fromB64 decode groupID hasAck tr w m w' out :
  sealed_trace toB64 fromB64 decode groupID hasAck tr w -> nextPc w = Decrypting m ->
  Forall (fun s => allDigits s = true) (sm_sequenceID m :: known tr) ->
  sealedStep toB64 fromB64 decode groupID hasAck (Decrypted (Err ExpiredFrameError)) w = Some (w', out) ->
  AbortSession ExpiredFrameError ∈ out <-> ∃ s, s ∈ known tr ∧ (value s < value (sm_sequenceID m))%N.
Proof.
  intros Htr Hpc [Hm Hk]%Forall_cons Hs. pose proof (trace_anchored _ _ _ _ _ _ _ Htr Hk) as Ha.
  cbn in Hs. rewrite Hpc in Hs. apply (inj Some) in Hs. rewrite !andThen_seq in Hs. injection Hs as _ <-.
  destruct (plain_ack hasAck (sm_sequenceID m) false w) as [Hanchor _].
  set (w1 := (ackHandled hasAck (sm_sequenceID m) false w).1) in *.
  assert (AbortSession ExpiredFrameError ∉ (ackHandled hasAck (sm_sequenceID m) false w).2) as Hno1.
  { unfold ackHandled. case_decide; [by intros ?%elem_of_nil|]. destruct hasAck; cbn; set_solver. }
  assert (∀ w2, AbortSession ExpiredFrameError ∉ (readOn w2).2) as Hno2
    by (intros w2; unfold readOn; destruct (isClosing w2); cbn; set_solver).
  cbn [emit fst snd]. rewrite elem_of_cons, !elem_of_app.
  assert (AbortSession ExpiredFrameError ∈ (failExpired (sm_sequenceID m) w1).2 <->
    ∃ s, s ∈ known tr ∧ (value s < value (sm_sequenceID m))%N) as <-; [|set_solver].
  unfold failExpired. rewrite Hanchor. destruct (anchor w) as [a|]; cbn in Ha.
  - destruct Ha as [Hin Hmin]. assert (allDigits a = true) as Had by (rewrite Forall_forall in Hk; by apply Hk).
    pose proof (precedes_value a _ Had Hm) as Hp. destruct (precedesSequenceID a (sm_sequenceID m)); cbn.
    + split; [|set_solver]. intros _. exists a. split; [done|]. by apply Hp.
    + split; [by intros ?%elem_of_nil|]. intros (s & Hs & Hlt). specialize (Hmin s Hs).
      assert (false = true) as [=]. apply Hp. lia.
  - split; [by intros ?%elem_of_nil|]. intros (s & Hs & _). rewrite Ha in Hs. by apply elem_of_nil in Hs.
Qed.

(** ** A session of it *)

Module Session.
Definition decodeText (b : bytes) : option string := match b with [] => None | _ => Some "text" end.
Definition parseJSON (_ : string) : option json := Some (envelopeObject (mkTunnelEnvelope "g" "c")).
Definition decode := decodeEnvelope decodeText parseJSON.

Definition message (id : string) (payload : bytes) : StoredMessage := mkStoredMessage id "did:b" "t" payload None.

(** One that does not decode, one that opens, one that has expired. *)
Definition events : list SealedEvent :=
  [NextCalled; InnerAnswers (NextValue (message "1" [])); InnerAnswers (NextValue (message "9" [Byte.x00]));
   Decrypted (Ok []); AckCalled "9"; NextCalled; InnerAnswers (NextValue (message "10" [Byte.x00]))].
Definition final : Sealed * SealedTrace :=
  default (wrapHub, []) (mrun (sealedStep (fun _ => "") (fun _ => Some []) decode "g" true) events wrapHub).

Lemma session_trace : sealed_trace (fun _ => "") (fun _ => Some []) decode "g" true final.2 final.1.
Proof. apply (mrun_init events). vm_compute. reflexivity. Qed.
End Session.

Lemma sealed_acks_once_witness :
  (taken Session.final.2).1 = ["1"; "9"; "10"] ∧
  (taken Session.final.2).1 = acked_upstream Session.final.2 ++ opening Session.final.1.
Proof.
  split; [by vm_compute|].
  apply (sealed_acks_once (fun _ => "") (fun _ => Some []) Session.decodeText Session.parseJSON "g" Session.final.2
    Session.final.1 (mkDrive None false) Session.session_trace). by vm_compute.
Defined.

Lemma expired_fails_session_witness :
  let r := default (Session.final.1, []) (sealedStep (fun _ => "") (fun _ => Some []) Session.decode "g" true
    (Decrypted (Err ExpiredFrameError)) Session.final.1) in
  known Session.final.2 = ["9"] ∧ AbortSession ExpiredFrameError ∈ r.2.
Proof.
  split; [by vm_compute|].
  apply (expired_fails_session (fun _ => "") (fun _ => Some []) Session.decode "g" true Session.final.2 Session.final.1
    (Session.message "10" [Byte.x00])
    (default (Session.final.1, []) (sealedStep (fun _ => "") (fun _ => Some []) Session.decode "g" true
      (Decrypted (Err ExpiredFrameError)) Session.final.1)).1); [exact Session.session_trace|by vm_compute| |by vm_compute|].
  - assert (known Session.final.2 = ["9"]) as -> by (by vm_compute). by repeat constructor.
  - exists "9". split; [|by vm_compute]. assert (known Session.final.2 = ["9"]) as -> by (by vm_compute). by left.
Defined.
